(* ===== verification/_CoqProject ===== *)
-Q . S2P
Prelude.v
Generator.v
GeneratorSpec.v
EchoGolden.v
Goroutine.v
Simulation.v
Track.v
Status.v
Context.v
Conn.v
Strconv.v
Stream.v
World.v
StreamOps.v
MuxOps.v
Endpoint.v
Admission.v
Alone.v
Ledger.v
Routing.v
Lifecycle.v
FlowControl.v
SendWait.v
Options.v
Server.v
Oblivious.v
Dispatch.v
Metadata.v
Registrar.v
Client.v
Dial.v
Net.v
Delivery.v
Origin.v
Credit.v
Messages.v
Window.v
Echo.v
EchoGrpc.v
ExampleServer.v
Bridge.v
Examples.v
EndToEnd.v
