(* ===== verification/Prelude.v ===== *)
(** * ws-proto: a verification development of the Go runtime and code generator

    ws-proto carries gRPC-style calls over one WebSocket.  Every call is a stream of
    frames (OPEN, HEADER, MSG, HALF_CLOSE, WINDOW_UPDATE, END, RST) that a
    multiplexer at each end of the connection sends and routes by stream id, with a
    byte window per stream.  protoc-gen-go-ws generates, for every service of a proto
    file, the adapters between user code and that runtime.  This library models the
    Go runtime (src/wsrpc), the generator (src/generator), the service it generates
    for the example and the example server, and proves what makes them correct.

    ** The program and the files

    - transport/transport.pb.go (the frame envelope), wsrpc/status.go and the status
      conversions of wsrpc/stream.go: Status.v.
    - The [context] package as the runtime uses it: Context.v.  [strconv] as the
      deadline header uses it: Strconv.v.
    - wsrpc/codec.go, pipe.go, wsconn.go: Conn.v.  [FrameConn] is a class of
      operations; [FrameConnOk] states what a connection promises (two queues of
      frames, read in order) and is discharged for the pipe and for the WebSocket
      adapter.
    - wsrpc/stream.go: Stream.v has the [Stream] struct and the body of every critical
      section, StreamOps.v the methods.
    - wsrpc/mux.go: World.v has the [Mux] struct, wsrpc/stats.go and the state of one
      endpoint; MuxOps.v has the read loop, routing, registry, control writer,
      keepalive, client streams and teardown.
    - wsrpc/options.go, callopt.go and the options of reconnect.go: Options.v.
    - wsrpc/server.go, middleware.go: Server.v.
    - wsrpc/client.go, reconnect.go: Client.v has the state of a client connection and
      its reconnect controller, Dial.v how a connection is opened.
    - wsrpc/dispatch.go, interceptor.go: Dispatch.v.
    - wsrpc/metadata.go, bridge.go: Metadata.v.  wsrpc/grpc_registrar.go: Registrar.v.
    - generator/*.go and cmd/protoc-gen-go-ws/main.go: Generator.v; GeneratorSpec.v has
      the theorems.  A generated file is
      a log of the lines printed and of the identifiers qualified, from which the
      import block is computed.
    - example/proto/echo/v1/echo_ws.pb.go: EchoGolden.v has its text, Echo.v what its
      code does (registrar, adapters, gRPC bridge, client).
    - example/proto/echo/v1/echo_grpc.pb.go, the server half: EchoGrpc.v.
    - example/server/main.go: ExampleServer.v.
    - A client and a server joined by a pipe: Net.v (all interleavings, and a scheduler
      that computes one); EndToEnd.v runs the example over it.

    Some files carry no code of the program but what is needed to reason about
    whole networks: Track.v is a program logic in which every goroutine has a local
    ghost state (SendWait.v uses it too); Ledger.v says what a goroutine of the runtime may hold between two
    actions (credit for a message, a frame, an id, a stream that is not registered
    yet), how each action moves it, and that every method obeys these rules;
    Delivery.v and Credit.v are the invariants of one endpoint that follow from the
    rules alone, for messages and for flow control; Origin.v is about stream ids.
    Simulation.v has the rules to show that one goroutine simulates another when both
    keep private state, Oblivious.v that the runtime does not see the private state of
    the gRPC adapters, and Bridge.v compares the two adapters.

    ** How the code is modelled

    Goroutines share mutable state, so a method is not a function but a [Prog]
    (Goroutine.v): a sequence of atomic actions on the [World].  One action is one
    critical section of a mutex, one channel operation, one [select] or one call of
    the connection.  It maps the world to the list of its outcomes: none when the
    call blocks, several when a [select] has several ready cases or an I/O call may
    fail.  A mutex that is held across several actions (the stream's around
    [sendCond.Wait], the mux's in [failAll], [writeMu] around a write, [endOne]) is a
    flag of the state, so other goroutines wait for it and interleave around it.
    [sync.Cond] is modelled by its tickets, which makes a lost wake-up visible.
    Programs run in a pool: any goroutine takes the next step, and the wire, the
    timers and the user's code take steps of their own in between.  Streams, metadata
    sinks, gRPC server streams and the shims of the generated bridge are heap objects
    that everybody holds by address.  Net.v runs two such pools, one per end of a pipe.
    Integers are Z with the wrap-around of their width written out.  A Go map that
    may be nil is an option.  A panic of a handler is a value.

    Nothing runs on fuel: that a program returns is the inductive predicate [total]
    (run alone it never blocks and terminates, whatever the outcomes of its actions).
    [run], [run_schedule] and [net_run], used to exhibit runs, are bounded by the length
    of the schedule or by a number of rounds; a run that stops early shows less, never
    something false.  [suspends] is the same as [total] for a program that comes to wait
    for others: it says where it blocks, and what is left of it can be run later, from
    another world.

    What the code calls and this repository does not contain is a parameter: the
    WebSocket library and the wire encoding (Conn.v), gRPC's status, metadata,
    service descriptions, interceptors and codec ([GrpcLib], [GrpcMetadata] with
    their documented laws, arguments of Registrar.v), [proto.Marshal], the HTTP
    upgrade and [websocket.Dial], the random source of the backoff, the message
    encodings of the echo service, gRPC's interceptors.  protogen's descriptors are
    records with the fields the generator reads, and its import naming is the
    documented one.  Instances that satisfy the laws are given next to them and used
    by the concrete runs.

    ** What is proved

    - Endpoint.v: in every interleaving of the read loop, the control writer, keepalive
      and any goroutines that call the runtime, the state of an endpoint is
      well-formed and only moves forwards.  Dispatch.v, Registrar.v and ExampleServer.v
      show that calls, gRPC handlers and the generated adapters are such goroutines.
    - Net.v, refinement: two endpoints over a pipe, each with any goroutines that call
      the runtime, implement a pair of FIFO channels, whatever the interleaving.
    - Messages.v, for such networks and every interleaving: what receivers took from a
      stream and its backlog are the messages the other side wrote for it, in order,
      without a gap, from its opening on; and unless its context was cancelled, once its
      end is recorded, all of them, and once it is half-closed, all that were written
      before.  Every stream of the server belongs
      to one OPEN frame and one stream of the client.
    - Window.v, for the same networks: the backlog of a stream is bounded by the window
      of its sender and one message, send windows stay in their range, and where the
      sends on a stream take turns no message with a payload is refused; EndToEnd.v has
      the run in which two goroutines send at once and the stream is reset.
    - FlowControl.v, one stream seen from both ends: a [SendRaw] that is parked without
      credit is released by the window updates the receiver writes when it takes what
      it has buffered.  SendWait.v: in every interleaving, when a parked sender has
      credit or a recorded status, some goroutine is about to wake it; and two
      schedules in which a sender stays parked (a cancelled context, a terminal frame
      that races with the wait).
    - Routing.v: what the read loop does with each kind of frame, that it returns and
      that it never waits for the wire.  Admission.v and Server.v: the stream limit in
      every interleaving.
    - Lifecycle.v: receiving drains the backlog before it reports the end (and Examples.v
      that a half-closed stream may report io.EOF for any status), headers go
      out at most once, the END frame, teardown, stream ids, deadlines.
    - Server.v: every call ends, with the status of its handler or of its panic; the
      origin gate.  Client.v: callers waiting out a reconnect are woken, a closed
      connection stays closed, no connection is leaked, the delays of the backoff are
      exactly the capped exponential range.
    - Dispatch.v: a whole unary call, from the frames it writes to its result for every
      way its stream can have ended; the metadata of interceptors on the wire, and that
      closing a response is local.  Metadata.v and Registrar.v: unary
      response metadata, the life of a unary gRPC call, headers of a streaming one,
      registration, and headers across the bridge.
    - Dial.v: every outcome of opening a connection.
    - GeneratorSpec.v, for every proto file: the emitted types have the methods their
      interfaces demand (the type property), client, registrar and bridge agree on the
      routes, and no import of the emitted file is unused.  EchoGolden.v: on echo.proto
      the generator prints the checked-in file.
    - ExampleServer.v, refinement: the four kinds of calls, served through the generated
      adapters, write the frames of an abstract specification of the service, as long as
      the responses need no credit beyond the window.  Echo.v:
      what becomes of headers set by a gRPC implementation behind the bridge.
    - Bridge.v, refinement: what a bidirectional gRPC method served by the registrar can
      do, it can do served by the generated bridge, in every interleaving of
      the goroutines of a connection.  [stands_for] is what one [grpc.ServerStream]
      must promise to replace another; each adapter is shown to keep it, and the rest
      of the proof uses nothing else of them.
    - Alone.v has the rules for programs that run alone; Examples.v and EndToEnd.v (and
      the ends of SendWait.v, Client.v and EchoGolden.v) have concrete
      states and runs on which the hypotheses of the theorems hold.

    ** What is not modelled, and what is not proved

    Logging, HTTP, TLS and the WebSocket handshake (I/O of libraries); protobuf
    encoding and the reflection code that protoc-gen-go emits; the gRPC client stubs
    of the example, which call the client of gRPC; the plugin protocol of protogen; the
    TypeScript packages.  A message passed to the runtime is a value: a nil message pointer is not one.  The values a
    context carries are modelled only where the runtime reads them (Metadata.v).
    [time] is the environment's: a timer may fire at any step.  The theorems about the
    result of one call (Lifecycle.v, Server.v, Dispatch.v, Registrar.v, ExampleServer.v)
    and FlowControl.v run its program alone, as Alone.v explains; those of Endpoint.v, Net.v, Messages.v,
    Window.v, Admission.v, SendWait.v and Bridge.v hold in every interleaving.  Messages.v and
    Window.v speak of runs in which the 32-bit stream ids of the client do not wrap
    around, and Window.v of windows and messages below 2^63 bytes, which is what an int
    of Go holds; an empty message costs no credit, and whether it is refused depends on
    the messages that overtake it.

    FlowControl.v starts from an account of credit that balances, with nothing in flight;
    that the account of a network balances unless a write fails or a stream is
    cancelled is not proved (Window.v has the inequalities), nor that a call made
    through Net.v returns under a fair schedule.  SendWait.v does not say that a goroutine
    about to broadcast is scheduled.  Bridge.v covers
    bidirectional methods: for the other kinds the registrar and the generated bridge
    do differ (Echo.v has what becomes of headers, and the end of Bridge.v a
    server-streaming call without a request).  It covers implementations that use a
    stream as gRPC allows, one goroutine sending, and that do not read incoming metadata,
    which only the registrar provides ([incoming_metadata_differs]).  [nextBackoff] is
    exact for schedules below 2^53 ns, and string literals ([strconvQuote]) for ASCII. *)

From stdpp Require Export base tactics option list numbers strings gmap sets sorting.
From Stdlib Require Export ZArith Lia.

#[global] Set Default Proof Using "Type".
#[global] Open Scope Z_scope.

(** ** Record update

    Go code updates one field of a struct at a time.  [r <| f := v |>] is the
    record [r] with field [f] replaced; [r <| f ::= g |>] applies [g] to it.
    A record opts in by declaring its eta expansion as an [Eta] instance; the
    setter of a projection is then computed by abstracting the projection in
    that expansion. *)
Class Eta (R : Type) := eta_record : R → R.
Class Setter {R T : Type} (proj : R → T) := set_field : (T → T) → R → R.

Arguments set_field {R T} proj {_} _ !_ /.

Ltac build_setter :=
  lazymatch goal with
  | |- @Setter ?R ?T ?proj =>
      let inst := constr:(_ : Eta R) in
      let body := eval hnf in inst in
      lazymatch eval pattern proj in body with
      | ?abs _ =>
          let t := eval cbv beta in
            (fun (g : T → T) (r : R) => abs (fun x : R => g (proj x)) r) in
          exact t
      end
  end.
#[export] Hint Extern 1 (Setter _) => build_setter : typeclass_instances.

Declare Scope record_scope.
Delimit Scope record_scope with record.
Notation "r <| f := v |>" := (set_field f (fun _ => v) r)
  (at level 1, left associativity, f at level 0, v at level 200,
   format "r  <| f  :=  v |>") : record_scope.
Notation "r <| f ::= g |>" := (set_field f g r)
  (at level 1, left associativity, f at level 0, g at level 200,
   format "r  <| f  ::=  g |>") : record_scope.
#[global] Open Scope record_scope.

(** ** Machine integers

    Go's [int] and [int64] are 64 bits wide, [int32] and [uint32] 32 bits, and
    all four wrap around silently.  A machine integer is a [Z] in range; every
    arithmetic step of the code that may leave the range is written with the
    wrap-around of its width. *)
Definition wrap64 (z : Z) : Z := (z + 2^63) mod 2^64 - 2^63.
Definition wrap32 (z : Z) : Z := (z + 2^31) mod 2^32 - 2^31.
Definition wrapu32 (z : Z) : Z := z mod 2^32.

Definition is_int64 (z : Z) : Prop := - 2^63 ≤ z < 2^63.
Definition is_uint32 (z : Z) : Prop := 0 ≤ z < 2^32.
Definition is_int32 (z : Z) : Prop := - 2^31 ≤ z < 2^31.

Lemma wrap64_id z : is_int64 z → wrap64 z = z.
Proof. unfold is_int64, wrap64. intros. rewrite Z.mod_small; lia. Qed.

Lemma wrap32_id z : is_int32 z → wrap32 z = z.
Proof. unfold is_int32, wrap32. intros. rewrite Z.mod_small; lia. Qed.

Lemma wrapu32_id z : is_uint32 z → wrapu32 z = z.
Proof. unfold is_uint32, wrapu32. intros. rewrite Z.mod_small; lia. Qed.

Lemma wrap64_range z : is_int64 (wrap64 z).
Proof.
  unfold is_int64, wrap64.
  pose proof (Z.mod_pos_bound (z + 2^63) (2^64) ltac:(lia)). lia.
Qed.

Lemma wrapu32_range z : is_uint32 (wrapu32 z).
Proof. unfold is_uint32, wrapu32. apply Z.mod_pos_bound. lia. Qed.

(** Converting a [uint32] to [int32] and back is the identity: both conversions
    keep the 32 bits. *)
Lemma wrapu32_wrap32 z : is_uint32 z → wrapu32 (wrap32 z) = z.
Proof.
  unfold is_uint32, wrapu32, wrap32. intros Hz.
  rewrite Zminus_mod_idemp_l, Z.add_simpl_r. apply Z.mod_small. lia.
Qed.

Lemma wrap32_wrapu32 z : is_int32 z → wrap32 (wrapu32 z) = z.
Proof.
  unfold is_int32, wrapu32, wrap32. intros Hz.
  rewrite Zplus_mod_idemp_l. rewrite Z.mod_small; lia.
Qed.

(** ** Lengths and sums

    Go's [len] of a slice, string or map is a non-negative [int]. *)
Definition len {A} (l : list A) : Z := Z.of_nat (length l).

Lemma len_nonneg {A} (l : list A) : 0 ≤ len l.
Proof. unfold len. lia. Qed.

Lemma len_app {A} (l k : list A) : len (l ++ k) = len l + len k.
Proof. unfold len. rewrite length_app. lia. Qed.

Lemma len_cons {A} (x : A) l : len (x :: l) = 1 + len l.
Proof. unfold len. simpl. lia. Qed.

Lemma len_nil {A} : len (@nil A) = 0.
Proof. reflexivity. Qed.

(** [sum_by f l] is the sum of [f] over [l]. *)
Fixpoint sum_by {A} (f : A → Z) (l : list A) : Z :=
  match l with [] => 0 | x :: l => f x + sum_by f l end.

Lemma sum_by_app {A} (f : A → Z) l k : sum_by f (l ++ k) = sum_by f l + sum_by f k.
Proof. induction l as [|x l IH]; simpl; lia. Qed.

Lemma sum_by_nonneg {A} (f : A → Z) l :
  (∀ x, x ∈ l → 0 ≤ f x) → 0 ≤ sum_by f l.
Proof.
  induction l as [|x l IH]; intros H; simpl; [lia|].
  assert (0 ≤ f x) by (apply H; left).
  assert (0 ≤ sum_by f l) by (apply IH; intros; apply H; by right). lia.
Qed.

Lemma sum_by_delete {A} (f : A → Z) l i x :
  l !! i = Some x → sum_by f l = f x + sum_by f (delete i l).
Proof.
  revert i. induction l as [|y l IH]; intros [|i] H; simplify_eq/=; [lia|].
  apply IH in H. lia.
Qed.

Lemma sum_by_zero {A} (f : A → Z) l : (∀ x, x ∈ l → f x = 0) → sum_by f l = 0.
Proof.
  induction l as [|x l IH]; intros H; simpl; [done|].
  rewrite (H x), IH; [done| |left]. intros y Hy. apply H. by right.
Qed.

(** One, or two, elements of a sum of non-negative terms. *)
Lemma sum_by_insert {A} (f : A → Z) l i x y :
  l !! i = Some x → sum_by f (<[i:=y]> l) = sum_by f l - f x + f y.
Proof.
  revert i. induction l as [|z l IH]; intros [|i] Hi; simplify_eq/=; [lia|]. specialize (IH i Hi). lia.
Qed.

Lemma sum_by_one {A} (f : A → Z) l i x :
  (∀ y, 0 ≤ f y) → l !! i = Some x → f x ≤ sum_by f l.
Proof.
  intros Hf Hi. rewrite (sum_by_delete f _ _ _ Hi).
  pose proof (sum_by_nonneg f (delete i l) (λ y _, Hf y)). lia.
Qed.

Lemma sum_by_two {A} (f : A → Z) l i j x y :
  (∀ y, 0 ≤ f y) → i ≠ j → l !! i = Some x → l !! j = Some y → f x + f y ≤ sum_by f l.
Proof.
  intros Hf. revert i j. induction l as [|z l IH]; intros [|i] [|j] Hij Hi Hj; simplify_eq/=.
  - pose proof (sum_by_one f l j y Hf Hj). lia.
  - pose proof (sum_by_one f l i x Hf Hi). lia.
  - specialize (Hf z). assert (i ≠ j) as Hne by congruence. specialize (IH i j Hne Hi Hj). lia.
Qed.

Lemma permutations_not_nil {A} (l : list A) : permutations l ≠ [].
Proof. intros E. pose proof (permutations_refl l) as H. rewrite E in H. by apply not_elem_of_nil in H. Qed.

Lemma fmap_nil_iff {A B} (f : A → B) (l : list A) : f <$> l = [] ↔ l = [].
Proof. by destruct l. Qed.

(** ** Automation *)

(** Split every conjunction, existential and list membership a run produced. *)
Ltac inv_elem :=
  simplify_eq/=;
  repeat match goal with
  | H : _ ∈ [] |- _ => by apply not_elem_of_nil in H
  | H : _ ∈ [_] |- _ => apply list_elem_of_singleton in H
  | H : _ ∈ _ :: _ |- _ => apply elem_of_cons in H as [H|H]
  | H : _ ∈ _ ++ _ |- _ => apply elem_of_app in H as [H|H]
  | H : (_, _) = (_, _) |- _ => injection H; clear H; intros
  end; simplify_eq/=.

Create HintDb wsrpc.
Create Rewrite HintDb wsrpc.
#[export] Hint Resolve len_nonneg wrap64_range wrapu32_range : wsrpc.
#[export] Hint Rewrite @len_app @len_cons @len_nil @sum_by_app : wsrpc.
