(* ===== verification/Generator.v ===== *)
(** * The code generator

    [generator/]: what protoc-gen-go-ws emits for the services of a proto file.
    A [GeneratedFile] of protogen is a log of two kinds of events, in the order of
    the calls: a line that was printed, and a package that was imported because an
    identifier of it was qualified.

    Of protogen the model has what its documentation says: [P] prints its arguments
    as one line, without spaces between them; [QualifiedGoIdent] returns the name of
    an identifier, qualified with the local name of its package and importing that
    package when it is not the package of the file.  The local names are a
    parameter.  Names of services, methods and messages are ASCII, as in proto
    files. *)

From S2P Require Import Prelude.
From Stdlib Require Strings.String.
From Stdlib Require Import Ascii.

(** ** Characters and strings *)

Definition chr (n : nat) : string := String (ascii_of_nat n) EmptyString.
Definition dq : string := chr 34.
Definition tab : string := chr 9.
Definition tab2 : string := tab +:+ tab.
Definition tab3 : string := tab2 +:+ tab.

(** [unicode.ToLower] on an ASCII letter. *)
Definition ToLower (a : ascii) : ascii :=
  let n := nat_of_ascii a in
  if (65 <=? n)%nat && (n <=? 90)%nat then ascii_of_nat (n + 32) else a.

(** [unexport]: the first letter in lower case. *)
Definition unexport (s : string) : string :=
  match s with
  | EmptyString => EmptyString
  | String a s => String (ToLower a) s
  end.

(** [strconv.Quote] on an ASCII string: the escape of one character. *)
Definition hex_digit (n : nat) : ascii :=
  if (n <? 10)%nat then ascii_of_nat (48 + n) else ascii_of_nat (87 + n).

Definition quote_char (a : ascii) : string :=
  let n := nat_of_ascii a in
  if (n =? 34)%nat || (n =? 92)%nat then chr 92 +:+ chr n
  else if (n =? 7)%nat then chr 92 +:+ "a"
  else if (n =? 8)%nat then chr 92 +:+ "b"
  else if (n =? 12)%nat then chr 92 +:+ "f"
  else if (n =? 10)%nat then chr 92 +:+ "n"
  else if (n =? 13)%nat then chr 92 +:+ "r"
  else if (n =? 9)%nat then chr 92 +:+ "t"
  else if (n =? 11)%nat then chr 92 +:+ "v"
  else if (n <? 32)%nat || (n =? 127)%nat then
    chr 92 +:+ "x" +:+ String (hex_digit (n / 16)) (String (hex_digit (n mod 16)) EmptyString)
  else String a EmptyString.

Fixpoint quote_body (s : string) : string :=
  match s with
  | EmptyString => EmptyString
  | String a s => quote_char a +:+ quote_body s
  end.

Definition strconvQuote (s : string) : string := dq +:+ quote_body s +:+ dq.

(** ** protogen *)

Record GoIdent := mkGoIdent { IdentName : string; IdentPath : string }.

Record Method := mkMethod {
  m_GoName : string;
  m_Name : string;             (* Desc.Name() *)
  m_Input : GoIdent;
  m_Output : GoIdent;
  IsStreamingClient : bool;
  IsStreamingServer : bool
}.

Record Service := mkService { s_GoName : string; s_FullName : string; s_Methods : list Method }.

Record File := mkFile {
  f_Generate : bool;
  f_Services : list Service;
  f_Prefix : string;           (* GeneratedFilenamePrefix *)
  f_Path : string;             (* GoImportPath *)
  f_Package : string;          (* GoPackageName *)
  f_Desc : string              (* Desc.Path() *)
}.

Inductive Emit := Import (path : string) | Line (args : list string).

#[export] Instance Emit_eq_dec : EqDecision Emit.
Proof. solve_decision. Defined.

(** A computation that emits. *)
Definition Gen (A : Type) : Type := list Emit * A.

Definition gret {A} (a : A) : Gen A := ([], a).
Definition gbind {A B} (m : Gen A) (f : A → Gen B) : Gen B :=
  let r := f m.2 in (m.1 ++ r.1, r.2).

Declare Scope gen_scope.
Delimit Scope gen_scope with gen.
Bind Scope gen_scope with Gen.
Notation "x <- m ;; k" := (gbind m (λ x, k))
  (at level 100, m at next level, k at level 200, right associativity) : gen_scope.
Notation "m ;; k" := (gbind m (λ _, k))
  (at level 100, k at level 200, right associativity) : gen_scope.
#[local] Open Scope gen_scope.

Fixpoint gfor {X} (l : list X) (f : X → Gen unit) : Gen unit :=
  match l with
  | [] => gret ()
  | x :: l => f x ;; gfor l f
  end.

(** [gf.P(args...)]. *)
Definition P (args : list string) : Gen unit := ([Line args], ()).

(** ** qualify.go *)

Definition wsrpcImport : string := "github.com/gopherex/ws-proto/wsrpc".
Definition protoImport : string := "google.golang.org/protobuf/proto".
Definition contextImport : string := "context".
Definition ioImport : string := "io".
Definition grpcImport : string := "google.golang.org/grpc".
Definition metadataImport : string := "google.golang.org/grpc/metadata".
Definition codesImport : string := "google.golang.org/grpc/codes".

Definition methodRoute (svc : Service) (m : Method) : string :=
  "/" +:+ s_FullName svc +:+ "/" +:+ m_Name m.

Inductive rpcKind := kindUnary | kindServerStream | kindClientStream | kindBidi.

#[export] Instance rpcKind_eq_dec : EqDecision rpcKind.
Proof. solve_decision. Defined.

Definition methodKind (m : Method) : rpcKind :=
  match IsStreamingClient m, IsStreamingServer m with
  | false, false => kindUnary
  | false, true => kindServerStream
  | true, false => kindClientStream
  | true, true => kindBidi
  end.

Definition serverWrapperName (svc : Service) (m : Method) : string :=
  s_GoName svc +:+ "_" +:+ m_GoName m +:+ "ServerWS".
Definition clientWrapperName (svc : Service) (m : Method) : string :=
  s_GoName svc +:+ "_" +:+ m_GoName m +:+ "ClientWS".
Definition clientIfaceName (svc : Service) : string := s_GoName svc +:+ "WSClient".
Definition clientImplName (svc : Service) : string := unexport (s_GoName svc) +:+ "WSClient".
Definition clientCtorName (svc : Service) : string := "New" +:+ s_GoName svc +:+ "WSClient".
Definition grpcStreamName (svc : Service) : string := unexport (s_GoName svc) +:+ "GRPCStream".
Definition bridgeName (svc : Service) : string := unexport (s_GoName svc) +:+ "GRPCBridge".

Section generator.
(** The import path of the file that is generated, and the local names of the
    packages it imports. *)
Context (here : string) (local_name : string → string).

Definition qualified (i : GoIdent) : string :=
  if decide (IdentPath i = here) then IdentName i else local_name (IdentPath i) +:+ "." +:+ IdentName i.

Definition QualifiedGoIdent (i : GoIdent) : Gen string :=
  (if decide (IdentPath i = here) then [] else [Import (IdentPath i)], qualified i).

(** [pkg.Ident(name)], qualified. *)
Definition Q (pkg name : string) : Gen string := QualifiedGoIdent (mkGoIdent name pkg).

(** ** service.go *)

(** One method of the handler interface. *)
Definition genHandlerMethod (svc : Service) (m : Method) : Gen unit :=
  req <- QualifiedGoIdent (m_Input m) ;;
  res <- QualifiedGoIdent (m_Output m) ;;
  ctx <- Q contextImport "Context" ;;
  match methodKind m with
  | kindUnary =>
      P [tab; m_GoName m; "(ctx "; ctx; ", req *"; req; ") (*"; res; ", error)"]
  | kindServerStream =>
      P [tab; m_GoName m; "(ctx "; ctx; ", req *"; req; ", stream *"; serverWrapperName svc m; ") error"]
  | kindClientStream =>
      P [tab; m_GoName m; "(ctx "; ctx; ", stream *"; serverWrapperName svc m; ") (*"; res; ", error)"]
  | kindBidi =>
      P [tab; m_GoName m; "(ctx "; ctx; ", stream *"; serverWrapperName svc m; ") error"]
  end.

Definition genServerStreamWrapper (svc : Service) (m : Method) : Gen unit :=
  let name := serverWrapperName svc m in
  req <- QualifiedGoIdent (m_Input m) ;;
  res <- QualifiedGoIdent (m_Output m) ;;
  stream <- Q wsrpcImport "Stream" ;;
  P ["// "; name; " is the typed server stream for "; s_GoName svc; "."; m_GoName m; "."] ;;
  P ["type "; name; " struct {"] ;;
  P [tab; "stream *"; stream] ;;
  P ["}"] ;;
  P [] ;;
  P ["func (x *"; name; ") Send(msg *"; res; ") error {"] ;;
  P [tab; "return x.stream.Send(msg)"] ;;
  P ["}"] ;;
  P [] ;;
  P ["func (x *"; name; ") Recv() (*"; req; ", error) {"] ;;
  P [tab; "msg := new("; req; ")"] ;;
  P [tab; "if err := x.stream.Recv(msg); err != nil {"] ;;
  P [tab2; "return nil, err"] ;;
  P [tab; "}"] ;;
  P [tab; "return msg, nil"] ;;
  P ["}"] ;;
  P [] ;;
  ctx <- Q contextImport "Context" ;;
  P ["// RecvContext is Recv that also returns ctx.Err() when ctx ends; a buffered"] ;;
  P ["// request is delivered first, and an ended receive leaves the stream as it was."] ;;
  P ["func (x *"; name; ") RecvContext(ctx "; ctx; ") (*"; req; ", error) {"] ;;
  P [tab; "msg := new("; req; ")"] ;;
  P [tab; "if err := x.stream.RecvContext(ctx, msg); err != nil {"] ;;
  P [tab2; "return nil, err"] ;;
  P [tab; "}"] ;;
  P [tab; "return msg, nil"] ;;
  P ["}"] ;;
  P [] ;;
  P ["func (x *"; name; ") Context() "; ctx; " {"] ;;
  P [tab; "return x.stream.Context()"] ;;
  P ["}"] ;;
  P [].

(** The request of a unary or server-streaming adapter. *)
Definition genRecvRequest (req : string) : Gen unit :=
  P [tab2; "req := new("; req; ")"] ;;
  ioEOF <- Q ioImport "EOF" ;;
  P [tab2; "if err := s.Recv(req); err != nil && err != "; ioEOF; " {"] ;;
  P [tab3; "return err"] ;;
  P [tab2; "}"].

(** One registration. *)
Definition genRegister (svc : Service) (m : Method) (ctx streamType : string) : Gen unit :=
  let route := methodRoute svc m in
  let wrapper := serverWrapperName svc m in
  req <- QualifiedGoIdent (m_Input m) ;;
  P [tab; "srv.Register("; strconvQuote route; ", func(ctx "; ctx; ", s *"; streamType; ") error {"] ;;
  match methodKind m with
  | kindUnary =>
      withUnaryMD <- Q wsrpcImport "WithUnaryMetadata" ;;
      genRecvRequest req ;;
      P [tab2; "ctx, umd := "; withUnaryMD; "(ctx)"] ;;
      P [tab2; "res, err := impl."; m_GoName m; "(ctx, req)"] ;;
      P [tab2; "if err != nil {"] ;;
      P [tab3; "return err"] ;;
      P [tab2; "}"] ;;
      P [tab2; "if h := umd.Header(); h != nil {"] ;;
      P [tab3; "_ = s.SendHeader(h)"] ;;
      P [tab2; "}"] ;;
      P [tab2; "s.SetTrailer(umd.Trailer())"] ;;
      P [tab2; "return s.Send(res)"]
  | kindServerStream =>
      genRecvRequest req ;;
      P [tab2; "return impl."; m_GoName m; "(ctx, req, &"; wrapper; "{stream: s})"]
  | kindClientStream =>
      P [tab2; "res, err := impl."; m_GoName m; "(ctx, &"; wrapper; "{stream: s})"] ;;
      P [tab2; "if err != nil {"] ;;
      P [tab3; "return err"] ;;
      P [tab2; "}"] ;;
      P [tab2; "return s.Send(res)"]
  | kindBidi =>
      P [tab2; "return impl."; m_GoName m; "(ctx, &"; wrapper; "{stream: s})"]
  end ;;
  P [tab; "})"].

Definition genRegistrar (svc : Service) : Gen unit :=
  srvType <- Q wsrpcImport "Server" ;;
  streamType <- Q wsrpcImport "Stream" ;;
  ctx <- Q contextImport "Context" ;;
  P ["// Register"; s_GoName svc; "Handler registers impl on srv for all "; s_GoName svc; " methods."] ;;
  P ["func Register"; s_GoName svc; "Handler(srv *"; srvType; ", impl "; s_GoName svc; "Handler) {"] ;;
  gfor (s_Methods svc) (λ m, genRegister svc m ctx streamType) ;;
  P ["}"] ;;
  P [].

Definition genService (svc : Service) : Gen unit :=
  P ["// "; s_GoName svc; "Handler is the server API for the "; s_GoName svc; " service."] ;;
  P ["type "; s_GoName svc; "Handler interface {"] ;;
  gfor (s_Methods svc) (genHandlerMethod svc) ;;
  P ["}"] ;;
  P [] ;;
  gfor (s_Methods svc) (λ m,
    if decide (methodKind m = kindUnary) then gret () else genServerStreamWrapper svc m) ;;
  genRegistrar svc.

(** ** client.go *)

(** One method of the client interface. *)
Definition genClientSig (svc : Service) (ctx callOpt : string) (m : Method) : Gen unit :=
  req <- QualifiedGoIdent (m_Input m) ;;
  res <- QualifiedGoIdent (m_Output m) ;;
  match methodKind m with
  | kindUnary =>
      P [tab; m_GoName m; "(ctx "; ctx; ", req *"; req; ", opts ..."; callOpt; ") (*"; res; ", error)"]
  | kindServerStream =>
      P [tab; m_GoName m; "(ctx "; ctx; ", req *"; req; ", opts ..."; callOpt; ") (*"; clientWrapperName svc m; ", error)"]
  | kindClientStream | kindBidi =>
      P [tab; m_GoName m; "(ctx "; ctx; ", opts ..."; callOpt; ") (*"; clientWrapperName svc m; ", error)"]
  end.

Definition streamKindIdent (m : Method) : Gen string :=
  match methodKind m with
  | kindServerStream => Q wsrpcImport "StreamKindServerStream"
  | kindClientStream => Q wsrpcImport "StreamKindClientStream"
  | _ => Q wsrpcImport "StreamKindBidiStream"
  end.

Definition genClientStreamWrapper (svc : Service) (m : Method) : Gen unit :=
  let name := clientWrapperName svc m in
  req <- QualifiedGoIdent (m_Input m) ;;
  res <- QualifiedGoIdent (m_Output m) ;;
  connType <- Q wsrpcImport "StreamingClientConn" ;;
  P ["// "; name; " is the typed client stream for "; s_GoName svc; "."; m_GoName m; "."] ;;
  P ["type "; name; " struct {"] ;;
  P [tab; "conn "; connType] ;;
  P ["}"] ;;
  P [] ;;
  P ["func (x *"; name; ") Send(msg *"; req; ") error {"] ;;
  P [tab; "return x.conn.Send(msg)"] ;;
  P ["}"] ;;
  P [] ;;
  P ["func (x *"; name; ") Recv() (*"; res; ", error) {"] ;;
  P [tab; "msg := new("; res; ")"] ;;
  P [tab; "if err := x.conn.Receive(msg); err != nil {"] ;;
  P [tab2; "return nil, err"] ;;
  P [tab; "}"] ;;
  P [tab; "return msg, nil"] ;;
  P ["}"] ;;
  P [] ;;
  P ["func (x *"; name; ") CloseSend() error {"] ;;
  P [tab; "return x.conn.CloseRequest()"] ;;
  P ["}"] ;;
  P [] ;;
  P ["// Header returns the leading response headers (KIND_HEADER), if the server sent any."] ;;
  P ["func (x *"; name; ") Header() map[string]string {"] ;;
  P [tab; "return x.conn.ResponseHeader()"] ;;
  P ["}"] ;;
  P [] ;;
  P ["// Trailer returns the response trailers carried on the END frame."] ;;
  P ["func (x *"; name; ") Trailer() map[string]string {"] ;;
  P [tab; "return x.conn.ResponseTrailer()"] ;;
  P ["}"] ;;
  P [] ;;
  if decide (methodKind m = kindClientStream) then
    P ["func (x *"; name; ") CloseAndRecv() (*"; res; ", error) {"] ;;
    P [tab; "if err := x.conn.CloseRequest(); err != nil {"] ;;
    P [tab2; "return nil, err"] ;;
    P [tab; "}"] ;;
    P [tab; "return x.Recv()"] ;;
    P ["}"] ;;
    P []
  else gret ().

Definition genReturnErr : Gen unit :=
  P [tab; "if err != nil {"] ;;
  P [tab2; "return nil, err"] ;;
  P [tab; "}"].

Definition genClientMethod (svc : Service) (impl : string) (m : Method) : Gen unit :=
  ctx <- Q contextImport "Context" ;;
  callOpt <- Q wsrpcImport "CallOption" ;;
  callHeaders <- Q wsrpcImport "CallHeaders" ;;
  methodSpec <- Q wsrpcImport "MethodSpec" ;;
  req <- QualifiedGoIdent (m_Input m) ;;
  res <- QualifiedGoIdent (m_Output m) ;;
  let route := methodRoute svc m in
  let wrapper := clientWrapperName svc m in
  match methodKind m with
  | kindUnary =>
      invokeUnary <- Q wsrpcImport "InvokeUnary" ;;
      protoMsg <- Q protoImport "Message" ;;
      unaryKind <- Q wsrpcImport "StreamKindUnary" ;;
      P ["func (c *"; impl; ") "; m_GoName m; "(ctx "; ctx; ", req *"; req; ", opts ..."; callOpt; ") (*"; res; ", error) {"] ;;
      P [tab; "out, err := "; invokeUnary; "(ctx, c.cc, "; methodSpec; "{Route: "; strconvQuote route; ", Kind: "; unaryKind; "}, req, func() "; protoMsg; " { return new("; res; ") }, "; callHeaders; "(opts...))"] ;;
      genReturnErr ;;
      P [tab; "return out.(*"; res; "), nil"] ;;
      P ["}"] ;;
      P []
  | kindServerStream =>
      openStream <- Q wsrpcImport "OpenStreamingClient" ;;
      P ["func (c *"; impl; ") "; m_GoName m; "(ctx "; ctx; ", req *"; req; ", opts ..."; callOpt; ") (*"; wrapper; ", error) {"] ;;
      kind <- streamKindIdent m ;;
      P [tab; "conn, err := "; openStream; "(ctx, c.cc, "; methodSpec; "{Route: "; strconvQuote route; ", Kind: "; kind; "}, "; callHeaders; "(opts...))"] ;;
      genReturnErr ;;
      P [tab; "if err := conn.Send(req); err != nil {"] ;;
      P [tab2; "return nil, err"] ;;
      P [tab; "}"] ;;
      P [tab; "if err := conn.CloseRequest(); err != nil {"] ;;
      P [tab2; "return nil, err"] ;;
      P [tab; "}"] ;;
      P [tab; "return &"; wrapper; "{conn: conn}, nil"] ;;
      P ["}"] ;;
      P []
  | kindClientStream | kindBidi =>
      openStream <- Q wsrpcImport "OpenStreamingClient" ;;
      P ["func (c *"; impl; ") "; m_GoName m; "(ctx "; ctx; ", opts ..."; callOpt; ") (*"; wrapper; ", error) {"] ;;
      kind <- streamKindIdent m ;;
      P [tab; "conn, err := "; openStream; "(ctx, c.cc, "; methodSpec; "{Route: "; strconvQuote route; ", Kind: "; kind; "}, "; callHeaders; "(opts...))"] ;;
      genReturnErr ;;
      P [tab; "return &"; wrapper; "{conn: conn}, nil"] ;;
      P ["}"] ;;
      P []
  end.

Definition genClient (svc : Service) : Gen unit :=
  ctx <- Q contextImport "Context" ;;
  ccType <- Q wsrpcImport "ClientConn" ;;
  callOpt <- Q wsrpcImport "CallOption" ;;
  let iface := clientIfaceName svc in
  P ["// "; iface; " is the client API for the "; s_GoName svc; " service."] ;;
  P ["type "; iface; " interface {"] ;;
  gfor (s_Methods svc) (genClientSig svc ctx callOpt) ;;
  P ["}"] ;;
  P [] ;;
  let impl := clientImplName svc in
  P ["type "; impl; " struct {"] ;;
  P [tab; "cc *"; ccType] ;;
  P ["}"] ;;
  P [] ;;
  P ["// "; clientCtorName svc; " returns a "; iface; " backed by cc."] ;;
  P ["func "; clientCtorName svc; "(cc *"; ccType; ") "; iface; " {"] ;;
  P [tab; "return &"; impl; "{cc: cc}"] ;;
  P ["}"] ;;
  P [] ;;
  gfor (s_Methods svc) (λ m,
    if decide (methodKind m = kindUnary) then gret () else genClientStreamWrapper svc m) ;;
  gfor (s_Methods svc) (genClientMethod svc impl).

(** ** adapter.go *)

Definition errorfRef : Gen string := Q wsrpcImport "Errorf".

(** The type assertion at the head of [SendMsg] and [RecvMsg]. *)
Definition genAssertProto (what protoMsg codeInternal : string) : Gen unit :=
  P [tab; "pm, ok := m.("; protoMsg; ")"] ;;
  P [tab; "if !ok {"] ;;
  errorf <- errorfRef ;;
  P [tab2; "return "; errorf; "("; codeInternal; ", "; dq; "wsrpc: "; what; " expected proto.Message"; dq; ")"] ;;
  P [tab; "}"].

Definition genGRPCStreamShim (svc : Service) : Gen unit :=
  let shim := grpcStreamName svc in
  streamType <- Q wsrpcImport "Stream" ;;
  ctx <- Q contextImport "Context" ;;
  mdType <- Q metadataImport "MD" ;;
  protoMsg <- Q protoImport "Message" ;;
  codeInternal <- Q codesImport "Internal" ;;
  P ["// "; shim; " adapts *wsrpc.Stream to grpc.ServerStream. When capturing is set"] ;;
  P ["// (client-streaming), SendMsg captures the response instead of sending it, so"] ;;
  P ["// the bridge can return it through the wsrpc handler contract."] ;;
  flattenMD <- Q wsrpcImport "FlattenMD" ;;
  P ["type "; shim; " struct {"] ;;
  P [tab; "stream        *"; streamType] ;;
  P [tab; "ctx           "; ctx] ;;
  P [tab; "capturing     bool"] ;;
  P [tab; "captured      "; protoMsg] ;;
  P [tab; "pendingHeader "; mdType; " // buffered leading headers, flushed on SendHeader or first SendMsg"] ;;
  P ["}"] ;;
  P [] ;;
  P ["func (x *"; shim; ") Context() "; ctx; " { return x.ctx }"] ;;
  P [] ;;
  P ["// SetHeader buffers leading header metadata; it is sent on the first"] ;;
  P ["// SendMsg or an explicit SendHeader (gRPC ServerStream semantics)."] ;;
  P ["func (x *"; shim; ") SetHeader(md "; mdType; ") error {"] ;;
  P [tab; "if x.pendingHeader == nil {"] ;;
  P [tab2; "x.pendingHeader = "; mdType; "{}"] ;;
  P [tab; "}"] ;;
  P [tab; "for k, v := range md {"] ;;
  P [tab2; "x.pendingHeader[k] = append(x.pendingHeader[k], v...)"] ;;
  P [tab; "}"] ;;
  P [tab; "return nil"] ;;
  P ["}"] ;;
  P [] ;;
  P ["// SendHeader merges md into the pending headers and flushes them as a"] ;;
  P ["// leading KIND_HEADER frame on the underlying wsrpc stream."] ;;
  P ["func (x *"; shim; ") SendHeader(md "; mdType; ") error {"] ;;
  P [tab; "if err := x.SetHeader(md); err != nil {"] ;;
  P [tab2; "return err"] ;;
  P [tab; "}"] ;;
  P [tab; "err := x.stream.SendHeader("; flattenMD; "(x.pendingHeader))"] ;;
  P [tab; "x.pendingHeader = nil"] ;;
  P [tab; "return err"] ;;
  P ["}"] ;;
  P [] ;;
  P ["// SetTrailer merges md into the trailers flushed with the END frame."] ;;
  P ["func (x *"; shim; ") SetTrailer(md "; mdType; ") {"] ;;
  P [tab; "x.stream.SetTrailer("; flattenMD; "(md))"] ;;
  P ["}"] ;;
  P [] ;;
  P ["func (x *"; shim; ") SendMsg(m any) error {"] ;;
  genAssertProto "SendMsg" protoMsg codeInternal ;;
  P [tab; "if x.capturing {"] ;;
  P [tab2; "x.captured = pm"] ;;
  P [tab2; "return nil"] ;;
  P [tab; "}"] ;;
  P [tab; "// Flush any buffered leading headers before the first response message"] ;;
  P [tab; "// (best-effort: ignore FailedPrecondition if headers were already sent)."] ;;
  P [tab; "if x.pendingHeader != nil {"] ;;
  P [tab2; "_ = x.stream.SendHeader("; flattenMD; "(x.pendingHeader))"] ;;
  P [tab2; "x.pendingHeader = nil"] ;;
  P [tab; "}"] ;;
  P [tab; "return x.stream.Send(pm)"] ;;
  P ["}"] ;;
  P [] ;;
  P ["func (x *"; shim; ") RecvMsg(m any) error {"] ;;
  genAssertProto "RecvMsg" protoMsg codeInternal ;;
  P [tab; "return x.stream.Recv(pm)"] ;;
  P ["}"] ;;
  P [].

(** The handler closure of a streaming bridge method; [args] come before the
    generic stream. *)
Definition genBridgeClosure (m : Method) (grpcServerStream genericStream req res args : string) : Gen unit :=
  P [tab; "h := func(_ any, ss "; grpcServerStream; ") error {"] ;;
  P [tab2; "return b.impl."; m_GoName m; "("; args; "&"; genericStream; "["; req; ", "; res; "]{ServerStream: ss})"] ;;
  P [tab; "}"].

(** The end of a server-streaming or bidi bridge method. *)
Definition genBridgeRun (streamInfo route flags : string) : Gen unit :=
  P [tab; "if b.cfg.Stream == nil {"] ;;
  P [tab2; "return h(b.impl, base)"] ;;
  P [tab; "}"] ;;
  P [tab; "info := &"; streamInfo; "{FullMethod: "; route; ", "; flags; "}"] ;;
  P [tab; "return b.cfg.Stream(b.impl, base, info, h)"] ;;
  P ["}"] ;;
  P [].

Definition genBridgeMethod (svc : Service) (bridge : string) (m : Method) : Gen unit :=
  ctx <- Q contextImport "Context" ;;
  req <- QualifiedGoIdent (m_Input m) ;;
  res <- QualifiedGoIdent (m_Output m) ;;
  let wrapper := serverWrapperName svc m in
  let shim := grpcStreamName svc in
  let route := strconvQuote (methodRoute svc m) in
  grpcServerStream <- Q grpcImport "ServerStream" ;;
  genericStream <- Q grpcImport "GenericServerStream" ;;
  unaryInfo <- Q grpcImport "UnaryServerInfo" ;;
  streamInfo <- Q grpcImport "StreamServerInfo" ;;
  codeInternal <- Q codesImport "Internal" ;;
  match methodKind m with
  | kindUnary =>
      newCtxWithTS <- Q grpcImport "NewContextWithServerTransportStream" ;;
      unaryTS <- Q wsrpcImport "UnaryServerTransportStream" ;;
      P ["func (b *"; bridge; ") "; m_GoName m; "(ctx "; ctx; ", req *"; req; ") (*"; res; ", error) {"] ;;
      P [tab; "if b.cfg.Unary == nil {"] ;;
      P [tab2; "return b.impl."; m_GoName m; "(ctx, req)"] ;;
      P [tab; "}"] ;;
      P [tab; "ctx = "; newCtxWithTS; "(ctx, "; unaryTS; "(ctx, "; route; "))"] ;;
      P [tab; "info := &"; unaryInfo; "{Server: b.impl, FullMethod: "; route; "}"] ;;
      P [tab; "resp, err := b.cfg.Unary(ctx, req, info, func(ctx "; ctx; ", r any) (any, error) {"] ;;
      P [tab2; "return b.impl."; m_GoName m; "(ctx, r.(*"; req; "))"] ;;
      P [tab; "})"] ;;
      P [tab; "if err != nil {"] ;;
      P [tab2; "return nil, err"] ;;
      P [tab; "}"] ;;
      P [tab; "out, ok := resp.(*"; res; ")"] ;;
      P [tab; "if !ok {"] ;;
      errorf <- errorfRef ;;
      P [tab2; "return nil, "; errorf; "("; codeInternal; ", "; dq; "wsrpc: "; s_GoName svc; "."; m_GoName m; " interceptor returned unexpected response type"; dq; ")"] ;;
      P [tab; "}"] ;;
      P [tab; "return out, nil"] ;;
      P ["}"] ;;
      P []
  | kindServerStream =>
      P ["func (b *"; bridge; ") "; m_GoName m; "(ctx "; ctx; ", req *"; req; ", stream *"; wrapper; ") error {"] ;;
      P [tab; "base := &"; shim; "{stream: stream.stream, ctx: ctx}"] ;;
      genBridgeClosure m grpcServerStream genericStream req res "req, " ;;
      genBridgeRun streamInfo route "IsServerStream: true"
  | kindClientStream =>
      P ["func (b *"; bridge; ") "; m_GoName m; "(ctx "; ctx; ", stream *"; wrapper; ") (*"; res; ", error) {"] ;;
      P [tab; "base := &"; shim; "{stream: stream.stream, ctx: ctx, capturing: true}"] ;;
      genBridgeClosure m grpcServerStream genericStream req res EmptyString ;;
      P [tab; "var err error"] ;;
      P [tab; "if b.cfg.Stream == nil {"] ;;
      P [tab2; "err = h(b.impl, base)"] ;;
      P [tab; "} else {"] ;;
      P [tab2; "info := &"; streamInfo; "{FullMethod: "; route; ", IsClientStream: true}"] ;;
      P [tab2; "err = b.cfg.Stream(b.impl, base, info, h)"] ;;
      P [tab; "}"] ;;
      P [tab; "if err != nil {"] ;;
      P [tab2; "return nil, err"] ;;
      P [tab; "}"] ;;
      P [tab; "if base.captured == nil {"] ;;
      errorf <- errorfRef ;;
      P [tab2; "return nil, "; errorf; "("; codeInternal; ", "; dq; "wsrpc: "; s_GoName svc; "."; m_GoName m; " handler returned without SendAndClose"; dq; ")"] ;;
      P [tab; "}"] ;;
      P [tab; "return base.captured.(*"; res; "), nil"] ;;
      P ["}"] ;;
      P []
  | kindBidi =>
      P ["func (b *"; bridge; ") "; m_GoName m; "(ctx "; ctx; ", stream *"; wrapper; ") error {"] ;;
      P [tab; "base := &"; shim; "{stream: stream.stream, ctx: ctx}"] ;;
      genBridgeClosure m grpcServerStream genericStream req res EmptyString ;;
      genBridgeRun streamInfo route "IsClientStream: true, IsServerStream: true"
  end.

Definition genGRPCBridge (svc : Service) : Gen unit :=
  let bridge := bridgeName svc in
  cfgType <- Q wsrpcImport "BridgeConfig" ;;
  optType <- Q wsrpcImport "BridgeOption" ;;
  applyOpts <- Q wsrpcImport "ApplyBridgeOptions" ;;
  P ["// "; bridge; " adapts a gRPC "; s_GoName svc; "Server to a "; s_GoName svc; "Handler."] ;;
  P ["type "; bridge; " struct {"] ;;
  P [tab; "impl "; s_GoName svc; "Server"] ;;
  P [tab; "cfg  "; cfgType] ;;
  P ["}"] ;;
  P [] ;;
  P ["// "; s_GoName svc; "FromGRPC wraps a protoc-gen-go-grpc server so it can be"] ;;
  P ["// registered on a wsrpc.Server via Register"; s_GoName svc; "Handler. Optional"] ;;
  P ["// wsrpc.BridgeOption values install gRPC server interceptors run around RPCs."] ;;
  P ["func "; s_GoName svc; "FromGRPC(impl "; s_GoName svc; "Server, opts ..."; optType; ") "; s_GoName svc; "Handler {"] ;;
  P [tab; "return &"; bridge; "{impl: impl, cfg: "; applyOpts; "(opts...)}"] ;;
  P ["}"] ;;
  P [] ;;
  genGRPCStreamShim svc ;;
  gfor (s_Methods svc) (genBridgeMethod svc bridge).

(** ** generator.go *)

(** What is printed for one service, and for one file. *)
Definition genAll (svc : Service) : Gen unit :=
  genService svc ;; genClient svc ;; genGRPCBridge svc.

Definition genFile (f : File) : Gen unit :=
  P ["// Code generated by protoc-gen-go-ws. DO NOT EDIT."] ;;
  P ["// source: "; f_Desc f] ;;
  P [] ;;
  P ["package "; f_Package f] ;;
  P [] ;;
  gfor (f_Services f) genAll.

End generator.

(** A generated file: its name, the packages it imports and its lines. *)
Record Generated := mkGenerated {
  g_Name : string; g_Imports : list string; g_Lines : list string
}.

Definition render (args : list string) : string := String.concat EmptyString args.

Definition imports_of (l : list Emit) : list string :=
  omap (λ e, match e with Import p => Some p | Line _ => None end) l.
Definition lines_of (l : list Emit) : list (list string) :=
  omap (λ e, match e with Line a => Some a | Import _ => None end) l.

(** [Generate]: one file per proto file to generate that declares services. *)
Definition Generate (local_name : string → string) (files : list File) : list Generated :=
  omap (λ f,
    if negb (f_Generate f) || bool_decide (f_Services f = []) then None
    else
      let out := (genFile (f_Path f) local_name f).1 in
      Some (mkGenerated (f_Prefix f +:+ "_ws.pb.go") (imports_of out) (render <$> lines_of out))) files.

(** ** settings.go and cmd/protoc-gen-go-ws/main.go *)

(** [PluginSettings] has no options, so [RegisterFlags] binds none. *)
Record PluginSettings := mkPluginSettings {}.

(** A [flag.FlagSet]: the names that are bound. *)
Definition RegisterFlags (s : PluginSettings) (fs : list string) : list string := fs.

(** [(f *FlagSet) Set]: the error for a name that is not bound. *)
Definition flags_Set (fs : list string) (name value : string) : option string :=
  if decide (name ∈ fs) then None else Some ("no such flag -" +:+ name).

(** The parts of a [protogen.Plugin] the program sets or reads. *)
Record Plugin := mkPlugin { pl_Files : list File; pl_Features : Z; pl_Generated : list Generated }.

Definition FEATURE_PROTO3_OPTIONAL : Z := 1.

(** A [Generator] is its settings and its plugin; [NewGenerator] does not fail. *)
Definition NewGenerator (p : Plugin) (settings : PluginSettings) : string + PluginSettings * Plugin :=
  inr (settings, p).

(** The function [main] gives to [Run]: the plugin afterwards and the error. *)
Definition plugin_func (local_name : string → string) (settings : PluginSettings) (p : Plugin)
    : Plugin * option string :=
  let p := mkPlugin (pl_Files p) FEATURE_PROTO3_OPTIONAL (pl_Generated p) in
  match NewGenerator p settings with
  | inl err => (p, Some err)
  | inr (_, p) =>
      (mkPlugin (pl_Files p) (pl_Features p) (pl_Generated p ++ Generate local_name (pl_Files p)), None)
  end.

(** [main]; [protogen.Options.Run] is an argument. *)
Definition plugin_main {R} (local_name : string → string)
    (Run : (string → string → option string) → (Plugin → Plugin * option string) → R) : R :=
  let settings := mkPluginSettings in
  Run (flags_Set (RegisterFlags settings [])) (plugin_func local_name settings).

(** Whatever [Run] is: every parameter it hands over is refused, and the request is
    answered with the generated files and the proto3-optional feature. *)
Lemma plugin_main_outcome {R} local_name Run :
  plugin_main (R:=R) local_name Run =
  Run (λ name _, Some ("no such flag -" +:+ name))
    (λ p, (mkPlugin (pl_Files p) 1 (pl_Generated p ++ Generate local_name (pl_Files p)), None)).
Proof. done. Qed.
