(* ===== verification/GeneratorSpec.v ===== *)
(** * What the generator guarantees

    Properties of the emitted text for every file: no import is unused, the client
    calls the routes the server registers, the bridge and the client implement the
    interfaces that are emitted, and string literals denote the routes. *)

From S2P Require Import Prelude Generator.
From Stdlib Require Import Ascii.
#[local] Open Scope gen_scope.
#[local] Arguments gbind : simpl never.

(** ** String literals *)

(** Reading a Go string literal back, for the escapes [strconv.Quote] writes. *)
Definition hex_value (a : ascii) : nat :=
  let n := nat_of_ascii a in if (n <? 58)%nat then n - 48 else n - 87.

Definition simple_escape (a : ascii) : option ascii :=
  let n := nat_of_ascii a in
  if (n =? 34)%nat || (n =? 92)%nat then Some a
  else if (n =? 97)%nat then Some (ascii_of_nat 7)
  else if (n =? 98)%nat then Some (ascii_of_nat 8)
  else if (n =? 102)%nat then Some (ascii_of_nat 12)
  else if (n =? 110)%nat then Some (ascii_of_nat 10)
  else if (n =? 114)%nat then Some (ascii_of_nat 13)
  else if (n =? 116)%nat then Some (ascii_of_nat 9)
  else if (n =? 118)%nat then Some (ascii_of_nat 11)
  else None.

(** The literal after its opening quote. *)
Fixpoint unquote_body (s : string) : option string :=
  match s with
  | EmptyString => None
  | String a s =>
      if (nat_of_ascii a =? 34)%nat then match s with EmptyString => Some EmptyString | _ => None end
      else if (nat_of_ascii a =? 92)%nat then
        match s with
        | EmptyString => None
        | String b s =>
            match simple_escape b with
            | Some c => String c <$> unquote_body s
            | None =>
                match s with
                | String h (String l s) =>
                    if (nat_of_ascii b =? 120)%nat
                    then String (ascii_of_nat (16 * hex_value h + hex_value l)) <$> unquote_body s
                    else None
                | _ => None
                end
            end
        end
      else String a <$> unquote_body s
  end.

Definition Unquote (s : string) : option string :=
  match s with
  | String a s => if (nat_of_ascii a =? 34)%nat then unquote_body s else None
  | EmptyString => None
  end.

Lemma app_assoc_string (a b c : string) : (a +:+ b) +:+ c = a +:+ (b +:+ c).
Proof. induction a as [|x a IH]; [done|]. exact (f_equal (String x) IH). Qed.

Lemma app_nil_string (a : string) : a +:+ EmptyString = a.
Proof. induction a as [|x a IH]; [done|]. exact (f_equal (String x) IH). Qed.

Lemma unquote_char a s : unquote_body (quote_char a +:+ s) = String a <$> unquote_body s.
Proof. destruct a as [[] [] [] [] [] [] [] []]; reflexivity. Qed.

Lemma render_foldr l : render l = foldr String.append EmptyString l.
Proof.
  unfold render. induction l as [|x [|y l] IH]; [done|..].
  - symmetry. apply app_nil_string.
  - change (x +:+ String.concat EmptyString (y :: l) = x +:+ foldr String.append EmptyString (y :: l)).
    by rewrite IH.
Qed.

(** A string literal of the generated code denotes the string it was made from. *)
Lemma quote_roundtrip s : Unquote (strconvQuote s) = Some s.
Proof.
  unfold strconvQuote. change (unquote_body (quote_body s +:+ dq) = Some s).
  induction s as [|a s IH]; [done|]. simpl. by rewrite app_assoc_string, unquote_char, IH.
Qed.

(** ** Emitted events *)

Lemma in_bind {A B} (m : Gen A) (f : A → Gen B) e :
  e ∈ (gbind m f).1 ↔ e ∈ m.1 ∨ e ∈ (f m.2).1.
Proof. apply elem_of_app. Qed.

Lemma import_P p a : Import p ∈ (P a).1 ↔ False.
Proof. simpl. rewrite list_elem_of_singleton. naive_solver. Qed.

Lemma in_gfor {X} (l : list X) f e : e ∈ (gfor l f).1 ↔ ∃ x, x ∈ l ∧ e ∈ (f x).1.
Proof.
  induction l as [|x l IH]; simpl.
  - rewrite elem_of_nil. split; [done|]. intros (x & Hx & _). by apply elem_of_nil in Hx.
  - rewrite elem_of_app, IH. setoid_rewrite elem_of_cons. naive_solver.
Qed.

Fixpoint skip_tabs (s : string) : string :=
  match s with
  | String a s' => if (nat_of_ascii a =? 9)%nat then skip_tabs s' else s
  | EmptyString => s
  end.
Definition is_comment (line : string) : bool := String.prefix "//" (skip_tabs line).

Section spec.
Context (here : string) (local_name : string → string).
Abbreviation qualified := (Generator.qualified here local_name).
Abbreviation QualifiedGoIdent := (Generator.QualifiedGoIdent here local_name).
Abbreviation Q := (Generator.Q here local_name).

Lemma import_ident p i : Import p ∈ (QualifiedGoIdent i).1 ↔ p = IdentPath i ∧ p ≠ here.
Proof.
  unfold Generator.QualifiedGoIdent. simpl. case_decide; simpl.
  - rewrite elem_of_nil. split; [done|]. by intros [-> ?].
  - rewrite list_elem_of_singleton. split; [by intros [= ->]|by intros [-> _]].
Qed.

(** A line of code, not of comment, that mentions an identifier of package [p]. *)
Definition uses (p : string) (args : list string) : Prop :=
  is_comment (render args) = false ∧ ∃ i, IdentPath i = p ∧ p ≠ here ∧ qualified i ∈ args.

Definition used_in (p : string) (l : list Emit) : Prop := ∃ a, Line a ∈ l ∧ uses p a.

(** ** Imports *)

Lemma used_bind_l {A B} (m : Gen A) (f : A → Gen B) p : used_in p m.1 → used_in p (gbind m f).1.
Proof. intros (a & Ha & Hu). exists a. split; [|done]. apply in_bind. by left. Qed.
Lemma used_bind_r {A B} (m : Gen A) (f : A → Gen B) p : used_in p (f m.2).1 → used_in p (gbind m f).1.
Proof. intros (a & Ha & Hu). exists a. split; [|done]. apply in_bind. by right. Qed.
Lemma used_P i args :
  IdentPath i ≠ here → is_comment (render args) = false → qualified i ∈ args →
  used_in (IdentPath i) (P args).1.
Proof. intros Hne Hc Hin. exists args. split; [by left|]. split; [done|]. by exists i. Qed.
Lemma used_gfor {X} (l : list X) f x p : x ∈ l → used_in p (f x).1 → used_in p (gfor l f).1.
Proof. intros Hx (a & Ha & Hu). exists a. split; [|done]. apply in_gfor. by exists x. Qed.

(** Finding the line: the first one that has the identifier [i] as an argument. *)
Ltac in_args := first [left; reflexivity | right; in_args].
Ltac find_use i :=
  first
    [ apply (used_P i); [done|reflexivity|]; in_args
    | apply used_bind_l; find_use i
    | apply used_bind_r; find_use i ].

(** Where an import comes from. *)
Ltac inv_import H :=
  repeat match type of H with
  | Import _ ∈ (gbind _ _).1 => apply in_bind in H as [H|H]
  | Import _ ∈ (Generator.QualifiedGoIdent _ _ _).1 => apply import_ident in H as [-> H]
  | Import _ ∈ (Generator.Q _ _ _ _).1 => apply import_ident in H as [-> H]
  | Import _ ∈ (P _).1 => by apply import_P in H
  | Import _ ∈ (gret _).1 => by apply elem_of_nil in H
  | Import _ ∈ (gfor _ _).1 => apply in_gfor in H as (? & ? & H)
  | Import _ ∈ (match ?k with _ => _ end).1 => destruct k eqn:?
  | Import _ ∈ (if decide ?k then _ else _).1 => destruct (decide k)
  end.

(** The packages of a method's own identifiers. *)
Definition method_path (m : Method) (p : string) : Prop :=
  p = grpcImport ∨ p = IdentPath (m_Input m) ∨ p = IdentPath (m_Output m) ∨
  (p = ioImport ∧ IsStreamingClient m = false).

(** The packages a service needs: those of the shim, which is always emitted, and
    those of its methods. *)
Definition service_path (svc : Service) (p : string) : Prop :=
  p ∈ [contextImport; wsrpcImport; metadataImport; protoImport; codesImport] ∨
  ∃ m, m ∈ s_Methods svc ∧ method_path m p.

Lemma single_request m :
  methodKind m = kindUnary ∨ methodKind m = kindServerStream → IsStreamingClient m = false.
Proof. unfold methodKind. destruct (IsStreamingClient m), (IsStreamingServer m); by intros []. Qed.

(** Every case of an import is of one of these. *)
Ltac solve_path :=
  first
    [ left; simpl; in_args
    | right; eexists; split; [eassumption|]; unfold method_path; simpl;
      first [by left | by right; left | by right; right; left
        | right; right; right; split; [done|]; apply single_request; auto] ].

Lemma service_imports svc p :
  Import p ∈ (genService here local_name svc).1 → p ≠ here ∧ service_path svc p.
Proof.
  intros H. unfold genService, genHandlerMethod, genServerStreamWrapper, genRegistrar, genRegister,
    genRecvRequest in H.
  inv_import H; simpl in H; (split; [exact H|]); solve_path.
Qed.

Lemma client_imports svc p :
  Import p ∈ (genClient here local_name svc).1 → p ≠ here ∧ service_path svc p.
Proof.
  intros H. unfold genClient, genClientSig, genClientStreamWrapper, genClientMethod, genReturnErr,
    streamKindIdent in H.
  inv_import H; simpl in H; (split; [exact H|]); solve_path.
Qed.

Lemma bridge_imports svc p :
  Import p ∈ (genGRPCBridge here local_name svc).1 → p ≠ here ∧ service_path svc p.
Proof.
  intros H. unfold genGRPCBridge, genGRPCStreamShim, genAssertProto, genBridgeMethod,
    genBridgeClosure, genBridgeRun, errorfRef in H.
  inv_import H; simpl in H; (split; [exact H|]); solve_path.
Qed.

(** The shim uses the packages every service imports. *)
Lemma shim_uses svc p :
  p ≠ here → p ∈ [contextImport; wsrpcImport; metadataImport; protoImport; codesImport] →
  used_in p (genGRPCStreamShim here local_name svc).1.
Proof.
  intros Hne Hin. unfold genGRPCStreamShim, genAssertProto. rewrite !elem_of_cons, elem_of_nil in Hin.
  destruct Hin as [-> |[-> |[-> |[-> |[-> |[]]]]]].
  - find_use (mkGoIdent "Context" contextImport).
  - find_use (mkGoIdent "Stream" wsrpcImport).
  - find_use (mkGoIdent "MD" metadataImport).
  - find_use (mkGoIdent "Message" protoImport).
  - find_use (mkGoIdent "Internal" codesImport).
Qed.

(** The bridge method of every method uses the grpc package. *)
Lemma bridge_uses svc bridge m :
  grpcImport ≠ here → used_in grpcImport (genBridgeMethod here local_name svc bridge m).1.
Proof.
  intros Hne. unfold genBridgeMethod, genBridgeClosure.
  do 8 apply used_bind_r. destruct (methodKind m).
  - find_use (mkGoIdent "UnaryServerInfo" grpcImport).
  - find_use (mkGoIdent "ServerStream" grpcImport).
  - find_use (mkGoIdent "ServerStream" grpcImport).
  - find_use (mkGoIdent "ServerStream" grpcImport).
Qed.

(** A registration that reads a single request uses io. *)
Lemma register_uses_io svc m ctx st :
  ioImport ≠ here → IsStreamingClient m = false →
  used_in ioImport (genRegister here local_name svc m ctx st).1.
Proof.
  intros Hne Hm. unfold genRegister, genRecvRequest, methodKind. rewrite Hm.
  do 2 apply used_bind_r. apply used_bind_l.
  destruct (IsStreamingServer m); find_use (mkGoIdent "EOF" ioImport).
Qed.

(** The messages of a unary method are in its bridge method, those of a streaming one
    in its wrapper. *)
Lemma unary_uses svc bridge m i :
  methodKind m = kindUnary → i = m_Input m ∨ i = m_Output m → IdentPath i ≠ here →
  used_in (IdentPath i) (genBridgeMethod here local_name svc bridge m).1.
Proof.
  intros Hk Hi Hne. unfold genBridgeMethod. rewrite Hk.
  destruct Hi as [-> | ->]; [find_use (m_Input m)|find_use (m_Output m)].
Qed.

Lemma wrapper_uses svc m i :
  i = m_Input m ∨ i = m_Output m → IdentPath i ≠ here →
  used_in (IdentPath i) (genServerStreamWrapper here local_name svc m).1.
Proof.
  intros Hi Hne. unfold genServerStreamWrapper.
  destruct Hi as [-> | ->]; [find_use (m_Input m)|find_use (m_Output m)].
Qed.

Lemma used_in_bridge svc m p :
  m ∈ s_Methods svc → used_in p (genBridgeMethod here local_name svc (bridgeName svc) m).1 →
  used_in p (genAll here local_name svc).1.
Proof.
  intros Hm Hu. unfold genAll, genGRPCBridge. do 19 apply used_bind_r. by eapply used_gfor.
Qed.

Lemma message_uses svc m i :
  m ∈ s_Methods svc → i = m_Input m ∨ i = m_Output m → IdentPath i ≠ here →
  used_in (IdentPath i) (genAll here local_name svc).1.
Proof.
  intros Hm Hi Hne. destruct (decide (methodKind m = kindUnary)) as [Hk|Hk].
  - eapply used_in_bridge; [done|]. by apply unary_uses.
  - unfold genAll, genService. apply used_bind_l. do 5 apply used_bind_r. apply used_bind_l.
    eapply used_gfor; [done|]. simpl. rewrite decide_False by done. by apply wrapper_uses.
Qed.

Lemma service_path_used svc p :
  p ≠ here → service_path svc p → used_in p (genAll here local_name svc).1.
Proof.
  intros Hne [Hin|(m & Hm & Hp)].
  - unfold genAll, genGRPCBridge. do 18 apply used_bind_r. apply used_bind_l. by apply shim_uses.
  - destruct Hp as [-> |[-> |[-> |[-> Hs]]]].
    + eapply used_in_bridge; [done|]. by apply bridge_uses.
    + eapply message_uses; eauto.
    + eapply message_uses; eauto.
    + unfold genAll, genService, genRegistrar. apply used_bind_l. do 6 apply used_bind_r.
      do 5 apply used_bind_r. apply used_bind_l. eapply used_gfor; [done|]. by apply register_uses_io.
Qed.

(** C29: no import is unused, whatever the services and the kinds of their methods:
    for every package that a generated file imports, a line of it that is not a
    comment mentions an identifier of the package under its local name. *)
Theorem no_unused_import f p :
  Import p ∈ (genFile here local_name f).1 →
  ∃ args i, Line args ∈ (genFile here local_name f).1 ∧ is_comment (render args) = false ∧
    IdentPath i = p ∧ local_name p +:+ "." +:+ IdentName i ∈ args.
Proof.
  intros H. assert (used_in p (genFile here local_name f).1) as (args & Hargs & Hu).
  { unfold genFile in *. inv_import H. do 5 apply used_bind_r. eapply used_gfor; [done|].
    assert (p ≠ here ∧ service_path x p) as [Hne Hp].
    { unfold genAll in H. apply in_bind in H as [H|H]; [by apply service_imports|].
      apply in_bind in H as [H|H]; [by apply client_imports|by apply bridge_imports]. }
    by apply service_path_used. }
  destruct Hu as (Hc & i & Hi & Hne & Hin). exists args, i. split_and!; [done..|].
  unfold Generator.qualified in Hin. rewrite decide_False in Hin by congruence. by rewrite Hi in Hin.
Qed.

(** ** Interfaces *)

Definition text {A} (m : Gen A) : list string := render <$> lines_of m.1.

Lemma in_text {A} (m : Gen A) a : Line a ∈ m.1 → render a ∈ text m.
Proof.
  intros Ha. apply list_elem_of_fmap. exists a. split; [done|].
  apply list_elem_of_omap. by exists (Line a).
Qed.

(** The signature of a method in the handler interface and in the client's. *)
Definition handler_sig (svc : Service) (m : Method) : string :=
  m_GoName m +:+ "(ctx " +:+ qualified (mkGoIdent "Context" contextImport) +:+
  match methodKind m with
  | kindUnary => ", req *" +:+ qualified (m_Input m) +:+ ") (*" +:+ qualified (m_Output m) +:+ ", error)"
  | kindServerStream =>
      ", req *" +:+ qualified (m_Input m) +:+ ", stream *" +:+ serverWrapperName svc m +:+ ") error"
  | kindClientStream =>
      ", stream *" +:+ serverWrapperName svc m +:+ ") (*" +:+ qualified (m_Output m) +:+ ", error)"
  | kindBidi => ", stream *" +:+ serverWrapperName svc m +:+ ") error"
  end.

Definition client_sig (svc : Service) (m : Method) : string :=
  m_GoName m +:+ "(ctx " +:+ qualified (mkGoIdent "Context" contextImport) +:+
  (if IsStreamingClient m then EmptyString else ", req *" +:+ qualified (m_Input m)) +:+
  ", opts ..." +:+ qualified (mkGoIdent "CallOption" wsrpcImport) +:+ ") (*" +:+
  (if decide (methodKind m = kindUnary) then qualified (m_Output m) else clientWrapperName svc m) +:+
  ", error)".

(** A method declaration with this signature. *)
Definition method_decl (recv sig : string) : string := "func (" +:+ recv +:+ ") " +:+ sig +:+ " {".

Lemma text_bind {A B} (m : Gen A) (f : A → Gen B) : text (gbind m f) = text m ++ text (f m.2).
Proof. unfold text, lines_of. change (gbind m f).1 with (m.1 ++ (f m.2).1). by rewrite omap_app, fmap_app. Qed.
Lemma text_ident i : text (QualifiedGoIdent i) = [].
Proof. unfold text, Generator.QualifiedGoIdent. simpl. by case_decide. Qed.
Lemma text_P a : text (P a) = [render a].
Proof. done. Qed.
Lemma text_gfor {X} (l : list X) f : text (gfor l f) = l ≫= λ x, text (f x).
Proof.
  induction l as [|x l IH]; [done|]. change (gfor (x :: l) f) with (f x ;; gfor l f).
  by rewrite text_bind, IH.
Qed.

(** Rewriting a line to the concatenation of its pieces. *)
Ltac norm_text :=
  rewrite ?render_foldr; unfold method_decl; cbn [foldr]; rewrite ?app_assoc_string, ?app_nil_string.

Lemma handler_line svc m :
  text (genHandlerMethod here local_name svc m) = [tab +:+ handler_sig svc m].
Proof.
  unfold genHandlerMethod, handler_sig, Generator.Q. rewrite !text_bind, !text_ident. cbn [app snd].
  destruct (methodKind m); rewrite text_P; norm_text; reflexivity.
Qed.

Lemma client_line svc m :
  text (genClientSig here local_name svc (Q contextImport "Context").2 (Q wsrpcImport "CallOption").2 m) =
    [tab +:+ client_sig svc m].
Proof.
  unfold genClientSig, client_sig, methodKind. rewrite !text_bind, !text_ident. cbn [app snd].
  destruct (IsStreamingClient m), (IsStreamingServer m); rewrite text_P; norm_text; reflexivity.
Qed.

Lemma bridge_line svc m :
  method_decl ("b *" +:+ bridgeName svc) (handler_sig svc m) ∈
    text (genBridgeMethod here local_name svc (bridgeName svc) m).
Proof.
  unfold genBridgeMethod, handler_sig, Generator.Q. rewrite !text_bind, !text_ident. cbn [app snd].
  destruct (methodKind m); unfold errorfRef, Generator.Q; rewrite !text_bind, ?text_ident, !text_P; cbn [app];
    (match goal with |- ?x ∈ ?y :: _ => replace x with y; [left|] end);
    norm_text; reflexivity.
Qed.

Lemma client_method_line svc m :
  method_decl ("c *" +:+ clientImplName svc) (client_sig svc m) ∈
    text (genClientMethod here local_name svc (clientImplName svc) m).
Proof.
  unfold genClientMethod, client_sig, Generator.Q. rewrite !text_bind, !text_ident. cbn [app snd].
  unfold methodKind. destruct (IsStreamingClient m), (IsStreamingServer m);
    rewrite !text_bind, ?text_ident, !text_P; cbn [app];
    (match goal with |- ?x ∈ ?y :: _ => replace x with y; [left|] end);
    norm_text; reflexivity.
Qed.

(** C28: the emitted types implement the emitted interfaces.  The handler interface
    demands one method per RPC, with the signature of its kind, and the gRPC bridge
    declares a method with each of these signatures; the same holds of the client
    interface and the client type. *)
Theorem implements_interfaces svc :
  (∃ pre post, text (genService here local_name svc) =
     pre ++ ["type " +:+ s_GoName svc +:+ "Handler interface {"] ++
     ((λ m, tab +:+ handler_sig svc m) <$> s_Methods svc) ++ ["}"] ++ post) ∧
  (∀ m, m ∈ s_Methods svc →
     method_decl ("b *" +:+ bridgeName svc) (handler_sig svc m) ∈
       text (genGRPCBridge here local_name svc)) ∧
  (∃ pre post, text (genClient here local_name svc) =
     pre ++ ["type " +:+ clientIfaceName svc +:+ " interface {"] ++
     ((λ m, tab +:+ client_sig svc m) <$> s_Methods svc) ++ ["}"] ++ post) ∧
  (∀ m, m ∈ s_Methods svc →
     method_decl ("c *" +:+ clientImplName svc) (client_sig svc m) ∈
       text (genClient here local_name svc)).
Proof.
  assert (∀ (l : list Method) (f : Method → Gen unit) (g : Method → string),
    (∀ m, text (f m) = [g m]) → text (gfor l f) = g <$> l) as Hloop.
  { intros l f g Hfg. rewrite text_gfor. induction l as [|m l IH]; [done|]. csimpl. by rewrite Hfg, IH. }
  split_and!.
  - unfold genService. rewrite !text_bind, !text_P. rewrite (Hloop _ _ _ (handler_line svc)).
    eexists [_], _. simpl. norm_text. reflexivity.
  - intros m Hm. unfold genGRPCBridge. rewrite !text_bind. rewrite !elem_of_app. do 17 right.
    rewrite text_gfor. apply list_elem_of_bind. exists m. split; [apply bridge_line|done].
  - unfold genClient. rewrite !text_bind, !text_P. unfold Generator.Q. rewrite !text_ident.
    rewrite (Hloop _ _ _ (client_line svc)). eexists [_], _. simpl. norm_text. reflexivity.
  - intros m Hm. unfold genClient. rewrite !text_bind. rewrite !elem_of_app. do 18 right.
    rewrite text_gfor. apply list_elem_of_bind. exists m. split; [apply client_method_line|done].
Qed.

(** ** Routes *)

Definition is_registration (line : string) : bool := String.prefix (tab +:+ "srv.Register(") line.

Definition register_line (lit : string) : string :=
  tab +:+ "srv.Register(" +:+ lit +:+ ", func(ctx " +:+ qualified (mkGoIdent "Context" contextImport) +:+
  ", s *" +:+ qualified (mkGoIdent "Stream" wsrpcImport) +:+ ") error {".

Definition kind_ident (m : Method) : string :=
  match methodKind m with
  | kindUnary => "StreamKindUnary"
  | kindServerStream => "StreamKindServerStream"
  | kindClientStream => "StreamKindClientStream"
  | kindBidi => "StreamKindBidiStream"
  end.

(** The part of a client method that names the call. *)
Definition spec_text (lit : string) (m : Method) : string :=
  qualified (mkGoIdent "MethodSpec" wsrpcImport) +:+ "{Route: " +:+ lit +:+ ", Kind: " +:+
  qualified (mkGoIdent (kind_ident m) wsrpcImport) +:+ "}, ".

Definition contains (part : string) (l : list string) : Prop :=
  ∃ a b, a +:+ part +:+ b ∈ l.

Lemma register_text svc m :
  filter is_registration
    (text (genRegister here local_name svc m (Q contextImport "Context").2 (Q wsrpcImport "Stream").2)) =
  [register_line (strconvQuote (methodRoute svc m))].
Proof.
  unfold genRegister, genRecvRequest, Generator.Q. rewrite text_bind, text_ident. cbn [app snd].
  rewrite text_bind, text_P. cbn [app].
  assert (∀ a l, is_registration a = true → filter is_registration l = [] →
    filter is_registration (a :: l) = [a]) as Hone.
  { intros a l Ha Hl. rewrite filter_cons, Ha, Hl. done. }
  rewrite Hone.
  - unfold register_line. norm_text. reflexivity.
  - reflexivity.
  - destruct (methodKind m); rewrite !text_bind, ?text_ident, !text_P; cbn [app]; reflexivity.
Qed.

Lemma ident_name i : (QualifiedGoIdent i).2 = qualified i.
Proof. done. Qed.
Lemma split_literal x : "}, req, func() " +:+ x = "}, " +:+ ("req, func() " +:+ x).
Proof. done. Qed.

(** One line holds the part: the [n]th, between [pre] and [post]. *)
Tactic Notation "solve_contains" integer(n) constr(pre) constr(post) :=
  exists pre, post; do n apply list_elem_of_further;
  match goal with |- ?x ∈ ?y :: _ => replace x with y; [left|] end;
  norm_text; rewrite ?split_literal; reflexivity.

Lemma client_route svc impl m :
  contains (spec_text (strconvQuote (methodRoute svc m)) m)
    (text (genClientMethod here local_name svc impl m)).
Proof.
  unfold genClientMethod, spec_text, kind_ident, streamKindIdent, Generator.Q.
  rewrite !text_bind, !text_ident. cbn [app].
  destruct (methodKind m); rewrite !text_bind, ?text_ident, !text_P; cbn [app]; rewrite !ident_name.
  1: solve_contains 1 (tab +:+ "out, err := " +:+ qualified (mkGoIdent "InvokeUnary" wsrpcImport) +:+ "(ctx, c.cc, ")
    ("req, func() " +:+ qualified (mkGoIdent "Message" protoImport) +:+ " { return new(" +:+
     qualified (m_Output m) +:+ ") }, " +:+ qualified (mkGoIdent "CallHeaders" wsrpcImport) +:+ "(opts...))").
  all: solve_contains 1
    (tab +:+ "conn, err := " +:+ qualified (mkGoIdent "OpenStreamingClient" wsrpcImport) +:+ "(ctx, c.cc, ")
    (qualified (mkGoIdent "CallHeaders" wsrpcImport) +:+ "(opts...))").
Qed.

Lemma bridge_route svc bridge m :
  contains ("FullMethod: " +:+ strconvQuote (methodRoute svc m))
    (text (genBridgeMethod here local_name svc bridge m)).
Proof.
  unfold genBridgeMethod, genBridgeClosure, genBridgeRun, errorfRef, Generator.Q.
  rewrite !text_bind, !text_ident. cbn [app].
  destruct (methodKind m); rewrite !text_bind, ?text_ident, !text_P; cbn [app]; rewrite !ident_name.
  - solve_contains 5 (tab +:+ "info := &" +:+ qualified (mkGoIdent "UnaryServerInfo" grpcImport) +:+
      "{Server: b.impl, ") "}".
  - solve_contains 8 (tab +:+ "info := &" +:+ qualified (mkGoIdent "StreamServerInfo" grpcImport) +:+ "{")
      (", " +:+ "IsServerStream: true" +:+ "}").
  - solve_contains 9 (tab2 +:+ "info := &" +:+ qualified (mkGoIdent "StreamServerInfo" grpcImport) +:+ "{")
      ", IsClientStream: true}".
  - solve_contains 8 (tab +:+ "info := &" +:+ qualified (mkGoIdent "StreamServerInfo" grpcImport) +:+ "{")
      (", " +:+ "IsClientStream: true, IsServerStream: true" +:+ "}").
Qed.

(** C30: client, server and gRPC bridge agree on the routes.  The generated registrar
    has one registration per method, in order, under literals that denote the routes
    /package.Service/Method; for every method the client calls that same route with
    the stream kind of the method, and the bridge gives it to the interceptors. *)
Theorem routes_agree svc :
  ∃ lits, (Unquote <$> lits) = ((λ m, Some (methodRoute svc m)) <$> s_Methods svc) ∧
    filter is_registration (text (genRegistrar here local_name svc)) = (register_line <$> lits) ∧
    ∀ i m lit, s_Methods svc !! i = Some m → lits !! i = Some lit →
      contains (spec_text lit m) (text (genClient here local_name svc)) ∧
      contains ("FullMethod: " +:+ lit) (text (genGRPCBridge here local_name svc)).
Proof.
  exists ((λ m, strconvQuote (methodRoute svc m)) <$> s_Methods svc). split_and!.
  - rewrite <-list_fmap_compose. apply list_fmap_ext. intros i m _. apply quote_roundtrip.
  - unfold genRegistrar. rewrite !text_bind, !text_P. unfold Generator.Q at 1 2 3. rewrite !text_ident.
    rewrite text_gfor. cbn [app]. rewrite !filter_cons.
    rewrite decide_False by exact (λ H, H). rewrite decide_False by exact (λ H, H).
    rewrite filter_app. replace (filter is_registration [render ["}"]; render []]) with ([] : list string) by reflexivity.
    rewrite app_nil_r. induction (s_Methods svc) as [|m l IH]; [done|].
    rewrite bind_cons, filter_app, register_text, IH. done.
  - intros i m lit Hm Hl. rewrite list_lookup_fmap, Hm in Hl. simplify_eq/=.
    apply list_elem_of_lookup_2 in Hm. split.
    + destruct (client_route svc (clientImplName svc) m) as (a & b & Hin). exists a, b.
      unfold genClient. rewrite !text_bind. rewrite !elem_of_app. do 18 right.
      rewrite text_gfor. apply list_elem_of_bind. by exists m.
    + destruct (bridge_route svc (bridgeName svc) m) as (a & b & Hin). exists a, b.
      unfold genGRPCBridge. rewrite !text_bind. rewrite !elem_of_app. do 17 right.
      rewrite text_gfor. apply list_elem_of_bind. by exists m.
Qed.

End spec.

