(* ===== verification/EchoGolden.v ===== *)
(** * The checked-in output of the generator

    [example/proto/echo/v1/echo_ws.pb.go] line by line, without its import block; a
    tilde stands for a tab and a backtick for a double quote.  [echo_file] is the
    description of [echo.proto] that protogen passes to the generator. *)

From S2P Require Import Prelude Generator GeneratorSpec.
From Stdlib Require Import Ascii.

(** The characters that are written differently above. *)
Fixpoint decode (s : string) : string :=
  match s with
  | EmptyString => EmptyString
  | String a s =>
      (if decide (a = "~"%char) then tab else if decide (a = "`"%char) then dq
       else String a EmptyString) +:+ decode s
  end.

Definition echo_path : string := "github.com/gopherex/ws-proto/example/proto/echo/v1".
Definition echo_ident (n : string) : GoIdent := mkGoIdent n echo_path.

Definition echo_method (n : string) (c s : bool) : Method :=
  mkMethod n n (echo_ident (n +:+ "Request")) (echo_ident (n +:+ "Response")) c s.

(** echo.proto *)
Definition echo_service : Service := mkService "EchoService" "echo.v1.EchoService"
  [echo_method "Unary" false false; echo_method "ServerStream" false true;
   echo_method "ClientStream" true false; echo_method "Bidi" true true].

Definition echo_file : File :=
  mkFile true [echo_service] "proto/echo/v1/echo" echo_path "echov1" "proto/echo/v1/echo.proto".

(** The import block: local name and path. *)
Definition echo_imports : list (string * string) :=
  [("context", "context");
   ("wsrpc", "github.com/gopherex/ws-proto/wsrpc");
   ("grpc", "google.golang.org/grpc");
   ("codes", "google.golang.org/grpc/codes");
   ("metadata", "google.golang.org/grpc/metadata");
   ("proto", "google.golang.org/protobuf/proto");
   ("io", "io")].

Definition echo_lines : list string :=
  [ "// Code generated by protoc-gen-go-ws. DO NOT EDIT.";
    "// source: proto/echo/v1/echo.proto";
    EmptyString;
    "package echov1";
    EmptyString;
    "// EchoServiceHandler is the server API for the EchoService service.";
    "type EchoServiceHandler interface {";
    "~Unary(ctx context.Context, req *UnaryRequest) (*UnaryResponse, error)";
    "~ServerStream(ctx context.Context, req *ServerStreamRequest, stream *EchoService_ServerStreamServerWS) error";
    "~ClientStream(ctx context.Context, stream *EchoService_ClientStreamServerWS) (*ClientStreamResponse, error)";
    "~Bidi(ctx context.Context, stream *EchoService_BidiServerWS) error";
    "}";
    EmptyString;
    "// EchoService_ServerStreamServerWS is the typed server stream for EchoService.ServerStream.";
    "type EchoService_ServerStreamServerWS struct {";
    "~stream *wsrpc.Stream";
    "}";
    EmptyString;
    "func (x *EchoService_ServerStreamServerWS) Send(msg *ServerStreamResponse) error {";
    "~return x.stream.Send(msg)";
    "}";
    EmptyString;
    "func (x *EchoService_ServerStreamServerWS) Recv() (*ServerStreamRequest, error) {";
    "~msg := new(ServerStreamRequest)";
    "~if err := x.stream.Recv(msg); err != nil {";
    "~~return nil, err";
    "~}";
    "~return msg, nil";
    "}";
    EmptyString;
    "// RecvContext is Recv that also returns ctx.Err() when ctx ends; a buffered";
    "// request is delivered first, and an ended receive leaves the stream as it was.";
    "func (x *EchoService_ServerStreamServerWS) RecvContext(ctx context.Context) (*ServerStreamRequest, error) {";
    "~msg := new(ServerStreamRequest)";
    "~if err := x.stream.RecvContext(ctx, msg); err != nil {";
    "~~return nil, err";
    "~}";
    "~return msg, nil";
    "}";
    EmptyString;
    "func (x *EchoService_ServerStreamServerWS) Context() context.Context {";
    "~return x.stream.Context()";
    "}";
    EmptyString;
    "// EchoService_ClientStreamServerWS is the typed server stream for EchoService.ClientStream.";
    "type EchoService_ClientStreamServerWS struct {";
    "~stream *wsrpc.Stream";
    "}";
    EmptyString;
    "func (x *EchoService_ClientStreamServerWS) Send(msg *ClientStreamResponse) error {";
    "~return x.stream.Send(msg)";
    "}";
    EmptyString;
    "func (x *EchoService_ClientStreamServerWS) Recv() (*ClientStreamRequest, error) {";
    "~msg := new(ClientStreamRequest)";
    "~if err := x.stream.Recv(msg); err != nil {";
    "~~return nil, err";
    "~}";
    "~return msg, nil";
    "}";
    EmptyString;
    "// RecvContext is Recv that also returns ctx.Err() when ctx ends; a buffered";
    "// request is delivered first, and an ended receive leaves the stream as it was.";
    "func (x *EchoService_ClientStreamServerWS) RecvContext(ctx context.Context) (*ClientStreamRequest, error) {";
    "~msg := new(ClientStreamRequest)";
    "~if err := x.stream.RecvContext(ctx, msg); err != nil {";
    "~~return nil, err";
    "~}";
    "~return msg, nil";
    "}";
    EmptyString;
    "func (x *EchoService_ClientStreamServerWS) Context() context.Context {";
    "~return x.stream.Context()";
    "}";
    EmptyString;
    "// EchoService_BidiServerWS is the typed server stream for EchoService.Bidi.";
    "type EchoService_BidiServerWS struct {";
    "~stream *wsrpc.Stream";
    "}";
    EmptyString;
    "func (x *EchoService_BidiServerWS) Send(msg *BidiResponse) error {";
    "~return x.stream.Send(msg)";
    "}";
    EmptyString;
    "func (x *EchoService_BidiServerWS) Recv() (*BidiRequest, error) {";
    "~msg := new(BidiRequest)";
    "~if err := x.stream.Recv(msg); err != nil {";
    "~~return nil, err";
    "~}";
    "~return msg, nil";
    "}";
    EmptyString;
    "// RecvContext is Recv that also returns ctx.Err() when ctx ends; a buffered";
    "// request is delivered first, and an ended receive leaves the stream as it was.";
    "func (x *EchoService_BidiServerWS) RecvContext(ctx context.Context) (*BidiRequest, error) {";
    "~msg := new(BidiRequest)";
    "~if err := x.stream.RecvContext(ctx, msg); err != nil {";
    "~~return nil, err";
    "~}";
    "~return msg, nil";
    "}";
    EmptyString;
    "func (x *EchoService_BidiServerWS) Context() context.Context {";
    "~return x.stream.Context()";
    "}";
    EmptyString;
    "// RegisterEchoServiceHandler registers impl on srv for all EchoService methods.";
    "func RegisterEchoServiceHandler(srv *wsrpc.Server, impl EchoServiceHandler) {";
    "~srv.Register(`/echo.v1.EchoService/Unary`, func(ctx context.Context, s *wsrpc.Stream) error {";
    "~~req := new(UnaryRequest)";
    "~~if err := s.Recv(req); err != nil && err != io.EOF {";
    "~~~return err";
    "~~}";
    "~~ctx, umd := wsrpc.WithUnaryMetadata(ctx)";
    "~~res, err := impl.Unary(ctx, req)";
    "~~if err != nil {";
    "~~~return err";
    "~~}";
    "~~if h := umd.Header(); h != nil {";
    "~~~_ = s.SendHeader(h)";
    "~~}";
    "~~s.SetTrailer(umd.Trailer())";
    "~~return s.Send(res)";
    "~})";
    "~srv.Register(`/echo.v1.EchoService/ServerStream`, func(ctx context.Context, s *wsrpc.Stream) error {";
    "~~req := new(ServerStreamRequest)";
    "~~if err := s.Recv(req); err != nil && err != io.EOF {";
    "~~~return err";
    "~~}";
    "~~return impl.ServerStream(ctx, req, &EchoService_ServerStreamServerWS{stream: s})";
    "~})";
    "~srv.Register(`/echo.v1.EchoService/ClientStream`, func(ctx context.Context, s *wsrpc.Stream) error {";
    "~~res, err := impl.ClientStream(ctx, &EchoService_ClientStreamServerWS{stream: s})";
    "~~if err != nil {";
    "~~~return err";
    "~~}";
    "~~return s.Send(res)";
    "~})";
    "~srv.Register(`/echo.v1.EchoService/Bidi`, func(ctx context.Context, s *wsrpc.Stream) error {";
    "~~return impl.Bidi(ctx, &EchoService_BidiServerWS{stream: s})";
    "~})";
    "}";
    EmptyString;
    "// EchoServiceWSClient is the client API for the EchoService service.";
    "type EchoServiceWSClient interface {";
    "~Unary(ctx context.Context, req *UnaryRequest, opts ...wsrpc.CallOption) (*UnaryResponse, error)";
    "~ServerStream(ctx context.Context, req *ServerStreamRequest, opts ...wsrpc.CallOption) (*EchoService_ServerStreamClientWS, error)";
    "~ClientStream(ctx context.Context, opts ...wsrpc.CallOption) (*EchoService_ClientStreamClientWS, error)";
    "~Bidi(ctx context.Context, opts ...wsrpc.CallOption) (*EchoService_BidiClientWS, error)";
    "}";
    EmptyString;
    "type echoServiceWSClient struct {";
    "~cc *wsrpc.ClientConn";
    "}";
    EmptyString;
    "// NewEchoServiceWSClient returns a EchoServiceWSClient backed by cc.";
    "func NewEchoServiceWSClient(cc *wsrpc.ClientConn) EchoServiceWSClient {";
    "~return &echoServiceWSClient{cc: cc}";
    "}";
    EmptyString;
    "// EchoService_ServerStreamClientWS is the typed client stream for EchoService.ServerStream.";
    "type EchoService_ServerStreamClientWS struct {";
    "~conn wsrpc.StreamingClientConn";
    "}";
    EmptyString;
    "func (x *EchoService_ServerStreamClientWS) Send(msg *ServerStreamRequest) error {";
    "~return x.conn.Send(msg)";
    "}";
    EmptyString;
    "func (x *EchoService_ServerStreamClientWS) Recv() (*ServerStreamResponse, error) {";
    "~msg := new(ServerStreamResponse)";
    "~if err := x.conn.Receive(msg); err != nil {";
    "~~return nil, err";
    "~}";
    "~return msg, nil";
    "}";
    EmptyString;
    "func (x *EchoService_ServerStreamClientWS) CloseSend() error {";
    "~return x.conn.CloseRequest()";
    "}";
    EmptyString;
    "// Header returns the leading response headers (KIND_HEADER), if the server sent any.";
    "func (x *EchoService_ServerStreamClientWS) Header() map[string]string {";
    "~return x.conn.ResponseHeader()";
    "}";
    EmptyString;
    "// Trailer returns the response trailers carried on the END frame.";
    "func (x *EchoService_ServerStreamClientWS) Trailer() map[string]string {";
    "~return x.conn.ResponseTrailer()";
    "}";
    EmptyString;
    "// EchoService_ClientStreamClientWS is the typed client stream for EchoService.ClientStream.";
    "type EchoService_ClientStreamClientWS struct {";
    "~conn wsrpc.StreamingClientConn";
    "}";
    EmptyString;
    "func (x *EchoService_ClientStreamClientWS) Send(msg *ClientStreamRequest) error {";
    "~return x.conn.Send(msg)";
    "}";
    EmptyString;
    "func (x *EchoService_ClientStreamClientWS) Recv() (*ClientStreamResponse, error) {";
    "~msg := new(ClientStreamResponse)";
    "~if err := x.conn.Receive(msg); err != nil {";
    "~~return nil, err";
    "~}";
    "~return msg, nil";
    "}";
    EmptyString;
    "func (x *EchoService_ClientStreamClientWS) CloseSend() error {";
    "~return x.conn.CloseRequest()";
    "}";
    EmptyString;
    "// Header returns the leading response headers (KIND_HEADER), if the server sent any.";
    "func (x *EchoService_ClientStreamClientWS) Header() map[string]string {";
    "~return x.conn.ResponseHeader()";
    "}";
    EmptyString;
    "// Trailer returns the response trailers carried on the END frame.";
    "func (x *EchoService_ClientStreamClientWS) Trailer() map[string]string {";
    "~return x.conn.ResponseTrailer()";
    "}";
    EmptyString;
    "func (x *EchoService_ClientStreamClientWS) CloseAndRecv() (*ClientStreamResponse, error) {";
    "~if err := x.conn.CloseRequest(); err != nil {";
    "~~return nil, err";
    "~}";
    "~return x.Recv()";
    "}";
    EmptyString;
    "// EchoService_BidiClientWS is the typed client stream for EchoService.Bidi.";
    "type EchoService_BidiClientWS struct {";
    "~conn wsrpc.StreamingClientConn";
    "}";
    EmptyString;
    "func (x *EchoService_BidiClientWS) Send(msg *BidiRequest) error {";
    "~return x.conn.Send(msg)";
    "}";
    EmptyString;
    "func (x *EchoService_BidiClientWS) Recv() (*BidiResponse, error) {";
    "~msg := new(BidiResponse)";
    "~if err := x.conn.Receive(msg); err != nil {";
    "~~return nil, err";
    "~}";
    "~return msg, nil";
    "}";
    EmptyString;
    "func (x *EchoService_BidiClientWS) CloseSend() error {";
    "~return x.conn.CloseRequest()";
    "}";
    EmptyString;
    "// Header returns the leading response headers (KIND_HEADER), if the server sent any.";
    "func (x *EchoService_BidiClientWS) Header() map[string]string {";
    "~return x.conn.ResponseHeader()";
    "}";
    EmptyString;
    "// Trailer returns the response trailers carried on the END frame.";
    "func (x *EchoService_BidiClientWS) Trailer() map[string]string {";
    "~return x.conn.ResponseTrailer()";
    "}";
    EmptyString;
    "func (c *echoServiceWSClient) Unary(ctx context.Context, req *UnaryRequest, opts ...wsrpc.CallOption) (*UnaryResponse, error) {";
    "~out, err := wsrpc.InvokeUnary(ctx, c.cc, wsrpc.MethodSpec{Route: `/echo.v1.EchoService/Unary`, Kind: wsrpc.StreamKindUnary}, req, func() proto.Message { return new(UnaryResponse) }, wsrpc.CallHeaders(opts...))";
    "~if err != nil {";
    "~~return nil, err";
    "~}";
    "~return out.(*UnaryResponse), nil";
    "}";
    EmptyString;
    "func (c *echoServiceWSClient) ServerStream(ctx context.Context, req *ServerStreamRequest, opts ...wsrpc.CallOption) (*EchoService_ServerStreamClientWS, error) {";
    "~conn, err := wsrpc.OpenStreamingClient(ctx, c.cc, wsrpc.MethodSpec{Route: `/echo.v1.EchoService/ServerStream`, Kind: wsrpc.StreamKindServerStream}, wsrpc.CallHeaders(opts...))";
    "~if err != nil {";
    "~~return nil, err";
    "~}";
    "~if err := conn.Send(req); err != nil {";
    "~~return nil, err";
    "~}";
    "~if err := conn.CloseRequest(); err != nil {";
    "~~return nil, err";
    "~}";
    "~return &EchoService_ServerStreamClientWS{conn: conn}, nil";
    "}";
    EmptyString;
    "func (c *echoServiceWSClient) ClientStream(ctx context.Context, opts ...wsrpc.CallOption) (*EchoService_ClientStreamClientWS, error) {";
    "~conn, err := wsrpc.OpenStreamingClient(ctx, c.cc, wsrpc.MethodSpec{Route: `/echo.v1.EchoService/ClientStream`, Kind: wsrpc.StreamKindClientStream}, wsrpc.CallHeaders(opts...))";
    "~if err != nil {";
    "~~return nil, err";
    "~}";
    "~return &EchoService_ClientStreamClientWS{conn: conn}, nil";
    "}";
    EmptyString;
    "func (c *echoServiceWSClient) Bidi(ctx context.Context, opts ...wsrpc.CallOption) (*EchoService_BidiClientWS, error) {";
    "~conn, err := wsrpc.OpenStreamingClient(ctx, c.cc, wsrpc.MethodSpec{Route: `/echo.v1.EchoService/Bidi`, Kind: wsrpc.StreamKindBidiStream}, wsrpc.CallHeaders(opts...))";
    "~if err != nil {";
    "~~return nil, err";
    "~}";
    "~return &EchoService_BidiClientWS{conn: conn}, nil";
    "}";
    EmptyString;
    "// echoServiceGRPCBridge adapts a gRPC EchoServiceServer to a EchoServiceHandler.";
    "type echoServiceGRPCBridge struct {";
    "~impl EchoServiceServer";
    "~cfg  wsrpc.BridgeConfig";
    "}";
    EmptyString;
    "// EchoServiceFromGRPC wraps a protoc-gen-go-grpc server so it can be";
    "// registered on a wsrpc.Server via RegisterEchoServiceHandler. Optional";
    "// wsrpc.BridgeOption values install gRPC server interceptors run around RPCs.";
    "func EchoServiceFromGRPC(impl EchoServiceServer, opts ...wsrpc.BridgeOption) EchoServiceHandler {";
    "~return &echoServiceGRPCBridge{impl: impl, cfg: wsrpc.ApplyBridgeOptions(opts...)}";
    "}";
    EmptyString;
    "// echoServiceGRPCStream adapts *wsrpc.Stream to grpc.ServerStream. When capturing is set";
    "// (client-streaming), SendMsg captures the response instead of sending it, so";
    "// the bridge can return it through the wsrpc handler contract.";
    "type echoServiceGRPCStream struct {";
    "~stream        *wsrpc.Stream";
    "~ctx           context.Context";
    "~capturing     bool";
    "~captured      proto.Message";
    "~pendingHeader metadata.MD // buffered leading headers, flushed on SendHeader or first SendMsg";
    "}";
    EmptyString;
    "func (x *echoServiceGRPCStream) Context() context.Context { return x.ctx }";
    EmptyString;
    "// SetHeader buffers leading header metadata; it is sent on the first";
    "// SendMsg or an explicit SendHeader (gRPC ServerStream semantics).";
    "func (x *echoServiceGRPCStream) SetHeader(md metadata.MD) error {";
    "~if x.pendingHeader == nil {";
    "~~x.pendingHeader = metadata.MD{}";
    "~}";
    "~for k, v := range md {";
    "~~x.pendingHeader[k] = append(x.pendingHeader[k], v...)";
    "~}";
    "~return nil";
    "}";
    EmptyString;
    "// SendHeader merges md into the pending headers and flushes them as a";
    "// leading KIND_HEADER frame on the underlying wsrpc stream.";
    "func (x *echoServiceGRPCStream) SendHeader(md metadata.MD) error {";
    "~if err := x.SetHeader(md); err != nil {";
    "~~return err";
    "~}";
    "~err := x.stream.SendHeader(wsrpc.FlattenMD(x.pendingHeader))";
    "~x.pendingHeader = nil";
    "~return err";
    "}";
    EmptyString;
    "// SetTrailer merges md into the trailers flushed with the END frame.";
    "func (x *echoServiceGRPCStream) SetTrailer(md metadata.MD) {";
    "~x.stream.SetTrailer(wsrpc.FlattenMD(md))";
    "}";
    EmptyString;
    "func (x *echoServiceGRPCStream) SendMsg(m any) error {";
    "~pm, ok := m.(proto.Message)";
    "~if !ok {";
    "~~return wsrpc.Errorf(codes.Internal, `wsrpc: SendMsg expected proto.Message`)";
    "~}";
    "~if x.capturing {";
    "~~x.captured = pm";
    "~~return nil";
    "~}";
    "~// Flush any buffered leading headers before the first response message";
    "~// (best-effort: ignore FailedPrecondition if headers were already sent).";
    "~if x.pendingHeader != nil {";
    "~~_ = x.stream.SendHeader(wsrpc.FlattenMD(x.pendingHeader))";
    "~~x.pendingHeader = nil";
    "~}";
    "~return x.stream.Send(pm)";
    "}";
    EmptyString;
    "func (x *echoServiceGRPCStream) RecvMsg(m any) error {";
    "~pm, ok := m.(proto.Message)";
    "~if !ok {";
    "~~return wsrpc.Errorf(codes.Internal, `wsrpc: RecvMsg expected proto.Message`)";
    "~}";
    "~return x.stream.Recv(pm)";
    "}";
    EmptyString;
    "func (b *echoServiceGRPCBridge) Unary(ctx context.Context, req *UnaryRequest) (*UnaryResponse, error) {";
    "~if b.cfg.Unary == nil {";
    "~~return b.impl.Unary(ctx, req)";
    "~}";
    "~ctx = grpc.NewContextWithServerTransportStream(ctx, wsrpc.UnaryServerTransportStream(ctx, `/echo.v1.EchoService/Unary`))";
    "~info := &grpc.UnaryServerInfo{Server: b.impl, FullMethod: `/echo.v1.EchoService/Unary`}";
    "~resp, err := b.cfg.Unary(ctx, req, info, func(ctx context.Context, r any) (any, error) {";
    "~~return b.impl.Unary(ctx, r.(*UnaryRequest))";
    "~})";
    "~if err != nil {";
    "~~return nil, err";
    "~}";
    "~out, ok := resp.(*UnaryResponse)";
    "~if !ok {";
    "~~return nil, wsrpc.Errorf(codes.Internal, `wsrpc: EchoService.Unary interceptor returned unexpected response type`)";
    "~}";
    "~return out, nil";
    "}";
    EmptyString;
    "func (b *echoServiceGRPCBridge) ServerStream(ctx context.Context, req *ServerStreamRequest, stream *EchoService_ServerStreamServerWS) error {";
    "~base := &echoServiceGRPCStream{stream: stream.stream, ctx: ctx}";
    "~h := func(_ any, ss grpc.ServerStream) error {";
    "~~return b.impl.ServerStream(req, &grpc.GenericServerStream[ServerStreamRequest, ServerStreamResponse]{ServerStream: ss})";
    "~}";
    "~if b.cfg.Stream == nil {";
    "~~return h(b.impl, base)";
    "~}";
    "~info := &grpc.StreamServerInfo{FullMethod: `/echo.v1.EchoService/ServerStream`, IsServerStream: true}";
    "~return b.cfg.Stream(b.impl, base, info, h)";
    "}";
    EmptyString;
    "func (b *echoServiceGRPCBridge) ClientStream(ctx context.Context, stream *EchoService_ClientStreamServerWS) (*ClientStreamResponse, error) {";
    "~base := &echoServiceGRPCStream{stream: stream.stream, ctx: ctx, capturing: true}";
    "~h := func(_ any, ss grpc.ServerStream) error {";
    "~~return b.impl.ClientStream(&grpc.GenericServerStream[ClientStreamRequest, ClientStreamResponse]{ServerStream: ss})";
    "~}";
    "~var err error";
    "~if b.cfg.Stream == nil {";
    "~~err = h(b.impl, base)";
    "~} else {";
    "~~info := &grpc.StreamServerInfo{FullMethod: `/echo.v1.EchoService/ClientStream`, IsClientStream: true}";
    "~~err = b.cfg.Stream(b.impl, base, info, h)";
    "~}";
    "~if err != nil {";
    "~~return nil, err";
    "~}";
    "~if base.captured == nil {";
    "~~return nil, wsrpc.Errorf(codes.Internal, `wsrpc: EchoService.ClientStream handler returned without SendAndClose`)";
    "~}";
    "~return base.captured.(*ClientStreamResponse), nil";
    "}";
    EmptyString;
    "func (b *echoServiceGRPCBridge) Bidi(ctx context.Context, stream *EchoService_BidiServerWS) error {";
    "~base := &echoServiceGRPCStream{stream: stream.stream, ctx: ctx}";
    "~h := func(_ any, ss grpc.ServerStream) error {";
    "~~return b.impl.Bidi(&grpc.GenericServerStream[BidiRequest, BidiResponse]{ServerStream: ss})";
    "~}";
    "~if b.cfg.Stream == nil {";
    "~~return h(b.impl, base)";
    "~}";
    "~info := &grpc.StreamServerInfo{FullMethod: `/echo.v1.EchoService/Bidi`, IsClientStream: true, IsServerStream: true}";
    "~return b.cfg.Stream(b.impl, base, info, h)";
    "}" ].

(** The local name the import block gives to a package. *)
Definition echo_local (path : string) : string :=
  match list_find (λ e, e.2 = path) echo_imports with
  | Some (_, e) => e.1
  | None => EmptyString
  end.

(** C27: on the description of echo.proto the generator prints the file that is checked
    in, line for line (the last blank line apart, which gofmt drops), and imports
    exactly the packages of its import block. *)
Theorem generates_echo :
  ∃ ps, Generate echo_local [echo_file] =
      [mkGenerated "proto/echo/v1/echo_ws.pb.go" ps ((decode <$> echo_lines) ++ [EmptyString])] ∧
    ∀ p, p ∈ ps ↔ p ∈ echo_imports.*2.
Proof.
  set (out := (genFile echo_path echo_local echo_file).1).
  exists (imports_of out). split; [by vm_compute|].
  assert (remove_dups (imports_of out) ≡ₚ echo_imports.*2) as Hp.
  { apply (bool_decide_unpack _). by vm_compute. }
  intros p. by rewrite <-Hp, elem_of_remove_dups.
Qed.

(** The echo service reads single requests, so [io] is imported, and used. *)
Lemma no_unused_import_witness :
  ∃ args, Line args ∈ (genFile echo_path echo_local echo_file).1 ∧
    is_comment (render args) = false ∧ ∃ name, ("io." +:+ name)%string ∈ args.
Proof.
  destruct (no_unused_import echo_path echo_local echo_file ioImport) as (args & i & Hl & Hc & _ & Hin).
  - apply (bool_decide_unpack _). by vm_compute.
  - exists args. split_and!; [done..|]. by exists (IdentName i).
Defined.
