(* ===== verification/Goroutine.v ===== *)
(** * Goroutines

    The runtime is a set of goroutines that share mutable state.  A goroutine is
    a [Prog]: a sequence of atomic actions on the shared world [W].  An action is
    one critical section, one channel operation or one [select]; it maps the
    world to the list of its possible outcomes.  Several outcomes model a
    [select] with several ready branches (Go picks any of them) or an I/O call
    that may fail; no outcome means the goroutine is blocked in this world.
    [Go] starts a goroutine, [Iter] is a [for] loop.

    The file gives the small-step semantics of one goroutine ([pstep]) and of a
    pool ([pool_step]), an executable interpreter ([run]), and three ways to
    reason: [total] (run alone, it terminates without blocking in a given
    post-condition), [all_acts] (every action is in a relation, whatever the
    other goroutines do) and [safe] (rely/guarantee). *)

From S2P Require Import Prelude.

Section syntax.
Context {W : Type}.

Inductive Prog : Type → Type :=
| Ret {A} (a : A) : Prog A
| Act {B} (a : W → list (W * B)) : Prog B
| Go (t : Prog unit) : Prog unit
| Iter {S B} (body : S → Prog (S + B)) (s : S) : Prog B
| Bind {A B} (p : Prog A) (f : A → Prog B) : Prog B.

(** An action that reads the world. *)
Definition read {B} (f : W → B) : Prog B := Act (λ w, [(w, f w)]).

(** An action with exactly one outcome. *)
Definition update {B} (f : W → W * B) : Prog B := Act (λ w, [f w]).

Definition modify (f : W → W) : Prog unit := Act (λ w, [(f w, ())]).

(** ** Small steps *)

Definition result {A} (p : Prog A) : option A :=
  match p with Ret a => Some a | _ => None end.

(** The steps of one goroutine: new world, continuation, goroutines started. *)
Fixpoint pstep {A} (p : Prog A) (w : W) : list (W * Prog A * list (Prog unit)) :=
  match p with
  | Ret _ => []
  | Act a => (λ '(w', b), (w', Ret b, [])) <$> a w
  | Go t => [(w, Ret (), [t])]
  | Iter body s =>
      [(w, Bind (body s) (λ r, match r with inl s' => Iter body s' | inr b => Ret b end), [])]
  | Bind p f =>
      match result p with
      | Some a => [(w, f a, [])]
      | None => (λ '(w', p', ts), (w', Bind p' f, ts)) <$> pstep p w
      end
  end.

(** All the ways [p] can go from [w] in at most [n] steps when it runs alone.
    The goroutines it starts are collected and not run.  A goroutine that is
    blocked, or out of steps, is reported with its continuation. *)
Fixpoint run {A} (n : nat) (p : Prog A) (w : W) : list (W * Prog A * list (Prog unit)) :=
  match n with
  | O => [(w, p, [])]
  | S n =>
      match pstep p w with
      | [] => [(w, p, [])]
      | outs =>
          outs ≫= λ '(w', p', ts),
            (λ '(w'', p'', ts'), (w'', p'', ts ++ ts')) <$> run n p' w'
      end
  end.

(** The results of the runs of [run] that returned. *)
Definition returns {A} (n : nat) (p : Prog A) (w : W) : list (W * A) :=
  run n p w ≫= λ '(w', p', _), match result p' with Some a => [(w', a)] | None => [] end.

(** ** A pool of goroutines *)

Record Config := mkConfig { world : W; threads : list (Prog unit) }.

Inductive pool_step (c : Config) : Config → Prop :=
| pool_step_thread i p w' p' ts :
    threads c !! i = Some p →
    (w', p', ts) ∈ pstep p (world c) →
    pool_step c (mkConfig w' (<[i:=p']> (threads c) ++ ts)).

(** The environment [E]: what the peer, the timers and the user's own code do to
    the world between two steps. *)
Inductive sys_step (E : relation W) (c : Config) : Config → Prop :=
| sys_step_pool c' : pool_step c c' → sys_step E c c'
| sys_step_env w' : E (world c) w' → sys_step E c (mkConfig w' (threads c)).

(** Running a pool by a schedule: thread [i] takes its [j]-th possible step. *)
Fixpoint run_schedule (l : list (nat * nat)) (c : Config) : option Config :=
  match l with
  | [] => Some c
  | (i, j) :: l =>
      match threads c !! i with
      | None => None
      | Some p =>
          match pstep p (world c) !! j with
          | None => None
          | Some (w', p', ts) => run_schedule l (mkConfig w' (<[i:=p']> (threads c) ++ ts))
          end
      end
  end.

Lemma run_schedule_rtc E l c c' : run_schedule l c = Some c' → rtc (sys_step E) c c'.
Proof.
  revert c. induction l as [|[i j] l IH]; intros c; simpl; [by intros [= ->]|].
  destruct (threads c !! i) as [p|] eqn:Hi; [|done].
  destruct (pstep p (world c) !! j) as [[[w' p'] ts]|] eqn:Hj; [|done].
  intros Hl. eapply rtc_l; [|by apply IH]. apply sys_step_pool.
  eapply pool_step_thread; [done|]. by eapply list_elem_of_lookup_2.
Qed.

(** Running a schedule and checking the configuration it reaches. *)
Definition reaches (l : list (nat * nat)) (c : Config) (good : Config → bool) : bool :=
  match run_schedule l c with Some c' => good c' | None => false end.

Lemma reaches_rtc E l c good :
  reaches l c good = true → ∃ c', rtc (sys_step E) c c' ∧ good c' = true.
Proof.
  unfold reaches. destruct (run_schedule l c) as [c'|] eqn:Hc; [|done]. intros Hg.
  exists c'. split; [by eapply run_schedule_rtc|done].
Qed.

End syntax.

Arguments Prog W A : clear implicits.
Arguments Config W : clear implicits.

Declare Scope prog_scope.
Delimit Scope prog_scope with prog.
Bind Scope prog_scope with Prog.
Notation "x <- m ;; k" := (Bind m (λ x, k))
  (at level 100, m at next level, k at level 200, right associativity) : prog_scope.
Notation "m ;; k" := (Bind m (λ _, k))
  (at level 100, k at level 200, right associativity) : prog_scope.
#[global] Open Scope prog_scope.

(** ** Running alone: total correctness *)
Section total.
Context {W : Type}.

(** [total Q p w]: run alone from [w], [p] never blocks, terminates whatever
    outcomes its actions take, and returns [a] in a world [w'] with [Q a w']. *)
Inductive total {A} (Q : A → W → Prop) (p : Prog W A) (w : W) : Prop :=
| total_done a : result p = Some a → Q a w → total Q p w
| total_step :
    pstep p w ≠ [] →
    (∀ w' p' ts, (w', p', ts) ∈ pstep p w → total Q p' w') → total Q p w.

Lemma total_ret {A} (Q : A → W → Prop) a w : Q a w → total Q (Ret a) w.
Proof. by apply total_done. Qed.

Lemma total_mono {A} (Q Q' : A → W → Prop) p w :
  (∀ a w, Q a w → Q' a w) → total Q p w → total Q' p w.
Proof.
  intros HQ. induction 1 as [p w a Hr Ha|p w Hne Hs IH].
  - by eapply total_done; [|apply HQ].
  - by apply total_step.
Qed.

Lemma result_pstep {A} (p : Prog W A) a w : result p = Some a → pstep p w = [].
Proof. by destruct p. Qed.

Lemma total_bind {A B} (Q : B → W → Prop) (p : Prog W A) f w :
  total (λ a w', total Q (f a) w') p w → total Q (Bind p f) w.
Proof.
  induction 1 as [p w a Hr Ha|p w Hne Hs IH]; apply total_step; simpl.
  - by rewrite Hr.
  - rewrite Hr. intros. by inv_elem.
  - destruct (result p) eqn:E; [done|]. by destruct (pstep p w).
  - destruct (result p) as [a|] eqn:E.
    { by rewrite (result_pstep _ _ _ E) in Hne. }
    intros w' p' ts ([[w1 p1] ts1] & ? & Hin)%list_elem_of_fmap.
    simplify_eq. eauto.
Qed.

Lemma total_act {B} (Q : B → W → Prop) (a : W → list (W * B)) w :
  a w ≠ [] → (∀ w' b, (w', b) ∈ a w → Q b w') → total Q (Act a) w.
Proof.
  intros Hne HQ. apply total_step; simpl.
  - by destruct (a w).
  - intros w' p' ts ([w1 b] & ? & Hin)%list_elem_of_fmap. simplify_eq.
    apply total_ret. eauto.
Qed.

Lemma total_update {B} (Q : B → W → Prop) (f : W → W * B) w :
  Q (f w).2 (f w).1 → total Q (update f) w.
Proof. intros. apply total_act; [done|]. intros. inv_elem. by rewrite <-H0 in H. Qed.

Lemma total_read {B} (Q : B → W → Prop) (f : W → B) w : Q (f w) w → total Q (read f) w.
Proof. intros. apply total_act; [done|]. intros. by inv_elem. Qed.

Lemma total_modify (Q : unit → W → Prop) (f : W → W) w : Q () (f w) → total Q (modify f) w.
Proof. intros. apply total_act; [done|]. intros. by inv_elem. Qed.

Lemma total_go (Q : unit → W → Prop) t w : Q () w → total Q (Go t) w.
Proof. intros. apply total_step; [done|]. intros. inv_elem. by apply total_ret. Qed.

Lemma total_iter {S B} (Q : B → W → Prop) (body : S → Prog W (S + B)) s w :
  total (λ r w', match r with inl s' => total Q (Iter body s') w' | inr b => Q b w' end)
    (body s) w →
  total Q (Iter body s) w.
Proof.
  intros H. apply total_step; [done|]. intros. inv_elem. apply total_bind.
  eapply total_mono; [|done]. intros [s'|b]; [done|]. apply total_ret.
Qed.

(** [suspends Q p w]: run alone from [w], [p] comes to a point where it is blocked,
    whatever outcomes its actions take; [Q] holds of what is left of it and of the
    world there. *)
Inductive suspends {A} (Q : Prog W A → W → Prop) (p : Prog W A) (w : W) : Prop :=
| suspends_here : result p = None → pstep p w = [] → Q p w → suspends Q p w
| suspends_step :
    pstep p w ≠ [] →
    (∀ w' p' ts, (w', p', ts) ∈ pstep p w → suspends Q p' w') → suspends Q p w.

Lemma suspends_mono {A} (Q Q' : Prog W A → W → Prop) p w :
  (∀ p w, Q p w → Q' p w) → suspends Q p w → suspends Q' p w.
Proof.
  intros HQ. induction 1; [apply suspends_here|apply suspends_step]; auto.
Qed.

Lemma suspends_act {B} (Q : Prog W B → W → Prop) (a : W → list (W * B)) w :
  a w = [] → Q (Act a) w → suspends Q (Act a) w.
Proof. intros Ha HQ. apply suspends_here; [done| |done]. simpl. by rewrite Ha. Qed.

(** It blocks before a bind, *)
Lemma suspends_bind {A B} (Q : Prog W B → W → Prop) (p : Prog W A) f w :
  suspends (λ k w', Q (Bind k f) w') p w → suspends Q (Bind p f) w.
Proof.
  induction 1 as [p w Hr Hs HQ|p w Hne Hs IH].
  - apply suspends_here; [done| |done]. simpl. by rewrite Hr, Hs.
  - apply suspends_step; simpl.
    + destruct (result p) eqn:E; [done|]. by destruct (pstep p w).
    + destruct (result p) as [a|] eqn:E; [by rewrite (result_pstep _ _ _ E) in Hne|].
      intros w' p' ts ([[w1 p1] ts1] & ? & Hin)%list_elem_of_fmap. simplify_eq. eauto.
Qed.

(** or after it. *)
Lemma suspends_then {A B} (Q : Prog W B → W → Prop) (p : Prog W A) f w :
  total (λ a w', suspends Q (f a) w') p w → suspends Q (Bind p f) w.
Proof.
  induction 1 as [p w a Hr Ha|p w Hne Hs IH]; apply suspends_step; simpl.
  - by rewrite Hr.
  - rewrite Hr. intros. by inv_elem.
  - destruct (result p) eqn:E; [done|]. by destruct (pstep p w).
  - destruct (result p) as [a|] eqn:E; [by rewrite (result_pstep _ _ _ E) in Hne|].
    intros w' p' ts ([[w1 p1] ts1] & ? & Hin)%list_elem_of_fmap. simplify_eq. eauto.
Qed.

Lemma suspends_iter {S B} (Q : Prog W B → W → Prop) (body : S → Prog W (S + B)) s w :
  suspends (λ k w', Q (Bind k (λ r, match r with inl s' => Iter body s' | inr b => Ret b end)) w')
    (body s) w →
  suspends Q (Iter body s) w.
Proof.
  intros H. apply suspends_step; [done|]. intros. inv_elem. by apply suspends_bind.
Qed.

End total.

(** ** Running in a pool: every action in a relation *)
Section all_acts.
Context {W : Type} (J : relation W).

(** Every action of [p], and of the goroutines it starts, is a [J] step of the
    world: nothing is assumed of the world the action finds. *)
Fixpoint all_acts {A} (p : Prog W A) : Prop :=
  match p with
  | Ret _ => True
  | Act a => ∀ w w' b, (w', b) ∈ a w → J w w'
  | Go t => all_acts t
  | Iter body s => ∀ s', all_acts (body s')
  | Bind p f => all_acts p ∧ ∀ a, all_acts (f a)
  end.

Lemma all_acts_step {A} (p : Prog W A) `{!Reflexive J} w w' p' ts :
  all_acts p → (w', p', ts) ∈ pstep p w → J w w' ∧ all_acts p' ∧ Forall all_acts ts.
Proof.
  revert w w' p' ts.
  induction p as [A a|B a|t _|S B body IH s|A B p IH f _]; intros w w' p' ts Hp Hin;
    simpl in Hin.
  - by inv_elem.
  - apply list_elem_of_fmap in Hin as ([w1 b] & ? & Hin). simplify_eq.
    split_and!; [by eapply Hp|done..].
  - inv_elem. split_and!; [reflexivity|exact I|by constructor].
  - inv_elem. split_and!; [reflexivity|done|by intros [?|?]|done].
  - destruct Hp as [Hp Hf]. destruct (result p) as [a|] eqn:E.
    + inv_elem. split_and!; [reflexivity|done..].
    + apply list_elem_of_fmap in Hin as ([[w1 p1] ts1] & ? & Hin). simplify_eq.
      edestruct IH as (? & ? & ?); [done..|]. by split_and!.
Qed.

Lemma all_acts_pool `{!Reflexive J} c c' :
  Forall all_acts (threads c) → pool_step c c' →
  J (world c) (world c') ∧ Forall all_acts (threads c').
Proof.
  intros Hts [i p w' p' ts Hi Hin]; simpl.
  edestruct (all_acts_step p) as (? & ? & ?); [|done|].
  { by eapply Forall_lookup_1. }
  split; [done|]. apply Forall_app. split; [|done]. by apply Forall_insert.
Qed.

(** An invariant of the world holds in every configuration reachable by a pool
    whose actions preserve it, whatever the interleaving. *)
Theorem all_acts_reachable (Inv : W → Prop) (E : relation W) `{!Reflexive J} c c' :
  (∀ w w', J w w' → Inv w → Inv w') →
  (∀ w w', E w w' → Inv w → Inv w') →
  Forall all_acts (threads c) → Inv (world c) →
  rtc (sys_step E) c c' → Inv (world c').
Proof.
  intros HJ HE Hts Hinv Hrtc. revert Hts Hinv.
  induction Hrtc as [|c1 c2 c3 Hstep _ IH]; intros Hts Hinv; [done|].
  destruct Hstep as [c2 Hp|w' HEw].
  - destruct (all_acts_pool _ _ Hts Hp). apply IH; eauto.
  - apply IH; simpl; eauto.
Qed.

(** The worlds of a run of such a pool are linked by [J] steps. *)
Lemma all_acts_rtc (E : relation W) `{!Reflexive J} c c' :
  (∀ w w', E w w' → J w w') → Forall all_acts (threads c) → rtc (sys_step E) c c' →
  rtc J (world c) (world c') ∧ Forall all_acts (threads c').
Proof.
  intros HE Hts Hrtc. revert Hts. induction Hrtc as [|c1 c2 c3 Hstep _ IH]; intros Hts; [done|].
  assert (J (world c1) (world c2) ∧ Forall all_acts (threads c2)) as [HJ Hts2].
  { destruct Hstep as [c2 Hp|w' HEw]; [by apply all_acts_pool|]. split; [by apply HE|done]. }
  destruct (IH Hts2) as [? ?]. split; [by eapply rtc_l|done].
Qed.

End all_acts.

Lemma all_acts_mono {W A} (J J' : relation W) (p : Prog W A) :
  (∀ w w', J w w' → J' w w') → all_acts J p → all_acts J' p.
Proof. intros HJ. induction p; simpl; intuition eauto. Qed.

(** ** Rely/guarantee *)
Section safe.
Context {W : Type}.
(** The specification of the goroutines that are started: they tolerate [Rc] steps
    of the others and make [Gc] steps. *)
Context (Rc Gc : relation W).

(** [safe R G n p w Q]: for [n] steps, with the others changing the world by [R],
    every action of [p] is a [G] step, [p] returns only with [Q], and what it
    starts is safe for [Rc] and [Gc]. *)
Fixpoint safe (R G : relation W) (n : nat) {A} (p : Prog W A) (w : W) (Q : A → W → Prop)
    : Prop :=
  match n with
  | O => True
  | S n =>
      (∀ a, result p = Some a → Q a w) ∧
      (∀ w' p' ts, (w', p', ts) ∈ pstep p w →
         G w w' ∧ safe R G n p' w' Q ∧
         Forall (λ t, safe Rc Gc n t w' (λ _ _, True)) ts) ∧
      (∀ w', R w w' → safe R G n p w' Q)
  end.

Definition safe_goroutine (R G : relation W) (p : Prog W unit) (w : W) : Prop :=
  ∀ n, safe R G n p w (λ _ _, True).

Section rules.
Context (R G : relation W).

Definition stable (P : W → Prop) : Prop := ∀ w w', R w w' → P w → P w'.

Definition triple {A} (P : W → Prop) (p : Prog W A) (Q : A → W → Prop) : Prop :=
  ∀ n w, P w → safe R G n p w Q.

Lemma triple_ret {A} (P : W → Prop) (a : A) (Q : A → W → Prop) :
  stable (Q a) → (∀ w, P w → Q a w) → triple P (Ret a) Q.
Proof.
  intros Hst HPQ n w Hw%HPQ. revert w Hw. induction n as [|n IH]; intros w Hw; simpl; [done|].
  split_and!; [naive_solver|intros; by inv_elem|]. intros w' HR. by eapply IH, Hst.
Qed.

Lemma triple_conseq {A} (P P' : W → Prop) (p : Prog W A) Q :
  (∀ w, P w → P' w) → triple P' p Q → triple P p Q.
Proof. intros HP Hp n w Hw. by apply Hp, HP. Qed.

Lemma triple_act {B} (P : W → Prop) (a : W → list (W * B)) (Q : B → W → Prop) :
  stable P → (∀ b, stable (Q b)) →
  (∀ w w' b, P w → (w', b) ∈ a w → G w w' ∧ Q b w') →
  triple P (Act a) Q.
Proof.
  intros HstP HstQ Ha n. induction n as [|n IH]; intros w Hw; simpl; [done|].
  split_and!; [done| |by intros; eapply IH, HstP].
  intros w' p' ts ([w1 b] & ? & Hin)%list_elem_of_fmap. simplify_eq.
  destruct (Ha _ _ _ Hw Hin). split_and!; [done| |done].
  apply (triple_ret (Q b) b Q); auto.
Qed.

Lemma safe_bind `{!Reflexive G} {A B} n (p : Prog W A) (f : A → Prog W B) w M Q :
  safe R G n p w M →
  (∀ a m w, (m < n)%nat → M a w → safe R G m (f a) w Q) → safe R G n (Bind p f) w Q.
Proof.
  revert p w. induction n as [|n IH]; intros p w Hp Hf; simpl; [done|].
  destruct Hp as (Hr & Hs & HR).
  assert (∀ a m w, (m < n)%nat → M a w → safe R G m (f a) w Q) by (intros; apply Hf; eauto).
  split_and!; [done| |by eauto].
  intros w' p' ts Hin. destruct (result p) as [a|] eqn:E.
  - inv_elem. split_and!; [reflexivity| |done]. apply Hf; eauto.
  - apply list_elem_of_fmap in Hin as ([[w1 p1] ts1] & ? & Hin). simplify_eq.
    destruct (Hs _ _ _ Hin) as (? & ? & ?). split_and!; eauto.
Qed.

Lemma triple_bind `{!Reflexive G} {A B} P (p : Prog W A) (f : A → Prog W B) M Q :
  triple P p M → (∀ a, triple (M a) (f a) Q) → triple P (Bind p f) Q.
Proof. intros Hp Hf n w Hw. eapply safe_bind; [by apply Hp|]. intros. by apply Hf. Qed.

Lemma triple_go `{!Reflexive G} P (t : Prog W unit) :
  stable P → (∀ w, P w → safe_goroutine Rc Gc t w) → triple P (Go t) (λ _, P).
Proof.
  intros Hst Ht n. induction n as [|n IH]; intros w Hw; simpl; [done|].
  split_and!; [done| |by intros; eapply IH, Hst].
  intros. inv_elem. split_and!; [reflexivity| |constructor; [by apply Ht|done]].
  by apply (triple_ret P () (λ _, P)).
Qed.

Lemma triple_iter `{!Reflexive G} {S B} (I : S → W → Prop) (body : S → Prog W (S + B)) s
    (Q : B → W → Prop) :
  (∀ s, stable (I s)) → (∀ b, stable (Q b)) →
  (∀ s, triple (I s) (body s) (λ r w, match r with inl s' => I s' w | inr b => Q b w end)) →
  triple (I s) (Iter body s) Q.
Proof.
  intros HI HQ Hb n. revert s. induction n as [n IH] using lt_wf_ind; intros s w Hw.
  destruct n as [|n]; simpl; [done|].
  split_and!; [done| |intros w' HR; apply IH; [lia|by eapply HI]].
  intros. inv_elem. split_and!; [reflexivity| |done].
  eapply safe_bind; [by apply Hb|]. intros [s'|b] m w1 Hm Hw1; simpl in *.
  - apply IH; [lia|done].
  - by apply (triple_ret (Q b) b Q).
Qed.

End rules.

(** A goroutine whose every action is a [J] step is safe as soon as [J] steps are
    allowed, whatever the others do. *)
Lemma all_acts_safe {A} (R G J : relation W) `{!Reflexive J} n (p : Prog W A) w :
  (∀ w w', J w w' → G w w') → (∀ w w', J w w' → Gc w w') →
  all_acts J p → safe R G n p w (λ _ _, True).
Proof.
  intros HG HGc. revert A R G HG p w. induction n as [|n IH]; intros A R G HG p w Hp; simpl; [done|].
  split_and!; [done| |by eauto].
  intros w' p' ts Hin. destruct (all_acts_step J p w w' p' ts Hp Hin) as (? & ? & Hts).
  split_and!; [by auto|by eapply IH|].
  eapply Forall_impl; [exact Hts|]. intros t Ht. by eapply IH.
Qed.

Lemma all_acts_triple {A} (R G J : relation W) `{!Reflexive J} (P : W → Prop) (p : Prog W A) :
  (∀ w w', J w w' → G w w') → (∀ w w', J w w' → Gc w w') →
  all_acts J p → triple R G P p (λ _ _, True).
Proof. intros HG HGc Hp n w _. by eapply all_acts_safe. Qed.

Lemma safe_mono {A} (R G : relation W) n (p : Prog W A) w (Q Q' : A → W → Prop) :
  (∀ a w, Q a w → Q' a w) → safe R G n p w Q → safe R G n p w Q'.
Proof.
  intros HQ. revert p w. induction n as [|n IH]; intros p w; simpl; [done|].
  intros (? & Hs & ?). split_and!; [by eauto| |by eauto].
  intros w' p' ts Hin. destruct (Hs _ _ _ Hin) as (? & ? & ?). eauto.
Qed.

(** The same with an invariant that the actions and the others keep. *)
Lemma all_acts_inv {A} (R G J : relation W) `{!Reflexive J} (Inv : W → Prop) (p : Prog W A) :
  (∀ w w', J w w' → G w w') → (∀ w w', J w w' → Gc w w') →
  (∀ w w', J w w' → Inv w → Inv w') → (∀ w w', R w w' → Inv w → Inv w') →
  all_acts J p → triple R G Inv p (λ _, Inv).
Proof.
  intros HG HGc HJ HR Hp n. revert p Hp. induction n as [|n IH]; intros p Hp w Hw; simpl; [done|].
  split_and!; [done| |by eauto].
  intros w' p' ts Hin. destruct (all_acts_step J p w w' p' ts Hp Hin) as (? & ? & Hts).
  split_and!; [by auto|by eapply IH; eauto|].
  eapply Forall_impl; [exact Hts|]. intros t Ht. by eapply all_acts_safe.
Qed.

(** A pool with one distinguished goroutine, which tolerates [R] and makes [G]
    steps; the others have the specification of started goroutines. *)
Definition pool_safe (R G : relation W) (Q : unit → W → Prop) (c : Config W) : Prop :=
  ∃ p ts, threads c = p :: ts ∧ (∀ n, safe R G n p (world c) Q) ∧
    Forall (λ t, safe_goroutine Rc Gc t (world c)) ts.

Lemma safe_rely (R G : relation W) (p : Prog W unit) Q w w' :
  R w w' → (∀ n, safe R G n p w Q) → ∀ n, safe R G n p w' Q.
Proof. intros HR Hp n. destruct (Hp (S n)) as (_ & _ & HRn). by apply HRn. Qed.

Lemma safe_step (R G : relation W) (p : Prog W unit) Q w w' p' ts :
  (w', p', ts) ∈ pstep p w → (∀ n, safe R G n p w Q) →
  G w w' ∧ (∀ n, safe R G n p' w' Q) ∧ Forall (λ t, safe_goroutine Rc Gc t w') ts.
Proof.
  intros Hin Hp. split_and!.
  - destruct (Hp 1%nat) as (_ & Hs & _). by destruct (Hs _ _ _ Hin).
  - intros n. destruct (Hp (S n)) as (_ & Hs & _). by destruct (Hs _ _ _ Hin) as (_ & ? & _).
  - apply Forall_forall. intros t Ht n. destruct (Hp (S n)) as (_ & Hs & _).
    destruct (Hs _ _ _ Hin) as (_ & _ & Hus). eapply Forall_forall in Hus; eauto.
Qed.

(** Every step of such a pool, and of its environment, is tolerated by the
    goroutines it may start, and leaves such a pool. *)
Theorem pool_safe_step (R G E : relation W) Q c c' :
  (∀ w w', Gc w w' → R w w' ∧ Rc w w') → (∀ w w', G w w' → Rc w w') →
  (∀ w w', E w w' → R w w' ∧ Rc w w') →
  pool_safe R G Q c → sys_step E c c' → Rc (world c) (world c') ∧ pool_safe R G Q c'.
Proof.
  intros HGc HG HE (p & ts & Hc & Hp & Hts) Hstep. destruct c as [w ths]; simpl in *; subst ths.
  assert (∀ w', Rc w w' → Forall (λ t, safe_goroutine Rc Gc t w') ts) as Hts'.
  { intros w' HRc. eapply Forall_impl; [exact Hts|]. intros t Ht. exact (safe_rely Rc Gc t (λ _ _, True) w w' HRc Ht). }
  destruct Hstep as [c1 [i q w' q' us Hi Hin]|w' HEw]; simpl in *.
  - destruct i as [|i]; simplify_eq/=.
    + destruct (safe_step R G q Q w w' q' us) as (? & ? & ?); [done..|].
      split; [by auto|]. exists q', (ts ++ us). split_and!; [done..|].
      apply Forall_app; auto.
    + pose proof (Forall_lookup_1 _ _ _ _ Hts Hi) as Hq. simpl in Hq.
      destruct (safe_step Rc Gc q (λ _ _, True) w w' q' us) as (HG' & ? & ?); [done..|].
      destruct (HGc _ _ HG') as [HR HRc]. split; [done|].
      exists p, (<[i:=q']> ts ++ us). split_and!; [done|by eapply safe_rely|].
      apply Forall_app; split; [|done]. apply Forall_insert; auto.
  - destruct (HE _ _ HEw) as [HR HRc]. split; [done|].
    exists p, ts. split_and!; [done|by eapply safe_rely|by auto].
Qed.

(** An invariant that every tolerated step keeps holds in every reachable
    configuration. *)
Theorem pool_safe_reachable (R G E : relation W) Q (Inv : W → Prop) c c' :
  (∀ w w', Gc w w' → R w w' ∧ Rc w w') → (∀ w w', G w w' → Rc w w') →
  (∀ w w', E w w' → R w w' ∧ Rc w w') →
  (∀ w w', Rc w w' → Inv w → Inv w') →
  pool_safe R G Q c → Inv (world c) → rtc (sys_step E) c c' →
  Inv (world c') ∧ pool_safe R G Q c'.
Proof.
  intros HGc HG HE HInv Hp Hw Hrtc. induction Hrtc as [|c c1 c' Hstep _ IH]; [done|].
  destruct (pool_safe_step R G E Q c c1) as [HRc ?]; eauto.
Qed.

(** The distinguished goroutine returns only in its post-condition. *)
Lemma pool_safe_result (R G : relation W) Q c p a :
  pool_safe R G Q c → threads c !! 0%nat = Some p → result p = Some a → Q a (world c).
Proof.
  intros (q & ts & Hc & Hq & _). rewrite Hc. intros [= ->] Hr.
  destruct (Hq 1%nat) as (Hres & _). by apply Hres.
Qed.

End safe.

(** ** Independence of a part of the world *)
Section oblivious.
Context {W : Type} (E : relation W).

(** Whether the next action of [p] can go on is the same in two worlds related
    by [E]. *)
Fixpoint oblivious {A} (p : Prog W A) : Prop :=
  match p with
  | Ret _ => True
  | Act a => ∀ w w', E w w' → a w = [] ↔ a w' = []
  | Go _ => True
  | Iter body s => ∀ s', oblivious (body s')
  | Bind p f => oblivious p ∧ ∀ a, oblivious (f a)
  end.

(** It is blocked in both worlds or in neither. *)
Theorem oblivious_blocked {A} (p : Prog W A) w w' :
  oblivious p → E w w' → pstep p w = [] ↔ pstep p w' = [].
Proof.
  induction p as [A a|B a|t _|S B body _ s|A B p IH f _]; simpl; intros Hp HE.
  - done.
  - rewrite !fmap_nil_iff. by apply Hp.
  - done.
  - done.
  - destruct Hp as [Hp _]. destruct (result p) eqn:Er; [done|].
    rewrite !fmap_nil_iff. by apply IH.
Qed.

(** And stays so. *)
Theorem oblivious_step {A} (p : Prog W A) w w' p' ts :
  oblivious p → (w', p', ts) ∈ pstep p w → oblivious p'.
Proof.
  revert w w' p' ts.
  induction p as [A a|B a|t _|S B body IH s|A B p IH f _]; intros w w' p' ts Hp Hin;
    simpl in Hin.
  - by inv_elem.
  - by apply list_elem_of_fmap in Hin as ([w1 b] & ? & Hin); simplify_eq.
  - by inv_elem.
  - inv_elem. split; [done|by intros [?|?]].
  - destruct Hp as [Hp Hf]. destruct (result p) as [a|] eqn:Er; [by inv_elem|].
    apply list_elem_of_fmap in Hin as ([[w1 p1] ts1] & ? & Hin). simplify_eq. simpl; eauto.
Qed.

End oblivious.
