(* ===== verification/Simulation.v ===== *)
(** * Simulation of goroutines

    When two pieces of code implement one interface with private state of their own,
    no client can tell them apart.  This file gives the rules for such proofs, in the
    presence of other goroutines.

    Two runs are compared.  [same] relates worlds that differ in private state only;
    a slot is one private object, at an address, of the left or of the right run.
    [psim] is a simulation of one goroutine by another: a step of the left one is
    matched by any number of steps of the right one.  A goroutine owns at most one
    slot on each side: the others leave the slots it owns alone ([rely]), and it
    leaves alone every slot that exists and that it does not own ([guar]).
    [pool_simulates] puts the goroutines of a pool together. *)

From S2P Require Import Prelude Goroutine.

Section simulation.
Context {W Adr SL SR : Type} (same : relation W).
Context (slotL : W → Adr → option SL) (slotR : W → Adr → option SR).

(** ** Ownership *)

Abbreviation own := (option (Adr * Adr)).

Definition owns (O : own) w1 w2 : Prop :=
  ∀ x y, O = Some (x, y) → is_Some (slotL w1 x) ∧ is_Some (slotR w2 y).

Record rely (O : own) w1 w2 w1' w2' : Prop := mk_rely {
  rl_same : same w1' w2';
  rl_slots x y : O = Some (x, y) → slotL w1' x = slotL w1 x ∧ slotR w2' y = slotR w2 y
}.

(** A goroutine that owned [O] and owns [O'] now: the same slots, none, or new ones. *)
Record guar (O O' : own) w1 w2 w1' w2' : Prop := mk_guar {
  gr_same : same w1' w2';
  gr_left x : fst <$> O ≠ Some x → is_Some (slotL w1 x) → slotL w1' x = slotL w1 x;
  gr_right y : snd <$> O ≠ Some y → is_Some (slotR w2 y) → slotR w2' y = slotR w2 y;
  gr_owns : owns O' w1' w2';
  gr_new : O' = O ∨ O' = None ∨
    ∃ x y, O' = Some (x, y) ∧ slotL w1 x = None ∧ slotR w2 y = None
}.

Lemma rely_owns O w1 w2 w1' w2' : rely O w1 w2 w1' w2' → owns O w1 w2 → owns O w1' w2'.
Proof. intros [_ Hs] Ho x y HO. destruct (Hs x y HO) as [-> ->]. eauto. Qed.

Lemma guar_refl O w1 w2 : same w1 w2 → owns O w1 w2 → guar O O w1 w2 w1 w2.
Proof. intros. split; eauto. Qed.

(** Steps that leave every slot alone. *)
Lemma guar_quiet O w1 w2 w1' w2' :
  same w1' w2' → (∀ x, slotL w1' x = slotL w1 x) → (∀ y, slotR w2' y = slotR w2 y) →
  owns O w1 w2 → guar O O w1 w2 w1' w2'.
Proof.
  intros ? HL HR Ho. split; eauto. intros x y HO. rewrite HL, HR. eauto.
Qed.

(** A first part in which the goroutine keeps what it owns. *)
Lemma guar_trans O O' w1 w2 w1' w2' w1'' w2'' :
  guar O O w1 w2 w1' w2' → guar O O' w1' w2' w1'' w2'' → guar O O' w1 w2 w1'' w2''.
Proof.
  intros [_ HL HR Ho _] [Hs HL' HR' Ho' Hn]. split; try done.
  - intros x Hx Hsome. rewrite HL'; [by apply HL|done|by rewrite HL].
  - intros y Hy Hsome. rewrite HR'; [by apply HR|done|by rewrite HR].
  - destruct Hn as [?|[?|(x & y & -> & Hx & Hy)]]; [by auto..|].
    right; right. exists x, y. split; [done|].
    assert (∀ x' y', O = Some (x', y') → x' ≠ x ∧ y' ≠ y) as Hne.
    { intros x' y' HO. destruct (Ho x' y' HO) as [[??] [??]]. split; intros ->; congruence. }
    split.
    + destruct (slotL w1 x) eqn:E; [|done]. rewrite HL in Hx; [congruence| |by rewrite E].
      destruct O as [[x' y']|]; [|done]. intros [= ->]. by destruct (Hne x y').
    + destruct (slotR w2 y) eqn:E; [|done]. rewrite HR in Hy; [congruence| |by rewrite E].
      destruct O as [[x' y']|]; [|done]. intros [= ->]. by destruct (Hne x' y).
Qed.

(** What one goroutine may do is what another one that owns other slots expects. *)
Lemma guar_rely O O' Oj w1 w2 w1' w2' :
  guar O O' w1 w2 w1' w2' → owns Oj w1 w2 →
  (∀ x, fst <$> Oj = Some x → fst <$> O ≠ Some x) →
  (∀ y, snd <$> Oj = Some y → snd <$> O ≠ Some y) → rely Oj w1 w2 w1' w2'.
Proof.
  intros [Hs HL HR _ _] Ho Hx Hy. split; [done|]. intros x y HO. destruct (Ho x y HO).
  split; [apply HL|apply HR]; auto; [apply Hx|apply Hy]; by rewrite HO.
Qed.

(** ** Runs of one goroutine *)

Inductive steps {A} : Prog W A → W → list (Prog W unit) → Prog W A → W → Prop :=
| steps_refl q w : steps q w [] q w
| steps_step q w w' q' ts ts' q'' w'' :
    (w', q', ts) ∈ pstep q w → steps q' w' ts' q'' w'' → steps q w (ts ++ ts') q'' w''.

Lemma steps_trans {A} (q q' q'' : Prog W A) w w' w'' ts ts' :
  steps q w ts q' w' → steps q' w' ts' q'' w'' → steps q w (ts ++ ts') q'' w''.
Proof.
  induction 1 as [|q w w1 q1 ts1 ts2 q' w' Hs _ IH]; [done|]. intros H2. rewrite <-app_assoc.
  econstructor; eauto.
Qed.

Lemma steps_one {A} (q q' : Prog W A) w w' ts : (w', q', ts) ∈ pstep q w → steps q w ts q' w'.
Proof. intros. rewrite <-(app_nil_r ts). econstructor; [done|constructor]. Qed.

Lemma pstep_bind {A B} (q : Prog W A) (g : A → Prog W B) w w' q' ts :
  (w', q', ts) ∈ pstep q w → (w', Bind q' g, ts) ∈ pstep (Bind q g) w.
Proof.
  intros Hin. simpl. destruct (result q) as [a|] eqn:E.
  { rewrite (result_pstep _ _ _ E) in Hin. by inv_elem. }
  apply list_elem_of_fmap. by exists (w', q', ts).
Qed.

Lemma steps_bind {A B} (q q' : Prog W A) (g : A → Prog W B) w w' ts :
  steps q w ts q' w' → steps (Bind q g) w ts (Bind q' g) w'.
Proof.
  induction 1; [constructor|]. econstructor; [by apply pstep_bind|done].
Qed.

Lemma steps_bind_ret {A B} (q : Prog W A) (g : A → Prog W B) a w w' ts :
  steps q w ts (Ret a) w' → steps (Bind q g) w ts (g a) w'.
Proof.
  intros Hq%(steps_bind _ _ g). rewrite <-(app_nil_r ts). eapply steps_trans; [done|].
  apply steps_one. by left.
Qed.

(** ** The simulation *)

Fixpoint psim (n : nat) (O : own) {A B} (p : Prog W A) (q : Prog W B) w1 w2
    (Q : A → B → own → W → W → Prop) : Prop :=
  match n with
  | O => True
  | S n =>
      (∀ a, result p = Some a → ∃ b w2',
         steps q w2 [] (Ret b) w2' ∧ guar O O w1 w2 w1 w2' ∧ Q a b O w1 w2') ∧
      (∀ w1' p' ts1, (w1', p', ts1) ∈ pstep p w1 → ∃ O' w2' q' ts2,
         steps q w2 ts2 q' w2' ∧ guar O O' w1 w2 w1' w2' ∧ psim n O' p' q' w1' w2' Q ∧
         Forall2 (λ t1 t2, psim n None t1 t2 w1' w2' (λ _ _ _ _ _, True)) ts1 ts2) ∧
      (∀ w1' w2', rely O w1 w2 w1' w2' → psim n O p q w1' w2' Q)
  end.

Lemma psim_mono {A B} (Q Q' : A → B → own → W → W → Prop) n O p q w1 w2 :
  (∀ a b O w1 w2, Q a b O w1 w2 → Q' a b O w1 w2) →
  psim n O p q w1 w2 Q → psim n O p q w1 w2 Q'.
Proof.
  intros HQ. revert O p q w1 w2. induction n as [|n IH]; intros O p q w1 w2; simpl; [done|].
  intros (Hr & Hs & HR). split_and!.
  - intros a Ha. destruct (Hr a Ha) as (b & w2' & ? & ? & ?). exists b, w2'. auto.
  - intros w1' p' ts1 Hin. destruct (Hs _ _ _ Hin) as (O' & w2' & q' & ts2 & ? & ? & ? & ?).
    exists O', w2', q', ts2. auto.
  - auto.
Qed.

(** An assertion on the private state; it is about the slots the goroutine owns when
    the others cannot change it. *)
Definition stable (P : own → W → W → Prop) : Prop :=
  ∀ O w1 w2 w1' w2', rely O w1 w2 w1' w2' → P O w1 w2 → P O w1' w2'.

Definition sim {A B} (P : own → W → W → Prop) (p : Prog W A) (q : Prog W B)
    (Q : A → B → own → W → W → Prop) : Prop :=
  ∀ n O w1 w2, same w1 w2 → owns O w1 w2 → P O w1 w2 → psim n O p q w1 w2 Q.

Lemma sim_conseq {A B} P P' (Q Q' : A → B → own → W → W → Prop) p q :
  (∀ O w1 w2, P' O w1 w2 → P O w1 w2) → (∀ a b O w1 w2, Q a b O w1 w2 → Q' a b O w1 w2) →
  sim P p q Q → sim P' p q Q'.
Proof. intros HP HQ Hs n O w1 w2 ? ? ?. eapply psim_mono; [done|]. apply Hs; auto. Qed.

Lemma sim_ret {A B} P (a : A) (b : B) Q :
  stable (Q a b) → (∀ O w1 w2, P O w1 w2 → Q a b O w1 w2) → sim P (Ret a) (Ret b) Q.
Proof.
  intros Hst HQ n O w1 w2 Hs Ho Hp%HQ. revert w1 w2 Hs Ho Hp.
  induction n as [|n IH]; intros w1 w2 Hs Ho Hp; simpl; [done|]. split_and!.
  - intros a' [= <-]. exists b, w2. split_and!; [constructor|by apply guar_refl|done].
  - intros. by inv_elem.
  - intros w1' w2' HR. apply IH; [apply HR|by eapply rely_owns|by eapply Hst].
Qed.

Lemma psim_bind {A A' B B'} n O (p : Prog W A) (q : Prog W A') (f : A → Prog W B)
    (g : A' → Prog W B') w1 w2 M Q :
  psim n O p q w1 w2 M →
  (∀ m a b O w1 w2, (m < n)%nat → same w1 w2 → owns O w1 w2 → M a b O w1 w2 →
     psim m O (f a) (g b) w1 w2 Q) →
  psim n O (Bind p f) (Bind q g) w1 w2 Q.
Proof.
  revert O p q w1 w2. induction n as [|n IH]; intros O p q w1 w2 Hp Hf; simpl; [done|].
  destruct Hp as (Hr & Hs & HR). split_and!; [done| |].
  - intros w1' p' ts1 Hin. destruct (result p) as [a|] eqn:E.
    + inv_elem. destruct (Hr a eq_refl) as (b & w2' & Hq & Hg & HM).
      exists O, w2', (g b), []. split_and!; [by apply steps_bind_ret|done| |done].
      apply Hf; [lia|apply Hg|apply Hg|done].
    + apply list_elem_of_fmap in Hin as ([[w1'' p''] ts''] & ? & Hin). simplify_eq.
      destruct (Hs _ _ _ Hin) as (O' & w2' & q' & ts2 & Hq & Hg & Hsim & Hts).
      exists O', w2', (Bind q' g), ts2. split_and!; [by apply steps_bind|done| |done].
      apply IH; [done|]. intros. apply Hf; auto with lia.
  - intros w1' w2' Hrel. apply IH; [by apply HR|]. intros. apply Hf; auto with lia.
Qed.

Lemma sim_bind {A A' B B'} P (p : Prog W A) (q : Prog W A') (f : A → Prog W B)
    (g : A' → Prog W B') M Q :
  sim P p q M → (∀ a b, sim (M a b) (f a) (g b) Q) → sim P (Bind p f) (Bind q g) Q.
Proof. intros Hp Hf n O w1 w2 ? ? ?. eapply psim_bind; [by apply Hp|]. intros. by apply Hf. Qed.

(** Both sides return the same result, and [P] holds again. *)
Definition keeps {A} (P : own → W → W → Prop) : A → A → own → W → W → Prop :=
  λ a b O w1 w2, a = b ∧ P O w1 w2.

Lemma keeps_stable {A} P (a b : A) : stable P → stable (keeps P a b).
Proof. intros HP ????? HR [? ?]. split; [done|by eapply HP]. Qed.

Lemma sim_ret_keeps {A} P (a : A) : stable P → sim P (Ret a) (Ret a) (keeps P).
Proof. intros HP. apply sim_ret; [by apply keeps_stable|]. by intros. Qed.

Lemma sim_bind_keeps {A B B'} P (p q : Prog W A) (f : A → Prog W B) (g : A → Prog W B') Q :
  sim P p q (keeps P) → (∀ a, sim P (f a) (g a) Q) → sim P (Bind p f) (Bind q g) Q.
Proof.
  intros Hp Hf. eapply sim_bind; [done|]. intros a b n O w1 w2 ? ? [<- ?]. by apply Hf.
Qed.

(** One action on each side. *)
Lemma sim_act {A B} P (a1 : W → list (W * A)) (a2 : W → list (W * B)) Q :
  stable P → (∀ a b, stable (Q a b)) →
  (∀ O w1 w2 w1' b1, same w1 w2 → owns O w1 w2 → P O w1 w2 → (w1', b1) ∈ a1 w1 →
     ∃ O' w2' b2, (w2', b2) ∈ a2 w2 ∧ guar O O' w1 w2 w1' w2' ∧ Q b1 b2 O' w1' w2') →
  sim P (Act a1) (Act a2) Q.
Proof.
  intros HP HQ Ha n. induction n as [|n IH]; intros O w1 w2 Hs Ho Hp; simpl; [done|]. split_and!.
  - done.
  - intros w1' p' ts1 ([w b1] & ? & Hin)%list_elem_of_fmap. simplify_eq.
    destruct (Ha _ _ _ _ _ Hs Ho Hp Hin) as (O' & w2' & b2 & Hin2 & Hg & HQ').
    exists O', w2', (Ret b2), []. split_and!; [|done| |done].
    + apply steps_one, list_elem_of_fmap. by exists (w2', b2).
    + eapply (sim_ret (Q b1 b2)); [done..|apply Hg|apply Hg|done].
  - intros w1' w2' HR. apply IH; [apply HR|by eapply rely_owns|by eapply HP].
Qed.

(** An action of the left goroutine alone. *)
Lemma sim_act_l {A B B'} P (a : W → list (W * A)) (f : A → Prog W B) (q : Prog W B') M Q :
  stable P → (∀ b, stable (M b)) →
  (∀ O w1 w2 w1' b, same w1 w2 → owns O w1 w2 → P O w1 w2 → (w1', b) ∈ a w1 →
     guar O O w1 w2 w1' w2 ∧ M b O w1' w2) →
  (∀ b, sim (M b) (f b) q Q) → sim P (Bind (Act a) f) q Q.
Proof.
  intros HP HM Ha Hf.
  assert (∀ b, sim (M b) (Bind (Ret b) f) q Q) as Hret.
  { intros b n. induction n as [|n IH]; intros O w1 w2 Hs Ho Hp; simpl; [done|]. split_and!; [done| |].
    - intros w1' p' ts1 Hin. inv_elem. exists O, w2, q, []. split_and!; [constructor|by apply guar_refl| |done].
      by apply Hf.
    - intros w1' w2' HR. apply IH; [apply HR|by eapply rely_owns|by eapply HM]. }
  intros n. induction n as [|n IH]; intros O w1 w2 Hs Ho Hp; simpl; [done|]. split_and!; [done| |].
  - intros w1' p' ts1 ([[w p1] ts] & ? & ([w'' b] & ? & Hin)%list_elem_of_fmap)%list_elem_of_fmap.
    simplify_eq. destruct (Ha _ _ _ _ _ Hs Ho Hp Hin) as [Hg Hm].
    exists O, w2, q, []. split_and!; [constructor|done| |done]. apply Hret; [apply Hg..|done].
  - intros w1' w2' HR. apply IH; [apply HR|by eapply rely_owns|by eapply HP].
Qed.

(** The right goroutine may run ahead. *)
Lemma psim_steps_r {A B} n O (p : Prog W A) (q q' : Prog W B) w1 w2 w2' Q :
  steps q w2 [] q' w2' → guar O O w1 w2 w1 w2' → psim n O p q' w1 w2' Q →
  (∀ w1' w2', rely O w1 w2 w1' w2' → psim (pred n) O p q w1' w2' Q) →
  psim n O p q w1 w2 Q.
Proof.
  intros Hq Hg Hp HR. destruct n as [|n]; simpl; [done|]. destruct Hp as (Hr & Hs & _). split_and!; [| |done].
  - intros a Ha. destruct (Hr a Ha) as (b & w3 & Hq' & Hg' & HQ).
    exists b, w3. split_and!; [by eapply (steps_trans _ _ _ _ _ _ [] [])|by eapply guar_trans|done].
  - intros w1' p' ts1 Hin. destruct (Hs _ _ _ Hin) as (O' & w3 & q3 & ts2 & Hq' & Hg' & ? & ?).
    exists O', w3, q3, ts2. split_and!; [by eapply (steps_trans _ _ _ _ _ _ [] ts2)|by eapply guar_trans|done..].
Qed.

Lemma sim_act_r {A B B'} P (a : W → list (W * A)) (p : Prog W B) (g : A → Prog W B') M Q :
  stable P →
  (∀ O w1 w2, same w1 w2 → owns O w1 w2 → P O w1 w2 →
     ∃ w2' b, (w2', b) ∈ a w2 ∧ guar O O w1 w2 w1 w2' ∧ M b O w1 w2') →
  (∀ b, sim (M b) p (g b) Q) → sim P p (Bind (Act a) g) Q.
Proof.
  intros HP Ha Hg n. induction n as [|n IH]; intros O w1 w2 Hs Ho Hp; [done|].
  destruct (Ha _ _ _ Hs Ho Hp) as (w2' & b & Hin & Hgu & Hm).
  eapply (psim_steps_r _ _ _ _ (g b) _ _ w2'); [|done|by apply Hg; [apply Hgu..|]|].
  - apply steps_bind_ret, steps_one, list_elem_of_fmap. by exists (w2', b).
  - intros w1' w2'' HR. apply IH; [apply HR|by eapply rely_owns|by eapply HP].
Qed.

(** A part of the left goroutine that the right one does not have. *)
Lemma steps_ret {A} (a : A) w ts q w' : steps (Ret a) w ts q w' → ts = [] ∧ q = Ret a ∧ w' = w.
Proof. intros H. remember (Ret a) as p eqn:E. destruct H; subst; [done|]. by inv_elem. Qed.

Lemma sim_prefix_l {A B B'} P (p : Prog W A) (f : A → Prog W B) (q : Prog W B') M Q :
  sim P p (Ret ()) (λ a _, M a) → (∀ a, sim (M a) (f a) q Q) → sim P (Bind p f) q Q.
Proof.
  intros Hp Hf n O w1 w2 Hs Ho HPw. specialize (Hp n O w1 w2 Hs Ho HPw). clear Hs Ho HPw.
  revert O p w1 w2 Hp. induction n as [|n IH]; intros O p w1 w2; simpl; [done|].
  intros (Hr & Hst & HR). split_and!; [done| |by auto].
  intros w1' p' ts1 Hin. destruct (result p) as [a|] eqn:E.
  - inv_elem. destruct (Hr a eq_refl) as (b & w2' & (_ & _ & ->)%steps_ret & Hg & Hm).
    exists O, w2, q, []. split_and!; [constructor|done| |done]. apply Hf; [apply Hg..|done].
  - apply list_elem_of_fmap in Hin as ([[w1'' p''] ts''] & ? & Hin). simplify_eq.
    destruct (Hst _ _ _ Hin) as (O' & w2' & q' & ts2 & (-> & -> & ->)%steps_ret & ? & ? & ?).
    exists O', w2, q, []. split_and!; [constructor|done|by apply IH|done].
Qed.

(** A result that only one side converts. *)
Lemma sim_map_r {A B B'} P (p : Prog W A) (q : Prog W B) (k : B → Prog W B') (h : B → B') M Q :
  (∀ b, k b = Ret (h b)) → (∀ a b O w1 w2, M a b O w1 w2 → Q a (h b) O w1 w2) →
  sim P p q M → sim P p (Bind q k) Q.
Proof.
  intros Hk HQ Hsim n O w1 w2 Hs Ho Hp. specialize (Hsim n O w1 w2 Hs Ho Hp). clear Hs Ho Hp.
  revert O p q w1 w2 Hsim. induction n as [|n IH]; intros O p q w1 w2; simpl; [done|].
  intros (Hr & Hst & HR). split_and!; [| |by auto].
  - intros a Ha. destruct (Hr a Ha) as (b & w2' & Hq & Hg & HM). exists (h b), w2'.
    split_and!; [|done|auto]. rewrite <-Hk. by apply steps_bind_ret.
  - intros w1' p' ts1 Hin. destruct (Hst _ _ _ Hin) as (O' & w2' & q' & ts2 & ? & ? & ? & ?).
    exists O', w2', (Bind q' k), ts2. split_and!; [by apply steps_bind|done|by apply IH|done].
Qed.

Lemma sim_map_l {A A' B} P (p : Prog W A) (q : Prog W B) (k : A → Prog W A') (h : A → A') M Q :
  (∀ a, k a = Ret (h a)) → (∀ a b, stable (Q a b)) →
  (∀ a b O w1 w2, M a b O w1 w2 → Q (h a) b O w1 w2) →
  sim P p q M → sim P (Bind p k) q Q.
Proof.
  intros Hk HQ HM Hsim n O w1 w2 Hs Ho Hp. specialize (Hsim n O w1 w2 Hs Ho Hp). clear Hs Ho Hp.
  revert O p q w1 w2 Hsim. induction n as [|n IH]; intros O p q w1 w2; simpl; [done|].
  intros (Hr & Hst & HR). split_and!; [done| |by auto].
  intros w1' p' ts1 Hin. destruct (result p) as [a|] eqn:E.
  - inv_elem. destruct (Hr a eq_refl) as (b & w2' & Hq & Hg & Hm).
    exists O, w2', (Ret b), []. split_and!; [done..| |done]. rewrite Hk.
    eapply (sim_ret (Q (h a) b)); [done..|apply Hg|apply Hg|auto].
  - apply list_elem_of_fmap in Hin as ([[w1'' p''] ts''] & ? & Hin). simplify_eq.
    destruct (Hst _ _ _ Hin) as (O' & w2' & q' & ts2 & ? & ? & ? & ?).
    exists O', w2', q', ts2. split_and!; [done..|by apply IH|done].
Qed.

Lemma sim_iter {S B} P (body1 body2 : S → Prog W (S + B)) s :
  stable P →
  (∀ s, sim P (body1 s) (body2 s) (keeps P)) →
  sim P (Iter body1 s) (Iter body2 s) (keeps P).
Proof.
  intros HP Hb n. revert s. induction n as [n IH] using lt_wf_ind; intros s O w1 w2 Hs Ho Hp.
  destruct n as [|n]; simpl; [done|]. split_and!; [done| |].
  - intros. inv_elem. eexists O, w2, _, []. split_and!; [apply steps_one; by left|by apply guar_refl| |done].
    eapply psim_bind; [by apply Hb|]. intros m r1 r2 O' v1 v2 Hm Hs' Ho' [<- Hp'].
    destruct r1 as [s'|b]; [apply IH; auto with lia|].
    by apply sim_ret_keeps.
  - intros w1' w2' HR. apply IH; [lia|apply HR|by eapply rely_owns|by eapply HP].
Qed.

(** A goroutine that is started owns nothing. *)
Lemma sim_go P (t1 t2 : Prog W unit) :
  stable P → sim (λ _ _ _, True) t1 t2 (λ _ _ _ _ _, True) →
  sim P (Go t1) (Go t2) (keeps P).
Proof.
  intros HP Ht n. induction n as [|n IH]; intros O w1 w2 Hs Ho Hp; simpl; [done|]. split_and!; [done| |].
  - intros. inv_elem. exists O, w2, (Ret ()), [t2].
    split_and!; [apply steps_one; by left|by apply guar_refl| |].
    + by apply sim_ret_keeps.
    + constructor; [|done]. by apply Ht.
  - intros w1' w2' HR. apply IH; [apply HR|by eapply rely_owns|by eapply HP].
Qed.

(** ** Programs that do not see the private state *)

Fixpoint blind {A} (p : Prog W A) : Prop :=
  match p with
  | Ret _ => True
  | Act a => ∀ w1 w2 w1' b, same w1 w2 → (w1', b) ∈ a w1 → ∃ w2', (w2', b) ∈ a w2 ∧ same w1' w2' ∧
      (∀ x, slotL w1' x = slotL w1 x) ∧ (∀ y, slotR w2' y = slotR w2 y)
  | Go t => blind t
  | Iter body s => ∀ s', blind (body s')
  | Bind p f => blind p ∧ ∀ a, blind (f a)
  end.

(** Such a program simulates itself, and what is known of the slots stays true. *)
Lemma sim_blind {A} P (p : Prog W A) :
  stable P → blind p → sim P p p (keeps P).
Proof.
  revert P. induction p as [A a|B a|t IH|S B body IH s|A B p IHp f IHf]; intros P HP Hp.
  - by apply sim_ret_keeps.
  - apply sim_act; [done|by intros; apply keeps_stable|].
    intros O w1 w2 w1' b Hs Ho HPw Hin. destruct (Hp _ _ _ _ Hs Hin) as (w2' & Hin' & Hs' & HL & HR).
    exists O, w2', b. split; [done|]. split; [by apply guar_quiet|]. split; [done|].
    eapply HP; [|done]. split; [done|]. auto.
  - apply sim_go; [done|]. eapply sim_conseq; [| |apply (IH (λ _ _ _, True))]; done.
  - apply sim_iter; [done|]. intros s'. by apply IH.
  - destruct Hp as [Hp Hf]. eapply sim_bind_keeps; [by apply IHp|]. intros a. by apply IHf.
Qed.

(** ** Pools *)

Definition disjoint_owners (Os : list own) : Prop :=
  ∀ i j Oi Oj, i ≠ j → Os !! i = Some Oi → Os !! j = Some Oj →
    (∀ x, fst <$> Oi = Some x → fst <$> Oj ≠ Some x) ∧
    (∀ y, snd <$> Oi = Some y → snd <$> Oj ≠ Some y).

Record pool_sim (n : nat) (c1 c2 : Config W) (Os : list own) : Prop := mk_pool_sim {
  ps_same : same (world c1) (world c2);
  ps_disjoint : disjoint_owners Os;
  ps_owns : Forall (λ O, owns O (world c1) (world c2)) Os;
  ps_left : length (threads c1) = length Os;
  ps_right : length (threads c2) = length Os;
  ps_threads i O t1 t2 : Os !! i = Some O → threads c1 !! i = Some t1 → threads c2 !! i = Some t2 →
    psim n O t1 t2 (world c1) (world c2) (λ _ _ _ _ _, True)
}.

(** What one goroutine did, seen by the owners of other slots. *)
Lemma disjoint_step Os i O O' w1 w2 w1' w2' k :
  disjoint_owners Os → Forall (λ O, owns O w1 w2) Os → Os !! i = Some O →
  guar O O' w1 w2 w1' w2' →
  (∀ j Oj, j ≠ i → Os !! j = Some Oj → rely Oj w1 w2 w1' w2') ∧
  disjoint_owners (<[i:=O']> Os ++ replicate k None) ∧
  Forall (λ O, owns O w1' w2') (<[i:=O']> Os ++ replicate k None).
Proof.
  intros Hd Ho Hi Hg.
  assert (∀ j Oj, j ≠ i → Os !! j = Some Oj → owns Oj w1 w2) as Hoj.
  { intros. by eapply (Forall_lookup_1 _ _ _ _ Ho). }
  assert (∀ j Oj, j ≠ i → Os !! j = Some Oj → rely Oj w1 w2 w1' w2') as Hrel.
  { intros j Oj Hne Hj. eapply guar_rely; [done|by eapply Hoj|apply (Hd j i); done..]. }
  assert (∀ j Oj, j ≠ i → Os !! j = Some Oj →
    (∀ x, fst <$> Oj = Some x → fst <$> O' ≠ Some x) ∧
    (∀ y, snd <$> Oj = Some y → snd <$> O' ≠ Some y)) as Hnew.
  { intros j Oj Hne Hj. destruct (gr_new _ _ _ _ _ _ Hg) as [->|[->|(x & y & -> & Hx & Hy)]];
      [by apply (Hd j i)|done|].
    split; intros z Hz; (destruct Oj as [[x' y']|]; [|done]); simplify_eq/=;
      destruct (Hoj _ _ Hne Hj _ _ eq_refl) as [[? ?] [? ?]]; congruence. }
  assert (∀ j Oj, (<[i:=O']> Os ++ replicate k None) !! j = Some Oj →
    (j = i ∧ Oj = O') ∨ (j ≠ i ∧ Os !! j = Some Oj) ∨ (j ≠ i ∧ Oj = None)) as Hcase.
  { intros j Oj. rewrite lookup_app_Some, length_insert. pose proof (lookup_lt_Some _ _ _ Hi).
    intros [[[-> [<- ?]]|[? ?]]%list_lookup_insert_Some|[? [-> ?]%lookup_replicate]]; [auto|auto|].
    right; right. split; [lia|done]. }
  split_and!; [done| |].
  - intros j1 j2 O1 O2 Hne [[-> ->]|[[H1 H1']|[H1 ->]]]%Hcase [[-> ->]|[[H2 H2']|[H2 ->]]]%Hcase;
      try done; try (by apply (Hd j1 j2)); try (by eapply Hnew).
    destruct (Hnew _ _ H2 H2') as [Hx Hy]. split; intros z Hz Hz'; [by apply (Hx z)|by apply (Hy z)].
  - apply Forall_lookup. intros j Oj [[-> ->]|[[H1 H1']|[H1 ->]]]%Hcase; [apply Hg| |done].
    eapply rely_owns; eauto.
Qed.

Lemma steps_in_pool i q w ts q' w' l :
  steps q w ts q' w' → l !! i = Some q →
  rtc pool_step (mkConfig w l) (mkConfig w' (<[i:=q']> l ++ ts)).
Proof.
  intros Hs. revert l. induction Hs as [q w|q w w1 q1 ts1 ts2 q' w' Hin _ IH]; intros l Hi.
  - rewrite list_insert_id, app_nil_r by done. constructor.
  - eapply rtc_l; [by eapply (pool_step_thread (mkConfig w l))|]. simpl.
    pose proof (lookup_lt_Some _ _ _ Hi).
    assert (<[i:=q']> l ++ ts1 ++ ts2 = <[i:=q']> (<[i:=q1]> l ++ ts1) ++ ts2) as ->.
    { rewrite insert_app_l, list_insert_insert_eq, app_assoc by by rewrite length_insert. done. }
    apply IH. rewrite lookup_app_l by by rewrite length_insert. by apply list_lookup_insert_eq.
Qed.

Lemma pool_sim_step n c1 c2 Os c1' :
  pool_sim (S n) c1 c2 Os → pool_step c1 c1' →
  ∃ c2' Os', rtc pool_step c2 c2' ∧ pool_sim n c1' c2' Os'.
Proof.
  intros [Hs Hd Ho Hl Hr Ht] [i t1 w1' t1' ts1 Hi Hin].
  pose proof (lookup_lt_Some _ _ _ Hi) as Hlt.
  destruct (lookup_lt_is_Some_2 Os i) as [O HO]; [lia|].
  destruct (lookup_lt_is_Some_2 (threads c2) i) as [t2 Hi2]; [lia|].
  destruct (Ht _ _ _ _ HO Hi Hi2) as (_ & Hstep & _).
  destruct (Hstep _ _ _ Hin) as (O' & w2' & t2' & ts2 & Hq & Hg & Hsim & Hts).
  destruct (disjoint_step Os i O O' _ _ _ _ (length ts1) Hd Ho HO Hg) as (Hrel & Hd' & Ho').
  exists (mkConfig w2' (<[i:=t2']> (threads c2) ++ ts2)), (<[i:=O']> Os ++ replicate (length ts1) None).
  split; [destruct c2; by eapply steps_in_pool|]. pose proof (Forall2_length _ _ _ Hts) as Hlen.
  split; simpl; [apply Hg|done..| | |].
  - rewrite !length_app, !length_insert, length_replicate. lia.
  - rewrite !length_app, !length_insert, length_replicate. lia.
  - intros j Oj s1 s2. destruct (decide (j < length Os)%nat) as [Hj|Hj].
    + rewrite !lookup_app_l by (rewrite length_insert; lia). destruct (decide (j = i)) as [->|Hne].
      * rewrite !list_lookup_insert_eq by lia. by intros [= <-] [= <-] [= <-].
      * rewrite !list_lookup_insert_ne by done. intros HOj H1 H2.
        destruct (Ht _ _ _ _ HOj H1 H2) as (_ & _ & HR). apply HR. by eapply Hrel.
    + rewrite !lookup_app_r by (rewrite length_insert; lia). rewrite !length_insert, Hl, Hr.
      intros [-> _]%lookup_replicate H1 H2. by eapply (Forall2_lookup_lr _ _ _ _ _ _ Hts).
Qed.

(** What the environment does must not depend on the private state. *)
Definition env_blind (E : relation W) : Prop :=
  ∀ w1 w2 w1', same w1 w2 → E w1 w1' → ∃ w2', E w2 w2' ∧ same w1' w2' ∧
    (∀ x, slotL w1' x = slotL w1 x) ∧ (∀ y, slotR w2' y = slotR w2 y).

Lemma pool_sim_env n c1 c2 Os (E : relation W) w1' :
  env_blind E → pool_sim (S n) c1 c2 Os → E (world c1) w1' →
  ∃ w2', E (world c2) w2' ∧ pool_sim n (mkConfig w1' (threads c1)) (mkConfig w2' (threads c2)) Os.
Proof.
  intros HE [Hs Hd Ho Hl Hr Ht] Hw. destruct (HE _ _ _ Hs Hw) as (w2' & Hw2 & Hs' & HL & HR).
  assert (∀ O, rely O (world c1) (world c2) w1' w2') as Hrel by (split; auto).
  exists w2'. split; [done|]. split; simpl; try done.
  - eapply Forall_impl; [exact Ho|]. intros O. by apply rely_owns.
  - intros i O t1 t2 HO H1 H2. destruct (Ht _ _ _ _ HO H1 H2) as (_ & _ & HRn). by apply HRn.
Qed.

(** Every world that the left pool reaches is reached by the right pool, up to the
    private state. *)
Theorem pool_simulates (E : relation W) w1 w2 l1 l2 c1' :
  env_blind E → same w1 w2 →
  Forall2 (λ t1 t2, sim (λ _ _ _, True) t1 t2 (λ _ _ _ _ _, True)) l1 l2 →
  rtc (sys_step E) (mkConfig w1 l1) c1' →
  ∃ c2', rtc (sys_step E) (mkConfig w2 l2) c2' ∧ same (world c1') (world c2').
Proof.
  intros HE Hs Hl [n Hn]%rtc_nsteps.
  assert (∀ c1 c2 Os, pool_sim n c1 c2 Os → nsteps (sys_step E) n c1 c1' →
    ∃ c2', rtc (sys_step E) c2 c2' ∧ same (world c1') (world c2')) as Hmain.
  { clear Hn. induction n as [|n IH]; intros c1 c2 Os Hp Hn; inversion Hn as [|? ? c1'' ? Hstep Hn']; subst.
    { exists c2. split; [done|apply Hp]. }
    destruct Hstep as [c1'' Hstep|w1' Hstep].
    - destruct (pool_sim_step _ _ _ _ _ Hp Hstep) as (c2'' & Os' & Hr & Hp').
      destruct (IH _ _ _ Hp' Hn') as (c2' & ? & ?). exists c2'. split; [|done]. etrans; [|done].
      eapply (rtc_congruence id); [|done]. intros. by apply sys_step_pool.
    - destruct (pool_sim_env _ _ _ _ _ _ HE Hp Hstep) as (w2' & Hw & Hp').
      destruct (IH _ _ _ Hp' Hn') as (c2' & ? & ?). exists c2'. split; [|done].
      eapply rtc_l; [by apply sys_step_env|done]. }
  eapply (Hmain _ _ (replicate (length l1) None)); [|done]. pose proof (Forall2_length _ _ _ Hl).
  split; simpl; rewrite ?length_replicate; try done.
  - intros i j Oi Oj _ [-> _]%lookup_replicate [-> _]%lookup_replicate. done.
  - apply Forall_replicate. done.
  - intros i O t1 t2 [-> _]%lookup_replicate H1 H2.
    by apply (Forall2_lookup_lr _ _ _ _ _ _ Hl H1 H2).
Qed.

End simulation.
