(* ===== verification/Track.v ===== *)
(** * Goroutines with local ghost state

    A program logic for invariants that depend on where each goroutine is: the
    credit it has taken and not spent, the frame it has read and not routed.
    Every goroutine carries a local state that the program itself does not have;
    an action moves the world and the local state of the goroutine that runs it,
    as a relation [R] allows.  [tracked] is the weakest precondition of a program
    for that: it mentions no world, so nothing has to be stable under the
    other goroutines, and an invariant of the world and of all the local states
    is checked against [R] alone. *)

From S2P Require Import Prelude Goroutine.

Section track.
Context {W L : Type} (l0 : L) (R : L → W → W → L → Prop).

(** A local state may be an obligation: [may l a] says that the goroutine can do [a]
    next, and it loops, starts a goroutine or ends only in a [free] state. *)
Context (may : L → ∀ B, (W → list (W * B)) → Prop) (free : L → Prop).

(** From local state [l], every action of [p] is an [R] step, [p] returns only in a
    local state that satisfies [Q], and a goroutine it starts is tracked from [l0]. *)
Fixpoint tracked {A} (p : Prog W A) (l : L) (Q : A → L → Prop) : Prop :=
  match p with
  | Ret a => λ Q, Q a l
  | Act a => λ Q, may l _ a ∧ ∀ w w' b, (w', b) ∈ a w → ∃ l', R l w w' l' ∧ Q b l'
  | Go t => λ Q, free l ∧ tracked t l0 (λ _ l', free l') ∧ Q () l
  | Iter body s => λ Q, ∃ I, I s l ∧
      ∀ s l, I s l → free l ∧
        tracked (body s) l (λ r l', match r with inl s' => I s' l' | inr b => Q b l' end)
  | Bind p f => λ Q, tracked p l (λ a l', tracked (f a) l' Q)
  end Q.

Lemma tracked_mono {A} (p : Prog W A) l (Q Q' : A → L → Prop) :
  (∀ a l, Q a l → Q' a l) → tracked p l Q → tracked p l Q'.
Proof.
  revert l. induction p as [A a|B a|t _|S B body IH s|A B p IH f IHf]; intros l HQ; simpl.
  - apply HQ.
  - intros [? Ha]. split; [done|]. intros w w' b Hin. destruct (Ha w w' b Hin) as (l' & ? & ?). eauto.
  - intros (? & ? & ?). auto.
  - intros (I & HI & Hb). exists I. split; [done|]. intros s' l' Hs'.
    destruct (Hb s' l' Hs') as [? ?]. split; [done|]. eapply IH; [|done]. intros [?|?]; auto.
  - intros Hp. eapply IH; [|done]. intros a l'. by apply IHf.
Qed.

Lemma tracked_bind {A B} (p : Prog W A) (f : A → Prog W B) l M Q :
  tracked p l M → (∀ a l', M a l' → tracked (f a) l' Q) → tracked (Bind p f) l Q.
Proof. intros Hp Hf. exact (tracked_mono p l M _ Hf Hp). Qed.

Lemma tracked_then {A B} (p : Prog W A) (f : A → Prog W B) l l' Q :
  tracked p l (λ _ l1, l1 = l') → (∀ a, tracked (f a) l' Q) → tracked (Bind p f) l Q.
Proof. intros Hp Hf. eapply tracked_bind; [exact Hp|]. by intros a ? ->. Qed.

Lemma tracked_act {A B} (a : W → list (W * A)) (f : A → Prog W B) l Q :
  may l _ a → (∀ w w' b, (w', b) ∈ a w → ∃ l', R l w w' l' ∧ tracked (f b) l' Q) →
  tracked (Bind (Act a) f) l Q.
Proof. done. Qed.

(** A loop that starts and goes on in the same local state. *)
Lemma tracked_iter {S B} (body : S → Prog W (S + B)) s l (Q : B → L → Prop) :
  free l → (∀ s, tracked (body s) l (λ r l', match r with inl _ => l' = l | inr b => Q b l' end)) →
  tracked (Iter body s) l Q.
Proof. intros Hl Hb. exists (λ _ l', l' = l). split; [done|]. by intros s' ? ->. Qed.

(** A program whose actions all keep the local state. *)
Lemma tracked_acts {A} (J : relation W) (p : Prog W A) l (Q : A → L → Prop) :
  (∀ w w' l, J w w' → R l w w' l) → (∀ l B a, free l → may l B a) → free l0 → free l →
  all_acts J p → (∀ a, Q a l) → tracked p l Q.
Proof.
  intros HJ Hmay H0. revert l.
  induction p as [A a|B a|t IH|S B body IH s|A B p IH f IHf]; intros l Hl Hp HQ; simpl in *.
  - done.
  - split; [by apply Hmay|]. intros w w' b Hin. exists l. split; [|done]. by eapply HJ, Hp.
  - split_and!; [done| |done]. by apply IH.
  - exists (λ _ l', l' = l). split; [done|]. intros s' ? ->. split; [done|]. apply IH; [done..|]. by intros [].
  - destruct Hp as [Hp Hf]. apply IH; [done..|]. intros a. by apply IHf.
Qed.

Context (Hrefl : ∀ l w, R l w w l).

(** One step of a tracked goroutine. *)
Lemma tracked_step {A} (p : Prog W A) l (Q : A → L → Prop) w w' p' ts :
  tracked p l Q → (w', p', ts) ∈ pstep p w →
  ∃ l', R l w w' l' ∧ tracked p' l' Q ∧ Forall (λ t, tracked t l0 (λ _ l', free l')) ts.
Proof using Hrefl.
  revert l w w' p' ts.
  induction p as [A a|B a|t _|S B body IH s|A B p IH f _]; intros l w w' p' ts Hp Hin;
    simpl in Hin.
  - by inv_elem.
  - apply list_elem_of_fmap in Hin as ([w1 b] & ? & Hin). simplify_eq.
    destruct Hp as [_ Hp]. destruct (Hp _ _ _ Hin) as (l' & ? & ?). by exists l'.
  - inv_elem. destruct Hp as (? & ? & ?). exists l. split_and!; [done..|by constructor].
  - inv_elem. destruct Hp as (I & HI & Hb). exists l. split_and!; [done| |done]. simpl.
    destruct (Hb _ _ HI) as [_ Hs]. eapply tracked_mono; [|exact Hs].
    intros [s'|b] l'; [|done]. intros Hs'. by exists I.
  - destruct (result p) as [a|] eqn:E.
    + inv_elem. exists l. destruct p; simplify_eq/=. by split_and!.
    + apply list_elem_of_fmap in Hin as ([[w1 p1] ts1] & ? & Hin). simplify_eq.
      edestruct IH as (l' & ? & ? & ?); [exact Hp|done|]. by exists l'.
Qed.

(** A pool whose goroutines are tracked from the local states [ls]. *)
Definition pool_tracked (c : Config W) (ls : list L) : Prop :=
  Forall2 (λ t l, tracked t l (λ _ l', free l')) (threads c) ls.

Lemma pool_tracked_step c c' ls :
  pool_tracked c ls → pool_step c c' →
  ∃ i l l' k, ls !! i = Some l ∧ R l (world c) (world c') l' ∧
    pool_tracked c' (<[i:=l']> ls ++ replicate k l0).
Proof using Hrefl.
  intros Hc [i p w' p' ts Hi Hin]; simpl.
  destruct (Forall2_lookup_l _ _ _ _ _ Hc Hi) as (l & Hl & Hp).
  destruct (tracked_step p l _ _ _ _ _ Hp Hin) as (l' & HR & Hp' & Hts).
  exists i, l, l', (length ts). split_and!; [done..|].
  apply Forall2_app; [by apply Forall2_insert|]. apply Forall2_same_length_lookup_2.
  - by rewrite length_replicate.
  - intros j t l1 Ht [-> _]%lookup_replicate. by eapply Forall_lookup_1 in Hts.
Qed.

End track.

#[global] Arguments tracked : simpl never.
#[global] Arguments tracked_bind {W L l0 R may free A B} p f l M Q.
#[global] Arguments tracked_then {W L l0 R may free A B} p f l l' Q.

(** The sum of the contributions of the local states, of which [l0] has none. *)
Lemma sum_by_local {L} (g : L → Z) ls i l l' k l0 :
  g l0 = 0 → ls !! i = Some l →
  sum_by g (<[i:=l']> ls ++ replicate k l0) = sum_by g ls - g l + g l'.
Proof.
  intros H0 Hl. rewrite sum_by_app.
  rewrite (sum_by_zero g (replicate k l0)) by (by intros x [-> _]%elem_of_replicate).
  revert i Hl. induction ls as [|x ls IH]; intros [|i] Hl; simplify_eq/=; [lia|].
  specialize (IH i Hl). lia.
Qed.

Lemma elem_of_local {L} (x : L) ls i l' k l0 :
  x ∈ <[i:=l']> ls ++ replicate k l0 → x ∈ ls ∨ x = l' ∨ x = l0.
Proof.
  rewrite elem_of_app. intros [Hx|[-> _]%elem_of_replicate]; [|by auto].
  apply list_elem_of_lookup in Hx as [j Hj]. destruct (decide (i = j)) as [->|].
  - apply list_lookup_insert_Some in Hj as [(_ & -> & _)|[? _]]; by auto.
  - rewrite list_lookup_insert_ne in Hj by done. left. by eapply list_elem_of_lookup_2.
Qed.
