(* ===== verification/Status.v ===== *)
(** * Wire data and statuses

    The frame envelope of [transport/transport.pb.go], the status and error
    values of [wsrpc/status.go], and the status conversions at the end of
    [wsrpc/stream.go]. *)

From S2P Require Import Prelude.
From Stdlib Require Import Strings.Byte.

Abbreviation bytes := (list Byte.byte).

#[export] Instance byte_eq_decision : EqDecision Byte.byte := Byte.byte_eq_dec.

(** A Go [map[string]string]: [None] is the nil map, which reads as empty. *)
Abbreviation gomap := (option (gmap string string)).

Definition gomap_get (m : gomap) (k : string) : string :=
  default EmptyString (m ≫= lookup k).

Definition gomap_len (m : gomap) : Z := Z.of_nat (size (default ∅ m)).

(** [for k, v := range src { dst[k] = v }] over a non-nil [dst]: the entries of
    [src] win. *)
Definition gomap_merge (dst : gmap string string) (src : gomap) : gmap string string :=
  default ∅ src ∪ dst.

(** ** transport.pb.go *)

(** [Kind] is an open enum: a peer may send a number without a constant. *)
Inductive Kind :=
| KIND_UNSPECIFIED | KIND_OPEN | KIND_MSG | KIND_HALF_CLOSE | KIND_END | KIND_RST
| KIND_HEADER | KIND_WINDOW_UPDATE
| KIND_unknown (n : Z).

#[export] Instance Kind_eq_dec : EqDecision Kind.
Proof. solve_decision. Defined.

(** The wire message [transport.Status]; [pCode] is an [int32]. *)
Record PStatus := mkPStatus { pCode : Z; pMessage : string; pDetails : list bytes }.

Record Frame := mkFrame {
  StreamId : Z;            (* uint32 *)
  FKind : Kind;
  Headers : gomap;
  Payload : bytes;
  FStatus : option PStatus;
  FMethod : string;
  Window : Z               (* uint32 *)
}.

(** [&transport.Frame{StreamId: id, Kind: k}]: every other field is zero. *)
Definition frame (id : Z) (k : Kind) : Frame := mkFrame id k None [] None EmptyString 0.

#[export] Instance eta_Frame : Eta Frame := λ f,
  mkFrame (StreamId f) (FKind f) (Headers f) (Payload f) (FStatus f) (FMethod f) (Window f).

Definition payload_len (f : Frame) : Z := len (Payload f).

Lemma payload_len_nonneg f : 0 ≤ payload_len f.
Proof. apply len_nonneg. Qed.
#[export] Hint Resolve payload_len_nonneg : wsrpc.

Lemma sum_payload_nonneg l : 0 ≤ sum_by payload_len l.
Proof. apply sum_by_nonneg. auto with wsrpc. Qed.
#[export] Hint Resolve sum_payload_nonneg : wsrpc.

(** ** gRPC codes: a [codes.Code] is a [uint32] *)
Module codes.
Definition OK : Z := 0.
Definition Canceled : Z := 1.
Definition Unknown : Z := 2.
Definition DeadlineExceeded : Z := 4.
Definition ResourceExhausted : Z := 8.
Definition FailedPrecondition : Z := 9.
Definition Unimplemented : Z := 12.
Definition Internal : Z := 13.
Definition Unavailable : Z := 14.
End codes.

(** ** status.go *)

Record Status := mkStatus { Code : Z; Message : string; Details : list bytes }.

(** A non-nil Go [error].  A [*Status] may itself be the nil pointer inside a
    non-nil interface.  [ErrOther tag msg] is any other dynamic type [tag] whose
    [Error()] is [msg]; an [error] that may be nil is an [option error]. *)
Inductive error :=
| ErrStatus (s : option Status)
| ErrEOF
| ErrCanceled
| ErrDeadlineExceeded
| ErrPipeClosed
| ErrOther (tag msg : string).

#[export] Instance Status_eq_dec : EqDecision Status.
Proof. solve_decision. Defined.
#[export] Instance error_eq_dec : EqDecision error.
Proof. solve_decision. Defined.

(** [Errorf(c, format, args...)] for the already formatted message. *)
Definition Errorf (c : Z) (msg : string) : error := ErrStatus (Some (mkStatus c msg [])).

(** [Error()] of a status; [name] is the [String] method of gRPC's codes. *)
Definition Status_Error (name : Z → string) (s : Status) : string :=
  "wsrpc: code = " +:+ name (Code s) +:+ " desc = " +:+ Message s.

(** [err.Error()] of the errors that are not a [*Status]. *)
Definition err_string (e : error) : string :=
  match e with
  | ErrStatus _ => EmptyString
  | ErrEOF => "EOF"
  | ErrCanceled => "context canceled"
  | ErrDeadlineExceeded => "context deadline exceeded"
  | ErrPipeClosed => "wsrpc: pipe closed"
  | ErrOther _ msg => msg
  end.

(** [spb.Status], the message inside a gRPC [*status.Status]; [gCode] is an
    [int32], and [gs.Code()] converts it to a [codes.Code]. *)
Record GStatus (Any : Type) := mkGStatus { gCode : Z; gMessage : string; gDetails : list Any }.
Arguments mkGStatus {Any} _ _ _.
Arguments gCode {Any} _.
Arguments gMessage {Any} _.
Arguments gDetails {Any} _.

(** What the runtime uses of google.golang.org/grpc/status and of protobuf: the
    [Any] messages with their codec, and [status.FromError] on an error that is
    not a [*Status]. *)
Class GrpcLib := {
  Any : Type;
  any_Marshal : Any → option bytes;
  any_Unmarshal : bytes → option Any;
  status_FromError : error → option (GStatus Any)
}.

(** What their documentation says of the codec: decoding an encoded message gives
    the message back. *)
Class GrpcLibOk `{GrpcLib} := {
  any_roundtrip a b : any_Marshal a = Some b → any_Unmarshal b = Some a
}.

Section grpc_status.
Context `{!GrpcLib}.

(** [(s *Status) GRPCStatus()]: a detail that is not an [Any] is dropped. *)
Definition GRPCStatus (s : Status) : GStatus Any :=
  mkGStatus (wrap32 (Code s)) (Message s) (omap any_Unmarshal (Details s)).

(** [FromError(err)]; [None] is nil, for a nil [err] or a nil [*Status]. *)
Definition FromError (err : option error) : option Status :=
  match err with
  | None => None
  | Some (ErrStatus s) => s
  | Some e =>
      match status_FromError e with
      | Some gs =>
          Some (mkStatus (wrapu32 (gCode gs)) (gMessage gs) (omap any_Marshal (gDetails gs)))
      | None => Some (mkStatus codes.Unknown (err_string e) [])
      end
  end.

(** A gRPC status error crosses the bridge unchanged: converting it to a
    [*Status] and back gives the same code, message and details. *)
Lemma FromError_GRPCStatus `{!GrpcLibOk} e gs :
  (∀ s, e ≠ ErrStatus s) → status_FromError e = Some gs →
  is_int32 (gCode gs) → Forall (λ a, is_Some (any_Marshal a)) (gDetails gs) →
  GRPCStatus <$> FromError (Some e) = Some gs.
Proof.
  intros Hne Hgs Hcode Hdet.
  assert (FromError (Some e) =
    Some (mkStatus (wrapu32 (gCode gs)) (gMessage gs) (omap any_Marshal (gDetails gs)))) as ->.
  { destruct e; simpl; [by destruct (Hne s)|by rewrite Hgs..]. }
  unfold GRPCStatus; simpl. destruct gs as [c m ds]; simpl in *.
  rewrite wrap32_wrapu32 by done. do 2 f_equal.
  clear Hgs. induction Hdet as [|a ds [b Hb] _ IH]; [done|]. csimpl. rewrite Hb. csimpl.
  rewrite (any_roundtrip _ _ Hb). by f_equal.
Qed.

End grpc_status.

(** An instance that satisfies the laws: details are raw bytes and no error is a
    gRPC error.  The examples of the development run over it. *)
Definition plain_grpc : GrpcLib := {|
  Any := bytes;
  any_Marshal := Some;
  any_Unmarshal := Some;
  status_FromError := λ _, None
|}.

Lemma plain_grpc_ok : @GrpcLibOk plain_grpc.
Proof. split. simpl. congruence. Qed.

(** ** stream.go: statusToProto, statusFromProto *)

Definition statusToProto (st : option Status) : PStatus :=
  let st := default (mkStatus codes.OK EmptyString []) st in
  mkPStatus (wrap32 (Code st)) (Message st) (Details st).

Definition statusFromProto (p : option PStatus) : Status :=
  match p with
  | None => mkStatus codes.OK EmptyString []
  | Some p => mkStatus (wrapu32 (pCode p)) (pMessage p) (pDetails p)
  end.

Lemma statusFromProto_statusToProto st :
  is_uint32 (Code st) → statusFromProto (Some (statusToProto (Some st))) = st.
Proof. destruct st; unfold statusFromProto; simpl; intros. by rewrite wrapu32_wrap32. Qed.
