(* ===== verification/Context.v ===== *)
(** * Cancellation contexts

    What the runtime uses of Go's [context] package.  A context is the path of
    its cancellable nodes up to the root, so [context.Background()] is the empty
    path and [context.WithCancel(ctx)] puts a fresh node in front.  The store
    records the nodes cancelled so far, each with its [Err()].  A context is done
    when a node of its path is cancelled; its error is that of the nearest one:
    cancelling a context whose error is already set changes nothing, and a parent
    that is cancelled later does not change the error of a child that was already
    done. *)

From S2P Require Import Prelude Status.

Abbreviation ctx := (list nat).

Definition Background : ctx := [].

Record CtxStore := mkCtxStore {
  ctx_next : nat;              (* next fresh node *)
  ctx_dead : gmap nat error    (* cancelled nodes and their Err() *)
}.

#[export] Instance eta_CtxStore : Eta CtxStore := λ σ, mkCtxStore (ctx_next σ) (ctx_dead σ).

Definition ctx_empty : CtxStore := mkCtxStore 0 ∅.

(** [ctx.Err()], with [None] for nil; [ctx.Done()] is readable iff it is [Some]. *)
Fixpoint ctx_Err (σ : CtxStore) (c : ctx) : option error :=
  match c with
  | [] => None
  | n :: c =>
      match ctx_dead σ !! n with
      | Some e => Some e
      | None => ctx_Err σ c
      end
  end.

(** [context.WithCancel(parent)]. *)
Definition WithCancel (parent : ctx) (σ : CtxStore) : CtxStore * ctx :=
  (σ <| ctx_next ::= S |>, ctx_next σ :: parent).

(** Cancelling a context with error [e]: by its [CancelFunc] ([ErrCanceled]) or
    by its timer ([ErrDeadlineExceeded]). *)
Definition ctx_kill (e : error) (c : ctx) (σ : CtxStore) : CtxStore :=
  match c, ctx_Err σ c with
  | n :: _, None => σ <| ctx_dead ::= <[n := e]> |>
  | _, _ => σ
  end.

Definition cancel : ctx → CtxStore → CtxStore := ctx_kill ErrCanceled.

(** [context.WithTimeout(parent, d)]: a non-positive duration is already over.
    The timer of a positive one fires as a step of the environment. *)
Definition WithTimeout (parent : ctx) (d : Z) (σ : CtxStore) : CtxStore * ctx :=
  let '(σ, c) := WithCancel parent σ in
  (if d <=? 0 then ctx_kill ErrDeadlineExceeded c σ else σ, c).

(** Every node of a live path was allocated. *)
Definition ctx_wf (σ : CtxStore) (c : ctx) : Prop := ∀ n, n ∈ c → (n < ctx_next σ)%nat.

Definition ctx_store_wf (σ : CtxStore) : Prop :=
  ∀ n, is_Some (ctx_dead σ !! n) → (n < ctx_next σ)%nat.

(** The store grows: nodes stay allocated, dead nodes keep their error. *)
Record ctx_le (σ σ' : CtxStore) : Prop := mk_ctx_le {
  ctx_le_next : (ctx_next σ ≤ ctx_next σ')%nat;
  ctx_le_dead : ctx_dead σ ⊆ ctx_dead σ'
}.

#[export] Instance ctx_le_preorder : PreOrder ctx_le.
Proof.
  split.
  - intros σ. by split.
  - intros σ1 σ2 σ3 [] []. split; [lia|by etrans].
Qed.

Lemma ctx_Err_dead σ c : is_Some (ctx_Err σ c) ↔ ∃ n, n ∈ c ∧ is_Some (ctx_dead σ !! n).
Proof.
  induction c as [|n c IH]; simpl.
  - split; [by intros []|]. intros (? & ?%not_elem_of_nil & _). done.
  - destruct (ctx_dead σ !! n) as [e|] eqn:E.
    + split; [|done]. intros _. exists n. split; [left|by rewrite E].
    + rewrite IH. split; intros (m & Hm & Hd); exists m; (split; [|done]).
      * by right.
      * apply elem_of_cons in Hm as [->|]; [|done]. rewrite E in Hd. by destruct Hd.
Qed.

(** A done context stays done. *)
Lemma ctx_Err_mono σ σ' c : ctx_le σ σ' → is_Some (ctx_Err σ c) → is_Some (ctx_Err σ' c).
Proof.
  rewrite !ctx_Err_dead. intros [_ Hd] (n & Hn & [e He]). exists n. split; [done|].
  exists e. by eapply lookup_weaken.
Qed.

Lemma ctx_kill_le e c σ : ctx_le σ (ctx_kill e c σ).
Proof.
  destruct c as [|n c]; [done|]. cbn -[ctx_Err].
  destruct (ctx_Err σ (n :: c)) eqn:E; [done|]. split; simpl; [lia|].
  apply insert_subseteq. simpl in E. by destruct (ctx_dead σ !! n).
Qed.

Lemma WithCancel_le c σ : ctx_le σ (WithCancel c σ).1.
Proof. split; simpl; [lia|done]. Qed.

Lemma WithTimeout_le c d σ : ctx_le σ (WithTimeout c d σ).1.
Proof.
  unfold WithTimeout; cbn -[ctx_kill]. destruct (d <=? 0).
  - transitivity (WithCancel c σ).1; [apply WithCancel_le|apply ctx_kill_le].
  - apply (WithCancel_le c).
Qed.
#[export] Hint Resolve ctx_kill_le WithCancel_le WithTimeout_le : wsrpc.

(** A context that owns a node is done once it is cancelled. *)
Lemma ctx_kill_done e n c σ : is_Some (ctx_Err (ctx_kill e (n :: c) σ) (n :: c)).
Proof.
  cbn -[ctx_Err]. destruct (ctx_Err σ (n :: c)) eqn:E; [by rewrite E|].
  simpl. by rewrite lookup_insert_eq.
Qed.

(** The error of a done context never changes by another cancellation. *)
Lemma ctx_kill_Err e c c' σ err :
  ctx_Err σ c = Some err → c' = c → ctx_Err (ctx_kill e c' σ) c = Some err.
Proof. intros H ->. destruct c as [|n c]; [done|]. cbn -[ctx_Err]. by rewrite !H. Qed.

(** A context derived with [WithCancel] has the error of its parent. *)
Lemma WithCancel_Err c σ :
  ctx_store_wf σ → ctx_Err (WithCancel c σ).1 (WithCancel c σ).2 = ctx_Err σ c.
Proof.
  intros Hwf. simpl. destruct (ctx_dead σ !! ctx_next σ) eqn:E.
  - exfalso. assert (ctx_next σ < ctx_next σ)%nat by (apply Hwf; by rewrite E). lia.
  - by induction c as [|n c IH]; simpl; [|rewrite IH].
Qed.

Lemma ctx_Err_not_dead σ σ' c :
  (∀ n, n ∈ c → ctx_dead σ' !! n = ctx_dead σ !! n) → ctx_Err σ' c = ctx_Err σ c.
Proof.
  induction c as [|n c IH]; intros H; simpl; [done|].
  rewrite H by left. rewrite IH; [done|]. intros m Hm. apply H. by right.
Qed.
