(* ===== verification/Conn.v ===== *)
(** * Frame connections

    [codec.go]'s [FrameConn] interface as a class, what a connection promises to
    the mux that runs over it ([FrameConnOk]), and the two implementations: the
    in-memory pipe of [pipe.go] and the WebSocket adapter of [wsconn.go]. *)

From S2P Require Import Prelude Status.

(** ** codec.go: FrameConn

    A method maps the state of the connection to its possible outcomes; an empty
    list means that the call blocks.  The first argument of the methods that take
    a [context.Context] is its [Err()]. *)
Class FrameConn (C : Type) := {
  WriteFrame : option error → Frame → C → list (C * option error);
  ReadFrame : option error → C → list (C * (error + Frame));
  Ping : option error → C → list (C * option error);
  CloseConn : C → list (C * option error)
}.

(** What the mux relies on: there are two queues of frames, [inbox] (sent by the
    peer, not yet read) and [outbox] (written, not yet read by the peer).  A read
    takes the first frame of [inbox], a successful write appends to [outbox], and
    nothing else moves a frame. *)
Class FrameConnOk (C : Type) `{FrameConn C} := {
  inbox : C → list Frame;
  outbox : C → list Frame;
  read_frame_ok e c c' f :
    (c', inr f) ∈ ReadFrame e c → inbox c = f :: inbox c' ∧ outbox c' = outbox c;
  read_frame_err e c c' err :
    (c', inl err) ∈ ReadFrame e c → inbox c' = inbox c ∧ outbox c' = outbox c;
  write_frame_ok e f c c' :
    (c', None) ∈ WriteFrame e f c → outbox c' = outbox c ++ [f] ∧ inbox c' = inbox c;
  write_frame_err e f c c' err :
    (c', Some err) ∈ WriteFrame e f c → outbox c' = outbox c ∧ inbox c' = inbox c;
  ping_frames e c c' r :
    (c', r) ∈ Ping e c → outbox c' = outbox c ∧ inbox c' = inbox c;
  close_frames c c' r :
    (c', r) ∈ CloseConn c → outbox c' = outbox c ∧ inbox c' = inbox c
}.

(** One ready branch of a [select], or none. *)
Definition branch {A} (ready : bool) (x : A) : list A := if ready then [x] else [].

Lemma elem_of_branch {A} (b : bool) (x y : A) : y ∈ branch b x ↔ b = true ∧ y = x.
Proof.
  destruct b; simpl; [rewrite list_elem_of_singleton; naive_solver|].
  rewrite elem_of_nil. naive_solver.
Qed.

(** The branch [case <-ctx.Done(): return ctx.Err()]. *)
Definition ctx_branch {A} (e : option error) (k : error → A) : list A :=
  match e with Some e => [k e] | None => [] end.

Lemma elem_of_ctx_branch {A} e (k : error → A) y :
  y ∈ ctx_branch e k ↔ ∃ err, e = Some err ∧ y = k err.
Proof.
  destruct e; simpl; [rewrite list_elem_of_singleton|rewrite elem_of_nil]; naive_solver.
Qed.

(** ** pipe.go *)
Module Pipe.

(** One end of a pipe, seen from its owner.  The two ends share the two channels
    and [done]: [peer] is the same pipe seen from the other end. *)
Record pipeConn := mkPipeConn {
  pin : list Frame;     (* frames readable on this end *)
  pout : list Frame;    (* frames written from this end *)
  pdone : bool          (* done is closed *)
}.
#[export] Instance eta_pipeConn : Eta pipeConn := λ p, mkPipeConn (pin p) (pout p) (pdone p).

Definition peer (p : pipeConn) : pipeConn := mkPipeConn (pout p) (pin p) (pdone p).

(** The capacity of the channels [ab] and [ba]. *)
Definition pipe_cap : Z := 16.

Definition newPipe : pipeConn * pipeConn :=
  let a := mkPipeConn [] [] false in (a, peer a).

Definition pipe_WriteFrame (e : option error) (f : Frame) (p : pipeConn)
    : list (pipeConn * option error) :=
  branch (len (pout p) <? pipe_cap) (p <| pout ::= λ q, q ++ [f] |>, None) ++
  branch (pdone p) (p, Some ErrPipeClosed) ++
  ctx_branch e (λ e, (p, Some e)).

Definition pipe_ReadFrame (e : option error) (p : pipeConn)
    : list (pipeConn * (error + Frame)) :=
  match pin p with
  | f :: q => [(p <| pin := q |>, inr f)]
  | [] => []
  end ++
  branch (pdone p) (p, inl ErrPipeClosed) ++
  ctx_branch e (λ e, (p, inl e)).

Definition pipe_Ping (e : option error) (p : pipeConn) : list (pipeConn * option error) :=
  [(p, None)].

(** [closeDone] is a [sync.OnceFunc]: closing again does nothing. *)
Definition pipe_Close (p : pipeConn) : list (pipeConn * option error) :=
  [(p <| pdone := true |>, None)].

#[export] Instance pipe_conn : FrameConn pipeConn := {|
  WriteFrame := pipe_WriteFrame;
  ReadFrame := pipe_ReadFrame;
  Ping := pipe_Ping;
  CloseConn := pipe_Close
|}.

Lemma pipe_WriteFrame_inv e f p p' r :
  (p', r) ∈ pipe_WriteFrame e f p →
  (len (pout p) < pipe_cap ∧ p' = p <| pout ::= λ q, q ++ [f] |> ∧ r = None) ∨
  (p' = p ∧ is_Some r ∧ (pdone p = true ∨ r = e)).
Proof.
  unfold pipe_WriteFrame. rewrite !elem_of_app, !elem_of_branch, elem_of_ctx_branch.
  intros [[?%Z.ltb_lt ?]|[[? ?]|(err & -> & ?)]]; simplify_eq/=; eauto 8.
Qed.

Lemma pipe_ReadFrame_inv e p p' r :
  (p', r) ∈ pipe_ReadFrame e p →
  (∃ f, pin p = f :: pin p' ∧ r = inr f ∧ p' = p <| pin := pin p' |>) ∨
  (p' = p ∧ ∃ err, r = inl err).
Proof.
  unfold pipe_ReadFrame. rewrite !elem_of_app, elem_of_branch, elem_of_ctx_branch.
  intros [H|[[? ?]|(err & -> & ?)]]; simplify_eq/=; eauto.
  destruct (pin p) as [|f q] eqn:E; inv_elem. left. by exists f.
Qed.

#[export] Program Instance pipe_conn_ok : FrameConnOk pipeConn :=
  {| inbox := pin; outbox := pout |}.
Next Obligation.
  intros e c c' f [(g & ? & ? & Hc')|(? & ? & ?)]%pipe_ReadFrame_inv; simplify_eq.
  by rewrite Hc'.
Qed.
Next Obligation.
  intros e c c' err [(g & ? & ? & Hc')|(? & ? & ?)]%pipe_ReadFrame_inv; by simplify_eq.
Qed.
Next Obligation.
  intros e f c c' [(_ & -> & _)|(? & [] & _)]%pipe_WriteFrame_inv; by simplify_eq.
Qed.
Next Obligation.
  intros e f c c' err [(_ & -> & ?)|(? & _ & _)]%pipe_WriteFrame_inv; by simplify_eq.
Qed.
Next Obligation. intros e c c' r Hin. simpl in Hin. unfold pipe_Ping in Hin. by inv_elem. Qed.
Next Obligation. intros c c' r Hin. simpl in Hin. unfold pipe_Close in Hin. by inv_elem. Qed.

(** No channel ever holds more than its capacity. *)
Definition pipe_wf (p : pipeConn) : Prop := len (pin p) ≤ pipe_cap ∧ len (pout p) ≤ pipe_cap.

Lemma pipe_wf_peer p : pipe_wf p → pipe_wf (peer p).
Proof. by intros []. Qed.

Lemma pipe_WriteFrame_wf e f p p' r : (p', r) ∈ pipe_WriteFrame e f p → pipe_wf p → pipe_wf p'.
Proof.
  intros [(? & -> & _)|(-> & _)]%pipe_WriteFrame_inv [Hi Ho]; [|done].
  split; simpl; autorewrite with wsrpc; lia.
Qed.

Lemma pipe_ReadFrame_wf e p p' r : (p', r) ∈ pipe_ReadFrame e p → pipe_wf p → pipe_wf p'.
Proof.
  intros [(f & Hpin & _ & Hp')|(-> & _)]%pipe_ReadFrame_inv [Hi Ho]; [|done].
  rewrite Hp'. split; simpl; [|done]. rewrite Hpin in Hi. autorewrite with wsrpc in Hi. lia.
Qed.

(** What any sequence of calls on the two ends does to the pipe. *)
Inductive pipe_op :=
| OpWrite (mine : bool) (e : option error) (f : Frame)
| OpRead (mine : bool) (e : option error)
| OpClose (mine : bool).

Definition on_side {R} (mine : bool) (op : pipeConn → list (pipeConn * R)) (p : pipeConn)
    : list (pipeConn * R) :=
  if mine then op p else (λ '(p', r), (peer p', r)) <$> op (peer p).

Inductive pipe_call : pipeConn → pipe_op → pipeConn → Prop :=
| call_write p p' mine e f r :
    (p', r) ∈ on_side mine (pipe_WriteFrame e f) p → pipe_call p (OpWrite mine e f) p'
| call_read p p' mine e r :
    (p', r) ∈ on_side mine (pipe_ReadFrame e) p → pipe_call p (OpRead mine e) p'
| call_close p p' mine r :
    (p', r) ∈ on_side mine pipe_Close p → pipe_call p (OpClose mine) p'.

Lemma on_side_wf {R} mine (op : pipeConn → list (pipeConn * R)) p p' r :
  (∀ q q' r, (q', r) ∈ op q → pipe_wf q → pipe_wf q') →
  (p', r) ∈ on_side mine op p → pipe_wf p → pipe_wf p'.
Proof.
  intros Hop. destruct mine; simpl; [eauto|].
  intros ([q r'] & ? & Hin)%list_elem_of_fmap Hwf. simplify_eq.
  eapply pipe_wf_peer, Hop, pipe_wf_peer; eauto.
Qed.

Lemma pipe_call_wf p op p' : pipe_call p op p' → pipe_wf p → pipe_wf p'.
Proof.
  destruct 1 as [???? ? ? H|????? H|???? H]; eapply on_side_wf; try exact H.
  - apply pipe_WriteFrame_wf.
  - apply pipe_ReadFrame_wf.
  - intros q q' r' Hin. unfold pipe_Close in Hin. by inv_elem.
Qed.

End Pipe.

(** ** wsconn.go *)
Module WSConn.

(** Subprotocol of [options.go]. *)
Definition Subprotocol : string := "wsrpc.v1".

Section wsconn.
(** github.com/coder/websocket: a connection with its binary messages. *)
Context {WC : Type}.
Context (ws_Write : option error → bytes → WC → list (WC * option error)).
Context (ws_Read : option error → WC → list (WC * (error + bytes))).
Context (ws_Ping : option error → WC → list (WC * option error)).
Context (ws_Close : string → string → WC → list (WC * option error)).
Context (ws_Subprotocol : WC → string).
Context (ws_SetReadLimit : Z → WC → WC).
(** [proto.Marshal] and [proto.Unmarshal] of a frame, and [strconv.Quote]. *)
Context (proto_Marshal : Frame → error + bytes) (proto_Unmarshal : bytes → error + Frame).
Context (quote : string → string).

(** codec.go *)
Definition marshalFrame (f : Frame) : error + bytes := proto_Marshal f.
Definition unmarshalFrame (b : bytes) : error + Frame := proto_Unmarshal b.

Definition verifySubprotocol (c : WC) : list (WC * option error) :=
  let got := ws_Subprotocol c in
  if decide (got ≠ Subprotocol) then
    (λ '(c', _), (c', Some (Errorf codes.Unavailable
       ("wsrpc: server did not negotiate subprotocol " +:+ quote Subprotocol +:+
        " (got " +:+ quote got +:+ ")"))))
    <$> ws_Close "StatusProtocolError" "wsrpc: subprotocol not negotiated" c
  else [(c, None)].

Definition newWSConn (c : WC) (readLimit : Z) : WC := ws_SetReadLimit readLimit c.

Definition ws_WriteFrame (e : option error) (f : Frame) (c : WC) : list (WC * option error) :=
  match marshalFrame f with
  | inl err => [(c, Some err)]
  | inr b => ws_Write e b c
  end.

Definition ws_ReadFrame (e : option error) (c : WC) : list (WC * (error + Frame)) :=
  (λ '(c', r), (c', match r with inl err => inl err | inr b => unmarshalFrame b end))
  <$> ws_Read e c.

Definition ws_conn : FrameConn WC := {|
  WriteFrame := ws_WriteFrame;
  ReadFrame := ws_ReadFrame;
  Ping := ws_Ping;
  CloseConn := ws_Close "StatusNormalClosure" EmptyString
|}.

(** What coder/websocket and protobuf document: messages arrive whole and in
    order, a failed call sends nothing, and decoding an encoded frame gives the
    frame back. *)
Context (ws_in ws_out : WC → list bytes).
Record ws_reliable : Prop := {
  ws_read_ok e c c' b : (c', inr b) ∈ ws_Read e c → ws_in c = b :: ws_in c' ∧ ws_out c' = ws_out c;
  ws_read_err e c c' err : (c', inl err) ∈ ws_Read e c → ws_in c' = ws_in c ∧ ws_out c' = ws_out c;
  ws_write_ok e b c c' : (c', None) ∈ ws_Write e b c → ws_out c' = ws_out c ++ [b] ∧ ws_in c' = ws_in c;
  ws_write_err e b c c' err :
    (c', Some err) ∈ ws_Write e b c → ws_out c' = ws_out c ∧ ws_in c' = ws_in c;
  ws_ping_same e c c' r : (c', r) ∈ ws_Ping e c → ws_out c' = ws_out c ∧ ws_in c' = ws_in c;
  ws_close_same st why c c' r : (c', r) ∈ ws_Close st why c → ws_out c' = ws_out c ∧ ws_in c' = ws_in c;
  codec_roundtrip f b : proto_Marshal f = inr b → proto_Unmarshal b = inr f
}.

(** The frames of a queue of messages; a message that does not decode is no frame. *)
Definition decoded (q : list bytes) : list Frame :=
  omap (λ b, match unmarshalFrame b with inr f => Some f | inl _ => None end) q.

Lemma decoded_app q q' : decoded (q ++ q') = decoded q ++ decoded q'.
Proof. apply omap_app. Qed.

(** The WebSocket adapter keeps the promises of a frame connection. *)
Lemma ws_conn_ok (Hws : ws_reliable) : @FrameConnOk WC ws_conn.
Proof.
  refine {| inbox := λ c, decoded (ws_in c); outbox := λ c, decoded (ws_out c) |}; simpl.
  - intros e c c' f ([c1 [err|b]] & ? & Hin)%list_elem_of_fmap; simplify_eq/=.
    destruct (ws_read_ok Hws _ _ _ _ Hin) as [-> ->]. csimpl.
    unfold unmarshalFrame in *. by destruct (proto_Unmarshal b); simplify_eq.
  - intros e c c' err ([c1 [err'|b]] & ? & Hin)%list_elem_of_fmap; simplify_eq/=.
    + by destruct (ws_read_err Hws _ _ _ _ Hin) as [-> ->].
    + destruct (ws_read_ok Hws _ _ _ _ Hin) as [-> ->]. csimpl.
      unfold unmarshalFrame in *. by destruct (proto_Unmarshal b); simplify_eq.
  - intros e f c c'. unfold ws_WriteFrame, marshalFrame.
    destruct (proto_Marshal f) as [|b] eqn:Hb; [intros; by inv_elem|].
    intros [-> ->]%(ws_write_ok Hws). split; [|done]. rewrite decoded_app. csimpl.
    unfold unmarshalFrame. by rewrite (codec_roundtrip Hws _ _ Hb).
  - intros e f c c' err. unfold ws_WriteFrame, marshalFrame.
    destruct (proto_Marshal f) as [|b] eqn:Hb; [intros; by inv_elem|].
    by intros [-> ->]%(ws_write_err Hws).
  - by intros e c c' r [-> ->]%(ws_ping_same Hws).
  - by intros c c' r [-> ->]%(ws_close_same Hws).
Qed.

End wsconn.
End WSConn.
