(* ===== verification/Strconv.v ===== *)
(** * strconv: decimal integers

    The runtime carries a deadline as a decimal string ([strconv.FormatInt] on
    the client, [strconv.ParseInt] on the server, base 10, 64 bits). *)

From S2P Require Import Prelude.
From Stdlib Require Import Ascii DecimalString DecimalZ DecimalPos.

(** [strconv.FormatInt(z, 10)]. *)
Definition FormatInt (z : Z) : string := NilZero.string_of_int (Z.to_int z).

(** The value of an optional sign followed by at least one decimal digit. *)
Definition parse_signed (s : string) : option Z :=
  match s with
  | String "+"%char s => (λ u, Z.of_int (Decimal.Pos u)) <$> NilZero.uint_of_string s
  | _ => Z.of_int <$> NilZero.int_of_string s
  end.

(** [strconv.ParseInt(s, 10, 64)]; [None] is a syntax or a range error. *)
Definition ParseInt (s : string) : option Z :=
  z ← parse_signed s; if decide (- 2^63 ≤ z ∧ z < 2^63) then Some z else None.

Lemma string_of_uint_no_plus u s : NilZero.string_of_uint u ≠ String "+"%char s.
Proof. by destruct u. Qed.

Lemma parse_signed_FormatInt z : parse_signed (FormatInt z) = Some z.
Proof.
  unfold FormatInt.
  assert (Z.of_int <$> NilZero.int_of_string (NilZero.string_of_int (Z.to_int z)) = Some z) as H.
  { rewrite NilZero.isi; [simpl; by rewrite DecimalZ.of_to|..];
    destruct z as [|q|q]; simpl; try done;
    pose proof (DecimalPos.Unsigned.to_uint_nonnil q); congruence. }
  unfold parse_signed. destruct (NilZero.string_of_int (Z.to_int z)) as [|a s] eqn:E; [done|].
  destruct a as [[][][][][][][][]]; try done. exfalso.
  destruct (Z.to_int z) as [u|u]; simpl in E; [|by inversion E].
  by eapply string_of_uint_no_plus.
Qed.

(** Every [int64] survives the header. *)
Lemma ParseInt_FormatInt z : is_int64 z → ParseInt (FormatInt z) = Some z.
Proof.
  intros [??]. unfold ParseInt. rewrite parse_signed_FormatInt. simpl.
  by rewrite decide_True.
Qed.

Lemma ParseInt_range s z : ParseInt s = Some z → is_int64 z.
Proof.
  unfold ParseInt. destruct (parse_signed s); simpl; [|done].
  case_decide; [|done]. intros. simplify_eq. unfold is_int64. lia.
Qed.

Lemma FormatInt_nonempty z : FormatInt z ≠ EmptyString.
Proof.
  unfold FormatInt. destruct (Z.to_int z) as [u|u]; simpl; [by destruct u|done].
Qed.
