(* ===== verification/Stream.v ===== *)
(** * One stream: its state and its critical sections

    The [Stream] struct of [stream.go].  This file has the constructor and the
    body of every critical section (what runs between [s.mu.Lock()] and
    [s.mu.Unlock()]) and of every channel operation, as functions on the struct.
    StreamOps.v assembles them into the methods, which interleave. *)

From S2P Require Import Prelude Status Context.

(** Default credit window, options.go. *)
Definition defaultInitialWindow : Z := 256 * 1024.

Record Stream := mkStream {
  sid : Z;                      (* id, uint32 *)
  method : string;
  sctx : ctx;                   (* ctx; [cancel] cancels its first node *)
  deadlineCancel : option ctx;  (* the timeout context it releases *)
  mu : bool;                    (* the mutex is held across two actions *)
  header : gomap;
  trailer : gomap;
  endSt : option Status;
  endFrame : option Frame;
  outTrailer : gomap;
  headerSent : bool;
  msgSent : bool;
  recvItems : list Frame;
  recvBytes : Z;
  maxRecvBytes : Z;
  recvSignal : bool;            (* channel of capacity 1: a wake-up is pending *)
  halfClosed : bool;            (* channel closed *)
  ended : bool;                 (* channel closed; also: endOne is done *)
  endBusy : bool;               (* a goroutine is inside endOne.Do *)
  sendDone : bool;
  initialWindow : Z;
  sendWindow : Z;
  condWait : nat;               (* sendCond: next ticket *)
  condNotify : nat;             (* sendCond: tickets below it were woken *)
  pendingCredit : Z
}.

#[export] Instance eta_Stream : Eta Stream := λ s,
  mkStream (sid s) (method s) (sctx s) (deadlineCancel s) (mu s) (header s) (trailer s)
    (endSt s) (endFrame s) (outTrailer s) (headerSent s) (msgSent s) (recvItems s)
    (recvBytes s) (maxRecvBytes s) (recvSignal s) (halfClosed s) (ended s) (endBusy s) (sendDone s)
    (initialWindow s) (sendWindow s) (condWait s) (condNotify s) (pendingCredit s).

(** [newStream(ctx, mux, id, method, initialWindow)]. *)
Definition newStream (c : ctx) (id : Z) (m : string) (iw : Z) (σ : CtxStore)
    : CtxStore * Stream :=
  let iw := if iw <=? 0 then defaultInitialWindow else iw in
  let '(σ, c) := WithCancel c σ in
  (σ, mkStream id m c None false None None None None None false false [] 0 iw
        false false false false false iw iw 0 0 0).

(** ** Sending *)

(** [SendHeader]'s section: [true] when headers or a message were already sent. *)
Definition SendHeader_lock (s : Stream) : Stream * bool :=
  if headerSent s || msgSent s then (s, true) else (s <| headerSent := true |>, false).

Definition SetTrailer_lock (md : gomap) (s : Stream) : Stream :=
  s <| outTrailer := Some (gomap_merge (default ∅ (outTrailer s)) md) |>.

Definition setLeadingHeader_lock (md : gomap) (s : Stream) : Stream := s <| header := md |>.

(** [sendBlockErrLocked]: the error a blocked Send returns instead of waiting. *)
Definition sendBlockErrLocked (σ : CtxStore) (s : Stream) : option error :=
  match endSt s with
  | Some st => if Code st =? codes.OK then Some ErrEOF else Some (ErrStatus (Some st))
  | None => if ended s then Some ErrEOF else ctx_Err σ (sctx s)
  end.

(** One pass over the head of [SendRaw]'s wait loop, with the mutex held. *)
Inductive SendCheck := SendErr (e : error) | SendWait | SendGo.

Definition send_check (σ : CtxStore) (s : Stream) : SendCheck :=
  if sendWindow s <=? 0 then
    match sendBlockErrLocked σ s with Some e => SendErr e | None => SendWait end
  else SendGo.

(** [s.sendWindow -= n; s.msgSent = true]. *)
Definition send_take (n : Z) (s : Stream) : Stream :=
  s <| sendWindow ::= λ x, wrap64 (x - n) |> <| msgSent := true |>.

(** [s.sendCond.Wait()] takes a ticket and releases the mutex; the goroutine goes
    on, and locks again, once the ticket was woken. *)
Definition cond_park (s : Stream) : Stream * nat :=
  (s <| condWait ::= S |> <| mu := false |>, condWait s).

Definition cond_woken (t : nat) (s : Stream) : bool := bool_decide (t < condNotify s)%nat.

(** [wakeSenders]: [sendCond.Broadcast()]. *)
Definition wakeSenders (s : Stream) : Stream := s <| condNotify := condWait s |>.

(** [creditSend]'s section. *)
Definition creditSend_lock (delta : Z) (s : Stream) : Stream :=
  s <| sendWindow ::= λ x, wrap64 (x + delta) |>.

Definition CloseSend_lock (s : Stream) : Stream * bool :=
  if sendDone s then (s, true) else (s <| sendDone := true |>, false).

(** ** Receiving *)

(** [threshold] of [returnCredit]. *)
Definition credit_threshold (s : Stream) : Z :=
  let t := Z.quot (initialWindow s) 2 in if t <? 1 then 1 else t.

(** [returnCredit]'s section for [n > 0]: the new stream and [delta]. *)
Definition returnCredit_lock (n : Z) (s : Stream) : Stream * Z :=
  let s := s <| pendingCredit ::= λ x, wrap64 (x + n) |> in
  if credit_threshold s <=? pendingCredit s
  then (s <| pendingCredit := 0 |>, wrapu32 (pendingCredit s))
  else (s, 0).

Definition popRecv (s : Stream) : Stream * option Frame :=
  match recvItems s with
  | [] => (s, None)
  | f :: q =>
      (s <| recvItems := q |> <| recvBytes ::= λ x, wrap64 (x - payload_len f) |>, Some f)
  end.

(** [tryDeliver]'s section: dropped because the stream is ending (reported as
    accepted), refused because the backlog is over its ceiling, or enqueued. *)
Inductive Delivery := Dropped | Refused | Enqueued.

Definition tryDeliver_lock (σ : CtxStore) (f : Frame) (s : Stream) : Stream * Delivery :=
  if decide (is_Some (ctx_Err σ (sctx s))) then (s, Dropped)
  else if negb (len (recvItems s) <=? 0) && (maxRecvBytes s <? recvBytes s) then (s, Refused)
  else (s <| recvItems ::= λ q, q ++ [f] |>
          <| recvBytes ::= λ x, wrap64 (x + payload_len f) |>, Enqueued).

(** [signalRecv]: a non-blocking send on a channel of capacity 1. *)
Definition signalRecv (s : Stream) : Stream := s <| recvSignal := true |>.

Definition halfClose (s : Stream) : Stream := s <| halfClosed := true |>.

(** ** Ending *)

(** [applyEnd]'s section. *)
Definition applyEnd_lock (f : Frame) (s : Stream) : Stream :=
  let s := match Headers f with Some h => s <| trailer := Some h |> | None => s end in
  s <| endSt := Some (statusFromProto (FStatus f)) |>.

(** [failWith]'s section, for [st = FromError(err)]. *)
Definition failWith_lock (st : option Status) (s : Stream) : Stream := s <| endSt := st |>.

(** [close(s.ended)]. *)
Definition close_ended (s : Stream) : Stream := s <| ended := true |>.

(** The critical section of [signalEnd]. *)
Definition signalEnd_lock (f : Frame) (s : Stream) : Stream := s <| endFrame := Some f |>.

(** [endOne.Do]: a caller waits while another one is inside, does nothing when
    [ended] is closed already, and goes inside otherwise. *)
Definition endOne_enter (s : Stream) : Stream * bool :=
  if ended s then (s, false) else (s <| endBusy := true |>, true).

Definition endOne_exit (s : Stream) : Stream := s <| endBusy := false |>.

(** ** Well-formed streams *)

Record stream_wf (s : Stream) : Prop := mk_stream_wf {
  wf_bytes : recvBytes s = wrap64 (sum_by payload_len (recvItems s));
  wf_window : 0 < initialWindow s;
  wf_max : maxRecvBytes s = initialWindow s;
  wf_cond : (condNotify s ≤ condWait s)%nat;
  wf_ctx : sctx s ≠ []
}.

Lemma newStream_wf c id m iw σ : stream_wf (newStream c id m iw σ).2.
Proof.
  unfold newStream; simpl. split; simpl; try done.
  destruct (Z.leb_spec iw 0); [done|lia].
Qed.

Lemma wrap64_add_l x y : wrap64 (wrap64 x + y) = wrap64 (x + y).
Proof.
  unfold wrap64. f_equal. replace ((x + 2^63) mod 2^64 - 2^63 + y + 2^63)
    with ((x + 2^63) mod 2^64 + y) by lia.
  rewrite Zplus_mod_idemp_l. f_equal. lia.
Qed.

Lemma popRecv_wf s : stream_wf s → stream_wf (popRecv s).1.
Proof.
  intros Hwf. unfold popRecv. destruct (recvItems s) as [|f q] eqn:E; simpl; [done|].
  destruct Hwf as [Hb ????]. split; simpl; try done. rewrite Hb, E. simpl.
  unfold Z.sub. rewrite wrap64_add_l. f_equal. lia.
Qed.

Lemma tryDeliver_wf σ f s : stream_wf s → stream_wf (tryDeliver_lock σ f s).1.
Proof.
  intros [Hb ????]. unfold tryDeliver_lock. case_decide; [by split|].
  destruct (_ && _); [by split|]. split; simpl; try done.
  rewrite Hb, wrap64_add_l, sum_by_app. simpl. f_equal. lia.
Qed.

(** The sections that leave the backlog, the window sizes and the context of a
    well-formed stream alone keep it well-formed. *)
Lemma stream_wf_frame s s' :
  stream_wf s → recvItems s' = recvItems s → recvBytes s' = recvBytes s →
  initialWindow s' = initialWindow s → maxRecvBytes s' = maxRecvBytes s →
  (condNotify s' ≤ condWait s')%nat → sctx s' = sctx s → stream_wf s'.
Proof. intros [] ???? ? ?. split; congruence. Qed.

Ltac solve_stream_wf :=
  let H := fresh in
  intros H; eapply (stream_wf_frame _ _ H); simpl;
  repeat (case_match; simpl); try reflexivity; destruct H; simpl; lia.

Lemma wakeSenders_wf s : stream_wf s → stream_wf (wakeSenders s).
Proof. solve_stream_wf. Qed.
Lemma SendHeader_lock_wf s : stream_wf s → stream_wf (SendHeader_lock s).1.
Proof. unfold SendHeader_lock. solve_stream_wf. Qed.
Lemma SetTrailer_lock_wf md s : stream_wf s → stream_wf (SetTrailer_lock md s).
Proof. solve_stream_wf. Qed.
Lemma setLeadingHeader_lock_wf md s : stream_wf s → stream_wf (setLeadingHeader_lock md s).
Proof. solve_stream_wf. Qed.
Lemma send_take_wf n s : stream_wf s → stream_wf (send_take n s).
Proof. solve_stream_wf. Qed.
Lemma cond_park_wf s : stream_wf s → stream_wf (cond_park s).1.
Proof. solve_stream_wf. Qed.
Lemma creditSend_lock_wf d s : stream_wf s → stream_wf (creditSend_lock d s).
Proof. solve_stream_wf. Qed.
Lemma CloseSend_lock_wf s : stream_wf s → stream_wf (CloseSend_lock s).1.
Proof. unfold CloseSend_lock. solve_stream_wf. Qed.
Lemma returnCredit_lock_wf n s : stream_wf s → stream_wf (returnCredit_lock n s).1.
Proof. unfold returnCredit_lock. cbn zeta. solve_stream_wf. Qed.
Lemma signalRecv_wf s : stream_wf s → stream_wf (signalRecv s).
Proof. solve_stream_wf. Qed.
Lemma halfClose_wf s : stream_wf s → stream_wf (halfClose s).
Proof. solve_stream_wf. Qed.
Lemma applyEnd_lock_wf f s : stream_wf s → stream_wf (applyEnd_lock f s).
Proof. unfold applyEnd_lock. solve_stream_wf. Qed.
Lemma failWith_lock_wf st s : stream_wf s → stream_wf (failWith_lock st s).
Proof. solve_stream_wf. Qed.
Lemma close_ended_wf s : stream_wf s → stream_wf (close_ended s).
Proof. solve_stream_wf. Qed.
Lemma signalEnd_lock_wf f s : stream_wf s → stream_wf (signalEnd_lock f s).
Proof. solve_stream_wf. Qed.
Lemma endOne_enter_wf s : stream_wf s → stream_wf (endOne_enter s).1.
Proof. unfold endOne_enter. solve_stream_wf. Qed.
Lemma endOne_exit_wf s : stream_wf s → stream_wf (endOne_exit s).
Proof. solve_stream_wf. Qed.

#[export] Hint Resolve newStream_wf popRecv_wf tryDeliver_wf wakeSenders_wf SendHeader_lock_wf
  SetTrailer_lock_wf setLeadingHeader_lock_wf send_take_wf cond_park_wf creditSend_lock_wf
  CloseSend_lock_wf returnCredit_lock_wf signalRecv_wf halfClose_wf applyEnd_lock_wf
  failWith_lock_wf close_ended_wf signalEnd_lock_wf endOne_enter_wf
  endOne_exit_wf : wsrpc.
