(* ===== verification/World.v ===== *)
(** * The state of one endpoint, and the actions on it

    An endpoint of a connection is a [Mux] over a frame connection, the streams
    it created, and the contexts they run under.  Streams are shared by pointer:
    the mux registry, the read loop, the handler and the caller hold the same
    object, so the world has a heap of streams and everything else has their
    addresses.  So are the metadata sinks of the unary calls, the server streams of
    the gRPC adapter and those of the generated bridge.  Besides the state of the program the world keeps three logs,
    the frames written to the connection, the frames read from it and the stats
    callbacks fired. *)

From S2P Require Import Prelude Goroutine Status Context Conn Stream.

(** ** stats.go

    An installed [ServerStats]: which of its callbacks are non-nil. *)
Record ServerStats := mkServerStats {
  ConnOpened : bool; ConnClosed : bool; ConnRejected : bool;
  StreamStarted : bool; StreamEnded : bool; StreamRejected : bool;
  MsgSent : bool; MsgReceived : bool
}.

Inductive StatEvent :=
| EvConnOpened | EvConnClosed
| EvConnRejected (reason : string)
| EvStreamStarted (method : string)
| EvStreamEnded (method : string) (code : Z)
| EvStreamRejected (reason : string)
| EvMsgSent (method : string) (bytes : Z)
| EvMsgReceived (method : string) (bytes : Z).

Definition statsReasonOriginPolicy : string := "origin_policy".
Definition statsReasonUpgrade : string := "upgrade".
Definition statsReasonMaxStreams : string := "max_streams".
Definition statsReasonRecvOverflow : string := "recv_overflow".

(** The callback a dispatch helper calls. *)
Definition stat_callback (ev : StatEvent) : ServerStats → bool :=
  match ev with
  | EvConnOpened => ConnOpened
  | EvConnClosed => ConnClosed
  | EvConnRejected _ => ConnRejected
  | EvStreamStarted _ => StreamStarted
  | EvStreamEnded _ _ => StreamEnded
  | EvStreamRejected _ => StreamRejected
  | EvMsgSent _ _ => MsgSent
  | EvMsgReceived _ _ => MsgReceived
  end.

(** The nil-safe dispatch helpers: [st != nil && st.Callback != nil]. *)
Definition stat_dispatch (st : option ServerStats) (ev : StatEvent) (log : list StatEvent)
    : list StatEvent :=
  match st with
  | Some st => if stat_callback ev st then log ++ [ev] else log
  | None => log
  end.

(** ** mux.go: Mux *)
Record Mux := mkMux {
  mctx : ctx;                  (* ctx; [cancel] cancels its first node *)
  nextID : Z;                  (* uint32 *)
  mmu : bool;                  (* mu is held across several actions *)
  streams : gmap Z nat;        (* stream id to the address of the stream *)
  muxWindow : Z;               (* initialWindow *)
  maxStreams : Z;
  writeMu : bool;
  ctrlCh : list Frame;         (* channel of capacity ctrlBufferSize *)
  stats : option ServerStats;
  closedFlag : bool
}.
#[export] Instance eta_Mux : Eta Mux := λ m,
  mkMux (mctx m) (nextID m) (mmu m) (streams m) (muxWindow m) (maxStreams m) (writeMu m)
    (ctrlCh m) (stats m) (closedFlag m).

(** ** metadata.go: mdSink

    Each of its methods is one critical section. *)
Record mdSink := mkMdSink { sk_header : gomap; sk_trailer : gomap }.
#[export] Instance eta_mdSink : Eta mdSink := λ k, mkMdSink (sk_header k) (sk_trailer k).

(** [metadata.MD], a [map[string][]string]; [None] is nil. *)
Abbreviation MD := (option (gmap string (list string))).

(** ** grpc_registrar.go: the mutable part of a grpcServerStream *)
Record ServerStreamState := mkServerStreamState { pending : MD }.
#[export] Instance eta_ServerStreamState : Eta ServerStreamState := λ x,
  mkServerStreamState (pending x).

(** ** echo_ws.pb.go: the mutable part of a generated grpc.ServerStream shim

    The captured message is kept by its number: messages are countable. *)
Record ShimState := mkShimState { captured : option positive; pendingHeader : MD }.
#[export] Instance eta_ShimState : Eta ShimState := λ x, mkShimState (captured x) (pendingHeader x).

Record World (C : Type) := mkWorld {
  ctxs : CtxStore;
  heap : list Stream;
  mux : Mux;
  conn : C;
  sinks : list mdSink;         (* metadata sinks, by address *)
  gstreams : list ServerStreamState;
  shims : list ShimState;
  wlog : list Frame;           (* frames written without error *)
  rlog : list Frame;           (* frames the read loop read *)
  events : list StatEvent
}.
Arguments mkWorld {C} _ _ _ _ _ _ _ _ _ _.
Arguments ctxs {C} _.
Arguments heap {C} _.
Arguments mux {C} _.
Arguments conn {C} _.
Arguments sinks {C} _.
Arguments gstreams {C} _.
Arguments shims {C} _.
Arguments wlog {C} _.
Arguments rlog {C} _.
Arguments events {C} _.

#[export] Instance eta_World C : Eta (World C) := λ w,
  mkWorld (ctxs w) (heap w) (mux w) (conn w) (sinks w) (gstreams w) (shims w) (wlog w) (rlog w) (events w).

Section actions.
Context {C : Type} `{!FrameConn C}.
Abbreviation W := (World C).
Implicit Types (w : W) (p : nat).

(** ** Actions on a stream *)

Definition set_stream p (s : Stream) (w : W) : W := w <| heap ::= <[p:=s]> |>.

(** A channel operation, or a read of an immutable field, of the stream at [p]. *)
Definition on_stream {B} p (f : Stream → Stream * B) : Prog W B :=
  Act (λ w, match heap w !! p with
            | Some s => let '(s', b) := f s in [(set_stream p s' w, b)]
            | None => []
            end).

(** A critical section of [s.mu]: it waits while another goroutine holds it. *)
Definition locked_ctx {B} p (f : CtxStore → Stream → Stream * B) : Prog W B :=
  Act (λ w, match heap w !! p with
            | Some s =>
                if mu s then []
                else let '(s', b) := f (ctxs w) s in [(set_stream p s' w, b)]
            | None => []
            end).

Definition locked {B} p (f : Stream → Stream * B) : Prog W B := locked_ctx p (λ _, f).

Definition locked_ p (f : Stream → Stream) : Prog W unit := locked p (λ s, (f s, ())).
Definition on_stream_ p (f : Stream → Stream) : Prog W unit := on_stream p (λ s, (f s, ())).

(** Fields that never change after [newStream]. *)
Definition get_stream p : Prog W Stream := on_stream p (λ s, (s, s)).

(** ** Actions on the other objects *)

(** A method of the object at [a] of a heap of the world, [h] with setter [put]. *)
Definition on_obj {O B} (h : W → list O) (put : (list O → list O) → W → W) (a : nat)
    (f : O → O * B) : Prog W B :=
  Act (λ w, match h w !! a with
            | Some o => let '(o', b) := f o in [(put (<[a:=o']>) w, b)]
            | None => []
            end).

Definition new_obj {O} (h : W → list O) (put : (list O → list O) → W → W) (o : O) : Prog W nat :=
  update (λ w, (put (λ l, l ++ [o]) w, length (h w))).

Definition put_sinks (f : list mdSink → list mdSink) (w : W) : W := w <| sinks ::= f |>.
Definition on_sink {B} : nat → (mdSink → mdSink * B) → Prog W B := on_obj sinks put_sinks.
Definition new_sink : mdSink → Prog W nat := new_obj sinks put_sinks.

Definition put_gstreams (f : list ServerStreamState → list ServerStreamState) (w : W) : W :=
  w <| gstreams ::= f |>.
Definition on_gstream {B} : nat → (ServerStreamState → ServerStreamState * B) → Prog W B :=
  on_obj gstreams put_gstreams.
Definition new_gstream : ServerStreamState → Prog W nat := new_obj gstreams put_gstreams.

Definition put_shims (f : list ShimState → list ShimState) (w : W) : W := w <| shims ::= f |>.
Definition on_shim {B} : nat → (ShimState → ShimState * B) → Prog W B := on_obj shims put_shims.
Definition new_shim : ShimState → Prog W nat := new_obj shims put_shims.

Definition ctx_cancel (c : ctx) : Prog W unit := modify (λ w, w <| ctxs ::= cancel c |>).

Definition stat (ev : StatEvent) : Prog W unit :=
  modify (λ w, w <| events ::= stat_dispatch (stats (mux w)) ev |>).

(** ** Actions on the mux *)

(** A critical section of [m.mu]. *)
Definition mux_locked {B} (f : W → W * B) : Prog W B :=
  Act (λ w, if mmu (mux w) then [] else [f w]).

Definition set_mux (f : Mux → Mux) (w : W) : W := w <| mux ::= f |>.

(** [m.write(ctx, f)]: frame writes are serialized by [writeMu], which is held
    for as long as the connection blocks the write. *)
Definition conn_write (c : ctx) (f : Frame) (w : W) : list (W * option error) :=
  (λ '(c', r),
     (w <| conn := c' |>
        <| wlog ::= λ l, match r with None => l ++ [f] | Some _ => l end |>, r))
  <$> WriteFrame (ctx_Err (ctxs w) c) f (conn w).

Definition mux_write (c : ctx) (f : Frame) : Prog W (option error) :=
  Act (λ w, if writeMu (mux w) then [] else [(set_mux (λ m, m <| writeMu := true |>) w, ())]) ;;
  r <- Act (conn_write c f) ;;
  modify (set_mux (λ m, m <| writeMu := false |>)) ;;
  Ret r.

(** [for _, x := range l { f(x) }]. *)
Fixpoint for_each {X} (l : list X) (f : X → Prog W unit) : Prog W unit :=
  match l with
  | [] => Ret ()
  | x :: l => f x ;; for_each l f
  end.

End actions.
