(* ===== verification/StreamOps.v ===== *)
(** * The methods of a stream

    Every method of [stream.go] as a goroutine program, in the order of the file.
    A payload with its error is a pair [(payload, err)] as in Go.  Marshaling of
    messages ([Send], [Recv]) is a parameter; the raw methods carry bytes. *)

From S2P Require Import Prelude Goroutine Status Context Conn Stream World.

Section stream_ops.
Context {C : Type} `{!FrameConn C} `{!GrpcLib}.
Abbreviation W := (World C).
Implicit Types (p : nat) (c : ctx).

(** ** Accessors *)

Definition stream_Context p : Prog W ctx := s <- get_stream p ;; Ret (sctx s).
Definition stream_Method p : Prog W string := s <- get_stream p ;; Ret (method s).

(** ** Metadata *)

Definition Header p : Prog W gomap := locked p (λ s, (s, header s)).
Definition Trailer p : Prog W gomap := locked p (λ s, (s, trailer s)).

Definition SendHeader p (md : gomap) : Prog W (option error) :=
  dup <- locked p SendHeader_lock ;;
  if dup : bool
  then Ret (Some (Errorf codes.FailedPrecondition "wsrpc: headers already sent"))
  else
    s <- get_stream p ;;
    mux_write (sctx s) ((frame (sid s) KIND_HEADER) <| Headers := md |>).

Definition SetTrailer p (md : gomap) : Prog W unit :=
  if gomap_len md =? 0 then Ret () else locked_ p (SetTrailer_lock md).

Definition takeTrailer p : Prog W gomap := locked p (λ s, (s, outTrailer s)).

Definition setLeadingHeader p (md : gomap) : Prog W unit := locked_ p (setLeadingHeader_lock md).

(** ** Sending *)

(** The head of the wait loop runs with [s.mu] held: it fails, takes the credit
    (both release the mutex), or goes on to wait with the mutex still held. *)
Definition send_head p (n : Z) : Prog W SendCheck :=
  locked_ctx p (λ σ s,
    match send_check σ s with
    | SendErr e => (s, SendErr e)
    | SendGo => (send_take n s, SendGo)
    | SendWait => (s <| mu := true |>, SendWait)
    end).

Definition cond_wait p : Prog W unit :=
  t <- on_stream p cond_park ;;
  Act (λ w, match heap w !! p with
            | Some s => if cond_woken t s then [(w, ())] else []
            | None => []
            end).

(** The wait loop; [None] when the credit was taken. *)
Definition send_wait p (n : Z) : Prog W (option error) :=
  Iter (λ _ : unit,
    v <- send_head p n ;;
    match v with
    | SendErr e => Ret (inr (Some e))
    | SendGo => Ret (inr None)
    | SendWait => cond_wait p ;; Ret (inl ())
    end) ().

Definition SendRaw p (b : bytes) : Prog W (option error) :=
  let n := len b in
  blocked <- send_wait p n ;;
  match blocked with
  | Some e => Ret (Some e)
  | None =>
      s <- get_stream p ;;
      err <- mux_write (sctx s) ((frame (sid s) KIND_MSG) <| Payload := b |>) ;;
      match err with
      | Some e => Ret (Some e)
      | None => stat (EvMsgSent (method s) n) ;; Ret None
      end
  end.

(** [Send]: [proto.Marshal] is a parameter. *)
Definition Send {M} (Marshal : M → error + bytes) p (m : M) : Prog W (option error) :=
  match Marshal m with
  | inl err => Ret (Some err)
  | inr b => SendRaw p b
  end.

Definition creditSend p (delta : Z) : Prog W unit :=
  if delta <=? 0 then Ret ()
  else locked_ p (creditSend_lock delta) ;; on_stream_ p wakeSenders.

(** ** Receiving *)

Definition returnCredit p (n : Z) : Prog W unit :=
  if n <=? 0 then Ret ()
  else
    delta <- locked p (returnCredit_lock n) ;;
    if delta =? 0 then Ret ()
    else
      s <- get_stream p ;;
      mux_write (sctx s) ((frame (sid s) KIND_WINDOW_UPDATE) <| Window := delta |>) ;;
      Ret ().

Definition deliverPayload p (f : Frame) : Prog W bytes :=
  returnCredit p (payload_len f) ;; Ret (Payload f).

Definition applyEnd p (f : Frame) : Prog W Status :=
  locked_ p (applyEnd_lock f) ;;
  on_stream_ p wakeSenders ;;
  s <- get_stream p ;;
  ctx_cancel (sctx s) ;;
  Ret (statusFromProto (FStatus f)).

Definition status p : Prog W (option Status) := locked p (λ s, (s, endSt s)).

Definition recvEnded p : Prog W (bytes * option error) :=
  o <- locked p popRecv ;;
  match o with
  | Some f => b <- deliverPayload p f ;; Ret (b, None)
  | None =>
      ef <- locked p (λ s, (s, endFrame s)) ;;
      match ef with
      | None =>
          st <- status p ;;
          match st with
          | Some st =>
              if Code st =? codes.OK then Ret ([], Some ErrEOF)
              else Ret ([], Some (ErrStatus (Some st)))
          | None => Ret ([], Some ErrEOF)
          end
      | Some f =>
          match FKind f with
          | KIND_END =>
              st <- applyEnd p f ;;
              if Code st =? codes.OK then Ret ([], Some ErrEOF)
              else Ret ([], Some (ErrStatus (Some st)))
          | KIND_RST =>
              st <- applyEnd p f ;;
              let st := if Code st =? codes.OK
                        then mkStatus codes.Canceled "stream reset" [] else st in
              Ret ([], Some (ErrStatus (Some st)))
          | _ => Ret ([], Some ErrEOF)
          end
      end
  end.

(** The ready branches of [RecvRawContext]'s [select]. *)
Inductive RecvBranch := RbSignal | RbHalfClosed | RbEnded | RbStreamCtx | RbCallerCtx.

Definition recv_ready (σ : CtxStore) (c : ctx) (s : Stream) : list RecvBranch :=
  branch (recvSignal s) RbSignal ++
  branch (halfClosed s) RbHalfClosed ++
  branch (ended s) RbEnded ++
  branch (bool_decide (is_Some (ctx_Err σ (sctx s)))) RbStreamCtx ++
  branch (bool_decide (is_Some (ctx_Err σ c))) RbCallerCtx.

(** Taking a branch; the receive on [recvSignal] empties the channel. *)
Definition recv_select c p : Prog W RecvBranch :=
  Act (λ w, match heap w !! p with
            | Some s =>
                (λ b, match b with
                      | RbSignal => (set_stream p (s <| recvSignal := false |>) w, b)
                      | _ => (w, b)
                      end) <$> recv_ready (ctxs w) c s
            | None => []
            end).

Definition ctx_err_of c : Prog W (option error) := read (λ w, ctx_Err (ctxs w) c).

(** [if f := s.popRecv(); f != nil { return s.deliverPayload(f), nil }] before
    returning [err]. *)
Definition pop_or p (err : Prog W (option error)) : Prog W (bytes * option error) :=
  o <- locked p popRecv ;;
  match o with
  | Some f => b <- deliverPayload p f ;; Ret (b, None)
  | None => e <- err ;; Ret ([], e)
  end.

(** The case of the [select] that was taken: loop again, or return. *)
Definition recv_case c p (br : RecvBranch) : Prog W (unit + bytes * option error) :=
  match br with
  | RbSignal => Ret (inl ())
  | RbHalfClosed => r <- pop_or p (Ret (Some ErrEOF)) ;; Ret (inr r)
  | RbEnded => r <- recvEnded p ;; Ret (inr r)
  | RbStreamCtx =>
      s <- get_stream p ;;
      if ended s
      then r <- recvEnded p ;; Ret (inr r)
      else r <- pop_or p (ctx_err_of (sctx s)) ;; Ret (inr r)
  | RbCallerCtx => e <- ctx_err_of c ;; Ret (inr ([], e))
  end.

Definition RecvRawContext c p : Prog W (bytes * option error) :=
  Iter (λ _ : unit,
    o <- locked p popRecv ;;
    match o with
    | Some f => b <- deliverPayload p f ;; Ret (inr (b, None))
    | None => br <- recv_select c p ;; recv_case c p br
    end) ().

Definition RecvRaw p : Prog W (bytes * option error) := RecvRawContext Background p.

(** [RecvContext]: [proto.Unmarshal] is a parameter; [inl] is an error. *)
Definition RecvContext {M} (Unmarshal : bytes → error + M) c p : Prog W (error + M) :=
  r <- RecvRawContext c p ;;
  match r with
  | (_, Some err) => Ret (inl err)
  | (b, None) => Ret (Unmarshal b)
  end.

Definition Recv {M} (Unmarshal : bytes → error + M) p : Prog W (error + M) :=
  RecvContext Unmarshal Background p.

(** ** Closing *)

Definition CloseSend p : Prog W (option error) :=
  done <- locked p CloseSend_lock ;;
  if done : bool then Ret None
  else
    s <- get_stream p ;;
    mux_write (sctx s) (frame (sid s) KIND_HALF_CLOSE).

(** Entering [endOne.Do]. *)
Definition once {B} p (f : Stream → Stream * B) : Prog W B :=
  Act (λ w, match heap w !! p with
            | Some s =>
                if endBusy s then []
                else let '(s', b) := f s in [(set_stream p s' w, b)]
            | None => []
            end).

(** The function [failWith] passes to [endOne.Do] is one operation, [close]: it is
    entered, run and left in one action. *)
Definition failWith p (err : option error) : Prog W unit :=
  locked_ p (failWith_lock (FromError err)) ;;
  on_stream_ p wakeSenders ;;
  once p (λ s, (close_ended s, ())) ;;
  s <- get_stream p ;;
  ctx_cancel (sctx s).

(** [end(st, trailers)]: the END frame goes out under the context of the mux, and
    [failWith] is deferred. *)
Definition end_ p (st : option Status) (trailers : gomap) : Prog W (option error) :=
  s <- get_stream p ;;
  mc <- read (λ w, mctx (mux w)) ;;
  err <- mux_write mc
    ((frame (sid s) KIND_END) <| Headers := trailers |> <| FStatus := Some (statusToProto st) |>) ;;
  failWith p (Some (ErrStatus st)) ;;
  Ret err.

(** ** Called by the read loop *)

Definition tryDeliver p (f : Frame) : Prog W bool :=
  d <- locked_ctx p (λ σ, tryDeliver_lock σ f) ;;
  match d with
  | Dropped => Ret true
  | Refused => Ret false
  | Enqueued => on_stream_ p signalRecv ;; Ret true
  end.

(** The terminal frame is recorded under the mutex; [ended] is closed and the
    senders are woken after it was released. *)
Definition signalEnd p (f : Frame) : Prog W unit :=
  first <- once p endOne_enter ;;
  if first : bool then
    locked_ p (signalEnd_lock f) ;;
    on_stream_ p close_ended ;;
    on_stream_ p wakeSenders ;;
    on_stream_ p endOne_exit
  else Ret ().

End stream_ops.
