(* ===== verification/MuxOps.v ===== *)
(** * The multiplexer

    [mux.go]: opening client streams, the read loop with its routing of inbound
    frames, the control-frame writer, keepalive, and teardown.  [onOpen] is the
    dispatch callback, [None] on a client. *)

From S2P Require Import Prelude Goroutine Status Context Conn Strconv Stream World StreamOps.

Definition timeoutHeader : string := "ws-timeout-ms".
Definition ctrlBufferSize : Z := 256.

(** [time.Duration(ms)*time.Millisecond], an [int64] product. *)
Definition millis (ms : Z) : Z := wrap64 (ms * 1000000).

Section mux_ops.
Context {C : Type} `{!FrameConn C} `{!GrpcLib}.
Abbreviation W := (World C).
Implicit Types (p : nat) (c : ctx).

(** ** Creation *)

(** [newMuxConfig]: the state of a fresh mux over [cn]; [recvBuffer] is unused. *)
Definition newMuxConfig c (cn : C) (recvBuffer iw max : Z) (st : option ServerStats)
    (σ : CtxStore) : W :=
  let iw := if iw <=? 0 then defaultInitialWindow else iw in
  let '(σ, c) := WithCancel c σ in
  mkWorld σ [] (mkMux c 1 false ∅ iw max false [] st false) cn [] [] [] [] [] [].

(** ** Control frames *)

(** [writeCtrl]: a full channel drops the frame. *)
Definition writeCtrl (f : Frame) : Prog W unit :=
  modify (set_mux (λ m,
    if len (ctrlCh m) <? ctrlBufferSize then m <| ctrlCh ::= λ q, q ++ [f] |> else m)).

Inductive CtrlBranch := CbDone | CbFrame (f : Frame).

Definition ctrl_select : Prog W CtrlBranch :=
  Act (λ w,
    branch (bool_decide (is_Some (ctx_Err (ctxs w) (mctx (mux w))))) (w, CbDone) ++
    match ctrlCh (mux w) with
    | f :: q => [(set_mux (λ m, m <| ctrlCh := q |>) w, CbFrame f)]
    | [] => []
    end).

Definition ctrlWriter : Prog W unit :=
  Iter (λ _ : unit,
    b <- ctrl_select ;;
    match b with
    | CbDone => Ret (inr ())
    | CbFrame f =>
        mc <- read (λ w, mctx (mux w)) ;;
        mux_write mc f ;;
        Ret (inl ())
    end) ().

(** An RST frame with a status. *)
Definition rst (id : Z) (code : Z) (msg : string) : Frame :=
  (frame id KIND_RST) <| FStatus := Some (statusToProto (Some (mkStatus code msg []))) |>.

(** ** Keepalive *)

(** [startKeepalive(interval, timeout)]: the ticker may fire at any time; a ping
    runs under its own timeout context, whose timer is the environment's. *)
Definition keepalive_loop (timeout : Z) : Prog W unit :=
  Iter (λ _ : unit,
    tick <- Act (λ w,
      branch (bool_decide (is_Some (ctx_Err (ctxs w) (mctx (mux w))))) (w, false) ++
      [(w, true)]) ;;
    if tick : bool then
      c <- update (λ w, let '(σ, c) := WithTimeout (mctx (mux w)) timeout (ctxs w) in
                        (w <| ctxs := σ |>, c)) ;;
      err <- Act (λ w, (λ '(cn, r), (w <| conn := cn |>, r)) <$>
                       Ping (ctx_Err (ctxs w) c) (conn w)) ;;
      ctx_cancel c ;;
      match err with
      | Some _ =>
          mc <- read (λ w, mctx (mux w)) ;;
          ctx_cancel mc ;;
          Ret (inr ())
      | None => Ret (inl ())
      end
    else Ret (inr ())) ().

Definition startKeepalive (interval timeout : Z) : Prog W unit :=
  if interval <=? 0 then Ret () else Go (keepalive_loop timeout).

(** ** The registry *)

Definition lookup_stream (id : Z) : Prog W (option nat) :=
  mux_locked (λ w, (w, streams (mux w) !! id)).

Definition register (id : Z) p : Prog W unit :=
  mux_locked (λ w, (set_mux (λ m, m <| streams ::= <[id:=p]> |>) w, ())).

Definition remove (id : Z) : Prog W unit :=
  mux_locked (λ w, (set_mux (λ m, m <| streams ::= delete id |>) w, ())).

(** Allocate a stream; nobody else knows its address yet. *)
Definition alloc (c : ctx) (id : Z) (m : string) (iw : Z) (init : Stream → Stream) (w : W)
    : W * nat :=
  let '(σ, s) := newStream c id m iw (ctxs w) in
  (w <| ctxs := σ |> <| heap ::= λ h, h ++ [init s] |>, length (heap w)).

(** ** Client streams *)

(** The deadline header; [dl] is [time.Until(d).Milliseconds()] when the context
    of the call has a deadline [d]. *)
Definition deadline_headers (dl : option Z) (headers : gomap) : gomap :=
  match dl with
  | Some ms =>
      if 0 <? ms
      then Some (<[timeoutHeader := FormatInt ms]> (gomap_merge ∅ headers))
      else headers
  | None => headers
  end.

(** [atomic.AddUint32(&m.nextID, 2) - 2]. *)
Definition next_id (m : Mux) : Mux * Z :=
  let n := wrapu32 (nextID m + 2) in (m <| nextID := n |>, wrapu32 (n - 2)).

Definition alloc_id : Prog W Z :=
  update (λ w, let '(m, id) := next_id (mux w) in (w <| mux := m |>, id)).

Definition newClientStream c (dl : option Z) (m : string) (headers : gomap)
    : Prog W (error + nat) :=
  id <- alloc_id ;;
  iw <- read (λ w, muxWindow (mux w)) ;;
  p <- update (alloc c id m iw (λ s, s)) ;;
  register id p ;;
  err <- mux_write c
    ((frame id KIND_OPEN) <| FMethod := m |> <| Headers := deadline_headers dl headers |>) ;;
  match err with
  | Some e => remove id ;; Ret (inl e)
  | None => Ret (inr p)
  end.

(** ** Routing *)

(** The context of a server stream: [m.ctx], or a timeout context under it when
    the OPEN frame carries a usable [ws-timeout-ms]. *)
Definition open_ctx c (h : gomap) (σ : CtxStore) : CtxStore * ctx * option ctx :=
  let v := gomap_get h timeoutHeader in
  if decide (v = EmptyString) then (σ, c, None)
  else
    match ParseInt v with
    | Some ms =>
        if 0 <? ms
        then let '(σ, c) := WithTimeout c (millis ms) σ in (σ, c, Some c)
        else (σ, c, None)
    | None => (σ, c, None)
    end.

(** Allocation of the stream of an OPEN frame. *)
Definition open_stream (f : Frame) (w : W) : W * nat :=
  let '(σ, c, dc) := open_ctx (mctx (mux w)) (Headers f) (ctxs w) in
  alloc c (StreamId f) (FMethod f) (muxWindow (mux w))
    (λ s, s <| deadlineCancel := dc |> <| header := Headers f |>) (w <| ctxs := σ |>).

Definition route_open (onOpen : nat → Prog W unit) (f : Frame) : Prog W unit :=
  dup <- lookup_stream (StreamId f) ;;
  match dup with
  | Some _ => writeCtrl (rst (StreamId f) codes.Internal "duplicate stream id")
  | None =>
      over <- mux_locked (λ w,
        (w, (0 <? maxStreams (mux w)) &&
            (maxStreams (mux w) <=? Z.of_nat (size (streams (mux w)))))) ;;
      if over : bool then
        stat (EvStreamRejected statsReasonMaxStreams) ;;
        writeCtrl (rst (StreamId f) codes.ResourceExhausted "max concurrent streams exceeded")
      else
        p <- update (open_stream f) ;;
        register (StreamId f) p ;;
        onOpen p
  end.

(** The [default] branch of [route]: MSG, and every kind without a case. *)
Definition route_msg p (f : Frame) : Prog W unit :=
  ok <- tryDeliver p f ;;
  if ok : bool then
    s <- get_stream p ;;
    stat (EvMsgReceived (method s) (payload_len f))
  else
    stat (EvStreamRejected statsReasonRecvOverflow) ;;
    failWith p (Some (Errorf codes.ResourceExhausted "wsrpc: receive buffer overflow")) ;;
    writeCtrl (rst (StreamId f) codes.ResourceExhausted "receive buffer overflow") ;;
    remove (StreamId f).

Definition route (onOpen : option (nat → Prog W unit)) (f : Frame) : Prog W unit :=
  match FKind f, onOpen with
  | KIND_OPEN, None => Ret ()
  | KIND_OPEN, Some h => route_open h f
  | k, _ =>
      s <- lookup_stream (StreamId f) ;;
      match s with
      | None => Ret ()
      | Some p =>
          match k with
          | KIND_HALF_CLOSE => on_stream_ p halfClose
          | KIND_HEADER =>
              match onOpen with None => setLeadingHeader p (Headers f) | Some _ => Ret () end
          | KIND_WINDOW_UPDATE => creditSend p (Window f)
          | KIND_END | KIND_RST => signalEnd p f ;; remove (StreamId f)
          | _ => route_msg p f
          end
      end
  end.

(** ** Teardown *)

Definition disconnectErr : Prog W error :=
  read (λ w, if closedFlag (mux w)
             then Errorf codes.Canceled "wsrpc: transport closed"
             else Errorf codes.Unavailable "wsrpc: connection lost").

(** [failAll] holds [m.mu] from the first stream to the last; [range] visits the
    map in any order. *)
Definition failAll (err : error) : Prog W unit :=
  l <- Act (λ w, if mmu (mux w) then []
                 else pair (set_mux (λ m, m <| mmu := true |>) w) <$>
                        permutations (map_to_list (streams (mux w)))) ;;
  for_each l (λ '(id, p),
    failWith p (Some err) ;;
    modify (set_mux (λ m, m <| streams ::= delete id |>))) ;;
  modify (set_mux (λ m, m <| mmu := false |>)).

Definition read_frame : Prog W (error + Frame) :=
  Act (λ w, (λ '(cn, r),
              (w <| conn := cn |>
                 <| rlog ::= λ l, match r with inr f => l ++ [f] | inl _ => l end |>, r)) <$>
            ReadFrame (ctx_Err (ctxs w) (mctx (mux w))) (conn w)).

Definition readLoop (onOpen : option (nat → Prog W unit)) : Prog W unit :=
  Iter (λ _ : unit,
    r <- read_frame ;;
    match r with
    | inl _ => e <- disconnectErr ;; failAll e ;; Ret (inr ())
    | inr f => route onOpen f ;; Ret (inl ())
    end) () ;;
  mc <- read (λ w, mctx (mux w)) ;;
  ctx_cancel mc.

Definition Close : Prog W (option error) :=
  modify (set_mux (λ m, m <| closedFlag := true |>)) ;;
  mc <- read (λ w, mctx (mux w)) ;;
  ctx_cancel mc ;;
  Act (λ w, (λ '(cn, r), (w <| conn := cn |>, r)) <$> CloseConn (conn w)).

(** The goroutines [newMuxConfig] starts. *)
Definition mux_goroutines (onOpen : option (nat → Prog W unit)) : list (Prog W unit) :=
  [readLoop onOpen; ctrlWriter].

End mux_ops.
