(* ===== verification/Endpoint.v ===== *)
(** * The invariant of an endpoint

    What holds of the shared state of one endpoint in every interleaving of the
    read loop, the control writer, keepalive, and any number of user goroutines
    that call the methods in any order: the state stays well-formed
    ([world_wf]), and it only evolves forwards ([world_le]): a closed channel
    stays closed, a done context stays done, a header, a message or a half-close
    once sent stays sent, and the log of written frames only grows. *)

From S2P Require Import Prelude Goroutine Status Context Conn Strconv Stream World StreamOps MuxOps.

(** How a stream changes over time. *)
Record stream_le (s s' : Stream) : Prop := mk_stream_le {
  sle_sid : sid s' = sid s;
  sle_method : method s' = method s;
  sle_sctx : sctx s' = sctx s;
  sle_deadline : deadlineCancel s' = deadlineCancel s;
  sle_window : initialWindow s' = initialWindow s;
  sle_ended : ended s = true → ended s' = true;
  sle_half : halfClosed s = true → halfClosed s' = true;
  sle_header : headerSent s = true → headerSent s' = true;
  sle_msg : msgSent s = true → msgSent s' = true;
  sle_done : sendDone s = true → sendDone s' = true;
  sle_wait : (condWait s ≤ condWait s')%nat;
  sle_notify : (condNotify s ≤ condNotify s')%nat
}.

#[export] Instance stream_le_preorder : PreOrder stream_le.
Proof.
  split.
  - intros s. by split.
  - intros s1 s2 s3 [] []. split; try congruence; try lia; auto.
Qed.

(** A section that keeps a well-formed stream well-formed and moves it forwards. *)
Definition good_section {B} (f : Stream → Stream * B) : Prop :=
  ∀ s, stream_wf s → stream_wf (f s).1 ∧ stream_le s (f s).1.

Create HintDb sections.

Ltac solve_section :=
  let s := fresh "s" in let Hs := fresh "Hs" in
  intros s Hs; split; [simpl; eauto with wsrpc|];
  destruct Hs; split; simpl; repeat (case_match; simpl in *); simplify_eq/=; auto with lia.

Lemma section_id {B} (g : Stream → B) : good_section (λ s, (s, g s)).
Proof. solve_section. Qed.
Lemma section_SendHeader : good_section SendHeader_lock.
Proof. unfold SendHeader_lock. solve_section. Qed.
Lemma section_SetTrailer md : good_section (λ s, (SetTrailer_lock md s, ())).
Proof. solve_section. Qed.
Lemma section_setLeadingHeader md : good_section (λ s, (setLeadingHeader_lock md s, ())).
Proof. solve_section. Qed.
Lemma section_cond_park : good_section cond_park.
Proof. solve_section. Qed.
Lemma section_wakeSenders : good_section (λ s, (wakeSenders s, ())).
Proof. solve_section. Qed.
Lemma section_creditSend d : good_section (λ s, (creditSend_lock d s, ())).
Proof. solve_section. Qed.
Lemma section_CloseSend : good_section CloseSend_lock.
Proof. unfold CloseSend_lock. solve_section. Qed.
Lemma section_returnCredit n : good_section (returnCredit_lock n).
Proof. unfold returnCredit_lock. cbn zeta. solve_section. Qed.
Lemma section_popRecv : good_section popRecv.
Proof. unfold popRecv. solve_section. Qed.
Lemma section_tryDeliver σ f : good_section (tryDeliver_lock σ f).
Proof.
  intros s Hs. split; [by apply tryDeliver_wf|]. unfold tryDeliver_lock.
  destruct Hs; split; repeat (case_match; simpl); auto.
Qed.
Lemma section_signalRecv : good_section (λ s, (signalRecv s, ())).
Proof. solve_section. Qed.
Lemma section_halfClose : good_section (λ s, (halfClose s, ())).
Proof. solve_section. Qed.
Lemma section_applyEnd f : good_section (λ s, (applyEnd_lock f s, ())).
Proof. unfold applyEnd_lock. solve_section. Qed.
Lemma section_failWith st : good_section (λ s, (failWith_lock st s, ())).
Proof. solve_section. Qed.
Lemma section_close_ended : good_section (λ s, (close_ended s, ())).
Proof. solve_section. Qed.
Lemma section_signalEnd_lock f : good_section (λ s, (signalEnd_lock f s, ())).
Proof. solve_section. Qed.
Lemma section_endOne_enter : good_section endOne_enter.
Proof. unfold endOne_enter. solve_section. Qed.
Lemma section_endOne_exit : good_section (λ s, (endOne_exit s, ())).
Proof. solve_section. Qed.
Lemma section_send_head σ n :
  good_section (λ s, match send_check σ s with
    | SendErr e => (s, SendErr e)
    | SendGo => (send_take n s, SendGo)
    | SendWait => (s <| mu := true |>, SendWait)
    end).
Proof.
  intros s Hs. destruct (send_check σ s); simpl; (split; [|by split]).
  - done.
  - by eapply stream_wf_frame; [exact Hs|..]; simpl; try apply wf_cond.
  - auto with wsrpc.
Qed.

#[export] Hint Resolve section_id section_SendHeader section_SetTrailer section_setLeadingHeader
  section_cond_park section_wakeSenders section_creditSend section_CloseSend
  section_returnCredit section_popRecv section_tryDeliver section_signalRecv section_halfClose
  section_applyEnd section_failWith section_close_ended section_signalEnd_lock
  section_endOne_enter section_endOne_exit section_send_head : sections.

Section endpoint.
Context {C : Type} `{!FrameConn C} `{!GrpcLib}.
Abbreviation W := (World C).
Implicit Types (w : W) (p : nat).

Record world_wf w : Prop := mk_world_wf {
  wwf_heap : Forall stream_wf (heap w);
  wwf_streams : map_Forall (λ id p, ∃ s, heap w !! p = Some s ∧ sid s = id) (streams (mux w));
  wwf_ctrl : len (ctrlCh (mux w)) ≤ ctrlBufferSize;
  wwf_window : 0 < muxWindow (mux w);
  wwf_mctx : mctx (mux w) ≠ []
}.

Record world_le w w' : Prop := mk_world_le {
  wle_ctx : ctx_le (ctxs w) (ctxs w');
  wle_heap p s : heap w !! p = Some s → ∃ s', heap w' !! p = Some s' ∧ stream_le s s';
  wle_mctx : mctx (mux w') = mctx (mux w);
  wle_window : muxWindow (mux w') = muxWindow (mux w);
  wle_max : maxStreams (mux w') = maxStreams (mux w);
  wle_closed : closedFlag (mux w) = true → closedFlag (mux w') = true;
  wle_log : wlog w `prefix_of` wlog w'
}.

#[export] Instance world_le_preorder : PreOrder world_le.
Proof.
  split.
  - intros w. split; try done. intros p s ?. exists s. by split.
  - intros w1 w2 w3 [] []. split; try congruence; try (by etrans); auto.
    intros p s Hs. edestruct wle_heap0 as (s' & Hs' & ?); [done|].
    edestruct wle_heap1 as (s'' & Hs'' & ?); [done|]. exists s''. split; [done|by etrans].
Qed.

(** The steps of the runtime. *)
Definition evolves : relation W := λ w w', world_wf w → world_wf w' ∧ world_le w w'.

#[export] Instance evolves_refl : Reflexive evolves.
Proof. intros w. by split. Qed.

(** What the outside does between two steps: deliver, drop or close on the wire,
    fire timers, cancel and create contexts. *)
Definition outside : relation W := λ w w',
  ∃ σ cn, ctx_le (ctxs w) σ ∧ w' = w <| ctxs := σ |> <| conn := cn |>.

Lemma outside_evolves w w' : outside w w' → evolves w w'.
Proof.
  intros (σ & cn & Hσ & ->) []. split; [by split|]. split; simpl; try done.
  intros p s ?. by exists s.
Qed.

(** ** The building blocks *)

Lemma set_stream_evolves p s s' w :
  heap w !! p = Some s → (stream_wf s → stream_wf s' ∧ stream_le s s') →
  evolves w (set_stream p s' w).
Proof.
  intros Hp Hs [Hh Hr ???]. destruct Hs as [Hwf Hle]; [by eapply Forall_lookup_1|].
  assert (∀ q t, heap w !! q = Some t → ∃ t', <[p:=s']> (heap w) !! q = Some t' ∧ stream_le t t')
    as Hheap.
  { intros q t Hq. destruct (decide (p = q)) as [->|].
    - simplify_eq. exists s'. split; [|done]. apply list_lookup_insert_eq. by eapply lookup_lt_Some.
    - exists t. by rewrite list_lookup_insert_ne. }
  split; [split|split]; simpl; try done.
  - by apply Forall_insert.
  - intros id q Hq. destruct (Hr id q Hq) as (t & Ht & <-).
    destruct (Hheap q t Ht) as (t' & ? & []). by exists t'.
Qed.

Lemma acts_locked_ctx {B} p (f : CtxStore → Stream → Stream * B) :
  (∀ σ, good_section (f σ)) → all_acts evolves (locked_ctx p f).
Proof.
  intros Hf w w' b. simpl. destruct (heap w !! p) as [s|] eqn:Hp; [|intros; by inv_elem].
  destruct (mu s); [intros; by inv_elem|].
  destruct (f (ctxs w) s) as [s' b'] eqn:E. intros. inv_elem.
  eapply set_stream_evolves; [done|]. intros Hs. specialize (Hf (ctxs w) s Hs). by rewrite E in Hf.
Qed.

Lemma acts_on_stream {B} p (f : Stream → Stream * B) :
  good_section f → all_acts evolves (on_stream p f).
Proof.
  intros Hf w w' b. simpl. destruct (heap w !! p) as [s|] eqn:Hp; [|intros; by inv_elem].
  destruct (f s) as [s' b'] eqn:E. intros. inv_elem.
  eapply set_stream_evolves; [done|]. intros Hs. specialize (Hf s Hs). by rewrite E in Hf.
Qed.

Lemma acts_locked {B} p (f : Stream → Stream * B) :
  good_section f → all_acts evolves (locked p f).
Proof. intros. by apply acts_locked_ctx. Qed.

Lemma acts_locked_ p f : good_section (λ s, (f s, ())) → all_acts evolves (locked_ p f).
Proof. apply acts_locked. Qed.

Lemma acts_on_stream_ p f : good_section (λ s, (f s, ())) → all_acts evolves (on_stream_ p f).
Proof. apply acts_on_stream. Qed.

Lemma acts_once {B} p (f : Stream → Stream * B) :
  good_section f → all_acts evolves (once p f).
Proof.
  intros Hf w w' b. simpl. destruct (heap w !! p) as [s|] eqn:Hp; [|intros; by inv_elem].
  destruct (endBusy s); [intros; by inv_elem|].
  destruct (f s) as [s' b'] eqn:E. intros. inv_elem.
  eapply set_stream_evolves; [done|]. intros Hs. specialize (Hf s Hs). by rewrite E in Hf.
Qed.

(** An action that leaves the streams alone. *)
Lemma quiet_evolves w w' :
  heap w' = heap w → ctx_le (ctxs w) (ctxs w') → wlog w `prefix_of` wlog w' →
  mctx (mux w') = mctx (mux w) → muxWindow (mux w') = muxWindow (mux w) →
  maxStreams (mux w') = maxStreams (mux w) →
  (closedFlag (mux w) = true → closedFlag (mux w') = true) →
  streams (mux w') ⊆ streams (mux w) →
  (len (ctrlCh (mux w)) ≤ ctrlBufferSize → len (ctrlCh (mux w')) ≤ ctrlBufferSize) →
  evolves w w'.
Proof.
  intros Hh ? ? ? ? ? ? Hs Hc []. split; [split|split]; rewrite ?Hh; try done; try congruence; auto.
  - intros id q Hq. eapply wwf_streams0, lookup_weaken; eauto.
  - intros p s ?. by exists s.
Qed.

Ltac solve_quiet :=
  simpl; try (intros ?w ?w' ?b ?Hin); inv_elem; apply quiet_evolves; simpl;
  repeat case_match; simpl; autorewrite with wsrpc;
  auto using delete_subseteq with wsrpc; try done; try (by apply prefix_app_r); try lia.

Lemma acts_mux_write c f : all_acts evolves (mux_write c f).
Proof.
  split; [|intros _; split; [|intros r; split; [|done]]].
  - intros w w' b Hin. case_match; solve_quiet.
  - intros w w' b ([cn r] & ? & Hin)%list_elem_of_fmap. solve_quiet.
  - solve_quiet.
Qed.

Lemma acts_ctx_cancel c : all_acts evolves (ctx_cancel c).
Proof. intros w w' b Hin. inv_elem. apply quiet_evolves; simpl; auto with wsrpc. apply ctx_kill_le. Qed.

Lemma acts_stat ev : all_acts evolves (stat ev).
Proof. solve_quiet. Qed.

Lemma acts_read {B} (f : W → B) : all_acts evolves (read f).
Proof. solve_quiet. Qed.

(** The objects beside the streams are no part of the invariant. *)
Lemma acts_on_sink {B} a (f : mdSink → mdSink * B) : all_acts evolves (on_sink a f).
Proof. intros w w' b. simpl. repeat case_match; intros Hin; solve_quiet. Qed.
Lemma acts_new_sink o : all_acts evolves (new_sink o).
Proof. solve_quiet. Qed.
Lemma acts_on_gstream {B} a (f : ServerStreamState → ServerStreamState * B) :
  all_acts evolves (on_gstream a f).
Proof. intros w w' b. simpl. repeat case_match; intros Hin; solve_quiet. Qed.
Lemma acts_new_gstream o : all_acts evolves (new_gstream o).
Proof. solve_quiet. Qed.
Lemma acts_on_shim {B} a (f : ShimState → ShimState * B) : all_acts evolves (on_shim a f).
Proof. intros w w' b. simpl. repeat case_match; intros Hin; solve_quiet. Qed.
Lemma acts_new_shim o : all_acts evolves (new_shim o).
Proof. solve_quiet. Qed.

(** ** The methods *)

Ltac solve_acts :=
  repeat lazymatch goal with
  | |- all_acts _ (locked _ _) => apply acts_locked; auto with sections
  | |- all_acts _ (locked_ _ _) => apply acts_locked_; auto with sections
  | |- all_acts _ (on_stream _ _) => apply acts_on_stream; auto with sections
  | |- all_acts _ (on_stream_ _ _) => apply acts_on_stream_; auto with sections
  | |- all_acts _ (get_stream _) => apply acts_on_stream; auto with sections
  | |- all_acts _ (locked_ctx _ _) => apply acts_locked_ctx; auto with sections
  | |- all_acts _ (once _ _) => apply acts_once; auto with sections
  | |- all_acts _ (mux_write _ _) => apply acts_mux_write
  | |- all_acts _ (ctx_cancel _) => apply acts_ctx_cancel
  | |- all_acts _ (stat _) => apply acts_stat
  | |- all_acts _ (read _) => apply acts_read
  | |- all_acts _ (Ret _) => exact I
  | |- all_acts _ (Bind _ _) => split
  | |- all_acts _ (Iter _ _) => intros ?
  | |- all_acts _ (match ?x with _ => _ end) => destruct x
  | |- ∀ _, all_acts _ _ => intros ?
  | |- all_acts _ _ => solve [auto with acts]
  end.

Create HintDb acts.

Lemma acts_SendHeader p md : all_acts evolves (SendHeader p md).
Proof. unfold SendHeader. solve_acts. Qed.
Lemma acts_SetTrailer p md : all_acts evolves (SetTrailer p md).
Proof. unfold SetTrailer. solve_acts. Qed.
Lemma acts_cond_wait p : all_acts evolves (cond_wait p).
Proof.
  unfold cond_wait. solve_acts. intros w w' b. case_match; [|intros; by inv_elem].
  destruct (cond_woken _ _); [|intros; by inv_elem]. intros. inv_elem. reflexivity.
Qed.
#[local] Hint Resolve acts_cond_wait : acts.
Lemma acts_SendRaw p b : all_acts evolves (SendRaw p b).
Proof. unfold SendRaw, send_wait, send_head. solve_acts. Qed.
Lemma acts_creditSend p d : all_acts evolves (creditSend p d).
Proof. unfold creditSend. solve_acts. Qed.
Lemma acts_deliverPayload p f : all_acts evolves (deliverPayload p f).
Proof. unfold deliverPayload, returnCredit. solve_acts. Qed.
Lemma acts_applyEnd p f : all_acts evolves (applyEnd p f).
Proof. unfold applyEnd. solve_acts. Qed.
#[local] Hint Resolve acts_deliverPayload acts_applyEnd : acts.
Lemma acts_recvEnded p : all_acts evolves (recvEnded p).
Proof. unfold recvEnded, status. solve_acts. Qed.
Lemma acts_recv_select c p : all_acts evolves (recv_select c p).
Proof.
  intros w w' b. case_match eqn:E; [|intros; by inv_elem].
  intros ([] & ? & _)%list_elem_of_fmap; simplify_eq; try reflexivity.
  eapply set_stream_evolves; [done|]. intros Hs. split; [|by split].
  by eapply stream_wf_frame; [exact Hs|..]; simpl; try apply wf_cond.
Qed.
#[local] Hint Resolve acts_recvEnded acts_recv_select : acts.
Lemma acts_RecvRawContext c p : all_acts evolves (RecvRawContext c p).
Proof. unfold RecvRawContext, recv_case, pop_or, ctx_err_of. solve_acts. Qed.
Lemma acts_CloseSend p : all_acts evolves (CloseSend p).
Proof. unfold CloseSend. solve_acts. Qed.
Lemma acts_failWith p err : all_acts evolves (failWith p err).
Proof. unfold failWith. solve_acts. Qed.
#[local] Hint Resolve acts_failWith : acts.
Lemma acts_end p st tr : all_acts evolves (end_ p st tr).
Proof. unfold end_. solve_acts. Qed.
Lemma acts_tryDeliver p f : all_acts evolves (tryDeliver p f).
Proof. unfold tryDeliver. solve_acts. Qed.
Lemma acts_signalEnd p f : all_acts evolves (signalEnd p f).
Proof. unfold signalEnd. solve_acts. Qed.
#[local] Hint Resolve acts_SendHeader acts_SetTrailer acts_SendRaw acts_creditSend
  acts_RecvRawContext acts_CloseSend acts_end acts_tryDeliver acts_signalEnd : acts.

(** ** The mux *)

Lemma acts_writeCtrl f : all_acts evolves (writeCtrl f).
Proof.
  intros w w' b Hin. inv_elem. apply quiet_evolves; simpl; repeat case_match; simpl; try done.
  autorewrite with wsrpc. lia.
Qed.
Lemma acts_mux_locked_ {B} (f : W → W * B) :
  (∀ w, evolves w (f w).1) → all_acts evolves (mux_locked f).
Proof.
  intros Hf w w' b. case_match; [intros; by inv_elem|].
  rewrite list_elem_of_singleton. intros Hin. specialize (Hf w). by rewrite <-Hin in Hf.
Qed.
Lemma acts_lookup_stream id : all_acts evolves (lookup_stream id).
Proof. apply acts_mux_locked_. reflexivity. Qed.
Lemma acts_remove id : all_acts evolves (remove id).
Proof.
  apply acts_mux_locked_. intros w. apply quiet_evolves; simpl; try done. apply delete_subseteq.
Qed.
#[local] Hint Resolve acts_writeCtrl acts_lookup_stream acts_remove : acts.

Lemma acts_ctrlWriter : all_acts evolves ctrlWriter.
Proof.
  unfold ctrlWriter. solve_acts. intros w w' b. simpl. case_match eqn:E.
  - rewrite app_nil_r, elem_of_branch. intros []. by simplify_eq.
  - rewrite elem_of_app, elem_of_branch, list_elem_of_singleton.
    intros [[? ?]|?]; simplify_eq; [reflexivity|].
    apply quiet_evolves; simpl; try done. rewrite E. autorewrite with wsrpc. lia.
Qed.

Lemma acts_keepalive_loop d : all_acts evolves (keepalive_loop d).
Proof.
  unfold keepalive_loop. solve_acts.
  - intros w w' b. simpl. rewrite elem_of_app, elem_of_branch, list_elem_of_singleton.
    intros [[? ?]|?]; by simplify_eq.
  - intros w w' b Hin. inv_elem. apply quiet_evolves; simpl; try done. apply WithTimeout_le.
  - intros w w' b ([cn r] & ? & Hin)%list_elem_of_fmap. simplify_eq. by apply quiet_evolves.
Qed.

Lemma acts_for_each {X} (l : list X) f :
  (∀ x, all_acts evolves (f x)) → all_acts evolves (for_each l f).
Proof. intros Hf. induction l as [|x l IH]; simpl; [done|]. by split. Qed.

Lemma acts_failAll err : all_acts evolves (failAll err).
Proof.
  unfold failAll. split; [|intros l; split; [apply acts_for_each; intros [id p]; split|intros _]].
  - intros w w' b Hin. case_match; [by inv_elem|]. apply list_elem_of_fmap in Hin as (l & ? & _).
    simplify_eq. by apply quiet_evolves.
  - auto with acts.
  - intros _ w w' b Hin. inv_elem. apply quiet_evolves; simpl; try done. apply delete_subseteq.
  - intros w w' b Hin. inv_elem. by apply quiet_evolves.
Qed.

Lemma acts_Close : all_acts evolves Close.
Proof.
  unfold Close. solve_acts.
  - intros w w' b Hin. inv_elem. by apply quiet_evolves.
  - intros w w' b ([cn r] & ? & Hin)%list_elem_of_fmap. simplify_eq. by apply quiet_evolves.
Qed.

Lemma acts_route_msg p f : all_acts evolves (route_msg p f).
Proof. unfold route_msg. solve_acts. Qed.

Lemma acts_read_frame : all_acts evolves read_frame.
Proof.
  intros w w' b ([cn r] & ? & Hin)%list_elem_of_fmap. simplify_eq. by apply quiet_evolves.
Qed.

Lemma acts_alloc_id : all_acts evolves alloc_id.
Proof. intros w w' b Hin. inv_elem. by apply quiet_evolves. Qed.

(** ** Registering a stream

    The registry holds addresses of streams with their own id; the address is
    allocated before it is registered, so registering needs a triple. *)

Abbreviation spec P p Q := (triple evolves evolves evolves evolves P p Q).

Lemma stable_wf (P : W → Prop) :
  (∀ w w', world_wf w → world_wf w' → world_le w w' → P w → P w') →
  stable evolves (λ w, world_wf w ∧ P w).
Proof. intros HP w w' Hev [Hwf Hw]. destruct (Hev Hwf). split; [done|]. by apply (HP w w'). Qed.

Lemma stable_world_wf : stable evolves world_wf.
Proof. intros w w' Hev Hwf. by apply Hev. Qed.

Definition allocated p (id : Z) w : Prop := ∃ s, heap w !! p = Some s ∧ sid s = id.

Lemma stable_allocated p id : stable evolves (λ w, world_wf w ∧ allocated p id w).
Proof.
  apply stable_wf. intros w w' _ _ Hle (s & Hs & <-).
  destruct (wle_heap _ _ Hle _ _ Hs) as (s' & Hs' & []). by exists s'.
Qed.

Lemma spec_acts {A} (p : Prog W A) : all_acts evolves p → spec world_wf p (λ _, world_wf).
Proof.
  intros Hp. apply (all_acts_inv _ _ _ _ evolves); [done|done|apply stable_world_wf..|done].
Qed.

Lemma spec_bind {A B} P (p : Prog W A) (f : A → Prog W B) M Q :
  spec P p M → (∀ a, spec (M a) (f a) Q) → spec P (Bind p f) Q.
Proof. apply triple_bind. apply _. Qed.

Lemma spec_seq {A B} (p : Prog W A) (f : A → Prog W B) Q :
  all_acts evolves p → (∀ a, spec world_wf (f a) Q) → spec world_wf (Bind p f) Q.
Proof. intros Hp. apply spec_bind, spec_acts, Hp. Qed.

Lemma alloc_evolves c id m iw (init : Stream → Stream) w :
  (∀ s, stream_wf s → stream_wf (init s)) →
  evolves w (alloc c id m iw init w).1.
Proof.
  intros Hinit [Hh Hr ???]. unfold alloc, newStream. cbn -[WithCancel].
  destruct (WithCancel c (ctxs w)) as [σ c'] eqn:E. simpl.
  assert (ctx_le (ctxs w) σ) as Hσ by (by pose proof (WithCancel_le c (ctxs w)) as H'; rewrite E in H').
  split; [split|split]; simpl; try done.
  - apply Forall_app; split; [done|]. constructor; [|done]. apply Hinit.
    pose proof (newStream_wf c id m iw (ctxs w)) as Hn. unfold newStream in Hn. by rewrite E in Hn.
  - intros i q Hq. destruct (Hr i q Hq) as (s & Hs & ?). exists s. split; [|done].
    by apply lookup_app_l_Some.
  - intros q s Hs. exists s. split; [|done]. by apply lookup_app_l_Some.
Qed.

Lemma alloc_allocated c id m iw (init : Stream → Stream) w :
  (∀ s, sid (init s) = sid s) → allocated (alloc c id m iw init w).2 id (alloc c id m iw init w).1.
Proof.
  intros Hinit. unfold alloc, newStream, allocated. cbn -[WithCancel].
  destruct (WithCancel c (ctxs w)) as [σ c'] eqn:E. simpl.
  rewrite lookup_app_r, Nat.sub_diag by lia. eexists. split; [done|]. by rewrite Hinit.
Qed.

Lemma spec_register id p :
  spec (λ w, world_wf w ∧ allocated p id w) (register id p) (λ _, world_wf).
Proof.
  apply triple_act; [apply stable_allocated|intros; apply stable_world_wf|].
  intros w w' b [Hwf (s & Hs & Hid)]. destruct (mmu (mux w)); [intros; by inv_elem|].
  intros [= -> ->]%list_elem_of_singleton.
  enough (world_wf (set_mux (λ m, m <| streams ::= <[id:=p]> |>) w) ∧
    world_le w (set_mux (λ m, m <| streams ::= <[id:=p]> |>) w)) as [] by (split; [intros _; by split|done]).
  destruct Hwf as [? Hr ???]. split; [split|split]; simpl; try done.
  - apply map_Forall_insert_2; [by exists s|done].
  - intros q t ?. by exists t.
Qed.

Lemma evolves_trans w1 w2 w3 : evolves w1 w2 → evolves w2 w3 → evolves w1 w3.
Proof.
  intros H12 H23 Hwf. destruct (H12 Hwf) as [Hwf2 ?]. destruct (H23 Hwf2). split; [done|by etrans].
Qed.

Lemma open_ctx_le c h σ : ctx_le σ (open_ctx c h σ).1.1.
Proof.
  unfold open_ctx. repeat case_match; simpl; try done.
  match goal with H : WithTimeout ?c ?d ?σ = _ |- _ =>
    pose proof (WithTimeout_le c d σ) as Hle; by rewrite H in Hle end.
Qed.

Lemma open_stream_evolves f w :
  evolves w (open_stream f w).1 ∧
  allocated (open_stream f w).2 (StreamId f) (open_stream f w).1.
Proof.
  unfold open_stream. pose proof (open_ctx_le (mctx (mux w)) (Headers f) (ctxs w)) as Hle.
  destruct (open_ctx _ _ _) as [[σ c] dc]. simpl in Hle. split.
  - eapply evolves_trans; [|apply alloc_evolves].
    + by apply quiet_evolves.
    + intros s []. by split.
  - by apply alloc_allocated.
Qed.

Lemma spec_open_stream f :
  spec world_wf (update (open_stream f)) (λ p w, world_wf w ∧ allocated p (StreamId f) w).
Proof.
  apply triple_act; [apply stable_world_wf|intros; apply stable_allocated|].
  intros w w' b Hwf Hin%list_elem_of_singleton.
  destruct (open_stream_evolves f w) as [Hev Hal]. rewrite <-Hin in Hev, Hal.
  split; [done|]. split; [by apply Hev|done].
Qed.

Lemma spec_newClientStream c dl m h :
  spec world_wf (newClientStream c dl m h) (λ _, world_wf).
Proof.
  unfold newClientStream.
  apply spec_seq; [apply acts_alloc_id|]. intros id; simpl.
  apply spec_seq; [apply acts_read|]. intros iw; simpl.
  eapply (spec_bind _ _ _ (λ p w, world_wf w ∧ allocated p id w)).
  { apply triple_act; [apply stable_world_wf|intros; apply stable_allocated|].
    intros w w' b Hwf Hin%list_elem_of_singleton.
    assert (evolves w (alloc c id m iw (λ s, s) w).1) as Hev by (by apply alloc_evolves).
    pose proof (alloc_allocated c id m iw (λ s, s) w (λ _, eq_refl)) as Hal.
    rewrite <-Hin in Hev, Hal. split; [done|]. split; [by apply Hev|done]. }
  intros p. eapply spec_bind; [apply spec_register|]. intros []; simpl.
  apply spec_acts. solve_acts.
Qed.

Lemma spec_route_open h f :
  (∀ p, spec world_wf (h p) (λ _, world_wf)) → spec world_wf (route_open h f) (λ _, world_wf).
Proof.
  intros Hh. unfold route_open.
  apply spec_seq; [apply acts_lookup_stream|]. intros [p|]; simpl.
  { apply spec_acts. solve_acts. }
  apply spec_seq; [apply acts_mux_locked_; reflexivity|]. intros [|]; simpl.
  { apply spec_acts. solve_acts. }
  eapply spec_bind; [apply spec_open_stream|]. intros p; simpl.
  eapply spec_bind; [apply spec_register|]. intros []. apply Hh.
Qed.

Lemma spec_route onOpen f :
  (∀ h p, onOpen = Some h → spec world_wf (h p) (λ _, world_wf)) →
  spec world_wf (route onOpen f) (λ _, world_wf).
Proof.
  intros Hh. pose proof acts_route_msg. unfold route, setLeadingHeader.
  destruct (FKind f), onOpen;
    try (by apply spec_route_open; eauto); apply spec_acts; solve_acts.
Qed.

(** ** Programs of the runtime *)

(** Any goroutine made of calls to the runtime, with any control flow between the
    calls.  What only the runtime itself runs (the read loop, the control writer,
    keepalive, writes of arbitrary frames) is for the library, opening a stream is
    not for a handler; the payloads that are sent satisfy [P]. *)
Inductive Role := InRuntime | InCaller | InHandler.

Inductive calls (r : Role) (P : bytes → Prop) : ∀ {A}, Prog W A → Prop :=
| rt_Ret {A} (a : A) : calls r P (Ret a)
| rt_Bind {A B} (p : Prog W A) (f : A → Prog W B) :
    calls r P p → (∀ a, calls r P (f a)) → calls r P (Bind p f)
| rt_Iter {S B} (body : S → Prog W (S + B)) s :
    (∀ s, calls r P (body s)) → calls r P (Iter body s)
| rt_Go t : calls r P t → calls r P (Go t)
| rt_Header p : calls r P (Header p)
| rt_Trailer p : calls r P (Trailer p)
| rt_SendHeader p md : calls r P (SendHeader p md)
| rt_SetTrailer p md : calls r P (SetTrailer p md)
| rt_takeTrailer p : calls r P (takeTrailer p)
| rt_SendRaw p b : P b → calls r P (SendRaw p b)
| rt_RecvRawContext c p : calls r P (RecvRawContext c p)
| rt_CloseSend p : calls r P (CloseSend p)
| rt_failWith p err : calls r P (failWith p err)
| rt_end p st tr : calls r P (end_ p st tr)
| rt_get_stream p : calls r P (get_stream p)
| rt_read {B} (f : W → B) : calls r P (read f)
| rt_ctx_cancel c : calls r P (ctx_cancel c)
| rt_stat ev : calls r P (stat ev)
| rt_newClientStream c dl m h : r ≠ InHandler → calls r P (newClientStream c dl m h)
| rt_remove id : calls r P (remove id)
| rt_Close : calls r P Close
| rt_on_sink {B} a (f : mdSink → mdSink * B) : calls r P (on_sink a f)
| rt_new_sink o : calls r P (new_sink o)
| rt_on_gstream {B} a (f : ServerStreamState → ServerStreamState * B) : calls r P (on_gstream a f)
| rt_new_gstream o : calls r P (new_gstream o)
| rt_on_shim {B} a (f : ShimState → ShimState * B) : calls r P (on_shim a f)
| rt_new_shim o : calls r P (new_shim o)
| rt_mux_write c f : r = InRuntime → calls r P (mux_write c f)
| rt_ctrlWriter : r = InRuntime → calls r P ctrlWriter
| rt_keepalive d : r = InRuntime → calls r P (keepalive_loop d)
| rt_route onOpen f :
    r = InRuntime → (∀ h p, onOpen = Some h → calls r P (h p)) → calls r P (route onOpen f)
| rt_failAll err : r = InRuntime → calls r P (failAll err)
| rt_read_frame : r = InRuntime → calls r P read_frame.

(** What any goroutine of an endpoint may run. *)
Definition any_payload (b : bytes) : Prop := True.
Abbreviation runtime := (calls InRuntime any_payload).

Create HintDb calls discriminated.
#[export] Hint Constants Opaque : calls.
#[local] Hint Constructors calls : calls.

(** Handlers may do less than callers, and these less than the library. *)
Definition role_le (r r' : Role) : Prop := r = InHandler ∨ r' = InRuntime ∨ r = r'.

Lemma calls_mono {A} r r' (P P' : bytes → Prop) (p : Prog W A) :
  role_le r r' → (∀ b, P b → P' b) → calls r P p → calls r' P' p.
Proof.
  intros Hr HP. assert (r = InRuntime → r' = InRuntime) by (destruct Hr as [->|[->| ->]]; done).
  assert (r ≠ InHandler → r' ≠ InHandler) by (destruct Hr as [->|[->| ->]]; done).
  induction 1; auto with calls.
Qed.

Lemma rt_SendRaw_any r p b : calls r any_payload (SendRaw p b).
Proof. by apply rt_SendRaw. Qed.

Lemma runtime_readLoop onOpen :
  (∀ h p, onOpen = Some h → runtime (h p)) → runtime (readLoop onOpen).
Proof.
  intros Hh. apply rt_Bind; [apply rt_Iter; intros _|intros _].
  - apply rt_Bind; [by apply rt_read_frame|]. intros [e|f].
    + apply rt_Bind; [apply rt_read|]. intros err. apply rt_Bind; [by apply rt_failAll|]. constructor.
    + apply rt_Bind; [by apply rt_route|]. constructor.
  - apply rt_Bind; [apply rt_read|]. intros. apply rt_ctx_cancel.
Qed.

Lemma spec_runtime {A} (p : Prog W A) : runtime p → spec world_wf p (λ _, world_wf).
Proof.
  induction 1 as [| |S B body s _ IH|t _ IH| | | | | | | | | | | | | | |c dl m h| | | | | | | |
    | | | |onOpen f _ _ IH| |];
    try (apply spec_acts; unfold Header, Trailer, takeTrailer; solve_acts;
         auto using acts_ctrlWriter, acts_keepalive_loop, acts_failAll, acts_read_frame, acts_Close,
           acts_on_sink, acts_new_sink, acts_on_gstream, acts_new_gstream, acts_on_shim, acts_new_shim;
         fail).
  - by eapply spec_bind.
  - apply (triple_iter _ _ _ _ (λ _, world_wf)); [intros; apply stable_world_wf..|].
    intros s'. intros n w Hw. eapply safe_mono; [|by apply IH]. by intros [].
  - apply triple_go; [apply _|apply stable_world_wf|]. intros w Hw n.
    eapply safe_mono; [|by apply IH]. done.
  - apply spec_newClientStream.
  - by apply spec_route.
Qed.

Lemma newMuxConfig_wf c cn rb iw max st σ : world_wf (newMuxConfig c cn rb iw max st σ).
Proof.
  unfold newMuxConfig. cbn -[WithCancel]. destruct (WithCancel c σ) as [σ' c'] eqn:E.
  split; simpl; try done.
  - destruct (Z.leb_spec iw 0); [done|lia].
  - unfold WithCancel in E. by simplify_eq.
Qed.

Lemma runtime_pool_safe w (p : Prog W unit) ts :
  world_wf w → Forall runtime (p :: ts) →
  pool_safe evolves evolves evolves evolves (λ _ _, True) (mkConfig w (p :: ts)).
Proof.
  intros Hw [Hp Hts]%Forall_cons. exists p, ts. split_and!; [done| |].
  - intros n. eapply safe_mono; [|by apply spec_runtime]. done.
  - eapply Forall_impl; [exact Hts|]. intros t Ht n.
    eapply safe_mono; [|by apply spec_runtime]. done.
Qed.

(** C1: from a fresh mux, with its read loop, its control writer and any number of
    goroutines that call the runtime, whatever the interleaving and whatever the
    wire and the timers do: the state is well-formed in every reachable
    configuration (the registry maps an id to a stream of that id, every
    stream's byte count is the sum of its backlog, the control queue is within
    its capacity), and from one reachable configuration to a later one it only
    moves forwards. *)
Theorem endpoint_invariant c cn rb iw max st σ onOpen ts c1 c2 :
  (∀ h p, onOpen = Some h → runtime (h p)) → Forall runtime ts →
  rtc (sys_step outside)
    (mkConfig (newMuxConfig c cn rb iw max st σ) (mux_goroutines onOpen ++ ts)) c1 →
  rtc (sys_step outside) c1 c2 →
  world_wf (world c1) ∧ world_wf (world c2) ∧ world_le (world c1) (world c2).
Proof.
  intros Hh Hts H01 H12.
  assert (pool_safe evolves evolves evolves evolves (λ _ _, True)
    (mkConfig (newMuxConfig c cn rb iw max st σ) (mux_goroutines onOpen ++ ts))) as Hp0.
  { apply runtime_pool_safe; [apply newMuxConfig_wf|].
    by constructor; [apply runtime_readLoop|constructor; [by apply rt_ctrlWriter|]]. }
  assert (∀ c c', rtc (sys_step outside) c c' → pool_safe evolves evolves evolves evolves (λ _ _, True) c →
    world_wf (world c) → pool_safe evolves evolves evolves evolves (λ _ _, True) c' ∧
    world_wf (world c') ∧ world_le (world c) (world c')) as Hsteps.
  { induction 1 as [|d d1 d' Hd _ IH]; intros Hp Hw; [done|].
    destruct (pool_safe_step evolves evolves evolves evolves outside (λ _ _, True) d d1) as [Hev Hp1];
      auto using outside_evolves.
    destruct (Hev Hw) as [Hw1 Hle]. destruct (IH Hp1 Hw1) as (? & ? & ?).
    split_and!; [done..|by etrans]. }
  destruct (Hsteps _ _ H01 Hp0) as (Hp1 & Hw1 & _); [apply newMuxConfig_wf|].
  by destruct (Hsteps _ _ H12 Hp1 Hw1) as (_ & ? & ?).
Qed.

End endpoint.

Abbreviation runtime := (calls InRuntime any_payload).
