(* ===== verification/Admission.v ===== *)
(** * Admission of server streams

    [MaxConcurrentStreams]: the check of [route] and the registration that
    follows it are two critical sections, and handlers remove their streams
    concurrently.  Because only the read loop registers streams on a server, the
    registry never exceeds the cap in any interleaving. *)

From S2P Require Import Prelude Goroutine Status Context Conn Strconv Stream World StreamOps MuxOps.

Section admission.
Context {C : Type} `{!FrameConn C} `{!GrpcLib}.
Abbreviation W := (World C).
Implicit Types (w : W) (p : nat).

(** What every goroutine but the read loop does to the registry. *)
Definition shrinks : relation W := λ w w',
  maxStreams (mux w') = maxStreams (mux w) ∧ streams (mux w') ⊆ streams (mux w).

#[export] Instance shrinks_preorder : PreOrder shrinks.
Proof.
  split; [by split|]. intros w1 w2 w3 [] []. split; [congruence|by etrans].
Qed.

Definition under_cap w : Prop :=
  0 < maxStreams (mux w) → Z.of_nat (size (streams (mux w))) ≤ maxStreams (mux w).

Definition below_cap w : Prop :=
  0 < maxStreams (mux w) → Z.of_nat (size (streams (mux w))) < maxStreams (mux w).

Lemma shrinks_size w w' :
  shrinks w w' → (size (streams (mux w')) ≤ size (streams (mux w)))%nat.
Proof. intros [_ Hsub]. by apply map_subseteq_size. Qed.

Lemma shrinks_under_cap w w' : shrinks w w' → under_cap w → under_cap w'.
Proof.
  unfold under_cap. intros Hs Hw. pose proof (shrinks_size _ _ Hs). destruct Hs as [-> _]. lia.
Qed.

Lemma shrinks_below_cap w w' : shrinks w w' → below_cap w → below_cap w'.
Proof.
  unfold below_cap. intros Hs Hw. pose proof (shrinks_size _ _ Hs). destruct Hs as [-> _]. lia.
Qed.

(** An action that does not touch the registry. *)
Lemma same_registry w w' :
  maxStreams (mux w') = maxStreams (mux w) → streams (mux w') = streams (mux w) → shrinks w w'.
Proof. intros H1 H2. split; [done|by rewrite H2]. Qed.

Lemma shr_locked_ctx {B} p (f : CtxStore → Stream → Stream * B) : all_acts shrinks (locked_ctx p f).
Proof.
  intros w w' b. simpl. repeat case_match; intros; inv_elem; by apply same_registry.
Qed.
Lemma shr_on_stream {B} p (f : Stream → Stream * B) : all_acts shrinks (on_stream p f).
Proof. intros w w' b. simpl. repeat case_match; intros; inv_elem; by apply same_registry. Qed.
Lemma shr_once {B} p (f : Stream → Stream * B) : all_acts shrinks (once p f).
Proof. intros w w' b. simpl. repeat case_match; intros; inv_elem; by apply same_registry. Qed.
Lemma shr_read {B} (f : W → B) : all_acts shrinks (read f).
Proof. intros w w' b Hin. simpl in Hin. by inv_elem. Qed.
Lemma shr_ctx_cancel c : all_acts shrinks (ctx_cancel c).
Proof. intros w w' b Hin. inv_elem. by apply same_registry. Qed.
Lemma shr_stat ev : all_acts shrinks (stat ev).
Proof. intros w w' b Hin. inv_elem. by apply same_registry. Qed.
Lemma shr_mux_write c f : all_acts shrinks (mux_write c f).
Proof.
  split; [|intros _; split; [|intros r; split; [|done]]].
  - intros w w' b Hin. case_match; inv_elem. by apply same_registry.
  - intros w w' b ([cn r] & ? & Hin)%list_elem_of_fmap. inv_elem. by apply same_registry.
  - intros w w' b Hin. inv_elem. by apply same_registry.
Qed.
Lemma shr_writeCtrl f : all_acts shrinks (writeCtrl f).
Proof. intros w w' b Hin. inv_elem. by apply same_registry; simpl; case_match. Qed.
Lemma shr_lookup_stream id : all_acts shrinks (lookup_stream id).
Proof. intros w w' b Hin. case_match; by inv_elem. Qed.
Lemma shr_remove id : all_acts shrinks (remove id).
Proof.
  intros w w' b Hin. case_match; inv_elem. split; simpl; [done|apply delete_subseteq].
Qed.

Lemma shr_on_sink {B} a (f : mdSink → mdSink * B) : all_acts shrinks (on_sink a f).
Proof. intros w w' b. simpl. repeat case_match; intros; inv_elem; by apply same_registry. Qed.
Lemma shr_new_sink o : all_acts shrinks (new_sink o).
Proof. intros w w' b Hin. simpl in Hin. inv_elem. by apply same_registry. Qed.
Lemma shr_on_gstream {B} a (f : ServerStreamState → ServerStreamState * B) :
  all_acts shrinks (on_gstream a f).
Proof. intros w w' b. simpl. repeat case_match; intros; inv_elem; by apply same_registry. Qed.
Lemma shr_new_gstream o : all_acts shrinks (new_gstream o).
Proof. intros w w' b Hin. simpl in Hin. inv_elem. by apply same_registry. Qed.
Lemma shr_on_shim {B} a (f : ShimState → ShimState * B) : all_acts shrinks (on_shim a f).
Proof. intros w w' b. simpl. repeat case_match; intros; inv_elem; by apply same_registry. Qed.
Lemma shr_new_shim o : all_acts shrinks (new_shim o).
Proof. intros w w' b Hin. simpl in Hin. inv_elem. by apply same_registry. Qed.

Create HintDb shrinks.
#[local] Hint Resolve shr_locked_ctx shr_on_stream shr_once shr_read shr_ctx_cancel shr_stat
  shr_mux_write shr_writeCtrl shr_lookup_stream shr_remove : shrinks.

Ltac solve_shrinks :=
  repeat lazymatch goal with
  | |- all_acts _ (Ret _) => exact I
  | |- all_acts _ (Bind _ _) => split
  | |- all_acts _ (Iter _ _) => intros ?
  | |- all_acts _ (match ?x with _ => _ end) => destruct x
  | |- ∀ _, all_acts _ _ => intros ?
  | |- all_acts _ (locked _ _) => apply shr_locked_ctx
  | |- all_acts _ (locked_ _ _) => apply shr_locked_ctx
  | |- all_acts _ (on_stream_ _ _) => apply shr_on_stream
  | |- all_acts _ (get_stream _) => apply shr_on_stream
  | |- all_acts _ _ => solve [auto with shrinks]
  end.

(** ** The calls of a handler *)

Lemma shr_Header p : all_acts shrinks (Header p).
Proof. unfold Header. solve_shrinks. Qed.
Lemma shr_SendHeader p md : all_acts shrinks (SendHeader p md).
Proof. unfold SendHeader. solve_shrinks. Qed.
Lemma shr_SetTrailer p md : all_acts shrinks (SetTrailer p md).
Proof. unfold SetTrailer. solve_shrinks. Qed.
Lemma shr_takeTrailer p : all_acts shrinks (takeTrailer p).
Proof. unfold takeTrailer. solve_shrinks. Qed.
Lemma shr_SendRaw p b : all_acts shrinks (SendRaw p b).
Proof.
  unfold SendRaw, send_wait, send_head, cond_wait. solve_shrinks.
  intros w w' b'. repeat case_match; intros; by inv_elem.
Qed.
Lemma shr_deliverPayload p f : all_acts shrinks (deliverPayload p f).
Proof. unfold deliverPayload, returnCredit. solve_shrinks. Qed.
#[local] Hint Resolve shr_deliverPayload : shrinks.
Lemma shr_recvEnded p : all_acts shrinks (recvEnded p).
Proof. unfold recvEnded, applyEnd, status. solve_shrinks. Qed.
Lemma shr_recv_select c p : all_acts shrinks (recv_select c p).
Proof.
  intros w w' b. case_match; [|intros; by inv_elem].
  intros ([] & ? & _)%list_elem_of_fmap; simplify_eq; by apply same_registry.
Qed.
#[local] Hint Resolve shr_recvEnded shr_recv_select : shrinks.
Lemma shr_RecvRawContext c p : all_acts shrinks (RecvRawContext c p).
Proof. unfold RecvRawContext, recv_case, pop_or, ctx_err_of. solve_shrinks. Qed.
Lemma shr_CloseSend p : all_acts shrinks (CloseSend p).
Proof. unfold CloseSend. solve_shrinks. Qed.
Lemma shr_failWith p err : all_acts shrinks (failWith p err).
Proof. unfold failWith. solve_shrinks. Qed.
#[local] Hint Resolve shr_failWith : shrinks.
Lemma shr_end p st tr : all_acts shrinks (end_ p st tr).
Proof. unfold end_. solve_shrinks. Qed.
Lemma shr_ctrlWriter : all_acts shrinks ctrlWriter.
Proof.
  unfold ctrlWriter. solve_shrinks. intros w w' b. simpl. rewrite elem_of_app, elem_of_branch.
  intros [[_ ?]|Hin]; [by simplify_eq|]. case_match; inv_elem. by apply same_registry.
Qed.
Lemma shr_keepalive_loop d : all_acts shrinks (keepalive_loop d).
Proof.
  unfold keepalive_loop. solve_shrinks.
  - intros w w' b. simpl. rewrite elem_of_app, elem_of_branch, list_elem_of_singleton.
    intros [[? ?]|?]; by simplify_eq.
  - intros w w' b Hin. inv_elem. by apply same_registry.
  - intros w w' b ([cn r] & ? & Hin)%list_elem_of_fmap. simplify_eq. by apply same_registry.
Qed.
Lemma shr_Close : all_acts shrinks Close.
Proof.
  unfold Close. solve_shrinks.
  - intros w w' b Hin. inv_elem. by apply same_registry.
  - intros w w' b ([cn r] & ? & Hin)%list_elem_of_fmap. simplify_eq. by apply same_registry.
Qed.

Lemma shr_for_each {X} (l : list X) f :
  (∀ x, all_acts shrinks (f x)) → all_acts shrinks (for_each l f).
Proof. intros Hf. induction l as [|x l IH]; simpl; [done|]. by split. Qed.

Lemma shr_failAll err : all_acts shrinks (failAll err).
Proof.
  unfold failAll. split; [|intros l; split; [apply shr_for_each; intros [id p]; split|intros _]].
  - intros w w' b Hin. case_match; [by inv_elem|]. apply list_elem_of_fmap in Hin as (l & ? & _).
    simplify_eq. by apply same_registry.
  - auto with shrinks.
  - intros _ w w' b Hin. inv_elem. split; simpl; [done|apply delete_subseteq].
  - intros w w' b Hin. inv_elem. by apply same_registry.
Qed.

Lemma shr_read_frame : all_acts shrinks read_frame.
Proof.
  intros w w' b ([cn r] & ? & Hin)%list_elem_of_fmap. simplify_eq. by apply same_registry.
Qed.

Lemma shr_route_msg p f : all_acts shrinks (route_msg p f).
Proof. unfold route_msg, tryDeliver. solve_shrinks. Qed.

(** ** The read loop *)

(** What the read loop does to the registry. *)
Definition capped : relation W := λ w w',
  maxStreams (mux w') = maxStreams (mux w) ∧ (under_cap w → under_cap w').

#[export] Instance capped_refl : Reflexive capped.
Proof. by split. Qed.

Lemma shrinks_capped w w' : shrinks w w' → capped w w'.
Proof. intros Hs. split; [apply Hs|by apply shrinks_under_cap]. Qed.

(** The read loop tolerates goroutines that shrink the registry. *)
Abbreviation spec P p Q := (triple capped shrinks shrinks capped P p Q).
Abbreviation any := (λ _ : W, True).

Lemma cap_shrinks {A} P (p : Prog W A) : all_acts shrinks p → spec P p (λ _, any).
Proof. intros Hp. by apply (all_acts_triple _ _ _ _ shrinks); auto using shrinks_capped. Qed.

Lemma cap_bind {A B} P (p : Prog W A) (f : A → Prog W B) M Q :
  spec P p M → (∀ a, spec (M a) (f a) Q) → spec P (Bind p f) Q.
Proof. apply triple_bind. apply _. Qed.

Lemma stable_below : stable shrinks below_cap.
Proof. intros w w'. apply shrinks_below_cap. Qed.

Lemma cap_check :
  spec any (mux_locked (λ w,
        (w, (0 <? maxStreams (mux w)) &&
            (maxStreams (mux w) <=? Z.of_nat (size (streams (mux w)))))))
    (λ over w, over = false → below_cap w).
Proof.
  apply triple_act; [done|intros b w w' Hs Hb Hf; by eapply shrinks_below_cap, Hb|].
  intros w w' b _ Hin. case_match; inv_elem. split; [reflexivity|].
  unfold below_cap. intros [?|?]%andb_false_iff; lia.
Qed.

Lemma cap_open_below f : spec below_cap (update (open_stream f)) (λ _, below_cap).
Proof.
  apply triple_act; [apply stable_below|intros _; apply stable_below|].
  intros w w' p Hb Hin%list_elem_of_singleton.
  assert (shrinks w w') as Hs.
  { unfold open_stream, alloc, newStream in Hin. destruct (open_ctx _ _ _) as [[σ c] dc].
    cbn -[WithCancel] in Hin. destruct (WithCancel c σ) as [σ' c'].
    apply (f_equal fst) in Hin. simpl in Hin. subst w'. by apply same_registry. }
  split; [by apply shrinks_capped|by eapply shrinks_below_cap].
Qed.

Lemma cap_register id p : spec below_cap (register id p) (λ _, any).
Proof.
  apply triple_act; [apply stable_below|done|].
  intros w w' b Hb Hin. case_match; inv_elem. split; [|done]. split; [done|].
  unfold under_cap, below_cap in *. simpl. intros _ Hm. specialize (Hb Hm).
  pose proof (map_size_insert id p (streams (mux w))) as Hsz. rewrite Hsz. case_match; simpl; lia.
Qed.

Lemma cap_route onOpen f :
  (∀ h p, onOpen = Some h → all_acts shrinks (h p)) → spec any (route onOpen f) (λ _, any).
Proof.
  intros Hh. pose proof shr_route_msg. unfold route, creditSend, signalEnd, setLeadingHeader.
  destruct (FKind f), onOpen as [h|];
    try (apply cap_shrinks; solve_shrinks; done).
  unfold route_open. eapply cap_bind; [apply cap_shrinks, shr_lookup_stream|].
  intros [p|]; [apply cap_shrinks; solve_shrinks|].
  eapply cap_bind; [apply cap_check|]. intros [|].
  { apply cap_shrinks. solve_shrinks. }
  eapply triple_conseq; [intros w Hw; by apply Hw|].
  eapply cap_bind; [apply cap_open_below|]. intros p.
  eapply cap_bind; [apply cap_register|]. intros []. by apply cap_shrinks, Hh.
Qed.

Lemma cap_readLoop onOpen :
  (∀ h p, onOpen = Some h → all_acts shrinks (h p)) → spec any (readLoop onOpen) (λ _, any).
Proof.
  intros Hh. eapply (cap_bind _ _ _ (λ _, any)); [|intros []; apply cap_shrinks; solve_shrinks].
  apply (triple_iter _ _ _ _ (λ _, any)); [by intros s w w'|by intros b w w'|]. intros s.
  eapply cap_bind; [apply cap_shrinks, shr_read_frame|]. intros [e|f].
  - intros n w _. apply safe_mono with (Q := λ _, any); [by intros []|].
    apply (cap_shrinks any); [|done].
    pose proof shr_failAll. unfold disconnectErr. solve_shrinks.
  - eapply cap_bind; [by apply cap_route|]. intros []. by apply triple_ret.
Qed.

(** The wire, the timers and the contexts are not the registry's. *)
Definition elsewhere : relation W := λ w w', ∃ σ cn, w' = w <| ctxs := σ |> <| conn := cn |>.

(** In every interleaving of the read loop with goroutines that never register a
    stream, the registry is within the cap. *)
Lemma cap_invariant w0 h ts c' :
  0 < maxStreams (mux w0) → streams (mux w0) = ∅ →
  (∀ p, all_acts shrinks (h p)) → Forall (all_acts shrinks) ts →
  rtc (sys_step elsewhere) (mkConfig w0 (mux_goroutines (Some h) ++ ts)) c' →
  Z.of_nat (size (streams (mux (world c')))) ≤ maxStreams (mux w0).
Proof.
  intros Hmax Hempty Hh Hts Hrtc.
  set (Inv w := maxStreams (mux w) = maxStreams (mux w0) ∧ under_cap w).
  assert (∀ t, all_acts shrinks t → ∀ w, safe_goroutine capped shrinks capped shrinks t w) as Hsafe.
  { intros t Ht w n. by apply (all_acts_safe _ _ _ _ shrinks). }
  assert (∀ w w' : W, shrinks w w' → shrinks w w' ∧ capped w w') as Hsc
    by auto using shrinks_capped.
  edestruct (pool_safe_reachable capped shrinks shrinks capped elsewhere (λ _ _, True) Inv) as [[Heq Hu] _];
    [exact Hsc|done| | | | |exact Hrtc|].
  - intros w w' (σ' & cn' & ->). apply Hsc. by apply same_registry.
  - intros w w' [Hm Hu] [HI ?]. split; [congruence|auto].
  - exists (readLoop (Some h)), (ctrlWriter :: ts). split_and!; [done| |].
    + intros n. apply cap_readLoop; [|done]. intros ? p [= <-]. apply Hh.
    + constructor; [by apply Hsafe, shr_ctrlWriter|].
      eapply Forall_impl; [exact Hts|]. eauto.
  - unfold Inv, under_cap. simpl. rewrite Hempty, map_size_empty. split; lia.
  - rewrite <-Heq. apply Hu. lia.
Qed.

End admission.
