(* ===== verification/Alone.v ===== *)
(** * Running one method at a time

    Rules for [total] on the actions of an endpoint: what a method returns and
    what it does to the state when it runs without interference, from a state in
    which no mutex is held. *)

From S2P Require Import Prelude Goroutine Status Context Conn Strconv Stream World StreamOps MuxOps.

(** Nobody is inside a critical section of the stream. *)
Definition idle (s : Stream) : Prop := mu s = false ∧ endBusy s = false.

Section alone.
Context {C : Type} `{!FrameConn C} `{!GrpcLib}.
Abbreviation W := (World C).
Implicit Types (w : W) (p : nat).

(** No mutex of the endpoint is held, except possibly [writeMu]. *)
Record unlocked w : Prop := mk_unlocked {
  ul_mux : mmu (mux w) = false;
  ul_heap : Forall idle (heap w)
}.

(** Addresses in the registry are allocated. *)
Definition registry_ok w : Prop :=
  map_Forall (λ _ p, is_Some (heap w !! p)) (streams (mux w)).

(** The connection does not block a write. *)
Definition can_write w : Prop :=
  writeMu (mux w) = false ∧ ∀ e f, WriteFrame e f (conn w) ≠ [].

Lemma lookup_set_stream p s s' w :
  heap w !! p = Some s → heap (set_stream p s' w) !! p = Some s'.
Proof. intros Hp. simpl. apply list_lookup_insert_eq. by eapply lookup_lt_Some. Qed.

Lemma set_stream_id p s w : heap w !! p = Some s → set_stream p s w = w.
Proof.
  intros Hp. unfold set_stream. destruct w; simpl in *. f_equal. by apply list_insert_id.
Qed.

Lemma set_stream_set_stream p s s' w : set_stream p s (set_stream p s' w) = set_stream p s w.
Proof. unfold set_stream. destruct w; simpl. f_equal. apply list_insert_insert_eq. Qed.

Lemma unlocked_set_stream p s w : idle s → unlocked w → unlocked (set_stream p s w).
Proof. intros Hs []. split; simpl; [done|]. by apply Forall_insert. Qed.

Lemma unlocked_lookup p s w : unlocked w → heap w !! p = Some s → idle s.
Proof. intros [_ Hh] Hp. by eapply Forall_lookup_1 in Hh. Qed.

(** ** Rules *)

Lemma total_locked_ctx {B} (Q : B → W → Prop) p s (f : CtxStore → Stream → Stream * B) w :
  heap w !! p = Some s → mu s = false →
  Q (f (ctxs w) s).2 (set_stream p (f (ctxs w) s).1 w) → total Q (locked_ctx p f) w.
Proof.
  intros Hp Hmu HQ. apply total_act; rewrite Hp, Hmu; destruct (f (ctxs w) s) as [s' b] eqn:E.
  - done.
  - intros. inv_elem. done.
Qed.

Lemma total_locked {B} (Q : B → W → Prop) p s (f : Stream → Stream * B) w :
  heap w !! p = Some s → mu s = false →
  Q (f s).2 (set_stream p (f s).1 w) → total Q (locked p f) w.
Proof. exact (total_locked_ctx Q p s (λ _, f) w). Qed.

Lemma total_locked_ (Q : unit → W → Prop) p s f w :
  heap w !! p = Some s → mu s = false →
  Q () (set_stream p (f s) w) → total Q (locked_ p f) w.
Proof. exact (total_locked Q p s (λ s, (f s, ())) w). Qed.

(** A section that only reads. *)
Lemma total_locked_read {B} (Q : B → W → Prop) p s (g : Stream → B) w :
  heap w !! p = Some s → mu s = false → Q (g s) w → total Q (locked p (λ s, (s, g s))) w.
Proof. intros Hp Hmu HQ. eapply total_locked; [done..|]. by rewrite (set_stream_id _ s). Qed.

Lemma total_on_stream {B} (Q : B → W → Prop) p s (f : Stream → Stream * B) w :
  heap w !! p = Some s → Q (f s).2 (set_stream p (f s).1 w) → total Q (on_stream p f) w.
Proof.
  intros Hp HQ. apply total_act; rewrite Hp; destruct (f s) as [s' b]; [done|].
  intros. inv_elem. done.
Qed.

Lemma total_on_stream_ (Q : unit → W → Prop) p s f w :
  heap w !! p = Some s → Q () (set_stream p (f s) w) → total Q (on_stream_ p f) w.
Proof. exact (total_on_stream Q p s (λ s, (f s, ())) w). Qed.

Lemma total_get_stream (Q : Stream → W → Prop) p s w :
  heap w !! p = Some s → Q s w → total Q (get_stream p) w.
Proof. intros Hp HQ. eapply total_on_stream; [done|]. simpl. by rewrite (set_stream_id _ s). Qed.

Lemma total_once {B} (Q : B → W → Prop) p s (f : Stream → Stream * B) w :
  heap w !! p = Some s → endBusy s = false →
  Q (f s).2 (set_stream p (f s).1 w) → total Q (once p f) w.
Proof.
  intros Hp Hb HQ. apply total_act; rewrite Hp, Hb; destruct (f s) as [s' b]; [done|].
  intros. inv_elem. done.
Qed.

Lemma total_mux_locked {B} (Q : B → W → Prop) (f : W → W * B) w :
  mmu (mux w) = false → Q (f w).2 (f w).1 → total Q (mux_locked f) w.
Proof.
  intros Hm HQ. apply total_act; rewrite Hm; [done|].
  intros w' b Hin%list_elem_of_singleton. by rewrite <-Hin in HQ.
Qed.

(** The frame is handed to the connection under the [Err()] of the context. *)
Lemma total_mux_write (Q : option error → W → Prop) c f w :
  can_write w →
  (∀ cn r, (cn, r) ∈ WriteFrame (ctx_Err (ctxs w) c) f (conn w) →
     Q r (w <| conn := cn |>
            <| wlog ::= λ l, match r with None => l ++ [f] | Some _ => l end |>)) →
  total Q (mux_write c f) w.
Proof.
  intros [Hm Hw] HQ. unfold mux_write. apply total_bind, total_act; rewrite Hm; [done|].
  intros w1 b ?. inv_elem. apply total_bind, total_act; unfold conn_write; simpl.
  { specialize (Hw (ctx_Err (ctxs w) c) f). by destruct (WriteFrame _ _ _). }
  intros w2 r ([cn r'] & [= -> ->] & Hin)%list_elem_of_fmap.
  apply total_bind, total_modify, total_ret. specialize (HQ cn r' Hin).
  by destruct w as [?? [] ?????]; simpl in *; subst.
Qed.

Lemma total_failWith (Q : unit → W → Prop) p s err w :
  heap w !! p = Some s → idle s →
  Q () (set_stream p (wakeSenders (s <| endSt := FromError err |>) <| ended := true |>) w
          <| ctxs ::= cancel (sctx s) |>) →
  total Q (failWith p err) w.
Proof.
  intros Hp [Hmu Hb] HQ. unfold failWith.
  apply total_bind. eapply total_locked_; [done..|].
  apply total_bind. eapply total_on_stream_; [by eapply lookup_set_stream|].
  apply total_bind. eapply total_once; [by do 2 eapply lookup_set_stream|done|].
  apply total_bind. eapply total_get_stream; [by do 3 eapply lookup_set_stream|].
  apply total_modify. by rewrite !set_stream_set_stream.
Qed.

End alone.
