(* ===== verification/Ledger.v ===== *)
(** * What every goroutine of an endpoint holds

    Between two actions a goroutine of the runtime may hold something that the
    shared state no longer shows: credit it has taken for a message that is not
    written yet, a message it has popped but not credited, a window update it
    owes, a frame it read and has not routed.  [Local] is that, [ledger] how an
    action moves it, and [tracked_user], [tracked_readLoop] and
    [tracked_ctrlWriter] show that all goroutines of an endpoint obey it
    (Track.v).  Delivery.v and Credit.v prove invariants of whole networks from
    these rules alone. *)

From S2P Require Import Prelude Goroutine Track Status Context Conn Strconv Stream World StreamOps MuxOps Endpoint Alone.

(** The frames [route] gives to [tryDeliver]: MSG, and every kind without a case. *)
Definition data (f : Frame) : bool :=
  match FKind f with
  | KIND_OPEN | KIND_HALF_CLOSE | KIND_HEADER | KIND_WINDOW_UPDATE | KIND_END | KIND_RST => false
  | _ => true
  end.

(** A frame that carries neither a message nor credit. *)
Definition light (f : Frame) : bool :=
  negb (data f) && negb (bool_decide (FKind f = KIND_WINDOW_UPDATE)).

(** A frame that, besides, opens no stream. *)
Definition plain (f : Frame) : bool := light f && negb (bool_decide (FKind f = KIND_OPEN)).

Lemma plain_light f : plain f = true → light f = true.
Proof. unfold plain. by destruct (light f). Qed.

(** A frame that ends a stream. *)
Definition terminal (f : Frame) : bool :=
  match FKind f with KIND_END | KIND_RST => true | _ => false end.

(** A frame that ends one direction of a stream at least. *)
Definition ending (f : Frame) : bool := terminal f || bool_decide (FKind f = KIND_HALF_CLOSE).

(** What a goroutine holds. *)
Inductive Phase :=
| Waiting                          (* for a frame *)
| Routing (f : Frame)              (* read, not looked up *)
| Deliver (f : Frame) (p : nat)    (* a message for the stream at [p] *)
| Refusing (f : Frame) (p : nat)   (* refused, the stream still registered *)
| Closing (f : Frame) (p : nat)    (* END, RST or HALF_CLOSE for the stream at [p] *)
| Crediting (p : nat) (d : Z)      (* credit for the stream at [p] *)
| Opened (f : Frame) (p : nat).    (* allocated, not registered *)

Inductive Local :=
| Idle
| Took (p : nat) (b : bytes)       (* credit for a message *)
| Got (p : nat) (n : Z)            (* [n] popped bytes that are not credited *)
| Owes (p : nat) (d : Z)           (* a window update *)
| Sending (f : Frame)              (* a frame to write *)
| Numbered (id : Z)                (* the id of a stream to allocate *)
| Sized (id iw : Z)                (* its id and its window *)
| Fresh (p : nat) (id : Z)         (* allocated, not registered *)
| Announcing (id : Z)              (* registered, OPEN not written *)
| Loop (ph : Phase).               (* the read loop *)

(** The part of a stream that messages and credit depend on. *)
Record flow_eq (s s' : Stream) : Prop := mk_flow_eq {
  fe_sid : sid s' = sid s;
  fe_method : method s' = method s;
  fe_ctx : sctx s' = sctx s;
  fe_items : recvItems s' = recvItems s;
  fe_window : sendWindow s' = sendWindow s;
  fe_pending : pendingCredit s' = pendingCredit s;
  fe_end : endFrame s' = endFrame s;
  fe_bytes : recvBytes s' = recvBytes s;
  fe_max : maxRecvBytes s' = maxRecvBytes s;
  fe_half : halfClosed s' = halfClosed s
}.

#[export] Instance flow_eq_preorder : PreOrder flow_eq.
Proof. split; [by intros s|]. intros s1 s2 s3 [] []. split; congruence. Qed.

Section ledger.
Context {C : Type} `{!FrameConn C} `{!GrpcLib}.
Abbreviation W := (World C).
Implicit Types (w : W) (p : nat).

(** What every action but a registration does: contexts only die, ids only leave
    the registry, and only plain frames are queued for the control writer. *)
Record keeps w w' : Prop := mk_keeps {
  kp_ctx : ctx_le (ctxs w) (ctxs w');
  kp_window : muxWindow (mux w') = muxWindow (mux w);
  kp_streams : streams (mux w') ⊆ streams (mux w);
  kp_ctrl f : f ∈ ctrlCh (mux w') → f ∈ ctrlCh (mux w) ∨ plain f = true
}.

#[export] Instance keeps_preorder : PreOrder keeps.
Proof.
  split; [intros w; split; by auto|]. intros w1 w2 w3 [? ? ? H1] [? ? ? H2].
  split; [by etrans|congruence|by etrans|]. intros f [?|?]%H2; auto.
Qed.

Lemma keeps_same w w' : ctxs w' = ctxs w → mux w' = mux w → keeps w w'.
Proof. intros Hσ Hm. split; rewrite ?Hσ, ?Hm; by auto. Qed.

(** Nothing moves. *)
Record quiet w w' : Prop := mk_quiet {
  qt_keeps : keeps w w';
  qt_next : nextID (mux w') = nextID (mux w);
  qt_heap : Forall2 flow_eq (heap w) (heap w');
  qt_wlog : wlog w' = wlog w;
  qt_rlog : rlog w' = rlog w
}.

#[export] Instance quiet_refl : Reflexive quiet.
Proof. intros w. by split. Qed.

(** [role] is that of the user's goroutines, [P] what the payloads they send satisfy. *)
Context (role : Role) (P : bytes → Prop).

Definition msg_frame (id : Z) (b : bytes) : Frame := (frame id KIND_MSG) <| Payload := b |>.
Definition window_frame (id d : Z) : Frame := (frame id KIND_WINDOW_UPDATE) <| Window := d |>.

Inductive ledger : Local → W → W → Local → Prop :=
| lg_quiet l w w' : quiet w w' → ledger l w w' l
(* writing *)
| lg_plain l w w' f :
    keeps w w' → nextID (mux w') = nextID (mux w) → heap w' = heap w → wlog w' = wlog w ++ [f] →
    rlog w' = rlog w → plain f = true → ledger l w w' l
| lg_take p b s w :
    heap w !! p = Some s → 0 < sendWindow s → P b →
    ledger Idle w (set_stream p (send_take (len b) s) w) (Took p b)
| lg_took p b s w w' :
    quiet w w' → heap w !! p = Some s → ledger (Took p b) w w' (Sending (msg_frame (sid s) b))
| lg_write f w w' (ok : bool) :
    keeps w w' → nextID (mux w') = nextID (mux w) → heap w' = heap w →
    wlog w' = (if ok then wlog w ++ [f] else wlog w) → rlog w' = rlog w →
    ledger (Sending f) w w' Idle
| lg_ctrl f q w :
    ctrlCh (mux w) = f :: q → ledger Idle w (set_mux (λ m, m <| ctrlCh := q |>) w) (Sending f)
(* receiving *)
| lg_pop p s f q w :
    heap w !! p = Some s → recvItems s = f :: q →
    ledger Idle w (set_stream p (popRecv s).1 w)
      (if payload_len f <=? 0 then Idle else Got p (payload_len f))
| lg_return p n s w :
    heap w !! p = Some s →
    ledger (Got p n) w (set_stream p (returnCredit_lock n s).1 w)
      (if (returnCredit_lock n s).2 =? 0 then Idle else Owes p (returnCredit_lock n s).2)
| lg_owes p d s w w' :
    quiet w w' → heap w !! p = Some s → ledger (Owes p d) w w' (Sending (window_frame (sid s) d))
(* opening *)
| lg_number w :
    ledger Idle w (w <| mux := (next_id (mux w)).1 |>) (Numbered (next_id (mux w)).2)
| lg_size id w w' : quiet w w' → ledger (Numbered id) w w' (Sized id (muxWindow (mux w)))
| lg_alloc iw c id m w :
    role ≠ InHandler →
    ledger (Sized id iw) w (alloc c id m iw (λ s, s) w).1 (Fresh (length (heap w)) id)
| lg_register p id w :
    ledger (Fresh p id) w (set_mux (λ m, m <| streams ::= <[id:=p]> |>) w) (Announcing id)
| lg_announce f w w' (ok : bool) :
    keeps w w' → nextID (mux w') = nextID (mux w) → heap w' = heap w →
    wlog w' = (if ok then wlog w ++ [f] else wlog w) → rlog w' = rlog w →
    FKind f = KIND_OPEN → ledger (Announcing (StreamId f)) w w' Idle
(* the read loop *)
| lg_read f w w' ph :
    keeps w w' → nextID (mux w') = nextID (mux w) → heap w' = heap w → wlog w' = wlog w →
    rlog w' = rlog w ++ [f] → ph = Routing f ∨ ph = Waiting ∧ light f = true → ledger (Loop Waiting) w w' (Loop ph)
| lg_skip f w w' :
    quiet w w' → light f = true ∨ streams (mux w) !! StreamId f = None →
    ledger (Loop (Routing f)) w w' (Loop Waiting)
| lg_found f p w w' :
    quiet w w' → streams (mux w) !! StreamId f = Some p → data f = true →
    ledger (Loop (Routing f)) w w' (Loop (Deliver f p))
| lg_enqueue f p s w :
    heap w !! p = Some s → ctx_Err (ctxs w) (sctx s) = None →
    ledger (Loop (Deliver f p)) w
      (set_stream p (s <| recvItems ::= λ q, q ++ [f] |>
                       <| recvBytes ::= λ x, wrap64 (x + payload_len f) |>) w) (Loop Waiting)
| lg_drop f p s w w' :
    quiet w w' → heap w !! p = Some s → is_Some (ctx_Err (ctxs w) (sctx s)) →
    ledger (Loop (Deliver f p)) w w' (Loop Waiting)
| lg_refuse f p w w' : quiet w w' → ledger (Loop (Deliver f p)) w w' (Loop (Refusing f p))
| lg_unregister f p w :
    ledger (Loop (Refusing f p)) w (set_mux (λ m, m <| streams ::= delete (StreamId f) |>) w)
      (Loop Waiting)
| lg_closing f p w w' :
    quiet w w' → streams (mux w) !! StreamId f = Some p → ending f = true →
    ledger (Loop (Routing f)) w w' (Loop (Closing f p))
| lg_end f p s w :
    heap w !! p = Some s → terminal f = true →
    ledger (Loop (Closing f p)) w (set_stream p (signalEnd_lock f s) w) (Loop (Closing f p))
| lg_close f p w :
    ledger (Loop (Closing f p)) w (set_mux (λ m, m <| streams ::= delete (StreamId f) |>) w)
      (Loop Waiting)
| lg_window f p w w' :
    quiet w w' → streams (mux w) !! StreamId f = Some p → FKind f = KIND_WINDOW_UPDATE →
    ledger (Loop (Routing f)) w w'
      (Loop (if Window f <=? 0 then Waiting else Crediting p (Window f)))
| lg_credited p d s w :
    heap w !! p = Some s →
    ledger (Loop (Crediting p d)) w (set_stream p (creditSend_lock d s) w) (Loop Waiting)
| lg_open f w :
    role = InHandler → FKind f = KIND_OPEN →
    ledger (Loop (Routing f)) w (open_stream f w).1 (Loop (Opened f (length (heap w))))
| lg_enter f p w :
    ledger (Loop (Opened f p)) w (set_mux (λ m, m <| streams ::= <[StreamId f:=p]> |>) w)
      (Loop Waiting)
| lg_half f p s w :
    heap w !! p = Some s → FKind f = KIND_HALF_CLOSE →
    ledger (Loop (Closing f p)) w (set_stream p (halfClose s) w) (Loop Waiting).

Abbreviation tracks := (tracked Idle ledger (λ _ _ _, True) (λ _, True)).

Lemma ledger_refl l w : ledger l w w l.
Proof. by apply lg_quiet. Qed.

(** ** Actions that move nothing *)

Lemma quiet_world w w' :
  keeps w w' → nextID (mux w') = nextID (mux w) → heap w' = heap w → wlog w' = wlog w →
  rlog w' = rlog w → quiet w w'.
Proof. intros ? ? Hh ? ?. split; try done. by rewrite Hh. Qed.

Lemma quiet_set_stream p s s' w :
  heap w !! p = Some s → flow_eq s s' → quiet w (set_stream p s' w).
Proof.
  intros Hp Hs. split; [by apply keeps_same|done| |done..]. simpl. apply Forall2_same_length_lookup_2.
  - by rewrite length_insert.
  - intros q t t' Ht Ht'. destruct (decide (p = q)) as [->|].
    + apply list_lookup_insert_Some in Ht' as [(_ & -> & _)|[? _]]; by simplify_eq.
    + rewrite list_lookup_insert_ne in Ht' by done. by simplify_eq.
Qed.

Definition flow_section {B} (f : Stream → Stream * B) : Prop := ∀ s, flow_eq s (f s).1.

Ltac solve_flow :=
  intros ?; try (intros ?); simpl;
  unfold SendHeader_lock, CloseSend_lock, endOne_enter, applyEnd_lock, cond_park;
  repeat (case_match; simpl); by split.

Lemma quiet_locked_ctx {B} p (f : CtxStore → Stream → Stream * B) :
  (∀ σ, flow_section (f σ)) → all_acts quiet (locked_ctx p f).
Proof.
  intros Hf w w' b. simpl. destruct (heap w !! p) as [s|] eqn:Hp; [|intros; by inv_elem].
  destruct (mu s); [intros; by inv_elem|]. specialize (Hf (ctxs w) s).
  destruct (f (ctxs w) s) as [s' b'] eqn:E. intros. inv_elem. by eapply quiet_set_stream.
Qed.

Lemma quiet_on_stream {B} p (f : Stream → Stream * B) : flow_section f → all_acts quiet (on_stream p f).
Proof.
  intros Hf w w' b. simpl. destruct (heap w !! p) as [s|] eqn:Hp; [|intros; by inv_elem].
  specialize (Hf s). destruct (f s) as [s' b'] eqn:E. intros. inv_elem. by eapply quiet_set_stream.
Qed.

Lemma quiet_once {B} p (f : Stream → Stream * B) : flow_section f → all_acts quiet (once p f).
Proof.
  intros Hf w w' b. simpl. destruct (heap w !! p) as [s|] eqn:Hp; [|intros; by inv_elem].
  destruct (endBusy s); [intros; by inv_elem|].
  specialize (Hf s). destruct (f s) as [s' b'] eqn:E. intros. inv_elem. by eapply quiet_set_stream.
Qed.

(** An action that changes only the mux, the contexts, the connection or the logs of
    other components. *)
Ltac solve_world :=
  simpl; try (intros ?w ?w' ?b ?Hin); inv_elem; (apply quiet_world; [split| | | |]); simpl;
  repeat case_match; simpl; auto using delete_subseteq, ctx_kill_le; try done; try apply ctx_kill_le; try apply delete_subseteq;
  try (intros; by left).

Lemma quiet_read {B} (f : W → B) : all_acts quiet (read f).
Proof. solve_world. Qed.
Lemma quiet_ctx_cancel c : all_acts quiet (ctx_cancel c : Prog W unit).
Proof. solve_world. Qed.
Lemma quiet_stat ev : all_acts quiet (stat ev : Prog W unit).
Proof. solve_world. Qed.
Lemma quiet_on_sink {B} a (f : mdSink → mdSink * B) : all_acts quiet (on_sink a f : Prog W B).
Proof. intros w w' b. simpl. repeat case_match; intros Hin; solve_world. Qed.
Lemma quiet_new_sink o : all_acts quiet (new_sink o : Prog W nat).
Proof. solve_world. Qed.
Lemma quiet_on_gstream {B} a (f : ServerStreamState → ServerStreamState * B) :
  all_acts quiet (on_gstream a f : Prog W B).
Proof. intros w w' b. simpl. repeat case_match; intros Hin; solve_world. Qed.
Lemma quiet_new_gstream o : all_acts quiet (new_gstream o : Prog W nat).
Proof. solve_world. Qed.
Lemma quiet_on_shim {B} a (f : ShimState → ShimState * B) : all_acts quiet (on_shim a f : Prog W B).
Proof. intros w w' b. simpl. repeat case_match; intros Hin; solve_world. Qed.
Lemma quiet_new_shim o : all_acts quiet (new_shim o : Prog W nat).
Proof. solve_world. Qed.
Lemma quiet_remove id : all_acts quiet (remove id : Prog W unit).
Proof. intros w w' b. simpl. case_match; intros Hin; solve_world. Qed.
Lemma quiet_lookup_stream id : all_acts quiet (lookup_stream id : Prog W _).
Proof. intros w w' b. simpl. case_match; intros Hin; solve_world. Qed.
Lemma quiet_writeCtrl f : plain f = true → all_acts quiet (writeCtrl f : Prog W unit).
Proof.
  intros Hf w w' b Hin. inv_elem. apply quiet_world; [split| | | |]; simpl; try done; try (by case_match).
  intros g. case_match; [|by auto]. simpl. rewrite elem_of_app, list_elem_of_singleton.
  intros [?| ->]; auto.
Qed.
Lemma quiet_set_mux (f : Mux → Mux) :
  (∀ m, streams (f m) ⊆ streams m) → (∀ m, muxWindow (f m) = muxWindow m) →
  (∀ m, ctrlCh (f m) = ctrlCh m) → (∀ m, nextID (f m) = nextID m) → all_acts quiet (modify (set_mux f) : Prog W unit).
Proof.
  intros Hs Hw Hc Hn w w' b Hin. inv_elem. apply quiet_world; [split| | | |]; simpl; try done; [].
  intros g. rewrite Hc. auto.
Qed.

Create HintDb quiet.
#[local] Hint Resolve quiet_read quiet_ctx_cancel quiet_stat quiet_on_sink quiet_new_sink
  quiet_on_gstream quiet_new_gstream quiet_on_shim quiet_new_shim quiet_remove quiet_lookup_stream : quiet.

Ltac solve_quiet :=
  repeat lazymatch goal with
  | |- all_acts _ (Ret _) => exact I
  | |- all_acts _ (Bind _ _) => split
  | |- all_acts _ (Iter _ _) => intros ?
  | |- all_acts _ (match ?x with _ => _ end) => destruct x
  | |- ∀ _, all_acts _ _ => intros ?
  | |- all_acts _ (locked _ _) => apply quiet_locked_ctx; solve_flow
  | |- all_acts _ (locked_ _ _) => apply quiet_locked_ctx; solve_flow
  | |- all_acts _ (locked_ctx _ _) => apply quiet_locked_ctx; solve_flow
  | |- all_acts _ (on_stream _ _) => apply quiet_on_stream; solve_flow
  | |- all_acts _ (on_stream_ _ _) => apply quiet_on_stream; solve_flow
  | |- all_acts _ (get_stream _) => apply quiet_on_stream; solve_flow
  | |- all_acts _ (once _ _) => apply quiet_once; solve_flow
  | |- all_acts _ (modify (set_mux _)) =>
      apply quiet_set_mux; intros; simpl; try done; apply delete_subseteq
  | |- all_acts _ _ => solve [auto with quiet]
  end.

Lemma quiet_failWith p err : all_acts quiet (failWith p err : Prog W unit).
Proof. unfold failWith. solve_quiet. Qed.
Lemma quiet_applyEnd p f : all_acts quiet (applyEnd p f : Prog W _).
Proof. unfold applyEnd. solve_quiet. Qed.
#[local] Hint Resolve quiet_failWith quiet_applyEnd : quiet.

Lemma quiet_failAll err : all_acts quiet (failAll err : Prog W unit).
Proof.
  unfold failAll. split; [|intros l; split; [|intros; solve_quiet]].
  - intros w w' b Hin. case_match; [by inv_elem|]. apply list_elem_of_fmap in Hin as (l & ? & _).
    simplify_eq. solve_world.
  - induction l as [|[id p] l IH]; [done|]. split; [|done]. solve_quiet.
Qed.

Lemma quiet_keepalive d : all_acts quiet (keepalive_loop d : Prog W unit).
Proof.
  unfold keepalive_loop. solve_quiet.
  - intros w w' b. simpl. rewrite elem_of_app, elem_of_branch, list_elem_of_singleton.
    intros [[_ ?]|?]; by simplify_eq.
  - intros w w' b Hin. inv_elem. apply quiet_world; [split| | | |]; simpl; auto.
    by destruct (WithTimeout_le (mctx (mux w)) d (ctxs w)).
  - intros w w' b ([cn r] & ? & _)%list_elem_of_fmap. solve_world.
Qed.

Lemma quiet_Close : all_acts quiet (Close : Prog W _).
Proof.
  unfold Close. solve_quiet. intros w w' b ([cn r] & ? & _)%list_elem_of_fmap. solve_world.
Qed.

(** ** Rules *)

Lemma tracked_quiet {A} (p : Prog W A) l (Q : A → Local → Prop) :
  all_acts quiet p → (∀ a, Q a l) → tracks p l Q.
Proof. intros. apply (tracked_acts _ _ _ _ quiet); try done. intros. by apply lg_quiet. Qed.

Lemma tracked_skip {A B} (p : Prog W A) (f : A → Prog W B) l Q :
  all_acts quiet p → (∀ a, tracks (f a) l Q) → tracks (Bind p f) l Q.
Proof. intros Hp Hf. eapply tracked_then; [|exact Hf]. by apply tracked_quiet. Qed.

(** Reading the stream at [p]. *)
Lemma tracked_get_stream {B} p l l' (f : Stream → Prog W B) Q :
  (∀ w w' s, quiet w w' → heap w !! p = Some s → ledger l w w' (l' s)) →
  (∀ s, tracks (f s) (l' s) Q) → tracks (Bind (get_stream p) f) l Q.
Proof.
  intros Hl HQ. apply tracked_act; [done|]. intros w w' s Hin.
  destruct (heap w !! p) as [s1|] eqn:Hp; inv_elem. exists (l' s1). split; [|done].
  apply Hl; [|done]. by eapply quiet_set_stream.
Qed.

(** A write, of a plain frame or of the frame the goroutine holds. *)
Lemma tracked_mux_write c f l l' :
  (l = l' ∧ plain f = true) ∨ (l = Sending f ∧ l' = Idle) ∨
  (l = Announcing (StreamId f) ∧ FKind f = KIND_OPEN ∧ l' = Idle) →
  tracks (mux_write c f) l (λ _ l1, l1 = l').
Proof.
  intros Hl. apply tracked_skip; [intros w w' b; case_match; intros Hin; solve_world|intros _].
  apply (tracked_then _ _ _ l'); [|intros r; apply tracked_skip; [solve_quiet|done]].
  split; [done|]. intros w w' r ([cn r'] & ? & _)%list_elem_of_fmap. simplify_eq. exists l'. split; [|done].
  destruct Hl as [[-> Hf]|[[-> ->]|(-> & Hf & ->)]].
  - destruct r'; [apply lg_quiet, quiet_world; by try apply keeps_same|].
    by eapply lg_plain; try apply keeps_same.
  - by eapply (lg_write f _ _ (bool_decide (r' = None))); try apply keeps_same; destruct r'.
  - by eapply (lg_announce f _ _ (bool_decide (r' = None))); try apply keeps_same; destruct r'.
Qed.

Ltac plain_write := apply (tracked_mux_write _ _ Idle Idle); by left.

(** ** The methods of a stream *)

Lemma tracked_send_wait p b :
  P b → tracks (send_wait p (len b)) Idle (λ r l, l = match r with None => Took p b | Some _ => Idle end).
Proof.
  intros HP. apply tracked_iter; [done|]. intros _. unfold send_head. apply tracked_act; [done|]. intros w w' v Hin.
  destruct (heap w !! p) as [s|] eqn:Hp; [|by inv_elem].
  destruct (mu s); [by inv_elem|]. unfold send_check in Hin.
  destruct (Z.leb_spec (sendWindow s) 0).
  - assert (quiet w w' ∧ v ≠ SendGo) as [Hq Hv].
    { destruct (sendBlockErrLocked (ctxs w) s); inv_elem; (split; [|done]);
        by eapply quiet_set_stream; [exact Hp|split]. }
    exists Idle. split; [by apply lg_quiet|]. destruct v; [done| |done].
    apply tracked_skip; [|done]. unfold cond_wait. solve_quiet. intros w1 w2 u Hu.
    repeat case_match; by inv_elem.
  - inv_elem. exists (Took p b). split; [|done]. by apply lg_take.
Qed.

Lemma tracked_SendRaw p b : P b → tracks (SendRaw p b) Idle (λ _ l, l = Idle).
Proof.
  intros HP. eapply tracked_bind; [by apply tracked_send_wait|]. intros [e|] ? ->; [done|].
  apply (tracked_get_stream _ _ (λ s, Sending (msg_frame (sid s) b))); [intros; by apply lg_took|].
  intros s. eapply tracked_then; [apply tracked_mux_write; by right; left|].
  intros [e|]; [done|]. apply tracked_skip; [solve_quiet|done].
Qed.

Lemma tracked_deliverPayload p f :
  tracks (deliverPayload p f) (if payload_len f <=? 0 then Idle else Got p (payload_len f))
    (λ _ l, l = Idle).
Proof.
  eapply (tracked_then _ _ _ Idle); [|done]. unfold returnCredit.
  destruct (payload_len f <=? 0); [done|]. apply tracked_act; [done|]. intros w w' d Hin.
  destruct (heap w !! p) as [s|] eqn:Hp; [|by inv_elem]. destruct (mu s); [by inv_elem|].
  destruct (returnCredit_lock (payload_len f) s) as [s' d'] eqn:E. inv_elem.
  pose proof (lg_return p (payload_len f) s w Hp) as Hr. rewrite E in Hr.
  eexists. split; [exact Hr|]. simpl. destruct (d' =? 0); [done|].
  apply (tracked_get_stream _ _ (λ s, Sending (window_frame (sid s) d'))); [intros; by apply lg_owes|].
  intros s1. eapply tracked_then; [apply tracked_mux_write; by right; left|done].
Qed.

(** A pop, and what follows it. *)
Lemma tracked_pop {B} p (f : option Frame → Prog W B) Q :
  (∀ g, tracks (f (Some g)) (if payload_len g <=? 0 then Idle else Got p (payload_len g)) Q) →
  tracks (f None) Idle Q → tracks (Bind (locked p popRecv) f) Idle Q.
Proof.
  intros Hs Hn. apply tracked_act; [done|]. intros w w' o Hin.
  destruct (heap w !! p) as [s|] eqn:Hp; [|by inv_elem]. destruct (mu s); [by inv_elem|].
  destruct (recvItems s) as [|g q] eqn:E.
  - unfold popRecv in Hin. rewrite E in Hin. inv_elem. exists Idle. split; [|done].
    apply lg_quiet. by eapply quiet_set_stream.
  - pose proof (lg_pop p s g q w Hp E) as Hl. unfold popRecv in Hin, Hl. rewrite E in Hin, Hl.
    inv_elem. eexists. split; [exact Hl|done].
Qed.

Lemma tracked_recvEnded p : tracks (recvEnded p) Idle (λ _ l, l = Idle).
Proof.
  apply tracked_pop.
  - intros g. eapply tracked_then; [apply tracked_deliverPayload|done].
  - apply tracked_quiet; [|done]. unfold status. solve_quiet.
Qed.

Lemma tracked_pop_or p err :
  all_acts quiet err → tracks (pop_or p err) Idle (λ _ l, l = Idle).
Proof.
  intros He. apply tracked_pop.
  - intros g. eapply tracked_then; [apply tracked_deliverPayload|done].
  - by apply tracked_skip.
Qed.

Lemma tracked_RecvRawContext c p : tracks (RecvRawContext c p) Idle (λ _ l, l = Idle).
Proof.
  apply tracked_iter; [done|]. intros _. apply tracked_pop.
  { intros g. eapply tracked_then; [apply tracked_deliverPayload|done]. }
  apply tracked_skip.
  { intros w w' b. destruct (heap w !! p) as [s|] eqn:Hp; [|intros; by inv_elem].
    intros ([] & ? & _)%list_elem_of_fmap; simplify_eq; try done.
    by eapply quiet_set_stream; [|split]. }
  intros []; unfold recv_case; try done.
  - eapply tracked_then; [by apply tracked_pop_or|done].
  - eapply tracked_then; [by apply tracked_recvEnded|done].
  - apply tracked_skip; [solve_quiet|]. intros s. destruct (ended s).
    + eapply tracked_then; [by apply tracked_recvEnded|done].
    + eapply tracked_then; [apply tracked_pop_or; unfold ctx_err_of; solve_quiet|done].
  - apply tracked_skip; [unfold ctx_err_of; solve_quiet|done].
Qed.

(** ** The methods of the mux *)

Lemma tracked_newClientStream c dl m h :
  role ≠ InHandler → tracks (newClientStream c dl m h) Idle (λ _ l, l = Idle).
Proof.
  intros Hrole. apply tracked_act; [done|]. intros w w' id Hin. apply list_elem_of_singleton in Hin.
  simplify_eq/=. eexists. split; [apply lg_number|]. simpl. generalize (wrapu32 (wrapu32 (nextID (mux w) + 2) - 2)).
  clear w. intros id. apply tracked_act; [done|]. intros w w' iw Hin. inv_elem. eexists. split; [by apply lg_size|].
  generalize (muxWindow (mux w)). clear w. intros iw.
  apply tracked_act; [done|]. intros w w' p Hin. apply list_elem_of_singleton in Hin as [= -> ->].
  eexists. split; [by apply lg_alloc|]. generalize (length (heap w)). clear w. intros p.
  apply tracked_act; [done|]. intros w w' b Hin. destruct (mmu (mux w)); inv_elem.
  eexists. split; [apply lg_register|].
  eapply tracked_then; [apply (tracked_mux_write _ _ _ Idle); right; right; by split_and!|].
  intros [e|]; [|done]. apply tracked_skip; [solve_quiet|done].
Qed.

Lemma tracked_ctrlWriter : tracks ctrlWriter Idle (λ _ l, l = Idle).
Proof.
  apply tracked_iter; [done|]. intros _. apply tracked_act; [done|]. intros w w' b Hin.
  apply elem_of_app in Hin as [Hin|Hin].
  - apply elem_of_branch in Hin as [_ Hin]. inv_elem. exists Idle. split; [apply ledger_refl|done].
  - destruct (ctrlCh (mux w)) as [|f q] eqn:E; inv_elem. exists (Sending f).
    split; [by apply lg_ctrl|]. apply tracked_skip; [solve_quiet|]. intros mc.
    eapply tracked_then; [apply tracked_mux_write; by right; left|done].
Qed.

Lemma tracked_user {A} (p : Prog W A) :
  role ≠ InRuntime → calls role P p → tracks p Idle (λ _ l, l = Idle).
Proof.
  intros Hrole. induction 1; try done; try (apply tracked_quiet; [|done]; unfold Header, Trailer, takeTrailer,
    SetTrailer; solve_quiet; apply quiet_Close); auto using tracked_SendRaw, tracked_RecvRawContext,
    tracked_newClientStream.
  - by eapply tracked_then.
  - apply tracked_iter; [done|]. intros s'. eapply tracked_mono; [|done]. by intros [].
  - split_and!; [done| |done]. by eapply tracked_mono.
  - apply tracked_skip; [solve_quiet|]. intros [|]; [done|]. apply tracked_skip; [solve_quiet|].
    intros s. plain_write.
  - apply tracked_skip; [solve_quiet|]. intros [|]; [done|]. apply tracked_skip; [solve_quiet|].
    intros s. plain_write.
  - apply tracked_skip; [solve_quiet|]. intros s. apply tracked_skip; [solve_quiet|]. intros mc.
    eapply tracked_then; [plain_write|]. intros err. apply tracked_skip; [solve_quiet|done].
Qed.

(** ** The read loop *)

(** What the loop holds after reading a frame. *)
Definition entry (onOpen : option (nat → Prog W unit)) (f : Frame) : Phase :=
  if light f && negb (ending f) &&
     negb (bool_decide (FKind f = KIND_OPEN) && bool_decide (is_Some onOpen))
  then Waiting else Routing f.

(** What it holds after the lookup of a frame that is not light, or ending. *)
Definition found (f : Frame) (p : nat) : Phase :=
  if data f then Deliver f p
  else if ending f then Closing f p
  else if Window f <=? 0 then Waiting else Crediting p (Window f).

Lemma tracked_lookup {B} f (k : option nat → Prog W B) Q :
  data f = true ∨ ending f = true ∨ FKind f = KIND_WINDOW_UPDATE →
  tracks (k None) (Loop Waiting) Q → (∀ p, tracks (k (Some p)) (Loop (found f p)) Q) →
  tracks (Bind (lookup_stream (StreamId f)) k) (Loop (Routing f)) Q.
Proof.
  intros Hk Hn Hs. apply tracked_act; [done|]. intros w w' o Hin.
  destruct (mmu (mux w)); [by inv_elem|]. inv_elem.
  destruct (streams (mux w) !! StreamId f) as [p|] eqn:E.
  - eexists. split; [|apply Hs]. unfold found. destruct (data f) eqn:Hd; [by apply lg_found|].
    destruct (ending f) eqn:Ht; [by apply lg_closing|].
    destruct Hk as [|[|Hk]]; [done..|]. by apply lg_window.
  - eexists. split; [|exact Hn]. apply lg_skip; auto. done.
Qed.

Lemma tracked_signalEnd p f :
  terminal f = true → tracks (signalEnd p f) (Loop (Closing f p)) (λ _ l, l = Loop (Closing f p)).
Proof.
  intros Hf. apply tracked_skip; [solve_quiet|]. intros [|]; [|done]. apply tracked_act; [done|]. intros w w' b Hin.
  destruct (heap w !! p) as [s|] eqn:Hp; [|by inv_elem]. destruct (mu s); [by inv_elem|]. inv_elem.
  eexists. split; [by apply lg_end|]. apply tracked_quiet; [solve_quiet|done].
Qed.

Lemma tracked_route_msg p f :
  tracks (route_msg p f) (Loop (Deliver f p)) (λ _ l, l = Loop Waiting).
Proof.
  apply (tracked_bind _ _ _ (λ ok l, l = Loop (if ok : bool then Waiting else Refusing f p))).
  - apply tracked_act; [done|]. intros w w' d Hin.
    destruct (heap w !! p) as [s|] eqn:Hp; [|by inv_elem]. destruct (mu s); [by inv_elem|].
    unfold tryDeliver_lock in Hin.
    destruct (decide (is_Some (ctx_Err (ctxs w) (sctx s)))) as [Hd|Hd];
      [|destruct (negb _ && _)]; inv_elem.
    + eexists. split; [eapply lg_drop; [|done..]|done]. by eapply quiet_set_stream.
    + eexists. split; [apply lg_refuse|done]. by eapply quiet_set_stream.
    + eexists. split; [apply lg_enqueue|]; [done|by apply eq_None_not_Some|].
      apply tracked_skip; [solve_quiet|done].
  - intros [] ? ->.
    + apply tracked_quiet; [solve_quiet|done].
    + apply tracked_skip; [solve_quiet|intros _]. apply tracked_skip; [solve_quiet|intros _].
      apply tracked_skip; [by apply quiet_writeCtrl|intros _].
      split; [done|]. intros w w' b Hin. destruct (mmu (mux w)); inv_elem.
      eexists. split; [apply lg_unregister|done].
Qed.

Lemma tracked_route_open h f :
  role = InHandler → FKind f = KIND_OPEN → (∀ p, tracks (h p) (Loop Waiting) (λ _ l, l = Loop Waiting)) →
  tracks (route_open h f) (Loop (Routing f)) (λ _ l, l = Loop Waiting).
Proof.
  intros Hrole Hk Hh. assert (light f = true) as Hf by (unfold light, data; by rewrite Hk).
  assert (∀ g, plain g = true → tracks (writeCtrl g) (Loop Waiting) (λ _ l, l = Loop Waiting)) as Hw.
  { intros g Hg. apply tracked_quiet; [by apply quiet_writeCtrl|done]. }
  apply tracked_skip; [solve_quiet|]. intros [q|].
  { split; [done|]. intros w w' b Hin. eexists. split; [|done]. apply lg_skip; [|by left].
    exact (quiet_writeCtrl (rst _ _ _) eq_refl _ _ _ Hin). }
  apply tracked_act; [done|]. intros w w' over Hin. destruct (mmu (mux w)); inv_elem.
  destruct (_ && _).
  - eexists. split; [apply lg_skip; [done|by left]|]. apply tracked_skip; [solve_quiet|intros _].
    by apply Hw.
  - eexists. split; [apply ledger_refl|]. clear w. apply tracked_act; [done|]. intros w w' p Hin.
    apply list_elem_of_singleton in Hin. destruct (open_stream f w) as [w1 p1] eqn:E.
    injection Hin as -> ->. pose proof (lg_open f w Hrole Hk) as Hl. rewrite E in Hl.
    assert (p1 = length (heap w)) as ->.
    { unfold open_stream, alloc in E. destruct (open_ctx _ _ _) as [[? ?] ?]. by simplify_eq/=. }
    eexists. split; [exact Hl|]. generalize (length (heap w)). clear - Hh. intros p.
    apply tracked_act; [done|]. intros w w' b Hin. destruct (mmu (mux w)); inv_elem.
    eexists. split; [apply lg_enter|apply Hh].
Qed.

Lemma tracked_route onOpen f :
  (is_Some onOpen → role = InHandler) →
  (∀ h p, onOpen = Some h → tracks (h p) (Loop Waiting) (λ _ l, l = Loop Waiting)) →
  tracks (route onOpen f) (Loop (entry onOpen f)) (λ _ l, l = Loop Waiting).
Proof.
  intros Hrole Hh.
  assert (∀ p, terminal f = true →
    tracks (signalEnd p f ;; remove (StreamId f)) (Loop (Closing f p)) (λ _ l, l = Loop Waiting)) as Ht.
  { intros p Hf. eapply tracked_then; [by apply tracked_signalEnd|]. intros _. split; [done|]. intros w w' b Hin.
    destruct (mmu (mux w)); inv_elem. eexists. split; [apply lg_close|done]. }
  unfold route, entry, light, data, ending, terminal in *.
  destruct (FKind f) eqn:Hk; simpl;
    try (apply tracked_quiet; [solve_quiet; unfold setLeadingHeader; solve_quiet|done]).
  all: try (apply tracked_lookup;
    [unfold data, ending, terminal; rewrite Hk; by auto|done|
     intros p; unfold found, data, ending, terminal; rewrite Hk; simpl]).
  all: try apply tracked_route_msg; auto.
  - destruct onOpen as [h|]; [|done]. apply tracked_route_open; [by apply Hrole|done|]. intros. by apply Hh.
  - split; [done|]. intros w w' b Hin. destruct (heap w !! p) as [s|] eqn:Hp; inv_elem.
    eexists. split; [by apply lg_half|done].
  - unfold creditSend. destruct (Window f <=? 0); [done|]. apply tracked_act; [done|]. intros w w' b Hin.
    destruct (heap w !! p) as [s|] eqn:Hp; [|by inv_elem]. destruct (mu s); [by inv_elem|]. inv_elem.
    eexists. split; [by apply lg_credited|]. apply tracked_quiet; [solve_quiet|done].
Qed.

Lemma tracked_readLoop onOpen :
  (is_Some onOpen → role = InHandler) →
  (∀ h p, onOpen = Some h → tracks (h p) (Loop Waiting) (λ _ l, l = Loop Waiting)) →
  tracks (readLoop onOpen) (Loop Waiting) (λ _ _, True).
Proof.
  intros Hrole Hh. apply (tracked_bind _ _ _ (λ _ l, True)); [|intros _ l _; apply tracked_quiet; [solve_quiet|done]].
  apply tracked_iter; [done|]. intros _. apply tracked_act; [done|]. intros w w' r Hin.
  apply list_elem_of_fmap in Hin as ([cn r'] & Hin & _). simplify_eq. destruct r' as [e|f].
  - eexists. split; [apply lg_quiet, quiet_world; by try apply keeps_same|].
    apply tracked_skip; [unfold disconnectErr; solve_quiet|]. intros err.
    apply tracked_skip; [apply quiet_failAll|done].
  - exists (Loop (entry onOpen f)). split.
    + eapply (lg_read f); simpl; try done; [by apply keeps_same|].
      unfold entry. destruct (light f); simpl; [destruct (_ && _)|]; auto.
    + eapply tracked_then; [by apply tracked_route|done].
Qed.

End ledger.
