(* ===== verification/Routing.v ===== *)
(** * Routing: what the read loop does with a frame

    The branches of [route], each with its exact effect on the endpoint, and the
    two facts behind the rule that the read loop never blocks: alone, it handles
    any frame without blocking, and whether it can go on never depends on the
    connection, on [writeMu] or on the control queue. *)

From S2P Require Import Prelude Goroutine Status Context Conn Strconv Stream World StreamOps MuxOps Alone.

Section routing.
Context {C : Type} `{!FrameConn C} `{!GrpcLib}.
Abbreviation W := (World C).
Implicit Types (w : W) (p : nat) (f : Frame).

(** A control frame queued, or dropped when the queue is full. *)
Definition queue_ctrl (f : Frame) (w : W) : W :=
  set_mux (λ m,
    if len (ctrlCh m) <? ctrlBufferSize then m <| ctrlCh ::= λ q, q ++ [f] |> else m) w.

Lemma total_lookup_stream (Q : option nat → W → Prop) id w :
  mmu (mux w) = false → Q (streams (mux w) !! id) w → total Q (lookup_stream id) w.
Proof. intros. by apply total_mux_locked. Qed.

Lemma total_remove (Q : unit → W → Prop) id w :
  mmu (mux w) = false → Q () (set_mux (λ m, m <| streams ::= delete id |>) w) →
  total Q (remove id) w.
Proof. intros. by apply total_mux_locked. Qed.

Lemma total_writeCtrl (Q : unit → W → Prop) f w :
  Q () (queue_ctrl f w) → total Q (writeCtrl f) w.
Proof. intros HQ. by apply total_modify. Qed.

Lemma total_stat (Q : unit → W → Prop) ev w :
  Q () (w <| events ::= stat_dispatch (stats (mux w)) ev |>) → total Q (stat ev) w.
Proof. intros HQ. by apply total_modify. Qed.

(** ** OPEN *)

(** A second OPEN on a live stream id is answered with RST(Internal) and
    changes nothing else: the registered stream, its handler and the registry
    are untouched. *)
Theorem route_duplicate_open h f p w :
  FKind f = KIND_OPEN → mmu (mux w) = false → streams (mux w) !! StreamId f = Some p →
  total (λ _ w', w' = queue_ctrl (rst (StreamId f) codes.Internal "duplicate stream id") w)
    (route (Some h) f) w.
Proof.
  intros Hk Hm Hp. unfold route. rewrite Hk. unfold route_open.
  apply total_bind, total_lookup_stream; [done|]. rewrite Hp. by apply total_writeCtrl.
Qed.

(** An OPEN past the stream limit is answered with RST(ResourceExhausted) and
    reported to the stats; no stream is allocated and no handler runs. *)
Theorem route_open_over_cap h f w :
  FKind f = KIND_OPEN → mmu (mux w) = false → streams (mux w) !! StreamId f = None →
  0 < maxStreams (mux w) ≤ Z.of_nat (size (streams (mux w))) →
  total (λ _ w', w' =
      queue_ctrl (rst (StreamId f) codes.ResourceExhausted "max concurrent streams exceeded")
        (w <| events ::= stat_dispatch (stats (mux w)) (EvStreamRejected statsReasonMaxStreams) |>))
    (route (Some h) f) w.
Proof.
  intros Hk Hm Hp [Hpos Hmax]. unfold route. rewrite Hk. unfold route_open.
  apply total_bind, total_lookup_stream; [done|]. rewrite Hp.
  apply total_bind, total_mux_locked; [done|]. simpl.
  rewrite (proj2 (Z.ltb_lt _ _) Hpos), (proj2 (Z.leb_le _ _) Hmax). simpl.
  apply total_bind, total_stat. by apply total_writeCtrl.
Qed.

(** The endpoint after the stream of [f] was allocated and registered. *)
Definition opened f w : W :=
  set_mux (λ m, m <| streams ::= <[StreamId f := length (heap w)]> |>) (open_stream f w).1.

Lemma open_stream_heap f w :
  (open_stream f w).2 = length (heap w) ∧ mux (open_stream f w).1 = mux w ∧
  ∃ s, heap (open_stream f w).1 = heap w ++ [s] ∧
    sid s = StreamId f ∧ method s = FMethod f ∧ header s = Headers f ∧
    recvItems s = [] ∧ ended s = false ∧ halfClosed s = false ∧ idle s ∧
    (0 < muxWindow (mux w) → sendWindow s = muxWindow (mux w) ∧ maxRecvBytes s = muxWindow (mux w)).
Proof.
  unfold open_stream. destruct (open_ctx _ _ _) as [[σ c] dc]. unfold alloc, newStream.
  simpl. split_and!; [done..|]. eexists. split; [done|]. simpl. split_and!; try done.
  intros Hw. destruct (Z.leb_spec (muxWindow (mux w)) 0); [lia|done].
Qed.

(** C16: an OPEN with a fresh id under the limit allocates one stream, with the
    id, the method and the headers of the frame and a full window, registers it
    under its id, and hands exactly that stream to the dispatch callback. *)
Theorem route_open_accept (Q : unit → W → Prop) h f w :
  FKind f = KIND_OPEN → mmu (mux w) = false → streams (mux w) !! StreamId f = None →
  (0 < maxStreams (mux w) → Z.of_nat (size (streams (mux w))) < maxStreams (mux w)) →
  0 < muxWindow (mux w) →
  (∀ s, heap (opened f w) = heap w ++ [s] → sid s = StreamId f → method s = FMethod f →
     header s = Headers f → recvItems s = [] → sendWindow s = muxWindow (mux w) →
     streams (mux (opened f w)) = <[StreamId f := length (heap w)]> (streams (mux w)) →
     total Q (h (length (heap w))) (opened f w)) →
  total Q (route (Some h) f) w.
Proof.
  intros Hk Hm Hp Hmax Hwin Hh. unfold route. rewrite Hk. unfold route_open.
  apply total_bind, total_lookup_stream; [done|]. rewrite Hp.
  apply total_bind, total_mux_locked; [done|]. simpl.
  replace ((0 <? maxStreams (mux w)) &&
    (maxStreams (mux w) <=? Z.of_nat (size (streams (mux w))))) with false
    by (symmetry; apply andb_false_iff; lia).
  destruct (open_stream_heap f w) as (Hlen & Hmux & s & Hheap & ? & ? & ? & ? & _ & _ & _ & Hw).
  apply total_bind, total_update. rewrite Hlen.
  apply total_bind, total_mux_locked; [by rewrite Hmux|]. simpl.
  apply (Hh s); try done; [by apply Hw|]. unfold opened. simpl. by rewrite Hmux.
Qed.

(** ** Terminal frames, credit, half-close *)

Lemma route_lookup (Q : unit → W → Prop) onOpen f p w :
  FKind f ≠ KIND_OPEN → mmu (mux w) = false → streams (mux w) !! StreamId f = Some p →
  total Q (match FKind f with
    | KIND_HALF_CLOSE => on_stream_ p halfClose
    | KIND_HEADER => match onOpen with None => setLeadingHeader p (Headers f) | Some _ => Ret () end
    | KIND_WINDOW_UPDATE => creditSend p (Window f)
    | KIND_END | KIND_RST => signalEnd p f ;; remove (StreamId f)
    | _ => route_msg p f
    end) w → total Q (route onOpen f) w.
Proof.
  intros Hk Hm Hp HQ. unfold route.
  destruct (FKind f); try done; apply total_bind, total_lookup_stream; try done; by rewrite Hp.
Qed.

(** A frame for an id that is not registered changes nothing. *)
Theorem route_unknown_id onOpen f w :
  FKind f ≠ KIND_OPEN → mmu (mux w) = false → streams (mux w) !! StreamId f = None →
  total (λ _ w', w' = w) (route onOpen f) w.
Proof.
  intros Hk Hm Hp. unfold route.
  destruct (FKind f); try done; apply total_bind, total_lookup_stream; try done; rewrite Hp;
    by apply total_ret.
Qed.

Lemma total_signalEnd (Q : unit → W → Prop) p s f w :
  heap w !! p = Some s → idle s →
  Q () (if ended s then w
        else set_stream p (wakeSenders (s <| endFrame := Some f |> <| ended := true |>)) w) →
  total Q (signalEnd p f) w.
Proof.
  intros Hp [Hmu Hb] HQ. unfold signalEnd. apply total_bind. eapply total_once; [done..|].
  unfold endOne_enter. destruct (ended s) eqn:E; simpl.
  { rewrite set_stream_id by done. by apply total_ret. }
  apply total_bind. eapply total_locked_; [by eapply lookup_set_stream|done|].
  apply total_bind. eapply total_on_stream_; [by do 2 eapply lookup_set_stream|].
  apply total_bind. eapply total_on_stream_; [by do 3 eapply lookup_set_stream|].
  eapply total_on_stream_; [by do 4 eapply lookup_set_stream|].
  rewrite !set_stream_set_stream. destruct s; simpl in *; by subst.
Qed.

(** C17: a terminal frame bypasses the backlog: it is recorded beside the buffered
    messages, which all stay, closes the stream for waiting receivers and
    senders, and takes the id out of the registry; a later terminal frame cannot
    replace the first. *)
Theorem route_terminal onOpen f p s w :
  FKind f = KIND_END ∨ FKind f = KIND_RST →
  unlocked w → streams (mux w) !! StreamId f = Some p → heap w !! p = Some s →
  total (λ _ w', streams (mux w') = delete (StreamId f) (streams (mux w)) ∧
      ∃ s', heap w' = <[p:=s']> (heap w) ∧ recvItems s' = recvItems s ∧
        ended s' = true ∧
        endFrame s' = (if ended s then endFrame s else Some f) ∧
        (ended s = false → condNotify s' = condWait s'))
    (route onOpen f) w.
Proof.
  intros Hk Hul Hid Hp. pose proof (unlocked_lookup _ _ _ Hul Hp) as Hidle.
  eapply route_lookup; [by destruct Hk as [-> | ->]|apply Hul|done|].
  assert (total (λ _ w', streams (mux w') = delete (StreamId f) (streams (mux w)) ∧
      ∃ s', heap w' = <[p:=s']> (heap w) ∧ recvItems s' = recvItems s ∧
        ended s' = true ∧
        endFrame s' = (if ended s then endFrame s else Some f) ∧
        (ended s = false → condNotify s' = condWait s'))
    (signalEnd p f ;; remove (StreamId f)) w) as Hgoal; [|by destruct Hk as [-> | ->]].
  apply total_bind. eapply total_signalEnd; [done..|]. destruct (ended s) eqn:E.
  - apply total_remove; [apply Hul|]. split; [done|]. exists s.
    by rewrite list_insert_id by done.
  - apply total_remove; [apply Hul|]. split; [done|]. by eexists.
Qed.

(** ** Messages *)

(** C18: a message for a stream whose backlog is over its ceiling resets that
    stream alone: it ends locally with ResourceExhausted, with its context
    cancelled and its senders woken, an RST is queued for the peer, the overflow
    is reported, and its id leaves the registry. *)
Theorem route_msg_overflow onOpen f p s w :
  FKind f = KIND_MSG → unlocked w → streams (mux w) !! StreamId f = Some p →
  heap w !! p = Some s → ctx_Err (ctxs w) (sctx s) = None → sctx s ≠ [] →
  recvItems s ≠ [] → maxRecvBytes s < recvBytes s →
  total (λ _ w', ∃ s',
      heap w' = <[p:=s']> (heap w) ∧
      recvItems s' = recvItems s ∧ ended s' = true ∧
      endSt s' = Some (mkStatus codes.ResourceExhausted "wsrpc: receive buffer overflow" []) ∧
      is_Some (ctx_Err (ctxs w') (sctx s')) ∧ condNotify s' = condWait s' ∧
      streams (mux w') = delete (StreamId f) (streams (mux w)) ∧
      events w' = stat_dispatch (stats (mux w)) (EvStreamRejected statsReasonRecvOverflow) (events w) ∧
      ctrlCh (mux w') = ctrlCh (mux (queue_ctrl
        (rst (StreamId f) codes.ResourceExhausted "receive buffer overflow") w)))
    (route onOpen f) w.
Proof.
  intros Hk Hul Hid Hp Hctx Hne Hitems Hover.
  pose proof (unlocked_lookup _ _ _ Hul Hp) as [Hmu Hb].
  eapply route_lookup; [by rewrite Hk|apply Hul|done|]. rewrite Hk.
  unfold route_msg, tryDeliver. apply total_bind, total_bind.
  eapply total_locked_ctx; [done..|]. unfold tryDeliver_lock. rewrite Hctx.
  rewrite decide_False by by intros []. destruct (recvItems s) as [|g q] eqn:Eq; [done|].
  replace (negb (len (g :: q) <=? 0) && (maxRecvBytes s <? recvBytes s)) with true
    by (symmetry; apply andb_true_iff; split; [done|lia]).
  rewrite set_stream_id by done. apply total_ret, total_bind, total_stat, total_bind.
  eapply total_failWith; [done|done|]. apply total_bind, total_writeCtrl, total_remove.
  { simpl. case_match; apply Hul. }
  eexists. split; [done|]. simpl. split_and!; try done.
  - destruct (sctx s) as [|n c]; [done|]. apply ctx_kill_done.
  - by case_match.
Qed.

(** A message within the ceiling of a live stream is appended to its backlog,
    its bytes are counted, a waiting receiver is signalled and the message is
    reported; no other stream changes. *)
Theorem route_msg_deliver onOpen f p s w :
  FKind f = KIND_MSG → unlocked w → streams (mux w) !! StreamId f = Some p →
  heap w !! p = Some s → ctx_Err (ctxs w) (sctx s) = None →
  recvItems s = [] ∨ recvBytes s ≤ maxRecvBytes s →
  total (λ _ w', w' = set_stream p
      (s <| recvItems ::= λ q, q ++ [f] |>
         <| recvBytes ::= λ x, wrap64 (x + payload_len f) |> <| recvSignal := true |>) w
      <| events ::= stat_dispatch (stats (mux w)) (EvMsgReceived (method s) (payload_len f)) |>)
    (route onOpen f) w.
Proof.
  intros Hk Hul Hid Hp Hctx Hroom.
  pose proof (unlocked_lookup _ _ _ Hul Hp) as [Hmu Hb].
  eapply route_lookup; [by rewrite Hk|apply Hul|done|]. rewrite Hk.
  unfold route_msg, tryDeliver. apply total_bind, total_bind.
  eapply total_locked_ctx; [done..|]. unfold tryDeliver_lock. rewrite Hctx.
  rewrite decide_False by by intros [].
  replace (negb (len (recvItems s) <=? 0) && (maxRecvBytes s <? recvBytes s)) with false
    by (symmetry; apply andb_false_iff; destruct Hroom as [-> |]; [by left|right; lia]).
  apply total_bind. eapply total_on_stream_; [by eapply lookup_set_stream|].
  apply total_ret, total_bind. eapply total_get_stream; [by do 2 eapply lookup_set_stream|].
  apply total_stat. by rewrite set_stream_set_stream.
Qed.

(** ** The read loop never waits for the wire *)

(** Two worlds that differ only in the connection, in who is writing to it, and in
    the control frames that wait to be written. *)
Definition wire_differs : relation W := λ w w',
  ∃ cn wm q lg, w' = w <| conn := cn |> <| wlog := lg |>
    <| mux ::= λ m, m <| writeMu := wm |> <| ctrlCh := q |> |>.

Lemma obl_locked_ctx {B} p (f : CtxStore → Stream → Stream * B) :
  oblivious wire_differs (locked_ctx p f).
Proof. intros w w' (cn & wm & q & lg & ->). simpl. by repeat case_match. Qed.
Lemma obl_on_stream {B} p (f : Stream → Stream * B) : oblivious wire_differs (on_stream p f).
Proof. intros w w' (cn & wm & q & lg & ->). simpl. by repeat case_match. Qed.
Lemma obl_once {B} p (f : Stream → Stream * B) : oblivious wire_differs (once p f).
Proof. intros w w' (cn & wm & q & lg & ->). simpl. by repeat case_match. Qed.
Lemma obl_mux_locked {B} (f : W → W * B) : oblivious wire_differs (mux_locked f).
Proof. intros w w' (cn & wm & q & lg & ->). simpl. by case_match. Qed.
Lemma obl_update {B} (f : W → W * B) : oblivious wire_differs (update f).
Proof. by intros w w' _. Qed.
Lemma obl_modify (f : W → W) : oblivious wire_differs (modify f).
Proof. by intros w w' _. Qed.

Ltac solve_oblivious :=
  repeat lazymatch goal with
  | |- oblivious _ (Ret _) => exact I
  | |- oblivious _ (Bind _ _) => split
  | |- oblivious _ (match ?x with _ => _ end) => destruct x
  | |- ∀ _, oblivious _ _ => intros ?
  | |- oblivious _ (locked _ _) => apply obl_locked_ctx
  | |- oblivious _ (locked_ _ _) => apply obl_locked_ctx
  | |- oblivious _ (locked_ctx _ _) => apply obl_locked_ctx
  | |- oblivious _ (on_stream_ _ _) => apply obl_on_stream
  | |- oblivious _ (get_stream _) => apply obl_on_stream
  | |- oblivious _ (once _ _) => apply obl_once
  | |- oblivious _ (remove _) => apply obl_mux_locked
  | |- oblivious _ (register _ _) => apply obl_mux_locked
  | |- oblivious _ (lookup_stream _) => apply obl_mux_locked
  | |- oblivious _ (mux_locked _) => apply obl_mux_locked
  | |- oblivious _ (update _) => apply obl_update
  | |- oblivious _ (stat _) => apply obl_modify
  | |- oblivious _ (writeCtrl _) => apply obl_modify
  | |- oblivious _ (ctx_cancel _) => apply obl_modify
  end.

(** C14: whatever the other goroutines do, at no point of the handling of a frame
    does the read loop wait for the connection: whether its next action can go
    on is the same with any state of the connection, with [writeMu] held or free,
    and with any control queue, full or empty.  (Handlers run in goroutines of
    their own, so they satisfy the hypothesis.) *)
Theorem route_never_waits_for_wire onOpen f (q : Prog W unit) w w' :
  (∀ h p, onOpen = Some h → oblivious wire_differs (h p)) →
  rtc (λ q1 q2, ∃ v v' ts, (v', q2, ts) ∈ pstep q1 v) (route onOpen f) q →
  wire_differs w w' → pstep q w = [] ↔ pstep q w' = [].
Proof.
  intros Hh Hrtc Hw. apply (oblivious_blocked wire_differs); [|done].
  assert (oblivious wire_differs (route onOpen f)) as H0.
  { unfold route, route_open, route_msg, tryDeliver, failWith, signalEnd, creditSend,
      setLeadingHeader. destruct (FKind f), onOpen; solve_oblivious; eauto. }
  induction Hrtc as [|q0 q1 q2 (v & v' & ts & Hs) _ IH]; [done|].
  apply IH. by eapply oblivious_step.
Qed.

(** Alone, the handling of any frame terminates without blocking. *)
Lemma unlocked_modify_mux g w :
  (∀ m, mmu (g m) = mmu m) → unlocked w → unlocked (set_mux g w).
Proof. intros Hg []. split; simpl; [by rewrite Hg|done]. Qed.

Lemma total_route_msg p f s w :
  unlocked w → heap w !! p = Some s → total (λ _, unlocked) (route_msg p f) w.
Proof.
  intros Hul Hp. pose proof (unlocked_lookup _ _ _ Hul Hp) as Hid. pose proof Hid as [Hmu Hb].
  unfold route_msg, tryDeliver. apply total_bind, total_bind.
  eapply total_locked_ctx; [done..|]. unfold tryDeliver_lock.
  case_decide; simpl; [|destruct (_ && _); simpl].
  - rewrite set_stream_id by done. apply total_ret, total_bind.
    eapply total_get_stream; [done|]. apply total_stat. by destruct Hul.
  - rewrite set_stream_id by done. apply total_ret, total_bind, total_stat, total_bind.
    eapply total_failWith; [done|done|]. apply total_bind, total_writeCtrl, total_remove.
    { simpl. case_match; apply Hul. }
    do 2 (apply unlocked_modify_mux; [intros; simpl; by try case_match|]).
    split; simpl; [apply Hul|]. apply Forall_insert; [apply Hul|done].
  - apply total_bind. eapply total_on_stream_; [by eapply lookup_set_stream|].
    apply total_ret, total_bind. eapply total_get_stream; [by do 2 eapply lookup_set_stream|].
    apply total_stat. rewrite set_stream_set_stream.
    assert (unlocked (set_stream p (signalRecv (s <| recvItems ::= λ q, q ++ [f] |>
      <| recvBytes ::= λ x, wrap64 (x + payload_len f) |>)) w)) as [] by by apply unlocked_set_stream.
    by split.
Qed.

(** C15: from any state in which no mutex is held, the read loop handles any frame
    to the end, without blocking, and leaves no mutex held, provided the
    dispatch callback does (it starts a goroutine). *)
Theorem route_returns onOpen f w :
  (∀ h p w, onOpen = Some h → unlocked w → total (λ _, unlocked) (h p) w) →
  unlocked w → registry_ok w → total (λ _, unlocked) (route onOpen f) w.
Proof.
  intros Hh Hul Hreg. destruct (decide (FKind f = KIND_OPEN)) as [Hk|Hk].
  - unfold route. rewrite Hk. destruct onOpen as [h|]; [|by apply total_ret].
    unfold route_open. apply total_bind, total_lookup_stream; [apply Hul|].
    destruct (streams (mux w) !! StreamId f); [apply total_writeCtrl|].
    { apply unlocked_modify_mux; [|done]. intros. by case_match. }
    apply total_bind, total_mux_locked; [apply Hul|]. destruct (_ && _); simpl.
    { apply total_bind, total_stat, total_writeCtrl.
      apply unlocked_modify_mux; [|by destruct Hul]. intros. by case_match. }
    destruct (open_stream_heap f w) as (Hlen & Hmux & s & Hheap & _ & _ & _ & _ & _ & _ & Hid & _).
    apply total_bind, total_update, total_bind, total_mux_locked; [by rewrite Hmux; apply Hul|].
    apply Hh; [done|]. apply unlocked_modify_mux; [done|].
    split; [rewrite Hmux; apply Hul|]. rewrite Hheap. apply Forall_app. split; [apply Hul|by constructor].
  - destruct (streams (mux w) !! StreamId f) as [p|] eqn:Ep.
    2:{ eapply total_mono; [|by apply route_unknown_id; [|apply Hul|]]. by intros _ w' ->. }
    destruct (Hreg _ _ Ep) as [s Hp]. pose proof (unlocked_lookup _ _ _ Hul Hp) as [Hmu Hb].
    eapply route_lookup; [done|apply Hul|done|].
    destruct (FKind f) eqn:Ef; try done; try (by eapply total_route_msg).
    + eapply total_on_stream_; [done|]. by apply unlocked_set_stream.
    + apply total_bind. eapply total_signalEnd; [done..|].
      destruct (ended s); (apply total_remove; [apply Hul|]); (apply unlocked_modify_mux; [done|]);
        [done|by apply unlocked_set_stream].
    + apply total_bind. eapply total_signalEnd; [done..|].
      destruct (ended s); (apply total_remove; [apply Hul|]); (apply unlocked_modify_mux; [done|]);
        [done|by apply unlocked_set_stream].
    + destruct onOpen; [by apply total_ret|]. eapply total_locked_; [done..|].
      by apply unlocked_set_stream.
    + unfold creditSend. destruct (Window f <=? 0); [by apply total_ret|].
      apply total_bind. eapply total_locked_; [done..|].
      eapply total_on_stream_; [by eapply lookup_set_stream|].
      rewrite set_stream_set_stream. by apply unlocked_set_stream.
Qed.

End routing.
