(* ===== verification/Lifecycle.v ===== *)
(** * The life of a stream

    What the methods of a stream return, run one at a time: receiving (buffered
    messages first, then the terminal status for ever), leading headers, the end
    of a server stream, teardown of a connection, stream ids and deadlines. *)

From S2P Require Import Prelude Goroutine Status Context Conn Strconv Stream World StreamOps MuxOps Alone.

(** ** The terminal result of a stream *)

(** What a receive returns once the stream has ended and its backlog is empty. *)
Definition terminal_error (s : Stream) : error :=
  let of_status st := if Code st =? codes.OK then ErrEOF else ErrStatus (Some st) in
  match endFrame s with
  | None => match endSt s with Some st => of_status st | None => ErrEOF end
  | Some f =>
      let st := statusFromProto (FStatus f) in
      match FKind f with
      | KIND_END => of_status st
      | KIND_RST =>
          if Code st =? codes.OK
          then ErrStatus (Some (mkStatus codes.Canceled "stream reset" []))
          else ErrStatus (Some st)
      | _ => ErrEOF
      end
  end.

(** The trailers once it has: those of the terminal frame, when it carries some. *)
Definition terminal_trailer (s : Stream) : gomap :=
  match endFrame s with
  | Some f =>
      match FKind f, Headers f with
      | KIND_END, Some h | KIND_RST, Some h => Some h
      | _, _ => trailer s
      end
  | None => trailer s
  end.

(** What a receive on an ended stream without backlog leaves as it is. *)
Record drained (s s' : Stream) : Prop := mk_drained {
  dr_items : recvItems s' = [];
  dr_ended : ended s' = ended s;
  dr_half : halfClosed s' = halfClosed s;
  dr_idle : idle s';
  dr_err : terminal_error s' = terminal_error s;
  dr_header : header s' = header s;
  dr_trailer : trailer s' = terminal_trailer s
}.

Lemma applyEnd_drained f s :
  idle s → recvItems s = [] → endFrame s = Some f → FKind f = KIND_END ∨ FKind f = KIND_RST →
  drained s (wakeSenders (applyEnd_lock f s)).
Proof.
  destruct s. intros [] ? Hf Hk. simpl in *. subst. unfold applyEnd_lock.
  destruct (Headers f) eqn:Eh; split; try done; unfold terminal_trailer; simpl; rewrite Eh;
    by destruct Hk as [-> | ->].
Qed.

#[local] Arguments set_stream : simpl never.

Section lifecycle.
Context {C : Type} `{!FrameConn C} `{!GrpcLib}.
Abbreviation W := (World C).
Implicit Types (w : W) (p : nat) (f : Frame).

(** A set of connection states in which writes return, with or without an error. *)
Record writable (P : C → Prop) : Prop := {
  wr_returns e f cn : P cn → WriteFrame e f cn ≠ [];
  wr_closed e f cn cn' r : P cn → (cn', r) ∈ WriteFrame e f cn → P cn'
}.

Definition ready (P : C → Prop) w : Prop := writeMu (mux w) = false ∧ P (conn w).

(** A step that changes at most the streams, the connection and the logs. *)
Record undisturbed w w' : Prop := mk_undisturbed {
  ud_ctxs : ctxs w' = ctxs w;
  ud_mux : mux w' = mux w;
  ud_sinks : sinks w' = sinks w;
  ud_gstreams : gstreams w' = gstreams w;
  ud_shims : shims w' = shims w
}.

#[global] Instance undisturbed_preorder : PreOrder undisturbed.
Proof. split; [by split|]. intros w1 w2 w3 [] []. split; congruence. Qed.

(** The frames an endpoint has written, but for window updates. *)
Definition replies w : list Frame := filter (λ f, FKind f ≠ KIND_WINDOW_UPDATE) (wlog w).


Lemma ready_can_write P w : writable P → ready P w → can_write w.
Proof. intros HP [??]. split; [done|]. intros. by apply (wr_returns P). Qed.

(** ** Receiving *)

Lemma total_pop_empty (Q : option Frame → W → Prop) p s w :
  heap w !! p = Some s → mu s = false → recvItems s = [] → Q None w →
  total Q (locked p popRecv) w.
Proof.
  intros Hp Hmu Hi HQ. eapply total_locked; [done..|]. unfold popRecv. rewrite Hi. simpl.
  by rewrite set_stream_id.
Qed.

(** [n] receives in a row. *)
Fixpoint recv_n (n : nat) c p : Prog W (list (bytes * option error)) :=
  match n with
  | O => Ret []
  | S n => r <- RecvRawContext c p ;; rs <- recv_n n c p ;; Ret (r :: rs)
  end.

Lemma returnCredit_lock_only n s :
  ∃ x, (returnCredit_lock n s).1 = s <| pendingCredit := x |>.
Proof. unfold returnCredit_lock. case_match; by eexists. Qed.

(** Consuming a message: its credit is accounted, and a window update may be
    written. *)
Lemma total_deliverPayload P (Q : bytes → W → Prop) p s f w :
  writable P → ready P w → heap w !! p = Some s → mu s = false →
  (∀ x w', heap w' = <[p:=s <| pendingCredit := x |>]> (heap w) → ready P w' →
     undisturbed w w' → replies w' = replies w → Q (Payload f) w') →
  total Q (deliverPayload p f) w.
Proof.
  intros HP [Hm Hc] Hp Hmu HQ. unfold deliverPayload, returnCredit. apply total_bind.
  destruct (payload_len f <=? 0) eqn:En.
  { apply total_ret, total_ret. apply (HQ (pendingCredit s)); try done.
    rewrite list_insert_id; [done|]. by destruct s. }
  apply total_bind. eapply total_locked; [done..|].
  destruct (returnCredit_lock_only (payload_len f) s) as [x Hx].
  destruct (returnCredit_lock (payload_len f) s) as [s' d]. simpl in Hx. subst s'. simpl.
  destruct (d =? 0); [by apply total_ret, total_ret, (HQ x)|].
  apply total_bind. eapply total_get_stream; [by eapply lookup_set_stream|].
  apply total_bind, total_mux_write; [split; [done|intros; by apply (wr_returns P)]|].
  intros cn r Hin. apply total_ret, total_ret. apply (HQ x); try done.
  - split; [done|]. by eapply (wr_closed P) in Hin.
  - unfold replies. simpl. destruct r; [done|]. by rewrite filter_app, app_nil_r.
Qed.

(** The stream [s] after its first message was taken, [q] being the others. *)
Definition consumed (x y : Z) (q : list Frame) (s : Stream) : Stream :=
  s <| recvItems := q |> <| recvBytes := y |> <| pendingCredit := x |>.

(** A buffered message is delivered first, whatever has happened to the stream:
    ended, half-closed, cancelled, or the caller's own context done. *)
Lemma recv_buffered P (Q : bytes * option error → W → Prop) c p s f q w :
  writable P → ready P w → heap w !! p = Some s → mu s = false → recvItems s = f :: q →
  (∀ x y w', heap w' = <[p:=consumed x y q s]> (heap w) → ready P w' → undisturbed w w' →
     replies w' = replies w → Q (Payload f, None) w') →
  total Q (RecvRawContext c p) w.
Proof.
  intros HP Hr Hp Hmu Hi HQ. apply total_iter, total_bind. eapply total_locked; [done..|].
  unfold popRecv. rewrite Hi. simpl. apply total_bind.
  eapply (total_deliverPayload P); [done|done|by eapply lookup_set_stream|done|].
  intros x w' Hh Hr' Hu Hk. apply total_ret. unfold set_stream in Hh. simpl in Hh.
  rewrite list_insert_insert_eq in Hh. by apply (HQ x (wrap64 (recvBytes s - payload_len f))); destruct Hu.
Qed.

Lemma total_applyEnd (Q : Status → W → Prop) p s f w :
  heap w !! p = Some s → mu s = false →
  Q (statusFromProto (FStatus f))
    (set_stream p (wakeSenders (applyEnd_lock f s)) w <| ctxs ::= cancel (sctx s) |>) →
  total Q (applyEnd p f) w.
Proof.
  intros Hp Hmu HQ. unfold applyEnd. apply total_bind. eapply total_locked_; [done..|].
  apply total_bind. eapply total_on_stream_; [by eapply lookup_set_stream|].
  apply total_bind. eapply total_get_stream; [by do 2 eapply lookup_set_stream|].
  apply total_bind, total_modify, total_ret. rewrite set_stream_set_stream.
  by destruct (Headers f) eqn:E; unfold applyEnd_lock in *; rewrite E in *.
Qed.

Lemma total_recvEnded (Q : bytes * option error → W → Prop) p s w :
  heap w !! p = Some s → idle s → recvItems s = [] →
  (∀ s' σ, drained s s' →
     Q ([], Some (terminal_error s)) (set_stream p s' w <| ctxs := σ |>)) →
  total Q (recvEnded p) w.
Proof.
  intros Hp Hid Hi HQ. pose proof Hid as [Hmu _].
  assert (terminal_trailer s = trailer s → Q ([], Some (terminal_error s)) w) as Hsame.
  { intros Htr. specialize (HQ s (ctxs w)). rewrite set_stream_id in HQ by done.
    destruct w. apply HQ. by split. }
  unfold recvEnded, terminal_error, terminal_trailer in *. apply total_bind.
  eapply total_pop_empty; [done..|]. apply total_bind. eapply total_locked_read; [done..|].
  destruct (endFrame s) as [f|] eqn:Ef.
  - pose proof (applyEnd_drained f s Hid Hi Ef) as Hdr.
    destruct (FKind f); try (by apply total_ret; auto);
      (apply total_bind; eapply total_applyEnd; [done..|]);
      specialize (HQ _ (cancel (sctx s) (ctxs w)) (Hdr ltac:(auto)));
      destruct (Code _ =? codes.OK); by apply total_ret.
  - apply total_bind. eapply total_locked_read; [done..|].
    destruct (endSt s) as [st|]; [|by apply total_ret; auto].
    destruct (Code st =? codes.OK); apply total_ret; auto.
Qed.

(** A receive with an empty backlog, in a state where a case of the [select] other
    than [recvSignal] is ready: a stale signal at most makes it loop once. *)
Lemma recv_wait (Q : bytes * option error → W → Prop) c p s w :
  heap w !! p = Some s → mu s = false → recvItems s = [] →
  recv_ready (ctxs w) c (s <| recvSignal := false |>) ≠ [] →
  (∀ sig b, b ∈ recv_ready (ctxs w) c (s <| recvSignal := false |>) →
     total (λ r w', ∃ x, r = inr x ∧ Q x w') (recv_case c p b)
       (set_stream p (s <| recvSignal := sig |>) w)) →
  total Q (RecvRawContext c p) w.
Proof.
  intros Hp Hmu Hi Hne Hcase.
  assert (∀ w1 s1, heap w1 !! p = Some s1 → ctxs w1 = ctxs w → mu s1 = false → recvItems s1 = [] →
    (∀ b, b ∈ recv_ready (ctxs w) c s1 →
      total (λ r w', match r with inl _ => total Q (RecvRawContext c p) w' | inr x => Q x w' end)
        (recv_case c p b)
        (match b with RbSignal => set_stream p (s1 <| recvSignal := false |>) w1 | _ => w1 end)) →
    recv_ready (ctxs w) c s1 ≠ [] → total Q (RecvRawContext c p) w1) as Hgen.
  { clear -Hp. intros w1 s1 Hp1 Hσ Hmu1 Hi1 Hc Hne. apply total_iter, total_bind.
    eapply total_pop_empty; [done..|]. rewrite <-Hσ in *.
    apply total_bind, total_act; rewrite Hp1; [by rewrite fmap_nil_iff|].
    intros w2 b (b' & Hb & Hin)%list_elem_of_fmap.
    specialize (Hc b' Hin). destruct b'; simplify_eq; (eapply total_mono; [|exact Hc]); by intros [[]|x]. }
  assert (∀ w' (b : RecvBranch),
    total (λ r w', ∃ x, r = inr x ∧ Q x w') (recv_case c p b) w' →
    total (λ r w', match r with inl _ => total Q (RecvRawContext c p) w' | inr x => Q x w' end)
      (recv_case c p b) w') as Hweak.
  { intros w' b. apply total_mono. by intros r w'' (x & -> & ?). }
  assert (∀ w1 sig, w1 = set_stream p (s <| recvSignal := sig |>) w → sig = false →
    total Q (RecvRawContext c p) w1) as Hquiet.
  { intros w1 sig -> ->. eapply (Hgen _ (s <| recvSignal := false |>)); try done.
    - by eapply lookup_set_stream.
    - intros b Hb. pose proof (Hweak _ _ (Hcase false b Hb)) as Hc.
      destruct b; try done. unfold recv_ready in Hb. simpl in Hb.
      repeat (apply elem_of_app in Hb as [Hb|Hb]); by apply elem_of_branch in Hb as []. }
  destruct (recvSignal s) eqn:Es.
  - eapply (Hgen w s); try done; [|unfold recv_ready; by rewrite Es].
    intros b Hb. unfold recv_ready in Hb. rewrite Es in Hb. apply elem_of_cons in Hb as [->|Hb].
    + apply total_ret. by eapply Hquiet.
    + assert (b ≠ RbSignal) as Hns.
      { intros ->. repeat (apply elem_of_app in Hb as [Hb|Hb]); by apply elem_of_branch in Hb as []. }
      pose proof (Hweak _ _ (Hcase true b Hb)) as Hc.
      replace (s <| recvSignal := true |>) with s in Hc by (destruct s; simpl in *; by subst).
      rewrite set_stream_id in Hc by done. by destruct b.
  - eapply Hquiet; [|done]. rewrite set_stream_id; [done|]. rewrite Hp. f_equal.
    destruct s; simpl in *; by subst.
Qed.

(** Once the stream has ended and its backlog is empty, a receive returns the
    terminal result; when the peer had half-closed before, the [select] may take
    that case instead, and return io.EOF. *)
Lemma recv_ended (Q : bytes * option error → W → Prop) p s w :
  heap w !! p = Some s → idle s → recvItems s = [] → ended s = true →
  (∀ s' σ, drained s s' →
     Q ([], Some (terminal_error s)) (set_stream p s' w <| ctxs := σ |>)) →
  (∀ sig, halfClosed s = true → Q ([], Some ErrEOF) (set_stream p (s <| recvSignal := sig |>) w)) →
  total Q (RecvRawContext Background p) w.
Proof.
  intros Hp Hid Hi He HQ Hhalf.
  eapply recv_wait; [done|apply Hid|done|unfold recv_ready; simpl; rewrite He; by destruct (halfClosed s)|].
  intros sig b Hb.
  assert (total (λ (r : unit + bytes * option error) w', ∃ x, r = inr x ∧ Q x w') (r <- recvEnded p ;; Ret (inr r))
    (set_stream p (s <| recvSignal := sig |>) w)) as Hend.
  { apply total_bind. eapply total_recvEnded; [by eapply lookup_set_stream|done..|].
    intros s' σ Hs'. apply total_ret. eexists. split; [done|].
    pose proof (set_stream_set_stream p s' (s <| recvSignal := sig |>) (w <| ctxs := σ |>)) as Heq.
    unfold set_stream in *. simpl in *. rewrite Heq. apply HQ. by destruct Hs'; split. }
  unfold recv_ready in Hb. simpl in Hb. rewrite He, app_nil_r in Hb.
  apply elem_of_app in Hb as [[Hh ->]%elem_of_branch|Hb].
  { apply total_bind, total_bind. eapply total_pop_empty; [by eapply lookup_set_stream|apply Hid|done|].
    apply total_bind, total_ret, total_ret, total_ret. eexists. split; [done|]. by apply Hhalf. }
  apply elem_of_cons in Hb as [->|[_ ->]%elem_of_branch]; [done|].
  apply total_bind. eapply total_get_stream; [by eapply lookup_set_stream|]. simpl. by rewrite He.
Qed.

(** The stream after its backlog has become [q], and nothing else a receive returns
    has changed. *)
Record popped (q : list Frame) (s s' : Stream) : Prop := mk_popped {
  pp_items : recvItems s' = q;
  pp_ended : ended s' = ended s;
  pp_half : halfClosed s' = halfClosed s;
  pp_idle : idle s';
  pp_frame : endFrame s' = endFrame s;
  pp_status : endSt s' = endSt s;
  pp_header : header s' = header s;
  pp_trailer : trailer s' = trailer s
}.

(** What a receive on an ended stream gives to [Q]. *)
Definition received (P : C → Prop) (Q : bytes * option error → W → Prop) p (s : Stream) : Prop :=
  match recvItems s with
  | f :: q => ∀ s' w', heap w' !! p = Some s' → popped q s s' → ready P w' → Q (Payload f, None) w'
  | [] =>
      (∀ s' w', heap w' !! p = Some s' → drained s s' → Q ([], Some (terminal_error s)) w') ∧
      (halfClosed s = true → ∀ s' w', heap w' !! p = Some s' → popped [] s s' → Q ([], Some ErrEOF) w')
  end.

Lemma received_mono P (Q Q' : bytes * option error → W → Prop) p s :
  (∀ r w, Q r w → Q' r w) → received P Q p s → received P Q' p s.
Proof. intros HQ. unfold received. destruct (recvItems s); [intros [? ?]; split|]; eauto. Qed.

(** A pop that finds a message, which is delivered. *)
Lemma total_pop_some P (Q : bytes * option error → W → Prop) p s f q k w :
  writable P → ready P w → heap w !! p = Some s → idle s → recvItems s = f :: q →
  (∀ s' w', heap w' !! p = Some s' → popped q s s' → ready P w' → Q (Payload f, None) w') →
  total Q (o <- locked p popRecv ;;
    match o with Some f => b <- deliverPayload p f ;; Ret (b, None) | None => k end) w.
Proof.
  intros HP Hr Hp Hid Hi HQ. apply total_bind. eapply total_locked; [done|apply Hid|].
  unfold popRecv. rewrite Hi. simpl.
  apply total_bind. eapply (total_deliverPayload P); [done|done|by eapply lookup_set_stream|apply Hid|].
  intros x w' Hh' Hr' _ _. apply total_ret. assert (heap w' !! p = Some (s <| recvItems := q |>
    <| recvBytes := wrap64 (recvBytes s - payload_len f) |> <| pendingCredit := x |>)) as Hp'.
  { rewrite Hh'. apply list_lookup_insert_eq. unfold set_stream. simpl. rewrite length_insert.
    by eapply lookup_lt_Some. }
  eapply HQ; [exact Hp'|by split|done].
Qed.

Lemma recv_ended_any P (Q : bytes * option error → W → Prop) p s w :
  writable P → ready P w → heap w !! p = Some s → idle s → ended s = true → received P Q p s →
  total Q (RecvRawContext Background p) w.
Proof.
  intros HP Hr Hp Hid He HQ. unfold received in HQ. destruct (recvItems s) as [|f q] eqn:Hi.
  - destruct HQ as [HQ Hhalf]. eapply recv_ended; [done..| |].
    + intros s' σ Hs'. eapply HQ; [|done]. by eapply (lookup_set_stream p s).
    + intros sig Hh. eapply (Hhalf Hh); [by eapply lookup_set_stream|]. by split.
  - eapply (recv_buffered P); [done..|apply Hid|done|]. intros x y w' Hw' Hr' _ _.
    eapply (HQ (consumed x y q s)); [|by split|done].
    rewrite Hw'. apply list_lookup_insert_eq. by eapply lookup_lt_Some.
Qed.

(** The same for a receive that waits in its [select], wherever the backlog and the
    signals came from. *)
Lemma select_ended_any P (Q : bytes * option error → W → Prop) p s w :
  writable P → ready P w → heap w !! p = Some s → idle s → ended s = true → received P Q p s →
  total (λ r w', match r with inl _ => total Q (RecvRawContext Background p) w' | inr x => Q x w' end)
    (br <- recv_select Background p ;; recv_case Background p br) w.
Proof.
  intros HP Hr Hp Hid He HQ.
  assert (∀ w' (k : Prog W (bytes * option error)), total Q k w' →
    total (λ (r : unit + bytes * option error) w',
        match r with inl _ => total Q (RecvRawContext Background p) w' | inr x => Q x w' end)
      (r <- k ;; Ret (inr r)) w') as Hinr.
  { intros w' k Hk. apply total_bind. eapply total_mono; [|exact Hk]. intros x w'' Hx. by apply total_ret. }
  assert (total Q (pop_or p (Ret (Some ErrEOF))) w ∨ halfClosed s = false) as Hpop.
  { destruct (halfClosed s) eqn:Hh; [left|by right]. unfold received in HQ.
    destruct (recvItems s) as [|f q] eqn:Hi.
    - apply total_bind. eapply total_pop_empty; [done|apply Hid|done|]. apply total_bind, total_ret, total_ret.
      destruct HQ as [_ HQ]. eapply (HQ Hh s); [done|]. by split.
    - by eapply (total_pop_some P). }
  assert (total Q (recvEnded p) w) as Hend.
  { unfold received in HQ. destruct (recvItems s) as [|f q] eqn:Hi.
    - eapply total_recvEnded; [done..|]. intros s' σ Hs'. eapply HQ; [|done].
      by eapply (lookup_set_stream p s).
    - by eapply (total_pop_some P). }
  apply total_bind, total_act; rewrite Hp.
  { rewrite fmap_nil_iff. unfold recv_ready. rewrite He.
    by destruct (recvSignal s), (halfClosed s). }
  intros w1 b (b' & Hb & Hin)%list_elem_of_fmap. unfold recv_ready in Hin. rewrite He in Hin. simpl in Hin.
  rewrite !elem_of_app, elem_of_cons, elem_of_app, !elem_of_branch in Hin.
  destruct Hin as [[_ ->]|[[Hh ->]|[->|[[_ ->]|[]%not_elem_of_nil]]]]; simplify_eq.
  - apply total_ret. eapply (recv_ended_any P _ _ (s <| recvSignal := false |>)); try done.
    + by eapply lookup_set_stream.
    + unfold received in *. simpl. destruct (recvItems s); [destruct HQ as [HQ1 HQ2]; split|].
      * intros s' w' Hs' []. apply (HQ1 s' w'); [done|]. by split.
      * intros Hh s' w' Hs' []. apply (HQ2 Hh s' w'); [done|]. by split.
      * intros s' w' Hs' []. apply (HQ s' w'); [done|]. by split.
  - apply Hinr. by destruct Hpop as [|Hh']; [|rewrite Hh in Hh'].
  - by apply Hinr.
  - apply total_bind. eapply total_get_stream; [done|]. rewrite He. by apply Hinr.
Qed.

(** On a half-closed live stream without backlog, io.EOF. *)
Lemma recv_eof (Q : bytes * option error → W → Prop) p s w :
  heap w !! p = Some s → mu s = false → recvItems s = [] → ended s = false → halfClosed s = true →
  ctx_Err (ctxs w) (sctx s) = None →
  (∀ sig, Q ([], Some ErrEOF) (set_stream p (s <| recvSignal := sig |>) w)) →
  total Q (RecvRawContext Background p) w.
Proof.
  intros Hp Hmu Hi He Hh Hc HQ.
  eapply recv_wait; [done..|unfold recv_ready; simpl; by rewrite Hh, He|].
  intros sig b Hb. unfold recv_ready in Hb. simpl in Hb. rewrite Hh, He, Hc in Hb. simpl in Hb.
  inv_elem. unfold pop_or. apply total_bind, total_bind.
  eapply total_pop_empty; [by eapply lookup_set_stream|done..|].
  apply total_bind, total_ret, total_ret, total_ret. by eexists.
Qed.

(** [k] receives that all return one of [R] and keep [I]. *)
Lemma total_recv_n_const (I : W → Prop) (R : bytes * option error → Prop) c p k w :
  I w → (∀ w, I w → total (λ r w', R r ∧ I w') (RecvRawContext c p) w) →
  total (λ rs w', (length rs = k ∧ Forall R rs) ∧ I w') (recv_n k c p) w.
Proof.
  intros Hw Hstep. revert w Hw. induction k as [|k IH]; intros w Hw; simpl; [by apply total_ret|].
  apply total_bind. eapply total_mono; [|by apply Hstep]. intros r' w' [Hr Hw'].
  apply total_bind. eapply total_mono; [|by apply IH]. intros rs w'' [[<- ?] Hw''].
  apply total_ret. split; [|done]. split; [done|by constructor].
Qed.

(** Receives on a stream with a backlog: [Inv] is what the rest relies on. *)
Lemma total_recv_n_drain P (Inv : Stream → W → Prop) (R : bytes * option error → Prop) c p k s w :
  writable P →
  (∀ s w, Inv s w → ready P w ∧ heap w !! p = Some s ∧ idle s) →
  (∀ s f q s' w w', Inv s w → recvItems s = f :: q → heap w' = <[p:=s']> (heap w) → ready P w' →
     ctxs w' = ctxs w → mux w' = mux w → recvItems s' = q → ended s' = ended s →
     halfClosed s' = halfClosed s → endFrame s' = endFrame s → endSt s' = endSt s →
     sctx s' = sctx s → idle s' → Inv s' w') →
  (∀ s w, Inv s w → recvItems s = [] →
     total (λ rs _, length rs = k ∧ Forall R rs) (recv_n k c p) w) →
  Inv s w →
  total (λ rs _, ∃ es, rs = ((λ f, (Payload f, None)) <$> recvItems s) ++ es ∧
      length es = k ∧ Forall R es)
    (recv_n (length (recvItems s) + k) c p) w.
Proof.
  intros HP Hinv Hpres Hend. remember (recvItems s) as q eqn:Hq.
  revert s w Hq. induction q as [|f q IH]; intros s w Hq HI; simpl.
  { eapply total_mono; [|by eapply Hend]. intros rs w' Hrs. by exists rs. }
  destruct (Hinv _ _ HI) as (Hr & Hp & [Hmu Hb]).
  apply total_bind. eapply (recv_buffered P); [done..|].
  intros x y w' Hh Hr' [Hσ Hmx _ _ _] _.
  apply total_bind. eapply total_mono; [|apply (IH (consumed x y q s) w'); [done|]].
  - intros rs w'' (es & -> & ?). apply total_ret. by exists es.
  - by eapply Hpres.
Qed.

(** C13: drain first.  On a stream that has ended (END, RST, a local end or a lost
    connection) successive receives return every buffered message, in order and
    exactly once, and every later receive returns the terminal status; if the peer
    had half-closed its side before, a later receive may return io.EOF instead of
    the status, whatever that is. *)
Theorem recv_drains_then_ends P p s k w :
  writable P → ready P w → heap w !! p = Some s → idle s → ended s = true →
  total (λ rs _, ∃ es, rs = ((λ f, (Payload f, None)) <$> recvItems s) ++ es ∧ length es = k ∧
      Forall (λ e, e = ([], Some (terminal_error s)) ∨ halfClosed s = true ∧ e = ([], Some ErrEOF)) es)
    (recv_n (length (recvItems s) + k) Background p) w.
Proof.
  intros HP Hr Hp Hid He.
  apply (total_recv_n_drain P (λ s' w', ready P w' ∧ heap w' !! p = Some s' ∧ idle s' ∧
    ended s' = true ∧ halfClosed s' = halfClosed s ∧ terminal_error s' = terminal_error s)); try done.
  - naive_solver.
  - intros s1 f q s2 w1 w2 (Hr1 & Hp1 & Hid1 & He1 & Hh1 & Ht1) Hi Hw2 Hr2 Hσ Hm Hi2 He2 Hh2 Hef Hes _ Hid2.
    split_and!; try done; try congruence.
    + rewrite Hw2. apply list_lookup_insert_eq. by eapply lookup_lt_Some.
    + rewrite <-Ht1. unfold terminal_error. by rewrite Hef, Hes.
  - intros s1 w1 (Hr1 & Hp1 & Hid1 & He1 & Hh1 & Ht1) Hi1.
    eapply total_mono; [|apply (total_recv_n_const (λ w', ∃ s', heap w' !! p = Some s' ∧
      idle s' ∧ recvItems s' = [] ∧ ended s' = true ∧ halfClosed s' = halfClosed s ∧
      terminal_error s' = terminal_error s))]; [by intros rs w' [? _]|by exists s1|].
    intros w2 (s2 & Hp2 & Hid2 & Hi2 & He2 & Hh2 & Ht2). eapply recv_ended; [done..| |].
    + intros s3 σ [Hi3 He3 Hh3 Hid3 Ht3 _ _]. rewrite Ht2. split; [by left|].
      exists s3. split_and!; try congruence; try done. by eapply (lookup_set_stream p s2).
    + intros sig Hh. split; [right; by rewrite <-Hh2|]. exists (s2 <| recvSignal := sig |>).
      split_and!; try done. by eapply lookup_set_stream.
Qed.

(** After the peer half-closed a live stream, successive receives return every
    buffered message in order and exactly once, and every later one io.EOF. *)
Theorem recv_drains_then_eof P p s k w :
  writable P → ready P w → heap w !! p = Some s → idle s →
  ended s = false → halfClosed s = true → ctx_Err (ctxs w) (sctx s) = None →
  total (λ rs _, rs = ((λ f, (Payload f, None)) <$> recvItems s) ++ replicate k ([], Some ErrEOF))
    (recv_n (length (recvItems s) + k) Background p) w.
Proof.
  intros HP Hr Hp Hid He Hh Hctx.
  eapply total_mono; [|apply (total_recv_n_drain P (λ s' w', ready P w' ∧ heap w' !! p = Some s' ∧ idle s' ∧
    ended s' = false ∧ halfClosed s' = true ∧ ctx_Err (ctxs w') (sctx s') = None)
    (λ r, r = ([], Some ErrEOF)))]; try done.
  - intros rs w' (es & -> & <- & Hes). f_equal. symmetry. apply replicate_as_Forall_2; [done|].
    eapply Forall_impl; [exact Hes|]. by intros ? ->.
  - naive_solver.
  - intros s1 f q s2 w1 w2 (Hr1 & Hp1 & Hid1 & He1 & Hh1 & Hc1) Hi Hw2 Hr2 Hσ Hm Hi2 He2 Hh2 _ _ Hsc Hid2.
    split_and!; try done; try congruence.
    rewrite Hw2. apply list_lookup_insert_eq. by eapply lookup_lt_Some.
  - intros s1 w1 (_ & Hp1 & Hid1 & He1 & Hh1 & Hc1) Hi1.
    eapply total_mono; [|apply (total_recv_n_const (λ w', ∃ s', heap w' !! p = Some s' ∧
      idle s' ∧ recvItems s' = [] ∧ ended s' = false ∧ halfClosed s' = true ∧
      ctx_Err (ctxs w') (sctx s') = None))]; [by intros rs w' [? _]|by exists s1|].
    intros w2 (s2 & Hp2 & Hid2 & Hi2 & He2 & Hh2 & Hc2).
    eapply recv_eof; [done|apply Hid2|done..|]. intros sig. split; [done|].
    exists (s2 <| recvSignal := sig |>). split_and!; try done. by eapply lookup_set_stream.
Qed.

(** The stream after a receive that ended with the caller's own context: at most a
    stale wake-up was consumed. *)
Definition untouched (s s' : Stream) : Prop := ∃ sig, s' = s <| recvSignal := sig |>.

(** A receive bounded by a context that is done, on a live stream with nothing
    to receive, returns that context's error and takes nothing: the stream is as
    it was for the next receive. *)
Theorem recv_caller_done c e p s w :
  heap w !! p = Some s → mu s = false → recvItems s = [] →
  ended s = false → halfClosed s = false → ctx_Err (ctxs w) (sctx s) = None →
  ctx_Err (ctxs w) c = Some e →
  total (λ r w', r = ([], Some e) ∧ ∃ s', untouched s s' ∧ w' = set_stream p s' w)
    (RecvRawContext c p) w.
Proof.
  intros Hp Hmu Hi He Hh Hs Hc.
  eapply recv_wait; [done..|unfold recv_ready; simpl; by rewrite Hh, He, Hs, Hc|].
  intros sig b Hb. unfold recv_ready in Hb. simpl in Hb. rewrite Hh, He, Hs, Hc in Hb. simpl in Hb.
  inv_elem. apply total_bind, total_read, total_ret. eexists. split; [done|]. simpl. rewrite Hc.
  split; [done|]. eexists. split; [by eexists|done].
Qed.

(** ** Leading headers *)

Lemma SendHeader_refused p s md w :
  heap w !! p = Some s → mu s = false → headerSent s || msgSent s = true →
  total (λ r w', r = Some (Errorf codes.FailedPrecondition "wsrpc: headers already sent") ∧ w' = w)
    (SendHeader p md) w.
Proof.
  intros Hp Hmu Hs. unfold SendHeader. apply total_bind. eapply total_locked; [done..|].
  unfold SendHeader_lock. rewrite Hs. simpl. rewrite set_stream_id by done. by apply total_ret.
Qed.

(** The first [SendHeader] hands the HEADER frame to the connection. *)
Definition header_frame (id : Z) (md : gomap) : Frame :=
  (frame id KIND_HEADER) <| Headers := md |>.

Definition msg_frame (id : Z) (b : bytes) : Frame := (frame id KIND_MSG) <| Payload := b |>.

Lemma total_SendHeader (Q : option error → W → Prop) p s md w :
  can_write w → heap w !! p = Some s → mu s = false → headerSent s || msgSent s = false →
  (∀ cn r, (cn, r) ∈ WriteFrame (ctx_Err (ctxs w) (sctx s)) (header_frame (sid s) md) (conn w) →
     Q r (set_stream p (s <| headerSent := true |>) w <| conn := cn |>
       <| wlog ::= λ l, match r with None => l ++ [header_frame (sid s) md] | Some _ => l end |>)) →
  total Q (SendHeader p md) w.
Proof.
  intros Hw Hp Hmu Hs HQ. unfold SendHeader. apply total_bind. eapply total_locked; [done..|].
  unfold SendHeader_lock. rewrite Hs. simpl. apply total_bind.
  eapply total_get_stream; [by eapply lookup_set_stream|].
  apply total_mux_write; [by destruct Hw|]. intros cn r Hin. by apply HQ.
Qed.

(** The wait loop takes the credit at once when there is some. *)
Lemma total_send_wait (Q : option error → W → Prop) p s n w :
  heap w !! p = Some s → mu s = false → 0 < sendWindow s →
  Q None (set_stream p (send_take n s) w) → total Q (send_wait p n) w.
Proof.
  intros Hp Hmu Hwin HQ. apply total_iter, total_bind.
  eapply total_locked_ctx; [done..|]. unfold send_check.
  rewrite (proj2 (Z.leb_gt _ _) Hwin). by apply total_ret.
Qed.

(** What [SendRaw] does after it. *)
Definition send_rest p (b : bytes) (blocked : option error) : Prog W (option error) :=
  match blocked with
  | Some e => Ret (Some e)
  | None =>
      s <- get_stream p ;;
      err <- mux_write (sctx s) (msg_frame (sid s) b) ;;
      match err with
      | Some e => Ret (Some e)
      | None => stat (EvMsgSent (method s) (len b)) ;; Ret None
      end
  end.

Lemma total_send_rest (Q : option error → W → Prop) p s b w :
  can_write w → heap w !! p = Some s →
  (∀ cn r, (cn, r) ∈ WriteFrame (ctx_Err (ctxs w) (sctx s)) (msg_frame (sid s) b) (conn w) →
     Q r (w <| conn := cn |>
       <| wlog ::= λ l, match r with None => l ++ [msg_frame (sid s) b] | Some _ => l end |>
       <| events ::= match r with
            | None => stat_dispatch (stats (mux w)) (EvMsgSent (method s) (len b))
            | Some _ => id
            end |>)) →
  total Q (send_rest p b None) w.
Proof.
  intros Hw Hp HQ. apply total_bind. eapply total_get_stream; [done|].
  apply total_bind, total_mux_write; [done|]. intros cn [e|] Hin; apply HQ in Hin.
  - by apply total_ret.
  - by apply total_bind, total_modify, total_ret.
Qed.

(** A [SendRaw] with credit hands the MSG frame to the connection. *)
Lemma total_SendRaw (Q : option error → W → Prop) p s b w :
  can_write w → heap w !! p = Some s → mu s = false → 0 < sendWindow s →
  (∀ cn r, (cn, r) ∈ WriteFrame (ctx_Err (ctxs w) (sctx s)) (msg_frame (sid s) b) (conn w) →
     Q r (set_stream p (send_take (len b) s) w <| conn := cn |>
       <| wlog ::= λ l, match r with None => l ++ [msg_frame (sid s) b] | Some _ => l end |>
       <| events ::= match r with
            | None => stat_dispatch (stats (mux w)) (EvMsgSent (method s) (len b))
            | Some _ => id
            end |>)) →
  total Q (SendRaw p b) w.
Proof.
  intros Hw Hp Hmu Hwin HQ. apply total_bind. eapply total_send_wait; [done..|].
  eapply (total_send_rest _ _ (send_take (len b) s)); [by destruct Hw|by eapply lookup_set_stream|exact HQ].
Qed.

(** What [SendHeader] or a message leaves: no header can follow. *)
Definition header_closed p w : Prop :=
  ∃ s, heap w !! p = Some s ∧ mu s = false ∧ headerSent s || msgSent s = true.

(** The leading header is sent at most once and never after a message: once a
    [SendHeader] ran (even if its write failed) or a [SendRaw] wrote its message,
    every further [SendHeader] returns FailedPrecondition, writes nothing and
    changes nothing; the first one writes exactly the HEADER frame. *)
Theorem send_header_once p s md b w :
  can_write w → heap w !! p = Some s → mu s = false → 0 < sendWindow s →
  total (λ r w', header_closed p w' ∧
      (headerSent s || msgSent s = false → r = None →
         wlog w' = wlog w ++ [header_frame (sid s) md]))
    (SendHeader p md) w ∧
  total (λ _, header_closed p) (SendRaw p b) w ∧
  (∀ md' w', header_closed p w' →
     total (λ r w'', r = Some (Errorf codes.FailedPrecondition "wsrpc: headers already sent") ∧
       w'' = w') (SendHeader p md') w').
Proof.
  intros Hw Hp Hmu Hwin. split_and!.
  - destruct (headerSent s || msgSent s) eqn:Es.
    { eapply total_mono; [|by eapply SendHeader_refused].
      intros r w' [-> ->]. split; [by exists s|done]. }
    eapply total_SendHeader; [done..|]. intros cn r _. split.
    + exists (s <| headerSent := true |>). by split_and!; [exact (lookup_set_stream p s _ w Hp)|..].
    + by intros _ ->.
  - eapply total_SendRaw; [done..|]. intros cn r _. exists (send_take (len b) s).
    split_and!; [exact (lookup_set_stream p s _ w Hp)|done|]. simpl. by rewrite orb_true_r.
  - intros md' w' (s' & Hp' & Hmu' & Hs'). by eapply SendHeader_refused.
Qed.

(** ** Sending on a connection that works *)

(** Connection states in which a write under a live context succeeds. *)
Record lossless (P : C → Prop) : Prop := {
  ll_writable : writable P;
  ll_ok f cn cn' r : P cn → (cn', r) ∈ WriteFrame None f cn → r = None
}.

(** A stream on which nothing was sent yet, with credit, under a live context. *)
Record sendable (P : C → Prop) p (s : Stream) w : Prop := mk_sendable {
  sb_stream : heap w !! p = Some s;
  sb_mu : mu s = false;
  sb_credit : 0 < sendWindow s;
  sb_live : ctx_Err (ctxs w) (sctx s) = None;
  sb_ready : ready P w
}.

Lemma total_header_lossless P (Q : option error → W → Prop) p s md w :
  lossless P → sendable P p s w → headerSent s || msgSent s = false →
  (∀ w', heap w' = <[p:=s <| headerSent := true |>]> (heap w) →
     wlog w' = wlog w ++ [header_frame (sid s) md] → undisturbed w w' →
     sendable P p (s <| headerSent := true |>) w' → Q None w') →
  total Q (SendHeader p md) w.
Proof.
  intros [HP Hok] [Hp Hmu Hwin Hlive Hr] Hs HQ.
  eapply total_SendHeader; [by eapply ready_can_write|done..|]. intros cn r Hin. rewrite Hlive in Hin.
  destruct Hr as [Hwm Hc]. pose proof (Hok _ _ _ _ Hc Hin) as ->.
  apply HQ; try done. split; try done; [exact (lookup_set_stream p s _ w Hp)|].
  split; [done|]. by eapply (wr_closed P).
Qed.

Lemma total_send_lossless P (Q : option error → W → Prop) p s b w :
  lossless P → sendable P p s w →
  (∀ w', heap w' = <[p:=send_take (len b) s]> (heap w) →
     wlog w' = wlog w ++ [msg_frame (sid s) b] → undisturbed w w' → ready P w' → Q None w') →
  total Q (SendRaw p b) w.
Proof.
  intros [HP Hok] [Hp Hmu Hwin Hlive Hr] HQ.
  eapply total_SendRaw; [by eapply ready_can_write|done..|]. intros cn r Hin. rewrite Hlive in Hin.
  destruct Hr as [Hwm Hc]. pose proof (Hok _ _ _ _ Hc Hin) as ->. apply HQ; try done.
  split; [done|]. by eapply (wr_closed P).
Qed.

(** ** The end of a server stream *)

(** The END frame of [end]. *)
Definition end_frame (id : Z) (st : option Status) (trailers : gomap) : Frame :=
  (frame id KIND_END) <| Headers := trailers |> <| FStatus := Some (statusToProto st) |>.

Lemma total_end (Q : option error → W → Prop) p s st tr w :
  can_write w → heap w !! p = Some s → idle s →
  (∀ cn err, (cn, err) ∈ WriteFrame (ctx_Err (ctxs w) (mctx (mux w)))
                           (end_frame (sid s) st tr) (conn w) →
     Q err (set_stream p (wakeSenders (s <| endSt := st |>) <| ended := true |>) w
       <| conn := cn |>
       <| wlog ::= λ l, match err with None => l ++ [end_frame (sid s) st tr] | Some _ => l end |>
       <| ctxs ::= cancel (sctx s) |>)) →
  total Q (end_ p st tr) w.
Proof.
  intros Hw Hp Hid HQ. unfold end_. apply total_bind. eapply total_get_stream; [done|].
  apply total_bind, total_read, total_bind, total_mux_write; [done|].
  intros cn err Hin. apply total_bind. eapply (total_failWith _ _ s); [done|done|].
  apply total_ret. exact (HQ cn err Hin).
Qed.

(** [end] hands the END frame to the connection under the context of the mux,
    so an expired or cancelled stream context does not suppress it, and, whether
    or not the write succeeds, the stream has ended locally: the status is
    recorded, receivers and senders are released and its context is done. *)
Theorem end_writes_and_terminates p s st tr w :
  can_write w → heap w !! p = Some s → idle s → sctx s ≠ [] →
  total (λ err w', ∃ s',
      heap w' = <[p:=s']> (heap w) ∧ ended s' = true ∧ endSt s' = st ∧
      condNotify s' = condWait s' ∧ is_Some (ctx_Err (ctxs w') (sctx s')) ∧
      (conn w', err) ∈ WriteFrame (ctx_Err (ctxs w) (mctx (mux w)))
                         (end_frame (sid s) st tr) (conn w) ∧
      wlog w' = wlog w ++ (match err with None => [end_frame (sid s) st tr] | Some _ => [] end))
    (end_ p st tr) w.
Proof.
  intros Hw Hp Hid Hne. eapply total_end; [done..|]. intros cn err Hin.
  eexists. split; [done|]. simpl. split_and!; try done.
  - destruct (sctx s) as [|n c]; [done|]. apply ctx_kill_done.
  - by destruct err; rewrite ?app_nil_r.
Qed.

(** ** Teardown of a connection *)

(** A stream that [failWith] ended. *)
Record failed (st : option Status) (s s' : Stream) (σ : CtxStore) : Prop := mk_failed {
  fl_items : recvItems s' = recvItems s;
  fl_ended : ended s' = true;
  fl_status : endSt s' = st;
  fl_woken : condNotify s' = condWait s';
  fl_sctx : sctx s' = sctx s;
  fl_done : is_Some (ctx_Err σ (sctx s'))
}.

(** After the streams of [l] were failed. *)
Record failed_all (st : option Status) (l : list (Z * nat)) w w' : Prop := mk_failed_all {
  fa_mux : mux w' = (mux w) <| streams ::= λ m, foldl (λ m x, delete x.1 m) m l |>;
  fa_ctxs : ctx_le (ctxs w) (ctxs w');
  fa_heap q s : heap w !! q = Some s →
    ∃ s', heap w' !! q = Some s' ∧ idle s' ∧
      (if decide (q ∈ l.*2) then failed st s s' (ctxs w') else s' = s)
}.

Lemma failed_trans st s s1 s2 σ σ' : failed st s s1 σ → failed st s1 s2 σ' → failed st s s2 σ'.
Proof. intros [] []. split; congruence. Qed.

Lemma failed_mono st s s1 σ σ' : ctx_le σ σ' → failed st s s1 σ → failed st s s1 σ'.
Proof. intros Hle []. split; try done. by eapply ctx_Err_mono. Qed.

(** The heap after one round of the loop. *)
Lemma failWith_round err id p s w :
  heap w !! p = Some s → idle s → sctx s ≠ [] →
  total (λ _ w1, mux w1 = (mux w) <| streams ::= delete id |> ∧ ctx_le (ctxs w) (ctxs w1) ∧
      ∃ s1, heap w1 = <[p:=s1]> (heap w) ∧ idle s1 ∧
        failed (FromError (Some err)) s s1 (ctxs w1))
    (failWith p (Some err) ;; modify (set_mux (λ m, m <| streams ::= delete id |>))) w.
Proof.
  intros Hp Hid Hne. apply total_bind. eapply total_failWith; [done..|]. apply total_modify.
  split_and!; [done|apply ctx_kill_le|]. eexists. split_and!; [done|done|].
  split; try done. destruct s as [??[|n c]]; [done|]. apply ctx_kill_done.
Qed.

Lemma total_fail_loop err l w :
  (∀ q s, heap w !! q = Some s → idle s ∧ sctx s ≠ []) →
  (∀ q, q ∈ l.*2 → is_Some (heap w !! q)) →
  total (λ _ w', failed_all (FromError (Some err)) l w w')
    (for_each l (λ '(id, p),
      failWith p (Some err) ;; modify (set_mux (λ m, m <| streams ::= delete id |>)))) w.
Proof.
  revert w. induction l as [|[id p] l IH]; intros w Hidle Hl; simpl.
  { apply total_ret. split; [by destruct (mux w)|done|]. intros q s Hq. exists s.
    destruct (Hidle q s Hq). split_and!; [done..|]. by rewrite decide_False by by apply not_elem_of_nil. }
  destruct (Hl p) as [s Hp]; [by left|]. destruct (Hidle p s Hp) as [Hid Hne].
  apply total_bind. eapply total_mono; [|by eapply failWith_round].
  intros _ w1 (Hmux1 & Hσ1 & s1 & Hh1 & Hid1 & Hf1).
  assert (∀ q t, heap w1 !! q = Some t → q = p ∧ t = s1 ∨ q ≠ p ∧ heap w !! q = Some t) as Hheap.
  { intros q t. rewrite Hh1. destruct (decide (p = q)) as [->|].
    - rewrite list_lookup_insert_eq by (by eapply lookup_lt_Some). intros. simplify_eq. by left.
    - rewrite list_lookup_insert_ne by done. by right. }
  eapply total_mono; [|apply IH].
  - intros _ w2 [Hm2 Hσ2 Hh2]. split.
    + by rewrite Hm2, Hmux1.
    + by etrans.
    + intros q t Hq. destruct (decide (q = p)) as [->|Hqp].
      * simplify_eq. destruct (Hh2 p s1) as (s2 & Hs2 & Hid2 & Hf2).
        { rewrite Hh1. apply list_lookup_insert_eq. by eapply lookup_lt_Some. }
        exists s2. split_and!; [done..|]. rewrite decide_True by by left. case_decide.
        -- by eapply failed_trans.
        -- subst. by eapply failed_mono.
      * destruct (Hh2 q t) as (s2 & Hs2 & Hid2 & Hf2).
        { by rewrite Hh1, list_lookup_insert_ne. }
        exists s2. split_and!; [done..|]. simpl. case_decide as Hin; case_decide as Hin'; try done.
        -- exfalso. apply Hin'. by right.
        -- exfalso. apply elem_of_cons in Hin' as [?|?]; done.
  - intros q t [[-> ->]|[_ Hq]]%Hheap; [|by eapply Hidle].
    split; [done|]. by rewrite (fl_sctx _ _ _ _ Hf1).
  - intros q Hq. destruct (decide (q = p)) as [->|]; rewrite Hh1.
    + rewrite list_lookup_insert_eq by (by eapply lookup_lt_Some). done.
    + rewrite list_lookup_insert_ne by done. apply Hl. by right.
Qed.

Lemma foldl_delete_all (l : list (Z * nat)) (m : gmap Z nat) :
  (∀ id p, m !! id = Some p → (id, p) ∈ l) → foldl (λ m x, delete x.1 m) m l = ∅.
Proof.
  revert m. induction l as [|[id p] l IH]; intros m Hm; simpl.
  - apply map_empty. intros i. destruct (m !! i) eqn:E; [|done]. by apply Hm, not_elem_of_nil in E.
  - apply IH. intros i q [Hne Hq]%lookup_delete_Some. apply Hm, elem_of_cons in Hq as [|]; [|done].
    by simplify_eq.
Qed.

(** C19: when the connection is lost or closed, every registered stream ends with
    the disconnect status, its backlog intact, its receivers and senders released
    and its context done; no other stream changes; the registry is empty and its
    mutex free. *)
Theorem failAll_ends_all err w :
  mmu (mux w) = false →
  (∀ q s, heap w !! q = Some s → idle s ∧ sctx s ≠ []) → registry_ok w →
  total (λ _ w', mux w' = (mux w) <| streams := ∅ |> ∧
      ∀ q s, heap w !! q = Some s → ∃ s', heap w' !! q = Some s' ∧
        (if decide (q ∈ (map_to_list (streams (mux w))).*2)
         then failed (FromError (Some err)) s s' (ctxs w') else s' = s))
    (failAll err) w.
Proof.
  intros Hm Hidle Hreg. unfold failAll. apply total_bind, total_act; rewrite Hm.
  { rewrite fmap_nil_iff. apply permutations_not_nil. }
  intros w1 l (l' & ? & Hl%permutations_Permutation)%list_elem_of_fmap. simplify_eq. apply total_bind. eapply total_mono; [|apply total_fail_loop].
  - intros _ w2 [Hmux _ Hheap]. apply total_modify. split.
    + simpl. rewrite Hmux. simpl. rewrite foldl_delete_all.
      * destruct (mux w); simpl in *. by subst.
      * intros id p. by rewrite <-Hl, elem_of_map_to_list.
    + intros q s Hq. destruct (Hheap q s Hq) as (s' & ? & _ & Hs'). exists s'. split; [done|].
      rewrite (decide_ext _ (q ∈ l'.*2)) by (by rewrite Hl). done.
  - done.
  - intros q ([id p] & -> & Hin)%list_elem_of_fmap. rewrite <-Hl, elem_of_map_to_list in Hin.
    by eapply (Hreg id).
Qed.

End lifecycle.

(** ** Stream ids *)

(** The ids of [n] successive client streams. *)
Fixpoint alloc_ids (n : nat) (m : Mux) : list Z :=
  match n with
  | O => []
  | S n => let '(m, id) := next_id m in id :: alloc_ids n m
  end.

Lemma alloc_ids_closed n m k :
  nextID m = wrapu32 (1 + 2 * k) →
  alloc_ids n m = (λ i, wrapu32 (1 + 2 * (k + Z.of_nat i))) <$> seq 0 n.
Proof.
  revert m k. induction n as [|n IH]; intros m k Hm; simpl; [done|]. f_equal.
  - rewrite Hm. unfold wrapu32. rewrite Zplus_mod_idemp_l, Zminus_mod_idemp_l. f_equal. lia.
  - rewrite (IH _ (k + 1)).
    + rewrite <-fmap_S_seq, <-list_fmap_compose. apply list_fmap_ext. intros i j _. simpl.
      f_equal. lia.
    + simpl. rewrite Hm. unfold wrapu32. rewrite Zplus_mod_idemp_l. f_equal. lia.
Qed.

(** The ids a connection gives to its client streams are odd uint32s, in the
    order 1, 3, 5, ...; the first 2^31 are pairwise distinct, and the next one
    starts again at 1. *)
Theorem client_ids_odd_distinct m n :
  nextID m = 1 →
  (Z.of_nat n ≤ 2^31 →
    alloc_ids n m = (λ i, 1 + 2 * Z.of_nat i) <$> seq 0 n ∧ NoDup (alloc_ids n m)) ∧
  Forall (λ id, is_uint32 id ∧ Z.odd id = true) (alloc_ids n m) ∧
  (∀ k, alloc_ids n m !! k = Some 1 ↔ (k < n)%nat ∧ (2^31 | Z.of_nat k)).
Proof.
  intros Hm. pose proof (alloc_ids_closed n m 0) as Hc. rewrite Hm in Hc. specialize (Hc eq_refl).
  split_and!.
  - intros Hn. assert (alloc_ids n m = (λ i, 1 + 2 * Z.of_nat i) <$> seq 0 n) as ->.
    { rewrite Hc. apply list_fmap_ext. intros k i Hi. apply lookup_seq in Hi as [-> ?].
      apply wrapu32_id. unfold is_uint32. lia. }
    split; [done|]. apply NoDup_fmap_2; [intros ???; lia|apply NoDup_seq].
  - rewrite Hc. apply Forall_fmap, Forall_true. intros i. split; [apply wrapu32_range|].
    unfold wrapu32. rewrite <-Z.bit0_odd, Z.mod_pow2_bits_low, Z.bit0_odd by lia.
    by rewrite Z.odd_add_mul_2.
  - intros k. rewrite Hc, list_lookup_fmap_Some. setoid_rewrite lookup_seq. split.
    + intros (i & Hw & -> & Hk). split; [lia|]. unfold wrapu32 in Hw.
      exists (Z.of_nat (0 + k) / 2^31).
      pose proof (Z.div_mod (1 + 2 * (0 + Z.of_nat (0 + k))) (2^32) ltac:(lia)). 
      pose proof (Z.div_mod (Z.of_nat (0+k)) (2^31) ltac:(lia)).
      pose proof (Z.mod_pos_bound (Z.of_nat (0+k)) (2^31) ltac:(lia)). lia.
    + intros [Hk [z Hz]]. exists k. split; [|by split]. unfold wrapu32.
      replace (1 + 2 * (0 + Z.of_nat k)) with (1 + z * 2^32) by lia.
      rewrite Z.mod_add by lia. by rewrite Z.mod_small by lia.
Qed.

(** ** Deadlines *)

(** The largest number of milliseconds that fits a [time.Duration]. *)
Definition max_millis : Z := 9223372036854.

Lemma millis_exact ms : 0 < ms ≤ max_millis → millis ms = ms * 1000000 ∧ 0 < millis ms.
Proof.
  unfold millis, max_millis. intros. rewrite wrap64_id by (unfold is_int64; lia). lia.
Qed.

Lemma deadline_headers_get dl h k :
  k ≠ timeoutHeader → gomap_get (deadline_headers dl h) k = gomap_get h k.
Proof.
  intros Hk. unfold deadline_headers. destruct dl as [ms|]; [|done]. destruct (0 <? ms); [|done].
  unfold gomap_get, gomap_merge. simpl. rewrite lookup_insert_ne by done.
  by destruct h as [h|]; simpl; rewrite (right_id ∅ (∪)).
Qed.

(** C32: a caller's deadline crosses the wire: the header the client adds for a
    remaining time of [ms] milliseconds makes the server derive a timeout context
    of exactly that duration, live at birth under a live connection; the
    caller's other headers are carried unchanged. *)
Theorem deadline_roundtrip c ms h σ :
  0 < ms ≤ max_millis → ctx_store_wf σ → ctx_Err σ c = None →
  open_ctx c (deadline_headers (Some ms) h) σ =
    ((WithTimeout c (ms * 1000000) σ).1, (WithTimeout c (ms * 1000000) σ).2,
     Some (WithTimeout c (ms * 1000000) σ).2) ∧
  ctx_Err (WithTimeout c (ms * 1000000) σ).1 (WithTimeout c (ms * 1000000) σ).2 = None ∧
  (∀ k, k ≠ timeoutHeader → gomap_get (deadline_headers (Some ms) h) k = gomap_get h k).
Proof.
  intros Hms Hσ Hc. destruct (millis_exact ms Hms) as [Hmi Hpos]. split_and!.
  - unfold open_ctx, gomap_get. simpl. rewrite (proj2 (Z.ltb_lt 0 ms)) by lia. simpl.
    rewrite lookup_insert_eq. simpl. rewrite decide_False by apply FormatInt_nonempty.
    rewrite ParseInt_FormatInt by (unfold is_int64, max_millis in *; lia).
    rewrite (proj2 (Z.ltb_lt 0 ms)) by lia. by rewrite Hmi.
  - unfold WithTimeout. simpl. rewrite (proj2 (Z.leb_gt (ms * 1000000) 0)) by lia.
    rewrite <-Hc. by apply (WithCancel_Err c).
  - intros k. apply deadline_headers_get.
Qed.

(** A [ws-timeout-ms] between the largest duration and its double overflows
    [time.Duration(ms)*time.Millisecond] to a negative duration: the stream of
    such an OPEN is born with its deadline already exceeded. *)
Theorem deadline_overflow c h v ms σ :
  gomap_get h timeoutHeader = v → ParseInt v = Some ms →
  max_millis < ms ≤ 2 * max_millis → ctx_store_wf σ → ctx_Err σ c = None →
  millis ms < 0 ∧
  ctx_Err (open_ctx c h σ).1.1 (open_ctx c h σ).1.2 = Some ErrDeadlineExceeded.
Proof.
  intros Hv Hms Hr Hσ Hc.
  assert (millis ms < 0) as Hneg.
  { unfold millis, max_millis, wrap64 in *.
    replace (ms * 1000000 + 2^63) with (ms * 1000000 - 2^63 + 1 * 2^64) by lia.
    rewrite Z.mod_add, Z.mod_small by lia. lia. }
  split; [done|]. unfold open_ctx. rewrite Hv, Hms.
  rewrite decide_False by (intros ->; by vm_compute in Hms).
  rewrite (proj2 (Z.ltb_lt 0 ms)) by (unfold max_millis in *; lia).
  unfold WithTimeout. rewrite (proj2 (Z.leb_le (millis ms) 0)) by lia.
  pose proof (WithCancel_Err c σ Hσ) as Hwc. rewrite Hc in Hwc.
  unfold WithCancel in *. cbn -[ctx_Err ctx_kill] in *.
  unfold ctx_kill. rewrite Hwc. simpl. by rewrite lookup_insert_eq.
Qed.
