(* ===== verification/FlowControl.v ===== *)
(** * Credit comes back

    Flow control, one stream seen from both ends: a sender that has used up its
    window is parked in [SendRaw]; the receiver takes what it has buffered, and
    with that gives credit back; the window updates reach the sender's [route],
    and the parked [SendRaw] goes on and writes its message.  The last part shows
    the limit of the account: [returnCredit] converts to a [uint32]. *)

From S2P Require Import Prelude Goroutine Status Context Conn Strconv Stream World StreamOps MuxOps Alone Routing Lifecycle.

(** A window update for stream [id]. *)
Definition update_frame (id d : Z) : Frame := (frame id KIND_WINDOW_UPDATE) <| Window := d |>.

(** [threshold] of [returnCredit], from the window. *)
Definition threshold (iw : Z) : Z := let t := Z.quot iw 2 in if t <? 1 then 1 else t.

(** Consuming [n] bytes when [x] are pending: below the threshold they are kept;
    otherwise all that is pending goes out in one window update. *)
Definition refund (iw x n : Z) : Z * list Z :=
  if n <=? 0 then (x, [])
  else if threshold iw <=? x + n then (0, [x + n]) else (x + n, []).

(** The credit of a backlog that is received. *)
Fixpoint refunds (iw x : Z) (q : list Frame) : Z * list Z :=
  match q with
  | [] => (x, [])
  | f :: q =>
      let r := refund iw x (payload_len f) in
      let rs := refunds iw r.1 q in (rs.1, r.2 ++ rs.2)
  end.

Abbreviation sum := (sum_by (λ d : Z, d)).

Lemma refund_sum iw x n :
  0 ≤ x < threshold iw → 0 ≤ n →
  0 ≤ (refund iw x n).1 < threshold iw ∧ sum (refund iw x n).2 + (refund iw x n).1 = x + n ∧
  Forall (λ d, 0 < d) (refund iw x n).2.
Proof.
  intros Hx Hn. assert (0 < threshold iw) by lia. unfold refund.
  destruct (Z.leb_spec n 0); simpl; [split_and!; [lia..|done]|].
  destruct (Z.leb_spec (threshold iw) (x + n)); simpl; split_and!; try lia; by repeat constructor; lia.
Qed.

Lemma refunds_sum iw x q :
  0 ≤ x < threshold iw →
  0 ≤ (refunds iw x q).1 < threshold iw ∧
  sum (refunds iw x q).2 + (refunds iw x q).1 = x + sum_by payload_len q ∧
  Forall (λ d, 0 < d) (refunds iw x q).2.
Proof.
  revert x. induction q as [|f q IH]; intros x Hx; simpl; [split_and!; [lia..|done]|].
  destruct (refund_sum iw x (payload_len f)) as (H1 & H2 & H3); [done|apply payload_len_nonneg|].
  destruct (IH _ H1) as (H4 & H5 & H6). rewrite sum_by_app.
  split_and!; [lia..|by apply Forall_app].
Qed.

#[local] Arguments set_stream : simpl never.

(** ** The receiver *)

Section receiver.
Context {C : Type} `{!FrameConn C} `{!GrpcLib}.
Abbreviation W := (World C).
Implicit Types (w : W) (p : nat).

(** The stream at [p], alive, with backlog [q] and [x] bytes of credit pending. *)
Record receiving (P : C → Prop) p (id iw x : Z) (q : list Frame) w : Prop := mk_receiving {
  rc_ready : ready P w;
  rc_stream : ∃ s, heap w !! p = Some s ∧ mu s = false ∧ sid s = id ∧ initialWindow s = iw ∧
    pendingCredit s = x ∧ recvItems s = q ∧ ctx_Err (ctxs w) (sctx s) = None
}.

(** A receive takes the first message and accounts for its credit. *)
Lemma total_recv_refund P (Q : bytes * option error → W → Prop) c p id iw x f q w :
  lossless P → receiving P p id iw x (f :: q) w → 0 ≤ x → x + payload_len f < 2^32 →
  (∀ w', receiving P p id iw (refund iw x (payload_len f)).1 q w' →
     wlog w' = wlog w ++ (update_frame id <$> (refund iw x (payload_len f)).2) →
     Q (Payload f, None) w') →
  total Q (RecvRawContext c p) w.
Proof.
  intros [HP Hok] [[Hwm Hc] (s & Hp & Hmu & Hid & Hiw & Hx & Hi & Hlive)] Hx0 Hlt HQ.
  apply total_iter, total_bind. eapply total_locked; [done..|]. unfold popRecv. rewrite Hi. simpl.
  apply total_bind, total_bind. unfold returnCredit, refund in *.
  destruct (Z.leb_spec (payload_len f) 0) as [|Hn].
  { apply total_ret, total_ret, total_ret. apply HQ; [|by rewrite app_nil_r].
    split; [done|]. eexists. by split_and!; [by eapply lookup_set_stream|..]. }
  apply total_bind. eapply total_locked; [by eapply lookup_set_stream|done|].
  unfold returnCredit_lock, credit_threshold. simpl. rewrite Hiw, Hx. fold (threshold iw).
  rewrite wrap64_id by (unfold is_int64; lia). rewrite set_stream_set_stream.
  destruct (threshold iw <=? x + payload_len f) eqn:Et; simpl.
  - rewrite wrapu32_id by (unfold is_uint32; lia). rewrite (proj2 (Z.eqb_neq _ _)) by lia.
    apply total_bind. eapply total_get_stream; [by eapply lookup_set_stream|].
    apply total_bind, total_mux_write; [split; [done|intros; by apply (wr_returns P)]|].
    intros cn r Hin. simpl in Hin. rewrite Hlive in Hin. pose proof (Hok _ _ _ _ Hc Hin) as ->.
    apply total_ret, total_ret, total_ret. apply HQ; simpl; [|by rewrite Hid].
    split; [split; [done|by eapply (wr_closed P)]|]. eexists.
    by split_and!; [by eapply (lookup_set_stream p s)|..].
  - apply total_ret, total_ret, total_ret. apply HQ; [|by rewrite app_nil_r].
    split; [done|]. eexists. by split_and!; [by eapply lookup_set_stream|..].
Qed.

(** Receiving a whole backlog. *)
Lemma total_recv_refunds P c p id iw x q w :
  lossless P → receiving P p id iw x q w → 0 ≤ x < threshold iw → x + sum_by payload_len q < 2^32 →
  total (λ (rs : list (bytes * option error)) w', rs = ((λ f, (Payload f, None)) <$> q) ∧
      receiving P p id iw (refunds iw x q).1 [] w' ∧
      wlog w' = wlog w ++ (update_frame id <$> (refunds iw x q).2))
    (recv_n (length q) c p) w.
Proof.
  intros HP. revert x w. induction q as [|f q IH]; intros x w Hw Hx Hlt; simpl.
  { apply total_ret. by rewrite app_nil_r. }
  simpl in Hlt. pose proof (payload_len_nonneg f) as Hn.
  pose proof (sum_by_nonneg payload_len q (λ f _, payload_len_nonneg f)) as Hq.
  destruct (refund_sum iw x (payload_len f) Hx Hn) as (Hx1 & Hsum & Hpos).
  assert (0 ≤ sum (refund iw x (payload_len f)).2).
  { unfold refund. repeat case_match; simpl; lia. }
  apply total_bind. eapply total_recv_refund; [done..|lia|lia|]. intros w1 Hw1 Hl1.
  apply total_bind. eapply total_mono; [|apply (IH _ w1 Hw1 Hx1); lia].
  intros rs w2 (-> & Hw2 & Hl2). apply total_ret. split_and!; [done..|].
  by rewrite Hl2, Hl1, <-app_assoc, fmap_app.
Qed.

End receiver.

(** ** The sender *)

(** The stream after the window updates [us] were routed. *)
Definition credited (us : list Z) (t : Stream) : Stream :=
  foldl (λ t d, wakeSenders (creditSend_lock d t)) t us.

Lemma credited_window us t :
  - 2^62 < sendWindow t → Forall (λ d, 0 < d) us → sendWindow t + sum us < 2^62 →
  sendWindow (credited us t) = sendWindow t + sum us.
Proof.
  revert t. induction us as [|d us IH]; intros t Ht Hpos Hlt; simpl in *; [lia|].
  apply Forall_cons in Hpos as [Hd Hus].
  assert (0 ≤ sum us).
  { clear -Hus. induction Hus; simpl; lia. }
  assert (sendWindow (wakeSenders (creditSend_lock d t)) = sendWindow t + d) as Hw.
  { simpl. apply wrap64_id. unfold is_int64. lia. }
  unfold credited in *. rewrite IH, Hw; [lia|rewrite Hw; lia|done|rewrite Hw; lia].
Qed.

(** Routing touches the window and the tickets only; one update wakes every sender
    that is parked. *)
Lemma credited_keeps us t :
  mu (credited us t) = mu t ∧ sid (credited us t) = sid t ∧ sctx (credited us t) = sctx t ∧
  condWait (credited us t) = condWait t ∧ (us ≠ [] → condNotify (credited us t) = condWait t).
Proof.
  revert t. induction us as [|d us IH]; intros t; [done|].
  destruct (IH (wakeSenders (creditSend_lock d t))) as (? & ? & ? & ? & Hn).
  split_and!; [done..|]. intros _. destruct us; [done|]. by apply Hn.
Qed.

Section sender.
Context {C : Type} `{!FrameConn C} `{!GrpcLib}.
Abbreviation W := (World C).
Implicit Types (w : W) (p : nat).

Lemma total_route_updates onOpen p us t w :
  mmu (mux w) = false → streams (mux w) !! sid t = Some p → heap w !! p = Some t → mu t = false →
  Forall (λ d, 0 < d) us →
  total (λ _ w', w' = set_stream p (credited us t) w)
    (for_each (update_frame (sid t) <$> us) (route onOpen)) w.
Proof.
  intros Hm Hid Hp Hmu Hus. revert t w Hm Hid Hp Hmu. induction Hus as [|d us Hd _ IH]; intros t w Hm Hid Hp Hmu; simpl.
  { apply total_ret. by rewrite set_stream_id. }
  apply total_bind. eapply route_lookup; [done..|]. simpl. unfold creditSend.
  rewrite (proj2 (Z.leb_gt _ _) Hd). apply total_bind. eapply total_locked_; [done..|].
  eapply total_on_stream_; [by eapply lookup_set_stream|]. rewrite set_stream_set_stream.
  eapply total_mono; [|apply (IH (wakeSenders (creditSend_lock d t)))]; try done.
  - intros _ w' ->. by rewrite set_stream_set_stream.
  - by eapply lookup_set_stream.
Qed.

(** A [SendRaw] without credit, on a live stream, parks.  Once the ticket it has taken
    is woken and there is credit, what is left of it writes the message. *)
Lemma suspends_SendRaw P (Q : Prog W (option error) → W → Prop) p t b w :
  lossless P → heap w !! p = Some t → mu t = false → (condNotify t ≤ condWait t)%nat →
  send_check (ctxs w) t = SendWait →
  (∀ k, (∀ w' t', heap w' !! p = Some t' → mu t' = false → sid t' = sid t →
           (condWait t < condNotify t')%nat → 0 < sendWindow t' →
           ctx_Err (ctxs w') (sctx t') = None → ready P w' →
           total (λ r w'', r = None ∧ wlog w'' = wlog w' ++ [msg_frame (sid t) b]) k w') →
     Q k (set_stream p (cond_park t).1 w)) →
  suspends Q (SendRaw p b) w.
Proof.
  intros [HP Hok] Hp Hmu Hle Hc HQ. unfold SendRaw, send_wait, send_head.
  apply suspends_bind, suspends_iter, suspends_then. eapply total_locked_ctx; [done..|].
  rewrite Hc. simpl. apply suspends_bind, suspends_then.
  eapply total_on_stream; [by eapply lookup_set_stream|]. rewrite set_stream_set_stream. simpl.
  apply suspends_act.
  { rewrite (lookup_set_stream p t) by done. unfold cond_woken. simpl.
    by rewrite bool_decide_false by lia. }
  apply HQ. intros w' t' Hp' Hmu' Hid' Hwoken Hwin Hlive Hr.
  apply total_bind, total_bind, total_bind, total_act; rewrite Hp'; unfold cond_woken;
    rewrite bool_decide_true by done; [done|].
  intros w1 b1 ?. inv_elem. apply total_ret.
  eapply (total_send_wait _ p t' (len b)); [done..|]. apply (total_send_rest _ _ (send_take (len b) t')).
  - destruct Hr. split; [done|]. intros. by apply (wr_returns P).
  - by eapply lookup_set_stream.
  - intros cn r Hin. simpl in Hin. rewrite Hlive in Hin. destruct Hr as [_ Hc'].
    pose proof (Hok _ _ _ _ Hc' Hin) as ->. simpl. by rewrite Hid'.
Qed.

End sender.

(** ** Both ends *)

Section both.
Context {Cs Cr : Type} `{!FrameConn Cs} `{!FrameConn Cr} `{!GrpcLib}.
Implicit Types (ws : World Cs) (wr : World Cr).

(** C9: a blocked sender is released.  A [SendRaw] without credit, on a live stream,
    parks.  When the receiver then takes what it has buffered, the messages come
    out in order, and routing the window updates this makes it write, in order, at
    the sender lets the parked [SendRaw] write its message and return nil.  Both
    ends use the same window; every byte the window is short of is in the
    receiver's backlog or among the credit it has pending (nothing is in flight),
    and fits in a [uint32]; the receiver's stream is live, and writes under a live
    context succeed. *)
Theorem sender_released Ps Pr onOpen p t b q s c ws wr :
  lossless Ps → ready Ps ws → mmu (mux ws) = false → streams (mux ws) !! sid t = Some p →
  heap ws !! p = Some t → mu t = false → (condNotify t ≤ condWait t)%nat →
  send_check (ctxs ws) t = SendWait →
  lossless Pr → ready Pr wr → heap wr !! q = Some s → mu s = false → sid s = sid t →
  ctx_Err (ctxs wr) (sctx s) = None →
  0 < initialWindow s → 0 ≤ pendingCredit s < credit_threshold s →
  sendWindow t + pendingCredit s + sum_by payload_len (recvItems s) = initialWindow s →
  initialWindow s - sendWindow t < 2^32 →
  suspends (λ k ws1,
      total (λ (rs : list (bytes * option error)) wr',
          rs = ((λ f, (Payload f, None)) <$> recvItems s) ∧
          ∃ us, wlog wr' = wlog wr ++ us ∧
            total (λ _ ws2,
                total (λ r ws3, r = None ∧ wlog ws3 = wlog ws ++ [msg_frame (sid t) b]) k ws2)
              (for_each us (route onOpen)) ws1)
        (recv_n (length (recvItems s)) c q) wr)
    (SendRaw p b) ws.
Proof.
  intros Hs Hrs Hm Hid Hp Hmu Hle Hc Hr Hrr Hq Hmuq Hsid Hlive Hiw Hpend Hsum Hfit.
  change (credit_threshold s) with (threshold (initialWindow s)) in Hpend.
  assert (sendWindow t ≤ 0 ∧ ctx_Err (ctxs ws) (sctx t) = None) as [Hwin Hlt].
  { unfold send_check, sendBlockErrLocked in Hc. destruct (Z.leb_spec (sendWindow t) 0); [|done].
    by repeat case_match. }
  eapply (suspends_SendRaw Ps); [done..|]. intros k Hk.
  eapply total_mono; [|eapply (total_recv_refunds Pr _ _ (sid t) (initialWindow s) (pendingCredit s));
    [done|by split; [|exists s]|done|lia]].
  intros rs wr' (-> & _ & Hl). split; [done|]. eexists. split; [exact Hl|].
  destruct (refunds_sum (initialWindow s) (pendingCredit s) (recvItems s) Hpend) as (Hx & Hus & Hpos).
  revert Hus Hpos Hx. generalize (refunds (initialWindow s) (pendingCredit s) (recvItems s)).
  intros [x us] Hus Hpos Hx. simpl in *.
  assert (x < initialWindow s) as Hxiw.
  { destruct Hx as [_ Hx]. unfold threshold in Hx. pose proof (Z.quot_lt (initialWindow s) 2).
    destruct (_ <? 1); lia. }
  set (t1 := (cond_park t).1). eapply total_mono; [|apply (total_route_updates onOpen p us t1)]; try done;
    [|by eapply lookup_set_stream].
  intros _ ws2 ->. destruct (credited_keeps us t1) as (Hmu1 & Hid1 & Hctx1 & _ & Hno).
  assert (sendWindow (credited us t1) = sendWindow t + sum us) as Hw1.
  { change (sendWindow t) with (sendWindow t1). apply credited_window; simpl; [lia|done|lia]. }
  eapply total_mono; [|eapply Hk; [by do 2 eapply lookup_set_stream|done|done| | |by rewrite Hctx1|done]].
  - intros r ws3 [-> Hl3]. split; [done|exact Hl3].
  - rewrite Hno; [simpl; lia|]. intros ->. simpl in Hus. lia.
  - lia.
Qed.

End both.

(** ** The limit of the account *)

(** [returnCredit] converts the pending credit to a [uint32].  With a window of
    8 GiB or more, every window update it computes has lost at least 4 GiB of
    credit, for ever: the bytes are neither sent back nor kept pending. *)
Theorem credit_truncated n s :
  2^33 ≤ initialWindow s < 2^62 → 0 ≤ pendingCredit s < 2^62 → 0 < n < 2^62 →
  credit_threshold s ≤ pendingCredit s + n →
  pendingCredit (returnCredit_lock n s).1 = 0 ∧
  (returnCredit_lock n s).2 + 2^32 ≤ pendingCredit s + n.
Proof.
  intros Hw Hp Hn Ht. unfold returnCredit_lock. simpl.
  rewrite wrap64_id by (unfold is_int64; lia).
  replace (credit_threshold (s <| pendingCredit ::= λ x, wrap64 (x + n) |>))
    with (credit_threshold s) by done.
  rewrite (proj2 (Z.leb_le _ _) Ht). simpl. split; [done|].
  assert (2^32 ≤ pendingCredit s + n).
  { unfold credit_threshold in Ht. rewrite Z.quot_div_nonneg in Ht by lia.
    assert (2^32 ≤ initialWindow s / 2) by (apply Z.div_le_lower_bound; lia).
    destruct (Z.ltb_spec (initialWindow s / 2) 1); lia. }
  unfold wrapu32. pose proof (Z.div_mod (pendingCredit s + n) (2^32) ltac:(lia)).
  assert (1 ≤ (pendingCredit s + n) / 2^32) by (apply Z.div_le_lower_bound; lia). lia.
Qed.

Definition huge_window : Stream :=
  (newStream [] 1 EmptyString (2^33) ctx_empty).2 <| pendingCredit := 2^32 - 1 |>.

Lemma credit_truncated_witness :
  pendingCredit (returnCredit_lock 1 huge_window).1 = 0 ∧
  (returnCredit_lock 1 huge_window).2 + 2^32 ≤ 2^32.
Proof. apply (credit_truncated 1 huge_window); by vm_compute. Defined.
