(* ===== verification/SendWait.v ===== *)
(** * Waiting for credit

    A [SendRaw] without credit parks on [sendCond].  Credit and a recorded status
    are set in critical sections of the mutex that the parking goroutine holds
    when it decides to wait, and each of them is followed by a broadcast: in every
    interleaving of the goroutines of an endpoint, when a parked sender could go
    on, some goroutine is about to wake it (first part).  Two other conditions it
    checks before parking, the [ended] channel and the context, change outside the
    mutex or without a broadcast: two schedules of the real methods show a
    sender that stays parked (second part). *)

From S2P Require Import Prelude Goroutine Track Status Context Conn Strconv Stream World StreamOps MuxOps Endpoint.

Lemma send_check_wait σ s :
  send_check σ s = SendWait → sendWindow s ≤ 0 ∧ endSt s = None ∧ ended s = false ∧ ctx_Err σ (sctx s) = None.
Proof.
  unfold send_check, sendBlockErrLocked. destruct (Z.leb_spec (sendWindow s) 0); [|done].
  repeat case_match; naive_solver.
Qed.

(** Nothing for a parked sender to wake up for. *)
Definition starved (s : Stream) : Prop := sendWindow s ≤ 0 ∧ endSt s = None.

(** The part of a stream that parking depends on. *)
Record wait_eq (s s' : Stream) : Prop := mk_wait_eq {
  we_mu : mu s' = mu s;
  we_wait : condWait s' = condWait s;
  we_notify : condNotify s' = condNotify s;
  we_window : sendWindow s' = sendWindow s;
  we_status : endSt s' = endSt s
}.

#[export] Instance wait_eq_refl : Reflexive wait_eq.
Proof. by intros s. Qed.

Lemma wait_eq_starved s s' : wait_eq s s' → starved s → starved s'.
Proof. intros [_ _ _ Hw He] [? ?]. split; congruence. Qed.

(** What a goroutine is up to. *)
Inductive Wake :=
| Calm
| Deciding (p : nat)      (* holds [mu], decided to wait, has no ticket yet *)
| MustWake (p : nat).     (* has changed what senders wait for, broadcasts next *)

#[export] Instance Wake_eq_dec : EqDecision Wake.
Proof. solve_decision. Defined.

Section wakeup.
Context {C : Type} `{!FrameConn C} `{!GrpcLib}.
Abbreviation W := (World C).
Implicit Types (w : W) (p : nat).

(** ** The next action of a goroutine *)

(** What [sendCond.Broadcast()] of the stream at [p] does. *)
Definition broadcast p w w' : Prop :=
  ∀ s, heap w !! p = Some s → w' = set_stream p (wakeSenders s) w.

(** The next action of the goroutine, after internal steps at most, is the broadcast
    for the stream at [p]; it is never blocked. *)
Inductive wakes_next p {A} (g : Prog W A) : Prop :=
| wakes_now :
    result g = None →
    (∀ w, is_Some (heap w !! p) → ∃ w' g', pstep g w = [(w', g', [])] ∧ broadcast p w w') →
    wakes_next p g
| wakes_later g' : (∀ w, pstep g w = [(w, g', [])]) → result g = None → wakes_next p g' → wakes_next p g.

(** It returns after internal steps only. *)
Inductive returns_next {A} (a : A) (g : Prog W A) : Prop :=
| returns_now : result g = Some a → returns_next a g
| returns_later g' : (∀ w, pstep g w = [(w, g', [])]) → result g = None → returns_next a g' → returns_next a g.

Lemma wakes_bind p {A B} (g : Prog W A) (f : A → Prog W B) : wakes_next p g → wakes_next p (Bind g f).
Proof.
  induction 1 as [g Hr Hs|g g' Hs Hr _ IH].
  - apply wakes_now; [done|]. intros w Hw. destruct (Hs w Hw) as (w' & g' & Hg & Hb).
    exists w', (Bind g' f). simpl. by rewrite Hr, Hg.
  - eapply wakes_later; [|done|exact IH]. intros w. simpl. by rewrite Hr, Hs.
Qed.

Lemma wakes_then p {A B} (g : Prog W A) (f : A → Prog W B) a :
  returns_next a g → wakes_next p (f a) → wakes_next p (Bind g f).
Proof.
  intros Hg Hf. induction Hg as [g Hr|g g' Hs Hr _ IH].
  - eapply wakes_later; [|done|exact Hf]. intros w. simpl. by rewrite Hr.
  - eapply wakes_later; [|done|exact IH]. intros w. simpl. by rewrite Hr, Hs.
Qed.

Lemma returns_then {A B} (g : Prog W A) (f : A → Prog W B) a b :
  returns_next a g → returns_next b (f a) → returns_next b (Bind g f).
Proof.
  intros Hg Hf. induction Hg as [g Hr|g g' Hs Hr _ IH].
  - eapply returns_later; [|done|exact Hf]. intros w. simpl. by rewrite Hr.
  - eapply returns_later; [|done|exact IH]. intros w. simpl. by rewrite Hr, Hs.
Qed.

(** ** The steps of the goroutines *)

(** Parking is not concerned; a new stream has no senders. *)
Record calm w w' : Prop := mk_calm {
  cl_old p s : heap w !! p = Some s → ∃ s', heap w' !! p = Some s' ∧ wait_eq s s';
  cl_new p s' : heap w' !! p = Some s' → heap w !! p = None →
    mu s' = false ∧ condWait s' = condNotify s'
}.

#[export] Instance calm_refl : Reflexive calm.
Proof. intros w. split; [intros p s Hp; by exists s|]. intros. congruence. Qed.

Inductive wake : Wake → W → W → Wake → Prop :=
| wk_calm l w w' : calm w w' → wake l w w' l
| wk_take p n s w :
    heap w !! p = Some s → mu s = false → 0 < sendWindow s →
    wake Calm w (set_stream p (send_take n s) w) Calm
| wk_decide p s w :
    heap w !! p = Some s → mu s = false → starved s →
    wake Calm w (set_stream p (s <| mu := true |>) w) (Deciding p)
| wk_park p s w :
    heap w !! p = Some s → wake (Deciding p) w (set_stream p (cond_park s).1 w) Calm
| wk_section p s s' w :
    heap w !! p = Some s → mu s = false → mu s' = false →
    condWait s' = condWait s → condNotify s' = condNotify s →
    wake Calm w (set_stream p s' w) (MustWake p)
| wk_broadcast l p s w :
    heap w !! p = Some s → l = Calm ∨ l = MustWake p →
    wake l w (set_stream p (wakeSenders s) w) Calm.

(** In [MustWake p] a goroutine does nothing but the broadcast, in which it is never blocked. *)
Definition may_do (l : Wake) (B : Type) (a : W → list (W * B)) : Prop :=
  match l with
  | MustWake p => ∀ w, is_Some (heap w !! p) → ∃ w' b, a w = [(w', b)] ∧ broadcast p w w'
  | _ => True
  end.

Definition no_duty (l : Wake) : Prop := match l with MustWake _ => False | _ => True end.

Abbreviation watched := (tracked Calm wake may_do no_duty).

Lemma wake_refl l w : wake l w w l.
Proof. by apply wk_calm. Qed.

(** A goroutine in [MustWake p] is about to broadcast. *)
Lemma watched_wakes {A} (g : Prog W A) p Q :
  watched g (MustWake p) Q → wakes_next p g ∨ ∃ a, returns_next a g ∧ Q a (MustWake p).
Proof.
  revert Q. induction g as [A a|B a|t _|S B body IH s|A B g IH f IHf]; intros Q Hg.
  - right. exists a. split; [by apply returns_now|exact Hg].
  - left. destruct Hg as [Ha _]. apply wakes_now; [done|]. intros w Hw.
    destruct (Ha w Hw) as (w' & b & Hs & Hb). exists w', (Ret b). simpl. by rewrite Hs.
  - by destruct Hg as [? _].
  - destruct Hg as (I & HI & Hb). by destruct (Hb _ _ HI) as [? _].
  - destruct (IH _ Hg) as [Hw|(a & Ha & Hf)]; [left; by apply wakes_bind|].
    destruct (IHf a _ Hf) as [Hw|(b & Hb & HQ)]; [left; by eapply wakes_then|].
    right. exists b. split; [by eapply returns_then|done].
Qed.

(** ** Actions that parking is not concerned with *)

Lemma calm_heap w w' : heap w' = heap w → calm w w'.
Proof. intros Hh. split; rewrite Hh; [intros p s Hp; by exists s|]. intros. congruence. Qed.

Lemma calm_set_stream p s s' w : heap w !! p = Some s → wait_eq s s' → calm w (set_stream p s' w).
Proof.
  intros Hp Hs. assert (p < length (heap w))%nat by (by eapply lookup_lt_Some).
  split; simpl; intros q t Hq; destruct (decide (p = q)) as [<-|].
  - rewrite list_lookup_insert_eq by done. simplify_eq. by exists s'.
  - rewrite list_lookup_insert_ne by done. by exists t.
  - congruence.
  - rewrite list_lookup_insert_ne in Hq by done. congruence.
Qed.

Lemma calm_alloc c id m iw (init : Stream → Stream) w :
  (∀ s, wait_eq s (init s)) → calm w (alloc c id m iw init w).1.
Proof.
  intros Hi. unfold alloc. destruct (newStream c id m iw (ctxs w)) as [σ s] eqn:E. split; simpl.
  - intros p t Hp. exists t. split; [|done]. by apply lookup_app_l_Some.
  - intros p t Ht Hp. rewrite lookup_app_r in Ht by (by apply lookup_ge_None).
    apply list_lookup_singleton_Some in Ht as [_ <-]. unfold newStream in E.
    destruct (Hi s) as [-> -> -> _ _]. by simplify_eq/=.
Qed.

Definition calm_section {B} (f : Stream → Stream * B) : Prop := ∀ s, wait_eq s (f s).1.

Ltac solve_wait_eq :=
  intros ?; try (intros ?); simpl; unfold SendHeader_lock, CloseSend_lock, endOne_enter, returnCredit_lock,
    popRecv, tryDeliver_lock; repeat (case_match; simpl); by split.

Lemma calm_locked_ctx {B} p (f : CtxStore → Stream → Stream * B) :
  (∀ σ, calm_section (f σ)) → all_acts calm (locked_ctx p f).
Proof.
  intros Hf w w' b. simpl. destruct (heap w !! p) as [s|] eqn:Hp; [|intros; by inv_elem].
  destruct (mu s); [intros; by inv_elem|]. specialize (Hf (ctxs w) s).
  destruct (f (ctxs w) s) as [s' b'] eqn:E. intros. inv_elem. by eapply calm_set_stream.
Qed.

Lemma calm_on_stream {B} p (f : Stream → Stream * B) : calm_section f → all_acts calm (on_stream p f).
Proof.
  intros Hf w w' b. simpl. destruct (heap w !! p) as [s|] eqn:Hp; [|intros; by inv_elem].
  specialize (Hf s). destruct (f s) as [s' b'] eqn:E. intros. inv_elem. by eapply calm_set_stream.
Qed.

Lemma calm_once {B} p (f : Stream → Stream * B) : calm_section f → all_acts calm (once p f).
Proof.
  intros Hf w w' b. simpl. destruct (heap w !! p) as [s|] eqn:Hp; [|intros; by inv_elem].
  destruct (endBusy s); [intros; by inv_elem|].
  specialize (Hf s). destruct (f s) as [s' b'] eqn:E. intros. inv_elem. by eapply calm_set_stream.
Qed.

(** An action on anything but the streams. *)
Ltac solve_heap :=
  match goal with |- all_acts _ _ => intros ?w ?w' ?b ?Hin | _ => idtac end;
  unfold conn_write in *; simpl in *; repeat case_match; try (by inv_elem);
  try (match goal with H : _ ∈ _ <$> _ |- _ => apply list_elem_of_fmap in H as (? & ? & ?) end);
  repeat (case_match; simplify_eq/=); inv_elem; by apply calm_heap.

Ltac solve_calm :=
  repeat lazymatch goal with
  | |- all_acts _ (Ret _) => exact I
  | |- all_acts _ (Bind _ _) => split
  | |- all_acts _ (Iter _ _) => intros ?
  | |- all_acts _ (match ?x with _ => _ end) => destruct x
  | |- ∀ _, all_acts _ _ => intros ?
  | |- all_acts _ (locked _ _) => apply calm_locked_ctx; solve_wait_eq
  | |- all_acts _ (locked_ _ _) => apply calm_locked_ctx; solve_wait_eq
  | |- all_acts _ (locked_ctx _ _) => apply calm_locked_ctx; solve_wait_eq
  | |- all_acts _ (on_stream _ _) => apply calm_on_stream; solve_wait_eq
  | |- all_acts _ (on_stream_ _ _) => apply calm_on_stream; solve_wait_eq
  | |- all_acts _ (get_stream _) => apply calm_on_stream; solve_wait_eq
  | |- all_acts _ (once _ _) => apply calm_once; solve_wait_eq
  | |- all_acts _ (mux_write _ _) => unfold mux_write
  | |- all_acts _ _ => solve_heap
  end.

Lemma calm_cond_resume p t :
  all_acts calm (Act (λ w : W, match heap w !! p with
    | Some s => if cond_woken t s then [(w, ())] else []
    | None => []
    end)).
Proof. intros w w' b Hin. repeat case_match; by inv_elem. Qed.

Lemma calm_mux_write c f : all_acts calm (mux_write c f : Prog W _).
Proof. solve_calm. Qed.
Lemma calm_newClientStream c dl m h : all_acts calm (newClientStream c dl m h : Prog W _).
Proof.
  unfold newClientStream, alloc_id, register, remove, mux_locked. solve_calm.
  intros w w' b Hin. apply list_elem_of_singleton in Hin.
  pose proof (calm_alloc c a m a0 (λ s, s) w ltac:(done)) as Hc. by rewrite <-Hin in Hc.
Qed.
Lemma calm_open_stream f : all_acts calm (update (open_stream f) : Prog W _).
Proof.
  intros w w' b Hin. apply list_elem_of_singleton in Hin. unfold open_stream in Hin.
  destruct (open_ctx _ _ _) as [[σ c] dc].
  pose proof (calm_alloc c (StreamId f) (FMethod f) (muxWindow (mux w))
    (λ s, s <| deadlineCancel := dc |> <| header := Headers f |>) (w <| ctxs := σ |>) ltac:(by split)) as Hc.
  rewrite <-Hin in Hc. destruct Hc. by split.
Qed.
Lemma calm_ctrlWriter : all_acts calm (ctrlWriter : Prog W _).
Proof.
  unfold ctrlWriter. solve_calm. intros w w' b [[_ Hin]%elem_of_branch|Hin]%elem_of_app; solve_heap.
Qed.
Lemma calm_keepalive d : all_acts calm (keepalive_loop d : Prog W _).
Proof.
  unfold keepalive_loop. solve_calm.
  intros w w' b [[_ Hin]%elem_of_branch|Hin]%elem_of_app; solve_heap.
Qed.

(** ** The methods *)

Lemma watched_calm {A} (g : Prog W A) : all_acts calm g → watched g Calm (λ _ l, l = Calm).
Proof.
  intros Hg. apply (tracked_acts _ _ _ _ calm); try done; [intros; by apply wk_calm|].
  by intros [] B a.
Qed.

Lemma watched_skip {A B} (g : Prog W A) (f : A → Prog W B) Q :
  all_acts calm g → (∀ a, watched (f a) Calm Q) → watched (Bind g f) Calm Q.
Proof. intros Hg. apply tracked_then. by apply watched_calm. Qed.

(** A broadcast, due or not. *)
Lemma watched_wakeSenders p l :
  l = Calm ∨ l = MustWake p → watched (on_stream_ p wakeSenders) l (λ _ l', l' = Calm).
Proof.
  intros Hl. split.
  - destruct Hl as [->| ->]; [done|]. intros w [s Hs]. simpl. rewrite Hs.
    eexists _, _. split; [done|]. intros s' Hs'. by simplify_eq.
  - intros w w' b Hin. destruct (heap w !! p) as [s|] eqn:Hp; inv_elem.
    exists Calm. split; [by apply wk_broadcast|done].
Qed.

(** A critical section that changes what senders wait for, and its broadcast. *)
Lemma watched_section {B} p f (k : unit → Prog W B) Q :
  (∀ s, mu (f s) = mu s ∧ condWait (f s) = condWait s ∧ condNotify (f s) = condNotify s) →
  (∀ a, watched (k a) (MustWake p) Q) → watched (Bind (locked_ p f) k) Calm Q.
Proof.
  intros Hf Hk. apply tracked_act; [done|]. intros w w' b Hin.
  destruct (heap w !! p) as [s|] eqn:Hp; [|by inv_elem]. destruct (mu s) eqn:Hmu; inv_elem.
  destruct (Hf s) as (Hm & ? & ?). exists (MustWake p). split; [|apply Hk].
  eapply wk_section; [done|done|by rewrite Hm|done..].
Qed.

Lemma watched_creditSend p d : watched (creditSend p d) Calm (λ _ l, l = Calm).
Proof.
  unfold creditSend. destruct (d <=? 0); [done|]. apply watched_section; [done|]. intros _.
  apply watched_wakeSenders. by right.
Qed.

Lemma watched_failWith p err : watched (failWith p err) Calm (λ _ l, l = Calm).
Proof.
  apply watched_section; [done|]. intros _.
  eapply tracked_then; [apply watched_wakeSenders; by right|]. intros _. apply watched_calm. solve_calm.
Qed.

Lemma watched_applyEnd p f : watched (applyEnd p f) Calm (λ _ l, l = Calm).
Proof.
  apply watched_section; [intros s; unfold applyEnd_lock; by case_match|]. intros _.
  eapply tracked_then; [apply watched_wakeSenders; by right|]. intros _. apply watched_calm. solve_calm.
Qed.

Lemma watched_signalEnd p f : watched (signalEnd p f) Calm (λ _ l, l = Calm).
Proof.
  apply watched_skip; [solve_calm|]. intros [|]; [|done].
  do 2 (apply watched_skip; [solve_calm|intros _]).
  eapply tracked_then; [apply watched_wakeSenders; by left|]. intros _. apply watched_calm. solve_calm.
Qed.

Lemma watched_cond_wait p : watched (cond_wait p) (Deciding p) (λ _ l, l = Calm).
Proof.
  apply tracked_act; [done|]. intros w w' t Hin.
  destruct (heap w !! p) as [s|] eqn:Hp; inv_elem. exists Calm. split; [by apply wk_park|].
  apply watched_calm, calm_cond_resume.
Qed.

Lemma watched_SendRaw p b : watched (SendRaw p b) Calm (λ _ l, l = Calm).
Proof.
  apply (tracked_then _ _ _ Calm).
  - apply tracked_iter; [done|]. intros _. apply tracked_act; [done|]. intros w w' v Hin.
    destruct (heap w !! p) as [s|] eqn:Hp; [|by inv_elem]. destruct (mu s) eqn:Hmu; [by inv_elem|].
    destruct (send_check (ctxs w) s) as [e| |] eqn:Hc; inv_elem.
    + exists Calm. split; [|done]. apply wk_calm. by eapply calm_set_stream.
    + destruct (send_check_wait _ _ Hc) as (? & ? & _). exists (Deciding p).
      split; [by apply wk_decide|]. eapply tracked_then; [apply watched_cond_wait|done].
    + unfold send_check in Hc. destruct (Z.leb_spec (sendWindow s) 0); [by case_match|].
      exists Calm. split; [by apply wk_take|done].
  - intros [e|]; [done|]. apply watched_calm. solve_calm.
Qed.

Lemma watched_recvEnded p : watched (recvEnded p) Calm (λ _ l, l = Calm).
Proof.
  apply watched_skip; [solve_calm|]. intros [g|].
  { apply watched_calm. unfold deliverPayload, returnCredit. solve_calm. }
  apply watched_skip; [solve_calm|]. intros [f|]; [|apply watched_calm; unfold status; solve_calm].
  destruct (FKind f); try done;
    (eapply tracked_then; [apply watched_applyEnd|]; intros st; apply watched_calm; solve_calm).
Qed.

Lemma watched_RecvRawContext c p : watched (RecvRawContext c p) Calm (λ _ l, l = Calm).
Proof.
  assert (∀ err, all_acts calm err → all_acts calm (pop_or p err : Prog W _)) as Hpop.
  { intros err He. unfold pop_or, deliverPayload, returnCredit. solve_calm; try done; solve_calm. }
  apply tracked_iter; [done|]. intros _. apply watched_skip; [solve_calm|]. intros [g|].
  { eapply tracked_then; [apply watched_calm; unfold deliverPayload, returnCredit; solve_calm|done]. }
  apply watched_skip.
  { intros w w' b Hin. destruct (heap w !! p) as [s|] eqn:Hp; [|by inv_elem].
    apply list_elem_of_fmap in Hin as ([] & ? & _); simplify_eq; try done.
    by eapply calm_set_stream. }
  intros []; unfold recv_case; try done.
  - eapply tracked_then; [by apply watched_calm, Hpop|done].
  - eapply tracked_then; [apply watched_recvEnded|done].
  - apply watched_skip; [solve_calm|]. intros s. destruct (ended s).
    + eapply tracked_then; [apply watched_recvEnded|done].
    + eapply tracked_then; [apply watched_calm, Hpop; unfold ctx_err_of; solve_calm|done].
  - apply watched_skip; [unfold ctx_err_of; solve_calm|done].
Qed.

Lemma watched_failAll err : watched (failAll err) Calm (λ _ l, l = Calm).
Proof.
  apply watched_skip; [solve_calm|]. intros q. apply (tracked_then _ _ _ Calm); [|intros _; apply watched_calm; solve_calm].
  induction q as [|[id p] q IH]; [done|]. eapply tracked_then; [|intros _; exact IH].
  eapply tracked_then; [apply watched_failWith|]. intros _. apply watched_calm. solve_calm.
Qed.

Lemma watched_route onOpen f :
  (∀ h p, onOpen = Some h → watched (h p) Calm (λ _ l, l = Calm)) →
  watched (route onOpen f) Calm (λ _ l, l = Calm).
Proof.
  intros Hh. unfold route.
  assert (∀ p, watched (route_msg p f) Calm (λ _ l, l = Calm)) as Hmsg.
  { intros p. apply (tracked_then _ _ _ Calm); [apply watched_calm; unfold tryDeliver; solve_calm|].
    intros []; [apply watched_calm; solve_calm|]. apply watched_skip; [solve_calm|intros _].
    eapply tracked_then; [apply watched_failWith|]. intros _. apply watched_calm.
    unfold writeCtrl, remove, mux_locked. solve_calm. }
  destruct (FKind f); try (apply watched_skip; [unfold lookup_stream; solve_calm|]; intros [p|]; [|done]);
    try done; try (apply watched_calm; unfold setLeadingHeader; solve_calm; fail).
  - destruct onOpen as [h|]; [|done]. unfold route_open, writeCtrl, lookup_stream, mux_locked, register.
    apply watched_skip; [solve_calm|]. intros [q|]; [apply watched_calm; solve_calm|].
    apply watched_skip; [solve_calm|]. intros [|]; [apply watched_calm; solve_calm|].
    apply watched_skip; [apply calm_open_stream|]. intros p.
    apply watched_skip; [unfold mux_locked; solve_calm|]. intros _. by apply Hh.
  - eapply tracked_then; [apply watched_signalEnd|]. intros _. apply watched_calm. unfold remove. solve_calm.
  - eapply tracked_then; [apply watched_signalEnd|]. intros _. apply watched_calm. unfold remove. solve_calm.
  - apply watched_creditSend.
Qed.

(** Every goroutine made of calls to the runtime. *)
Lemma watched_runtime {A} (g : Prog W A) : runtime g → watched g Calm (λ _ l, l = Calm).
Proof.
  induction 1; auto using watched_calm, watched_SendRaw, watched_RecvRawContext, watched_failWith,
    watched_failAll, watched_route, calm_ctrlWriter, calm_keepalive, calm_mux_write, calm_newClientStream;
    try (apply watched_calm; unfold Header, Trailer, takeTrailer, SendHeader, SetTrailer, CloseSend, remove,
      Close, read_frame; solve_calm; fail).
  - by eapply tracked_then.
  - apply tracked_iter; [done|]. intros s'. eapply tracked_mono; [|done]. by intros [].
  - split_and!; [done| |done]. eapply tracked_mono; [|done]. by intros ? ? ->.
  - do 2 (apply watched_skip; [solve_calm|intros ?]). apply watched_skip; [solve_calm|]. intros err.
    eapply tracked_then; [apply watched_failWith|done].
Qed.

(** ** The invariant *)

Definition holds p (l : Wake) : Z := if decide (l = Deciding p) then 1 else 0.

Definition mu_held w p : Z :=
  match heap w !! p with Some s => if mu s then 1 else 0 | None => 0 end.

Record wake_inv w (ls : list Wake) : Prop := mk_wake_inv {
  wi_mu p : sum_by (holds p) ls = mu_held w p;
  wi_deciding p s : Deciding p ∈ ls → heap w !! p = Some s → starved s;
  wi_asleep p s : heap w !! p = Some s → (condNotify s < condWait s)%nat →
    starved s ∨ MustWake p ∈ ls
}.

Lemma holds_nonneg p l : 0 ≤ holds p l.
Proof. unfold holds. case_decide; lia. Qed.

(** Who decides to wait holds the mutex. *)
Lemma deciding_held w ls p : wake_inv w ls → Deciding p ∈ ls → mu_held w p = 1.
Proof.
  intros [Hmu _ _] [i Hi]%list_elem_of_lookup.
  pose proof (sum_by_one (holds p) ls i _ (holds_nonneg p) Hi) as H1. rewrite Hmu in H1.
  unfold holds in H1. rewrite decide_True in H1 by done. revert H1. unfold mu_held. repeat case_match; lia.
Qed.

Lemma must_wake_stays p (ls : list Wake) i l l' k :
  ls !! i = Some l → l ≠ MustWake p → MustWake p ∈ ls → MustWake p ∈ <[i:=l']> ls ++ replicate k Calm.
Proof.
  intros Hi Hl [j Hj]%list_elem_of_lookup. apply elem_of_app. left.
  apply (list_elem_of_lookup_2 _ j). rewrite list_lookup_insert_ne; [done|]. intros ->. congruence.
Qed.

Lemma must_wake_now p (ls : list Wake) i l k :
  ls !! i = Some l → MustWake p ∈ <[i:=MustWake p]> ls ++ replicate k Calm.
Proof.
  intros Hi. apply elem_of_app. left. apply (list_elem_of_lookup_2 _ i).
  apply list_lookup_insert_eq. by eapply lookup_lt_Some.
Qed.

(** A step that touches the stream at [p] only. *)
Lemma wake_inv_set w ls i l l' k p s s' :
  wake_inv w ls → ls !! i = Some l → heap w !! p = Some s →
  holds p l' - holds p l = (if mu s' then 1 else 0) - (if mu s then 1 else 0) →
  (∀ q, q ≠ p → l ≠ Deciding q ∧ l' ≠ Deciding q ∧ l ≠ MustWake q) →
  (l' = Deciding p ∨ mu s = true ∧ Deciding p ∈ <[i:=l']> ls ++ replicate k Calm → starved s') →
  ((condNotify s' < condWait s')%nat → starved s' ∨ MustWake p ∈ <[i:=l']> ls ++ replicate k Calm) →
  wake_inv (set_stream p s' w) (<[i:=l']> ls ++ replicate k Calm).
Proof.
  intros Hinv Hi Hp Hh Hq Hdec Has. pose proof Hinv as [Hmu Hd Ha].
  assert (p < length (heap w))%nat by (by eapply lookup_lt_Some).
  split; intros q; unfold mu_held; simpl; destruct (decide (q = p)) as [->|Hne];
    rewrite ?list_lookup_insert_eq, ?list_lookup_insert_ne by done.
  - rewrite (sum_by_local _ _ _ l) by done. rewrite Hmu. unfold mu_held. rewrite Hp. lia.
  - rewrite (sum_by_local _ _ _ l) by done. rewrite Hmu. unfold mu_held.
    destruct (Hq q Hne) as (? & ? & _). unfold holds. rewrite !decide_False by done. lia.
  - intros t Hin [= <-]. apply Hdec. pose proof Hin as [Hold|[<-|?]]%elem_of_local; [|by left|done].
    right. split; [|done]. pose proof (deciding_held w ls p Hinv Hold) as H1. unfold mu_held in H1.
    rewrite Hp in H1. by destruct (mu s).
  - intros t Hin Ht. destruct (Hq q Hne) as (? & ? & _).
    apply elem_of_local in Hin as [Hin|[?|?]]; [by eapply Hd|congruence|done].
  - intros t [= <-]. exact Has.
  - intros t Ht Hlt. destruct (Hq q Hne) as (_ & _ & ?). destruct (Ha q t Ht Hlt) as [|Hin]; [by left|].
    right. by eapply must_wake_stays.
Qed.

Lemma wake_inv_calm w w' ls i l k :
  wake_inv w ls → ls !! i = Some l → calm w w' → wake_inv w' (<[i:=l]> ls ++ replicate k Calm).
Proof.
  intros Hinv Hi [Hold Hnew]. pose proof Hinv as [Hmu Hd Ha]. rewrite list_insert_id by done.
  assert (∀ q, mu_held w' q = mu_held w q) as Hheld.
  { intros q. unfold mu_held. destruct (heap w !! q) as [s|] eqn:E.
    - destruct (Hold q s E) as (s' & -> & [-> _ _ _ _]). done.
    - destruct (heap w' !! q) as [s'|] eqn:E'; [|done]. by destruct (Hnew q s' E' E) as [-> _]. }
  assert (∀ x, x ∈ ls ++ replicate k Calm → x ∈ ls ∨ x = Calm) as Hmem.
  { intros x [?|[-> _]%elem_of_replicate]%elem_of_app; auto. }
  split.
  - intros q. rewrite Hheld, <-Hmu, sum_by_app, (sum_by_zero _ (replicate _ _)); [lia|].
    by intros x [-> _]%elem_of_replicate.
  - intros q s' [Hin|?]%Hmem Hs'; [|done]. pose proof (deciding_held w ls q Hinv Hin) as H1.
    unfold mu_held in H1. destruct (heap w !! q) as [s|] eqn:E; [|done].
    destruct (Hold q s E) as (s1 & Hs1 & Heq). simplify_eq. by eapply wait_eq_starved, Hd.
  - intros q s' Hs' Hlt. destruct (heap w !! q) as [s|] eqn:E.
    + destruct (Hold q s E) as (s1 & Hs1 & Heq). simplify_eq. pose proof Heq as [_ Hw Hn _ _].
      rewrite Hw, Hn in Hlt. destruct (Ha q s E Hlt) as [|Hin]; [left; by eapply wait_eq_starved|].
      right. apply elem_of_app. by left.
    + destruct (Hnew q s' Hs' E) as [_ Heq]. lia.
Qed.

Lemma wake_inv_step w w' ls i l l' k :
  wake_inv w ls → ls !! i = Some l → wake l w w' l' → wake_inv w' (<[i:=l']> ls ++ replicate k Calm).
Proof.
  intros Hinv Hi Hstep. pose proof Hinv as [Hmu Hd Ha]. destruct Hstep as
    [l w w' Hc|p n s w Hp Hm Hw|p s w Hp Hm Hst|p s w Hp|p s s' w Hp Hm Hm' Hcw Hcn|l p s w Hp Hl].
  - by eapply wake_inv_calm.
  - eapply (wake_inv_set _ _ _ Calm _ _ p s); simpl; [done..|lia|done| |].
    + intros [?|[? _]]; congruence.
    + simpl. intros Hlt. destruct (Ha p s Hp Hlt) as [[? _]|Hin]; [lia|].
      right. by eapply must_wake_stays.
  - eapply (wake_inv_set _ _ _ Calm _ _ p s); simpl; [done..| | | |by left].
    + rewrite Hm. unfold holds. by rewrite decide_True, decide_False.
    + intros q Hq. split_and!; congruence.
    + done.
  - pose proof (list_elem_of_lookup_2 _ _ _ Hi) as Hin.
    pose proof (deciding_held _ _ p Hinv Hin) as H1. unfold mu_held in H1. rewrite Hp in H1.
    pose proof (Hd p s Hin Hp) as Hst.
    eapply (wake_inv_set _ _ _ (Deciding p) _ _ p s); simpl; [done..| | |done|by left].
    + unfold holds. rewrite decide_False, decide_True by done. lia.
    + intros q Hq. split_and!; congruence.
  - eapply (wake_inv_set _ _ _ Calm _ _ p s); simpl; [done..| | | |].
    + rewrite Hm, Hm'. unfold holds. by rewrite !decide_False.
    + done.
    + intros [?|[? _]]; congruence.
    + right. by eapply must_wake_now.
  - eapply (wake_inv_set _ _ _ l _ _ p s); simpl; [done..| | | |lia].
    + unfold holds. rewrite !decide_False by (by destruct Hl as [->| ->]). lia.
    + intros q Hq. destruct Hl as [->| ->]; split_and!; congruence.
    + intros [?|[_ Hin]]; [done|]. apply elem_of_local in Hin as [Hin|[?|?]]; [|done..]. by apply (Hd p s).
Qed.

(** The pool of an endpoint: what each goroutine is up to. *)
Lemma wake_inv_reachable k0 k :
  rtc (sys_step outside) k0 k →
  Forall (λ g : Prog W unit, watched g Calm (λ _ l, no_duty l)) (threads k0) → heap (world k0) = [] →
  ∃ ls, pool_tracked Calm wake may_do no_duty k ls ∧ wake_inv (world k) ls.
Proof.
  intros Hrun Hts Hheap.
  assert (∃ ls, pool_tracked Calm wake may_do no_duty k0 ls ∧ wake_inv (world k0) ls) as Hstart.
  { exists (replicate (length (threads k0)) Calm). split.
    - apply Forall2_same_length_lookup_2; [by rewrite length_replicate|].
      intros i g l Hg [-> _]%lookup_replicate. by eapply (Forall_lookup_1 _ _ i) in Hts.
    - split; unfold mu_held; rewrite Hheap; [|by intros..].
      intros p. apply sum_by_zero. by intros x [-> _]%elem_of_replicate. }
  clear Hts Hheap. induction Hrun as [|k1 k2 k3 Hstep _ IH]; [done|]. apply IH. clear IH.
  destruct Hstart as (ls & Hp & Hinv). destruct Hstep as [k2 Hstep|w' (σ & cn & _ & ->)].
  - destruct (pool_tracked_step _ _ _ _ wake_refl _ _ _ Hp Hstep) as (i & l & l' & n & Hi & Hw & Hp').
    eexists. split; [exact Hp'|]. by eapply wake_inv_step.
  - exists ls. split; [done|]. destruct Hinv as [? ? ?]. by split.
Qed.

(** C10: no wake-up is lost.  In every interleaving of the read loop, the control
    writer and any number of goroutines that call the runtime, whatever the wire and
    the timers do: when a sender is parked on the stream at [p] with a ticket [n] that
    was not woken, and there is credit or a recorded status for it, the next action
    of some goroutine is the broadcast on that stream, in which nothing can block it.
    The [ended] channel and the context of the stream, which a sender also checks
    before it parks, are not covered: C37 and C38 show senders that miss them. *)
Theorem no_lost_wakeup c cn rb iw max st σ onOpen ts k p s n :
  (∀ h q, onOpen = Some h → runtime (h q)) → Forall runtime ts →
  rtc (sys_step outside)
    (mkConfig (newMuxConfig c cn rb iw max st σ) (mux_goroutines onOpen ++ ts)) k →
  heap (world k) !! p = Some s → (n < condWait s)%nat → cond_woken n s = false →
  0 < sendWindow s ∨ is_Some (endSt s) →
  ∃ g, g ∈ threads k ∧ wakes_next p g.
Proof.
  intros Hh Hts Hrun Hp Hn Hw Hready.
  assert (∀ g : Prog W unit, runtime g → watched g Calm (λ _ l, no_duty l)) as Hrt.
  { intros g Hg. eapply tracked_mono; [|by apply watched_runtime]. by intros ? ? ->. }
  destruct (wake_inv_reachable _ _ Hrun) as (ls & Hpool & [_ _ Ha]).
  { apply Forall_cons. split; [by apply Hrt, runtime_readLoop|]. apply Forall_cons.
    split; [by apply Hrt, rt_ctrlWriter|]. eapply Forall_impl; [exact Hts|done]. }
  { unfold newMuxConfig. simpl. by destruct (WithCancel c σ). }
  unfold cond_woken in Hw. apply bool_decide_eq_false in Hw.
  destruct (Ha p s Hp) as [[? He]|Hin]; [lia| |].
  { destruct Hready as [?|Hs]; [lia|]. rewrite He in Hs. by destruct Hs. }
  apply list_elem_of_lookup in Hin as [i Hi].
  destruct (Forall2_lookup_r _ _ _ _ _ Hpool Hi) as (g & Hg & Htr).
  exists g. split; [by eapply list_elem_of_lookup_2|].
  by destruct (watched_wakes g p _ Htr) as [|(a & _ & [])].
Qed.

End wakeup.

(** ** Senders that stay parked *)

Module Schedules.
Import Pipe.
#[local] Existing Instance plain_grpc.
Abbreviation W := (World pipeConn).

(** A client connection over a pipe, with a window of one byte. *)
Definition start : W := newMuxConfig Background (newPipe).1 256 1 0 None (mkCtxStore 1 ∅).

Definition two_bytes : bytes := [Byte.x00; Byte.x00].

(** A caller with its own cancellable context (node 0) opens a stream and sends two
    messages; the first one uses up the window. *)
Definition caller : Prog W unit :=
  r <- newClientStream [0%nat] None "/svc/method" None ;;
  match r with
  | inr p => SendRaw p two_bytes ;; SendRaw p two_bytes ;; Ret ()
  | inl _ => Ret ()
  end.

(** The read loop handles an END frame for stream 1. *)
Definition reader : Prog W unit := route None (frame 1 KIND_END).

Definition blocked (i : nat) (c : Config W) : bool :=
  match threads c !! i with
  | Some p => match pstep p (world c), result p with [], None => true | _, _ => false end
  | None => false
  end.

Definition finished (i : nat) (c : Config W) : bool :=
  match threads c !! i with
  | Some p => match result p with Some _ => true | None => false end
  | None => false
  end.

(** The caller alone until its second message is parked. *)
Definition until_parked : list (nat * nat) := replicate 38 (0, 0)%nat.

(** Cancelling the caller's context, between two steps. *)
Definition cancelled : relation W := λ w w', w' = w <| ctxs ::= cancel [0%nat] |>.

(** The stream of the caller. *)
Definition stream0 (c : Config W) (good : Stream → bool) : bool :=
  match heap (world c) !! 0%nat with Some s => good s | None => false end.

Definition env_cancel (c : Config W) : Config W :=
  mkConfig ((world c) <| ctxs ::= cancel [0%nat] |>) (threads c).

(** C37: cancellation does not release a parked sender.  A [SendRaw] that waits for
    credit stays parked after the context of its stream was cancelled: nothing
    broadcasts on [sendCond], although [sendBlockErrLocked] would return the
    context's error if the sender were woken. *)
Theorem cancelled_send_stays_parked :
  ∃ c, rtc (sys_step cancelled) (mkConfig start [caller]) c ∧
    blocked 0 c = true ∧
    stream0 c (λ s, bool_decide (ctx_Err (ctxs (world c)) (sctx s) = Some ErrCanceled) &&
      bool_decide (sendBlockErrLocked (ctxs (world c)) s = Some ErrCanceled)) = true.
Proof.
  destruct (reaches_rtc cancelled until_parked (mkConfig start [caller])
    (λ c, blocked 0 (env_cancel c) && stream0 (env_cancel c) (λ s,
       bool_decide (ctx_Err (ctxs (world (env_cancel c))) (sctx s) = Some ErrCanceled) &&
       bool_decide (sendBlockErrLocked (ctxs (world (env_cancel c))) s = Some ErrCanceled))))
    as (c & Hrtc & [Hb Hs]%andb_true_iff); [by vm_compute|].
  exists (env_cancel c). split; [|done].
  eapply rtc_r; [exact Hrtc|]. by apply sys_step_env.
Qed.

(** The reader enters [signalEnd] and records the frame; the caller decides to wait,
    with the mutex held; the reader closes [ended] and broadcasts; the caller takes
    its ticket; the reader finishes. *)
Definition lost_schedule : list (nat * nat) :=
  replicate 34 (0, 0)%nat ++ replicate 5 (1, 0)%nat ++ [(0, 0)%nat] ++
  replicate 8 (1, 0)%nat ++ replicate 3 (0, 0)%nat.

(** C38: a terminal frame can miss a parked sender.  [signalEnd] closes [ended] and
    broadcasts after it released the mutex; a sender that has checked [ended] and
    not yet parked misses both, and stays parked on an ended stream after the read
    loop is done with the frame. *)
Theorem terminal_frame_misses_sender :
  ∃ c, rtc (sys_step cancelled) (mkConfig start [caller; reader]) c ∧
    blocked 0 c = true ∧ finished 1 c = true ∧
    stream0 c (λ s, ended s && bool_decide (sendBlockErrLocked (ctxs (world c)) s = Some ErrEOF)) = true.
Proof.
  destruct (reaches_rtc cancelled lost_schedule (mkConfig start [caller; reader])
    (λ c, blocked 0 c && (finished 1 c && stream0 c (λ s,
      ended s && bool_decide (sendBlockErrLocked (ctxs (world c)) s = Some ErrEOF)))))
    as (c & Hrtc & Hc); [by vm_compute|].
  apply andb_true_iff in Hc as [? [? ?]%andb_true_iff]. by exists c.
Qed.

(** Credit for the parked sender is on its way: the read loop reads the window update
    and adds the credit. *)
Definition credit_arrives : list (nat * nat) := replicate 38 (2, 0)%nat ++ replicate 6 (0, 0)%nat.

Definition start_credit : W :=
  newMuxConfig Background (mkPipeConn [(frame 1 KIND_WINDOW_UPDATE) <| Window := 5 |>] [] false)
    256 1 0 None (mkCtxStore 1 ∅).

Definition credit_pool : Config W := mkConfig start_credit (mux_goroutines None ++ [caller]).

Lemma caller_runtime : runtime caller.
Proof.
  apply rt_Bind; [by apply rt_newClientStream|]. intros [e|p]; [apply rt_Ret|].
  repeat (apply rt_Bind; [by apply rt_SendRaw|intros ?]). apply rt_Ret.
Qed.

(** The sender is parked with ticket 0, and the window is positive. *)
Definition due (k : Config W) : bool :=
  stream0 k (λ s, (0 <? sendWindow s) && negb (cond_woken 0 s) && bool_decide (0 < condWait s)%nat).

Lemma no_lost_wakeup_witness :
  ∃ k, rtc (sys_step outside) credit_pool k ∧ due k = true ∧ ∃ g, g ∈ threads k ∧ wakes_next 0 g.
Proof.
  destruct (reaches_rtc outside credit_arrives credit_pool due) as (k & Hrun & Hdue);
    [vm_compute; reflexivity|].
  exists k. split; [exact Hrun|]. split; [exact Hdue|].
  unfold due, stream0 in Hdue. destruct (heap (world k) !! 0%nat) as [s|] eqn:Hs; [|discriminate].
  apply andb_true_iff in Hdue as [[Hw Hn]%andb_true_iff Ht].
  apply (no_lost_wakeup Background (mkPipeConn [(frame 1 KIND_WINDOW_UPDATE) <| Window := 5 |>] [] false)
    256 1 0 None (mkCtxStore 1 ∅) None [caller] k 0 s 0).
  - intros h q Hh. discriminate.
  - constructor; [exact caller_runtime|constructor].
  - exact Hrun.
  - exact Hs.
  - by apply bool_decide_eq_true in Ht.
  - by apply negb_true_iff in Hn.
  - left. by apply Z.ltb_lt.
Defined.

End Schedules.
