(* ===== verification/Options.v ===== *)
(** * Options

    The functional options of [options.go], [reconnect.go] and [callopt.go].  An
    option is a constructor; applying it to a configuration is what the closure
    the Go constructor returns does. *)

From S2P Require Import Prelude Status World Stream.

(** ** Defaults *)

(** Durations are [int64] nanoseconds. *)
Definition Second : Z := 1000000000.
Definition Millisecond : Z := 1000000.

Definition defaultReadLimit : Z := Z.shiftl 16 20.
Definition defaultKeepalive : Z := 20 * Second.
Definition defaultKeepaliveTimeout : Z := 10 * Second.
Definition defaultReceiveBuffer : Z := 256.
Definition defaultMaxStreams : Z := 1000.

Inductive CompressionMode :=
| CompressionDisabled | CompressionContextTakeover | CompressionNoContextTakeover.

(** ** The server *)
Section server.
(** Handlers, and the function of [WithConnContext]. *)
Context {Handler ConnContext : Type}.

Record serverConfig := mkServerConfig {
  originPatterns : list string;
  originConfigured : bool;
  insecureSkipOrigin : bool;
  sc_readLimit : Z;
  sc_keepalive : Z;
  sc_keepaliveTimeout : Z;
  sc_receiveBuffer : Z;
  sc_initialWindow : Z;
  sc_maxStreams : Z;
  sc_compression : CompressionMode;
  connContext : option ConnContext;
  middleware : list (Handler → Handler);
  sc_stats : option ServerStats;
  unknownHandler : option Handler
}.
#[export] Instance eta_serverConfig : Eta serverConfig := λ c,
  mkServerConfig (originPatterns c) (originConfigured c) (insecureSkipOrigin c) (sc_readLimit c)
    (sc_keepalive c) (sc_keepaliveTimeout c) (sc_receiveBuffer c) (sc_initialWindow c)
    (sc_maxStreams c) (sc_compression c) (connContext c) (middleware c) (sc_stats c)
    (unknownHandler c).

Definition defaultServerConfig : serverConfig :=
  mkServerConfig [] false false defaultReadLimit defaultKeepalive defaultKeepaliveTimeout
    defaultReceiveBuffer defaultInitialWindow defaultMaxStreams CompressionDisabled None [] None None.

Inductive ServerOption :=
| WithOriginPatterns (patterns : list string)
| WithSameOriginOnly
| WithInsecureSkipOriginCheck
| WithKeepalive (interval timeout : Z)
| WithReadLimit (n : Z)
| WithReceiveBuffer (n : Z)
| WithInitialWindow (n : Z)
| WithMaxConcurrentStreams (n : Z)
| WithConnContext (fn : option ConnContext)
| WithCompression (m : CompressionMode)
| WithMiddleware (mw : list (Handler → Handler))
| WithUnknownHandler (h : option Handler)
| WithStats (st : option ServerStats).

Definition apply_server_option (c : serverConfig) (o : ServerOption) : serverConfig :=
  match o with
  | WithOriginPatterns ps => c <| originPatterns := ps |> <| originConfigured := true |>
  | WithSameOriginOnly => c <| originPatterns := [] |> <| originConfigured := true |>
  | WithInsecureSkipOriginCheck => c <| insecureSkipOrigin := true |>
  | WithKeepalive i t => c <| sc_keepalive := i |> <| sc_keepaliveTimeout := t |>
  | WithReadLimit n => c <| sc_readLimit := n |>
  | WithReceiveBuffer n => if 0 <? n then c <| sc_receiveBuffer := n |> else c
  | WithInitialWindow n => if 0 <? n then c <| sc_initialWindow := n |> else c
  | WithMaxConcurrentStreams n => c <| sc_maxStreams := n |>
  | WithConnContext fn => c <| connContext := fn |>
  | WithCompression m => c <| sc_compression := m |>
  | WithMiddleware mw => c <| middleware ::= λ l, l ++ mw |>
  | WithUnknownHandler h => c <| unknownHandler := h |>
  | WithStats st => c <| sc_stats := st |>
  end.

Definition server_config (opts : list ServerOption) : serverConfig :=
  foldl apply_server_option defaultServerConfig opts.

(** The options that choose an origin policy. *)
Definition is_origin_option (o : ServerOption) : bool :=
  match o with
  | WithOriginPatterns _ | WithSameOriginOnly | WithInsecureSkipOriginCheck => true
  | _ => false
  end.

Lemma gate_fold opts c :
  originConfigured (foldl apply_server_option c opts) ||
    insecureSkipOrigin (foldl apply_server_option c opts) =
  (originConfigured c || insecureSkipOrigin c) || existsb is_origin_option opts.
Proof.
  revert c. induction opts as [|o opts IH]; intros c; simpl; [by rewrite orb_false_r|].
  rewrite IH. destruct o; simpl; repeat case_match; simpl;
    rewrite ?orb_true_r, ?orb_false_r; simpl; rewrite ?orb_true_r; done.
Qed.

(** Middleware accumulates in the order of the options. *)
Lemma middleware_fold opts c :
  middleware (foldl apply_server_option c opts) =
  middleware c ++ (opts ≫= λ o, match o with WithMiddleware mw => mw | _ => [] end).
Proof.
  revert c. induction opts as [|o opts IH]; intros c; simpl; [by rewrite app_nil_r|].
  rewrite IH. destruct o; simpl; repeat case_match; simpl; rewrite ?app_assoc; done.
Qed.

(** The window of a server is always positive. *)
Lemma server_window_positive opts : 0 < sc_initialWindow (server_config opts).
Proof.
  unfold server_config. assert (0 < sc_initialWindow defaultServerConfig) as H by done.
  revert H. generalize defaultServerConfig.
  induction opts as [|o opts IH]; intros c Hc; simpl; [done|]. apply IH.
  destruct o; simpl; try done; destruct (Z.ltb_spec 0 n); done.
Qed.

End server.
Arguments serverConfig : clear implicits.
Arguments ServerOption : clear implicits.

(** ** Reconnection *)

Definition defaultReconnectInitial : Z := 100 * Millisecond.
Definition defaultReconnectMax : Z := 30 * Second.

Record reconnectConfig := mkReconnectConfig { enabled : bool; initial : Z; max : Z }.
#[export] Instance eta_reconnectConfig : Eta reconnectConfig := λ c,
  mkReconnectConfig (enabled c) (initial c) (max c).

Definition defaultReconnectConfig : reconnectConfig :=
  mkReconnectConfig false defaultReconnectInitial defaultReconnectMax.

Inductive ReconnectOption := WithBackoff (i m : Z).

Definition apply_reconnect_option (c : reconnectConfig) (o : ReconnectOption) : reconnectConfig :=
  match o with
  | WithBackoff i m =>
      let c := if 0 <? i then c <| initial := i |> else c in
      if 0 <? m then c <| max := m |> else c
  end.

(** The schedule of a reconnecting client is always positive. *)
Lemma reconnect_positive opts c :
  0 < initial c → 0 < max c →
  0 < initial (foldl apply_reconnect_option c opts) ∧ 0 < max (foldl apply_reconnect_option c opts).
Proof.
  revert c. induction opts as [|[i m] opts IH]; intros c Hi Hm; simpl; [done|]. apply IH;
    destruct (Z.ltb_spec 0 i), (Z.ltb_spec 0 m); done.
Qed.

(** ** The client *)
Section client.
Context {Interceptor HttpHeader : Type}.

Record dialConfig := mkDialConfig {
  dc_header : option HttpHeader;
  dc_readLimit : Z;
  dc_keepalive : Z;
  dc_keepaliveTimeout : Z;
  dc_receiveBuffer : Z;
  dc_initialWindow : Z;
  dc_compression : CompressionMode;
  reconnect : reconnectConfig;
  interceptors : list Interceptor
}.
#[export] Instance eta_dialConfig : Eta dialConfig := λ c,
  mkDialConfig (dc_header c) (dc_readLimit c) (dc_keepalive c) (dc_keepaliveTimeout c)
    (dc_receiveBuffer c) (dc_initialWindow c) (dc_compression c) (reconnect c) (interceptors c).

Definition defaultDialConfig : dialConfig :=
  mkDialConfig None defaultReadLimit defaultKeepalive defaultKeepaliveTimeout defaultReceiveBuffer
    defaultInitialWindow CompressionDisabled (mkReconnectConfig false 0 0) [].

Inductive DialOption :=
| WithHeader (h : option HttpHeader)
| WithDialKeepalive (interval timeout : Z)
| WithDialReadLimit (n : Z)
| WithDialReceiveBuffer (n : Z)
| WithDialInitialWindow (n : Z)
| WithDialCompression (m : CompressionMode)
| WithClientInterceptor (ics : list Interceptor)
| WithReconnect (opts : list ReconnectOption).

Definition withReconnect (opts : list ReconnectOption) (c : dialConfig) : dialConfig :=
  c <| reconnect := foldl apply_reconnect_option (defaultReconnectConfig <| enabled := true |>) opts |>.

Definition apply_dial_option (c : dialConfig) (o : DialOption) : dialConfig :=
  match o with
  | WithHeader h => c <| dc_header := h |>
  | WithDialKeepalive i t => c <| dc_keepalive := i |> <| dc_keepaliveTimeout := t |>
  | WithDialReadLimit n => c <| dc_readLimit := n |>
  | WithDialReceiveBuffer n => if 0 <? n then c <| dc_receiveBuffer := n |> else c
  | WithDialInitialWindow n => if 0 <? n then c <| dc_initialWindow := n |> else c
  | WithDialCompression m => c <| dc_compression := m |>
  | WithClientInterceptor ics => c <| interceptors ::= λ l, l ++ ics |>
  | WithReconnect opts => withReconnect opts c
  end.

Definition dial_config (opts : list DialOption) : dialConfig :=
  foldl apply_dial_option defaultDialConfig opts.

(** A client that reconnects has a positive backoff schedule. *)
Lemma dial_reconnect_positive opts :
  enabled (reconnect (dial_config opts)) = true →
  0 < initial (reconnect (dial_config opts)) ∧ 0 < max (reconnect (dial_config opts)).
Proof.
  unfold dial_config.
  assert (∀ c, (enabled (reconnect c) = true → 0 < initial (reconnect c) ∧ 0 < max (reconnect c)) →
    enabled (reconnect (foldl apply_dial_option c opts)) = true →
    0 < initial (reconnect (foldl apply_dial_option c opts)) ∧
    0 < max (reconnect (foldl apply_dial_option c opts))) as H; [|by apply H].
  induction opts as [|o opts IH]; intros c Hc; simpl; [done|]. apply IH.
  destruct o; simpl; try done; try (by case_match). intros _. by apply reconnect_positive.
Qed.

Lemma dial_window_positive opts : 0 < dc_initialWindow (dial_config opts).
Proof.
  unfold dial_config. assert (0 < dc_initialWindow (defaultDialConfig)) as Hd by done.
  revert Hd. generalize defaultDialConfig. induction opts as [|o opts IH]; intros c Hc; simpl; [done|].
  apply IH. destruct o; simpl; try done; by destruct (Z.ltb_spec 0 n).
Qed.

(** Only [WithReconnect] turns the controller on, and it is never turned off. *)
Lemma reconnect_enabled opts :
  enabled (reconnect (dial_config opts)) = true ↔ ∃ ros, WithReconnect ros ∈ opts.
Proof.
  assert (∀ ros r, enabled (foldl apply_reconnect_option r ros) = enabled r) as Hro.
  { induction ros as [|[i m] ros IH]; intros r; simpl; [done|]. rewrite IH.
    by destruct (0 <? i), (0 <? m). }
  assert (∀ c : dialConfig, enabled (reconnect (foldl apply_dial_option c opts)) = true ↔
    enabled (reconnect c) = true ∨ ∃ ros, WithReconnect ros ∈ opts) as Hall.
  { induction opts as [|o opts IH]; intros c; simpl.
    - split; [by left|]. intros [?|[ros Hros%elem_of_nil]]; done.
    - rewrite IH. setoid_rewrite elem_of_cons.
      destruct o; simpl; rewrite ?Hro; try case_match; naive_solver. }
  unfold dial_config. rewrite Hall. simpl. naive_solver.
Qed.

End client.
Arguments dialConfig : clear implicits.
Arguments DialOption : clear implicits.

(** ** callopt.go *)

Inductive CallOption :=
| WithCallHeader (key value : string)
| WithCallHeaders (h : gomap).

Definition apply_call_option (c : gomap) (o : CallOption) : gomap :=
  match o with
  | WithCallHeader k v => Some (<[k:=v]> (default ∅ c))
  | WithCallHeaders h => Some (gomap_merge (default ∅ c) h)
  end.

(** [CallHeaders(opts...)]. *)
Definition CallHeaders (opts : list CallOption) : gomap := foldl apply_call_option None opts.

(** The value the options give to a key. *)
Definition option_value (o : CallOption) (k : string) : option string :=
  match o with
  | WithCallHeader k' v => if decide (k' = k) then Some v else None
  | WithCallHeaders h => h ≫= lookup k
  end.

(** Without options there is no map; with options, the last one that mentions a key
    decides its value. *)
Lemma CallHeaders_last_wins opts k :
  CallHeaders opts ≫= lookup k = last (omap (λ o, option_value o k) opts) ∧
  (CallHeaders opts = None ↔ opts = []).
Proof.
  unfold CallHeaders. induction opts as [|o opts [IH1 IH2]] using rev_ind; [done|].
  rewrite foldl_snoc, omap_app. split.
  - simpl. destruct o as [k' v|h]; simpl.
    + case_decide as Hk; simpl.
      * subst. by rewrite lookup_insert_eq, last_snoc.
      * rewrite lookup_insert_ne, app_nil_r by done.
        rewrite <-IH1. by destruct (foldl _ _ _).
    + unfold gomap_merge. destruct h as [h|]; simpl.
      * rewrite lookup_union. destruct (h !! k) eqn:E; simpl.
        -- rewrite last_snoc. by destruct (default ∅ _ !! k).
        -- rewrite app_nil_r, <-IH1. rewrite (left_id None _). by destruct (foldl _ _ _).
      * rewrite (left_id ∅ (∪)), app_nil_r, <-IH1. by destruct (foldl _ _ _).
  - split; [by destruct o|]. by intros [_ ?]%app_nil.
Qed.
