(* ===== verification/Server.v ===== *)
(** * The server

    [server.go] and [middleware.go]: registration, the origin gate, the goroutines
    of a connection, and [serveStream], which runs one RPC to its END frame. *)

From S2P Require Import Prelude Goroutine Status Context Conn Strconv Stream World StreamOps MuxOps Admission Alone Routing Lifecycle Options.

(** ** Wrapping

    [for i := len(ws) - 1; i >= 0; i-- { x = ws[i](x) }]: the loop of [chain],
    [chainUnary] and [chainStreaming]. *)
Section wrap.
Context {A F : Type} (wrap : A → F → F).

Fixpoint wrap_loop (i : nat) (ws : list A) (x : F) : F :=
  match i with
  | O => x
  | S i => match ws !! i with Some a => wrap_loop i ws (wrap a x) | None => x end
  end.

Lemma wrap_loop_take i ws x : (i ≤ length ws)%nat → wrap_loop i ws x = foldr wrap x (take i ws).
Proof.
  revert x. induction i as [|i IH]; intros x Hi; simpl; [done|].
  destruct (lookup_lt_is_Some_2 ws i) as [a Ha]; [lia|]. rewrite Ha, IH by lia.
  by rewrite (take_S_r _ _ a Ha), foldr_app.
Qed.

(** The first wrapper is the outermost. *)
Lemma wrap_loop_foldr ws x : wrap_loop (length ws) ws x = foldr wrap x ws.
Proof. by rewrite wrap_loop_take, firstn_all by done. Qed.
End wrap.

Section server.
Context {C : Type} `{!FrameConn C} `{!GrpcLib}.
Abbreviation W := (World C).
Implicit Types (w : W) (p : nat).

(** ** Handlers and middleware *)

(** A handler returns an error or nil, or panics with a value ([v] is its [%v]). *)
Inductive HandlerResult :=
| Returned (err : option error)
| Panicked (v : string).

Definition Handler : Type := ctx → nat → Prog W HandlerResult.
Definition Middleware : Type := Handler → Handler.

Definition chain (h : Handler) (mw : list Middleware) : Handler :=
  wrap_loop (λ m h, m h) (length mw) mw h.

(** ** The server *)

Abbreviation config := (serverConfig Handler (ctx → ctx)).

(** [handlers]: a registered handler may be nil. *)
Record Server := mkServer { cfg : config; handlers : gmap string (option Handler) }.
#[local] Instance eta_Server : Eta Server := λ s, mkServer (cfg s) (handlers s).

Definition NewServer (opts : list (ServerOption Handler (ctx → ctx))) : Server :=
  mkServer (server_config opts) ∅.

Definition Register (method : string) (h : option Handler) (srv : Server) : Server :=
  srv <| handlers ::= <[method := h]> |>.

(** [slices.Sorted(maps.Keys(s.handlers))]. *)
Definition Methods (srv : Server) : list string :=
  merge_sort String.le (map_to_list (handlers srv)).*1.

(** ** One RPC *)

Definition lookup_handler (srv : Server) (m : string) : option Handler :=
  match mjoin (handlers srv !! m) with
  | Some h => Some h
  | None => unknownHandler (cfg srv)
  end.

(** The body of [serveStream]; a panic unwinds to the deferred [recover]. *)
Definition serve_handler (srv : Server) (h : Handler) p (s : Stream) : Prog W unit :=
  stat (EvStreamStarted (method s)) ;;
  r <- chain h (middleware (cfg srv)) (sctx s) p ;;
  match r with
  | Panicked v =>
      end_ p (Some (mkStatus codes.Internal ("wsrpc: panic: " +:+ v) [])) None ;; Ret ()
  | Returned err =>
      let st := default (mkStatus codes.OK EmptyString []) (FromError err) in
      stat (EvStreamEnded (method s) (Code st)) ;;
      tr <- takeTrailer p ;;
      end_ p (Some st) tr ;; Ret ()
  end.

(** The deferred calls run last to first: [recover], [deadlineCancel], [remove]. *)
Definition serveStream (srv : Server) p : Prog W unit :=
  s <- get_stream p ;;
  match lookup_handler srv (method s) with
  | None =>
      end_ p (Some (mkStatus codes.Unimplemented ("unknown method " +:+ method s) [])) None ;; Ret ()
  | Some h => serve_handler srv h p s
  end ;;
  match deadlineCancel s with Some dc => ctx_cancel dc | None => Ret () end ;;
  remove (sid s).

(** ** Connections *)

(** [newServerMux]: the state and the goroutines of a connection. *)
Definition newServerMux (srv : Server) (c : ctx) (cn : C) (σ : CtxStore) : Config W :=
  mkConfig
    (newMuxConfig c cn (sc_receiveBuffer (cfg srv)) (sc_initialWindow (cfg srv))
       (sc_maxStreams (cfg srv)) (sc_stats (cfg srv)) σ)
    (mux_goroutines (Some (λ p, Go (serveStream srv p)))).

(** [<-mux.ctx.Done()]. *)
Definition await_mux : Prog W unit :=
  Act (λ w, if decide (is_Some (ctx_Err (ctxs w) (mctx (mux w)))) then [(w, ())] else []).

(** A connection whose main goroutine, once the mux exists, is [main];
    [connOpened] fired before. *)
Definition serving (srv : Server) (c : ctx) (cn : C) (σ : CtxStore) (main : Prog W unit) : Config W :=
  let k := newServerMux srv c cn σ in
  mkConfig ((world k) <| events := stat_dispatch (sc_stats (cfg srv)) EvConnOpened [] |>)
    (threads k ++ [main]).

Definition ServeConn (srv : Server) (c : ctx) (cn : C) (σ : CtxStore) : Config W :=
  serving srv c cn σ (await_mux ;; stat EvConnClosed).

(** What [ServeHTTP] passes to [websocket.Accept]. *)
Record AcceptOptions := mkAcceptOptions {
  Subprotocols : list string;
  OriginPatterns : list string;
  InsecureSkipVerify : bool;
  AcceptCompression : CompressionMode
}.

(** An HTTP error response, a failed handshake, or a connection. *)
Inductive Served :=
| HttpError (code : Z) (msg : string) (evs : list StatEvent)
| UpgradeFailed (evs : list StatEvent)
| Connected (k : Config W).

(** [websocket.Accept] is a parameter: [None] is an error; so are [SetReadLimit] and
    [CloseNow] of the connection it returns. *)
Definition ServeHTTP (accept : AcceptOptions → option C) (setReadLimit : Z → C → C)
    (closeNow : C → C) (srv : Server) (base : ctx) (σ : CtxStore) : Served :=
  let st := sc_stats (cfg srv) in
  if negb (originConfigured (cfg srv)) && negb (insecureSkipOrigin (cfg srv)) then
    HttpError 403 "wsrpc: origin policy not configured (use WithSameOriginOnly, WithOriginPatterns or WithInsecureSkipOriginCheck)"
      (stat_dispatch st (EvConnRejected statsReasonOriginPolicy) [])
  else
    match accept (mkAcceptOptions [WSConn.Subprotocol] (originPatterns (cfg srv))
                    (insecureSkipOrigin (cfg srv)) (sc_compression (cfg srv))) with
    | None => UpgradeFailed (stat_dispatch st (EvConnRejected statsReasonUpgrade) [])
    | Some cn =>
        let base := match connContext (cfg srv) with Some fn => fn base | None => base end in
        let cn := WSConn.newWSConn setReadLimit cn (sc_readLimit (cfg srv)) in
        Connected (serving srv base cn σ
          (startKeepalive (sc_keepalive (cfg srv)) (sc_keepaliveTimeout (cfg srv)) ;;
           await_mux ;;
           err <- Act (λ w, (λ '(cn, r), (w <| conn := cn |>, r)) <$> CloseConn (conn w)) ;;
           match err with
           | Some _ => modify (λ w, w <| conn ::= closeNow |>)
           | None => Ret ()
           end ;;
           stat EvConnClosed))
    end.

(** ** Properties *)

(** Middleware composes with the first one outermost. *)
Lemma chain_foldr h mw : chain h mw = foldr (λ m h, m h) h mw.
Proof. apply wrap_loop_foldr. Qed.

(** The origin gate fails closed: a server answers every upgrade with 403, and
    creates no connection, exactly when none of the origin options was given; when
    one was, the handshake enforces the configured policy. *)
Theorem origin_gate accept setReadLimit closeNow opts base σ :
  (∃ msg evs, ServeHTTP accept setReadLimit closeNow (NewServer opts) base σ = HttpError 403 msg evs) ↔
  Forall (λ o, is_origin_option o = false) opts.
Proof.
  pose proof (gate_fold opts defaultServerConfig) as Hg. simpl in Hg.
  change (foldl apply_server_option defaultServerConfig opts) with (server_config opts) in Hg.
  unfold ServeHTTP, NewServer. simpl. rewrite <-negb_orb, Hg.
  destruct (existsb is_origin_option opts) eqn:E; simpl.
  - apply existsb_exists in E as (o & Ho%list_elem_of_In & Hoo). split.
    + intros (msg & evs & H'). by destruct (accept _).
    + intros Hall. eapply Forall_forall in Hall; [|exact Ho]. congruence.
  - split; [|by eauto]. intros _. apply Forall_forall. intros o Ho%list_elem_of_In.
    destruct (is_origin_option o) eqn:Eo; [|done].
    assert (existsb is_origin_option opts = true) by (apply existsb_exists; eauto). congruence.
Qed.

(** [Methods] lists every registered method exactly once, in sorted order. *)
Theorem Methods_sorted srv :
  StronglySorted String.le (Methods srv) ∧ NoDup (Methods srv) ∧
  ∀ m, m ∈ Methods srv ↔ is_Some (handlers srv !! m).
Proof.
  assert (Methods srv ≡ₚ (map_to_list (handlers srv)).*1) as Hp by apply merge_sort_Permutation.
  split_and!.
  - apply Sorted_StronglySorted; [apply _|]. apply Sorted_merge_sort. apply _.
  - rewrite Hp. apply NoDup_fst_map_to_list.
  - intros m. rewrite Hp, list_elem_of_fmap. split.
    + intros ([k h] & -> & Hin%elem_of_map_to_list). eauto.
    + intros [h Hh]. exists (m, h). by rewrite elem_of_map_to_list.
Qed.

(** ** The outcome of an RPC *)

(** The status a handler's result ends the stream with. *)
Definition final_status (r : HandlerResult) : Status :=
  match r with
  | Returned err => default (mkStatus codes.OK EmptyString []) (FromError err)
  | Panicked v => mkStatus codes.Internal ("wsrpc: panic: " +:+ v) []
  end.

(** The trailers: those the handler set, none after a panic. *)
Definition final_trailers (r : HandlerResult) (s : Stream) : gomap :=
  match r with Returned _ => outTrailer s | Panicked _ => None end.

(** The state a handler returns in: its stream is still the same one, nobody holds
    its mutexes, and the connection takes writes. *)
Record returned_in p (s : Stream) w (s' : Stream) : Prop := mk_returned_in {
  ri_stream : heap w !! p = Some s';
  ri_sid : sid s' = sid s;
  ri_sctx : sctx s' = sctx s;
  ri_idle : idle s';
  ri_write : can_write w;
  ri_mux : mmu (mux w) = false
}.

(** What is left of the stream [s] when its goroutine is done: it has ended with
    [st], its END frame was written unless the connection failed the write, its
    contexts are released and its id is free. *)
Record served p (s : Stream) (st : Status) (tr : gomap) w w' : Prop := mk_served {
  sv_end : ∃ s', heap w' = <[p:=s']> (heap w) ∧ ended s' = true ∧ endSt s' = Some st;
  sv_ctx : is_Some (ctx_Err (ctxs w') (sctx s));
  sv_deadline dc : deadlineCancel s = Some dc → dc ≠ [] → is_Some (ctx_Err (ctxs w') dc);
  sv_free : streams (mux w') = delete (sid s) (streams (mux w));
  sv_frame : ∃ cn err,
    (cn, err) ∈ WriteFrame (ctx_Err (ctxs w) (mctx (mux w))) (end_frame (sid s) (Some st) tr) (conn w) ∧
    wlog w' = wlog w ++ (match err with None => [end_frame (sid s) (Some st) tr] | Some _ => [] end)
}.

(** [end], then the deferred calls. *)
Lemma total_end_defers (Q : unit → W → Prop) p s s' st tr w :
  returned_in p s w s' → sctx s ≠ [] →
  (∀ w', events w' = events w → served p s st tr w w' → Q () w') →
  total (λ _, total Q
      (match deadlineCancel s with Some dc => ctx_cancel dc | None => Ret () end ;;
       remove (sid s)))
    (end_ p (Some st) tr ;; Ret ()) w.
Proof.
  intros [Hp Hsid Hsctx Hid Hw Hm] Hne HQ. apply total_bind.
  eapply total_end; [done..|]. intros cn err Hin. rewrite Hsid in Hin. apply total_ret.
  set (w1 := set_stream _ _ _).
  assert (is_Some (ctx_Err (ctxs w1) (sctx s))) as Hdone.
  { rewrite <-Hsctx in *. destruct (sctx s') as [|n c]; [done|]. apply ctx_kill_done. }
  assert (∀ w2, heap w2 = heap w1 → mux w2 = mux w1 → wlog w2 = wlog w1 → events w2 = events w1 →
    ctx_le (ctxs w1) (ctxs w2) →
    (∀ dc, deadlineCancel s = Some dc → dc ≠ [] → is_Some (ctx_Err (ctxs w2) dc)) →
    total Q (remove (sid s)) w2) as Hrm.
  { intros w2 Hh2 Hm2 Hl2 He2 Hle Hdl. apply total_remove; [by rewrite Hm2|].
    apply HQ; [done|]. split.
    - simpl. rewrite Hh2. by eexists.
    - by eapply ctx_Err_mono.
    - done.
    - simpl. by rewrite Hm2.
    - exists cn, err. split; [done|]. simpl. rewrite Hl2. simpl. rewrite Hsid.
      by destruct err; rewrite ?app_nil_r. }
  apply total_bind. destruct (deadlineCancel s) as [dc|] eqn:Edc.
  - apply total_modify, Hrm; try done; simpl; [apply ctx_kill_le|].
    intros dc' [= <-] Hdc. destruct dc as [|n c]; [done|]. apply ctx_kill_done.
  - by apply total_ret, Hrm.
Qed.

(** C12: every RPC ends.  Whatever its handler, wrapped in the middleware, does,
    returns or panics with, [serveStream] ends the stream with the corresponding
    status and the trailers that were set, offers the END frame to the connection
    under the mux context, releases the deadline and removes the id; a panic ends
    this stream with Internal, and nothing else.  The handler is started once, and
    its end is reported with the code that is sent. *)
Theorem serveStream_handled srv p s h (P : HandlerResult → W → Prop) w :
  heap w !! p = Some s → sctx s ≠ [] → lookup_handler srv (method s) = Some h →
  total P (foldr (λ m h, m h) h (middleware (cfg srv)) (sctx s) p)
    (w <| events ::= stat_dispatch (stats (mux w)) (EvStreamStarted (method s)) |>) →
  (∀ r w1, P r w1 → ∃ s1, returned_in p s w1 s1) →
  total (λ _ w2, ∃ r w1 s1, P r w1 ∧ returned_in p s w1 s1 ∧
      served p s (final_status r) (final_trailers r s1) w1 w2 ∧
      events w2 = match r with
        | Returned _ => stat_dispatch (stats (mux w1))
            (EvStreamEnded (method s) (Code (final_status r))) (events w1)
        | Panicked _ => events w1
        end)
    (serveStream srv p) w.
Proof.
  intros Hp Hne Hh Htot HP. unfold serveStream. apply total_bind. eapply total_get_stream; [done|].
  rewrite Hh. unfold serve_handler. rewrite chain_foldr.
  apply total_bind, total_bind, total_stat, total_bind.
  eapply total_mono; [|exact Htot]. intros r w1 Hr. destruct (HP r w1 Hr) as [s1 Hs1].
  pose proof Hs1 as [Hp1 Hsid Hsctx [Hmu1 Hb1] Hw1 Hm1]. destruct r as [err|v].
  - apply total_bind, total_stat, total_bind. eapply total_locked_read; [exact Hp1|done|].
    eapply (total_end_defers _ _ _ s1); [by split|done|].
    intros w2 Hev Hsv. exists (Returned err), w1, s1. split_and!; [done..| |done].
    by destruct Hsv; split.
  - eapply (total_end_defers _ _ _ s1); [done..|]. intros w2 Hev Hsv.
    by exists (Panicked v), w1, s1.
Qed.

(** A method without a handler ends with Unimplemented; no handler runs and
    no start or end of a handler is reported. *)
Theorem serveStream_unknown srv p s w :
  returned_in p s w s → sctx s ≠ [] → lookup_handler srv (method s) = None →
  total (λ _ w2, events w2 = events w ∧
      served p s (mkStatus codes.Unimplemented ("unknown method " +:+ method s) []) None w w2)
    (serveStream srv p) w.
Proof.
  intros Hs Hne Hh. unfold serveStream. apply total_bind.
  eapply total_get_stream; [apply Hs|]. rewrite Hh. apply total_bind.
  by eapply (total_end_defers _ _ _ s).
Qed.

(** ** The stream limit *)

(** The handlers of a server never register a stream themselves: they run calls of
    the runtime on their own stream. *)
Definition handlers_shrink (srv : Server) : Prop :=
  ∀ m h c p, lookup_handler srv m = Some h →
    all_acts shrinks (foldr (λ m h, m h) h (middleware (cfg srv)) c p).

Lemma shr_serveStream srv p : handlers_shrink srv → all_acts shrinks (serveStream srv p).
Proof.
  intros Hh. pose proof shr_end. pose proof (shr_takeTrailer (C:=C)).
  split; [apply shr_on_stream|]. intros s. split; [|intros _; split].
  - destruct (lookup_handler srv (method s)) as [h|] eqn:E.
    + unfold serve_handler. rewrite chain_foldr. split; [apply shr_stat|]. intros _.
      split; [by eapply Hh|]. intros [err|v].
      * split; [apply shr_stat|]. intros _. split; [done|]. by split.
      * by split.
    + by split.
  - destruct (deadlineCancel s); [apply shr_ctx_cancel|done].
  - intros _. apply shr_remove.
Qed.

(** C11: on a server with a positive stream limit, in every interleaving of the read
    loop with the handlers, the control writer and the goroutine that waits for the
    connection, whatever the wire does: a connection has at most
    [MaxConcurrentStreams] open streams. *)
Theorem server_max_streams srv c cn σ k :
  0 < sc_maxStreams (cfg srv) → handlers_shrink srv →
  rtc (sys_step elsewhere) (ServeConn srv c cn σ) k →
  Z.of_nat (size (streams (mux (world k)))) ≤ sc_maxStreams (cfg srv).
Proof.
  intros Hmax Hh Hrtc.
  apply (cap_invariant (world (ServeConn srv c cn σ)) (λ p, Go (serveStream srv p))
    [await_mux ;; stat EvConnClosed]); [done|done|..|done].
  - intros p. by apply shr_serveStream.
  - constructor; [|done]. split; [|intros _; apply shr_stat].
    intros w w' b Hin. case_decide; by inv_elem.
Qed.

End server.
