(* ===== verification/Oblivious.v ===== *)
(** * Code that does not see the adapters

    A call served by an adapter keeps response headers in an object of its own.  The
    rest of the runtime is oblivious of these objects: it runs the same way whatever
    they hold, and leaves them alone.  So two servers that differ only in the adapters
    their handlers use are simulated (Simulation.v) when their handlers are
    ([ServeConn_simulates]), in every interleaving of the goroutines of a connection. *)

From S2P Require Import Prelude Goroutine Simulation Status Context Conn Strconv Stream World StreamOps MuxOps Endpoint Admission Alone Routing Lifecycle Options Server.

Section oblivious.
Context {C : Type} `{!FrameConn C} `{!GrpcLib}.
Abbreviation W := (World C).
Implicit Types (w : W) (p : nat).

(** ** Worlds that differ in the state of the adapters only *)

Definition reskin (gs : list ServerStreamState) (sh : list ShimState) (w : W) : W :=
  w <| gstreams := gs |> <| shims := sh |>.

Definition alike : relation W := λ w1 w2, reskin [] [] w1 = reskin [] [] w2.

#[export] Instance alike_equiv : Equivalence alike.
Proof. split; [by intros w|by intros w1 w2|]. intros w1 w2 w3. unfold alike. congruence. Qed.

Lemma alike_reskin gs sh w : alike w (reskin gs sh w).
Proof. done. Qed.

Lemma alike_inv w1 w2 : alike w1 w2 → w2 = reskin (gstreams w2) (shims w2) w1.
Proof. unfold alike, reskin. destruct w1, w2; simpl. congruence. Qed.

Lemma alike_wlog w1 w2 : alike w1 w2 → wlog w1 = wlog w2.
Proof. intros Hs. by rewrite (alike_inv _ _ Hs). Qed.

(** ** Programs that do not look at the adapters *)

Definition oblivious_act {B} (a : W → list (W * B)) : Prop :=
  ∀ gs sh w, a (reskin gs sh w) = (λ '(w', b), (reskin gs sh w', b)) <$> a w.

Fixpoint oblivious {A} (p : Prog W A) : Prop :=
  match p with
  | Ret _ => True
  | Act a => oblivious_act a
  | Go t => oblivious t
  | Iter body s => ∀ s', oblivious (body s')
  | Bind p f => oblivious p ∧ ∀ a, oblivious (f a)
  end.

Lemma oblivious_act_alike {B} (a : W → list (W * B)) w1 w2 w1' b :
  oblivious_act a → alike w1 w2 → (w1', b) ∈ a w1 →
  ∃ w2', (w2', b) ∈ a w2 ∧ alike w1' w2' ∧
    gstreams w1' = gstreams w1 ∧ shims w1' = shims w1 ∧
    gstreams w2' = gstreams w2 ∧ shims w2' = shims w2.
Proof.
  intros Ha Hs Hin. rewrite (alike_inv _ _ Hs) in *. simpl.
  assert (a w1 = (λ '(w', b), (reskin (gstreams w1) (shims w1) w', b)) <$> a w1) as Hid.
  { rewrite <-Ha. f_equal. by destruct w1. }
  rewrite Hid in Hin. apply list_elem_of_fmap in Hin as ([w b'] & ? & Hin). simplify_eq.
  exists (reskin (gstreams w2) (shims w2) w). split_and!; try done.
  rewrite Ha. apply list_elem_of_fmap. by exists (w, b').
Qed.

(** ** The private state

    An adapter keeps the headers it will send in an object of its own, a
    [ServerStreamState] or a [ShimState]. *)
Inductive address := AtGStream (x : nat) | AtShim (x : nat).

Definition slot (w : W) (a : address) : option MD :=
  match a with
  | AtGStream x => pending <$> gstreams w !! x
  | AtShim x => pendingHeader <$> shims w !! x
  end.

Lemma slot_ext w w' a : gstreams w' = gstreams w → shims w' = shims w → slot w' a = slot w a.
Proof. destruct a; simpl; congruence. Qed.

Lemma oblivious_blind {A} (p : Prog W A) : oblivious p → blind alike slot slot p.
Proof.
  induction p as [A a|B a|t IH|S B body IH s|A B p IHp f IHf]; simpl; auto.
  - intros Ha w1 w2 w1' b Hs Hin.
    destruct (oblivious_act_alike a w1 w2 w1' b Ha Hs Hin) as (w2' & ? & ? & ? & ? & ? & ?).
    exists w2'. split_and!; [done..|by intros; apply slot_ext|by intros; apply slot_ext].
  - intros [? ?]. auto.
Qed.

End oblivious.

Create HintDb oblivious.

Ltac solve_oblivious :=
  repeat lazymatch goal with
  | |- oblivious (Ret _) => exact I
  | |- oblivious (Bind _ _) => split
  | |- oblivious (Iter _ _) => intros ?
  | |- oblivious (match ?x with _ => _ end) => destruct x
  | |- ∀ _, oblivious _ => intros ?
  | |- oblivious _ => solve [auto with oblivious]
  end.

(** ** The runtime is oblivious *)

Section runtime.
Context {C : Type} `{!FrameConn C} `{!GrpcLib}.
Abbreviation W := (World C).
Implicit Types (w : W) (p : nat).

(** *** Actions *)

Ltac solve_obl :=
  intros gs sh w; first [reflexivity | simpl; repeat case_match; simplify_eq/=; done].

Lemma skips_on_stream {B} p (f : Stream → Stream * B) : oblivious (C:=C) (on_stream p f).
Proof. solve_obl. Qed.
Lemma skips_locked_ctx {B} p (f : CtxStore → Stream → Stream * B) : oblivious (C:=C) (locked_ctx p f).
Proof. solve_obl. Qed.
Lemma skips_once {B} p (f : Stream → Stream * B) : oblivious (C:=C) (once p f).
Proof. solve_obl. Qed.
Lemma skips_recv_select c p : oblivious (C:=C) (recv_select c p).
Proof.
  intros gs sh w. simpl. case_match; [|done]. rewrite <-list_fmap_compose. apply list_fmap_ext.
  intros _ b _. by destruct b.
Qed.
Lemma skips_mux_write c f : oblivious (C:=C) (mux_write c f).
Proof.
  split; [|intros _; split; [|intros r; split; [|done]]].
  - solve_obl.
  - intros gs sh w. simpl. unfold conn_write. rewrite <-list_fmap_compose. apply list_fmap_ext.
    by intros _ [] _.
  - done.
Qed.
Lemma skips_ctx_cancel c : oblivious (C:=C) (ctx_cancel c).
Proof. solve_obl. Qed.
Lemma skips_stat ev : oblivious (C:=C) (stat ev).
Proof. solve_obl. Qed.
Lemma skips_writeCtrl f : oblivious (C:=C) (writeCtrl f).
Proof. solve_obl. Qed.
Lemma skips_lookup_stream id : oblivious (C:=C) (lookup_stream id).
Proof. solve_obl. Qed.
Lemma skips_register id p : oblivious (C:=C) (register id p).
Proof. solve_obl. Qed.
Lemma skips_remove id : oblivious (C:=C) (remove id).
Proof. solve_obl. Qed.
Lemma skips_ctx_err_of c : oblivious (C:=C) (ctx_err_of c).
Proof. solve_obl. Qed.

Lemma skips_read {B} (f : W → B) : (∀ gs sh w, f (reskin gs sh w) = f w) → oblivious (C:=C) (read f).
Proof. intros Hf gs sh w. simpl. by rewrite Hf. Qed.
Lemma skips_on_sink {B} a (f : mdSink → mdSink * B) : oblivious (C:=C) (on_sink a f).
Proof. solve_obl. Qed.
Lemma skips_new_sink o : oblivious (C:=C) (new_sink o).
Proof. solve_obl. Qed.
Lemma skips_locked {B} p (f : Stream → Stream * B) : oblivious (C:=C) (locked p f).
Proof. apply skips_locked_ctx. Qed.
Lemma skips_locked_ p f : oblivious (C:=C) (locked_ p f).
Proof. apply skips_locked_ctx. Qed.
Lemma skips_on_stream_ p f : oblivious (C:=C) (on_stream_ p f).
Proof. apply skips_on_stream. Qed.
Lemma skips_get_stream p : oblivious (C:=C) (get_stream p).
Proof. apply skips_on_stream. Qed.

#[local] Hint Resolve skips_on_stream skips_locked_ctx skips_once skips_recv_select skips_mux_write
  skips_ctx_cancel skips_stat skips_writeCtrl skips_lookup_stream skips_register skips_remove
  skips_ctx_err_of skips_read skips_locked skips_locked_ skips_on_stream_ skips_get_stream : oblivious.

(** *** Methods *)

Lemma skips_Header p : oblivious (C:=C) (Header p).
Proof. unfold Header. solve_oblivious. Qed.
Lemma skips_SendHeader p md : oblivious (C:=C) (SendHeader p md).
Proof. unfold SendHeader. solve_oblivious. Qed.
Lemma skips_SetTrailer p md : oblivious (C:=C) (SetTrailer p md).
Proof. unfold SetTrailer. solve_oblivious. Qed.
Lemma skips_takeTrailer p : oblivious (C:=C) (takeTrailer p).
Proof. unfold takeTrailer. solve_oblivious. Qed.
Lemma skips_setLeadingHeader p md : oblivious (C:=C) (setLeadingHeader p md).
Proof. unfold setLeadingHeader. solve_oblivious. Qed.
Lemma skips_send_wait p n : oblivious (C:=C) (send_wait p n).
Proof.
  unfold send_wait, send_head, cond_wait. solve_oblivious. intros gs sh w. simpl.
  by repeat case_match.
Qed.
#[local] Hint Resolve skips_send_wait : oblivious.
Lemma skips_SendRaw p b : oblivious (C:=C) (SendRaw p b).
Proof. unfold SendRaw. cbv zeta. solve_oblivious. Qed.
Lemma skips_creditSend p d : oblivious (C:=C) (creditSend p d).
Proof. unfold creditSend. solve_oblivious. Qed.
Lemma skips_deliverPayload p f : oblivious (C:=C) (deliverPayload p f).
Proof. unfold deliverPayload, returnCredit. solve_oblivious. Qed.
Lemma skips_applyEnd p f : oblivious (C:=C) (applyEnd p f).
Proof. unfold applyEnd. solve_oblivious. Qed.
#[local] Hint Resolve skips_deliverPayload skips_applyEnd : oblivious.
Lemma skips_recvEnded p : oblivious (C:=C) (recvEnded p).
Proof. unfold recvEnded, status. cbv zeta. solve_oblivious. Qed.
#[local] Hint Resolve skips_recvEnded : oblivious.
Lemma skips_RecvRawContext c p : oblivious (C:=C) (RecvRawContext c p).
Proof. unfold RecvRawContext, recv_case, pop_or. solve_oblivious. Qed.
Lemma skips_failWith p err : oblivious (C:=C) (failWith p err).
Proof. unfold failWith. solve_oblivious. Qed.
#[local] Hint Resolve skips_failWith : oblivious.
Lemma skips_end p st tr : oblivious (C:=C) (end_ p st tr).
Proof. unfold end_. solve_oblivious. Qed.
Lemma skips_tryDeliver p f : oblivious (C:=C) (tryDeliver p f).
Proof. unfold tryDeliver. solve_oblivious. Qed.
Lemma skips_signalEnd p f : oblivious (C:=C) (signalEnd p f).
Proof. unfold signalEnd. solve_oblivious. Qed.
#[local] Hint Resolve skips_tryDeliver skips_signalEnd skips_creditSend skips_setLeadingHeader : oblivious.

Lemma skips_for_each {X} (l : list X) (f : X → Prog W unit) :
  (∀ x, oblivious (f x)) → oblivious (for_each l f).
Proof. intros Hf. by induction l; simpl; [|split]. Qed.

Lemma skips_route_msg p f : oblivious (C:=C) (route_msg p f).
Proof. unfold route_msg. solve_oblivious. Qed.
Lemma skips_failAll e : oblivious (C:=C) (failAll e).
Proof.
  unfold failAll. split.
  { intros gs sh w. simpl. case_match; [done|]. by rewrite <-list_fmap_compose. }
  intros l. split; [|by intros _].
  apply skips_for_each. intros [id q]. split; [apply skips_failWith|done].
Qed.
Lemma skips_read_frame : oblivious (C:=C) read_frame.
Proof.
  intros gs sh w. simpl. rewrite <-list_fmap_compose. apply list_fmap_ext. by intros _ [] _.
Qed.
Lemma skips_ctrlWriter : oblivious (C:=C) ctrlWriter.
Proof.
  unfold ctrlWriter. solve_oblivious. intros gs sh w. unfold branch. simpl. by repeat case_match.
Qed.
Lemma skips_await_mux : oblivious (C:=C) await_mux.
Proof. solve_obl. Qed.

End runtime.

#[export] Hint Resolve skips_on_sink skips_new_sink skips_on_stream skips_locked_ctx skips_once skips_mux_write
  skips_ctx_cancel skips_stat skips_writeCtrl skips_lookup_stream skips_register skips_remove
  skips_read skips_locked skips_locked_ skips_on_stream_ skips_get_stream skips_Header skips_SendHeader
  skips_SetTrailer skips_takeTrailer skips_setLeadingHeader skips_SendRaw skips_creditSend
  skips_RecvRawContext skips_failWith skips_end skips_signalEnd skips_route_msg skips_failAll skips_read_frame
  skips_ctrlWriter skips_await_mux : oblivious.

(** ** Programs over an interface

    [built op view b k]: [k], given an object of type [X], is a program made of the
    operations [op] of the object, of what [view] shows of it, and of code that is
    oblivious.  The goroutine that got the object may use all operations ([b] is
    true), one that it starts only those that [op false] has. *)
Section built.
Context {C X V : Type} `{!FrameConn C} `{!GrpcLib}.
Abbreviation W := (World C).
Context (op : bool → ∀ B, (X → Prog W B) → Prop) (view : X → V).

Inductive built : bool → ∀ A, (X → Prog W A) → Prop :=
| built_op b A k : op b A k → built b A k
| built_oblivious b A p : oblivious p → built b A (λ _, p)
| built_view b A (k : X → V → Prog W A) :
    (∀ v, built b A (λ x, k x v)) → built b A (λ x, k x (view x))
| built_bind b A B k (f : X → A → Prog W B) :
    built b A k → (∀ a, built b B (λ x, f x a)) → built b B (λ x, Bind (k x) (f x))
| built_iter b S B (body : X → S → Prog W (S + B)) s :
    (∀ s, built b (S + B) (λ x, body x s)) → built b B (λ x, Iter (body x) s)
| built_go b t : built false unit t → built b unit (λ x, Go (t x)).

Context (P : bool → option (address * address) → W → W → Prop) (x1 x2 : X).
Hypothesis HP : ∀ b, stable alike slot slot (P b).
Hypothesis Hchild : P false = λ _ _ _, True.
Hypothesis Hview : view x1 = view x2.
Hypothesis Hop : ∀ b B k, op b B k → sim alike slot slot (P b) (k x1) (k x2) (keeps (P b)).

(** When the operations of one object are simulated by those of another, so are the
    programs over it. *)
Lemma built_sim b A k : built b A k → sim alike slot slot (P b) (k x1) (k x2) (keeps (P b)).
Proof using HP Hchild Hview Hop.
  induction 1 as [b A k Hk|b A p Hp|b A k _ IH|b A B k f _ IHk _ IHf|b S B body s _ IH|b t _ IH].
  - by apply Hop.
  - by apply sim_blind, oblivious_blind.
  - rewrite Hview. apply (IH (view x2)).
  - by eapply sim_bind_keeps.
  - by apply sim_iter.
  - apply sim_go; [done|]. rewrite Hchild in IH.
    by apply (sim_conseq _ _ _ (λ _ _ _, True) _ (keeps (λ _ _ _, True))).
Qed.

End built.

(** ** A server and its handlers *)

Section servers.
Context {C : Type} `{!FrameConn C} `{!GrpcLib}.
Abbreviation W := (World C).
Implicit Types (w : W) (p : nat).

Definition anything (O : option (address * address)) (w1 w2 : W) : Prop := True.
Abbreviation simulated p q := (sim alike slot slot anything p q (keeps anything)).

Lemma simulated_refl {A} (p : Prog W A) : oblivious p → simulated p p.
Proof. intros Hp. by apply sim_blind, oblivious_blind. Qed.

(** A middleware that calls the next handler, among code that is oblivious. *)
Inductive handler_op (b : bool) : ∀ B, (Handler (C:=C) → Prog W B) → Prop :=
| op_call c p : handler_op b _ (λ h, h c p).

Definition transparent (m : Middleware (C:=C)) : Prop :=
  ∀ c p, built handler_op (λ _, ()) true _ (λ h, m h c p).

Definition handler_sim (h1 h2 : Handler (C:=C)) : Prop := ∀ c p, simulated (h1 c p) (h2 c p).

Lemma transparent_sim m h1 h2 : transparent m → handler_sim h1 h2 → handler_sim (m h1) (m h2).
Proof.
  intros Hm Hh c p.
  apply (built_sim handler_op (λ _, ()) (λ _, anything) h1 h2) with (k := λ h, m h c p) (b := true);
    [done..| |apply Hm].
  intros b B k [c' p']. apply Hh.
Qed.

Lemma chain_sim mw h1 h2 :
  Forall transparent mw → handler_sim h1 h2 → handler_sim (chain h1 mw) (chain h2 mw).
Proof.
  intros Hmw Hh. rewrite !chain_foldr.
  induction Hmw as [|m mw Hm _ IH]; simpl; [done|]. by apply transparent_sim.
Qed.

(** *** One connection *)

Ltac next := eapply sim_bind_keeps; [|intros ?].
Ltac plain := apply simulated_refl; unfold disconnectErr; solve_oblivious.

Lemma route_sim (h1 h2 : nat → Prog W unit) f :
  (∀ p, simulated (h1 p) (h2 p)) → simulated (route (Some h1) f) (route (Some h2) f).
Proof.
  intros Hh. unfold route. destruct (FKind f); try plain. unfold route_open.
  next; [plain|]. case_match; [plain|]. next; [apply simulated_refl; intros gs sh w; by simpl; case_match|].
  case_match; [plain|]. next; [apply simulated_refl|].
  - intros gs sh w. unfold open_stream, alloc. simpl. by repeat case_match.
  - next; [plain|]. apply Hh.
Qed.

Lemma readLoop_sim (h1 h2 : nat → Prog W unit) :
  (∀ p, simulated (h1 p) (h2 p)) → simulated (readLoop (Some h1)) (readLoop (Some h2)).
Proof.
  intros Hh. unfold readLoop. next; [|plain]. apply sim_iter; [done|]. intros _.
  next; [plain|]. case_match; [plain|]. next; [by apply route_sim|plain].
Qed.

(** Two servers that differ in their handlers. *)
Record servers_alike (srv1 srv2 : Server (C:=C)) : Prop := mk_servers_alike {
  sa_cfg : cfg srv1 = cfg srv2;
  sa_middleware : Forall transparent (middleware (cfg srv1));
  sa_handlers m :
    option_Forall2 handler_sim (lookup_handler srv1 m) (lookup_handler srv2 m)
}.

Lemma serveStream_sim srv1 srv2 p :
  servers_alike srv1 srv2 → simulated (serveStream srv1 p) (serveStream srv2 p).
Proof.
  intros [Hc Hm Hh]. unfold serveStream. next; [plain|]. next; [|plain].
  destruct (Hh (method a)) as [h1 h2 H12|]; [|plain]. unfold serve_handler. rewrite <-Hc.
  next; [plain|]. next; [by apply chain_sim|]. cbv zeta. plain.
Qed.

Lemma elsewhere_blind : env_blind (alike (C:=C)) slot slot elsewhere.
Proof.
  intros w1 w2 w1' Hs (σ & cn & ->). exists (w2 <| ctxs := σ |> <| conn := cn |>). split_and!.
  - by exists σ, cn.
  - rewrite (alike_inv _ _ Hs). done.
  - intros a. by apply slot_ext.
  - intros a. by apply slot_ext.
Qed.

(** Every world a connection of the one server reaches is reached by a connection of
    the other, up to the state of the adapters. *)
Lemma ServeConn_simulates srv1 srv2 c cn σ k1 :
  servers_alike srv1 srv2 → rtc (sys_step elsewhere) (ServeConn srv1 c cn σ) k1 →
  ∃ k2, rtc (sys_step elsewhere) (ServeConn srv2 c cn σ) k2 ∧ alike (world k1) (world k2).
Proof.
  intros Hsrv. apply (pool_simulates alike slot slot); [apply elsewhere_blind| |].
  { unfold newServerMux. simpl. rewrite (sa_cfg _ _ Hsrv). reflexivity. }
  assert (∀ (t1 t2 : Prog W unit), simulated t1 t2 →
    sim alike slot slot (λ _ _ _, True) t1 t2 (λ _ _ _ _ _, True)) as Hweak.
  { intros t1 t2. by apply sim_conseq. }
  repeat constructor; apply Hweak; [|plain..].
  apply readLoop_sim. intros p. apply sim_go; [done|]. by apply Hweak, serveStream_sim.
Qed.

End servers.
