(* ===== verification/Dispatch.v ===== *)
(** * Client dispatch and interceptors

    [dispatch.go] and [interceptor.go]: a unary call and the opening of a streaming
    call, each run through the chain of client interceptors.  The generated clients
    call nothing else. *)

From S2P Require Import Prelude Goroutine Status Context Conn Strconv Stream World StreamOps MuxOps Endpoint Alone Routing Lifecycle Server.

(** ** interceptor.go *)

Inductive StreamKind :=
| StreamKindUnary | StreamKindServerStream | StreamKindClientStream | StreamKindBidiStream.

Record MethodSpec := mkMethodSpec { Route : string; SpecKind : StreamKind }.

#[local] Arguments set_stream : simpl never.

Section dispatch.
Context {C : Type} `{!FrameConn C} `{!GrpcLib}.
Abbreviation W := (World C).
Implicit Types (w : W) (p : nat) (c : ctx).

(** Messages and [proto.Marshal]; the type of a response is known by its
    [proto.Unmarshal], an argument of the calls. *)
Context {M : Type} (Marshal : M → error + bytes).
(** How [ClientConn.NewStream] gets hold of a mux (Client.v): [Some] is its error. *)
Context (acquire : ctx → Prog W (option error)).
(** [time.Until(d).Milliseconds()] for a context with a deadline [d]. *)
Context (remaining : ctx → option Z).

(** The request and the response an interceptor sees.  The request is a pointer to
    a struct with a mutable header; an interceptor that changes it passes the
    changed request on. *)
Record AnyRequest := mkAnyRequest { rq_Spec : MethodSpec; rq_Header : gomap; rq_Msg : M }.

Record AnyResponse := mkAnyResponse {
  rs_Spec : MethodSpec; rs_Header : gomap; rs_Trailer : gomap; rs_Msg : M
}.

Definition UnaryFunc : Type := ctx → AnyRequest → Prog W (error + AnyResponse).

(** The interface of a streaming call; [Receive] takes the [Unmarshal] of the
    message it fills. *)
Record StreamingClientConn := mkStreamingClientConn {
  Spec : MethodSpec;
  RequestHeader : gomap;
  scSend : M → Prog W (option error);
  CloseRequest : Prog W (option error);
  Receive : (bytes → error + M) → Prog W (error + M);
  ResponseHeader : Prog W gomap;
  ResponseTrailer : Prog W gomap;
  CloseResponse : Prog W (option error)
}.

(** A function that opens a streaming call: a program that fails or returns a
    handle, and the connection a handle stands for.  (A [Prog] returns data; the
    closures of the connection object are over that data.) *)
Record StreamingClientFunc := mkStreamingClientFunc {
  Handle : Type;
  openWith : ctx → MethodSpec → gomap → Prog W (error + Handle);
  connOf : Handle → StreamingClientConn
}.

Record Interceptor := mkInterceptor {
  WrapUnary : UnaryFunc → UnaryFunc;
  WrapStreamingClient : StreamingClientFunc → StreamingClientFunc
}.

Definition UnaryInterceptorFunc (f : UnaryFunc → UnaryFunc) : Interceptor :=
  mkInterceptor f (λ next, next).

Definition StreamInterceptorFunc (f : StreamingClientFunc → StreamingClientFunc) : Interceptor :=
  mkInterceptor (λ next, next) f.

Definition chainUnary (ics : list Interceptor) (terminal : UnaryFunc) : UnaryFunc :=
  wrap_loop WrapUnary (length ics) ics terminal.

Definition chainStreaming (ics : list Interceptor) (terminal : StreamingClientFunc)
    : StreamingClientFunc :=
  wrap_loop WrapStreamingClient (length ics) ics terminal.

(** ** dispatch.go *)

(** [cc.NewStream(ctx, method, headers)]. *)
Definition cc_NewStream c (m : string) (h : gomap) : Prog W (error + nat) :=
  err <- acquire c ;;
  match err with
  | Some e => Ret (inl e)
  | None => newClientStream c (remaining c) m h
  end.

(** The end of a unary call: the response, then the terminal status. *)
Definition unary_reply (Unmarshal : bytes → error + M) (spec : MethodSpec) p
    : Prog W (error + AnyResponse) :=
  r <- Recv Unmarshal p ;;
  match r with
  | inl e => Ret (inl e)
  | inr out =>
      r <- Recv Unmarshal p ;;
      match r with
      | inl e =>
          if decide (e = ErrEOF)
          then h <- Header p ;; t <- Trailer p ;; Ret (inr (mkAnyResponse spec h t out))
          else Ret (inl e)
      | inr _ => h <- Header p ;; t <- Trailer p ;; Ret (inr (mkAnyResponse spec h t out))
      end
  end.

Definition unary_terminal (Unmarshal : bytes → error + M) : UnaryFunc := λ c r,
  s <- cc_NewStream c (Route (rq_Spec r)) (rq_Header r) ;;
  match s with
  | inl e => Ret (inl e)
  | inr p =>
      err <- Send Marshal p (rq_Msg r) ;;
      match err with
      | Some e => Ret (inl e)
      | None =>
          err <- CloseSend p ;;
          match err with
          | Some e => Ret (inl e)
          | None => unary_reply Unmarshal (rq_Spec r) p
          end
      end
  end.

(** [if header == nil { header = map[string]string{} }]. *)
Definition non_nil (h : gomap) : gomap := Some (default ∅ h).

Definition InvokeUnary (ics : list Interceptor) c (spec : MethodSpec) (req : M)
    (Unmarshal : bytes → error + M) (h : gomap) : Prog W (error + M) :=
  r <- chainUnary ics (unary_terminal Unmarshal) c (mkAnyRequest spec (non_nil h) req) ;;
  match r with
  | inl e => Ret (inl e)
  | inr resp => Ret (inr (rs_Msg resp))
  end.

(** The terminal connection wraps a stream; [CloseResponse] cancels it. *)
Definition streamConn p (spec : MethodSpec) (h : gomap) : StreamingClientConn :=
  mkStreamingClientConn spec h (λ m, Send Marshal p m) (CloseSend p)
    (λ Unmarshal, Recv Unmarshal p) (Header p) (Trailer p)
    (s <- get_stream p ;; ctx_cancel (sctx s) ;; Ret None).

Definition streaming_terminal : StreamingClientFunc :=
  mkStreamingClientFunc (nat * MethodSpec * gomap)
    (λ c spec h,
      s <- cc_NewStream c (Route spec) h ;;
      match s with
      | inl e => Ret (inl e)
      | inr p => Ret (inr (p, spec, h))
      end)
    (λ '(p, spec, h), streamConn p spec h).

Definition OpenStreamingClient (ics : list Interceptor) : StreamingClientFunc :=
  let chain := chainStreaming ics streaming_terminal in
  mkStreamingClientFunc (Handle chain) (λ c spec h, openWith chain c spec (non_nil h)) (connOf chain).

(** ** Interceptor chains *)

(** The first interceptor is the outermost. *)
Lemma chainUnary_foldr ics t : chainUnary ics t = foldr WrapUnary t ics.
Proof. apply wrap_loop_foldr. Qed.

Lemma chainStreaming_foldr ics t : chainStreaming ics t = foldr WrapStreamingClient t ics.
Proof. apply wrap_loop_foldr. Qed.

(** ** The result of a unary call *)

(** What the reply half of a unary call returns once its stream has ended: what is
    buffered decides, then the terminal status.  With a second message the status
    is not looked at; and a stream the peer half-closed may report io.EOF. *)
Definition unary_outcome (Unmarshal : bytes → error + M) (spec : MethodSpec) (s : Stream)
    (r : error + AnyResponse) : Prop :=
  match recvItems s with
  | [] => r = inl (terminal_error s) ∨ halfClosed s = true ∧ r = inl ErrEOF
  | f :: q =>
      match Unmarshal (Payload f) with
      | inl e => r = inl e
      | inr m =>
          match q with
          | [] =>
              r = (if decide (terminal_error s = ErrEOF)
                   then inr (mkAnyResponse spec (header s) (terminal_trailer s) m)
                   else inl (terminal_error s)) ∨
              halfClosed s = true ∧ r = inr (mkAnyResponse spec (header s) (trailer s) m)
          | g :: _ =>
              r = match Unmarshal (Payload g) with
                  | inl e => if decide (e = ErrEOF)
                             then inr (mkAnyResponse spec (header s) (trailer s) m) else inl e
                  | inr _ => inr (mkAnyResponse spec (header s) (trailer s) m)
                  end
          end
      end
  end.

(** The receive of a message. *)
Definition recv_into (Unmarshal : bytes → error + M) (r : bytes * option error) : error + M :=
  match r with (_, Some err) => inl err | (b, None) => Unmarshal b end.

Lemma total_Recv (Q : error + M → W → Prop) Unmarshal p w :
  total (λ r w', Q (recv_into Unmarshal r) w') (RecvRawContext Background p) w → total Q (Recv Unmarshal p) w.
Proof.
  intros Hr. apply total_bind. eapply total_mono; [|exact Hr].
  intros [b [e|]] w' HQ; by apply total_ret.
Qed.

(** Reading the metadata of the response. *)
Lemma total_response (Q : error + AnyResponse → W → Prop) spec p s m w :
  heap w !! p = Some s → mu s = false → Q (inr (mkAnyResponse spec (header s) (trailer s) m)) w →
  total Q (h <- Header p ;; t <- Trailer p ;; Ret (inr (mkAnyResponse spec h t m))) w.
Proof.
  intros Hp Hmu HQ. apply total_bind. eapply total_locked_read; [done..|].
  apply total_bind. eapply total_locked_read; [done..|]. by apply total_ret.
Qed.

(** After the first receive returned [r] from the ended stream [s]. *)
Definition reply_rest (Unmarshal : bytes → error + M) (spec : MethodSpec) p (r : error + M)
    : Prog W (error + AnyResponse) :=
  match r with
  | inl e => Ret (inl e)
  | inr out =>
      r <- Recv Unmarshal p ;;
      match r with
      | inl e =>
          if decide (e = ErrEOF)
          then h <- Header p ;; t <- Trailer p ;; Ret (inr (mkAnyResponse spec h t out))
          else Ret (inl e)
      | inr _ => h <- Header p ;; t <- Trailer p ;; Ret (inr (mkAnyResponse spec h t out))
      end
  end.

Lemma reply_received P (Unmarshal : bytes → error + M) spec p s :
  writable P → idle s → ended s = true →
  received P (λ r w', total (λ r _, unary_outcome Unmarshal spec s r)
    (reply_rest Unmarshal spec p (recv_into Unmarshal r)) w') p s.
Proof.
  intros HP Hid He. unfold received, unary_outcome. destruct (recvItems s) as [|f q] eqn:Hi.
  { split; intros; apply total_ret; auto. }
  intros s1 w1 Hp1 [Hi1 He1 Hh1 Hid1 Hf1 Hs1 Hhd1 Htr1] Hr1. simpl.
  destruct (Unmarshal (Payload f)) as [e|m]; [by apply total_ret|].
  assert (terminal_error s1 = terminal_error s) as Ht1 by (unfold terminal_error; by rewrite Hf1, Hs1).
  assert (terminal_trailer s1 = terminal_trailer s) as Htt1 by (unfold terminal_trailer; by rewrite Hf1, Htr1).
  apply total_bind, total_Recv. eapply (recv_ended_any P _ _ s1); try done; [congruence|].
  unfold received. rewrite Hi1. destruct q as [|g q].
  - split.
    + intros s2 w2 Hp2 [_ _ _ [Hmu2 _] _ Hhd2 Htr2]. simpl. rewrite Ht1. case_decide; [|by apply total_ret; auto].
      eapply total_response; [done..|]. left. by rewrite Hhd2, Htr2, Hhd1, Htt1.
    + intros Hh s2 w2 Hp2 [_ _ _ [Hmu2 _] _ _ Hhd2 Htr2]. simpl. destruct (decide (ErrEOF = ErrEOF)) as [_|]; [|done].
      eapply total_response; [done..|]. right. split; [congruence|]. by rewrite Hhd2, Htr2, Hhd1, Htr1.
  - intros s2 w2 Hp2 [_ _ _ [Hmu2 _] _ _ Hhd2 Htr2] _. simpl.
    destruct (Unmarshal (Payload g)) as [e|m']; [case_decide; [|by apply total_ret]|];
      (eapply total_response; [done..|]); by rewrite Hhd2, Htr2, Hhd1, Htr1.
Qed.

(** A receive on a live stream with nothing to receive parks in its [select]; once the
    stream has ended it goes on. *)
Lemma suspends_RecvRaw P (Q : Prog W (bytes * option error) → W → Prop) p s w :
  writable P → heap w !! p = Some s → mu s = false → recvItems s = [] →
  recv_ready (ctxs w) Background s = [] →
  (∀ k, (∀ Q' w' s', ready P w' → heap w' !! p = Some s' → idle s' → ended s' = true →
           received P Q' p s' → total Q' k w') → Q k w) →
  suspends Q (RecvRaw p) w.
Proof.
  intros HP Hp Hmu Hi Hready HQ. apply suspends_iter, suspends_then.
  eapply total_pop_empty; [done..|]. apply suspends_bind, suspends_act.
  { by rewrite Hp, Hready. }
  apply HQ. intros Q' w' s' Hr' Hp' Hid' He' HQ'. apply total_bind.
  eapply total_mono; [|by eapply (select_ended_any P Q' p s')]. intros [[]|x] w'' Hx; [exact Hx|by apply total_ret].
Qed.

(** ** Opening a call *)

(** [opens F c spec h Q w]: run alone from [w], [F] returns an error or a
    connection, with [Q]. *)
Definition opens (F : StreamingClientFunc) c spec h
    (Q : error + StreamingClientConn → W → Prop) w : Prop :=
  total (λ r, Q (match r with inl e => inl e | inr k => inr (connOf F k) end))
    (openWith F c spec h) w.

(** An interceptor that adds one header to every call, as the ones that carry
    credentials or trace ids do. *)
Definition set_header (kv : string * string) (h : gomap) : gomap :=
  Some (<[kv.1 := kv.2]> (default ∅ h)).

Definition add_header (kv : string * string) : Interceptor :=
  mkInterceptor
    (λ next c r, next c (mkAnyRequest (rq_Spec r) (set_header kv (rq_Header r)) (rq_Msg r)))
    (λ next, mkStreamingClientFunc (Handle next)
       (λ c spec h, openWith next c spec (set_header kv h)) (connOf next)).

Definition set_headers (kvs : list (string * string)) (h : gomap) : gomap :=
  foldl (λ h kv, set_header kv h) h kvs.

Lemma opens_add_headers kvs t c spec h Q w :
  opens t c spec (set_headers kvs h) Q w →
  opens (foldr WrapStreamingClient t (add_header <$> kvs)) c spec h Q w.
Proof. revert h. induction kvs as [|kv kvs IH]; intros h; [done|]. intros Ho. by apply IH in Ho. Qed.

Lemma unary_add_headers kvs t c r :
  chainUnary (add_header <$> kvs) t c r =
  t c (mkAnyRequest (rq_Spec r) (set_headers kvs (rq_Header r)) (rq_Msg r)).
Proof.
  rewrite chainUnary_foldr. revert r.
  induction kvs as [|kv kvs IH]; intros r; simpl; [by destruct r|]. by rewrite IH.
Qed.

(** The OPEN frame of a call. *)
Definition open_frame c (m : string) (h : gomap) (id : Z) : Frame :=
  (frame id KIND_OPEN) <| FMethod := m |> <| Headers := deadline_headers (remaining c) h |>.

(** What [newClientStream] leaves: a new stream, whose OPEN frame was written and
    whose id is registered, or no trace in the registry. *)
Record call_opened c m h w (r : error + nat) w' : Prop := mk_call_opened {
  op_stream : ∃ s, heap w' = heap w ++ [s] ∧ sid s = (next_id (mux w)).2 ∧ method s = m;
  op_result : match r with
    | inr p => p = length (heap w) ∧
        wlog w' = wlog w ++ [open_frame c m h (next_id (mux w)).2] ∧
        streams (mux w') = <[(next_id (mux w)).2 := p]> (streams (mux w))
    | inl _ => wlog w' = wlog w ∧
        streams (mux w') = delete (next_id (mux w)).2 (streams (mux w))
    end
}.

Lemma total_newClientStream (Q : error + nat → W → Prop) c m h w :
  can_write w → mmu (mux w) = false →
  (∀ r w', call_opened c m h w r w' → Q r w') →
  total Q (newClientStream c (remaining c) m h) w.
Proof.
  intros [Hm Hw] Hmm HQ. unfold newClientStream.
  apply total_bind, total_update, total_bind, total_read, total_bind, total_update.
  apply total_bind, total_mux_locked; [done|]. apply total_bind.
  apply total_mux_write; [by split|]. intros cn r Hin. destruct r as [e|].
  - apply total_bind, total_remove; [done|]. apply total_ret, HQ. split; [by eexists|].
    simpl. split; [done|]. apply delete_insert_eq.
  - apply total_ret, HQ. split; [by eexists|]. by simpl.
Qed.

(** C25: the metadata a chain of interceptors adds reaches the wire.  Opening a
    streaming call writes one OPEN frame, for the method of the call, that carries
    the caller's headers with every interceptor's on top (the innermost wins) and
    the deadline of the context, and registers one fresh stream; a failed write
    returns the error and leaves the registry without the id. *)
Theorem metadata_reaches_wire kvs c spec h w :
  can_write w → mmu (mux w) = false →
  total (λ r w', r = None ∧ w' = w) (acquire c) w →
  opens (OpenStreamingClient (add_header <$> kvs)) c spec h (λ r w',
    let hs := set_headers kvs (non_nil h) in
    match r with
    | inr k => k = streamConn (length (heap w)) spec hs ∧
        call_opened c (Route spec) hs w (inr (length (heap w))) w'
    | inl e => call_opened c (Route spec) hs w (inl e) w'
    end) w.
Proof.
  intros Hw Hm Hacq. unfold OpenStreamingClient. rewrite chainStreaming_foldr.
  apply (opens_add_headers kvs streaming_terminal c spec (non_nil h)).
  unfold opens. simpl. apply total_bind. unfold cc_NewStream. apply total_bind.
  eapply total_mono; [|exact Hacq]. intros r w' [-> ->].
  apply total_newClientStream; [done..|]. intros [e|p] w' Hop; apply total_ret; [done|].
  destruct (op_result _ _ _ _ _ _ Hop) as [-> _]. done.
Qed.

(** A stream nobody has used yet, under a live context. *)
Record unused (s : Stream) (σ : CtxStore) : Prop := mk_unused {
  un_mu : mu s = false;
  un_credit : 0 < sendWindow s;
  un_live : ctx_Err σ (sctx s) = None;
  un_open : sendDone s = false;
  un_items : recvItems s = [];
  un_signal : recvSignal s = false;
  un_half : halfClosed s = false;
  un_ended : ended s = false
}.

Lemma total_newClientStream_live P (Q : error + nat → W → Prop) c m h w :
  lossless P → ready P w → mmu (mux w) = false → ctx_store_wf (ctxs w) → ctx_Err (ctxs w) c = None →
  let id := (next_id (mux w)).2 in let p := length (heap w) in
  (∀ s w', heap w' !! p = Some s → unused s (ctxs w') → sid s = id → ready P w' →
     wlog w' = wlog w ++ [open_frame c m h id] → streams (mux w') = <[id:=p]> (streams (mux w)) →
     Q (inr p) w') →
  total Q (newClientStream c (remaining c) m h) w.
Proof.
  intros [HP Hok] [Hwm Hc] Hmm Hwf Hlive id p HQ. unfold newClientStream.
  apply total_bind, total_update, total_bind, total_read, total_bind, total_update.
  apply total_bind, total_mux_locked; [done|]. apply total_bind.
  apply total_mux_write; [split; [done|intros; by apply (wr_returns P)]|].
  intros cn r Hin. pose proof (WithCancel_Err c (ctxs w) Hwf) as Hctx. rewrite Hlive in Hctx.
  change (ctx_Err _ c) with (ctx_Err (WithCancel c (ctxs w)).1 c) in Hin.
  assert (ctx_Err (WithCancel c (ctxs w)).1 c = None) as Hlive'.
  { rewrite <-Hlive. by apply ctx_Err_not_dead. }
  rewrite Hlive' in Hin. pose proof (Hok _ _ _ _ Hc Hin) as ->.
  apply total_ret. eapply HQ; simpl.
  - rewrite lookup_app_r, Nat.sub_diag by done. done.
  - split; try done. simpl. destruct (Z.leb_spec (muxWindow (mux w)) 0); [done|lia].
  - done.
  - split; [done|]. by eapply (wr_closed P).
  - done.
  - done.
Qed.

Lemma total_CloseSend_lossless P (Q : option error → W → Prop) p s w :
  lossless P → ready P w → heap w !! p = Some s → mu s = false → ctx_Err (ctxs w) (sctx s) = None →
  sendDone s = false →
  (∀ w', heap w' = <[p:=s <| sendDone := true |>]> (heap w) →
     wlog w' = wlog w ++ [frame (sid s) KIND_HALF_CLOSE] → undisturbed w w' → ready P w' → Q None w') →
  total Q (CloseSend p) w.
Proof.
  intros [HP Hok] [Hwm Hc] Hp Hmu Hlive Hs HQ. apply total_bind. eapply total_locked; [done..|].
  unfold CloseSend_lock. rewrite Hs. simpl. apply total_bind.
  eapply total_get_stream; [by eapply lookup_set_stream|].
  apply total_mux_write; [split; [done|intros; by apply (wr_returns P)]|].
  intros cn r Hin. simpl in Hin. rewrite Hlive in Hin. pose proof (Hok _ _ _ _ Hc Hin) as ->.
  apply HQ; try done. split; [done|]. by eapply (wr_closed P).
Qed.

(** The message of a response. *)
Definition response_msg (r : error + AnyResponse) : error + M :=
  match r with inl e => inl e | inr resp => inr (rs_Msg resp) end.

(** What [InvokeUnary] has done when it waits for the reply, and what it returns once
    the stream, in whatever state the connection then is, has ended. *)
Definition awaiting P (Unmarshal : bytes → error + M) c spec hs (b : bytes) w
    (k : Prog W (error + M)) w1 : Prop :=
  let id := (next_id (mux w)).2 in let p := length (heap w) in
  wlog w1 = wlog w ++ [open_frame c (Route spec) hs id; msg_frame id b; frame id KIND_HALF_CLOSE] ∧
  streams (mux w1) = <[id:=p]> (streams (mux w)) ∧
  ∀ w2 s2, ready P w2 → heap w2 !! p = Some s2 → idle s2 → ended s2 = true →
    total (λ r _, ∃ x, unary_outcome Unmarshal spec s2 x ∧ r = response_msg x) k w2.

(** C24: a unary call, through interceptors that add headers.  [InvokeUnary] writes the
    OPEN frame with the headers of the whole chain, the request and a half-close,
    registers the stream, and waits.  Once the stream has ended, by an END or RST
    frame or because the connection failed, it returns what [unary_outcome] says: the
    message when one came and the status is OK; the status as the error when it is
    not, and when no message came; the first of several messages without a look at
    the status; and, if the peer had also half-closed, possibly io.EOF or success
    instead of the status.  The connection is lossless, the context of the call live,
    and nothing runs between the call and its wait. *)
Theorem unary_call_outcome P (Unmarshal : bytes → error + M) kvs c spec req b h w :
  lossless P → ready P w → mmu (mux w) = false → ctx_store_wf (ctxs w) → ctx_Err (ctxs w) c = None →
  Marshal req = inr b → total (λ r w', r = None ∧ w' = w) (acquire c) w →
  suspends (awaiting P Unmarshal c spec (set_headers kvs (non_nil h)) b w)
    (InvokeUnary (add_header <$> kvs) c spec req Unmarshal h) w.
Proof.
  intros HP Hr Hm Hwf Hlive Hb Hacq. unfold InvokeUnary. rewrite unary_add_headers.
  apply suspends_bind. unfold unary_terminal. apply suspends_then. unfold cc_NewStream. apply total_bind.
  eapply total_mono; [|exact Hacq]. intros r w' [-> ->].
  apply (total_newClientStream_live P); [done..|].
  intros s1 w1 Hp1 [Hmu1 Hcr1 Hlv1 Hdn1 Hi1 Hsg1 Hhf1 Hen1] Hid1 Hr1 Hl1 Hs1.
  apply suspends_then. unfold Send. simpl. rewrite Hb.
  eapply (total_send_lossless P _ _ s1); [done|by split|]. intros w2 Hh2 Hl2 [Hσ2 Hm2 _ _ _] Hr2.
  set (s2 := send_take (len b) s1) in *.
  assert (heap w2 !! length (heap w) = Some s2) as Hp2.
  { rewrite Hh2. apply list_lookup_insert_eq. by eapply lookup_lt_Some. }
  apply suspends_then. eapply (total_CloseSend_lossless P _ _ s2); [done..|by rewrite Hσ2|done|].
  intros w3 Hh3 Hl3 [Hσ3 Hm3 _ _ _] Hr3. apply suspends_bind, suspends_bind.
  eapply (suspends_RecvRaw P _ _ (s2 <| sendDone := true |>)); [by destruct HP| |done..| |].
  { rewrite Hh3. apply list_lookup_insert_eq. by eapply lookup_lt_Some. }
  { unfold recv_ready. simpl. by rewrite Hsg1, Hhf1, Hen1, Hσ3, Hσ2, Hlv1. }
  intros k Hk. split_and!.
  - rewrite Hl3, Hl2, Hl1, <-!app_assoc. simpl. by rewrite Hid1.
  - by rewrite Hm3, Hm2.
  - intros w4 s4 Hr4 Hp4 Hid4 He4. apply total_bind, total_bind, total_bind.
    eapply Hk; [exact Hr4|exact Hp4|exact Hid4|exact He4|].
    eapply received_mono; [|by apply (reply_received P Unmarshal spec); [destruct HP|..]].
    intros [x [e|]] w5 H5; apply total_ret; (eapply total_mono; [|exact H5]);
      intros [e'|resp] w6 H6; apply total_ret; by eexists.
Qed.

(** C39: closing the response of a streaming call is local.  The stream is cancelled,
    no frame is written or queued and the id stays registered; the messages that
    arrive for it afterwards are dropped, and their credit is not returned, until
    the peer ends the stream. *)
Theorem CloseResponse_is_local p spec h s f w :
  heap w !! p = Some s → sctx s ≠ [] → mu s = false → mmu (mux w) = false →
  streams (mux w) !! StreamId f = Some p → FKind f = KIND_MSG →
  total (λ _ w', is_Some (ctx_Err (ctxs w') (sctx s)) ∧ heap w' = heap w ∧ wlog w' = wlog w ∧
      mux w' = mux w)
    (CloseResponse (streamConn p spec h) ;; route None f) w.
Proof.
  intros Hp Hne Hmu Hm Hid Hk. apply total_bind, total_bind. eapply total_get_stream; [done|].
  apply total_bind, total_modify, total_ret.
  assert (is_Some (ctx_Err (cancel (sctx s) (ctxs w)) (sctx s))) as Hdone.
  { destruct (sctx s) as [|n c]; [done|]. apply ctx_kill_done. }
  eapply route_lookup; [by rewrite Hk|done|done|]. rewrite Hk.
  unfold route_msg, tryDeliver. apply total_bind, total_bind.
  eapply total_locked_ctx; [done..|]. unfold tryDeliver_lock. rewrite decide_True by done.
  apply total_ret. simpl. rewrite (set_stream_id _ s) by done.
  apply total_bind. eapply total_get_stream; [done|]. by apply total_stat.
Qed.

(** ** The calls are programs of the runtime *)

Lemma calls_Recv (r : Role) P (Unmarshal : bytes → error + M) p : calls r P (Recv Unmarshal p).
Proof.
  apply rt_Bind; [apply rt_RecvRawContext|]. intros [b [e|]]; apply rt_Ret.
Qed.

Lemma calls_Send (r : Role) (P : bytes → Prop) p m :
  (∀ b, Marshal m = inr b → P b) → calls r P (Send Marshal p m).
Proof. intros HP. unfold Send. destruct (Marshal m); [apply rt_Ret|by apply rt_SendRaw, HP]. Qed.

Lemma calls_unary_terminal (r : Role) (P : bytes → Prop) (Unmarshal : bytes → error + M) c req :
  r ≠ InHandler → (∀ m b, Marshal m = inr b → P b) → calls r P (acquire c) →
  calls r P (unary_terminal Unmarshal c req).
Proof.
  intros Hr HP Ha. unfold unary_terminal, cc_NewStream, unary_reply.
  repeat first [done | apply calls_Recv | apply calls_Send; by apply HP | by apply rt_newClientStream
    | apply rt_CloseSend | apply rt_Header | apply rt_Trailer | apply rt_Ret
    | apply rt_Bind; [|intros ?] | case_match].
Qed.

(** A unary call is a goroutine of the endpoint invariant, whatever interceptors it
    runs through, as long as they only call the runtime themselves. *)
Lemma calls_InvokeUnary (r : Role) (P : bytes → Prop) ics c spec req (Unmarshal : bytes → error + M) h :
  r ≠ InHandler → (∀ m b, Marshal m = inr b → P b) → (∀ c, calls r P (acquire c)) →
  Forall (λ i, ∀ next : UnaryFunc, (∀ c q, calls r P (next c q)) →
    ∀ c q, calls r P (WrapUnary i next c q)) ics →
  calls r P (InvokeUnary ics c spec req Unmarshal h).
Proof.
  intros Hr HP Ha Hics. apply rt_Bind; [|intros [e|resp]; apply rt_Ret].
  rewrite chainUnary_foldr. generalize (mkAnyRequest spec (non_nil h) req). revert c.
  induction Hics as [|i ics Hi _ IH]; intros c q; simpl; [by apply calls_unary_terminal|].
  by apply Hi.
Qed.

End dispatch.
