(* ===== verification/Metadata.v ===== *)
(** * Metadata of unary calls, and the options of the gRPC bridge

    [metadata.go] and [bridge.go].  A unary handler has no stream to set response
    metadata on: it sets it on a sink that its context carries, and the registrar
    flushes the sink onto the stream when the handler has returned. *)

From S2P Require Import Prelude Goroutine Status Context Conn Stream World Alone.
From Stdlib Require Strings.String.

(** ** Values of a context

    The values the runtime and gRPC attach to a context: the metadata sink (an
    address), the incoming gRPC metadata, and the [grpc.ServerTransportStream].
    A transport stream holds the context it was made from, and uses of it only
    the sink, which is a constant of that context. *)
Record unaryServerTransportStream := mkTransportStream {
  ts_sink : option nat;
  ts_method : string
}.

Record GoCtx := mkGoCtx {
  gc_ctx : ctx;
  gc_sink : option nat;
  gc_incoming : MD;
  gc_transport : option unaryServerTransportStream
}.
#[export] Instance eta_GoCtx : Eta GoCtx := λ c,
  mkGoCtx (gc_ctx c) (gc_sink c) (gc_incoming c) (gc_transport c).

Definition sinkFrom (c : GoCtx) : option nat := gc_sink c.

(** ** bridge.go: FlattenMD *)

Definition FlattenMD (md : MD) : gomap :=
  match md with
  | Some m => if decide (m = ∅) then None else Some (String.concat "," <$> m)
  | None => None
  end.

(** The values of a key are joined; no key is lost and none is invented. *)
Lemma FlattenMD_lookup md k :
  FlattenMD md ≫= lookup k = String.concat "," <$> (md ≫= lookup k).
Proof.
  destruct md as [m|]; [|done]. simpl. case_decide as Hm; simpl.
  - by rewrite Hm, lookup_empty.
  - apply lookup_fmap.
Qed.

(** ** The sink *)

Definition merge_into (dst md : gomap) : gomap := Some (gomap_merge (default ∅ dst) md).

Definition mergeHeader_lock (md : gomap) (k : mdSink) : mdSink :=
  k <| sk_header ::= λ h, merge_into h md |>.

Definition mergeTrailer_lock (md : gomap) (k : mdSink) : mdSink :=
  k <| sk_trailer ::= λ h, merge_into h md |>.

(** [takeHeader] and [takeTrailer] return nil for an empty map. *)
Definition non_empty (h : gomap) : gomap := if gomap_len h =? 0 then None else h.

Section metadata.
Context {C : Type}.
Abbreviation W := (World C).
Implicit Types (a : nat) (c : GoCtx) (md : gomap).

Definition mergeHeader a md : Prog W unit :=
  if gomap_len md =? 0 then Ret () else on_sink a (λ k, (mergeHeader_lock md k, ())).

Definition mergeTrailer a md : Prog W unit :=
  if gomap_len md =? 0 then Ret () else on_sink a (λ k, (mergeTrailer_lock md k, ())).

Definition takeHeader a : Prog W gomap := on_sink a (λ k, (k, non_empty (sk_header k))).
Definition takeSinkTrailer a : Prog W gomap := on_sink a (λ k, (k, non_empty (sk_trailer k))).

(** [wsrpc.SetHeader(ctx, md)] and [wsrpc.SetTrailer(ctx, md)]. *)
Definition ctx_SetHeader c md : Prog W unit :=
  match sinkFrom c with Some a => mergeHeader a md | None => Ret () end.

Definition ctx_SetTrailer c md : Prog W unit :=
  match sinkFrom c with Some a => mergeTrailer a md | None => Ret () end.

(** A [*UnaryMD] is the sink it wraps; [None] is nil. *)
Definition UnaryMD_Header (u : option nat) : Prog W gomap :=
  match u with Some a => takeHeader a | None => Ret None end.

Definition UnaryMD_Trailer (u : option nat) : Prog W gomap :=
  match u with Some a => takeSinkTrailer a | None => Ret None end.

Definition WithUnaryMetadata c : Prog W (GoCtx * option nat) :=
  a <- new_sink (mkMdSink None None) ;;
  Ret (c <| gc_sink := Some a |>, Some a).

(** ** unaryServerTransportStream *)

Definition UnaryServerTransportStream c (m : string) : unaryServerTransportStream :=
  mkTransportStream (sinkFrom c) m.

Definition ts_Method (t : unaryServerTransportStream) : string := ts_method t.

Definition ts_SetHeader (t : unaryServerTransportStream) (md : MD) : Prog W (option error) :=
  ctx_SetHeader (mkGoCtx Background (ts_sink t) None None) (FlattenMD md) ;; Ret None.

Definition ts_SendHeader (t : unaryServerTransportStream) (md : MD) : Prog W (option error) :=
  ctx_SetHeader (mkGoCtx Background (ts_sink t) None None) (FlattenMD md) ;; Ret None.

Definition ts_SetTrailer (t : unaryServerTransportStream) (md : MD) : Prog W (option error) :=
  ctx_SetTrailer (mkGoCtx Background (ts_sink t) None None) (FlattenMD md) ;; Ret None.

(** ** The metadata of a call *)

Lemma total_on_sink {B} (Q : B → W → Prop) a k (f : mdSink → mdSink * B) w :
  sinks w !! a = Some k → Q (f k).2 (put_sinks (<[a:=(f k).1]>) w) → total Q (on_sink a f) w.
Proof.
  intros Hk HQ. apply total_act; rewrite Hk; destruct (f k) as [k' b]; [done|].
  intros. inv_elem. done.
Qed.

Lemma put_sinks_id a k (w : W) : sinks w !! a = Some k → put_sinks (<[a:=k]>) w = w.
Proof. intros Hk. unfold put_sinks. destruct w; simpl in *. f_equal. by apply list_insert_id. Qed.

(** The ways a handler or an interceptor sets metadata: directly, or by gRPC's
    functions, which call the transport stream. *)
Inductive MdCall :=
| MdSetHeader md | MdSetTrailer md
| MdGrpcSetHeader (m : MD) | MdGrpcSendHeader (m : MD) | MdGrpcSetTrailer (m : MD).

Definition md_call c (t : unaryServerTransportStream) (x : MdCall) : Prog W unit :=
  match x with
  | MdSetHeader md => ctx_SetHeader c md
  | MdSetTrailer md => ctx_SetTrailer c md
  | MdGrpcSetHeader m => ts_SetHeader t m ;; Ret ()
  | MdGrpcSendHeader m => ts_SendHeader t m ;; Ret ()
  | MdGrpcSetTrailer m => ts_SetTrailer t m ;; Ret ()
  end.

Definition sets_header (x : MdCall) : gomap :=
  match x with
  | MdSetHeader md => md
  | MdGrpcSetHeader m | MdGrpcSendHeader m => FlattenMD m
  | _ => None
  end.

Definition sets_trailer (x : MdCall) : gomap :=
  match x with
  | MdSetTrailer md => md
  | MdGrpcSetTrailer m => FlattenMD m
  | _ => None
  end.

(** The value of a key after these settings, [v] before them: the last one wins. *)
Definition last_set (key : string) (v : option string) (mds : list gomap) : option string :=
  foldl (λ v md, match md ≫= lookup key with Some v' => Some v' | None => v end) v mds.

Definition sink_call (x : MdCall) (k : mdSink) : mdSink :=
  let k := if gomap_len (sets_header x) =? 0 then k else mergeHeader_lock (sets_header x) k in
  if gomap_len (sets_trailer x) =? 0 then k else mergeTrailer_lock (sets_trailer x) k.

Lemma total_mergeHeader (Q : unit → W → Prop) a k md w :
  sinks w !! a = Some k →
  Q () (put_sinks (<[a:=if gomap_len md =? 0 then k else mergeHeader_lock md k]>) w) →
  total Q (mergeHeader a md) w.
Proof.
  intros Hk HQ. unfold mergeHeader. destruct (gomap_len md =? 0).
  - apply total_ret. by rewrite put_sinks_id in HQ.
  - by eapply total_on_sink.
Qed.

Lemma total_mergeTrailer (Q : unit → W → Prop) a k md w :
  sinks w !! a = Some k →
  Q () (put_sinks (<[a:=if gomap_len md =? 0 then k else mergeTrailer_lock md k]>) w) →
  total Q (mergeTrailer a md) w.
Proof.
  intros Hk HQ. unfold mergeTrailer. destruct (gomap_len md =? 0).
  - apply total_ret. by rewrite put_sinks_id in HQ.
  - by eapply total_on_sink.
Qed.

Lemma total_md_call (Q : unit → W → Prop) c m a k x w :
  sinkFrom c = Some a → sinks w !! a = Some k →
  Q () (put_sinks (<[a:=sink_call x k]>) w) →
  total Q (md_call c (UnaryServerTransportStream c m) x) w.
Proof.
  intros Hc Hk HQ.
  destruct x; simpl; unfold ts_SetHeader, ts_SendHeader, ts_SetTrailer, UnaryServerTransportStream,
    ctx_SetHeader, ctx_SetTrailer; simpl; rewrite ?Hc;
    repeat (apply total_bind); first [by eapply total_mergeHeader | by eapply total_mergeTrailer | idtac].
  - eapply total_mergeHeader; [done|]. by do 2 apply total_ret.
  - eapply total_mergeHeader; [done|]. by do 2 apply total_ret.
  - eapply total_mergeTrailer; [done|]. by do 2 apply total_ret.
Qed.

(** The value of a key in a sink's map. *)
Lemma merge_into_lookup dst md key :
  (if gomap_len md =? 0 then dst else merge_into dst md) ≫= lookup key =
  match md ≫= lookup key with Some v => Some v | None => dst ≫= lookup key end.
Proof.
  destruct (Z.eqb_spec (gomap_len md) 0) as [E|E].
  - assert (md ≫= lookup key = None) as ->; [|done].
    destruct md as [m|]; [|done]. simpl. unfold gomap_len in E. simpl in E.
    assert (size m = 0%nat) as Hm%map_size_empty_inv by lia. by rewrite Hm, lookup_empty.
  - unfold merge_into, gomap_merge. simpl. rewrite lookup_union.
    destruct md as [m|]; [simpl|by destruct E].
    destruct (m !! key); destruct dst as [d|]; simpl; rewrite ?lookup_empty;
      try destruct (d !! key); done.
Qed.

Lemma non_empty_lookup h key : non_empty h ≫= lookup key = h ≫= lookup key.
Proof.
  unfold non_empty. destruct (Z.eqb_spec (gomap_len h) 0) as [E|E]; [|done].
  destruct h as [m|]; [|done]. simpl. unfold gomap_len in E. simpl in E.
  assert (size m = 0%nat) as Hm%map_size_empty_inv by lia. by rewrite Hm, lookup_empty.
Qed.

Lemma total_md_calls (Q : unit → W → Prop) c m a k xs w :
  sinkFrom c = Some a → sinks w !! a = Some k →
  (∀ k' w', w' = put_sinks (<[a:=k']>) w → sinks w' !! a = Some k' →
     (∀ key, sk_header k' ≫= lookup key = last_set key (sk_header k ≫= lookup key) (sets_header <$> xs)) →
     (∀ key, sk_trailer k' ≫= lookup key = last_set key (sk_trailer k ≫= lookup key) (sets_trailer <$> xs)) →
     Q () w') →
  total Q (for_each xs (md_call c (UnaryServerTransportStream c m))) w.
Proof.
  intros Hc. revert k w. induction xs as [|x xs IH]; intros k w Hk HQ; simpl.
  - apply total_ret. eapply (HQ k); try done. by rewrite put_sinks_id.
  - apply total_bind. eapply total_md_call; [done..|]. eapply (IH (sink_call x k)).
    { simpl. by eapply list_lookup_insert_eq, lookup_lt_Some. }
    intros k' w' -> Hk' Hh Ht. eapply (HQ k'); [|done|..].
    + unfold put_sinks. destruct w; simpl. by rewrite list_insert_insert_eq.
    + intros key. rewrite Hh. csimpl. unfold last_set; simpl. f_equal.
      rewrite <-merge_into_lookup. unfold sink_call. by repeat case_match.
    + intros key. rewrite Ht. csimpl. unfold last_set; simpl. f_equal.
      rewrite <-merge_into_lookup. unfold sink_call. by repeat case_match.
Qed.

(** C34: the response metadata of a unary call is what its handler and interceptors
    set, whichever way they did: after any sequence of calls, the registrar reads
    from the fresh sink of the call, for every key, the value set last, as header
    and as trailer separately, and nil when nothing was set. *)
Theorem unary_metadata_last_wins c m xs w :
  total (λ (r : gomap * gomap) _,
      (∀ key, r.1 ≫= lookup key = last_set key None (sets_header <$> xs)) ∧
      (∀ key, r.2 ≫= lookup key = last_set key None (sets_trailer <$> xs)) ∧
      r.1 ≠ Some ∅ ∧ r.2 ≠ Some ∅)
    (cu <- WithUnaryMetadata c ;;
     for_each xs (md_call cu.1 (UnaryServerTransportStream cu.1 m)) ;;
     h <- UnaryMD_Header cu.2 ;; t <- UnaryMD_Trailer cu.2 ;; Ret (h, t)) w.
Proof.
  apply total_bind, total_bind, total_update, total_ret, total_bind.
  eapply (total_md_calls _ _ _ (length (sinks w)) (mkMdSink None None)); [done|by apply list_lookup_middle|].
  intros k' w' _ Hk Hh Ht. apply total_bind. eapply total_on_sink; [done|].
  rewrite put_sinks_id by done. apply total_bind. eapply total_on_sink; [done|].
  apply total_ret. split_and!.
  - intros key. simpl. by rewrite non_empty_lookup, Hh.
  - intros key. simpl. by rewrite non_empty_lookup, Ht.
  - simpl. unfold non_empty. case_match; [done|]. intros E. by rewrite E in *.
  - simpl. unfold non_empty. case_match; [done|]. intros E. by rewrite E in *.
Qed.

End metadata.

(** ** bridge.go: options *)
Section bridge.
Context {UnaryInt StreamInt : Type}.

Record BridgeConfig := mkBridgeConfig { bc_Unary : option UnaryInt; bc_Stream : option StreamInt }.
#[local] Instance eta_BridgeConfig : Eta BridgeConfig := λ c, mkBridgeConfig (bc_Unary c) (bc_Stream c).

Inductive BridgeOption :=
| WithUnaryInterceptor (i : option UnaryInt)
| WithStreamInterceptor (i : option StreamInt).

Definition apply_bridge_option (c : BridgeConfig) (o : BridgeOption) : BridgeConfig :=
  match o with
  | WithUnaryInterceptor i => c <| bc_Unary := i |>
  | WithStreamInterceptor i => c <| bc_Stream := i |>
  end.

Definition ApplyBridgeOptions (opts : list BridgeOption) : BridgeConfig :=
  foldl apply_bridge_option (mkBridgeConfig None None) opts.

End bridge.
Arguments BridgeConfig : clear implicits.
Arguments BridgeOption : clear implicits.
