(* ===== verification/Registrar.v ===== *)
(** * The gRPC service registrar

    [grpc_registrar.go]: serving a gRPC service over streams.  The generated
    [grpc.ServiceDesc] with its handlers, gRPC's interceptors, its proto codec and
    its metadata operations are parameters. *)

From S2P Require Import Prelude Goroutine Status Context Conn Strconv Stream World StreamOps MuxOps Endpoint Admission Alone Routing Lifecycle Options Server Metadata.

(** What the registrar uses of gRPC's metadata package: [md.Append(k, v)] and
    [metadata.Join(md, md')]; and the order in which Go visits a map. *)
Class GrpcMetadata := {
  md_Append : gmap string (list string) → string → string → gmap string (list string);
  md_Join : MD → MD → gmap string (list string);
  map_range : gmap string string → list (string * string)
}.

(** What their documentation says: a key is converted to lower case, its values
    are kept in the order they were given, and a map is visited once per entry. *)
Class GrpcMetadataOk `{GrpcMetadata} := {
  to_lower : string → string;
  md_Append_lookup m k v k' :
    md_Append m k v !! k' =
      if decide (k' = to_lower k) then Some (default [] (m !! k') ++ [v]) else m !! k';
  md_Join_lookup m m' k :
    default [] (md_Join m m' !! k) = default [] (m ≫= lookup k) ++ default [] (m' ≫= lookup k);
  map_range_perm m : map_range m ≡ₚ map_to_list m
}.

(** [incoming]: the OPEN headers as gRPC metadata. *)
Definition incoming_md `{!GrpcMetadata} (h : gomap) : gmap string (list string) :=
  foldl (λ md '(k, v), md_Append md k v) ∅ (map_range (default ∅ h)).

Lemma append_all_lookup `{!GrpcMetadata, !GrpcMetadataOk} l m k :
  NoDup l.*1 → Forall (λ kv, to_lower kv.1 = kv.1) l →
  foldl (λ md '(k, v), md_Append md k v) m l !! k =
    match (list_to_map l : gmap string string) !! k with
    | Some v => Some (default [] (m !! k) ++ [v])
    | None => m !! k
    end.
Proof.
  revert m. induction l as [|[k' v] l IH]; intros m; simpl; [by rewrite lookup_empty|].
  intros [Hk Hl]%NoDup_cons [Hlow Hall]%Forall_cons. simpl in Hlow. rewrite IH by done.
  rewrite md_Append_lookup, Hlow. case_decide as Hkk.
  - subst k'. by rewrite not_elem_of_list_to_map_1, lookup_insert_eq.
  - by rewrite lookup_insert_ne.
Qed.

(** The headers of a call survive the bridge: a header map with lower-case keys,
    turned into incoming gRPC metadata and flattened back, is the same map. *)
Theorem incoming_flatten_roundtrip `{!GrpcMetadata, !GrpcMetadataOk} (h : gomap) k :
  (∀ k v, h ≫= lookup k = Some v → to_lower k = k) →
  FlattenMD (Some (incoming_md h)) ≫= lookup k = h ≫= lookup k.
Proof.
  intros Hlow. rewrite FlattenMD_lookup. simpl. unfold incoming_md.
  pose proof (map_range_perm (default ∅ h)) as Hp. rewrite append_all_lookup, lookup_empty.
  - replace (list_to_map (map_range (default ∅ h)) !! k) with (h ≫= lookup k).
    { by destruct (h ≫= lookup k). }
    rewrite (list_to_map_proper _ (map_to_list (default ∅ h))), list_to_map_to_list.
    + by destruct h; simpl; rewrite ?lookup_empty.
    + rewrite Hp. apply NoDup_fst_map_to_list.
    + done.
  - rewrite Hp. apply NoDup_fst_map_to_list.
  - rewrite Hp. apply Forall_forall. intros [k' v] Hin%elem_of_map_to_list. apply (Hlow k' v).
    by destruct h.
Qed.

(** An instance that satisfies the laws, on which the examples run. *)
Definition plain_md : GrpcMetadata := {|
  md_Append := λ m k v, <[k := default [] (m !! k) ++ [v]]> m;
  md_Join := λ a b, union_with (λ x y, Some (x ++ y)) (default ∅ a) (default ∅ b);
  map_range := map_to_list
|}.

Lemma plain_md_ok : @GrpcMetadataOk plain_md.
Proof.
  refine (@Build_GrpcMetadataOk plain_md (λ k, k) _ _ _); simpl.
  - intros m k v k'. case_decide as E; [subst; apply lookup_insert_eq|by apply lookup_insert_ne].
  - intros m m' k. rewrite lookup_union_with.
    destruct m as [m|], m' as [m'|]; simpl; rewrite ?lookup_empty; try destruct (m !! k);
      try destruct (m' !! k); simpl; by rewrite ?app_nil_r.
  - done.
Defined.

(** A call that returns, or panics. *)
Inductive Outcome (A : Type) := Done (a : A) | Paniced (v : string).
Arguments Done {A} _.
Arguments Paniced {A} _.

Record StreamServerInfo := mkStreamServerInfo {
  FullMethod : string; IsClientStream : bool; IsServerStream : bool
}.

Record MethodInfo := mkMethodInfo {
  mi_Name : string; mi_IsClientStream : bool; mi_IsServerStream : bool
}.

Section registrar.
Context {C : Type} `{!FrameConn C} `{!GrpcLib} `{!GrpcMetadata}.
Abbreviation W := (World C).
Implicit Types (w : W) (p : nat) (c : GoCtx).

(** Service implementations, messages, the values a message is decoded into, the
    metadata of a service description, and gRPC's codec. *)
Context {Impl Msg Target Meta : Type}.
Context (codec_Marshal : Msg → error + bytes).
Context (codec_Unmarshal : bytes → Target → error + Msg).

(** The interface [grpc.ServerStream]. *)
Record ServerStream := mkServerStream {
  ss_Context : GoCtx;
  ss_SetHeader : MD → Prog W (option error);
  ss_SendHeader : MD → Prog W (option error);
  ss_SetTrailer : MD → Prog W unit;
  ss_SendMsg : Msg → Prog W (option error);
  ss_RecvMsg : Target → Prog W (error + Msg)
}.

Context {UnaryInt : Type}.

Definition MethodHandler : Type :=
  Impl → GoCtx → (Target → error + Msg) → option UnaryInt → Prog W (Outcome (error + Msg)).
Definition StreamHandler : Type := Impl → ServerStream → Prog W (Outcome (option error)).
Definition StreamServerInterceptor : Type :=
  Impl → ServerStream → StreamServerInfo → StreamHandler → Prog W (Outcome (option error)).

Record MethodDesc := mkMethodDesc { MethodName : string; md_Handler : MethodHandler }.
Record StreamDesc := mkStreamDesc {
  StreamName : string; sd_Handler : StreamHandler; ServerStreams : bool; ClientStreams : bool
}.
Record ServiceDesc := mkServiceDesc {
  ServiceName : string; sdMethods : list MethodDesc; sdStreams : list StreamDesc; sdMetadata : Meta
}.
Record ServiceInfo := mkServiceInfo { si_Methods : list MethodInfo; si_Metadata : Meta }.

(** ** grpcServerStream *)

(** The methods of the adapter of stream [p] whose pending headers are at [x]. *)
Definition gs_SetHeader x (md : MD) : Prog W (option error) :=
  on_gstream x (λ st, (st <| pending ::= λ q, Some (md_Join q md) |>, None)).

Definition gs_SendHeader p x (md : MD) : Prog W (option error) :=
  h <- on_gstream x (λ st, let q := Some (md_Join (pending st) md) in (st <| pending := q |>, q)) ;;
  err <- SendHeader p (FlattenMD h) ;;
  on_gstream x (λ st, (st <| pending := None |>, ())) ;;
  Ret err.

Definition gs_SetTrailer p (md : MD) : Prog W unit := SetTrailer p (FlattenMD md).

(** Pending headers go out before the message; that they were already sent is
    ignored. *)
Definition gs_flush p x : Prog W unit :=
  q <- on_gstream x (λ st, (st, pending st)) ;;
  match q with
  | Some _ =>
      SendHeader p (FlattenMD q) ;;
      on_gstream x (λ st, (st <| pending := None |>, ()))
  | None => Ret ()
  end.

Definition gs_SendMsg p x (m : Msg) : Prog W (option error) :=
  gs_flush p x ;;
  match codec_Marshal m with
  | inl err => Ret (Some err)
  | inr out => SendRaw p out
  end.

Definition gs_RecvMsg p (v : Target) : Prog W (error + Msg) :=
  r <- RecvRaw p ;;
  match r with
  | (_, Some err) => Ret (inl err)
  | (raw, None) => Ret (codec_Unmarshal raw v)
  end.

Definition grpcServerStream p c x : ServerStream :=
  mkServerStream c (gs_SetHeader x) (gs_SendHeader p x) (gs_SetTrailer p) (gs_SendMsg p x)
    (gs_RecvMsg p).

(** ** Handlers *)

(** [incoming]. *)
Definition incoming c p : Prog W GoCtx :=
  h <- Header p ;; Ret (c <| gc_incoming := Some (incoming_md h) |>).

(** After the handler: the metadata of the sink, then the response. *)
Definition unary_flush p (sink : option nat) (out : bytes) : Prog W (option error) :=
  h <- UnaryMD_Header sink ;;
  match h with
  | Some _ => SendHeader p h ;; Ret ()
  | None => Ret ()
  end ;;
  t <- UnaryMD_Trailer sink ;;
  SetTrailer p t ;;
  SendRaw p out.

(** [r.unary(method, handler, impl)] once the request was received. *)
Definition unary_call (i : option UnaryInt) (m : string) (h : MethodHandler) (impl : Impl)
    (c0 : ctx) p (raw : bytes) : Prog W HandlerResult :=
  c1 <- incoming (mkGoCtx c0 None None None) p ;;
  cu <- WithUnaryMetadata c1 ;;
  let c2 := cu.1 <| gc_transport := Some (UnaryServerTransportStream cu.1 m) |> in
  res <- h impl c2 (codec_Unmarshal raw) i ;;
  match res with
  | Paniced v => Ret (Panicked v)
  | Done (inl err) => Ret (Returned (Some err))
  | Done (inr res) =>
      match codec_Marshal res with
      | inl err => Ret (Returned (Some err))
      | inr out => err <- unary_flush p cu.2 out ;; Ret (Returned err)
      end
  end.

(** A half-close without a message is an empty request. *)
Definition registrar_unary (i : option UnaryInt) (m : string) (h : MethodHandler) (impl : Impl)
    : Handler := λ (c0 : ctx) p,
  r <- RecvRaw p ;;
  match r.2 with
  | Some err =>
      if decide (err = ErrEOF) then unary_call i m h impl c0 p r.1 else Ret (Returned (Some err))
  | None => unary_call i m h impl c0 p r.1
  end.

Definition handler_result (o : Outcome (option error)) : HandlerResult :=
  match o with Done err => Returned err | Paniced v => Panicked v end.

(** [r.stream(info, handler, impl)]. *)
Definition registrar_stream (i : option StreamServerInterceptor) (info : StreamServerInfo)
    (h : StreamHandler) (impl : Impl) : Handler := λ (c0 : ctx) p,
  c <- incoming (mkGoCtx c0 None None None) p ;;
  x <- new_gstream (mkServerStreamState None) ;;
  let ss := grpcServerStream p c x in
  o <- match i with None => h impl ss | Some i => i impl ss info h end ;;
  Ret (handler_result o).

(** ** Registration *)

Record grpcRegistrar := mkGrpcRegistrar {
  gr_srv : Server (C:=C);
  gr_cfg : BridgeConfig UnaryInt StreamServerInterceptor;
  gr_services : gmap string ServiceInfo
}.
#[local] Instance eta_grpcRegistrar : Eta grpcRegistrar := λ r,
  mkGrpcRegistrar (gr_srv r) (gr_cfg r) (gr_services r).

Definition GRPCRegistrar (srv : Server (C:=C))
    (opts : list (BridgeOption UnaryInt StreamServerInterceptor)) : grpcRegistrar :=
  mkGrpcRegistrar srv (ApplyBridgeOptions opts) ∅.

Definition route_name (service m : string) : string := "/" +:+ service +:+ "/" +:+ m.

(** The loops of [RegisterService]: each entry is registered and listed. *)
Definition register_method (desc : ServiceDesc) (impl : Impl) (cfg : BridgeConfig UnaryInt StreamServerInterceptor)
    (acc : Server (C:=C) * list MethodInfo) (m : MethodDesc) : Server * list MethodInfo :=
  let name := route_name (ServiceName desc) (MethodName m) in
  (Register name (Some (registrar_unary (bc_Unary cfg) name (md_Handler m) impl)) acc.1,
   acc.2 ++ [mkMethodInfo (MethodName m) false false]).

Definition register_stream (desc : ServiceDesc) (impl : Impl) (cfg : BridgeConfig UnaryInt StreamServerInterceptor)
    (acc : Server (C:=C) * list MethodInfo) (st : StreamDesc) : Server * list MethodInfo :=
  let name := route_name (ServiceName desc) (StreamName st) in
  (Register name (Some (registrar_stream (bc_Stream cfg)
     (mkStreamServerInfo name (ClientStreams st) (ServerStreams st)) (sd_Handler st) impl)) acc.1,
   acc.2 ++ [mkMethodInfo (StreamName st) (ClientStreams st) (ServerStreams st)]).

Definition RegisterService (desc : ServiceDesc) (impl : Impl) (r : grpcRegistrar) : grpcRegistrar :=
  let acc := foldl (register_method desc impl (gr_cfg r)) (gr_srv r, []) (sdMethods desc) in
  let acc := foldl (register_stream desc impl (gr_cfg r)) acc (sdStreams desc) in
  r <| gr_srv := acc.1 |>
    <| gr_services ::= <[ServiceName desc := mkServiceInfo acc.2 (sdMetadata desc)]> |>.

Definition GetServiceInfo (r : grpcRegistrar) : gmap string ServiceInfo := gr_services r.

(** ** Registration *)

(** The entries of a service: each route with its handler. *)
Definition method_entry (desc : ServiceDesc) (impl : Impl)
    (cfg : BridgeConfig UnaryInt StreamServerInterceptor) (m : MethodDesc) : string * Handler :=
  let name := route_name (ServiceName desc) (MethodName m) in
  (name, registrar_unary (bc_Unary cfg) name (md_Handler m) impl).

Definition stream_entry (desc : ServiceDesc) (impl : Impl)
    (cfg : BridgeConfig UnaryInt StreamServerInterceptor) (st : StreamDesc) : string * Handler :=
  let name := route_name (ServiceName desc) (StreamName st) in
  (name, registrar_stream (bc_Stream cfg)
     (mkStreamServerInfo name (ClientStreams st) (ServerStreams st)) (sd_Handler st) impl).

Definition service_entries (desc : ServiceDesc) (impl : Impl)
    (cfg : BridgeConfig UnaryInt StreamServerInterceptor) : list (string * Handler) :=
  (method_entry desc impl cfg <$> sdMethods desc) ++ (stream_entry desc impl cfg <$> sdStreams desc).

Definition service_infos (desc : ServiceDesc) : list MethodInfo :=
  ((λ m, mkMethodInfo (MethodName m) false false) <$> sdMethods desc) ++
  ((λ st, mkMethodInfo (StreamName st) (ClientStreams st) (ServerStreams st)) <$> sdStreams desc).

(** Registering entries one by one. *)
Definition register_all (l : list (string * Handler)) (srv : Server (C:=C)) : Server :=
  foldl (λ srv e, Register e.1 (Some e.2) srv) srv l.

Lemma register_loop {X} (entry : X → string * Handler) (info : X → MethodInfo)
    (step : Server (C:=C) * list MethodInfo → X → Server * list MethodInfo) l acc :
  (∀ acc x, step acc x = (Register (entry x).1 (Some (entry x).2) acc.1, acc.2 ++ [info x])) →
  foldl step acc l = (register_all (entry <$> l) acc.1, acc.2 ++ (info <$> l)).
Proof.
  intros Hstep. revert acc. induction l as [|x l IH]; intros acc; simpl.
  - by rewrite app_nil_r; destruct acc.
  - by rewrite IH, Hstep; simpl; rewrite <-app_assoc.
Qed.

Lemma register_all_lookup l srv name :
  NoDup l.*1 →
  handlers (register_all l srv) !! name =
    match (list_to_map l : gmap string Handler) !! name with
    | Some h => Some (Some h)
    | None => handlers srv !! name
    end.
Proof.
  revert srv. induction l as [|[n h] l IH]; intros srv; simpl; [by rewrite lookup_empty|].
  intros [Hn Hl]%NoDup_cons. rewrite IH by done. simpl.
  destruct (decide (name = n)) as [->|Hne].
  - rewrite !lookup_insert_eq. by rewrite not_elem_of_list_to_map_1.
  - rewrite !lookup_insert_ne by done. done.
Qed.

Lemma register_all_cfg l srv : cfg (register_all l srv) = cfg srv.
Proof. revert srv. by induction l as [|e l IH]; intros srv; simpl; [|rewrite IH]. Qed.

(** Registering a gRPC service routes every method and every stream of its
    description to a handler of its own under its full name, with the registrar's
    interceptors, leaves every other route and the configuration of the server
    alone, and lists the service with all of them, methods first, in order. *)
Theorem RegisterService_routes desc impl r :
  NoDup (service_entries desc impl (gr_cfg r)).*1 →
  let r' := RegisterService desc impl r in
  (∀ name h, (name, h) ∈ service_entries desc impl (gr_cfg r) →
     handlers (gr_srv r') !! name = Some (Some h)) ∧
  (∀ name, name ∉ (service_entries desc impl (gr_cfg r)).*1 →
     handlers (gr_srv r') !! name = handlers (gr_srv r) !! name) ∧
  cfg (gr_srv r') = cfg (gr_srv r) ∧
  GetServiceInfo r' = <[ServiceName desc :=
    mkServiceInfo (service_infos desc) (sdMetadata desc)]> (GetServiceInfo r).
Proof.
  intros Hnd r'.
  assert (gr_srv r' = register_all (service_entries desc impl (gr_cfg r)) (gr_srv r) ∧
    GetServiceInfo r' = <[ServiceName desc :=
      mkServiceInfo (service_infos desc) (sdMetadata desc)]> (GetServiceInfo r)) as [Hsrv Hinfo].
  { unfold r', RegisterService, GetServiceInfo. simpl.
    rewrite (register_loop (method_entry desc impl (gr_cfg r)) (λ m, mkMethodInfo (MethodName m) false false)) by done.
    rewrite (register_loop (stream_entry desc impl (gr_cfg r))
      (λ st, mkMethodInfo (StreamName st) (ClientStreams st) (ServerStreams st))) by done.
    simpl. split; [|done]. unfold service_entries, register_all. by rewrite foldl_app. }
  rewrite Hsrv. split_and!; [| |apply register_all_cfg|done].
  - intros name h Hin. rewrite register_all_lookup by done.
    by rewrite (elem_of_list_to_map_1 _ _ _ Hnd Hin).
  - intros name Hin. rewrite register_all_lookup by done.
    by rewrite not_elem_of_list_to_map_1.
Qed.

(** ** Unary calls *)

(** The frames of a leading header that is sent when there is one. *)
Definition header_frames (id : Z) (h : gomap) : list Frame :=
  match h with Some _ => [header_frame id h] | None => [] end.

(** The stream after its trailers were set. *)
Definition with_trailer (t : gomap) (s : Stream) : Stream :=
  if gomap_len t =? 0 then s else SetTrailer_lock t s.

Lemma total_SetTrailer (Q : unit → W → Prop) p s t w :
  heap w !! p = Some s → mu s = false →
  Q () (set_stream p (with_trailer t s) w) → total Q (SetTrailer p t) w.
Proof.
  intros Hp Hmu HQ. unfold SetTrailer, with_trailer in *. destruct (gomap_len t =? 0).
  - apply total_ret. by rewrite set_stream_id in HQ.
  - by eapply total_locked_.
Qed.

(** What the end of a successful unary call leaves. *)
Record flushed p (s : Stream) (k : mdSink) (out : bytes) (err : option error) w w' : Prop :=
    mk_flushed {
  fs_err : err = None;
  fs_frames : wlog w' = wlog w ++ header_frames (sid s) (non_empty (sk_header k)) ++
                [msg_frame (sid s) out];
  fs_trailer : ∃ s', heap w' = <[p:=s']> (heap w) ∧
    outTrailer s' = outTrailer (with_trailer (non_empty (sk_trailer k)) s)
}.

Lemma total_unary_flush P (Q : option error → W → Prop) p s a k out w :
  lossless P → sendable P p s w → headerSent s || msgSent s = false → sinks w !! a = Some k →
  (∀ err w', flushed p s k out err w w' → Q err w') →
  total Q (unary_flush p (Some a) out) w.
Proof.
  intros HP Hs Hfirst Hk HQ. unfold unary_flush. apply total_bind. eapply total_on_sink; [done|].
  simpl. rewrite put_sinks_id by done.
  assert (∀ s1 w1 hs, sendable P p s1 w1 → sinks w1 = sinks w → sid s1 = sid s →
    outTrailer s1 = outTrailer s → wlog w1 = wlog w ++ hs → (∃ s0, heap w1 = <[p:=s0]> (heap w)) →
    hs = header_frames (sid s) (non_empty (sk_header k)) →
    total Q (t <- UnaryMD_Trailer (Some a) ;; SetTrailer p t ;; SendRaw p out) w1) as Hrest.
  { intros s1 w1 hs [Hp1 Hmu1 Hwin1 Hlive1 Hr1] Hk1 Hsid Hot Hl1 [s0 Hh1] Hhs.
    apply total_bind. eapply total_on_sink; [by rewrite Hk1|]. simpl. rewrite put_sinks_id by by rewrite Hk1.
    apply total_bind. eapply total_SetTrailer; [done..|].
    set (s2 := with_trailer _ s1).
    assert (sid s2 = sid s1 ∧ sctx s2 = sctx s1 ∧ mu s2 = mu s1 ∧ sendWindow s2 = sendWindow s1)
      as (Hsid2 & Hc2 & Hmu2 & Hw2) by (unfold s2, with_trailer; by case_match).
    eapply (total_send_lossless P _ _ s2); [done| |].
    { split; [by eapply lookup_set_stream|by rewrite Hmu2|by rewrite Hw2|by rewrite Hc2|done]. }
    intros w2 Hh2 Hl2 _ _. apply HQ. split; [done|..].
    - rewrite Hl2. simpl. rewrite Hl1, Hsid2, Hsid, Hhs. by rewrite <-app_assoc.
    - eexists. split; [rewrite Hh2; simpl; rewrite Hh1, !list_insert_insert_eq; done|].
      simpl. unfold s2, with_trailer. case_match; [done|]. simpl. by rewrite Hot. }
  destruct (non_empty (sk_header k)) as [h|] eqn:Eh; apply total_bind.
  - apply total_bind. eapply (total_header_lossless P); [done..|]. intros w1 Hh1 Hl1 [_ _ Hk1 _ _] Hs1.
    apply total_ret. eapply Hrest; [exact Hs1|done..| |done]. by eexists.
  - apply total_ret. eapply (Hrest s w []); try done; [by rewrite app_nil_r|].
    exists s. by rewrite list_insert_id; [|apply Hs].
Qed.

(** The context a unary handler runs with: the OPEN headers as incoming metadata,
    and a sink [a] of its own, also behind the transport stream. *)
Definition unary_ctx (c0 : ctx) (s : Stream) (m : string) (a : nat) : GoCtx :=
  mkGoCtx c0 (Some a) (Some (incoming_md (header s))) (Some (mkTransportStream (Some a) m)).

(** C26: a unary gRPC method served by the registrar.  Its handler is called once, on
    the request that was received, with the headers of the call as incoming
    metadata and a fresh metadata sink.  A panic, an error of the handler and a
    response that cannot be encoded are passed on, and nothing is sent; otherwise
    the header the call set (if any), the response and the trailer it set go out,
    in this order, and the handler returns nil. *)
Theorem registrar_unary_serves P i m h impl (c0 : ctx) p s f q
    (R : Outcome (error + Msg) → W → Prop) w :
  lossless P → ready P w → heap w !! p = Some s → mu s = false → recvItems s = f :: q →
  (∀ x y w1, heap w1 = <[p:=consumed x y q s]> (heap w) → ctxs w1 = ctxs w → ready P w1 →
     sinks w1 = sinks w ++ [mkMdSink None None] →
     total R (h impl (unary_ctx c0 s m (length (sinks w))) (codec_Unmarshal (Payload f)) i) w1) →
  (∀ res w2, R (Done (inr res)) w2 → ∃ s2 k, sendable P p s2 w2 ∧
     headerSent s2 || msgSent s2 = false ∧ sinks w2 !! length (sinks w) = Some k) →
  total (λ r w', ∃ o w2, R o w2 ∧
      match o with
      | Paniced v => r = Panicked v ∧ w' = w2
      | Done (inl err) => r = Returned (Some err) ∧ w' = w2
      | Done (inr res) =>
          match codec_Marshal res with
          | inl err => r = Returned (Some err) ∧ w' = w2
          | inr out => ∃ s2 k, heap w2 !! p = Some s2 ∧ sinks w2 !! length (sinks w) = Some k ∧
              r = Returned None ∧ flushed p s2 k out None w2 w'
          end
      end)
    (registrar_unary i m h impl c0 p) w.
Proof.
  intros HP Hr Hp Hmu Hi Hh Hflush. apply total_bind.
  eapply (recv_buffered P); [apply HP|done..|]. intros x y w1 Hh1 Hr1 [Hσ1 _ Hk1 _ _] _. simpl.
  unfold unary_call, incoming. apply total_bind, total_bind.
  eapply (total_locked_read _ _ (consumed x y q s)); [|done|].
  { rewrite Hh1. apply list_lookup_insert_eq. by eapply lookup_lt_Some. }
  apply total_ret. apply total_bind, total_bind, total_update, total_ret. simpl.
  apply total_bind. rewrite Hk1. eapply total_mono; [|eapply (Hh x y)]; simpl; try done; [|by rewrite Hk1].
  intros o w2 HR. destruct o as [[err|res]|v].
  - apply total_ret. by exists (Done (inl err)), w2.
  - destruct (codec_Marshal res) as [err|out] eqn:Em.
    + apply total_ret. exists (Done (inr res)), w2. by rewrite Em.
    + destruct (Hflush _ _ HR) as (s2 & k & Hs2 & Hfirst & Hk). apply total_bind.
      eapply (total_unary_flush P); [done..|]. intros err w' Hf. apply total_ret.
      exists (Done (inr res)), w2. rewrite Em. split; [done|]. exists s2, k.
      pose proof (fs_err _ _ _ _ _ _ _ Hf) as ->. by split_and!; [apply Hs2|..].
  - apply total_ret. by exists (Paniced v), w2.
Qed.

(** ** Streaming calls *)

Lemma total_on_gstream {B} (Q : B → W → Prop) x st (g : ServerStreamState → ServerStreamState * B) w :
  gstreams w !! x = Some st → Q (g st).2 (put_gstreams (<[x:=(g st).1]>) w) →
  total Q (on_gstream x g) w.
Proof.
  intros Hk HQ. apply total_act; rewrite Hk; destruct (g st) as [k' b]; [done|].
  intros. inv_elem. done.
Qed.

Lemma put_gstreams_id x st (w : W) : gstreams w !! x = Some st → put_gstreams (<[x:=st]>) w = w.
Proof.
  intros Hk. unfold put_gstreams. destruct w; simpl in *. f_equal. by apply list_insert_id.
Qed.

(** The frames a message of a server stream goes out with: pending headers come
    first, unless headers or a message were sent before. *)
Definition message_frames (s : Stream) (st : ServerStreamState) (out : bytes) : list Frame :=
  match pending st with
  | Some _ =>
      if headerSent s || msgSent s then [] else [header_frame (sid s) (FlattenMD (pending st))]
  | None => []
  end ++ [msg_frame (sid s) out].

Lemma total_gs_SendMsg P (Q : option error → W → Prop) p x s st m out w :
  lossless P → sendable P p s w → gstreams w !! x = Some st → codec_Marshal m = inr out →
  (∀ s' w', heap w' = <[p:=s']> (heap w) → msgSent s' = true →
     gstreams w' = <[x:=st <| pending := None |>]> (gstreams w) →
     wlog w' = wlog w ++ message_frames s st out → Q None w') →
  total Q (gs_SendMsg p x m) w.
Proof.
  intros HP Hs Hst Hout HQ. unfold gs_SendMsg, gs_flush. rewrite Hout.
  apply total_bind, total_bind. eapply total_on_gstream; [done|]. simpl. rewrite put_gstreams_id by done.
  unfold message_frames in HQ. destruct (pending st) as [q|] eqn:Eq.
  - apply total_bind. destruct (headerSent s || msgSent s) eqn:Ef.
    + eapply total_mono; [|eapply SendHeader_refused; [apply Hs..|exact Ef]]. intros r w' [-> ->].
      eapply total_on_gstream; [done|].
      eapply (total_send_lossless P _ _ s); [done|by destruct Hs; split|].
      intros w' Hh Hl [_ _ _ Hg _] _. by eapply HQ.
    + eapply (total_header_lossless P); [done..|]. intros w1 Hh1 Hl1 [_ _ _ Hg1 _] Hs1.
      eapply total_on_gstream; [by rewrite Hg1|].
      eapply (total_send_lossless P); [done|by destruct Hs1; split|].
      intros w' Hh Hl [_ _ _ Hg _] _. eapply (HQ (send_take (len out) (s <| headerSent := true |>))); [|done|..].
      * rewrite Hh. simpl. by rewrite Hh1, list_insert_insert_eq.
      * rewrite Hg. simpl. by rewrite Hg1.
      * rewrite Hl. simpl. by rewrite Hl1, <-app_assoc.
  - apply total_ret. eapply (total_send_lossless P _ _ s); [done..|].
    intros w' Hh Hl [_ _ _ Hg _] _. eapply HQ; try done. rewrite Hg.
    symmetry. apply list_insert_id. rewrite Hst. f_equal. destruct st; simpl in *; by subst.
Qed.

(** The values a key is given by a sequence of [SetHeader] calls, in order. *)
Definition header_values (k : string) (mds : list MD) : list string :=
  mds ≫= λ md, default [] (md ≫= lookup k).

Lemma total_set_headers `{!GrpcMetadataOk} (Q : unit → W → Prop) x mds st w :
  gstreams w !! x = Some st →
  (∀ st' w', w' = put_gstreams (<[x:=st']>) w →
     (∀ k, default [] (pending st' ≫= lookup k) =
             default [] (pending st ≫= lookup k) ++ header_values k mds) →
     (is_Some (pending st) ∨ mds ≠ [] → is_Some (pending st')) → Q () w') →
  total Q (for_each mds (λ md, gs_SetHeader x md ;; Ret ())) w.
Proof.
  revert st w. induction mds as [|md mds IH]; intros st w Hst HQ; simpl.
  - apply total_ret. apply (HQ st); [by rewrite put_gstreams_id| |naive_solver].
    intros k. by rewrite app_nil_r.
  - apply total_bind, total_bind. eapply total_on_gstream; [done|]. apply total_ret.
    eapply (IH (mkServerStreamState (Some (md_Join (pending st) md)))).
    { simpl. by eapply list_lookup_insert_eq, lookup_lt_Some. }
    intros st' w' -> Hk Hsome. apply (HQ st').
    + unfold put_gstreams. destruct w; simpl. by rewrite list_insert_insert_eq.
    + intros k. rewrite Hk. simpl. rewrite md_Join_lookup. by rewrite <-app_assoc.
    + intros _. apply Hsome. by left.
Qed.

(** C33: response headers of a streaming gRPC handler.  The headers it sets before its
    first message are collected, and go out as one HEADER frame right before that
    message, each key with all its values in the order they were set. *)
Theorem stream_headers_flushed `{!GrpcMetadataOk} P p x s mds m out w :
  lossless P → sendable P p s w → headerSent s || msgSent s = false →
  gstreams w !! x = Some (mkServerStreamState None) → mds ≠ [] → codec_Marshal m = inr out →
  total (λ r w', r = None ∧ gstreams w' !! x = Some (mkServerStreamState None) ∧
      ∃ h, wlog w' = wlog w ++ [header_frame (sid s) h; msg_frame (sid s) out] ∧
        ∀ k, header_values k mds ≠ [] →
          h ≫= lookup k = Some (String.concat "," (header_values k mds)))
    (for_each mds (λ md, gs_SetHeader x md ;; Ret ()) ;; gs_SendMsg p x m) w.
Proof.
  intros HP Hs Hfirst Hst Hne Hout. apply total_bind. eapply total_set_headers; [done|].
  intros st' w1 -> Hk Hsome.
  assert (x < length (gstreams w))%nat as Hx by by eapply lookup_lt_Some.
  eapply (total_gs_SendMsg P _ _ _ s st'); [done|by destruct Hs; split| |done|].
  { simpl. by apply list_lookup_insert_eq. }
  intros s' w' _ _ Hg Hl. split_and!; [done|..].
  - rewrite Hg. simpl. rewrite list_insert_insert_eq, list_lookup_insert_eq by done. by destruct st'.
  - destruct (Hsome (or_intror Hne)) as [q Hq].
    exists (FlattenMD (pending st')). split.
    + rewrite Hl. unfold message_frames. simpl. by rewrite Hq, Hfirst.
    + intros k Hv. rewrite FlattenMD_lookup. specialize (Hk k). simpl in Hk.
      destruct (pending st' ≫= lookup k) as [l|]; simpl in *; [by rewrite Hk|by rewrite <-Hk in Hv].
Qed.

(** ** The handlers are programs of the runtime

    So the endpoint invariant covers a server of gRPC services whose methods only
    call the runtime, through the objects they are given. *)

Section programs.
Context (r : Role).
Abbreviation runtime := (calls r any_payload).

Ltac solve_runtime :=
  repeat first [done | apply rt_RecvRawContext | apply rt_SendRaw_any | apply rt_SendHeader
    | apply rt_SetTrailer | apply rt_Header | apply rt_on_sink | apply rt_new_sink
    | apply rt_on_gstream | apply rt_new_gstream | apply rt_Ret
    | apply rt_Bind; [|intros ?] | case_match].

Lemma runtime_registrar_unary i m h impl (c0 : ctx) p :
  (∀ c dec, runtime (h impl c dec i)) → runtime (registrar_unary i m h impl c0 p).
Proof.
  intros Hh. assert (∀ raw, runtime (unary_call i m h impl c0 p raw)) as Hcall.
  { intros raw. unfold unary_call, incoming, WithUnaryMetadata, unary_flush, UnaryMD_Header,
      UnaryMD_Trailer. solve_runtime. }
  unfold registrar_unary, RecvRaw. apply rt_Bind; [solve_runtime|]. intros [b [e|]]; simpl; [|done].
  case_decide; [done|solve_runtime].
Qed.

(** A server stream whose methods are calls of the runtime. *)
Record ss_runtime (ss : ServerStream) : Prop := mk_ss_runtime {
  sr_SetHeader md : runtime (ss_SetHeader ss md);
  sr_SendHeader md : runtime (ss_SendHeader ss md);
  sr_SetTrailer md : runtime (ss_SetTrailer ss md);
  sr_SendMsg m : runtime (ss_SendMsg ss m);
  sr_RecvMsg v : runtime (ss_RecvMsg ss v)
}.

Lemma grpcServerStream_runtime p c x : ss_runtime (grpcServerStream p c x).
Proof.
  split; intros; simpl; unfold gs_SetHeader, gs_SendHeader, gs_SetTrailer, gs_SendMsg, gs_flush,
    gs_RecvMsg, RecvRaw; solve_runtime.
Qed.

Lemma runtime_registrar_stream i info h impl (c0 : ctx) p :
  (∀ ss, ss_runtime ss → runtime (h impl ss)) →
  (∀ ic ss, i = Some ic → ss_runtime ss → runtime (ic impl ss info h)) →
  runtime (registrar_stream i info h impl c0 p).
Proof.
  intros Hh Hi. unfold registrar_stream, incoming.
  apply rt_Bind; [solve_runtime|]. intros c. apply rt_Bind; [solve_runtime|]. intros x.
  apply rt_Bind; [|intros; apply rt_Ret]. pose proof (grpcServerStream_runtime p c x).
  destruct i as [ic|]; eauto.
Qed.

End programs.

End registrar.
