(* ===== verification/Client.v ===== *)
(** * Client connections and reconnection

    [client.go] and [reconnect.go].  A [ClientConn] has at most one live mux at a
    time; with [WithReconnect] a controller goroutine replaces a dead one, and
    callers of [NewStream] wait in between.  Here a mux is its number in order of
    creation: its own state is the subject of the other files. *)

From S2P Require Import Prelude Goroutine Status Context Conn Options.

(** ** Backoff

    [nextBackoff] computes with [float64].  [float64(n)] rounds an integer to 53
    significant bits, to nearest, ties to even; doubling is exact. *)
Definition round_even (n e : Z) : Z :=
  let q := n / 2^e in
  let r := n mod 2^e in
  let half := 2^(e - 1) in
  if r <? half then q
  else if half <? r then q + 1
  else if Z.even q then q else q + 1.

Definition float64_of (n : Z) : Z :=
  if Z.abs n <? 2^53 then n
  else let e := Z.log2 (Z.abs n) - 52 in Z.sgn n * (round_even (Z.abs n) e * 2^e).

(** The loop of [nextBackoff]: [d *= 2] with the cap, at most [attempt] times. *)
Definition reconnectFactor : Z := 2.

Fixpoint backoff_loop (attempt : nat) (d cap : Z) : Z :=
  match attempt with
  | O => d
  | S n => let d := reconnectFactor * d in if cap <=? d then cap else backoff_loop n d cap
  end.

(** The bound [d] of the jitter, before [int64(d)]. *)
Definition backoff_bound (c : reconnectConfig) (attempt : nat) : Z :=
  let cap := float64_of (max c) in
  let d := backoff_loop attempt (float64_of (initial c)) cap in
  if cap <? d then cap else d.

(** [rng.Int63n(int64(d) + 1)]: any value below the bound; [None] is the panic of
    [Int63n] on a bound that is not positive.  The conversion is exact for
    [d < 2^63]. *)
Definition nextBackoff (c : reconnectConfig) (attempt : nat) (rnd : Z → Z) : option Z :=
  let n := wrap64 (backoff_bound c attempt + 1) in
  if 0 <? n then Some (rnd n) else None.

(** What the random source promises: a value in [0, n). *)
Definition Int63n_ok (rnd : Z → Z) : Prop := ∀ n, 0 < n → 0 ≤ rnd n < n.

Lemma float64_small n : 0 ≤ n < 2^53 → float64_of n = n.
Proof. intros Hn. unfold float64_of. rewrite (proj2 (Z.ltb_lt _ _)); [done|]. lia. Qed.

Lemma backoff_loop_min n d cap :
  0 < d → d ≤ cap → backoff_loop n d cap = Z.min cap (d * 2^Z.of_nat n).
Proof.
  revert d. induction n as [|n IH]; intros d Hd Hc; simpl; [lia|]. unfold reconnectFactor.
  assert (2^Z.of_nat (S n) = 2 * 2^Z.of_nat n) as Hp.
  { rewrite Nat2Z.inj_succ, Z.pow_succ_r by lia. done. }
  assert (0 < 2^Z.of_nat n) by (apply Z.pow_pos_nonneg; lia).
  change (Z.pow_pos 2 (Pos.of_succ_nat n)) with (2^Z.of_nat (S n)). rewrite Hp.
  destruct (Z.leb_spec cap (2 * d)); [nia|]. rewrite IH by lia. f_equal. nia.
Qed.

Lemma backoff_bound_min c attempt :
  0 < initial c < 2^53 → 0 < max c < 2^53 →
  backoff_bound c attempt = Z.min (max c) (initial c * 2^Z.of_nat attempt).
Proof.
  intros Hi Hm. unfold backoff_bound. rewrite !float64_small by lia.
  assert (0 < 2^Z.of_nat attempt) by (apply Z.pow_pos_nonneg; lia).
  destruct (Z.leb_spec (initial c) (max c)).
  - rewrite backoff_loop_min by lia. destruct (Z.ltb_spec (max c) (Z.min (max c) (initial c * 2 ^ Z.of_nat attempt))); lia.
  - destruct attempt as [|n]; simpl.
    + destruct (Z.ltb_spec (max c) (initial c)); lia.
    + rewrite (proj2 (Z.leb_le (max c) _)) by (unfold reconnectFactor; lia). rewrite Z.ltb_irrefl.
      assert (1 ≤ 2^Z.of_nat (S n)) by lia.
      change (Z.pow_pos 2 (Pos.of_succ_nat n)) with (2^Z.of_nat (S n)). nia.
Qed.

(** C31: exponential backoff with full jitter.  For a schedule whose initial delay and
    maximum are positive and below 2^53 ns (104 days), attempt [n] never panics, and
    the delays the random source can make it return are exactly those from 0 to
    [min(max, initial * 2^n)], however many attempts there were and also when
    [initial] is above [max]. *)
Theorem nextBackoff_range c attempt :
  0 < initial c < 2^53 → 0 < max c < 2^53 →
  (∀ rnd, is_Some (nextBackoff c attempt rnd)) ∧
  ∀ d, (∃ rnd, Int63n_ok rnd ∧ nextBackoff c attempt rnd = Some d) ↔
       0 ≤ d ≤ Z.min (max c) (initial c * 2^Z.of_nat attempt).
Proof.
  intros Hi Hm. pose proof (backoff_bound_min c attempt Hi Hm) as Hb.
  assert (0 < 2^Z.of_nat attempt) by (apply Z.pow_pos_nonneg; lia).
  set (m := Z.min (max c) (initial c * 2^Z.of_nat attempt)) in *. assert (0 ≤ m) by (subst m; nia).
  assert (∀ rnd, nextBackoff c attempt rnd = Some (rnd (m + 1))) as Hn.
  { intros rnd. unfold nextBackoff. rewrite Hb, wrap64_id by (unfold is_int64; lia).
    by rewrite (proj2 (Z.ltb_lt 0 _)) by lia. }
  split; [intros rnd; rewrite Hn; by eexists|]. intros d. split.
  - intros (rnd & Hr & Hd). rewrite Hn in Hd. injection Hd as <-. specialize (Hr (m + 1) ltac:(lia)). lia.
  - intros Hd. exists (λ n, if n =? m + 1 then d else 0). rewrite Hn, Z.eqb_refl. split; [|done].
    intros n Hn0. destruct (Z.eqb_spec n (m + 1)); lia.
Qed.

(** ** The connection *)

Record ClientConn := mkClientConn {
  ccmux : option nat;       (* mux *)
  closed : bool;
  waitCh : nat;             (* the current channel; the earlier ones are closed *)
  closeCh : bool;           (* closed *)
  created : nat;            (* muxes created so far *)
  dead : gset nat;          (* muxes whose context is done *)
  shut : gset nat;          (* muxes on which Close was called *)
  claimed : gset nat;       (* history: muxes a call of ClientConn.Close took *)
  cctxs : CtxStore
}.
#[export] Instance eta_ClientConn : Eta ClientConn := λ c,
  mkClientConn (ccmux c) (closed c) (waitCh c) (closeCh c) (created c) (dead c) (shut c) (claimed c)
    (cctxs c).

Abbreviation CW := ClientConn.

(** The state [Dial] and [DialConn] return: one live mux. *)
Definition dialed (σ : CtxStore) : ClientConn := mkClientConn (Some 0%nat) false 0 false 1 ∅ ∅ ∅ σ.

(** [broadcastLocked]: close the channel and make a new one. *)
Definition broadcastLocked (c : ClientConn) : ClientConn := c <| waitCh ::= S |>.

(** *** NewStream *)

Definition errClosed : error := Errorf codes.Unavailable "wsrpc: connection closed".

(** The head of [waitForMux]'s loop, with [cc.mu] held: an error, a mux, or the
    channel to wait on. *)
Inductive WaitHead := WhErr (e : error) | WhMux (m : nat) | WhWait (ch : nat).

Definition wait_head (c : ClientConn) : WaitHead :=
  if closed c then WhErr errClosed
  else match ccmux c with Some m => WhMux m | None => WhWait (waitCh c) end.

(** The [select] of [waitForMux]. *)
Inductive WaitBranch := WbWoken | WbCtx (e : error) | WbClosed.

Definition wait_select (c : ctx) (ch : nat) : Prog CW WaitBranch :=
  Act (λ w,
    branch (bool_decide (ch < waitCh w)%nat) (w, WbWoken) ++
    ctx_branch (ctx_Err (cctxs w) c) (λ e, (w, WbCtx e)) ++
    branch (closeCh w) (w, WbClosed)).

Definition waitForMux (c : ctx) (h : WaitHead) : Prog CW (error + nat) :=
  Iter (λ h,
    match h with
    | WhErr e => Ret (inr (inl e))
    | WhMux m => Ret (inr (inr m))
    | WhWait ch =>
        b <- wait_select c ch ;;
        match b with
        | WbWoken => h <- read wait_head ;; Ret (inl h)
        | WbCtx e => Ret (inr (inl e))
        | WbClosed => Ret (inr (inl errClosed))
        end
    end) h.

(** [NewStream] up to the call of [mux.newClientStream]: the mux to open on. *)
Definition NewStream (c : ctx) : Prog CW (error + nat) :=
  h <- read (λ w, match ccmux w with Some m => WhMux m | None => wait_head w end) ;;
  waitForMux c h.

(** *** Close *)

Definition mux_close (m : nat) : Prog CW unit :=
  modify (λ w, w <| shut ::= λ s, {[m]} ∪ s |> <| dead ::= λ s, {[m]} ∪ s |>).

(** The critical section of [Close]: the mux to close, or nothing to do. *)
Definition Close_lock (w : ClientConn) : ClientConn * option nat :=
  if closed w then (w, None)
  else (broadcastLocked (w <| closed := true |> <| ccmux := None |> <| closeCh := true |>
          <| claimed ::= λ s, match ccmux w with Some m => {[m]} ∪ s | None => s end |>), ccmux w).

Definition Close : Prog CW unit :=
  m <- update Close_lock ;;
  match m with Some m => mux_close m | None => Ret () end.

(** *** The controller *)

(** [dialOnce]: the handshake may fail; on success a fresh mux is running. *)
Definition dialOnce : Prog CW (option nat) :=
  Act (λ w, [(w, None); (w <| created ::= S |>, Some (created w))]).

(** [redial]; [None] when the connection was closed.  The timer of the backoff may
    fire at any time. *)
Definition redial : Prog CW (option nat) :=
  Iter (λ attempt : nat,
    cl <- read closeCh ;;
    if cl : bool then Ret (inr None)
    else
      m <- dialOnce ;;
      match m with
      | Some m => Ret (inr (Some m))
      | None =>
          stop <- Act (λ w, (w, false) :: branch (closeCh w) (w, true)) ;;
          if stop : bool then Ret (inr None) else Ret (inl (S attempt))
      end) 0%nat.

(** The wait for the mux to die, or for the connection to be closed: [true] is the
    latter. *)
Definition watch (m : nat) : Prog CW bool :=
  Act (λ w, branch (bool_decide (m ∈ dead w)) (w, false) ++ branch (closeCh w) (w, true)).

(** Dropping the dead mux; [true] when the connection was closed meanwhile. *)
Definition drop_lock (w : ClientConn) : ClientConn * bool :=
  if closed w then (w, true) else (w <| ccmux := None |>, false).

(** Installing a fresh one; [true] when the connection was closed meanwhile. *)
Definition install_lock (m : nat) (w : ClientConn) : ClientConn * bool :=
  if closed w then (w, true)
  else (broadcastLocked (w <| ccmux := Some m |>), false).

Definition reconnector_run : Prog CW unit :=
  Iter (λ _ : unit,
    st <- read (λ w, (ccmux w, closed w)) ;;
    match st with
    | (_, true) | (None, _) => Ret (inr ())
    | (Some m, false) =>
        stop <- watch m ;;
        if stop : bool then Ret (inr ())
        else
          cl <- update drop_lock ;;
          if cl : bool then Ret (inr ())
          else
            n <- redial ;;
            match n with
            | None => Ret (inr ())
            | Some n =>
                cl <- update (install_lock n) ;;
                if cl : bool then mux_close n ;; Ret (inr ()) else Ret (inl ())
            end
    end) ().

(** ** Invariant and progress of the state *)

Record cc_inv (w : CW) : Prop := mk_cc_inv {
  ci_closeCh : closeCh w = closed w;
  ci_closed : closed w = true → ccmux w = None
}.

(** How the state changes.  As long as the wait channel is the same, a missing mux
    stays missing and an open connection stays open. *)
Record cc_le (w w' : CW) : Prop := mk_cc_le {
  cl_gen : (waitCh w ≤ waitCh w')%nat;
  cl_closed : closed w = true → closed w' = true;
  cl_created : (created w ≤ created w')%nat;
  cl_dead : dead w ⊆ dead w';
  cl_same : waitCh w = waitCh w' →
    closed w' = closed w ∧ (ccmux w = None → ccmux w' = None)
}.

#[export] Instance cc_le_preorder : PreOrder cc_le.
Proof.
  split.
  - intros w. by split.
  - intros w1 w2 w3 [] []. split; [lia|auto|lia|by etrans|].
    intros Heq. destruct cl_same0 as [? ?]; [lia|]. destruct cl_same1 as [? ?]; [lia|].
    split; [congruence|auto].
Qed.

Definition cc_steps : relation CW := λ w w', cc_inv w → cc_inv w' ∧ cc_le w w'.

#[export] Instance cc_steps_refl : Reflexive cc_steps.
Proof. by split. Qed.

(** Muxes die, contexts end and timers fire between two steps. *)
Definition cc_env : relation CW := λ w w',
  ∃ σ d, dead w ⊆ d ∧ w' = w <| cctxs := σ |> <| dead := d |>.

Lemma cc_env_steps w w' : cc_env w w' → cc_steps w w'.
Proof. intros (σ & d & Hd & ->) []. split; [by split|]. by split. Qed.

Lemma cc_acts_read {B} (f : CW → B) : all_acts cc_steps (read f).
Proof. intros w w' b Hin. simpl in Hin. by inv_elem. Qed.

Lemma cc_acts_NewStream c : all_acts cc_steps (NewStream c).
Proof.
  split; [apply cc_acts_read|]. intros h [e|m|ch]; try exact I. split.
  - intros w w' b. simpl. rewrite !elem_of_app, !elem_of_branch, elem_of_ctx_branch.
    naive_solver.
  - intros [|e|]; try exact I. split; [apply cc_acts_read|done].
Qed.

Lemma cc_acts_mux_close m : all_acts cc_steps (mux_close m).
Proof. intros w w' b Hin. inv_elem. intros []. split; [by split|]. split; simpl; try done. set_solver. Qed.

Lemma cc_acts_Close : all_acts cc_steps Close.
Proof.
  split; [|intros [m|]; [apply cc_acts_mux_close|exact I]].
  intros w w' b Hin. apply list_elem_of_singleton in Hin. unfold Close_lock in Hin.
  destruct (closed w) eqn:E; simplify_eq; [reflexivity|]. intros []. split; [by split|].
  split; simpl; try done; lia.
Qed.

Lemma cc_acts_dialOnce : all_acts cc_steps dialOnce.
Proof.
  intros w w' b Hin. inv_elem; [reflexivity|]. intros []. split; [by split|]. by split; simpl; try lia.
Qed.

Lemma cc_acts_redial : all_acts cc_steps redial.
Proof.
  intros n. split; [apply cc_acts_read|]. intros [|]; [exact I|].
  split; [apply cc_acts_dialOnce|]. intros [m|]; [exact I|]. split.
  - intros w w' b. simpl. rewrite elem_of_cons, elem_of_branch. naive_solver.
  - by intros [|].
Qed.

Lemma cc_acts_reconnector : all_acts cc_steps reconnector_run.
Proof.
  intros s. split; [apply cc_acts_read|]. intros [[m|] [|]]; try exact I. split.
  { intros w w' b. simpl. rewrite elem_of_app, !elem_of_branch. naive_solver. }
  intros [|]; [exact I|]. split.
  { intros w w' b Hin. apply list_elem_of_singleton in Hin. unfold drop_lock in Hin.
    destruct (closed w) eqn:E; simplify_eq; [reflexivity|]. intros []. split; [by split|]. by split. }
  intros [|]; [exact I|]. split; [apply cc_acts_redial|]. intros [n|]; [|exact I]. split.
  { intros w w' b Hin. apply list_elem_of_singleton in Hin. unfold install_lock in Hin.
    destruct (closed w) eqn:E; simplify_eq; [reflexivity|]. intros [Hc ?]. split.
    - split; simpl; [done|]. by rewrite E.
    - split; simpl; try done; lia. }
  intros [|]; [|exact I]. by split; [apply cc_acts_mux_close|].
Qed.

Lemma cc_steps_rtc w w' : rtc cc_steps w w' → cc_inv w → cc_inv w' ∧ cc_le w w'.
Proof.
  induction 1 as [|w1 w2 w3 H12 _ IH]; intros Hw; [done|].
  destruct (H12 Hw) as [Hw2 ?]. destruct (IH Hw2). split; [done|by etrans].
Qed.

Lemma dialed_inv σ : cc_inv (dialed σ).
Proof. by split. Qed.

(** The goroutines of a client connection: the controller and any number of
    goroutines made of calls to [NewStream] and [Close]. *)
Definition client_pool (σ : CtxStore) (ts : list (Prog CW unit)) : Config CW :=
  mkConfig (dialed σ) (reconnector_run :: ts).

Lemma client_run σ ts c1 c2 :
  Forall (all_acts cc_steps) ts → rtc (sys_step cc_env) (client_pool σ ts) c1 →
  rtc (sys_step cc_env) c1 c2 →
  cc_inv (world c1) ∧ cc_inv (world c2) ∧ cc_le (world c1) (world c2).
Proof.
  intros Hts H01 H12.
  destruct (all_acts_rtc cc_steps cc_env (client_pool σ ts) c1) as [Hr1 Hts1]; [apply cc_env_steps| |done|].
  { constructor; [apply cc_acts_reconnector|done]. }
  destruct (all_acts_rtc cc_steps cc_env c1 c2) as [Hr2 _]; [apply cc_env_steps|done..|].
  destruct (cc_steps_rtc _ _ Hr1 (dialed_inv σ)) as [Hi1 _].
  by destruct (cc_steps_rtc _ _ Hr2 Hi1).
Qed.

(** C21: a caller that waits out a reconnect is not forgotten.  Whatever the
    interleaving of the controller with other callers and with [Close]: as long as
    the channel a caller waits on is open, there is no live mux and the connection
    is not closed; so once a mux is installed, or the connection closed, every
    waiting [NewStream] is woken. *)
Theorem waiting_caller_woken σ ts c1 c2 ch :
  Forall (all_acts cc_steps) ts → rtc (sys_step cc_env) (client_pool σ ts) c1 →
  rtc (sys_step cc_env) c1 c2 → wait_head (world c1) = WhWait ch →
  (ch < waitCh (world c2))%nat ∨ ccmux (world c2) = None ∧ closed (world c2) = false.
Proof.
  intros Hts H01 H12 Hw. destruct (client_run σ ts c1 c2 Hts H01 H12) as (_ & _ & [Hgen _ _ _ Hsame]).
  unfold wait_head in Hw. destruct (closed (world c1)) eqn:Ec; [done|].
  destruct (ccmux (world c1)) eqn:Em; [done|]. injection Hw as <-.
  destruct (decide (waitCh (world c1) = waitCh (world c2))) as [Heq|]; [right|left; lia].
  destruct (Hsame Heq) as [Hc Hm]. split; [by apply Hm|congruence].
Qed.

Lemma NewStream_head (Q : error + nat → CW → Prop) c w :
  match (match ccmux w with Some m => WhMux m | None => wait_head w end) with
  | WhErr e => Q (inl e) w
  | WhMux m => Q (inr m) w
  | WhWait _ => False
  end → total Q (NewStream c) w.
Proof.
  intros HQ. apply total_bind, total_read. destruct (match ccmux w with _ => _ end); [| |done];
    by apply total_iter, total_ret.
Qed.

(** C22: [Close] is final.  Once the connection was closed, every later [NewStream]
    returns Unavailable at once, also if the controller was redialing at the
    time: a mux it still creates is never installed. *)
Theorem closed_is_final σ ts c1 c2 c :
  Forall (all_acts cc_steps) ts → rtc (sys_step cc_env) (client_pool σ ts) c1 →
  closed (world c1) = true → rtc (sys_step cc_env) c1 c2 →
  ccmux (world c2) = None ∧
  total (λ r w', r = inl errClosed ∧ w' = world c2) (NewStream c) (world c2).
Proof.
  intros Hts H01 Hc H12. destruct (client_run σ ts c1 c2 Hts H01 H12) as (_ & [_ Hcl] & Hle).
  pose proof (cl_closed _ _ Hle Hc) as Hc2. pose proof (Hcl Hc2) as Hm. split; [done|].
  apply NewStream_head. unfold wait_head. by rewrite Hm, Hc2.
Qed.

(** ** No mux is leaked *)

(** A mux is accounted for: it is dead, it is the live one, or a call of [Close]
    took it and closes it. *)
Definition accounted (w : CW) (m : nat) : Prop :=
  m ∈ dead w ∨ ccmux w = Some m ∨ m ∈ claimed w.

Definition all_accounted (w : CW) : Prop := ∀ m, (m < created w)%nat → accounted w m.

(** All but [n], which the controller has in its hands. *)
Definition accounted_but (n : nat) (w : CW) : Prop :=
  ∀ m, (m < created w)%nat → m = n ∨ accounted w m.

(** What callers and the environment do: they create no mux, and leave every mux
    accounted for. *)
Definition others : relation CW := λ w w',
  created w' = created w ∧ dead w ⊆ dead w' ∧ claimed w ⊆ claimed w' ∧
  (∀ m, ccmux w = Some m → ccmux w' = Some m ∨ m ∈ claimed w') ∧
  (∀ m, ccmux w' = Some m → ccmux w = Some m).

Definition anything : relation CW := λ _ _, True.

#[export] Instance anything_refl : Reflexive anything.
Proof. done. Qed.

Lemma others_accounted w w' m : others w w' → accounted w m → accounted w' m.
Proof.
  intros (_ & Hd & Hc & Hm & _) [?|[Hs|?]]; unfold accounted; [set_solver| |set_solver].
  destruct (Hm m Hs); auto.
Qed.

Lemma others_all w w' : others w w' → all_accounted w → all_accounted w'.
Proof.
  intros Ho Ha m Hm. eapply others_accounted; [done|]. apply Ha. by destruct Ho as [<- _].
Qed.

Lemma others_but n w w' : others w w' → accounted_but n w → accounted_but n w'.
Proof.
  intros Ho Ha m Hm. destruct (Ha m) as [?|?]; [by destruct Ho as [<- _]|by left|].
  right. by eapply others_accounted.
Qed.

#[export] Instance others_refl : Reflexive others.
Proof. intros w. split_and!; auto. Qed.

Lemma others_env w w' : cc_env w w' → others w w'.
Proof. intros (σ & d & Hd & ->). split_and!; simpl; auto. Qed.

Lemma others_NewStream c : all_acts others (NewStream c).
Proof.
  split; [intros w w' b Hin; simpl in Hin; by inv_elem|]. intros h [e|m|ch]; try exact I. split.
  - intros w w' b. simpl. rewrite !elem_of_app, !elem_of_branch, elem_of_ctx_branch.
    intros [[_ ?]|[(e & _ & ?)|[_ ?]]]; by simplify_eq.
  - intros [|e|]; try exact I. split; [intros w w' b Hin; simpl in Hin; by inv_elem|done].
Qed.

Lemma others_mux_close m : all_acts others (mux_close m).
Proof. intros w w' b Hin. inv_elem. split_and!; simpl; auto. set_solver. Qed.

Lemma others_Close : all_acts others Close.
Proof.
  split; [|intros [m|]; [apply others_mux_close|exact I]].
  intros w w' b Hin. apply list_elem_of_singleton in Hin. unfold Close_lock in Hin.
  destruct (closed w); simplify_eq; [reflexivity|]. split_and!; simpl; auto.
  - case_match; set_solver.
  - intros m ->. right. set_solver.
  - done.
Qed.

(** The controller tolerates the others. *)
Abbreviation cspec P p Q := (triple anything others others anything P p Q).

Lemma cspec_bind {A B} P (p : Prog CW A) (f : A → Prog CW B) M Q :
  cspec P p M → (∀ a, cspec (M a) (f a) Q) → cspec P (Bind p f) Q.
Proof. apply triple_bind. by intros w. Qed.

Lemma cspec_act {B} (P : CW → Prop) (a : CW → list (CW * B)) (Q : B → CW → Prop) :
  stable others P → (∀ b, stable others (Q b)) →
  (∀ w w' b, P w → (w', b) ∈ a w → Q b w') → cspec P (Act a) Q.
Proof. intros HP HQ Ha. apply triple_act; [done..|]. intros. split; [done|eauto]. Qed.

Lemma stable_all : stable others all_accounted.
Proof. intros w w'. apply others_all. Qed.

Lemma stable_but n : stable others (accounted_but n).
Proof. intros w w'. apply others_but. Qed.

Lemma cspec_ret {A} (a : A) Q : stable others (Q a) → cspec (Q a) (Ret a) Q.
Proof. intros. by apply triple_ret. Qed.

(** No mux is installed but possibly [o]. *)
Definition only (o : option nat) (w : CW) : Prop := ∀ k, ccmux w = Some k → o = Some k.

Lemma stable_only o : stable others (only o).
Proof. intros w w' (_ & _ & _ & _ & Hm) Ho k Hk. apply Ho, Hm, Hk. Qed.

Lemma stable_and (P Q : CW → Prop) :
  stable others P → stable others Q → stable others (λ w, P w ∧ Q w).
Proof. intros HP HQ w w' Ho [? ?]. split; [by eapply HP|by eapply HQ]. Qed.

Lemma stable_dead m : stable others (λ w, m ∈ dead w).
Proof. intros w w' (_ & Hd & _). set_solver. Qed.

Ltac solve_stable :=
  intros; cbv beta;
  repeat first
    [ apply stable_all | apply stable_but | apply stable_only | apply stable_dead
    | apply stable_and | done
    | match goal with |- stable _ (λ _, match ?x with _ => _ end) => destruct x end
    | match goal with |- stable _ (match ?x with _ => _ end) => destruct x end ].
#[local] Hint Extern 1 (stable others _) => solve_stable : core.

(** What [redial] hands over. *)
Definition redialed (o : option nat) (w : CW) : Prop :=
  match o with None => all_accounted w | Some n => accounted_but n w ∧ only None w end.

Lemma stable_redialed o : stable others (redialed o).
Proof. destruct o; unfold redialed; auto. Qed.
#[local] Hint Resolve stable_redialed : core.

Lemma cspec_dialOnce :
  cspec (λ w, all_accounted w ∧ only None w) dialOnce
    (λ o w, redialed o w ∧ only None w).
Proof.
  apply cspec_act; [auto|intros o; apply stable_and; auto|]. intros w w' b [Ha Ho] Hin. inv_elem; [by split|].
  assert (only None (w <| created ::= S |>)) by done.
  split_and!; try done. intros m Hm. simpl in Hm.
  destruct (decide (m = created w)); [by left|right]. apply Ha. lia.
Qed.

Lemma cspec_redial : cspec (λ w, all_accounted w ∧ only None w) redial redialed.
Proof.
  apply (triple_iter _ _ _ _ (λ _ w, all_accounted w ∧ only None w)); [auto|auto|]. intros attempt.
  eapply (cspec_bind _ _ _ (λ _ w, all_accounted w ∧ only None w)).
  { apply cspec_act; [auto|auto|]. intros w w' b Hw Hin. by inv_elem. }
  intros [|]; [apply triple_ret; [auto|]; by intros w []|].
  eapply cspec_bind; [apply cspec_dialOnce|]. intros [m|].
  { apply triple_ret; [auto|]. by intros w []. }
  eapply (cspec_bind _ _ _ (λ _ w, all_accounted w ∧ only None w)).
  { apply cspec_act; [auto|auto|]. intros w w' b Hw. rewrite elem_of_cons, elem_of_branch.
    intros [?|[_ ?]]; by simplify_eq. }
  intros [|]; apply triple_ret; auto. by intros w [].
Qed.

Lemma cspec_mux_close n : cspec (accounted_but n) (mux_close n) (λ _, all_accounted).
Proof.
  apply cspec_act; [auto|auto|]. intros w w' b Hw Hin. inv_elem. intros m Hm. simpl in Hm.
  destruct (Hw m Hm) as [->|Ha]; unfold accounted in *; simpl; set_solver.
Qed.

Lemma cspec_install n :
  cspec (λ w, accounted_but n w ∧ only None w) (update (install_lock n))
    (λ cl, if cl : bool then accounted_but n else all_accounted).
Proof.
  apply cspec_act; [auto|intros [|]; auto|].
  intros w w' b [Ha Ho] Hin%list_elem_of_singleton. unfold install_lock in Hin.
  destruct (closed w); simplify_eq; [done|]. intros m Hm. simpl in Hm. unfold accounted; simpl.
  destruct (Ha m Hm) as [->|[?|[Hs|?]]]; auto. by apply Ho in Hs.
Qed.

Lemma cspec_drop m :
  cspec (λ w, all_accounted w ∧ (only (Some m) w ∧ m ∈ dead w)) (update drop_lock)
    (λ cl w, all_accounted w ∧ (if cl : bool then True else only None w)).
Proof.
  apply cspec_act; [auto|intros [|]; auto; by apply stable_and|].
  intros w w' b (Ha & Ho & Hd) Hin%list_elem_of_singleton. unfold drop_lock in Hin.
  destruct (closed w); simplify_eq; [done|]. split; [|done]. intros k Hk. simpl in Hk.
  unfold accounted; simpl. destruct (Ha k Hk) as [?|[Hs|?]]; auto.
  apply Ho in Hs. simplify_eq. auto.
Qed.

Lemma cspec_reconnector : cspec all_accounted reconnector_run (λ _, all_accounted).
Proof.
  apply (triple_iter _ _ _ _ (λ _, all_accounted)); [auto|auto|]. intros [].
  eapply (cspec_bind _ _ _ (λ st w, all_accounted w ∧ only st.1 w)).
  { apply cspec_act; [auto|auto|]. intros w w' b Hw Hin. inv_elem. split; [done|by intros k]. }
  intros [[m|] [|]]; try (apply triple_ret; [auto|]; by intros w []).
  eapply (cspec_bind _ _ _ (λ stop w, all_accounted w ∧ (if stop : bool then True else only (Some m) w ∧ m ∈ dead w))).
  { apply cspec_act; [auto|intros [|]; auto; by apply stable_and|]. intros w w' b [Ha Ho].
    rewrite elem_of_app, !elem_of_branch. intros [[Hd ?]|[_ ?]]; simplify_eq/=; [|done].
    split_and!; try done. by apply bool_decide_eq_true in Hd. }
  intros [|]; [apply triple_ret; [auto|]; by intros w []|].
  eapply cspec_bind; [apply cspec_drop|]. intros [|]; [apply triple_ret; [auto|]; by intros w []|].
  eapply cspec_bind; [apply cspec_redial|]. intros [n|]; [|by apply triple_ret; auto].
  eapply cspec_bind; [apply cspec_install|]. intros [|]; [|by apply triple_ret; auto].
  eapply cspec_bind; [apply cspec_mux_close|]. intros []. by apply triple_ret; auto.
Qed.

(** C20: no connection is leaked.  Whatever the interleaving of the controller with
    callers and with [Close]: when the controller has stopped, every mux it ever
    created has died or was closed, or is the live one, or is being closed by the
    call of [Close] that took it. *)
Theorem no_mux_leaked σ ts c p m :
  Forall (all_acts others) ts → rtc (sys_step cc_env) (client_pool σ ts) c →
  threads c !! 0%nat = Some p → result p = Some () → (m < created (world c))%nat →
  accounted (world c) m.
Proof.
  intros Hts Hrtc Hp Hr Hm.
  assert (pool_safe anything others others anything (λ _, all_accounted) (client_pool σ ts)) as Hpool.
  { exists reconnector_run, ts. split_and!; [done| |].
    - intros n. apply cspec_reconnector. intros k Hk. right. left. simpl in Hk.
      assert (k = 0%nat) as -> by lia. done.
    - eapply Forall_impl; [exact Hts|]. intros t Ht n.
      by apply (all_acts_safe _ _ _ _ others). }
  assert (pool_safe anything others others anything (λ _, all_accounted) c) as Hc.
  { eapply (pool_safe_reachable anything others others anything cc_env _ (λ _, True));
      [by split|done| |done|exact Hpool|done|exact Hrtc].
    intros w w' He. split; [by apply others_env|done]. }
  by apply (pool_safe_result _ _ _ _ _ _ _ _ Hc Hp Hr).
Qed.

(** ** Concrete runs *)

Lemma nextBackoff_range_witness :
  let attempt3 := nextBackoff (mkReconnectConfig true defaultReconnectInitial defaultReconnectMax) 3 in
  (∃ rnd, Int63n_ok rnd ∧ attempt3 rnd = Some 800000000) ∧
  ¬ (∃ rnd, Int63n_ok rnd ∧ attempt3 rnd = Some 800000001).
Proof.
  intros attempt3.
  split.
  - apply (nextBackoff_range (mkReconnectConfig true defaultReconnectInitial defaultReconnectMax) 3);
      by vm_compute.
  - intros H. apply (nextBackoff_range (mkReconnectConfig true defaultReconnectInitial defaultReconnectMax) 3)
      in H; [|by vm_compute ..]. by destruct H as [_ H].
Defined.

(** The live mux dies; the controller drops it, and dials a new one. *)
Definition one_caller : list (Prog CW unit) := [Close].

Definition mux0_dead : Config CW :=
  mkConfig ((dialed ctx_empty) <| dead := {[0%nat]} |>) (reconnector_run :: one_caller).

Lemma mux0_dies : rtc (sys_step cc_env) (client_pool ctx_empty one_caller) mux0_dead.
Proof.
  eapply rtc_l; [|apply rtc_refl]. apply (sys_step_env cc_env (client_pool ctx_empty one_caller)).
  exists ctx_empty, {[0%nat]}. split; [set_solver|done].
Qed.

Definition until_dropped : list (nat * nat) := replicate 6 (0, 0)%nat.
Definition until_installed : list (nat * nat) :=
  replicate 4 (0, 0)%nat ++ [(0, 1)%nat] ++ replicate 4 (0, 0)%nat.

Lemma close_acts : Forall (all_acts cc_steps) one_caller.
Proof. constructor; [apply cc_acts_Close|done]. Qed.

(** The channel a caller that arrives now would wait on. *)
Definition waits_on (ch : nat) (c : Config CW) : bool :=
  match wait_head (world c) with WhWait ch' => (ch' =? ch)%nat | _ => false end.

Definition installed (c : Config CW) : bool := bool_decide (is_Some (ccmux (world c))).

Lemma waiting_caller_woken_witness :
  ∃ c1 c2, waits_on 0 c1 = true ∧ installed c2 = true ∧
    rtc (sys_step cc_env) c1 c2 ∧ (0 < waitCh (world c2))%nat.
Proof.
  destruct (reaches_rtc cc_env until_dropped mux0_dead
    (λ c1, waits_on 0 c1 && reaches until_installed c1 installed))
    as (c1 & H01 & [H1 H12]%andb_true_iff); [by vm_compute|].
  destruct (reaches_rtc cc_env _ _ _ H12) as (c2 & Hr & H2).
  exists c1, c2. split; [done|]. split; [done|]. split; [done|].
  destruct (waiting_caller_woken ctx_empty one_caller c1 c2 0) as [?|[Hm _]]; [apply close_acts|..].
  - etrans; [apply mux0_dies|exact H01].
  - exact Hr.
  - unfold waits_on in H1. destruct (wait_head (world c1)); try done.
    apply Nat.eqb_eq in H1. by subst.
  - done.
  - unfold installed in H2. apply bool_decide_eq_true in H2. rewrite Hm in H2. by destruct H2.
Defined.

(** The connection is closed while the controller has a fresh mux in its hands. *)
Definition closing : list (nat * nat) :=
  replicate 10 (0, 0)%nat ++ [(0, 1)%nat] ++ replicate 2 (1, 0)%nat.

Lemma closed_is_final_witness :
  ∃ c1, closed (world c1) = true ∧ created (world c1) = 2%nat ∧ ccmux (world c1) = None.
Proof.
  destruct (reaches_rtc cc_env closing mux0_dead
    (λ c, closed (world c) && (created (world c) =? 2)%nat)) as (c1 & H01 & [H1 H2]%andb_true_iff);
    [by vm_compute|].
  exists c1. split; [done|]. split; [by apply Nat.eqb_eq|].
  apply (closed_is_final ctx_empty one_caller c1 c1 []); [apply close_acts| |done|apply rtc_refl].
  etrans; [apply mux0_dies|exact H01].
Defined.

(** The controller then closes it and stops. *)
Definition stopped (c : Config CW) : bool :=
  match threads c !! 0%nat with
  | Some p => match result p with Some _ => true | None => false end
  | None => false
  end.

Lemma no_mux_leaked_witness :
  ∃ c, stopped c = true ∧ created (world c) = 2%nat ∧ accounted (world c) 1.
Proof.
  destruct (reaches_rtc cc_env (closing ++ replicate 8 (0, 0)%nat) mux0_dead
    (λ c, stopped c && (created (world c) =? 2)%nat)) as (c & H0 & [H1 H2%Nat.eqb_eq]%andb_true_iff);
    [by vm_compute|].
  exists c. split; [done|]. split; [done|]. unfold stopped in H1.
  destruct (threads c !! 0%nat) as [p|] eqn:Hp; [|done].
  destruct (result p) as [[]|] eqn:Hr; [|done].
  apply (no_mux_leaked ctx_empty one_caller c p 1); [|etrans; [apply mux0_dies|exact H0]|done|done|lia].
  constructor; [apply others_Close|done].
Defined.
