(* ===== verification/Dial.v ===== *)
(** * Dialing

    The part of [client.go] and [reconnect.go] that opens connections: one
    WebSocket handshake, the check of the subprotocol, and the mux, its goroutines
    and the reconnect controller that are started over it.  [websocket.Dial] is a
    parameter. *)

From S2P Require Import Prelude Goroutine Status Context Conn Strconv Stream World StreamOps MuxOps Endpoint Options Client.

(** What is passed to [websocket.Dial]. *)
Record DialOptions {HttpHeader : Type} := mkDialOptions {
  do_Subprotocols : list string;
  do_HTTPHeader : option HttpHeader;
  do_CompressionMode : CompressionMode
}.
Arguments DialOptions : clear implicits.
Arguments mkDialOptions {HttpHeader} _ _ _.

(** The controller of a reconnecting connection. *)
Record reconnector {cfg : Type} := mkReconnector { rc_url : string; rc_cfg : cfg }.
Arguments reconnector : clear implicits.
Arguments mkReconnector {cfg} _ _.

Section dial.
Context {WC : Type}.
Context (ws_Write : option error → bytes → WC → list (WC * option error)).
Context (ws_Read : option error → WC → list (WC * (error + bytes))).
Context (ws_Ping : option error → WC → list (WC * option error)).
Context (ws_Close : string → string → WC → list (WC * option error)).
Context (ws_Subprotocol : WC → string) (ws_SetReadLimit : Z → WC → WC).
Context (proto_Marshal : Frame → error + bytes) (proto_Unmarshal : bytes → error + Frame).
Context (quote : string → string).
Context `{!GrpcLib}.
Context {Interceptor HttpHeader : Type}.

#[local] Instance dial_conn : FrameConn WC :=
  WSConn.ws_conn ws_Write ws_Read ws_Ping ws_Close proto_Marshal proto_Unmarshal.

Abbreviation W := (World WC).
Abbreviation config := (dialConfig Interceptor HttpHeader).
Abbreviation verifySubprotocol := (WSConn.verifySubprotocol ws_Close ws_Subprotocol quote).
Abbreviation newWSConn := (WSConn.newWSConn ws_SetReadLimit).

(** [websocket.Dial(ctx, url, opts)] under a context with this [Err()]: the results
    it may have. *)
Context (ws_Dial : option error → string → DialOptions HttpHeader → list (error + WC)).

(** The result of a dial: an error, with the connection that was refused, or a mux
    with its goroutines. *)
Inductive Dialed :=
| DialFailed (err : error) (refused : option WC)
| DialOk (k : Config W).

Definition handshake_options (cfg : config) : DialOptions HttpHeader :=
  mkDialOptions [WSConn.Subprotocol] (dc_header cfg) (dc_compression cfg).

(** What follows the handshake: the mux is created under [c]. *)
Definition start_mux (c : ctx) (cfg : config) (σ : CtxStore) (cn : WC) : list Dialed :=
  (λ '(cn, err),
     match err with
     | Some e => DialFailed e (Some cn)
     | None =>
         DialOk (mkConfig
           (newMuxConfig c (newWSConn cn (dc_readLimit cfg)) (dc_receiveBuffer cfg)
              (dc_initialWindow cfg) 0 None σ)
           (mux_goroutines None ++ [startKeepalive (dc_keepalive cfg) (dc_keepaliveTimeout cfg)]))
     end) <$> verifySubprotocol cn.

Definition dial_ws (e : option error) (c : ctx) (url : string) (cfg : config) (σ : CtxStore)
    : list Dialed :=
  ws_Dial e url (handshake_options cfg) ≫= λ r,
    match r with
    | inl err => [DialFailed err None]
    | inr cn => start_mux c cfg σ cn
    end.

(** [dialMux(ctx, url, cfg)]: the context bounds the handshake and the mux. *)
Definition dialMux (c : ctx) (url : string) (cfg : config) (σ : CtxStore) : list Dialed :=
  dial_ws (ctx_Err σ c) c url cfg σ.

(** [dialOnce]: the handshake runs under a context of its own, which is cancelled
    when the connection is closed meanwhile; the mux is bound by no context. *)
Definition dialOnce_ws (closing : bool) (r : reconnector config) (σ : CtxStore) : list Dialed :=
  dial_ws (if closing then Some ErrCanceled else None) Background (rc_url r) (rc_cfg r) σ.

(** A client connection that was opened: its state (Client.v), its mux, its
    interceptors and the controller, when it has one. *)
Record Opened := mkOpened {
  op_cc : ClientConn;
  op_mux : Config W;
  op_interceptors : list Interceptor;
  op_reconn : option (reconnector config)
}.

Definition Dial (c : ctx) (url : string) (opts : list (DialOption Interceptor HttpHeader))
    (σ : CtxStore) : list (error + Opened) :=
  let cfg := dial_config opts in
  (λ d,
     match d with
     | DialFailed err _ => inl err
     | DialOk k =>
         inr (mkOpened (dialed σ) k (interceptors cfg)
           (if enabled (reconnect cfg) then Some (mkReconnector url cfg) else None))
     end) <$> dialMux c url cfg σ.

(** The goroutine [Dial] starts for the connection. *)
Definition op_goroutines (o : Opened) : list (Prog ClientConn unit) :=
  match op_reconn o with Some _ => [reconnector_run] | None => [] end.

(** ** What dialing guarantees *)

(** The status code of an error. *)
Definition error_code (err : error) : option Z := Code <$> FromError (Some err).

Lemma dial_ws_checked e c url cfg σ d :
  d ∈ dial_ws e c url cfg σ →
  match d with
  | DialFailed err None => inl err ∈ ws_Dial e url (handshake_options cfg)
  | DialFailed err (Some cn') => ∃ cn r,
      inr cn ∈ ws_Dial e url (handshake_options cfg) ∧ ws_Subprotocol cn ≠ WSConn.Subprotocol ∧
      (cn', r) ∈ ws_Close "StatusProtocolError" "wsrpc: subprotocol not negotiated" cn ∧
      error_code err = Some codes.Unavailable
  | DialOk k => ∃ cn,
      inr cn ∈ ws_Dial e url (handshake_options cfg) ∧ ws_Subprotocol cn = WSConn.Subprotocol ∧
      world k = newMuxConfig c (ws_SetReadLimit (dc_readLimit cfg) cn) (dc_receiveBuffer cfg)
        (dc_initialWindow cfg) 0 None σ ∧
      threads k = mux_goroutines None ++ [startKeepalive (dc_keepalive cfg) (dc_keepaliveTimeout cfg)]
  end.
Proof.
  unfold dial_ws. intros ([err|cn] & Hd & Hin)%list_elem_of_bind.
  { apply list_elem_of_singleton in Hd as ->. done. }
  unfold start_mux, WSConn.verifySubprotocol in Hd.
  apply list_elem_of_fmap in Hd as ([cn' err] & -> & Hd). case_decide as Hs.
  - apply list_elem_of_fmap in Hd as ([cn1 r] & [= -> ->] & Hcl). by exists cn, r.
  - apply list_elem_of_singleton in Hd as [= -> ->]. exists cn. by split_and!.
Qed.

(** C23: opening a connection.  [Dial] fails with the error of the handshake, or with
    Unavailable after it has closed a connection whose server did not negotiate the
    subprotocol.  Otherwise the connection speaks it, has the configured read limit,
    and its mux is well-formed, with the first stream id, the configured window and
    no handler for streams of the peer; it ends when the context given to [Dial]
    does.  The controller runs exactly when [WithReconnect] was given, and then its
    backoff schedule is positive. *)
Theorem Dial_outcome c url opts σ r :
  r ∈ Dial c url opts σ →
  let cfg := dial_config opts in
  let dials x := x ∈ ws_Dial (ctx_Err σ c) url (handshake_options cfg) in
  match r with
  | inl err =>
      dials (inl err) ∨
      (∃ cn, dials (inr cn) ∧ ws_Subprotocol cn ≠ WSConn.Subprotocol ∧
         ws_Close "StatusProtocolError" "wsrpc: subprotocol not negotiated" cn ≠ [] ∧
         error_code err = Some codes.Unavailable)
  | inr o => ∃ cn, dials (inr cn) ∧ ws_Subprotocol cn = WSConn.Subprotocol ∧
      let w := world (op_mux o) in
      conn w = ws_SetReadLimit (dc_readLimit cfg) cn ∧ world_wf w ∧
      nextID (mux w) = 1 ∧ muxWindow (mux w) = dc_initialWindow cfg ∧ 0 < dc_initialWindow cfg ∧
      readLoop None ∈ threads (op_mux o) ∧
      (∀ σ', is_Some (ctx_Err σ' c) → is_Some (ctx_Err σ' (mctx (mux w)))) ∧
      (op_goroutines o = [reconnector_run] ↔ ∃ ros, WithReconnect ros ∈ opts) ∧
      (is_Some (op_reconn o) → 0 < initial (reconnect cfg) ∧ 0 < Options.max (reconnect cfg))
  end.
Proof.
  intros (d & -> & Hd)%list_elem_of_fmap cfg dials. apply dial_ws_checked in Hd.
  destruct d as [err [cn'|]|k].
  - destruct Hd as (cn & x & Hin & Hs & Hcl & He). right. exists cn. split_and!; try done.
    intros Hnil. by rewrite Hnil in Hcl; apply elem_of_nil in Hcl.
  - by left.
  - destruct Hd as (cn & Hin & Hs & Hw & Hth). exists cn. simpl. rewrite Hw, Hth.
    assert (muxWindow (mux (newMuxConfig c (ws_SetReadLimit (dc_readLimit cfg) cn)
      (dc_receiveBuffer cfg) (dc_initialWindow cfg) 0 None σ)) = dc_initialWindow cfg) as Hwin.
    { pose proof (dial_window_positive opts). simpl. destruct (Z.leb_spec (dc_initialWindow cfg) 0); [|done].
      unfold cfg in *. lia. }
    split_and!; try done.
    + apply newMuxConfig_wf.
    + apply dial_window_positive.
    + by left.
    + intros σ' (n & Hn & Hd)%ctx_Err_dead. apply ctx_Err_dead. exists n. split; [by right|done].
    + unfold op_goroutines. simpl. rewrite <-reconnect_enabled. unfold cfg. by destruct (enabled _).
    + intros Hsome. apply dial_reconnect_positive. unfold cfg in Hsome.
      destruct (enabled (reconnect (dial_config opts))); [done|by destruct Hsome].
Qed.

End dial.

(** ** DialConn *)
Section dial_conn.
Context {C : Type} `{!FrameConn C} `{!GrpcLib} {Interceptor HttpHeader : Type}.

(** No keepalive and no controller: there is nothing to dial again. *)
Definition DialConn (c : ctx) (cn : C) (opts : list (DialOption Interceptor HttpHeader)) (σ : CtxStore)
    : ClientConn * Config (World C) * list Interceptor :=
  let cfg := dial_config opts in
  (dialed σ,
   mkConfig (newMuxConfig c cn (dc_receiveBuffer cfg) (dc_initialWindow cfg) 0 None σ) (mux_goroutines None),
   interceptors cfg).

Definition newClientConn (c : ctx) (cn : C) (σ : CtxStore)
    : ClientConn * Config (World C) * list Interceptor := DialConn c cn [] σ.

End dial_conn.
