(* ===== verification/Net.v ===== *)
(** * Two endpoints and the pipe between them

    A client and a server that run over the two ends of an in-memory pipe, with all
    their goroutines.  The connection is a FIFO channel in each direction: what one
    read loop gets is what the goroutines of the other endpoint wrote, in the order
    of their writes, exactly once. *)

From S2P Require Import Prelude Goroutine Status Context Conn Strconv Stream World StreamOps MuxOps Endpoint Admission Alone Routing Lifecycle Options Server Client Dial.

(** ** What an endpoint does to its connection *)
Section traffic.
Context {C : Type} `{!FrameConn C, !FrameConnOk C} `{!GrpcLib}.
Abbreviation W := (World C).
Implicit Types (w : W) (p : nat).

(** Frames are appended to the outbox and taken from the head of the inbox, and the
    logs record them. *)
Definition traffic : relation W := λ w w', ∃ wr rd,
  wlog w' = wlog w ++ wr ∧ outbox (conn w') = outbox (conn w) ++ wr ∧
  rlog w' = rlog w ++ rd ∧ inbox (conn w) = rd ++ inbox (conn w').

#[export] Instance traffic_refl : Reflexive traffic.
Proof. intros w. exists [], []. by rewrite !app_nil_r. Qed.

Lemma quiet_traffic w w' :
  conn w' = conn w → wlog w' = wlog w → rlog w' = rlog w → traffic w w'.
Proof. intros Hc Hw Hr. exists [], []. by rewrite Hc, Hw, Hr, !app_nil_r. Qed.

(** A call of the connection that moves no frame. *)
Lemma idle_traffic w cn :
  outbox cn = outbox (conn w) → inbox cn = inbox (conn w) → traffic w (w <| conn := cn |>).
Proof. intros Ho Hi. exists [], []. simpl. by rewrite Ho, Hi, !app_nil_r. Qed.

Ltac solve_quiet :=
  intros ???; simpl; repeat case_match; intros; inv_elem; by apply quiet_traffic.

Lemma tr_locked_ctx {B} p (f : CtxStore → Stream → Stream * B) : all_acts traffic (locked_ctx p f).
Proof. solve_quiet. Qed.
Lemma tr_on_stream {B} p (f : Stream → Stream * B) : all_acts traffic (on_stream p f).
Proof. solve_quiet. Qed.
Lemma tr_once {B} p (f : Stream → Stream * B) : all_acts traffic (once p f).
Proof. solve_quiet. Qed.
Lemma tr_read {B} (f : W → B) : all_acts traffic (read f).
Proof. solve_quiet. Qed.
Lemma tr_ctx_cancel c : all_acts traffic (ctx_cancel c).
Proof. solve_quiet. Qed.
Lemma tr_stat ev : all_acts traffic (stat ev).
Proof. solve_quiet. Qed.
Lemma tr_set_mux f : all_acts traffic (modify (set_mux f : W → W)).
Proof. solve_quiet. Qed.
Lemma tr_writeCtrl f : all_acts traffic (writeCtrl f).
Proof. intros w w' b Hin. inv_elem. by apply quiet_traffic; simpl; try case_match. Qed.
Lemma tr_lookup_stream id : all_acts traffic (lookup_stream id).
Proof. solve_quiet. Qed.
Lemma tr_register id p : all_acts traffic (register id p).
Proof. solve_quiet. Qed.
Lemma tr_remove id : all_acts traffic (remove id).
Proof. solve_quiet. Qed.
Lemma tr_mux_write c f : all_acts traffic (mux_write c f).
Proof.
  split; [solve_quiet|intros _; split; [|intros r; split; [apply tr_set_mux|done]]].
  intros w w' b ([cn r] & ? & Hin)%list_elem_of_fmap. simplify_eq. destruct r as [e|].
  - apply write_frame_err in Hin as [Ho Hi]. exists [], []. simpl. by rewrite Ho, Hi, !app_nil_r.
  - apply write_frame_ok in Hin as [Ho Hi]. exists [f], []. simpl. by rewrite Ho, Hi, app_nil_r.
Qed.

Lemma tr_read_frame : all_acts traffic read_frame.
Proof.
  intros w w' b ([cn r] & ? & Hin)%list_elem_of_fmap. simplify_eq. destruct r as [e|f].
  - apply read_frame_err in Hin as [Hi Ho]. exists [], []. simpl. by rewrite Ho, Hi, !app_nil_r.
  - apply read_frame_ok in Hin as [Hi Ho]. exists [], [f]. simpl. by rewrite Ho, Hi, !app_nil_r.
Qed.

Create HintDb traffic.
#[local] Hint Resolve tr_locked_ctx tr_on_stream tr_once tr_read tr_ctx_cancel tr_stat tr_set_mux
  tr_writeCtrl tr_lookup_stream tr_register tr_remove tr_mux_write tr_read_frame : traffic.

Ltac solve_traffic :=
  repeat lazymatch goal with
  | |- all_acts _ (Ret _) => exact I
  | |- all_acts _ (Bind _ _) => split
  | |- all_acts _ (Iter _ _) => intros ?
  | |- all_acts _ (match ?x with _ => _ end) => destruct x
  | |- ∀ _, all_acts _ _ => intros ?
  | |- all_acts _ (locked _ _) => apply tr_locked_ctx
  | |- all_acts _ (locked_ _ _) => apply tr_locked_ctx
  | |- all_acts _ (on_stream_ _ _) => apply tr_on_stream
  | |- all_acts _ (get_stream _) => apply tr_on_stream
  | |- all_acts _ _ => first [solve [auto with traffic] | solve [solve_quiet]]
  end.

Lemma tr_SendRaw p b : all_acts traffic (SendRaw p b).
Proof. unfold SendRaw, send_wait, send_head, cond_wait. solve_traffic. Qed.
Lemma tr_deliverPayload p f : all_acts traffic (deliverPayload p f).
Proof. unfold deliverPayload, returnCredit. solve_traffic. Qed.
#[local] Hint Resolve tr_deliverPayload : traffic.
Lemma tr_recvEnded p : all_acts traffic (recvEnded p).
Proof. unfold recvEnded, applyEnd, status. solve_traffic. Qed.
Lemma tr_recv_select c p : all_acts traffic (recv_select c p).
Proof.
  intros w w' b. case_match; [|intros; by inv_elem].
  intros ([] & ? & _)%list_elem_of_fmap; simplify_eq; by apply quiet_traffic.
Qed.
#[local] Hint Resolve tr_recvEnded tr_recv_select : traffic.
Lemma tr_RecvRawContext c p : all_acts traffic (RecvRawContext c p).
Proof. unfold RecvRawContext, recv_case, pop_or, ctx_err_of. solve_traffic. Qed.
Lemma tr_failWith p err : all_acts traffic (failWith p err).
Proof. unfold failWith. solve_traffic. Qed.
#[local] Hint Resolve tr_failWith : traffic.
Lemma tr_ctrlWriter : all_acts traffic ctrlWriter.
Proof.
  unfold ctrlWriter. solve_traffic. intros w w' b. simpl. rewrite elem_of_app, elem_of_branch.
  intros [[_ ?]|Hin]; [by simplify_eq|]. case_match; inv_elem. by apply quiet_traffic.
Qed.
Lemma tr_keepalive_loop d : all_acts traffic (keepalive_loop d).
Proof.
  unfold keepalive_loop. solve_traffic.
  - intros w w' b. simpl. rewrite elem_of_app, elem_of_branch, list_elem_of_singleton.
    intros [[_ ?]|?]; by simplify_eq.
  - intros w w' b ([cn r] & ? & [Ho Hi]%ping_frames)%list_elem_of_fmap. simplify_eq.
    by apply idle_traffic.
Qed.
Lemma tr_Close : all_acts traffic MuxOps.Close.
Proof.
  unfold MuxOps.Close. solve_traffic.
  intros w w' b ([cn r] & ? & [Ho Hi]%close_frames)%list_elem_of_fmap. simplify_eq.
  by apply idle_traffic.
Qed.
Lemma tr_newClientStream c dl m h : all_acts traffic (newClientStream c dl m h).
Proof. unfold newClientStream, alloc_id, alloc. solve_traffic. Qed.
Lemma tr_failAll err : all_acts traffic (failAll err).
Proof.
  unfold failAll. split.
  { intros w w' b Hin. case_match; [by inv_elem|]. apply list_elem_of_fmap in Hin as (l & ? & _).
    simplify_eq. by apply idle_traffic. }
  solve_traffic. match goal with |- all_acts _ (for_each ?l _) => induction l as [|[id p] l IH]; [done|] end.
  split; [|done]. solve_traffic.
Qed.
Lemma tr_route onOpen f :
  (∀ h p, onOpen = Some h → all_acts traffic (h p)) → all_acts traffic (route onOpen f).
Proof.
  intros Hh. unfold route, route_open, route_msg, tryDeliver, creditSend, signalEnd, setLeadingHeader,
    open_stream, alloc.
  destruct onOpen as [h|]; [specialize (Hh h)|]; destruct (FKind f); solve_traffic; auto.
Qed.

Lemma tr_runtime {A} (p : Prog W A) : runtime p → all_acts traffic p.
Proof.
  induction 1; try (unfold Header, Trailer, SendHeader, SetTrailer, takeTrailer, CloseSend, end_;
    solve_traffic; fail);
    auto using tr_SendRaw, tr_RecvRawContext, tr_ctrlWriter, tr_keepalive_loop, tr_Close,
      tr_newClientStream, tr_failAll, tr_route.
Qed.

(** A server whose handlers only call the runtime. *)
Definition handlers_call (r : Role) (P : bytes → Prop) (srv : Server (C:=C)) : Prop :=
  ∀ m h c p, lookup_handler srv m = Some h → calls r P (chain h (middleware (cfg srv)) c p).
Definition handlers_runtime : Server (C:=C) → Prop := handlers_call InRuntime any_payload.

Lemma handlers_mono r r' (P P' : bytes → Prop) srv :
  role_le r r' → (∀ b, P b → P' b) → handlers_call r P srv → handlers_call r' P' srv.
Proof. intros Hr HP Hh m h c p Hm. by eapply calls_mono, Hh. Qed.

Lemma calls_serveStream r P srv p : handlers_call r P srv → calls r P (serveStream srv p).
Proof.
  intros Hh. unfold serveStream, serve_handler.
  repeat first [apply rt_get_stream | apply rt_stat | apply rt_takeTrailer | apply rt_end
    | apply rt_ctx_cancel | apply rt_remove | apply rt_Ret | by eapply Hh | apply rt_Bind; [|intros ?]
    | case_match].
Qed.

Lemma tr_ServeConn srv c cn σ :
  handlers_runtime srv → Forall (all_acts traffic) (threads (ServeConn srv c cn σ)).
Proof.
  intros Hh. constructor; [|constructor; [|constructor; [|constructor]]].
  - apply tr_runtime, runtime_readLoop. intros h p [= <-]. by apply rt_Go, calls_serveStream.
  - by apply tr_runtime, rt_ctrlWriter.
  - split; [solve_quiet|intros _; apply tr_stat].
Qed.

End traffic.

(** ** The abstract channel *)

(** A FIFO channel: what was put in and what was taken out. *)
Record Fifo := mkFifo { put : list Frame; taken : list Frame }.

Inductive fifo_step : Fifo → Fifo → Prop :=
| fifo_put l r f : fifo_step (mkFifo l r) (mkFifo (l ++ [f]) r)
| fifo_take l r f rest : l = r ++ f :: rest → fifo_step (mkFifo l r) (mkFifo l (r ++ [f])).

(** A channel in each direction. *)
Inductive duplex_step : Fifo * Fifo → Fifo * Fifo → Prop :=
| duplex_l a a' b : fifo_step a a' → duplex_step (a, b) (a', b)
| duplex_r a b b' : fifo_step b b' → duplex_step (a, b) (a, b').

Lemma fifo_puts l r fs : rtc fifo_step (mkFifo l r) (mkFifo (l ++ fs) r).
Proof.
  revert l. induction fs as [|f fs IH]; intros l; [by rewrite app_nil_r|].
  eapply rtc_l; [apply (fifo_put l r f)|].
  replace (l ++ f :: fs) with ((l ++ [f]) ++ fs) by by rewrite <-app_assoc. apply IH.
Qed.

Lemma fifo_takes l r fs rest : l = r ++ fs ++ rest → rtc fifo_step (mkFifo l r) (mkFifo l (r ++ fs)).
Proof.
  revert r. induction fs as [|f fs IH]; intros r Hl; [by rewrite app_nil_r|].
  eapply rtc_l; [by apply (fifo_take l r f (fs ++ rest))|].
  replace (r ++ f :: fs) with ((r ++ [f]) ++ fs) by by rewrite <-app_assoc.
  apply IH. by rewrite Hl, <-!app_assoc.
Qed.

Lemma duplex_rtc a a' b b' :
  rtc fifo_step a a' → rtc fifo_step b b' → rtc duplex_step (a, b) (a', b').
Proof.
  intros Ha Hb. trans (a', b).
  - induction Ha; [done|]. eapply rtc_l; [|done]. by constructor.
  - induction Hb; [done|]. eapply rtc_l; [|done]. by constructor.
Qed.

(** ** The network *)
Import Pipe.

Section net.
Context `{!GrpcLib}.
Abbreviation W := (World pipeConn).

Record Net := mkNet { client : Config W; server : Config W }.

(** The endpoint [k], after the other end of its pipe became [cn]. *)
Definition sees (cn : pipeConn) (k : Config W) : Config W :=
  mkConfig ((world k) <| conn := peer cn |>) (threads k).

(** Contexts end and are created, and timers fire. *)
Definition time_passes (k k' : Config W) : Prop :=
  ∃ σ, ctx_le (ctxs (world k)) σ ∧ k' = mkConfig ((world k) <| ctxs := σ |>) (threads k).

Inductive net_step (n : Net) : Net → Prop :=
| net_client k : pool_step (client n) k → net_step n (mkNet k (sees (conn (world k)) (server n)))
| net_server k : pool_step (server n) k → net_step n (mkNet (sees (conn (world k)) (client n)) k)
| net_client_time k : time_passes (client n) k → net_step n (mkNet k (server n))
| net_server_time k : time_passes (server n) k → net_step n (mkNet (client n) k).

(** The channels of a network: from the client and from the server. *)
Definition channels (n : Net) : Fifo * Fifo :=
  (mkFifo (wlog (world (client n))) (rlog (world (server n))),
   mkFifo (wlog (world (server n))) (rlog (world (client n)))).

Record net_inv (n : Net) : Prop := mk_net_inv {
  ni_pipe : conn (world (server n)) = peer (conn (world (client n)));
  ni_out : wlog (world (client n)) = rlog (world (server n)) ++ pout (conn (world (client n)));
  ni_in : wlog (world (server n)) = rlog (world (client n)) ++ pin (conn (world (client n)));
  ni_client : Forall (all_acts traffic) (threads (client n));
  ni_server : Forall (all_acts traffic) (threads (server n))
}.

(** One step of the network is some steps of the channels. *)
Lemma net_step_refines n n' :
  net_step n n' → net_inv n → net_inv n' ∧ rtc duplex_step (channels n) (channels n').
Proof.
  intros Hs [Hp Ho Hi Hc Hsv]. destruct Hs as [k Hk|k Hk|k (σ & _ & ->)|k (σ & _ & ->)].
  - destruct (all_acts_pool traffic _ _ Hc Hk) as ((wr & rd & Hw & Hout & Hr & Hin) & Hth).
    simpl in Hout, Hin. split.
    + split; simpl; try done; [by rewrite Hw, Ho, Hout, <-app_assoc|].
      by rewrite Hr, Hi, Hin, <-app_assoc.
    + apply duplex_rtc; simpl; rewrite ?Hw, ?Hr; [apply fifo_puts|].
      eapply fifo_takes. by rewrite Hi, Hin.
  - destruct (all_acts_pool traffic _ _ Hsv Hk) as ((wr & rd & Hw & Hout & Hr & Hin) & Hth).
    rewrite Hp in Hout, Hin. simpl in Hout, Hin. split.
    + split; simpl; try done; [by destruct (conn (world k))|by rewrite Hr, Ho, Hin, <-app_assoc|].
      by rewrite Hw, Hi, Hout, <-app_assoc.
    + apply duplex_rtc; simpl; rewrite ?Hw, ?Hr; [|apply fifo_puts].
      eapply fifo_takes. by rewrite Ho, Hin.
  - split; [by split|done].
  - split; [by split|done].
Qed.

(** A client over one end of a pipe and a server over the other. *)
Definition connected {I HH} (opts : list (DialOption I HH)) (ts : list (Prog W unit)) (srv : Server)
    (cc cs : ctx) (σc σs : CtxStore) : Net :=
  let k := (DialConn cc newPipe.1 opts σc).1.2 in
  mkNet (mkConfig (world k) (threads k ++ ts)) (ServeConn srv cs newPipe.2 σs).

Lemma net_inv_connected {I HH} (opts : list (DialOption I HH)) ts srv cc cs σc σs :
  Forall runtime ts → handlers_runtime srv → net_inv (connected opts ts srv cc cs σc σs).
Proof.
  intros Hts Hh. split; try done; [|by apply tr_ServeConn]. constructor; [|constructor; [|]].
  - apply tr_runtime, runtime_readLoop. by intros.
  - by apply tr_runtime, rt_ctrlWriter.
  - eapply Forall_impl; [exact Hts|]. intros t. apply tr_runtime.
Qed.

(** C6: the composed system refines a pair of FIFO channels.  A client with any number
    of goroutines that call the runtime, and a server with any handlers that do, run
    over the two ends of a pipe; in every interleaving of all their goroutines, the
    frames written by one endpoint and those read by the other are the history of
    a FIFO channel.  So a read loop gets a prefix of what the other side wrote, and
    the rest is in the pipe. *)
Theorem net_refines_fifo {I HH} (opts : list (DialOption I HH)) ts srv cc cs σc σs n :
  Forall runtime ts → handlers_runtime srv →
  rtc net_step (connected opts ts srv cc cs σc σs) n →
  rtc duplex_step (mkFifo [] [], mkFifo [] []) (channels n) ∧
  wlog (world (client n)) = rlog (world (server n)) ++ pout (conn (world (client n))) ∧
  wlog (world (server n)) = rlog (world (client n)) ++ pin (conn (world (client n))).
Proof.
  intros Hts Hh Hrun.
  pose proof (net_inv_connected opts ts srv cc cs σc σs Hts Hh) as Hinv.
  assert (∀ m m', rtc net_step m m' → net_inv m →
    net_inv m' ∧ rtc duplex_step (channels m) (channels m')) as Hall.
  { induction 1 as [|m1 m2 m3 H12 _ IH]; intros Hm; [done|].
    destruct (net_step_refines _ _ H12 Hm) as [Hm2 Hd]. destruct (IH Hm2) as [Hm3 Hd'].
    split; [done|by etrans]. }
  destruct (Hall _ _ Hrun Hinv) as [[]]. done.
Qed.

(** ** Running a network

    One goroutine takes its first possible step, when it has one. *)
Definition try_tick (side : bool) (i : nat) (n : Net) : option Net :=
  let k := if side then client n else server n in
  match threads k !! i with
  | None => None
  | Some p =>
      match pstep p (world k) with
      | [] => None
      | (w', p', ts) :: _ =>
          let k' := mkConfig w' (<[i:=p']> (threads k) ++ ts) in
          Some (if side then mkNet k' (sees (conn w') (server n)) else mkNet (sees (conn w') (client n)) k')
      end
  end.

Definition tick (side : bool) (i : nat) (n : Net) : Net := default n (try_tick side i n).

Definition net_run (l : list (bool * nat)) (n : Net) : Net := foldl (λ n x, tick x.1 x.2 n) n l.

Lemma try_tick_step side i n n' : try_tick side i n = Some n' → net_step n n'.
Proof.
  unfold try_tick. destruct (threads _ !! i) as [p|] eqn:Hp; [|done].
  destruct (pstep p _) as [|[[w' p'] ts] l] eqn:Hs; [done|]. intros [= <-]. destruct side.
  - apply (net_client n (mkConfig w' _)), (pool_step_thread (client n) i p); [done|]. rewrite Hs. left.
  - apply (net_server n (mkConfig w' _)), (pool_step_thread (server n) i p); [done|]. rewrite Hs. left.
Qed.

Lemma net_run_rtc l n : rtc net_step n (net_run l n).
Proof.
  unfold net_run. revert n. induction l as [|x l IH]; intros n; simpl; [done|].
  etrans; [|apply IH]. unfold tick. destruct (try_tick x.1 x.2 n) eqn:E; simpl; [|done].
  by eapply rtc_once, try_tick_step.
Qed.

End net.
