(* ===== verification/Delivery.v ===== *)
(** * Messages arrive complete and in order

    What the read loop of an endpoint delivers to a stream, and what receivers take
    from it, compared with the frames the peer wrote, in every interleaving of
    all goroutines of both endpoints.  [Inv] is the invariant of one endpoint:
    its world, the messages taken from each stream so far ([h], a history
    variable) and what its goroutines hold (Ledger.v). *)

From S2P Require Import Prelude Goroutine Track Status Context Conn Strconv Stream World StreamOps MuxOps Endpoint Alone Ledger.

(** The messages for stream [id] among frames. *)
Definition msgs (id : Z) (l : list Frame) : list Frame :=
  filter (λ f, data f = true ∧ StreamId f = id) l.

Lemma msgs_app id l k : msgs id (l ++ k) = msgs id l ++ msgs id k.
Proof. apply filter_app. Qed.

Lemma msgs_one id f : msgs id [f] = if decide (data f = true ∧ StreamId f = id) then [f] else [].
Proof. unfold msgs. rewrite filter_cons, filter_nil. done. Qed.

Lemma msgs_not_data id f : data f = false → msgs id [f] = [].
Proof. intros Hf. rewrite msgs_one, decide_False; [done|]. by rewrite Hf; intros []. Qed.

Section delivery.
Context {C : Type} `{!FrameConn C} `{!GrpcLib} (role : Role) (P : bytes → Prop).
Abbreviation W := (World C).
Implicit Types (w : W) (p : nat) (ls : list Local) (h : nat → list Frame) (ph : Phase).

(** The backlog of the stream at [p], and the messages a step takes from it. *)
Definition items w p : list Frame := match heap w !! p with Some s => recvItems s | None => [] end.

Definition taken w w' p : list Frame :=
  take (length (items w p) - length (items w' p)) (items w p).

(** The history after a step. *)
Definition record w w' h : nat → list Frame := λ p, h p ++ taken w w' p.

(** Everything that was ever delivered to the stream at [p]. *)
Definition delivered w h p : list Frame := h p ++ items w p.

(** It is registered under its id. *)
Definition registered w p (id : Z) : Prop := streams (mux w) !! id = Some p.

#[export] Instance registered_dec w p id : Decision (registered w p id).
Proof. unfold registered. apply _. Defined.

(** The stream at [p] misses no message so far: it can still be delivered to. *)
Definition receiving w ph p (s : Stream) : Prop :=
  (registered w p (sid s) ∨ (∃ f, ph = Deliver f p) ∨ (∃ f, ph = Closing f p)) ∧
  ctx_Err (ctxs w) (sctx s) = None ∧ (∀ f, ph ≠ Refusing f p).

(** The message the loop holds for it. *)
Definition pend w ph p (id : Z) : list Frame :=
  match ph with
  | Routing f => if decide (registered w p id) then msgs id [f] else []
  | Deliver f q => if decide (q = p) then [f] else []
  | _ => []
  end.

(** Nothing can be delivered to it any more. *)
Definition shut w ph p (s : Stream) : Prop := ¬ registered w p (sid s) ∧ ∀ f, ph ≠ Deliver f p.

Definition holds ph p : Prop :=
  ∃ f, ph = Deliver f p ∨ ph = Refusing f p ∨ ph = Closing f p.

(** [l1] is what was read before the stream was opened: at a server it ends with the
    OPEN frame, at a client it has no message for the stream. *)
Definition starts (s : Stream) (l1 : list Frame) : Prop :=
  (role = InHandler → ∃ l0 o, l1 = l0 ++ [o] ∧ FKind o = KIND_OPEN ∧ StreamId o = sid s ∧
     FMethod o = method s) ∧
  (role ≠ InHandler → msgs (sid s) l1 = []).

Definition phase_ok w ph : Prop :=
  match ph with
  | Waiting | Crediting _ _ => True
  | Routing f => last (rlog w) = Some f
  | Deliver f p => data f = true ∧ ∃ s, heap w !! p = Some s ∧ sid s = StreamId f
  | Refusing f p => ∃ s, heap w !! p = Some s ∧ sid s = StreamId f
  | Opened f p =>
      last (rlog w) = Some f ∧ FKind f = KIND_OPEN ∧ role = InHandler ∧
      ∃ s, heap w !! p = Some s ∧ sid s = StreamId f ∧ method s = FMethod f
  | Closing f p =>
      ending f = true ∧ last (rlog w) = Some f ∧ ∃ s, heap w !! p = Some s ∧ sid s = StreamId f
  end.

(** How many goroutines are about to register the stream at [p]. *)
Definition opens p (l : Local) : Z :=
  match l with
  | Fresh q _ | Loop (Opened _ q) => if decide (q = p) then 1 else 0
  | _ => 0
  end.

(** The loop is ending the stream at [p]. *)
Definition ends ph p : Prop := ∃ g, ph = Closing g p ∧ terminal g = true.

Record Inv w h ph ls : Prop := mk_Inv {
  iv_loop : ls !! 0%nat = Some (Loop ph);
  iv_one i ph' : ls !! i = Some (Loop ph') → i = 0%nat;
  iv_phase : phase_ok w ph;
  iv_reg id p : streams (mux w) !! id = Some p → ∃ s, heap w !! p = Some s ∧ sid s = id;
  iv_fresh p id : Fresh p id ∈ ls → role ≠ InHandler ∧ ∃ s, heap w !! p = Some s ∧ sid s = id;
  iv_unborn p : 0 < sum_by (opens p) ls →
    ∃ s, heap w !! p = Some s ∧ delivered w h p = [] ∧ ¬ registered w p (sid s) ∧ ¬ holds ph p ∧
      endFrame s = None;
  iv_once p : sum_by (opens p) ls ≤ 1;
  iv_hist p : (length (heap w) ≤ p)%nat → h p = [];
  (* what was delivered, in the order of the frames read *)
  iv_run p s : heap w !! p = Some s →
    ∃ l1 l2 post, rlog w = l1 ++ l2 ∧ starts s l1 ∧ msgs (sid s) l2 = delivered w h p ++ post ∧
      (receiving w ph p s → post = pend w ph p (sid s));
  (* a stream whose terminal frame is recorded got everything before it *)
  iv_end p s f : heap w !! p = Some s → endFrame s = Some f → ctx_Err (ctxs w) (sctx s) = None →
    (ends ph p ∨ shut w ph p s) ∧
    ∃ l1 l2 l3, rlog w = l1 ++ l2 ++ f :: l3 ∧ starts s l1 ∧ delivered w h p = msgs (sid s) l2
}.

(** ** Steps *)

(** The part of the streams the invariant depends on, besides the backlogs. *)
Definition same_streams w w' : Prop :=
  length (heap w') = length (heap w) ∧
  ∀ p s s', heap w !! p = Some s → heap w' !! p = Some s' →
    sid s' = sid s ∧ method s' = method s ∧ sctx s' = sctx s ∧ endFrame s' = endFrame s.

Lemma same_streams_l w w' p s :
  same_streams w w' → heap w !! p = Some s →
  ∃ s', heap w' !! p = Some s' ∧ sid s' = sid s ∧ method s' = method s ∧ sctx s' = sctx s ∧ endFrame s' = endFrame s.
Proof.
  intros [Hl Hs] Hp. pose proof (lookup_lt_Some _ _ _ Hp) as Hlt. rewrite <-Hl in Hlt.
  apply lookup_lt_is_Some in Hlt as [s' Hp']. exists s'. split; [done|]. by eapply Hs.
Qed.

Lemma same_streams_r w w' p s' :
  same_streams w w' → heap w' !! p = Some s' →
  ∃ s, heap w !! p = Some s ∧ sid s' = sid s ∧ method s' = method s ∧ sctx s' = sctx s ∧ endFrame s' = endFrame s.
Proof.
  intros [Hl Hs] Hp. pose proof (lookup_lt_Some _ _ _ Hp) as Hlt. rewrite Hl in Hlt.
  apply lookup_lt_is_Some in Hlt as [s Hp']. exists s. split; [done|]. by eapply Hs.
Qed.

Lemma same_streams_sid w w' p id :
  same_streams w w' → (∃ s, heap w !! p = Some s ∧ sid s = id) →
  ∃ s, heap w' !! p = Some s ∧ sid s = id.
Proof.
  intros Hs (s & Hp & <-). destruct (same_streams_l _ _ _ _ Hs Hp) as (s' & ? & ? & _). by exists s'.
Qed.

Lemma phase_ok_mono w w' ph :
  rlog w' = rlog w →
  (∀ p s, heap w !! p = Some s → ∃ s', heap w' !! p = Some s' ∧ sid s' = sid s ∧ method s' = method s) →
  phase_ok w ph → phase_ok w' ph.
Proof.
  intros Hr Hs.
  assert (∀ p id, (∃ s, heap w !! p = Some s ∧ sid s = id) → ∃ s, heap w' !! p = Some s ∧ sid s = id) as Hid.
  { intros p id (s & Hp & <-). destruct (Hs p s Hp) as (s' & ? & ? & _). by exists s'. }
  destruct ph; simpl; rewrite ?Hr; try done; [|apply Hid| |].
  - intros [? Hx]. split; [done|by apply Hid].
  - intros (? & ? & Hx). split_and!; [done..|by apply Hid].
  - intros (? & ? & ? & s & Hp & Hi & Hm). destruct (Hs p s Hp) as (s' & ? & ? & ?).
    split_and!; [done..|]. exists s'. split_and!; congruence.
Qed.

Lemma starts_same s s' l : sid s' = sid s → method s' = method s → starts s l → starts s' l.
Proof. unfold starts. by intros -> ->. Qed.

(** A step that delivers nothing and reads nothing: the loop goes from [ph] to
    [ph'], which keeps every stream that misses nothing so. *)
Lemma inv_steady w h ph ls w' ph' ls' :
  Inv w h ph ls → keeps w w' → rlog w' = rlog w → same_streams w w' →
  (∀ p, delivered w' (record w w' h) p = delivered w h p) →
  ls' !! 0%nat = Some (Loop ph') → (∀ i ph', ls' !! i = Some (Loop ph') → i = 0%nat) →
  phase_ok w' ph' → (∀ p id, Fresh p id ∈ ls' → Fresh p id ∈ ls) →
  (∀ p, sum_by (opens p) ls' ≤ sum_by (opens p) ls) →
  (∀ p s, heap w !! p = Some s → ¬ holds ph p → ¬ registered w p (sid s) → ¬ holds ph' p) →
  (∀ p s, heap w !! p = Some s → ctx_Err (ctxs w) (sctx s) = None →
     receiving w' ph' p s → receiving w ph p s ∧ pend w' ph' p (sid s) = pend w ph p (sid s)) →
  (∀ p s, heap w !! p = Some s → ends ph p ∨ shut w ph p s →
     ends ph' p ∨ shut w' ph' p s) →
  Inv w' (record w w' h) ph' ls'.
Proof.
  intros [] [Hσ _ Hreg _] Hr Hs HD Hl Ho Hph Hf Hn Hh Hrec Hsh.
  assert (∀ p s s', sid s' = sid s → registered w' p (sid s') → registered w p (sid s)) as Hregd.
  { unfold registered. intros p s s' -> Hx. by eapply lookup_weaken. }
  split; try done.
  - intros id p Hid. destruct (iv_reg0 id p) as (s & Hp & <-); [by eapply lookup_weaken|].
    destruct (same_streams_l _ _ _ _ Hs Hp) as (s' & ? & ? & _). by exists s'.
  - intros p id Hp. destruct (iv_fresh0 p id) as (? & Hx); [by apply Hf|].
    split; [done|]. by eapply same_streams_sid.
  - intros p Hp. destruct (iv_unborn0 p) as (s & Hp' & HD' & ? & ? & He); [specialize (Hn p); lia|].
    destruct (same_streams_l _ _ _ _ Hs Hp') as (s' & ? & Hid & _ & _ & He'). exists s'.
    rewrite HD, He'. split_and!; [done..| |by eapply Hh|done]. intros Hx. by eapply Hregd in Hx.
  - intros p. specialize (Hn p). specialize (iv_once0 p). lia.
  - intros p Hp. destruct Hs as [Hlen _]. rewrite Hlen in Hp. unfold record, taken, items.
    by rewrite (lookup_ge_None_2 (heap w) p), take_nil, (iv_hist0 p) by done.
  - intros p s' Hp. destruct (same_streams_r _ _ _ _ Hs Hp) as (s & Hp' & Hid & Hmt & Hc & _).
    destruct (iv_run0 p s Hp') as (l1 & l2 & post & Hl12 & Hst & Hm & Hpost).
    exists l1, l2, post. rewrite Hr, HD, Hid. split_and!; [done|by eapply starts_same|done|].
    assert (receiving w' ph' p s' → receiving w' ph' p s) as Hx.
    { intros (? & ? & ?). unfold receiving, registered in *. by rewrite <-Hid, <-Hc. }
    intros Hrc. assert (ctx_Err (ctxs w) (sctx s) = None).
    { destruct Hrc as (_ & Ha & _). rewrite Hc in Ha. apply eq_None_not_Some.
      intros Hx'. apply (ctx_Err_mono _ _ _ Hσ) in Hx'. rewrite Ha in Hx'. by destruct Hx'. }
    destruct (Hrec p s Hp') as [? ->]; auto.
  - intros p s' f Hp He Ha. destruct (same_streams_r _ _ _ _ Hs Hp) as (s & Hp' & Hid & Hmt & Hc & He').
    rewrite He' in He. rewrite Hc in Ha. assert (ctx_Err (ctxs w) (sctx s) = None) as Ha'.
    { apply eq_None_not_Some. intros Hx'. apply (ctx_Err_mono _ _ _ Hσ) in Hx'.
      rewrite Ha in Hx'. by destruct Hx'. }
    destruct (iv_end0 p s f Hp' He Ha') as [Hcl (l1 & l2 & l3 & ? & ? & ?)]. rewrite HD, Hid, Hr. split.
    + destruct (Hsh p s Hp' Hcl) as [?|?]; [by left|right]. unfold shut, registered in *. by rewrite Hid.
    + exists l1, l2, l3. split_and!; [done|by eapply starts_same|done].
Qed.

(** ** The history *)

Lemma delivered_same w w' h p :
  items w' p = items w p → delivered w' (record w w' h) p = delivered w h p.
Proof.
  intros Hi. unfold delivered, record, taken. by rewrite Hi, Nat.sub_diag, take_0, app_nil_r.
Qed.

Lemma delivered_pop w w' h p f :
  items w p = f :: items w' p → delivered w' (record w w' h) p = delivered w h p.
Proof.
  intros Hi. unfold delivered, record, taken. rewrite Hi. simpl.
  replace (S (length (items w' p)) - length (items w' p))%nat with 1%nat by lia.
  simpl. by rewrite take_0, <-app_assoc.
Qed.

Lemma delivered_push w w' h p f :
  items w' p = items w p ++ [f] →
  delivered w' (record w w' h) p = delivered w h p ++ [f].
Proof.
  intros Hi. unfold delivered, record, taken. rewrite Hi, length_app.
  replace (length (items w p) - _)%nat with 0%nat by (simpl; lia).
  by rewrite take_0, app_nil_r, app_assoc.
Qed.

Lemma items_set_stream p s w q :
  is_Some (heap w !! p) → items (set_stream p s w) q = if decide (q = p) then recvItems s else items w q.
Proof.
  intros Hp. unfold items. simpl. destruct (decide (q = p)) as [->|].
  - by rewrite list_lookup_insert_eq by by apply lookup_lt_is_Some.
  - by rewrite list_lookup_insert_ne.
Qed.

Lemma same_streams_set p s s' w :
  heap w !! p = Some s → sid s' = sid s → method s' = method s → sctx s' = sctx s → endFrame s' = endFrame s →
  same_streams w (set_stream p s' w).
Proof.
  intros Hp ????. split; [apply length_insert|]. intros q t t' Ht Ht'. simpl in Ht'.
  destruct (decide (p = q)) as [->|].
  - apply list_lookup_insert_Some in Ht' as [(_ & -> & _)|[? _]]; by simplify_eq.
  - rewrite list_lookup_insert_ne in Ht' by done. by simplify_eq.
Qed.

Lemma same_streams_heap w w' : heap w' = heap w → same_streams w w'.
Proof. intros Hh. split; rewrite Hh; [done|]. intros. by simplify_eq. Qed.

(** A quiet step, or one that only writes a frame, delivers nothing. *)
Lemma quiet_same w w' h :
  Forall2 flow_eq (heap w) (heap w') →
  same_streams w w' ∧ ∀ p, delivered w' (record w w' h) p = delivered w h p.
Proof.
  intros HF. split.
  - split; [by rewrite (Forall2_length _ _ _ HF)|]. intros p s s' Hp Hp'.
    destruct (Forall2_lookup_lr _ _ _ _ _ _ HF Hp Hp'). done.
  - intros p. apply delivered_same. unfold items. destruct (heap w !! p) as [s|] eqn:Hp.
    + destruct (Forall2_lookup_l _ _ _ _ _ HF Hp) as (s' & -> & []). done.
    + destruct (heap w' !! p) as [s'|] eqn:Hp'; [|done].
      destruct (Forall2_lookup_r _ _ _ _ _ HF Hp') as (? & ? & _). congruence.
Qed.

Lemma heap_flow w w' : heap w' = heap w → Forall2 flow_eq (heap w) (heap w').
Proof. by intros ->. Qed.

(** ** The local states after a step *)

Definition phase_of (l : Local) ph : Phase := match l with Loop ph' => ph' | _ => ph end.

Definition is_loop (l : Local) : bool := match l with Loop _ => true | _ => false end.

Lemma ledger_loop l w w' l' : ledger role P l w w' l' → is_loop l' = is_loop l.
Proof. by destruct 1; repeat case_match. Qed.

Lemma locals_step w h ph ls i l l' k :
  Inv w h ph ls → ls !! i = Some l → is_loop l' = is_loop l →
  let ls' := <[i:=l']> ls ++ replicate k Idle in
  ls' !! 0%nat = Some (Loop (phase_of l' ph)) ∧ (∀ j ph', ls' !! j = Some (Loop ph') → j = 0%nat) ∧
  (is_loop l = true → l = Loop ph).
Proof.
  intros [] Hi Hl ls'. pose proof (lookup_lt_Some _ _ _ Hi) as Hlt.
  assert (is_loop l = true → i = 0%nat) as Hi0 by (destruct l; try done; intros; by eapply iv_one0).
  split_and!.
  - unfold ls'. rewrite lookup_app_l by (rewrite length_insert; lia).
    destruct (decide (i = 0%nat)) as [->|Hne].
    + rewrite list_lookup_insert_eq by done. rewrite Hi in iv_loop0. simplify_eq/=. by destruct l'.
    + rewrite list_lookup_insert_ne by done. destruct l'; try done. simpl in Hl. by rewrite Hi0 in Hne.
  - intros j ph' [Hj|[_ Hj]]%lookup_app_Some; [|by apply lookup_replicate in Hj as [? _]].
    apply list_lookup_insert_Some in Hj as [(-> & Hx & _)|[_ Hj]]; [|by eapply iv_one0].
    subst l'. by apply Hi0.
  - intros Ht. rewrite Hi0 in Hi by done. congruence.
Qed.

(** [inv_steady] for a step of one goroutine. *)
Lemma inv_local w h ph ls i l l' k w' :
  Inv w h ph ls → ls !! i = Some l → is_loop l' = is_loop l →
  let ph' := phase_of l' ph in
  keeps w w' → rlog w' = rlog w → same_streams w w' →
  (∀ p, delivered w' (record w w' h) p = delivered w h p) →
  phase_ok w' ph' → (∀ p, opens p l' ≤ opens p l) → (∀ p id, l' = Fresh p id → l = Fresh p id) →
  (∀ p s, heap w !! p = Some s → ¬ holds ph p → ¬ registered w p (sid s) → ¬ holds ph' p) →
  (∀ p s, heap w !! p = Some s → ctx_Err (ctxs w) (sctx s) = None →
     receiving w' ph' p s → receiving w ph p s ∧ pend w' ph' p (sid s) = pend w ph p (sid s)) →
  (∀ p s, heap w !! p = Some s → ends ph p ∨ shut w ph p s →
     ends ph' p ∨ shut w' ph' p s) →
  Inv w' (record w w' h) ph' (<[i:=l']> ls ++ replicate k Idle).
Proof.
  intros Hinv Hi Hl ph' Hk Hr Hs HD Hph Ho Hf Hh Hrec Hsh.
  destruct (locals_step w h ph ls i l l' k) as (? & ? & _); [done..|].
  eapply inv_steady; try done.
  - intros p id [?|[?|?]]%elem_of_local; [done| |done].
    eapply list_elem_of_lookup_2. rewrite Hi. f_equal. by apply Hf.
  - intros p. rewrite (sum_by_local (opens p) ls i l l' k Idle eq_refl Hi). specialize (Ho p). lia.
Qed.

(** The same when the loop does not move. *)
Lemma receiving_mono w w' ph p s :
  keeps w w' → receiving w' ph p s → receiving w ph p s ∧ pend w' ph p (sid s) = pend w ph p (sid s).
Proof.
  intros [Hσ _ Hr _] (Ha & Hc & Hn).
  assert (registered w' p (sid s) → registered w p (sid s)) as Hreg.
  { unfold registered. intros. by eapply lookup_weaken. }
  split.
  - split_and!; [naive_solver| |done]. apply eq_None_not_Some. intros Hx.
    apply (ctx_Err_mono _ _ _ Hσ) in Hx. rewrite Hc in Hx. by destruct Hx.
  - unfold pend. destruct ph; try done. destruct Ha as [Ha|[[? ?]|[? ?]]]; [|done..].
    rewrite !decide_True; auto.
Qed.

Lemma shut_mono w w' ph p s : keeps w w' → shut w ph p s → shut w' ph p s.
Proof.
  intros [_ _ Hr _] [Hs ?]. split; [|done]. intros Hx. apply Hs. by eapply lookup_weaken.
Qed.

Lemma inv_user w h ph ls i l l' k w' :
  Inv w h ph ls → ls !! i = Some l → is_loop l' = is_loop l → phase_of l' ph = ph →
  keeps w w' → rlog w' = rlog w → same_streams w w' →
  (∀ p, delivered w' (record w w' h) p = delivered w h p) →
  (∀ p, opens p l' ≤ opens p l) → (∀ p id, l' = Fresh p id → l = Fresh p id) →
  Inv w' (record w w' h) ph (<[i:=l']> ls ++ replicate k Idle).
Proof.
  intros Hinv Hi Hl Hph Hk Hr Hs HD Ho Hf. rewrite <-Hph at 1.
  eapply inv_local; rewrite ?Hph; try done.
  - destruct Hinv. eapply phase_ok_mono; [done| |done]. intros p s Hp.
    destruct (same_streams_l _ _ _ _ Hs Hp) as (s' & ? & ? & ? & _). by exists s'.
  - intros p s _ _. by apply receiving_mono.
  - intros p s _ [?|?]; [by left|right]. by eapply shut_mono.
Qed.

(** ** The steps of the read loop that deliver nothing *)

Lemma routing_pend w p s f :
  registered w p (sid s) → data f = false ∨ streams (mux w) !! StreamId f = None →
  pend w (Routing f) p (sid s) = [].
Proof.
  intros Hr Hf. simpl. rewrite decide_True by done. destruct Hf as [Hf|Hf]; [by apply msgs_not_data|].
  rewrite msgs_one, decide_False; [done|]. intros [_ Hid]. unfold registered in Hr. congruence.
Qed.

(** It is done with a frame that is no message for a registered stream. *)
Lemma inv_skip w h f ls ls0 i k w' ph' :
  Inv w h (Routing f) ls → ls !! i = Some (Loop (Routing f)) → quiet w w' →
  data f = false ∨ streams (mux w) !! StreamId f = None →
  (ph' = Waiting ∨ ∃ p d, ph' = Crediting p d) → ls0 = <[i:=Loop ph']> ls ++ replicate k Idle →
  Inv w' (record w w' h) ph' ls0.
Proof.
  intros Hinv Hi [Hk _ HF _ Hr] Hf Hph ->. destruct (quiet_same w w' h HF) as [Hs HD].
  assert ((∀ p, ¬ holds ph' p) ∧ (∀ f p, ph' ≠ Deliver f p) ∧ (∀ w p id, pend w ph' p id = []) ∧
    (∀ f p, ph' ≠ Closing f p)) as (Hh & Hd & Hpe & Hc).
  { destruct Hph as [->|(? & ? & ->)]; split_and!; try done; intros p (? & [|[]]); done. }
  eapply (inv_local w h (Routing f) ls i (Loop (Routing f)) (Loop ph')); try done; simpl.
  - by destruct Hph as [->|(? & ? & ->)].
  - intros p. by destruct Hph as [->|(? & ? & ->)].
  - intros p s Hp Ha (Hrc & Ha' & _). rewrite Hpe.
    destruct Hrc as [Hrc|[[? ?]|[? ?]]]; [|by exfalso; eapply Hd|by exfalso; eapply Hc].
    assert (registered w p (sid s)).
    { destruct Hk as [_ _ Hst _]. unfold registered. by eapply lookup_weaken. }
    split; [|symmetry; by apply routing_pend]. split_and!; [by left|done..].
  - intros p s Hp [(? & ? & _)|[Hsh _]]; [done|]. right. split; [|done]. intros Hx. apply Hsh.
    destruct Hk as [_ _ Hst _]. unfold registered. by eapply lookup_weaken.
Qed.

(** It finds the stream of a message or of a terminal frame. *)
Lemma inv_found w h f q ls i k w' ph' :
  Inv w h (Routing f) ls → ls !! i = Some (Loop (Routing f)) → quiet w w' →
  streams (mux w) !! StreamId f = Some q →
  (data f = true ∧ ph' = Deliver f q) ∨ (ending f = true ∧ data f = false ∧ ph' = Closing f q) →
  Inv w' (record w w' h) ph' (<[i:=Loop ph']> ls ++ replicate k Idle).
Proof.
  intros Hinv Hi [Hk _ HF _ Hr] Hq Hph. destruct (quiet_same w w' h HF) as [Hs HD].
  pose proof (iv_reg _ _ _ _ Hinv _ _ Hq) as Hsid.
  assert (∀ p s, heap w !! p = Some s → p = q → registered w p (sid s)) as Hpq.
  { intros p s Hp ->. destruct Hsid as (s1 & ? & Hid). simplify_eq. unfold registered. by rewrite Hid. }
  assert (∀ p, holds ph' p → p = q) as Hh.
  { intros p (g & Hg). destruct Hph as [[_ ->]|(_ & _ & ->)]; naive_solver. }
  assert (∀ g p, ph' ≠ Refusing g p) as Hnr by (by destruct Hph as [[_ ->]|(_ & _ & ->)]).
  eapply (inv_local w h (Routing f) ls i (Loop (Routing f)) (Loop ph')); try done; simpl.
  - pose proof (iv_phase _ _ _ _ Hinv) as Hlast. simpl in Hlast.
    pose proof (same_streams_sid _ _ _ _ Hs Hsid).
    destruct Hph as [[? ->]|(? & _ & ->)]; simpl; [by split|by rewrite Hr].
  - intros p. by destruct Hph as [[_ ->]|(_ & _ & ->)].
  - intros p s Hp _ Hn Hx%Hh. subst. by eapply Hn, Hpq.
  - intros p s Hp Ha Hrc. assert (registered w p (sid s)) as Hreg.
    { destruct Hrc as ([Hrc|Hrc] & _ & _).
      - destruct Hk as [_ _ Hst _]. unfold registered. by eapply lookup_weaken.
      - apply Hpq; [done|]. apply Hh. unfold holds. naive_solver. }
    split; [split_and!; [by left|done..]|]. simpl. rewrite (decide_True _ _ Hreg), msgs_one.
    destruct Hph as [[Hd ->]|(_ & Hd & ->)]; simpl; rewrite Hd.
    + assert (StreamId f = sid s ↔ q = p) as Hiff.
      { split; [intros Hx; unfold registered in Hreg; congruence|intros <-].
        destruct Hsid as (s1 & ? & ?). by simplify_eq. }
      destruct (decide (q = p)) as [->|]; [rewrite decide_True|rewrite decide_False]; naive_solver.
    + by rewrite decide_False by by intros [].
  - intros p s Hp [(? & ? & _)|[Hsh _]]; [done|]. right. split.
    + intros Hx. apply Hsh. destruct Hk as [_ _ Hst _]. unfold registered. by eapply lookup_weaken.
    + intros g ->. apply Hsh, Hpq; [done|]. apply Hh. unfold holds. naive_solver.
Qed.

(** It is done with the stream it found, which either missed the message (its
    context is done, or it is refused) or is not registered any more. *)
Lemma inv_leave w h ph ls i k w' ph' :
  Inv w h ph ls → ls !! i = Some (Loop ph) → keeps w w' → rlog w' = rlog w → same_streams w w' →
  (∀ p, delivered w' (record w w' h) p = delivered w h p) →
  (∀ f, ph ≠ Routing f) → (∀ p, opens p (Loop ph) = 0) →
  ph' = Waiting ∨ (∃ f p, ph = Deliver f p ∧ ph' = Refusing f p) →
  (∀ p s, heap w !! p = Some s → ctx_Err (ctxs w) (sctx s) = None → holds ph p →
     ¬ receiving w' ph' p s) →
  (∀ f p s, ph = Closing f p → heap w !! p = Some s → ¬ registered w' p (sid s)) →
  Inv w' (record w w' h) ph' (<[i:=Loop ph']> ls ++ replicate k Idle).
Proof.
  intros Hinv Hi Hk Hr Hs HD Hnr Hno Hph Hleave Hclose.
  assert (∀ p, holds ph' p → holds ph p) as Hh.
  { intros p (g & Hg). unfold holds. destruct Hph as [->|(? & ? & -> & ->)]; naive_solver. }
  assert ((∀ g p, ph' ≠ Deliver g p) ∧ (∀ g p, ph' ≠ Closing g p) ∧ (∀ p, opens p (Loop ph') = 0))
    as (Hnd & Hnc & Hno') by (by destruct Hph as [->|(? & ? & -> & ->)]).
  eapply (inv_local w h ph ls i (Loop ph) (Loop ph')); try done; simpl.
  - destruct Hph as [->|(f & q & -> & ->)]; [done|]. pose proof (iv_phase _ _ _ _ Hinv) as [_ Hsid].
    by eapply same_streams_sid.
  - intros p. specialize (Hno p). specialize (Hno' p). simpl in *. lia.
  - intros p s Hp Hn _ Hx. by apply Hn, Hh.
  - intros p s Hp Ha Hrc. assert (¬ holds ph p) as Hnh by (intros Hx; by eapply Hleave).
    split; [split_and!|].
    + destruct Hrc as ([Hrc|[[? ?]|[? ?]]] & _); [|by exfalso; eapply Hnd|by exfalso; eapply Hnc].
      left. destruct Hk as [_ _ Hst _]. unfold registered. by eapply lookup_weaken.
    + done.
    + intros f ->. apply Hnh. exists f. auto.
    + assert (pend w ph p (sid s) = []) as ->.
      { destruct ph; simpl; try done; [by exfalso; eapply Hnr|].
        rewrite decide_False; [done|]. intros ->. apply Hnh. exists f. auto. }
      by destruct Hph as [->|(? & ? & _ & ->)].
  - intros p s Hp Hcl. right. split; [|by intros ? ?%Hnd]. destruct Hcl as [(g & -> & _)|[Hsh _]]; [by eapply Hclose|].
    intros Hx. apply Hsh. destruct Hk as [_ _ Hst _]. unfold registered. by eapply lookup_weaken.
Qed.

(** Removing the id of the stream it holds. *)
Lemma inv_removed w h ph ls i k f p :
  Inv w h ph ls → ls !! i = Some (Loop ph) → ph = Refusing f p ∨ ph = Closing f p →
  let w' := set_mux (λ m, m <| streams ::= delete (StreamId f) |>) w in
  Inv w' (record w w' h) Waiting (<[i:=Loop Waiting]> ls ++ replicate k Idle).
Proof.
  intros Hinv Hi Hph w'.
  assert (∃ s, heap w !! p = Some s ∧ sid s = StreamId f) as (s0 & Hp0 & Hid).
  { pose proof (iv_phase _ _ _ _ Hinv) as Hok. destruct Hph as [-> | ->]; naive_solver. }
  assert (∀ s, heap w !! p = Some s → ¬ registered w' p (sid s)) as Hn.
  { intros s Hp. simplify_eq. unfold registered. simpl. by rewrite Hid, lookup_delete_eq. }
  apply (inv_leave w h ph); try done.
  - split; try done; [apply delete_subseteq|]. intros g Hg. by left.
  - by apply same_streams_heap.
  - intros q. by apply delivered_same.
  - by destruct Hph as [-> | ->].
  - by destruct Hph as [-> | ->].
  - by left.
  - intros q s Hq _ Hh ([?|[[? ?]|[? ?]]] & _); try done. assert (q = p) as ->.
    { destruct Hh as (g & Hg). destruct Hph as [-> | ->]; naive_solver. }
    by eapply Hn.
  - intros g q s -> Hq. assert (q = p) as -> by (destruct Hph; naive_solver). by apply Hn.
Qed.

(** ** The steps that deliver, end or read *)

(** The bookkeeping of such a step, which goes from phase [ph] to [ph']. *)
Lemma inv_books w h ph ls i k w' ph' :
  Inv w h ph ls → ls !! i = Some (Loop ph) → streams (mux w') ⊆ streams (mux w) →
  length (heap w') = length (heap w) →
  (∀ p s, heap w !! p = Some s →
     ∃ s', heap w' !! p = Some s' ∧ sid s' = sid s ∧ method s' = method s) →
  (∀ p, opens p (Loop ph) = 0) → (∀ p, opens p (Loop ph') = 0) →
  phase_ok w' ph' →
  let ls' := <[i:=Loop ph']> ls ++ replicate k Idle in
  (∀ p, 0 < sum_by (opens p) ls' →
    ∃ s, heap w' !! p = Some s ∧ delivered w' (record w w' h) p = [] ∧ ¬ registered w' p (sid s) ∧
      ¬ holds ph' p ∧ endFrame s = None) →
  (∀ p s, heap w' !! p = Some s →
    ∃ l1 l2 post, rlog w' = l1 ++ l2 ∧ starts s l1 ∧
      msgs (sid s) l2 = delivered w' (record w w' h) p ++ post ∧
      (receiving w' ph' p s → post = pend w' ph' p (sid s))) →
  (∀ p s f, heap w' !! p = Some s → endFrame s = Some f → ctx_Err (ctxs w') (sctx s) = None →
    (ends ph' p ∨ shut w' ph' p s) ∧
    ∃ l1 l2 l3, rlog w' = l1 ++ l2 ++ f :: l3 ∧ starts s l1 ∧
      delivered w' (record w w' h) p = msgs (sid s) l2) →
  Inv w' (record w w' h) ph' ls'.
Proof.
  intros Hinv Hi Hst Hlen Hs Ho Ho' Hph ls' Hun Hrun Hend.
  destruct (locals_step w h ph ls i (Loop ph) (Loop ph') k) as (? & ? & _); [done..|]. destruct Hinv.
  assert (∀ p, sum_by (opens p) ls' = sum_by (opens p) ls) as Hsum.
  { intros p. unfold ls'. rewrite (sum_by_local (opens p) ls i _ _ k Idle eq_refl Hi).
    rewrite Ho, Ho'. lia. }
  split; try done.
  - intros id p Hx. destruct (iv_reg0 id p) as (s & Hp & <-); [by eapply lookup_weaken|]. destruct (Hs p s Hp) as (s' & ? & ? & _).
    by exists s'.
  - intros p id [Hp|[?|?]]%elem_of_local; [|done..]. destruct (iv_fresh0 p id Hp) as (? & s & Hp' & <-).
    split; [done|]. destruct (Hs p s Hp') as (s' & ? & ? & _). by exists s'.
  - intros p. by rewrite Hsum.
  - intros p Hp. rewrite Hlen in Hp. unfold record, taken, items.
    by rewrite (lookup_ge_None_2 (heap w) p), take_nil, (iv_hist0 p) by done.
Qed.

Lemma lookup_set_stream_ne w p q s : p ≠ q → heap (set_stream p s w) !! q = heap w !! q.
Proof. intros. simpl. by rewrite list_lookup_insert_ne. Qed.

(** Updating one stream. *)
Lemma set_stream_cases w p s s' q t :
  heap w !! p = Some s → heap (set_stream p s' w) !! q = Some t →
  (q = p ∧ t = s') ∨ (q ≠ p ∧ heap w !! q = Some t).
Proof.
  intros Hp Ht. simpl in Ht. apply list_lookup_insert_Some in Ht as [(-> & -> & _)|[? ?]]; auto.
Qed.

Lemma set_stream_sid w p s s' :
  heap w !! p = Some s → sid s' = sid s → method s' = method s →
  ∀ q t, heap w !! q = Some t →
  ∃ t', heap (set_stream p s' w) !! q = Some t' ∧ sid t' = sid t ∧ method t' = method t.
Proof.
  intros Hp Hid Hm q t Ht. simpl. destruct (decide (p = q)) as [->|].
  - simplify_eq. exists s'. split; [|done]. apply list_lookup_insert_eq. by eapply lookup_lt_Some.
  - exists t. by rewrite list_lookup_insert_ne.
Qed.

Lemma inv_enqueue w h ls i k f p s n :
  Inv w h (Deliver f p) ls → ls !! i = Some (Loop (Deliver f p)) →
  heap w !! p = Some s → ctx_Err (ctxs w) (sctx s) = None →
  let w' := set_stream p (s <| recvItems ::= λ q, q ++ [f] |> <| recvBytes := n |>) w in
  Inv w' (record w w' h) Waiting (<[i:=Loop Waiting]> ls ++ replicate k Idle).
Proof.
  intros Hinv Hi Hp Ha w'.
  assert (items w' p = items w p ++ [f]) as Hpush.
  { unfold w'. rewrite items_set_stream, decide_True by done. unfold items. by rewrite Hp. }
  assert (∀ q, q ≠ p → delivered w' (record w w' h) q = delivered w h q) as Hother.
  { intros q Hq. apply delivered_same. unfold w'. by rewrite items_set_stream, decide_False by done. }
  assert (receiving w (Deliver f p) p s) as Hrc by (split_and!; [right; left; by exists f|done..]).
  eapply (inv_books w h (Deliver f p)); try done.
  - apply length_insert.
  - by eapply set_stream_sid.
  - intros q Hq. rewrite (sum_by_local (opens q) ls i _ _ k Idle eq_refl Hi) in Hq.
    destruct (iv_unborn _ _ _ _ Hinv q) as (t & Ht & HD & Hr & Hh & He); [simpl in Hq; lia|].
    assert (q ≠ p) as Hne by (intros ->; apply Hh; exists f; auto).
    exists t. rewrite Hother by done. unfold w'. rewrite lookup_set_stream_ne by done.
    split_and!; try done. by intros (? & [|[]]).
  - intros q t Ht. destruct (set_stream_cases _ _ _ _ _ _ Hp Ht) as [[-> ->]|[Hne Ht']].
    + destruct (iv_run _ _ _ _ Hinv p s Hp) as (l1 & l2 & post & Hl & Hsta & Hm & Hpost).
      exists l1, l2, []. rewrite (delivered_push _ _ _ _ _ Hpush). simpl. split_and!; [done|done| |done].
      rewrite app_nil_r, Hm, Hpost by done. simpl. by rewrite decide_True.
    + destruct (iv_run _ _ _ _ Hinv q t Ht') as (l1 & l2 & post & Hl & Hsta & Hm & Hpost).
      exists l1, l2, post. rewrite Hother by done. split_and!; [done..|].
      intros ([?|[[? ?]|[? ?]]] & ? & _); try done. rewrite Hpost by (split_and!; [by left|done..]).
      simpl. by rewrite decide_False.
  - intros q t g Ht He Ht'. destruct (set_stream_cases _ _ _ _ _ _ Hp Ht) as [[-> ->]|[Hne Hq]].
    + exfalso. destruct (iv_end _ _ _ _ Hinv p s g Hp He Ha) as [[(? & ? & _)|[_ Hn]] _]; [done|]. by eapply Hn.
    + destruct (iv_end _ _ _ _ Hinv q t g Hq He Ht') as [[(? & ? & _)|[Hn _]] Hrun]; [done|].
      rewrite Hother by done. split; [right; by split|done].
Qed.

(** The loop records a terminal frame: everything before it was delivered. *)
Lemma run_before_end w h f p s ls :
  Inv w h (Closing f p) ls → heap w !! p = Some s → ctx_Err (ctxs w) (sctx s) = None →
  ∃ l1 l2 l3, rlog w = l1 ++ l2 ++ f :: l3 ∧ starts s l1 ∧ delivered w h p = msgs (sid s) l2.
Proof.
  intros Hinv Hp Ha. destruct (iv_phase _ _ _ _ Hinv) as (Hterm & Hlast & _).
  destruct (iv_run _ _ _ _ Hinv p s Hp) as (l1 & l2 & post & Hl & Hsta & Hm & Hpost).
  rewrite Hpost, app_nil_r in Hm by (split_and!; [right; right; by exists f|done..]).
  apply last_Some in Hlast as [l' Hl']. destruct l2 as [|g l2 _] using rev_ind.
  - rewrite app_nil_r in Hl. subst l1. exists l', [], []. split_and!; [by rewrite Hl'| |by rewrite <-Hm].
    destruct Hsta as [Hs Hc]. split.
    + intros Hrole. destruct (Hs Hrole) as (l0 & o & Ho & Hk & _). rewrite Hl' in Ho.
      apply app_inj_tail in Ho as [_ ->]. unfold ending, terminal in Hterm. by rewrite Hk in Hterm.
    + intros Hrole. specialize (Hc Hrole). rewrite Hl', msgs_app in Hc. by apply app_eq_nil in Hc as [? _].
  - rewrite Hl, app_assoc in Hl'. apply app_inj_tail in Hl' as [_ ->].
    exists l1, l2, []. rewrite <-Hm, msgs_app, (msgs_not_data _ f), app_nil_r; [done|].
    unfold ending, terminal, data in *. by destruct (FKind f).
Qed.

Lemma inv_ended w h ls i k f p s :
  Inv w h (Closing f p) ls → ls !! i = Some (Loop (Closing f p)) → heap w !! p = Some s → terminal f = true →
  let w' := set_stream p (signalEnd_lock f s) w in
  Inv w' (record w w' h) (Closing f p) (<[i:=Loop (Closing f p)]> ls ++ replicate k Idle).
Proof.
  intros Hinv Hi Hp Hf w'.
  assert (∀ q, delivered w' (record w w' h) q = delivered w h q) as HD.
  { intros q. apply delivered_same. unfold w'. rewrite items_set_stream by done. unfold items.
    case_decide; [|done]. subst. by rewrite Hp. }
  eapply (inv_books w h (Closing f p)); try done.
  - apply length_insert.
  - by eapply set_stream_sid.
  - destruct (iv_phase _ _ _ _ Hinv) as (? & ? & s1 & ? & ?). simplify_eq. split_and!; [done..|].
    destruct (set_stream_sid w p s (signalEnd_lock f s) Hp eq_refl eq_refl p s Hp) as (t & ? & Hid & _).
    exists t. by rewrite Hid.
  - intros q Hq. rewrite (sum_by_local (opens q) ls i _ _ k Idle eq_refl Hi) in Hq.
    destruct (iv_unborn _ _ _ _ Hinv q) as (t & Ht & HD' & Hr & Hh & He); [simpl in Hq; lia|].
    assert (q ≠ p) as Hne by (intros ->; apply Hh; exists f; auto).
    exists t. rewrite HD. unfold w'. rewrite lookup_set_stream_ne by done. by split_and!.
  - intros q t Ht. rewrite HD.
    destruct (set_stream_cases _ _ _ _ _ _ Hp Ht) as [[-> ->]|[Hne Ht']].
    + exact (iv_run _ _ _ _ Hinv p s Hp).
    + exact (iv_run _ _ _ _ Hinv q t Ht').
  - intros q t g Ht He Ht'. rewrite HD.
    destruct (set_stream_cases _ _ _ _ _ _ Hp Ht) as [[-> ->]|[Hne Hq]].
    + simplify_eq/=. split; [left; by exists g|].
      exact (run_before_end w h g p s ls Hinv Hp Ht').
    + by apply (iv_end _ _ _ _ Hinv).
Qed.

(** It closes the receiving side of a stream, which stays registered. *)
Lemma inv_half w h ls i k f p s :
  Inv w h (Closing f p) ls → ls !! i = Some (Loop (Closing f p)) → heap w !! p = Some s →
  FKind f = KIND_HALF_CLOSE →
  let w' := set_stream p (halfClose s) w in
  Inv w' (record w w' h) Waiting (<[i:=Loop Waiting]> ls ++ replicate k Idle).
Proof.
  intros Hinv Hi Hp Hk w'.
  assert (∀ q, delivered w' (record w w' h) q = delivered w h q) as HD.
  { intros q. apply delivered_same. unfold w'. rewrite items_set_stream by done. unfold items.
    case_decide; [|done]. subst. by rewrite Hp. }
  eapply (inv_local w h (Closing f p) ls i (Loop (Closing f p)) (Loop Waiting)); try done; simpl.
  - by apply keeps_same.
  - by eapply same_streams_set.
  - by intros q t _ _ _ (? & [|[]]).
  - intros q t Hq Ha ([Hr|[[? ?]|[? ?]]] & ? & _); try done. split; [|done]. split_and!; [by left|done..].
  - intros q t Hq [(g & ? & Hg)|[Hs _]]; [|by right]. simplify_eq. unfold terminal in Hg. by rewrite Hk in Hg.
Qed.

(** It reads a frame. *)
Lemma inv_read w h ls i k w' f ph' :
  Inv w h Waiting ls → ls !! i = Some (Loop Waiting) → keeps w w' →
  heap w' = heap w → rlog w' = rlog w ++ [f] → ph' = Routing f ∨ ph' = Waiting ∧ light f = true →
  Inv w' (record w w' h) ph' (<[i:=Loop ph']> ls ++ replicate k Idle).
Proof.
  intros Hinv Hi [Hσ _ Hst _] Hh Hr Hph.
  assert (∀ q id, registered w' q id → registered w q id) as Hrw.
  { unfold registered. intros q id Hx. by eapply lookup_weaken. }
  assert (∀ q, delivered w' (record w w' h) q = delivered w h q) as HD.
  { intros q. apply delivered_same. unfold items. by rewrite Hh. }
  assert (∀ q, ¬ holds ph' q) as Hnh by (intros q (g & Hg); destruct Hph as [->|[-> _]]; naive_solver).
  assert (∀ g q, ph' ≠ Deliver g q) as Hnd by (by destruct Hph as [->|[-> _]]).
  assert (∀ c, ctx_Err (ctxs w') c = None → ctx_Err (ctxs w) c = None) as Hal.
  { intros c Hc. apply eq_None_not_Some. intros Hx%(ctx_Err_mono _ _ _ Hσ). rewrite Hc in Hx. by destruct Hx. }
  eapply (inv_books w h Waiting); try done.
  - by rewrite Hh.
  - rewrite Hh. eauto.
  - by destruct Hph as [->|[-> _]].
  - destruct Hph as [->|[-> _]]; simpl; [|done]. rewrite Hr. by rewrite last_snoc.
  - intros q Hq. rewrite (sum_by_local (opens q) ls i _ _ k Idle eq_refl Hi) in Hq.
    destruct (iv_unborn _ _ _ _ Hinv q) as (t & Ht & HD' & Hrg & _ & He).
    { simpl in Hq. destruct Hph as [->|[-> _]]; lia. }
    exists t. rewrite HD, Hh. split_and!; auto.
  - intros q t. rewrite Hh, HD, Hr. intros Ht.
    destruct (iv_run _ _ _ _ Hinv q t Ht) as (l1 & l2 & post & Hl & Hsta & Hm & Hpost).
    exists l1, (l2 ++ [f]), (post ++ msgs (sid t) [f]). rewrite Hl, msgs_app, Hm, <-!app_assoc.
    split_and!; [done..|]. intros (Hrc & Hc & _).
    assert (registered w q (sid t)) as Hreg.
    { destruct Hrc as [Hrc|Hrc]; [by apply Hrw|]. by destruct Hph as [->|[-> _]]; naive_solver. }
    rewrite Hpost by (split_and!; [by left|by apply Hal|done]). simpl.
    destruct Hph as [->|[-> Hl']]; simpl.
    + rewrite decide_True; [done|]. by destruct Hrc as [?|[[? ?]|[? ?]]].
    + apply msgs_not_data. unfold light in Hl'. by destruct (data f).
  - intros q t g. rewrite Hh, HD, Hr. intros Ht He Hc.
    destruct (iv_end _ _ _ _ Hinv q t g Ht He) as [[(? & ? & _)|[Hn _]] (l1 & l2 & l3 & Hl & Hsta & HDm)]; [by auto|done|].
    split; [right; split; [by auto|by intros ? ?%Hnd]|].
    exists l1, l2, (l3 ++ [f]). by rewrite Hl, <-!app_assoc.
Qed.

(** ** The steps that create and register streams *)

Lemma opens_nonneg p l : 0 ≤ opens p l.
Proof. destruct l as [| | | | | | |q| |[]]; simpl; try case_decide; lia. Qed.

Lemma opens_pos p l ls i : ls !! i = Some l → opens p l ≤ sum_by (opens p) ls.
Proof. apply sum_by_one, opens_nonneg. Qed.

(** A goroutine, the read loop on an OPEN frame included, allocates a stream. *)
Definition allocates w (s : Stream) ph (l l' : Local) : Prop :=
  (is_loop l = false ∧ (∀ p, opens p l = 0) ∧ l' = Fresh (length (heap w)) (sid s) ∧
   role ≠ InHandler ∧ msgs (sid s) (rlog w) = []) ∨
  (∃ f, ph = Routing f ∧ FKind f = KIND_OPEN ∧ sid s = StreamId f ∧ method s = FMethod f ∧
   role = InHandler ∧ l = Loop ph ∧ l' = Loop (Opened f (length (heap w)))).

Lemma allocates_opens w s ph l l' p :
  allocates w s ph l l' →
  is_loop l' = is_loop l ∧ opens p l = 0 ∧
  opens p l' = (if decide (length (heap w) = p) then 1 else 0) ∧
  (holds (phase_of l' ph) p → holds ph p) ∧ (∀ g, phase_of l' ph = Deliver g p → ph = Deliver g p) ∧
  (ends ph p → ends (phase_of l' ph) p).
Proof.
  intros [(Hl & Ho & -> & _)|(f & -> & _ & _ & _ & _ & -> & ->)]; simpl; [by rewrite Hl|].
  split_and!; try done; unfold holds, ends; naive_solver.
Qed.

Lemma receiving_allocates w s ph l l' w' p t :
  allocates w s ph l l' → keeps w w' → receiving w' (phase_of l' ph) p t →
  receiving w ph p t ∧ pend w' (phase_of l' ph) p (sid t) = pend w ph p (sid t).
Proof.
  intros [(_ & _ & -> & _)|(f & -> & Hf & _ & _ & _ & -> & ->)] Hk; simpl; [by apply receiving_mono|].
  intros Hrc. assert (receiving w' (Routing f) p t) as Hx by (destruct Hrc as (? & ? & _); split_and!; naive_solver).
  destruct (receiving_mono _ _ _ _ _ Hk Hx) as [Hrec _]. split; [done|].
  symmetry. apply routing_pend; [|left; unfold data; by rewrite Hf].
  by destruct Hrec as ([?|[[? ?]|[? ?]]] & _).
Qed.

Lemma phase_ok_below w ph p : phase_ok w ph → holds ph p → (p < length (heap w))%nat.
Proof.
  intros Hok (f & [-> | [-> | ->]]); simpl in Hok.
  - destruct Hok as (_ & s & Hp & _). by eapply lookup_lt_Some.
  - destruct Hok as (s & Hp & _). by eapply lookup_lt_Some.
  - destruct Hok as (_ & _ & s & Hp & _). by eapply lookup_lt_Some.
Qed.

(** The stream that is added is new to everybody. *)
Lemma alloc_lookup w w' s p t :
  heap w' = heap w ++ [s] →
  heap w' !! p = Some t ↔
  heap w !! p = Some t ∧ p ≠ length (heap w) ∨ p = length (heap w) ∧ t = s.
Proof.
  intros Hh. rewrite Hh, lookup_app_Some, list_lookup_singleton_Some. split.
  - intros [Hp|(? & ? & ->)]; [|right; split; [lia|done]].
    left. split; [done|]. apply lookup_lt_Some in Hp. lia.
  - intros [[? _]|[-> ->]]; [by left|right]. split_and!; [lia..|done].
Qed.

Lemma alloc_delivered w w' h s p :
  heap w' = heap w ++ [s] → recvItems s = [] → delivered w' (record w w' h) p = delivered w h p.
Proof.
  intros Hh Hs. apply delivered_same. unfold items. destruct (heap w !! p) as [t|] eqn:Hp.
  - rewrite (proj2 (alloc_lookup w w' s p t Hh)); [done|]. left. split; [done|].
    apply lookup_lt_Some in Hp. lia.
  - destruct (heap w' !! p) as [t|] eqn:Hp'; [|done].
    apply (alloc_lookup _ _ _ _ _ Hh) in Hp' as [[? _]|[_ ->]]; congruence.
Qed.

Lemma alloc_unknown w h ph ls :
  Inv w h ph ls → let q := length (heap w) in
  ¬ holds ph q ∧ (∀ id, ¬ registered w q id) ∧ delivered w h q = [] ∧ sum_by (opens q) ls ≤ 0.
Proof.
  intros Hinv q. assert (heap w !! q = None) as Hq by by apply lookup_ge_None_2. split_and!.
  - intros Hx. pose proof (phase_ok_below _ _ _ (iv_phase _ _ _ _ Hinv) Hx). unfold q in *. lia.
  - intros id (t & Ht & _)%(iv_reg _ _ _ _ Hinv). congruence.
  - unfold delivered, items. by rewrite (iv_hist _ _ _ _ Hinv q), Hq by done.
  - destruct (Z.lt_ge_cases 0 (sum_by (opens q) ls)) as [Hlt|]; [|done].
    destruct (iv_unborn _ _ _ _ Hinv q Hlt) as (t & Ht & _). congruence.
Qed.

Lemma alloc_run w h ph ls l l' w' s :
  Inv w h ph ls → allocates w s ph l l' → keeps w w' → rlog w' = rlog w →
  heap w' = heap w ++ [s] → recvItems s = [] → ∀ p t, heap w' !! p = Some t →
  ∃ l1 l2 post, rlog w' = l1 ++ l2 ∧ starts t l1 ∧ msgs (sid t) l2 = delivered w' (record w w' h) p ++ post ∧
    (receiving w' (phase_of l' ph) p t → post = pend w' (phase_of l' ph) p (sid t)).
Proof.
  intros Hinv Hal Hk Hr Hh Hit p t Hp. rewrite (alloc_delivered _ _ _ _ _ Hh Hit), Hr.
  destruct (alloc_unknown _ _ _ _ Hinv) as (Hnh & Hnr & HDq & _).
  apply (alloc_lookup _ _ _ _ _ Hh) in Hp as [[Hp _]|[-> ->]].
  - destruct (iv_run _ _ _ _ Hinv p t Hp) as (l1 & l2 & post & ? & ? & ? & Hpost). exists l1, l2, post.
    split_and!; [done..|]. intros Hrc. destruct (receiving_allocates _ _ _ _ _ _ _ _ Hal Hk Hrc) as [? ->].
    by apply Hpost.
  - exists (rlog w), [], []. rewrite HDq, app_nil_r. split_and!; [done| |done|].
    { split; destruct Hal as [(_ & _ & _ & Hro & Hm)|(f & -> & Hk' & Hi & Hme & Hro & _)]; try done.
      intros _. destruct (proj1 (last_Some _ _) (iv_phase _ _ _ _ Hinv)) as [l0 Hl0]. by exists l0, f. }
    intros Hrc.
    destruct (receiving_allocates _ _ _ _ _ _ _ _ Hal Hk Hrc) as [(Hx & _) _]. exfalso.
    destruct Hx as [Hx|[[f Hx]|[f Hx]]]; [by eapply Hnr|by apply Hnh; exists f; auto..].
Qed.

Lemma inv_alloc w h ph ls i l l' k w' s :
  Inv w h ph ls → ls !! i = Some l → allocates w s ph l l' →
  keeps w w' → streams (mux w') = streams (mux w) → rlog w' = rlog w → heap w' = heap w ++ [s] →
  recvItems s = [] → endFrame s = None →
  Inv w' (record w w' h) (phase_of l' ph) (<[i:=l']> ls ++ replicate k Idle).
Proof.
  intros Hinv Hi Hal Hk Hst Hr Hh Hit He. pose proof (λ p, allocates_opens _ _ _ _ _ p Hal) as Hop.
  destruct (locals_step w h ph ls i l l' k) as (? & ? & _); [done..|by apply (Hop 0%nat)|].
  destruct (alloc_unknown _ _ _ _ Hinv) as (Hnh & Hnr & HDq & Hsq).
  assert (∀ p t, heap w !! p = Some t → heap w' !! p = Some t) as Hold.
  { intros p t Hp. rewrite Hh. by apply lookup_app_l_Some. }
  assert (∀ p, sum_by (opens p) (<[i:=l']> ls ++ replicate k Idle)
    = sum_by (opens p) ls + if decide (length (heap w) = p) then 1 else 0) as Hsum.
  { intros p. rewrite (sum_by_local (opens p) ls i _ _ k Idle eq_refl Hi).
    destruct (Hop p) as (_ & -> & -> & _). lia. }
  split; try done.
  - destruct Hal as [(_ & _ & -> & _)|(f & -> & Hk' & Hid & Hme & Hro & _ & ->)]; simpl.
    + eapply phase_ok_mono; [done| |apply (iv_phase _ _ _ _ Hinv)]. intros p t ?. exists t. by auto.
    + rewrite Hr. split_and!; [apply (iv_phase _ _ _ _ Hinv)|done..|]. exists s. split; [|done].
      apply (alloc_lookup _ _ _ _ _ Hh). by right.
  - intros id p. rewrite Hst. intros (t & Ht & ?)%(iv_reg _ _ _ _ Hinv). eauto.
  - intros p id [(? & t & Ht & ?)%(iv_fresh _ _ _ _ Hinv)|[Hx|?]]%elem_of_local; [eauto| |done].
    destruct Hal as [(_ & _ & -> & Hro & _)|(f & _ & _ & _ & _ & _ & _ & ->)]; simplify_eq.
    split; [done|]. exists s. split; [|done]. apply (alloc_lookup _ _ _ _ _ Hh). by right.
  - intros p. rewrite Hsum, (alloc_delivered _ _ _ _ _ Hh Hit). destruct (Hop p) as (_ & _ & _ & Hhp & _).
    unfold registered. rewrite Hst. case_decide as Hq; intros Hpos.
    + subst p. exists s.
      split_and!; [apply (alloc_lookup _ _ _ _ _ Hh); by right|done|apply Hnr|by intros ?%Hhp|done].
    + destruct (iv_unborn _ _ _ _ Hinv p) as (t & Ht & ? & ? & ? & ?); [lia|].
      exists t. split_and!; auto.
  - intros p. rewrite Hsum. pose proof (iv_once _ _ _ _ Hinv p). case_decide; [subst; lia|lia].
  - intros p Hp. rewrite Hh, length_app in Hp. simpl in Hp. unfold record, taken, items.
    rewrite (lookup_ge_None_2 (heap w) p), take_nil, (iv_hist _ _ _ _ Hinv p) by lia. done.
  - by eapply alloc_run.
  - intros p t f Hp Het Ha. rewrite (alloc_delivered _ _ _ _ _ Hh Hit), Hr.
    apply (alloc_lookup _ _ _ _ _ Hh) in Hp as [[Hp _]|[-> ->]]; [|congruence].
    destruct (iv_end _ _ _ _ Hinv p t f Hp Het) as [Hcl ?].
    { apply eq_None_not_Some. intros Hx%(ctx_Err_mono _ _ _ (kp_ctx _ _ Hk)). rewrite Ha in Hx. by destruct Hx. }
    split; [|done]. destruct (Hop p) as (_ & _ & _ & _ & Hd & Hc). destruct Hcl as [Hg|[Hn Hnd]].
    + left. by apply Hc.
    + right. unfold shut, registered in *. rewrite Hst. split; [done|]. intros g Hg%Hd. by eapply Hnd.
Qed.

(** A goroutine registers the stream it allocated. *)
Definition registers (q : nat) (id : Z) ph (l l' : Local) : Prop :=
  (l = Fresh q id ∧ l' = Announcing id) ∨
  (∃ f, ph = Opened f q ∧ id = StreamId f ∧ l = Loop ph ∧ l' = Loop Waiting).

Lemma register_lookup w q id p id' :
  let w' := set_mux (λ m, m <| streams ::= <[id:=q]> |>) w in
  registered w' p id' ↔ (id' = id ∧ p = q) ∨ (id' ≠ id ∧ registered w p id').
Proof.
  unfold registered. simpl. rewrite lookup_insert_Some. naive_solver.
Qed.

(** Until then nobody else knew the stream. *)
Lemma register_known w h ph ls i l l' q id :
  Inv w h ph ls → ls !! i = Some l → registers q id ph l l' →
  is_loop l' = is_loop l ∧ (∀ p, opens p l' = 0) ∧ (∀ p, opens p l = if decide (q = p) then 1 else 0) ∧
  (∀ p id', l' ≠ Fresh p id') ∧
  ∃ s, heap w !! q = Some s ∧ sid s = id ∧ delivered w h q = [] ∧ ¬ holds ph q ∧ endFrame s = None.
Proof.
  intros Hinv Hi Hreg.
  assert (∀ p, opens p l = if decide (q = p) then 1 else 0) as Hop.
  { by destruct Hreg as [[-> _]|(f & -> & _ & -> & _)]. }
  destruct (iv_unborn _ _ _ _ Hinv q) as (s & Hs & HD & _ & Hh & He).
  { pose proof (opens_pos q l ls i Hi). rewrite Hop, decide_True in * by done. lia. }
  assert (sid s = id) as Hid.
  { destruct Hreg as [[-> _]|(f & -> & -> & -> & _)].
    - destruct (iv_fresh _ _ _ _ Hinv q id) as (_ & t & ? & ?); [by eapply list_elem_of_lookup_2|].
      by simplify_eq.
    - destruct (iv_phase _ _ _ _ Hinv) as (_ & _ & _ & t & ? & ? & _). by simplify_eq. }
  destruct Hreg as [[-> ->]|(f & -> & _ & -> & ->)]; split_and!; try done; by exists s.
Qed.

(** Where the run of the registered stream starts. *)
Lemma register_starts w h ph ls i l l' q id s :
  Inv w h ph ls → ls !! i = Some l → registers q id ph l l' → heap w !! q = Some s → sid s = id →
  (role ≠ InHandler → msgs id (rlog w) = []) → starts s (rlog w).
Proof.
  intros Hinv Hi Hreg Hq Hid Hm. split; [|by rewrite Hid]. intros Hrole.
  destruct Hreg as [[-> _]|(f & -> & -> & -> & _)].
  - destruct (iv_fresh _ _ _ _ Hinv q id) as (? & _); [by eapply list_elem_of_lookup_2|done].
  - destruct (iv_phase _ _ _ _ Hinv) as (Hl & ? & _ & t & ? & ? & ?). simplify_eq.
    apply last_Some in Hl as [l0 Hl0]. by exists l0, f.
Qed.

Lemma register_run w h ph ls i l l' q id :
  Inv w h ph ls → ls !! i = Some l → registers q id ph l l' →
  (role ≠ InHandler → msgs id (rlog w) = []) →
  let w' := set_mux (λ m, m <| streams ::= <[id:=q]> |>) w in
  ∀ p s, heap w' !! p = Some s →
  ∃ l1 l2 post, rlog w' = l1 ++ l2 ∧ starts s l1 ∧
    msgs (sid s) l2 = delivered w' (record w w' h) p ++ post ∧
    (receiving w' (phase_of l' ph) p s → post = pend w' (phase_of l' ph) p (sid s)).
Proof.
  intros Hinv Hi Hreg Hm w' p s Hp. rewrite delivered_same by done.
  destruct (register_known _ _ _ _ _ _ _ _ _ Hinv Hi Hreg) as (_ & _ & _ & _ & t & Ht & Hid & HD & Hh & _).
  destruct (decide (p = q)) as [->|Hne].
  - simpl in Hp. simplify_eq. rewrite HD. exists (rlog w), [], [].
    split_and!; [by rewrite app_nil_r|by eapply register_starts|done|]. intros _.
    destruct (phase_of l' ph) as [|f|f p'|f p'|f p'|p' d|f p'] eqn:Eph; try done; simpl.
    + assert (ph = Routing f ∧ role ≠ InHandler) as [-> Hrole].
      { destruct Hreg as [[-> ->]|(g & -> & _ & -> & ->)]; simplify_eq/=. split; [done|].
        apply (iv_fresh _ _ _ _ Hinv q (sid s)). by eapply list_elem_of_lookup_2. }
      destruct (proj1 (last_Some _ _) (iv_phase _ _ _ _ Hinv)) as [l0 Hl0]. specialize (Hm Hrole).
      rewrite Hl0, msgs_app in Hm. apply app_eq_nil in Hm as [_ ->]. by case_decide.
    + rewrite decide_False; [done|]. intros ->. apply Hh. exists f. left.
      destruct Hreg as [[-> ->]|(g & -> & _ & -> & ->)]; by simplify_eq/=.
  - destruct (iv_run _ _ _ _ Hinv p s Hp) as (l1 & l2 & post & ? & ? & ? & Hpost). exists l1, l2, post.
    split_and!; [done..|]. intros (Hrc & Ha & Hn).
    assert (registered w' p (sid s) → registered w p (sid s)) as Hrw by (intros [[_ ?]|[_ ?]]%register_lookup; done).
    assert (phase_of l' ph = ph ∨ ∃ f, ph = Opened f q ∧ phase_of l' ph = Waiting) as Hph.
    { destruct Hreg as [[-> ->]|(f & -> & _ & -> & ->)]; [by left|right; by exists f]. }
    rewrite Hpost.
    + destruct Hph as [->|(f & -> & ->)]; [|done]. destruct ph; try done. simpl.
      destruct Hrc as [Hrc|[[? ?]|[? ?]]]; [|by destruct Hreg as [[-> ->]|(g & ? & _)]..].
      rewrite !decide_True; auto.
    + destruct Hph as [Hph|(f & -> & Hph)]; rewrite Hph in *; (split_and!; [|done..]); naive_solver.
Qed.

Lemma inv_register w h ph ls i l l' k q id :
  Inv w h ph ls → ls !! i = Some l → registers q id ph l l' →
  (role ≠ InHandler → msgs id (rlog w) = []) →
  let w' := set_mux (λ m, m <| streams ::= <[id:=q]> |>) w in
  Inv w' (record w w' h) (phase_of l' ph) (<[i:=l']> ls ++ replicate k Idle).
Proof.
  intros Hinv Hi Hreg Hm w'.
  destruct (register_known _ _ _ _ _ _ _ _ _ Hinv Hi Hreg)
    as (Hlp & Ho' & Ho & Hnf & t & Ht & Hid & HD & Hh & He).
  destruct (locals_step w h ph ls i l l' k) as (? & ? & _); [done..|].
  assert (∀ p, sum_by (opens p) (<[i:=l']> ls ++ replicate k Idle)
    = sum_by (opens p) ls - if decide (q = p) then 1 else 0) as Hsum.
  { intros p. rewrite (sum_by_local (opens p) ls i _ _ k Idle eq_refl Hi), Ho', Ho. lia. }
  assert (∀ p, holds (phase_of l' ph) p → holds ph p) as Hhp.
  { destruct Hreg as [[-> ->]|(f & -> & _ & -> & ->)]; simpl; [done|]. intros p (? & [|[]]); done. }
  split; try done.
  - destruct Hreg as [[-> ->]|(f & -> & _ & -> & ->)]; simpl; [|done].
    eapply phase_ok_mono; [done| |exact (iv_phase _ _ _ _ Hinv)]. eauto.
  - intros id' p [[-> ->]|[_ Hx]]%register_lookup; [by exists t|]. by apply (iv_reg _ _ _ _ Hinv).
  - intros p id' [Hp|[Hx|?]]%elem_of_local; [by apply (iv_fresh _ _ _ _ Hinv)| |done].
    symmetry in Hx. by apply Hnf in Hx.
  - intros p. rewrite Hsum, delivered_same by done. pose proof (iv_once _ _ _ _ Hinv p).
    case_decide as Hq; intros Hpos; [lia|].
    destruct (iv_unborn _ _ _ _ Hinv p) as (s & Hs & ? & ? & ? & ?); [lia|].
    exists s. split_and!; try done; [|naive_solver]. by intros [[_ ?]|[_ ?]]%register_lookup.
  - intros p. rewrite Hsum. pose proof (iv_once _ _ _ _ Hinv p). case_decide; lia.
  - intros p Hp. unfold record, taken. rewrite (iv_hist _ _ _ _ Hinv p) by done.
    unfold items. by rewrite (lookup_ge_None_2 (heap w) p), take_nil by done.
  - by eapply register_run.
  - intros p s f Hp Hes Ha. rewrite delivered_same by done.
    destruct (iv_end _ _ _ _ Hinv p s f Hp Hes Ha) as [Hcl ?]. split; [|done].
    assert (p ≠ q) by (intros ->; simpl in Hp; congruence). destruct Hcl as [(g & Hg & ?)|[Hn Hnd]].
    + left. exists g. split; [|done]. by destruct Hreg as [[-> ->]|(? & ? & _)]; simplify_eq.
    + right. split; [by intros [[_ ?]|[_ ?]]%register_lookup|]. intros g Hg.
      destruct Hreg as [[-> ->]|(? & -> & _ & -> & ->)]; [by eapply Hnd|done].
Qed.

(** ** Every step *)

Lemma open_stream_effect f w :
  ∃ s, heap (open_stream f w).1 = heap w ++ [s] ∧ sid s = StreamId f ∧ method s = FMethod f ∧
    recvItems s = [] ∧ endFrame s = None ∧ keeps w (open_stream f w).1 ∧
    mux (open_stream f w).1 = mux w ∧ rlog (open_stream f w).1 = rlog w.
Proof.
  unfold open_stream, alloc. pose proof (open_ctx_le (mctx (mux w)) (Headers f) (ctxs w)) as Hle.
  destruct (open_ctx _ _ _) as [[σ c] dc]. simpl in *. eexists. split_and!; try done. split; auto.
  simpl. etrans; [exact Hle|]. apply (WithCancel_le c).
Qed.

(** A client has read no message for a stream it is still opening. *)
Definition unheard w (l : Local) : Prop :=
  ∀ id, (∃ iw, l = Sized id iw) ∨ (∃ p, l = Fresh p id) → role ≠ InHandler → msgs id (rlog w) = [].

(** A goroutine goes on without allocating. *)
Definition moves ph (l l' : Local) : Prop :=
  is_loop l' = is_loop l ∧ phase_of l' ph = ph ∧ (∀ p, opens p l' ≤ opens p l) ∧
  (∀ p id, l' = Fresh p id → l = Fresh p id).

Lemma inv_quiet w h ph ls i l l' k w' :
  Inv w h ph ls → ls !! i = Some l → moves ph l l' → keeps w w' → rlog w' = rlog w →
  Forall2 flow_eq (heap w) (heap w') →
  Inv w' (record w w' h) ph (<[i:=l']> ls ++ replicate k Idle).
Proof.
  intros Hinv Hi (? & ? & ? & ?) Hk Hr HF. destruct (quiet_same w w' h HF). by eapply inv_user.
Qed.

Lemma set_stream_same w h p s s' :
  heap w !! p = Some s → sid s' = sid s → method s' = method s → sctx s' = sctx s → endFrame s' = endFrame s →
  recvItems s' = recvItems s ∨ (∃ f, recvItems s = f :: recvItems s') →
  let w' := set_stream p s' w in
  keeps w w' ∧ same_streams w w' ∧ ∀ q, delivered w' (record w w' h) q = delivered w h q.
Proof.
  intros Hp ? ? ? ? Hit w'. split_and!; [by apply keeps_same|by eapply same_streams_set|].
  intros q. assert (items w' q = if decide (q = p) then recvItems s' else items w q) as Hq.
  { unfold w'. by rewrite items_set_stream by done. }
  destruct (decide (q = p)) as [->|]; [|by apply delivered_same].
  assert (items w p = recvItems s) as Hs by (unfold items; by rewrite Hp).
  destruct Hit as [Hit|[f Hit]].
  - apply delivered_same. congruence.
  - apply (delivered_pop _ _ _ _ f). congruence.
Qed.

Lemma inv_stream w h ph ls i l l' k p s s' :
  Inv w h ph ls → ls !! i = Some l → moves ph l l' → heap w !! p = Some s →
  sid s' = sid s → method s' = method s → sctx s' = sctx s → endFrame s' = endFrame s →
  recvItems s' = recvItems s ∨ (∃ f, recvItems s = f :: recvItems s') →
  let w' := set_stream p s' w in
  Inv w' (record w w' h) ph (<[i:=l']> ls ++ replicate k Idle).
Proof.
  intros Hinv Hi (? & ? & ? & ?) Hp ? ? ? ? Hit w'.
  destruct (set_stream_same w h p s s') as (? & ? & ?); [done..|]. by eapply inv_user.
Qed.

Lemma returnCredit_same n s :
  let s' := (returnCredit_lock n s).1 in
  sid s' = sid s ∧ method s' = method s ∧ sctx s' = sctx s ∧ endFrame s' = endFrame s ∧
  recvItems s' = recvItems s.
Proof. unfold returnCredit_lock. cbn zeta. by destruct (_ <=? _). Qed.

Lemma inv_user_step w h ph ls i l l' k w' :
  Inv w h ph ls → ls !! i = Some l → is_loop l = false → unheard w l → ledger role P l w w' l' →
  Inv w' (record w w' h) ph (<[i:=l']> ls ++ replicate k Idle).
Proof.
  intros Hinv Hi Hnl Hun Hl. assert (moves ph l l) as Hm by (by destruct l).
  destruct Hl as [l w w' Hq|l w w' f Hk Hn Hh|p b s w Hp|p b s w w' Hq|f w w' ok Hk Hn Hh|f q w Hc
    |p s f q w Hp Hit|p n s w Hp|p d s w w' Hq|w|id w w' Hq|iw c id m w Hro|p id w|f w w' ok Hk Hn Hh
    | | | | | | | | | | | | | | |]; try done.
  - by destruct Hq; eapply inv_quiet.
  - eapply inv_quiet; try done. by apply heap_flow.
  - eapply inv_stream; try done. by left.
  - by destruct Hq; eapply inv_quiet.
  - eapply inv_quiet; try done. by apply heap_flow.
  - eapply inv_quiet; try done. split; try done. intros g Hg. left. simpl in Hg. rewrite Hc. by right.
  - eapply inv_stream; try done; try (unfold popRecv; by rewrite Hit).
    + by destruct (payload_len f <=? 0).
    + right. exists f. unfold popRecv. by rewrite Hit.
  - destruct (returnCredit_same n s) as (? & ? & ? & ? & ?). eapply inv_stream; try done; [|by left].
    by destruct ((returnCredit_lock n s).2 =? 0).
  - by destruct Hq; eapply inv_quiet.
  - eapply inv_quiet; try done. split; try done. intros g Hg. by left.
  - by destruct Hq; eapply inv_quiet.
  - apply (inv_alloc w h ph ls i (Sized id iw) (Fresh (length (heap w)) id) k _
      (newStream c id m iw (ctxs w)).2); try done.
    + left. split_and!; try done. apply Hun; [|done]. left. by exists iw.
    + split; try done; [apply (WithCancel_le c)|auto].
  - apply (inv_register w h ph ls i (Fresh p id) (Announcing id) k p id); try done; [by left|].
    intros Hro. apply Hun; [|done]. right. by exists p.
  - eapply inv_quiet; try done. by apply heap_flow.
Qed.

Lemma inv_loop_step w h ph ls i l' k w' :
  Inv w h ph ls → ls !! i = Some (Loop ph) → ledger role P (Loop ph) w w' l' →
  Inv w' (record w w' h) (phase_of l' ph) (<[i:=l']> ls ++ replicate k Idle).
Proof.
  intros Hinv Hi Hl. remember (Loop ph) as l eqn:El.
  assert (moves ph l l) as Hm by (by subst l).
  destruct Hl as [l w w' Hq|l w w' f Hk Hn Hh| | | | | | | | | | | | |f w w' ph' Hk Hn Hh Hw Hr Hph|f w w' Hq Hf
    |f p w w' Hq Hst Hd|f p s w Hp Ha|f p s w w' Hq Hp Ha|f p w w' Hq|f p w|f p w w' Hq Hst Ht|f p s w Hp Ht|f p w
    |f p w w' Hq Hst Hk|p d s w Hp|f w Hro Hk|f p w|f p s w Hp Hk]; simplify_eq; simpl.
  - by destruct Hq; eapply inv_quiet.
  - eapply inv_quiet; try done. by apply heap_flow.
  - by eapply inv_read.
  - eapply inv_skip; try done; [|by left]. destruct Hf as [Hf|Hf]; [left|by right].
    unfold light in Hf. by destruct (data f).
  - eapply inv_found; try done. by left.
  - by apply inv_enqueue.
  - destruct Hq as [Hk _ HF _ Hr]. destruct (quiet_same w w' h HF) as [Hs HD].
    apply (inv_leave w h (Deliver f p)); try done; [by left|].
    intros q t Hq Hal (g & [Hg|[?|?]]); try done. simplify_eq. destruct Ha as [? Ha]. congruence.
  - destruct Hq as [Hk _ HF _ Hr]. destruct (quiet_same w w' h HF) as [Hs HD].
    apply (inv_leave w h (Deliver f p)); try done; [right; by exists f, p|].
    intros q t Hq _ (g & [Hg|[?|?]]) (_ & _ & Hn); try done. simplify_eq. by eapply Hn.
  - apply (inv_removed w h (Refusing f p) ls i k f p); auto.
  - eapply inv_found; try done. right. split_and!; [done| |done].
    unfold ending, terminal, data in *. by destruct (FKind f).
  - by apply inv_ended.
  - apply (inv_removed w h (Closing f p) ls i k f p); auto.
  - eapply inv_skip; try done; [left; unfold data; by rewrite Hk|].
    destruct (Window f <=? 0); [by left|right; by eexists _, _].
  - destruct (set_stream_same w h p s (creditSend_lock d s)) as (? & ? & ?); [done..|by left|].
    apply (inv_leave w h (Crediting p d)); try done; [by left|].
    intros q t _ _ (g & [?|[?|?]]); done.
  - destruct (open_stream_effect f w) as (s & Hh & Hid & Hme & Hit & He & Hkp & Hm' & Hr).
    apply (inv_alloc w h (Routing f) ls i (Loop (Routing f)) (Loop (Opened f (length (heap w)))) k _ s);
      try done; [|by rewrite Hm']. right. exists f. by split_and!.
  - apply (inv_register w h (Opened f p) ls i (Loop (Opened f p)) (Loop Waiting) k p (StreamId f)); try done.
    + right. by exists f.
    + by destruct (iv_phase _ _ _ _ Hinv) as (_ & _ & -> & _).
  - by apply (inv_half w h ls i k f).
Qed.

(** Every step of a goroutine keeps the invariant, *)
Lemma delivery_step w h ph ls i l l' k w' :
  Inv w h ph ls → ls !! i = Some l → unheard w l → ledger role P l w w' l' →
  Inv w' (record w w' h) (phase_of l' ph) (<[i:=l']> ls ++ replicate k Idle).
Proof.
  intros Hinv Hi Hun Hl. pose proof (ledger_loop _ _ _ _ Hl) as Hlp.
  destruct (locals_step w h ph ls i l l' k) as (_ & _ & Hph); [done..|].
  destruct (is_loop l) eqn:E; [rewrite Hph in * by done; by apply inv_loop_step|].
  replace (phase_of l' ph) with ph by by destruct l'. by eapply inv_user_step.
Qed.

(** and so does what happens outside. *)
Lemma inv_outside w h ph ls w' : Inv w h ph ls → outside w w' → Inv w' (record w w' h) ph ls.
Proof.
  intros Hinv (σ & cn & Hσ & ->). pose proof (iv_loop _ _ _ _ Hinv) as Hl.
  assert (quiet w (w <| ctxs := σ |> <| conn := cn |>)) as Hq.
  { apply quiet_world; try done. split; try done. intros f. by left. }
  destruct Hq as [Hk _ HF _ Hr].
  pose proof (λ Hm, inv_quiet w h ph ls 0 (Loop ph) (Loop ph) 0 _ Hinv Hl Hm Hk Hr HF) as Hx.
  simpl in Hx. rewrite app_nil_r, list_insert_id in Hx by done. by apply Hx.
Qed.

(** ** Half-closed streams *)

(** What a step does to a stream, as far as a reader can tell. *)
Record stream_view w w' l p (s s' : Stream) : Prop := mk_stream_view {
  sv_sid : sid s' = sid s;
  sv_method : method s' = method s;
  sv_ctx : sctx s' = sctx s;
  sv_items : recvItems s' = recvItems s ∨ (∃ f, recvItems s = f :: recvItems s') ∨
    (∃ f, recvItems s' = recvItems s ++ [f]);
  sv_half : halfClosed s' = halfClosed s ∨
    (rlog w' = rlog w ∧ recvItems s' = recvItems s ∧ ∃ f, l = Loop (Closing f p) ∧ FKind f = KIND_HALF_CLOSE)
}.

Lemma view_same w w' l p s s' : flow_eq s s' → stream_view w w' l p s s'.
Proof. intros []. split; auto. Qed.

Lemma ledger_view l w w' l' p s s' :
  ledger role P l w w' l' → heap w !! p = Some s → heap w' !! p = Some s' → stream_view w w' l p s s'.
Proof.
  intros Hl Hs Hs'. assert (∀ s', s' = s → stream_view w w' l p s s') as Hid by (intros ? ->; by apply view_same).
  destruct Hl as [l w w' Hq|l w w' f Hk Hn Hh|q b t w Hp|q b t w w' Hq|f w w' ok Hk Hn Hh|f q w Hc
    |q t f r w Hp Hit|q n t w Hp|q d t w w' Hq|w|j w w' Hq|iw c j m w _|q j w|f w w' ok Hk Hn Hh
    |f w w' ph' Hk Hn Hh|f w w' Hq|f q w w' Hq|f q t w Hp|f q t w w' Hq|f q w w' Hq|f q w|f q w w' Hq
    |f q t w Hp|f q w|f q w w' Hq|q d t w Hp|f w|f q w|f q t w Hp Hk];
    try (destruct Hq as [_ _ HF _ _]; apply view_same; exact (Forall2_lookup_lr _ _ _ _ _ _ HF Hs Hs'));
    try (rewrite Hh in Hs'; simplify_eq; by apply Hid); try (simpl in Hs'; simplify_eq; by apply Hid);
    try (destruct (set_stream_cases _ _ _ _ _ _ Hp Hs') as [[-> ->]|[Hne Hx]]; simplify_eq; [|by apply Hid]).
  - split; auto.
  - split; unfold popRecv; rewrite Hit; simpl; eauto.
  - destruct (returnCredit_same n t) as (? & ? & ? & _ & ?). split; auto.
    left. unfold returnCredit_lock. simpl. by destruct (_ <=? _).
  - simpl in Hs'. rewrite lookup_app_l in Hs' by by eapply lookup_lt_Some. simplify_eq. by apply Hid.
  - split; simpl; eauto.
  - split; auto.
  - split; auto.
  - destruct (open_stream_effect f w) as (t & Hh & _). rewrite Hh in Hs'.
    rewrite lookup_app_l in Hs' by by eapply lookup_lt_Some. simplify_eq. by apply Hid.
  - split; simpl; auto. right. eauto.
Qed.

(** A new stream is open in both directions. *)
Lemma ledger_born l w w' l' p s' :
  ledger role P l w w' l' → heap w !! p = None → heap w' !! p = Some s' → halfClosed s' = false.
Proof.
  intros Hl Hs Hs'. assert (length (heap w') ≠ length (heap w)) as Hlen.
  { apply lookup_ge_None_1 in Hs. apply lookup_lt_Some in Hs'. lia. }
  destruct Hl as [l w w' Hq|l w w' f Hk Hn Hh|q b t w Hp|q b t w w' Hq|f w w' ok Hk Hn Hh|f q w Hc
    |q t f r w Hp Hit|q n t w Hp|q d t w w' Hq|w|j w w' Hq|iw c j m w _|q j w|f w w' ok Hk Hn Hh
    |f w w' ph' Hk Hn Hh|f w w' Hq|f q w w' Hq|f q t w Hp|f q t w w' Hq|f q w w' Hq|f q w|f q w w' Hq
    |f q t w Hp|f q w|f q w w' Hq|q d t w Hp|f w|f q w|f q t w Hp Hk]; try done;
    try (destruct Hq as [_ _ HF _ _]; by rewrite (Forall2_length _ _ _ HF) in Hlen);
    try (by rewrite Hh in Hlen); try (by simpl in Hlen; rewrite length_insert in Hlen).
  - simpl in Hs'. apply lookup_app_Some in Hs' as [?|[_ Hx]]; [congruence|].
    by apply list_lookup_singleton_Some in Hx as [_ <-].
  - unfold open_stream in *. destruct (open_ctx _ _ _) as [[σ c] dc]. simpl in *.
    apply lookup_app_Some in Hs' as [?|[_ Hx]]; [congruence|].
    by apply list_lookup_singleton_Some in Hx as [_ <-].
Qed.

Lemma ledger_logs l w w' l' :
  ledger role P l w w' l' → ctx_le (ctxs w) (ctxs w') ∧ ∃ ext, rlog w' = rlog w ++ ext.
Proof.
  destruct 1 as [? w w' Hq|? w w' f Hk| | ?? s w w' Hq| ? w w' ok Hk| | | | ? ? s w w' Hq| |? w w' Hq|iw c id m w| |f w w' ok Hk
    |f w w' ph Hk|f w w' Hq|f p w w' Hq| |f p s w w' Hq|f p w w' Hq| |f p w w' Hq| | |f p w w' Hq| |f w| |];
    try (split; [done|exists []; by rewrite app_nil_r]);
    try (destruct Hq as [[] _ _ _ Hr]; split; [done|exists []; by rewrite app_nil_r]);
    try (destruct Hk; split; [done|exists []; by rewrite app_nil_r]).
  - split; [apply (WithCancel_le c)|exists []; by rewrite app_nil_r].
  - destruct Hk. split; [done|]. eauto.
  - destruct (open_stream_effect f w) as (s & _ & _ & _ & _ & _ & [] & _ & ->).
    split; [done|exists []; by rewrite app_nil_r].
Qed.

(** A receiver that sees the other side half-closed got, or has in its backlog, what
    was written before the HALF_CLOSE. *)
Definition half_ok w h : Prop :=
  ∀ p s, heap w !! p = Some s → halfClosed s = true → ctx_Err (ctxs w) (sctx s) = None →
  ∃ l1 l2 l3 f post, rlog w = l1 ++ l2 ++ f :: l3 ∧ starts s l1 ∧ FKind f = KIND_HALF_CLOSE ∧
    StreamId f = sid s ∧ delivered w h p = msgs (sid s) l2 ++ post.

Lemma half_step w h ph ls i l l' w' :
  Inv w h ph ls → half_ok w h → ls !! i = Some l → ledger role P l w w' l' → half_ok w' (record w w' h).
Proof.
  intros Hinv Hok Hi Hl p s' Hp' Hh' Ha'. destruct (ledger_logs _ _ _ _ Hl) as [Hσ [ext Hext]].
  destruct (heap w !! p) as [s|] eqn:Hp; [|by rewrite (ledger_born _ _ _ _ _ _ Hl Hp Hp') in Hh'].
  destruct (ledger_view _ _ _ _ _ _ _ Hl Hp Hp') as [Hid Hm Hc Hit Hhf].
  assert (ctx_Err (ctxs w) (sctx s) = None) as Ha.
  { rewrite Hc in Ha'. apply eq_None_not_Some. intros Hx%(ctx_Err_mono _ _ _ Hσ). rewrite Ha' in Hx. by destruct Hx. }
  assert (∃ post, delivered w' (record w w' h) p = delivered w h p ++ post) as [more HD].
  { assert (items w p = recvItems s ∧ items w' p = recvItems s') as [H1 H2] by (unfold items; by rewrite Hp, Hp').
    rewrite <-H1, <-H2 in Hit. destruct Hit as [Hx|[[f Hx]|[f Hx]]].
    - exists []. by rewrite app_nil_r, delivered_same.
    - exists []. by rewrite app_nil_r, (delivered_pop _ _ _ _ f).
    - exists [f]. by apply delivered_push. }
  destruct Hhf as [Hhf|(Hr & Hitm & f & -> & Hk)].
  - destruct (Hok p s Hp) as (l1 & l2 & l3 & f & post & Hl3 & Hst & ? & ? & HD'); [congruence|done|].
    exists l1, l2, (l3 ++ ext), f, (post ++ more). rewrite Hid, HD, HD', Hext, Hl3, <-!app_assoc. simpl.
    split_and!; [done|by eapply starts_same|done..].
  - destruct (locals_step w h ph ls i _ _ 0 Hinv Hi (ledger_loop _ _ _ _ Hl)) as (_ & _ & Hlp).
    injection (Hlp eq_refl) as <-. destruct (run_before_end w h f p s ls Hinv Hp Ha) as (l1 & l2 & l3 & Hl3 & Hst & HD').
    destruct (iv_phase _ _ _ _ Hinv) as (_ & _ & t & ? & Hsid). simplify_eq.
    exists l1, l2, (l3 ++ ext), f, more. rewrite Hid, HD, HD', Hext, Hl3, <-!app_assoc. simpl.
    split_and!; [done|by eapply starts_same|done..].
Qed.

End delivery.
