(* ===== verification/Origin.v ===== *)
(** * Where frames come from

    The facts about stream ids that tie the two endpoints of a network together: a
    client gives every stream an id of its own (as long as the ids do not wrap
    around) and writes OPEN only for a stream it has registered; a server creates
    streams only for the OPEN frames it read and writes messages only for its
    streams.  So a client never reads a message for a stream that it is still
    opening. *)

From S2P Require Import Prelude Goroutine Track Status Context Conn Strconv Stream World StreamOps MuxOps Endpoint Alone Ledger Delivery.

Section origin.
Context {C : Type} `{!FrameConn C} `{!GrpcLib} (role : Role) (P : bytes → Prop).
Abbreviation W := (World C).
Implicit Types (w : W) (p : nat) (ls : list Local).

Definition same_id (id id' : Z) : Z := if decide (id = id') then 1 else 0.

(** Goroutines that hold an id without a stream. *)
Definition numbered (id : Z) (l : Local) : Z :=
  match l with Numbered j | Sized j _ => same_id id j | _ => 0 end.

(** How often an id was given out. *)
Definition uses (id : Z) w ls : Z := sum_by (λ s, same_id id (sid s)) (heap w) + sum_by (numbered id) ls.

Lemma same_id_sids id w w' :
  Forall2 flow_eq (heap w) (heap w') →
  sum_by (λ s, same_id id (sid s)) (heap w') = sum_by (λ s, same_id id (sid s)) (heap w).
Proof. induction 1 as [|s s' h h' [Hs _ _ _ _ _ _ _ _] _ IH]; simpl; [done|]. by rewrite Hs, IH. Qed.

Lemma same_id_set id p s s' w :
  heap w !! p = Some s → sid s' = sid s →
  sum_by (λ s, same_id id (sid s)) (heap (set_stream p s' w)) = sum_by (λ s, same_id id (sid s)) (heap w).
Proof.
  simpl. generalize (heap w). intros hp. revert p. induction hp as [|t hp IH]; intros [|p] Hp Hs; simplify_eq/=.
  - by rewrite Hs.
  - by rewrite IH.
Qed.

(** Ids are given out once each, by counting up. *)
Lemma uses_step id w ls i l l' k w' :
  ls !! i = Some l → ledger role P l w w' l' → role ≠ InHandler →
  let ls' := <[i:=l']> ls ++ replicate k Idle in
  (nextID (mux w') = nextID (mux w) ∧ uses id w' ls' = uses id w ls) ∨
  (l = Idle ∧ mux w' = (next_id (mux w)).1 ∧
   uses id w' ls' = uses id w ls + same_id id (next_id (mux w)).2).
Proof.
  intros Hi Hl Hro ls'. unfold uses.
  assert (sum_by (numbered id) ls' = sum_by (numbered id) ls - numbered id l + numbered id l') as ->.
  { apply (sum_by_local (numbered id) ls i l l' k Idle eq_refl Hi). }
  destruct Hl as [l w w' Hq|l w w' f Hk Hn Hh|p b s w Hp|p b s w w' Hq|f w w' ok Hk Hn Hh|f q w Hc
    |p s f q w Hp Hit|p n s w Hp|p d s w w' Hq|w|j w w' Hq|iw c j m w _|p j w|f w w' ok Hk Hn Hh
    |f w w' ph' Hk Hn Hh|f w w' Hq|f p w w' Hq|f p s w Hp|f p s w w' Hq|f p w w' Hq|f p w|f p w w' Hq
    |f p s w Hp|f p w|f p w w' Hq|p d s w Hp|f w|f p w|f p s w Hp]; try done;
    try match goal with H : quiet _ _ |- _ => destruct H as [_ Hn HF _ _]; left; split; [done|];
      rewrite (same_id_sids _ _ _ HF); simpl; lia end;
    try (left; split; [done|]; rewrite Hh; simpl; lia);
    try (left; split; [done|]; rewrite (same_id_set _ _ s) by done; simpl; lia);
    try (left; split; [done|]; simpl; lia).
  - left. split; [done|]. rewrite (same_id_set _ _ s) by (try done; unfold popRecv; by rewrite Hit).
    by destruct (payload_len f <=? 0); simpl; lia.
  - left. split; [done|]. rewrite (same_id_set _ _ s) by (try done; apply (returnCredit_same n s)).
    destruct ((returnCredit_lock n s).2 =? 0); simpl; lia.
  - right. split_and!; [done..|]. simpl. lia.
  - left. split; [done|]. simpl. rewrite sum_by_app. simpl. lia.
Qed.

(** ** What a step does to streams, to the wire and to the goroutine *)

Lemma set_stream_keeps p s s' w q t :
  heap w !! p = Some s → sid s' = sid s → heap w !! q = Some t →
  ∃ t', heap (set_stream p s' w) !! q = Some t' ∧ sid t' = sid t.
Proof.
  intros Hp Hs Hq. simpl. destruct (decide (p = q)) as [->|].
  - simplify_eq. exists s'. split; [|done]. apply list_lookup_insert_eq. by eapply lookup_lt_Some.
  - exists t. by rewrite list_lookup_insert_ne.
Qed.

(** Streams stay where they are, under their id. *)
Lemma ledger_heap l w w' l' p t :
  ledger role P l w w' l' → heap w !! p = Some t → ∃ t', heap w' !! p = Some t' ∧ sid t' = sid t.
Proof.
  intros Hl Ht.
  assert (∀ w', Forall2 flow_eq (heap w) (heap w') → ∃ t', heap w' !! p = Some t' ∧ sid t' = sid t) as HF'.
  { intros w1 HF. destruct (Forall2_lookup_l _ _ _ _ _ HF Ht) as (t' & ? & []). by exists t'. }
  destruct Hl as [l w w' Hq|l w w' f Hk Hn Hh|q b s w Hp|q b s w w' Hq|f w w' ok Hk Hn Hh|f q w Hc
    |q s f r w Hp Hit|q n s w Hp|q d s w w' Hq|w|j w w' Hq|iw c j m w _|q j w|f w w' ok Hk Hn Hh
    |f w w' ph' Hk Hn Hh|f w w' Hq|f q w w' Hq|f q s w Hp|f q s w w' Hq|f q w w' Hq|f q w|f q w w' Hq
    |f q s w Hp|f q w|f q w w' Hq|q d s w Hp|f w|f q w|f q s w Hp];
    try (by exists t); try (destruct Hq; by apply HF'); try (rewrite Hh; by exists t);
    try (by eapply set_stream_keeps).
  - eapply set_stream_keeps; [done| |done]. unfold popRecv. by rewrite Hit.
  - eapply set_stream_keeps; [done| |done]. apply (returnCredit_same n s).
  - exists t. split; [|done]. simpl. by apply lookup_app_l_Some.
  - destruct (open_stream_effect f w) as (s & -> & _). exists t. split; [|done]. by apply lookup_app_l_Some.
Qed.

(** A goroutine starts to open only the stream it allocates. *)
Lemma ledger_opens l w w' l' p :
  ledger role P l w w' l' → opens p l' ≤ opens p l ∨ p = length (heap w).
Proof.
  intros Hl. pose proof (opens_nonneg p l). destruct Hl; try (left; lia); try (simpl in *; left; lia).
  - left. by destruct (payload_len f <=? 0).
  - left. by destruct (_ =? 0).
  - simpl. case_decide; [by right|left; lia].
  - match goal with H : _ ∨ _ |- _ => destruct H as [->|[-> _]] end; left; simpl; lia.
  - left. by destruct (Window f <=? 0).
  - simpl. case_decide; [by right|left; lia].
Qed.

(** What is written is plain, what the goroutine held, or an OPEN it had to write. *)
Definition writes (l : Local) (f : Frame) : Prop :=
  plain f = true ∨ l = Sending f ∨ l = Announcing (StreamId f) ∧ FKind f = KIND_OPEN.

Lemma ledger_wlog l w w' l' :
  ledger role P l w w' l' → wlog w' = wlog w ∨ ∃ f, wlog w' = wlog w ++ [f] ∧ writes l f.
Proof.
  unfold writes. destruct 1; try (by left); try match goal with H : quiet _ _ |- _ => destruct H; by left end.
  - right. eauto.
  - destruct ok; [right|by left]. eauto.
  - destruct ok; [right|by left]. eauto 6.
  - left. unfold open_stream. by destruct (open_ctx _ _ _) as [[? ?] ?].
Qed.

(** A goroutine that comes to hold a frame took it from the control queue, or made it
    for a stream. *)
Lemma ledger_sending l w w' f :
  ledger role P l w w' (Sending f) →
  l = Sending f ∨ f ∈ ctrlCh (mux w) ∨
  (FKind f ≠ KIND_OPEN ∧ ∃ p s, heap w !! p = Some s ∧ sid s = StreamId f).
Proof.
  intros Hl. remember (Sending f) as l' eqn:El. destruct Hl; simplify_eq; auto.
  - right; right. split; [done|]. by exists p, s.
  - right; left. match goal with H : ctrlCh _ = _ |- _ => rewrite H end. left.
  - by destruct (payload_len _ <=? 0).
  - by destruct (_ =? 0).
  - right; right. split; [done|]. by exists p, s.
Qed.

Lemma ledger_announcing l w w' id :
  ledger role P l w w' (Announcing id) →
  l = Announcing id ∨ ∃ p, l = Fresh p id ∧ heap w' = heap w.
Proof.
  intros Hl. remember (Announcing id) as l' eqn:El. destruct Hl; simplify_eq; eauto.
  - by destruct (payload_len _ <=? 0).
  - by destruct (_ =? 0).
Qed.

Lemma ledger_ctrl l w w' l' f :
  ledger role P l w w' l' → f ∈ ctrlCh (mux w') → f ∈ ctrlCh (mux w) ∨ plain f = true.
Proof.
  destruct 1; try (by left); try match goal with H : quiet _ _ |- _ => destruct H as [[]]; by auto end;
    try match goal with H : keeps _ _ |- _ => destruct H; by auto end.
  - simpl. intros. left. match goal with H : ctrlCh _ = _ |- _ => rewrite H end. by right.
  - unfold open_stream. destruct (open_ctx _ _ _) as [[? ?] ?]. by left.
Qed.

(** ** Counting OPEN frames *)

Definition open_frame (id : Z) (f : Frame) : Z :=
  if decide (FKind f = KIND_OPEN) then same_id id (StreamId f) else 0.

(** Goroutines that will write an OPEN frame, and a loop that will serve one. *)
Definition opening (id : Z) (l : Local) : Z :=
  match l with Fresh _ j | Announcing j => same_id id j | _ => 0 end.
Definition answering (id : Z) (l : Local) : Z :=
  match l with Loop (Routing f) => open_frame id f | _ => 0 end.

Definition streams_of (id : Z) w : Z := sum_by (λ s, same_id id (sid s)) (heap w).

Lemma same_id_nonneg id j : 0 ≤ same_id id j.
Proof. unfold same_id. case_decide; lia. Qed.

(** One stream at most for the id: two with it are the same. *)
Lemma streams_of_one w p q s t :
  streams_of (sid t) w ≤ 1 → heap w !! p = Some s → heap w !! q = Some t → sid s = sid t → p = q.
Proof.
  intros Hone Hp Hq Hid. destruct (decide (p = q)) as [|Hne]; [done|exfalso].
  pose proof (sum_by_two (λ s', same_id (sid t) (sid s')) _ _ _ _ _ (λ y, same_id_nonneg _ _) Hne Hp Hq) as H2.
  simpl in H2. unfold same_id in H2 at 1 2. rewrite !decide_True in H2 by done. unfold streams_of in Hone. lia.
Qed.

Lemma open_frame_nonneg id f : 0 ≤ open_frame id f.
Proof. unfold open_frame. case_decide; [apply same_id_nonneg|lia]. Qed.

Lemma open_frame_plain id f : plain f = true → open_frame id f = 0.
Proof.
  unfold plain, open_frame. intros [_ Hf]%andb_true_iff. rewrite decide_False; [done|].
  intros Hk. by rewrite bool_decide_true in Hf.
Qed.

(** A client writes one OPEN frame at most for each of its streams. *)
Lemma opened_once_step id w ls i l l' k w' :
  ls !! i = Some l → ledger role P l w w' l' → role ≠ InHandler →
  (∀ f, l = Sending f → FKind f ≠ KIND_OPEN) →
  let ls' := <[i:=l']> ls ++ replicate k Idle in
  sum_by (open_frame id) (wlog w) + sum_by (opening id) ls ≤ streams_of id w →
  sum_by (open_frame id) (wlog w') + sum_by (opening id) ls' ≤ streams_of id w'.
Proof.
  intros Hi Hl Hro Hsend ls'. unfold streams_of.
  assert (sum_by (opening id) ls' = sum_by (opening id) ls - opening id l + opening id l') as ->.
  { apply (sum_by_local (opening id) ls i l l' k Idle eq_refl Hi). }
  destruct Hl as [l w w' Hq|l w w' f Hk Hn Hh Hw _ Hf|p b s w Hp|p b s w w' Hq|f w w' ok Hk Hn Hh Hw|f q w Hc
    |p s f q w Hp Hit|p n s w Hp|p d s w w' Hq|w|j w w' Hq|iw c j m w _|p j w|f w w' ok Hk Hn Hh Hw _ Hf
    |f w w' ph' Hk Hn Hh Hw|f w w' Hq|f p w w' Hq|f p s w Hp|f p s w w' Hq|f p w w' Hq|f p w|f p w w' Hq
    |f p s w Hp|f p w|f p w w' Hq|p d s w Hp|f w|f p w|f p s w Hp]; try done;
    try match goal with H : quiet _ _ |- _ => destruct H as [_ Hn HF Hw _];
      rewrite Hw, (same_id_sids _ _ _ HF); simpl; lia end;
    try (rewrite (same_id_set _ _ s) by done; simpl; lia);
    try (simpl; lia).
  - rewrite Hh, Hw, sum_by_app. simpl. rewrite (open_frame_plain _ f) by done. lia.
  - rewrite Hh, Hw. assert (open_frame id f = 0).
    { unfold open_frame. rewrite decide_False; [done|]. by apply Hsend. }
    destruct ok; rewrite ?sum_by_app; simpl; lia.
  - rewrite (same_id_set _ _ s) by (try done; unfold popRecv; by rewrite Hit).
    by destruct (payload_len f <=? 0); simpl; lia.
  - rewrite (same_id_set _ _ s) by (try done; apply (returnCredit_same n s)).
    destruct ((returnCredit_lock n s).2 =? 0); simpl; lia.
  - simpl. rewrite sum_by_app. simpl. lia.
  - rewrite Hh, Hw. pose proof (same_id_nonneg id (StreamId f)).
    assert (open_frame id f = same_id id (StreamId f)) by (unfold open_frame; by rewrite decide_True).
    destruct ok; rewrite ?sum_by_app; simpl; lia.
  - rewrite Hh, Hw. simpl. lia.
Qed.

(** A server has one stream at most for each OPEN frame it read. *)
Lemma served_once_step id w ls i l l' k w' :
  ls !! i = Some l → ledger role P l w w' l' → role = InHandler →
  let ls' := <[i:=l']> ls ++ replicate k Idle in
  streams_of id w + sum_by (answering id) ls ≤ sum_by (open_frame id) (rlog w) →
  streams_of id w' + sum_by (answering id) ls' ≤ sum_by (open_frame id) (rlog w').
Proof.
  intros Hi Hl Hro ls'. unfold streams_of.
  assert (sum_by (answering id) ls' = sum_by (answering id) ls - answering id l + answering id l') as ->.
  { apply (sum_by_local (answering id) ls i l l' k Idle eq_refl Hi). }
  pose proof (open_frame_nonneg id) as Hnn.
  destruct Hl as [l w w' Hq|l w w' f Hk Hn Hh Hw Hr _|p b s w Hp|p b s w w' Hq|f w w' ok Hk Hn Hh Hw Hr|f q w Hc
    |p s f q w Hp Hit|p n s w Hp|p d s w w' Hq|w|j w w' Hq|iw c j m w Hx|p j w|f w w' ok Hk Hn Hh Hw Hr _
    |f w w' ph' Hk Hn Hh Hw Hr Hph|f w w' Hq|f p w w' Hq|f p s w Hp|f p s w w' Hq|f p w w' Hq|f p w|f p w w' Hq
    |f p s w Hp|f p w|f p w w' Hq|p d s w Hp|f w Hx Hk|f p w|f p s w Hp]; try done;
    try specialize (Hnn f);
    try match goal with H : quiet _ _ |- _ => destruct H as [_ Hn HF _ Hr];
      rewrite Hr, (same_id_sids _ _ _ HF); try destruct (Window f <=? 0); simpl; lia end;
    try (rewrite (same_id_set _ _ s) by done; simpl; lia);
    try (rewrite Hh, Hr; simpl; lia);
    try (simpl; lia).
  - rewrite (same_id_set _ _ s) by (try done; unfold popRecv; by rewrite Hit).
    by destruct (payload_len f <=? 0); simpl; lia.
  - rewrite (same_id_set _ _ s) by (try done; apply (returnCredit_same n s)).
    destruct ((returnCredit_lock n s).2 =? 0); simpl; lia.
  - rewrite Hh, Hr, sum_by_app. destruct Hph as [->|[-> _]]; simpl; lia.
  - destruct (open_stream_effect f w) as (s & -> & Hid & _ & _ & _ & _ & _ & ->).
    rewrite sum_by_app. simpl. rewrite Hid.
    assert (open_frame id f = same_id id (StreamId f)) by (unfold open_frame; by rewrite decide_True). lia.
Qed.

(** ** Clients *)

(** A stream with this id exists, and nobody is still opening it. *)
Definition told w ls (id : Z) : Prop :=
  ∃ p s, heap w !! p = Some s ∧ sid s = id ∧ sum_by (opens p) ls ≤ 0.

Record ids w ls : Prop := mk_ids {
  id_next : 0 ≤ nextID (mux w) < 2^32;
  id_used id : 0 < uses id w ls → id < nextID (mux w);
  id_once id : uses id w ls ≤ 1;
  id_wrote f : f ∈ wlog w → FKind f = KIND_OPEN → told w ls (StreamId f);
  id_announced id : Announcing id ∈ ls → told w ls id;
  id_sending f : Sending f ∈ ls → FKind f ≠ KIND_OPEN;
  id_ctrl f : f ∈ ctrlCh (mux w) → plain f = true;
  id_opened id : sum_by (open_frame id) (wlog w) + sum_by (opening id) ls ≤ streams_of id w
}.

Lemma plain_not_open f : plain f = true → FKind f ≠ KIND_OPEN.
Proof. unfold plain. intros [_ Hf]%andb_true_iff Hk. by rewrite bool_decide_true in Hf. Qed.

Lemma told_step w ls i l l' k w' id :
  ls !! i = Some l → ledger role P l w w' l' → told w ls id →
  told w' (<[i:=l']> ls ++ replicate k Idle) id.
Proof.
  intros Hi Hl (p & s & Hp & Hid & Ho). destruct (ledger_heap _ _ _ _ _ _ Hl Hp) as (s' & Hp' & Hid').
  exists p, s'. split_and!; [done|congruence|].
  rewrite (sum_by_local (opens p) ls i l l' k Idle eq_refl Hi).
  destruct (ledger_opens _ _ _ _ p Hl) as [?| ->]; [lia|]. apply lookup_lt_Some in Hp. lia.
Qed.

Lemma next_id_up (m : Mux) :
  0 ≤ nextID m < 2^32 → nextID m ≤ nextID (next_id m).1 →
  (next_id m).2 = nextID m ∧ nextID (next_id m).1 = nextID m + 2 ∧ nextID m + 2 < 2^32.
Proof.
  unfold next_id. simpl. intros Hr Hup. assert (nextID m + 2 < 2^32).
  { destruct (Z.lt_ge_cases (nextID m + 2) (2^32)) as [|Hge]; [done|].
    unfold wrapu32 in Hup. rewrite <-(Z_mod_plus_full _ (-1)), Z.mod_small in Hup by lia. lia. }
  rewrite !wrapu32_id; unfold is_uint32; try lia; by split_and!; try lia; rewrite ?wrapu32_id; unfold is_uint32; lia.
Qed.

Lemma ids_step w h ph ls i l l' k w' :
  Inv role w h ph ls → ids w ls → ls !! i = Some l → ledger role P l w w' l' → role ≠ InHandler →
  nextID (mux w) ≤ nextID (mux w') → ids w' (<[i:=l']> ls ++ replicate k Idle).
Proof.
  intros Hinv Hids Hi Hl Hro Hup. pose proof (λ id, told_step w ls i l l' k w' id Hi Hl) as Htold.
  pose proof (λ id, uses_step id w ls i l l' k w' Hi Hl Hro) as Huse. destruct Hids.
  assert (∀ f, Sending f = l' → FKind f ≠ KIND_OPEN) as Hsend.
  { intros f <-. destruct (ledger_sending _ _ _ _ Hl) as [->|[?|[? _]]]; [|by apply plain_not_open, id_ctrl0|done].
    eapply id_sending0. by eapply list_elem_of_lookup_2. }
  split.
  - destruct (Huse 0) as [[-> _]|(_ & Hm & _)]; [done|]. rewrite Hm in *.
    destruct (next_id_up (mux w)); [done..|]. lia.
  - intros id. specialize (id_used0 id). specialize (id_once0 id).
    destruct (Huse id) as [[-> ->]|(_ & Hm & ->)]; [done|]. rewrite Hm in *.
    destruct (next_id_up (mux w)) as (Hn & Hn' & _); [done..|]. rewrite Hn, Hn'.
    unfold same_id. case_decide; lia.
  - intros id. specialize (id_used0 id). specialize (id_once0 id).
    destruct (Huse id) as [[_ ->]|(_ & Hm & ->)]; [done|]. rewrite Hm in *.
    destruct (next_id_up (mux w)) as (Hn & _); [done..|]. rewrite Hn.
    unfold same_id. case_decide; lia.
  - intros f Hf Hk. destruct (ledger_wlog _ _ _ _ Hl) as [Hw|(g & Hw & Hwr)]; rewrite Hw in Hf; [by auto|].
    apply elem_of_app in Hf as [Hf|Hf]; [by auto|]. apply list_elem_of_singleton in Hf as ->.
    apply Htold. destruct Hwr as [Hx|[->|[-> _]]].
    + by apply plain_not_open in Hx.
    + exfalso. by eapply id_sending0; [eapply list_elem_of_lookup_2|].
    + apply id_announced0. by eapply list_elem_of_lookup_2.
  - intros id [Hx|[Hx|?]]%elem_of_local; [by auto| |done].
    subst l'. destruct (ledger_announcing _ _ _ _ Hl) as [->|(p & -> & Hh)].
    { apply Htold, id_announced0. by eapply list_elem_of_lookup_2. }
    destruct (iv_fresh _ _ _ _ _ Hinv p id) as (_ & s & Hp & Hid); [by eapply list_elem_of_lookup_2|].
    exists p, s. rewrite Hh. split_and!; [done..|].
    rewrite (sum_by_local (opens p) ls i _ _ k Idle eq_refl Hi).
    simpl. rewrite decide_True by done. pose proof (iv_once _ _ _ _ _ Hinv p). lia.
  - intros f [?|[?|?]]%elem_of_local; [by auto|by apply Hsend|done].
  - intros f Hf. destruct (ledger_ctrl _ _ _ _ _ Hl Hf); auto.
  - intros id. eapply opened_once_step; [done..| |done]. intros f ->.
    eapply id_sending0. by eapply list_elem_of_lookup_2.
Qed.

(** ** Servers *)

(** A stream of a server was there, or comes from an OPEN frame. *)
Lemma ledger_heap_new l w w' l' p t' :
  ledger role P l w w' l' → role = InHandler → heap w' !! p = Some t' →
  (∃ t, heap w !! p = Some t ∧ sid t = sid t') ∨
  (∃ f, l = Loop (Routing f) ∧ FKind f = KIND_OPEN ∧ sid t' = StreamId f).
Proof.
  intros Hl Hro Ht'. destruct (heap w !! p) as [t|] eqn:Ht.
  { left. exists t. split; [done|]. destruct (ledger_heap _ _ _ _ _ _ Hl Ht) as (t1 & ? & ?). by simplify_eq. }
  assert (length (heap w') ≠ length (heap w)) as Hlen.
  { apply lookup_ge_None_1 in Ht. apply lookup_lt_Some in Ht'. lia. }
  destruct Hl as [l w w' Hq|l w w' f Hk Hn Hh|q b s w Hp|q b s w w' Hq|f w w' ok Hk Hn Hh|f q w Hc
    |q s f r w Hp Hit|q n s w Hp|q d s w w' Hq|w|j w w' Hq|iw c j m w Hrx|q j w|f w w' ok Hk Hn Hh
    |f w w' ph' Hk Hn Hh|f w w' Hq|f q w w' Hq|f q s w Hp|f q s w w' Hq|f q w w' Hq|f q w|f q w w' Hq
    |f q s w Hp|f q w|f q w w' Hq|q d s w Hp|f w Hrx Hk|f q w|f q s w Hp]; try done;
    try (destruct Hq as [_ _ HF _ _]; by rewrite (Forall2_length _ _ _ HF) in Hlen);
    try (by rewrite Hh in Hlen); try (by simpl in Hlen; rewrite length_insert in Hlen).
  right. exists f. split_and!; [done..|]. destruct (open_stream_effect f w) as (s & Hs & Hid & _).
  rewrite Hs in Ht'. apply lookup_app_Some in Ht' as [?|[_ Hx]]; [congruence|].
  apply list_lookup_singleton_Some in Hx as [_ <-]. done.
Qed.

Lemma ledger_rlog l w w' l' f : ledger role P l w w' l' → f ∈ rlog w → f ∈ rlog w'.
Proof.
  intros Hl Hf. destruct (ledger_logs role P _ _ _ _ Hl) as [_ [ext ->]]. rewrite elem_of_app. by left.
Qed.

Record origin w ls : Prop := mk_origin {
  og_heap p s : heap w !! p = Some s →
    ∃ o, o ∈ rlog w ∧ FKind o = KIND_OPEN ∧ StreamId o = sid s;
  og_wrote f : f ∈ wlog w → data f = true → ∃ p s, heap w !! p = Some s ∧ sid s = StreamId f;
  og_sending f : Sending f ∈ ls → data f = true → ∃ p s, heap w !! p = Some s ∧ sid s = StreamId f;
  og_ctrl f : f ∈ ctrlCh (mux w) → plain f = true;
  og_once id : streams_of id w + sum_by (answering id) ls ≤ sum_by (open_frame id) (rlog w)
}.

Lemma plain_not_data f : plain f = true → data f = false.
Proof. intros Hf%plain_light. unfold light in Hf. by destruct (data f). Qed.

Lemma origin_step w h ph ls i l l' k w' :
  Inv role w h ph ls → origin w ls → ls !! i = Some l → ledger role P l w w' l' → role = InHandler →
  origin w' (<[i:=l']> ls ++ replicate k Idle).
Proof.
  intros Hinv [Hheap Hwrote Hsend Hctrl Honce] Hi Hl Hro.
  assert (∀ id, (∃ p s, heap w !! p = Some s ∧ sid s = id) → ∃ p s, heap w' !! p = Some s ∧ sid s = id) as Hmono.
  { intros id (p & s & Hp & <-). destruct (ledger_heap _ _ _ _ _ _ Hl Hp) as (s' & ? & ?). by exists p, s'. }
  assert (l ∈ ls) as Hin by by eapply list_elem_of_lookup_2.
  split.
  - intros p s Hp. destruct (ledger_heap_new _ _ _ _ _ _ Hl Hro Hp) as [(t & Ht & <-)|(f & -> & Hk & ->)].
    + destruct (Hheap p t Ht) as (o & Ho & ? & ?). exists o. split_and!; [by eapply ledger_rlog|done..].
    + exists f. split_and!; [|done..]. eapply ledger_rlog; [done|].
      assert (ph = Routing f) as ->.
      { destruct (locals_step role w h ph ls i _ _ 0 Hinv Hi eq_refl) as (_ & _ & Hx). by injection (Hx eq_refl). }
      destruct (proj1 (last_Some _ _) (iv_phase _ _ _ _ _ Hinv)) as [l0 ->].
      apply elem_of_app. right. by left.
  - intros f Hf Hd. destruct (ledger_wlog _ _ _ _ Hl) as [Hw|(g & Hw & Hwr)]; rewrite Hw in Hf; [by auto|].
    apply elem_of_app in Hf as [Hf|Hf]; [by auto|]. apply list_elem_of_singleton in Hf as ->.
    destruct Hwr as [Hx|[->|[_ Hx]]]; [by rewrite plain_not_data in Hd| by auto|].
    unfold data in Hd. by rewrite Hx in Hd.
  - intros f [?|[Hx|?]]%elem_of_local Hd; [by auto| |done]. subst l'.
    destruct (ledger_sending _ _ _ _ Hl) as [->|[Hc|[_ ?]]]; [by auto| |by auto].
    apply Hctrl, plain_not_data in Hc. congruence.
  - intros f Hf. destruct (ledger_ctrl _ _ _ _ _ Hl Hf); auto.
  - intros id. by eapply served_once_step.
Qed.

End origin.

Section unheard.
Context {C : Type} `{!FrameConn C} `{!GrpcLib}.
Implicit Types (wc ws : World C).

(** A client has read no message for a stream that it is still opening: the server
    would have had to read its OPEN. *)
Lemma client_unheard wc h ph lc ws ls i l :
  Inv InCaller wc h ph lc → ids wc lc → origin ws ls → lc !! i = Some l →
  (∀ f, f ∈ rlog ws → f ∈ wlog wc) → (∀ f, f ∈ rlog wc → f ∈ wlog ws) → unheard InCaller wc l.
Proof.
  intros Hinv [_ _ Honce Hopen _ _ _ _] Horg Hi Hsc Hcs id Hl _.
  destruct (msgs id (rlog wc)) as [|f q] eqn:Em; [done|exfalso].
  assert (f ∈ msgs id (rlog wc)) as Hf by (rewrite Em; left).
  unfold msgs in Hf. apply list_elem_of_filter in Hf as [[Hd Hid] Hf].
  destruct (og_wrote _ _ Horg f (Hcs f Hf) Hd) as (p & s & Hp & Hs).
  destruct (og_heap _ _ Horg p s Hp) as (o & Ho & Hk & Hoid).
  destruct (Hopen o (Hsc o Ho) Hk) as (p' & s' & Hp' & Hid' & Hno). specialize (Honce id). unfold uses in Honce.
  assert (∀ x, 0 ≤ numbered id x) as Hnn.
  { intros []; simpl; unfold same_id; try case_decide; lia. }
  set (sids := λ s : Stream, same_id id (sid s)) in *.
  assert (∀ x, 0 ≤ sids x) as Hsn by (intros; unfold sids, same_id; case_decide; lia).
  assert (∀ x, sid x = id → sids x = 1) as H1.
  { intros x <-. unfold sids, same_id. by rewrite decide_True. }
  assert (sid s' = id) as Hs'id by congruence.
  pose proof (sum_by_nonneg (numbered id) lc (λ x _, Hnn x)).
  pose proof (sum_by_one sids _ _ _ Hsn Hp'). rewrite (H1 s' Hs'id) in *.
  destruct Hl as [[iw ->]|[q' ->]].
  - pose proof (sum_by_one (numbered id) _ _ _ Hnn Hi) as Hsum2. simpl in Hsum2.
    unfold same_id in Hsum2. rewrite decide_True in Hsum2 by done. lia.
  - destruct (iv_fresh _ _ _ _ _ Hinv q' id) as (_ & t & Ht & Htid); [by eapply list_elem_of_lookup_2|].
    pose proof (opens_pos q' _ _ _ Hi) as Hop. simpl in Hop. rewrite decide_True in Hop by done.
    assert (p' ≠ q') as Hne by (intros ->; lia).
    pose proof (sum_by_two sids _ _ _ _ _ Hsn Hne Hp' Ht). rewrite (H1 s' Hs'id), (H1 t Htid) in *. lia.
Qed.

End unheard.
