(* ===== verification/Credit.v ===== *)
(** * The accounts of flow control

    What an endpoint may send and what it gives back, in every interleaving of its
    goroutines: [Books] bounds the bytes it has written by the credit it was
    granted, and the credit it grants by the bytes its receivers took.  Both
    sides of the account are local to the endpoint; Window.v joins the accounts of
    the two ends of a network. *)

From S2P Require Import Prelude Goroutine Track Status Context Conn Strconv Stream World StreamOps MuxOps Endpoint Alone Ledger Delivery Origin.

(** ** Sums over the streams with an id *)

(** The sum of [g] over the streams of [hp] with this id; [g] is given the address. *)
Fixpoint total_of (id : Z) (g : nat → Z) (hp : list Stream) : Z :=
  match hp with
  | [] => 0
  | s :: hp => (if decide (sid s = id) then g 0%nat else 0) + total_of id (λ p, g (S p)) hp
  end.

(** Every stream is still there, under its id. *)
Definition extends (hp hp' : list Stream) : Prop :=
  ∀ p s, hp !! p = Some s → ∃ s', hp' !! p = Some s' ∧ sid s' = sid s.

Lemma total_nonneg id g hp : (∀ p, 0 ≤ g p) → 0 ≤ total_of id g hp.
Proof.
  revert g. induction hp as [|s hp IH]; intros g Hg; simpl; [lia|].
  specialize (IH (λ p, g (S p)) (λ p, Hg (S p))). specialize (Hg 0%nat). case_decide; lia.
Qed.

Lemma extends_cons s hp hp' :
  extends (s :: hp) hp' → ∃ s' hp1, hp' = s' :: hp1 ∧ sid s' = sid s ∧ extends hp hp1.
Proof.
  intros He. destruct (He 0%nat s eq_refl) as (s' & Hs' & Hid). destruct hp' as [|t hp1]; simplify_eq/=.
  exists s', hp1. split_and!; [done..|]. intros p. apply (He (S p)).
Qed.

Lemma total_of_mono id g g' hp hp' :
  extends hp hp' → (∀ p, 0 ≤ g' p) → (∀ p, g p ≤ g' p) → total_of id g hp ≤ total_of id g' hp'.
Proof.
  revert g g' hp'. induction hp as [|s hp IH]; intros g g' hp' He H0 Hle; simpl; [by apply total_nonneg|].
  destruct (extends_cons _ _ _ He) as (s' & hp1 & -> & Hid & He'). simpl. rewrite Hid.
  specialize (IH (λ p, g (S p)) (λ p, g' (S p)) hp1 He' (λ p, H0 (S p)) (λ p, Hle (S p))).
  specialize (Hle 0%nat). case_decide; lia.
Qed.

Lemma total_gain id g g' hp hp' p s d :
  extends hp hp' → (∀ p, 0 ≤ g' p) → (∀ p, g p ≤ g' p) → hp !! p = Some s → sid s = id →
  g p + d ≤ g' p → total_of id g hp + d ≤ total_of id g' hp'.
Proof.
  revert g g' hp' p. induction hp as [|t hp IH]; intros g g' hp' p He H0 Hle Hp Hid Hd; simplify_eq/=.
  destruct (extends_cons _ _ _ He) as (t' & hp1 & -> & Ht & He'). simpl. rewrite Ht.
  destruct p as [|p]; simplify_eq/=.
  - pose proof (total_of_mono (sid s) (λ p, g (S p)) (λ p, g' (S p)) _ _ He' (λ p, H0 (S p)) (λ p, Hle (S p))).
    rewrite !decide_True by done. lia.
  - specialize (IH (λ p, g (S p)) (λ p, g' (S p)) hp1 p He' (λ p, H0 (S p)) (λ p, Hle (S p)) Hp eq_refl Hd).
    specialize (Hle 0%nat). case_decide; lia.
Qed.

Lemma total_none id g hp : (∀ t, t ∈ hp → sid t ≠ id) → total_of id g hp = 0.
Proof.
  revert g. induction hp as [|t hp IH]; intros g Hno; simpl; [done|].
  rewrite decide_False by (apply Hno; left). rewrite IH; [done|]. intros. apply Hno. by right.
Qed.

(** With one stream at most for the id, its value bounds the sum. *)
Lemma total_le id g hp B :
  sum_by (λ s, same_id id (sid s)) hp ≤ 1 → 0 ≤ B →
  (∀ p s, hp !! p = Some s → sid s = id → g p ≤ B) → total_of id g hp ≤ B.
Proof.
  revert g. induction hp as [|s hp IH]; intros g Hn HB Hg; simpl in *; [done|].
  unfold same_id at 1 in Hn. destruct (decide (sid s = id)) as [<-|Hne].
  - rewrite decide_True in Hn by done.
    assert (total_of (sid s) (λ p, g (S p)) hp = 0) as ->.
    { apply total_none. intros t [p Hp]%list_elem_of_lookup Ht.
      pose proof (sum_by_one (λ s', same_id (sid s) (sid s')) hp p t (λ y, same_id_nonneg _ _) Hp) as H1.
      simpl in H1. unfold same_id at 1 in H1. rewrite decide_True in H1 by done. lia. }
    specialize (Hg 0%nat s eq_refl eq_refl). lia.
  - rewrite decide_False in Hn by done. rewrite (IH (λ p, g (S p))); [done|lia|done|].
    intros p t. apply (Hg (S p)).
Qed.

(** ** The entries of the accounts *)

(** The bytes and the credit a frame carries for stream [id]. *)
Definition carried (id : Z) (f : Frame) : Z :=
  if decide (data f = true ∧ StreamId f = id) then payload_len f else 0.
Definition credit (id : Z) (f : Frame) : Z :=
  if decide (FKind f = KIND_WINDOW_UPDATE ∧ StreamId f = id) then Z.max 0 (Window f) else 0.

(** The credit a stream has not given back yet. *)
Definition pending (id : Z) (s : Stream) : Z :=
  if decide (sid s = id) then Z.max 0 (pendingCredit s) else 0.

Lemma carried_nonneg id f : 0 ≤ carried id f.
Proof. unfold carried. pose proof (payload_len_nonneg f). case_decide; lia. Qed.
Lemma credit_nonneg id f : 0 ≤ credit id f.
Proof. unfold credit. case_decide; lia. Qed.
Lemma pending_nonneg id s : 0 ≤ pending id s.
Proof. unfold pending. case_decide; lia. Qed.

Lemma carried_msgs id l : sum_by (carried id) l = sum_by payload_len (msgs id l).
Proof.
  unfold msgs. induction l as [|f l IH]; simpl; [done|]. rewrite filter_cons. unfold carried at 1.
  case_decide; simpl; lia.
Qed.

Lemma carried_light id f : light f = true → carried id f = 0.
Proof.
  unfold light, carried. intros [Hd _]%andb_true_iff. rewrite decide_False; [done|].
  intros [Hx _]. by rewrite Hx in Hd.
Qed.

Lemma credit_light id f : light f = true → credit id f = 0.
Proof.
  unfold light, credit. intros [_ Hk]%andb_true_iff. rewrite decide_False; [done|].
  intros [Hx _]. by rewrite bool_decide_true in Hk.
Qed.

Lemma carried_credit id f : data f = true → credit id f = 0.
Proof.
  unfold credit, data. intros Hd. rewrite decide_False; [done|]. intros [Hx _]. by rewrite Hx in Hd.
Qed.

Lemma wrap64_le z : - 2^63 ≤ z → wrap64 z ≤ z.
Proof. unfold wrap64. intros. pose proof (Z.mod_le (z + 2^63) (2^64)). lia. Qed.

Lemma wrapu32_le z : 0 ≤ z → wrapu32 z ≤ z.
Proof. unfold wrapu32. intros. apply Z.mod_le; lia. Qed.

Section credit.
Context {C : Type} `{!FrameConn C} `{!GrpcLib} (role : Role) (P : bytes → Prop).
Abbreviation W := (World C).
Implicit Types (w : W) (p : nat) (ls : list Local) (h : nat → list Frame) (ph : Phase) (T : nat → Z).

Definition sid_of w p : option Z := sid <$> heap w !! p.

(** The stream a goroutine works for. *)
Definition names (l : Local) : option nat :=
  match l with Took p _ | Got p _ | Owes p _ => Some p | _ => None end.

(** The bytes it has credit for and has not written, *)
Definition held (id : Z) w (l : Local) : Z :=
  match l with
  | Took p b => if decide (sid_of w p = Some id) then len b else 0
  | Sending f => carried id f
  | _ => 0
  end.

(** the credit it gives back, *)
Definition owed (id : Z) w (l : Local) : Z :=
  match l with
  | Got p n | Owes p n => if decide (sid_of w p = Some id) then Z.max 0 n else 0
  | Sending f => credit id f
  | _ => 0
  end.

(** and the credit the read loop holds for the stream at [p]. *)
Definition coming ph p (id : Z) : Z :=
  match ph with
  | Routing f => credit id f
  | Crediting q d => if decide (q = p) then Z.max 0 d else 0
  | _ => 0
  end.

Lemma held_nonneg id w l : 0 ≤ held id w l.
Proof.
  destruct l; simpl; try done; [|apply carried_nonneg]. pose proof (len_nonneg b). case_decide; lia.
Qed.

Lemma owed_nonneg id w l : 0 ≤ owed id w l.
Proof. destruct l; simpl; try done; try apply credit_nonneg; case_decide; lia. Qed.

Lemma coming_nonneg ph p id : 0 ≤ coming ph p id.
Proof. destruct ph; simpl; try lia; [apply credit_nonneg|]. case_decide; lia. Qed.

(** ** What a step does to them *)

Definition named w (l : Local) : Prop := ∀ p, names l = Some p → is_Some (heap w !! p).

Lemma sid_of_step l w w' l' p :
  ledger role P l w w' l' → is_Some (heap w !! p) → sid_of w' p = sid_of w p.
Proof.
  intros Hl [s Hp]. destruct (ledger_heap role P _ _ _ _ _ _ Hl Hp) as (s' & Hp' & Hid).
  unfold sid_of. by rewrite Hp, Hp'; simpl; rewrite Hid.
Qed.

Lemma held_step id l w w' l' x : ledger role P l w w' l' → named w x → held id w' x = held id w x.
Proof.
  intros Hl Hx. destruct x; simpl; try done. by rewrite (sid_of_step _ _ _ _ _ Hl) by by apply Hx.
Qed.

Lemma owed_step id l w w' l' x : ledger role P l w w' l' → named w x → owed id w' x = owed id w x.
Proof.
  intros Hl Hx. destruct x; simpl; try done; by rewrite (sid_of_step _ _ _ _ _ Hl) by by apply Hx.
Qed.

Lemma named_step l w w' l' x :
  ledger role P l w w' l' → named w x → named w' x.
Proof.
  intros Hl Hx p Hp. destruct (Hx p Hp) as [s Hs].
  destruct (ledger_heap role P _ _ _ _ _ _ Hl Hs) as (s' & ? & _). eauto.
Qed.

Lemma named_next l w w' l' : ledger role P l w w' l' → named w l → named w' l'.
Proof.
  intros Hl Hn. pose proof (named_step _ _ _ _ l Hl Hn) as Hn'. intros p Hp.
  assert (names l = Some p ∨ is_Some (heap w !! p)) as [?|[s Hs]]; [|by auto|].
  { destruct Hl; simplify_eq/=; eauto.
    - by destruct (payload_len f <=? 0); simplify_eq/=; eauto.
    - by destruct (_ =? 0); simplify_eq/=; eauto. }
  destruct (ledger_heap role P _ _ _ _ _ _ Hl Hs) as (s' & ? & _). eauto.
Qed.

Lemma ledger_extends l w w' l' : ledger role P l w w' l' → extends (heap w) (heap w').
Proof. intros Hl p s Hp. by eapply ledger_heap. Qed.

(** What is written was paid for, except that a goroutine takes credit. *)
Lemma ledger_pays id l w w' l' :
  ledger role P l w w' l' → named w l → (∀ f, f ∈ ctrlCh (mux w) → plain f = true) →
  sum_by (carried id) (wlog w') + held id w' l' ≤ sum_by (carried id) (wlog w) + held id w l ∨
  ∃ p b s, l = Idle ∧ l' = Took p b ∧ heap w !! p = Some s ∧ 0 < sendWindow s ∧ P b ∧
    w' = set_stream p (send_take (len b) s) w.
Proof.
  intros Hl Hn Hct. pose proof (held_step id _ _ _ _ l Hl Hn) as Hst. pose proof (carried_nonneg id) as Hnn.
  destruct Hl as [l w w' Hq|l w w' f Hk Hx Hh Hw _ Hf|p b s w Hp Hpos|p b s w w' Hq Hp|f w w' ok Hk Hx Hh Hw _
    |f q w Hc|p s f q w Hp Hit|p n s w Hp|p d s w w' Hq|w|j w w' Hq|iw c j m w _|p j w
    |f w w' ok Hk Hx Hh Hw _ Hf|f w w' ph' Hk Hx Hh Hw|f w w' Hq|f p w w' Hq|f p s w Hp|f p s w w' Hq
    |f p w w' Hq|f p w|f p w w' Hq|f p s w Hp|f p w|f p w w' Hq|p d s w Hp|f w|f p w|f p s w Hp];
    try (left; destruct Hq as [_ _ _ Hw _]; rewrite Hw; simpl in *; lia);
    try (left; rewrite Hw; simpl in *; lia); try (left; simpl in *; lia).
  - left. rewrite Hw, Hst, sum_by_app. simpl. rewrite (carried_light _ f) by by apply plain_light. lia.
  - right. by exists p, b, s.
  - left. destruct Hq as [_ _ _ Hw _]. rewrite Hw. simpl. unfold sid_of. rewrite Hp. simpl.
    unfold carried. simpl. unfold payload_len. simpl. repeat case_decide; naive_solver lia.
  - left. rewrite Hw. destruct ok; rewrite ?sum_by_app; simpl; specialize (Hnn f); lia.
  - left. simpl. rewrite (carried_light _ f); [lia|]. apply plain_light, Hct. rewrite Hc. left.
  - left. by destruct (payload_len f <=? 0).
  - left. by destruct (_ =? 0).
  - left. destruct Hq as [_ _ _ Hw _]. rewrite Hw. simpl.
    assert (carried id (window_frame (sid s) d) = 0); [|lia].
    unfold carried. rewrite decide_False; [done|]. by intros [].
  - left. assert (carried id f = 0).
    { unfold carried, data. rewrite Hf, decide_False; [done|]. by intros []. }
    rewrite Hw. destruct ok; rewrite ?sum_by_app; simpl; lia.
  - left. unfold open_stream. destruct (open_ctx _ _ _) as [[? ?] ?]. simpl. lia.
Qed.

Lemma pending_flow id w w' :
  Forall2 flow_eq (heap w) (heap w') → sum_by (pending id) (heap w') = sum_by (pending id) (heap w).
Proof.
  induction 1 as [|s s' hp hp' [] _ IH]; simpl; [done|]. unfold pending at 1 3. by rewrite IH, fe_sid, fe_pending.
Qed.

Lemma pending_set id p s s' w :
  heap w !! p = Some s →
  sum_by (pending id) (heap (set_stream p s' w)) = sum_by (pending id) (heap w) - pending id s + pending id s'.
Proof. intros Hp. simpl. by apply sum_by_insert. Qed.

Lemma returnCredit_conserves id n s :
  - 2^63 ≤ pendingCredit s → 0 ≤ n → sid s = id →
  pending id (returnCredit_lock n s).1 + Z.max 0 (returnCredit_lock n s).2 ≤ pending id s + Z.max 0 n.
Proof.
  intros Hlo Hn <-. unfold pending, returnCredit_lock. simpl.
  pose proof (wrap64_le (pendingCredit s + n)). pose proof (wrapu32_range (wrap64 (pendingCredit s + n))).
  pose proof (wrapu32_le (wrap64 (pendingCredit s + n))).
  assert (1 ≤ credit_threshold (s <| pendingCredit ::= λ x, wrap64 (x + n) |>)).
  { unfold credit_threshold. simpl. case_match; lia. }
  unfold is_uint32 in *.
  destruct (Z.leb_spec (credit_threshold (s <| pendingCredit ::= λ x, wrap64 (x + n) |>))
    (wrap64 (pendingCredit s + n))); simpl; rewrite !decide_True by done; lia.
Qed.

(** Credit is given back for what was taken, except that a receiver takes a message. *)
Lemma ledger_refunds id l w w' l' :
  ledger role P l w w' l' → named w l → (∀ f, f ∈ ctrlCh (mux w) → plain f = true) →
  (∀ p s, heap w !! p = Some s → - 2^63 ≤ pendingCredit s) → (∀ p n, l = Got p n → 0 ≤ n) →
  sum_by (credit id) (wlog w') + sum_by (pending id) (heap w') + owed id w' l' ≤
    sum_by (credit id) (wlog w) + sum_by (pending id) (heap w) + owed id w l ∨
  ∃ p s f q, l = Idle ∧ heap w !! p = Some s ∧ recvItems s = f :: q ∧
    w' = set_stream p (popRecv s).1 w ∧
    l' = (if payload_len f <=? 0 then Idle else Got p (payload_len f)).
Proof.
  intros Hl Hn Hct Hlo Hgot. pose proof (owed_step id _ _ _ _ l Hl Hn) as Hst. pose proof (credit_nonneg id) as Hnn.
  destruct Hl as [l w w' Hq|l w w' f Hk Hx Hh Hw _ Hf|p b s w Hp Hpos|p b s w w' Hq Hp|f w w' ok Hk Hx Hh Hw _
    |f q w Hc|p s f q w Hp Hit|p n s w Hp|p d s w w' Hq Hp|w|j w w' Hq|iw c j m w _|p j w
    |f w w' ok Hk Hx Hh Hw _ Hf|f w w' ph' Hk Hx Hh Hw|f w w' Hq|f p w w' Hq|f p s w Hp|f p s w w' Hq
    |f p w w' Hq|f p w|f p w w' Hq|f p s w Hp|f p w|f p w w' Hq|p d s w Hp|f w|f p w|f p s w Hp];
    try (left; destruct Hq as [_ _ HF Hw _]; rewrite Hw, (pending_flow _ _ _ HF); simpl in *; lia);
    try (left; rewrite Hw, Hh; simpl in *; lia);
    try (left; rewrite (pending_set _ _ s) by done; simpl in *; unfold pending; simpl; lia);
    try (left; simpl in *; lia).
  - left. rewrite Hw, Hh, Hst, sum_by_app. simpl. rewrite (credit_light _ f) by by apply plain_light. lia.
  - left. destruct Hq as [_ _ HF Hw _]. rewrite Hw, (pending_flow _ _ _ HF). simpl. by rewrite carried_credit.
  - left. rewrite Hw, Hh. destruct ok; rewrite ?sum_by_app; simpl; specialize (Hnn f); lia.
  - left. simpl. rewrite (credit_light _ f); [lia|]. apply plain_light, Hct. rewrite Hc. left.
  - right. by exists p, s, f, q.
  - left. rewrite (pending_set _ _ s) by done. simpl. unfold sid_of in *. rewrite Hp. simpl.
    destruct (decide (sid s = id)) as [Hid|Hid].
    + pose proof (returnCredit_conserves id n s (Hlo p s Hp) (Hgot p n eq_refl) Hid).
      rewrite (decide_True (P:=Some (sid s) = Some id)) by congruence.
      destruct ((returnCredit_lock n s).2 =? 0) eqn:E; simpl; [lia|]. unfold sid_of. simpl.
      rewrite list_lookup_insert_eq by by eapply lookup_lt_Some. simpl.
      destruct (returnCredit_same n s) as (-> & _). rewrite decide_True by congruence. lia.
    + assert (pending id (returnCredit_lock n s).1 = 0 ∧ pending id s = 0) as [-> ->].
      { unfold pending. destruct (returnCredit_same n s) as (-> & _). by rewrite !decide_False. }
      rewrite decide_False by congruence.
      destruct (_ =? 0); simpl; [lia|]. unfold sid_of. simpl.
      rewrite list_lookup_insert_eq by by eapply lookup_lt_Some. simpl.
      destruct (returnCredit_same n s) as (-> & _). rewrite decide_False by congruence. lia.
  - left. destruct Hq as [_ _ HF Hw _]. rewrite Hw, (pending_flow _ _ _ HF). simpl.
    unfold sid_of in *. rewrite Hp. simpl. unfold credit. simpl. repeat case_decide; naive_solver lia.
  - left. simpl. rewrite sum_by_app. simpl. unfold pending at 2. simpl. case_decide; lia.
  - left. assert (credit id f = 0).
    { unfold credit. rewrite Hf, decide_False; [done|]. by intros []. }
    rewrite Hw, Hh. destruct ok; rewrite ?sum_by_app; simpl; lia.
  - left. unfold open_stream. destruct (open_ctx _ _ _) as [[? ?] ?]. simpl. rewrite sum_by_app. simpl.
    unfold pending at 2. simpl. case_decide; lia.
Qed.

(** ** Windows *)

Definition window_at w p : Z := match heap w !! p with Some s => sendWindow s | None => 0 end.

(** The bytes taken from the window of each stream so far. *)
Definition spend w w' T : nat → Z := λ p, T p + Z.max 0 (window_at w p - window_at w' p).

(** [recvBytes] counts the backlog. *)
Definition counted (s : Stream) : Prop := recvBytes s = wrap64 (sum_by payload_len (recvItems s)).

Lemma ledger_mux l w w' l' : ledger role P l w w' l' → muxWindow (mux w') = muxWindow (mux w).
Proof.
  destruct 1; try done; try match goal with H : quiet _ _ |- _ => destruct H as [[]]; congruence end;
    try match goal with H : keeps _ _ |- _ => destruct H; congruence end.
  unfold open_stream. by destruct (open_ctx _ _ _) as [[? ?] ?].
Qed.

Lemma heap_set_lookup p s t w q s' :
  heap (set_stream p t w) !! q = Some s' → heap w !! q = Some s → q ≠ p ∧ s' = s ∨ q = p ∧ s' = t.
Proof.
  simpl. intros Hs' Hs. destruct (decide (q = p)) as [->|].
  - right. rewrite list_lookup_insert_eq in Hs' by by eapply lookup_lt_Some. by simplify_eq.
  - left. rewrite list_lookup_insert_ne in Hs' by done. by simplify_eq.
Qed.

(** A window changes when credit is taken or when it comes back. *)
Definition window_moves w (l l' : Local) p (s s' : Stream) : Prop :=
  sendWindow s' = sendWindow s ∨
  (∃ b, l = Idle ∧ l' = Took p b ∧ 0 < sendWindow s ∧ P b ∧ sendWindow s' = wrap64 (sendWindow s - len b)) ∨
  (∃ d, l = Loop (Crediting p d) ∧ l' = Loop Waiting ∧ sendWindow s' = wrap64 (sendWindow s + d)).

Lemma ledger_streams l w w' l' p s s' :
  ledger role P l w w' l' → heap w !! p = Some s → heap w' !! p = Some s' →
  window_moves w l l' p s s' ∧ (- 2^63 ≤ pendingCredit s → - 2^63 ≤ pendingCredit s') ∧
  (counted s → counted s') ∧ maxRecvBytes s' = maxRecvBytes s.
Proof.
  intros Hl Hs Hs'. unfold window_moves.
  assert (∀ w', Forall2 flow_eq (heap w) (heap w') → heap w' !! p = Some s' →
    sendWindow s' = sendWindow s ∧ pendingCredit s' = pendingCredit s ∧
    (counted s → counted s') ∧ maxRecvBytes s' = maxRecvBytes s) as HF'.
  { intros w1 HF Hx. destruct (Forall2_lookup_lr _ _ _ _ _ _ HF Hs Hx). unfold counted. split_and!; congruence. }
  destruct Hl as [l w w' Hq|l w w' f Hk Hx Hh Hw _ Hf|q b t w Hp Hpos|q b t w w' Hq Hp|f w w' ok Hk Hx Hh Hw _
    |f q w Hc|q t f r w Hp Hit|q n t w Hp|q d t w w' Hq Hp|w|j w w' Hq|iw c j m w _|q j w
    |f w w' ok Hk Hx Hh Hw _ Hf|f w w' ph' Hk Hx Hh Hw|f w w' Hq|f q w w' Hq|f q t w Hp|f q t w w' Hq
    |f q w w' Hq|f q w|f q w w' Hq|f q t w Hp|f q w|f q w w' Hq|q d t w Hp|f w|f q w|f q t w Hp];
    try (destruct Hq as [_ _ HF _ _]; destruct (HF' _ HF Hs') as (-> & -> & ? & ?); by auto);
    try (rewrite Hh in Hs'; simplify_eq; by auto); try (simpl in Hs'; simplify_eq; by auto);
    try (destruct (heap_set_lookup _ _ _ _ _ _ Hs' Hs) as [[_ ->]|[-> ->]]; simplify_eq; [by auto|]; simpl).
  - split_and!; [eauto 10|done..].
  - unfold popRecv. rewrite Hit. split_and!; [by left|done| |done].
    unfold counted. simpl. rewrite Hit. simpl. intros ->. unfold Z.sub. rewrite wrap64_add_l. f_equal. lia.
  - unfold returnCredit_lock. simpl. destruct (_ <=? _); simpl; (split_and!; [by left| |done|done]); [lia|].
    pose proof (wrap64_range (pendingCredit t + n)). unfold is_int64 in *. lia.
  - simpl in Hs'. rewrite lookup_app_l in Hs' by by eapply lookup_lt_Some. simplify_eq. by auto.
  - split_and!; [by left|done| |done]. unfold counted. simpl. intros ->.
    rewrite wrap64_add_l, sum_by_app. simpl. f_equal. lia.
  - by auto.
  - split_and!; [eauto 10|done..].
  - destruct (open_stream_effect f w) as (t & Hh & _). rewrite Hh in Hs'.
    rewrite lookup_app_l in Hs' by by eapply lookup_lt_Some. simplify_eq. by auto.
  - by auto.
Qed.

(** A new stream has the window of the mux and owes nothing. *)
Lemma ledger_new l w w' l' p s' :
  ledger role P l w w' l' → heap w !! p = None → heap w' !! p = Some s' → 0 < muxWindow (mux w) →
  (∀ id iw, l = Sized id iw → iw = muxWindow (mux w)) →
  sendWindow s' = muxWindow (mux w) ∧ pendingCredit s' = 0 ∧ rlog w' = rlog w ∧
  counted s' ∧ maxRecvBytes s' = muxWindow (mux w) ∧
  (is_loop l' = false ∨ ∃ f, l' = Loop (Opened f p)).
Proof.
  intros Hl Hs Hs' Hpos Hiw. assert (length (heap w') ≠ length (heap w)) as Hlen.
  { apply lookup_ge_None_1 in Hs. apply lookup_lt_Some in Hs'. lia. }
  destruct Hl as [l w w' Hq|l w w' f Hk Hx Hh Hw _ Hf|q b t w Hp _|q b t w w' Hq Hp|f w w' ok Hk Hx Hh Hw _
    |f q w Hc|q t f r w Hp Hit|q n t w Hp|q d t w w' Hq Hp|w|j w w' Hq|iw c j m w _|q j w
    |f w w' ok Hk Hx Hh Hw _ Hf|f w w' ph' Hk Hx Hh Hw|f w w' Hq|f q w w' Hq|f q t w Hp|f q t w w' Hq
    |f q w w' Hq|f q w|f q w w' Hq|f q t w Hp|f q w|f q w w' Hq|q d t w Hp|f w|f q w|f q t w Hp]; try done;
    try (destruct Hq as [_ _ HF _ _]; by rewrite (Forall2_length _ _ _ HF) in Hlen);
    try (by rewrite Hh in Hlen); try (by simpl in Hlen; rewrite length_insert in Hlen).
  - rewrite <-(Hiw j iw eq_refl) in *. simpl in Hs'. apply lookup_app_Some in Hs' as [?|[_ Hx]]; [congruence|].
    apply list_lookup_singleton_Some in Hx as [_ <-]. simpl.
    destruct (Z.leb_spec iw 0); [lia|]. split_and!; [done..|by left].
  - unfold open_stream in *. destruct (open_ctx _ _ _) as [[σ c] dc]. simpl in *.
    apply lookup_app_Some in Hs' as [?|[Hge Hx]]; [congruence|].
    apply list_lookup_singleton_Some in Hx as [Hx <-]. simpl.
    destruct (Z.leb_spec (muxWindow (mux w)) 0); [lia|]. split_and!; [done..|].
    right. exists f. do 2 f_equal. lia.
Qed.

(** The credit the read loop holds was read, and goes to the stream it names. *)
Lemma ledger_coming id p l w w' l' ph :
  ledger role P l w w' l' → (is_loop l = true → l = Loop ph) →
  (∀ j, streams (mux w) !! j = Some p → j = id) →
  coming (phase_of l' ph) p id + sum_by (credit id) (rlog w) ≤ coming ph p id + sum_by (credit id) (rlog w').
Proof.
  intros Hl Hlp Hreg. pose proof (credit_nonneg id) as Hnn.
  destruct Hl as [l w w' Hq|l w w' f Hk Hx Hh Hw Hr Hf|q b t w Hp _|q b t w w' Hq Hp|f w w' ok Hk Hx Hh Hw Hr
    |f q w Hc|q t f r w Hp Hit|q n t w Hp|q d t w w' Hq Hp|w|j w w' Hq|iw c j m w _|q j w
    |f w w' ok Hk Hx Hh Hw Hr Hf|f w w' ph' Hk Hx Hh Hw Hr Hph|f w w' Hq|f q w w' Hq|f q t w Hp|f q t w w' Hq
    |f q w w' Hq|f q w|f q w w' Hq|f q t w Hp|f q w|f q w w' Hq Hst Hk|q d t w Hp|f w|f q w|f q t w Hp];
    try (injection (Hlp eq_refl) as <-); try specialize (Hnn f);
    try (destruct Hq as [_ _ _ _ Hr]); rewrite ?Hr; simpl; try lia.
  - destruct l; simpl; try lia. injection (Hlp eq_refl) as ->. lia.
  - destruct l; simpl; try lia. injection (Hlp eq_refl) as ->. lia.
  - by destruct (payload_len f <=? 0).
  - by destruct (_ =? 0).
  - rewrite sum_by_app. destruct Hph as [->|[-> _]]; simpl; lia.
  - destruct (Z.leb_spec (Window f) 0); simpl; [lia|]. case_decide as Hqp; [|lia]. subst q.
    assert (credit id f = Z.max 0 (Window f)) as ->; [|lia].
    unfold credit. by rewrite decide_True by by split; [|apply Hreg].
  - case_decide; lia.
  - destruct (open_stream_effect f w) as (s & _ & _ & _ & _ & _ & _ & _ & ->). lia.
Qed.

(** ** The invariant *)

(** [M] bounds the size of a message that is sent. *)
Context (M : Z).

Definition size_of (l : list Frame) : Z := sum_by payload_len l.

Record Books w h ph ls T : Prop := mk_Books {
  bk_named l : l ∈ ls → named w l;
  bk_got p n : Got p n ∈ ls → 0 ≤ n;
  bk_ctrl f : f ∈ ctrlCh (mux w) → plain f = true;
  bk_crediting p d : ph = Crediting p d → 0 < d ∧ is_Some (heap w !! p);
  bk_sized id iw : Sized id iw ∈ ls → iw = muxWindow (mux w);
  bk_mux : 0 < muxWindow (mux w);
  bk_pending p s : heap w !! p = Some s → - 2^63 ≤ pendingCredit s;
  bk_counted p s : heap w !! p = Some s → counted s ∧ maxRecvBytes s = muxWindow (mux w);
  bk_low p s : heap w !! p = Some s → 1 - M ≤ sendWindow s;
  bk_spent p : 0 ≤ T p;
  bk_unspent p : (length (heap w) ≤ p)%nat → T p = 0;
  (* what is left of the window and what was taken from it, against what was granted *)
  bk_window p s : heap w !! p = Some s →
    sendWindow s + T p + coming ph p (sid s) ≤ muxWindow (mux w) + sum_by (credit (sid s)) (rlog w);
  (* what was written, against what was taken *)
  bk_written id : sum_by (carried id) (wlog w) + sum_by (held id w) ls ≤ total_of id T (heap w);
  (* the credit given, against the messages receivers took *)
  bk_given id : sum_by (credit id) (wlog w) + sum_by (pending id) (heap w) + sum_by (owed id w) ls ≤
    total_of id (λ p, size_of (h p)) (heap w)
}.

Lemma size_nonneg l : 0 ≤ size_of l.
Proof. apply sum_by_nonneg. intros. apply payload_len_nonneg. Qed.

Lemma size_record w w' h p : size_of (h p) ≤ size_of (record w w' h p).
Proof. unfold record, size_of. rewrite sum_by_app. pose proof (size_nonneg (taken w w' p)). unfold size_of in *. lia. Qed.

(** The sum over the goroutines after a step of one. *)
Lemma sum_by_world (g : W → Local → Z) w w' ls i l l' k :
  (∀ w, g w Idle = 0) → (∀ x, x ∈ ls → g w' x = g w x) → ls !! i = Some l →
  sum_by (g w') (<[i:=l']> ls ++ replicate k Idle) = sum_by (g w) ls - g w l + g w' l'.
Proof.
  intros H0 Heq Hi. rewrite (sum_by_local (g w') ls i l l' k Idle (H0 w') Hi).
  rewrite (Heq l) by by eapply list_elem_of_lookup_2. f_equal. f_equal.
  clear -Heq. induction ls as [|x ls IH]; simpl; [done|]. rewrite Heq by left. rewrite IH; [done|].
  intros. apply Heq. by right.
Qed.

Context (HP : ∀ b, P b → len b ≤ M) (HM : 0 < M < 2^63).

Lemma books_streams w h ph ls T i l l' w' :
  Inv role w h ph ls → Books w h ph ls T → ls !! i = Some l → ledger role P l w w' l' →
  (∀ p s, heap w !! p = Some s → sendWindow s + coming ph p (sid s) < 2^63) →
  ∀ p s', heap w' !! p = Some s' →
    1 - M ≤ sendWindow s' ∧ - 2^63 ≤ pendingCredit s' ∧ (counted s' ∧ maxRecvBytes s' = muxWindow (mux w)) ∧
    sendWindow s' + spend w w' T p + coming (phase_of l' ph) p (sid s') ≤
      muxWindow (mux w) + sum_by (credit (sid s')) (rlog w').
Proof using HP HM.
  intros Hinv Hb Hi Hl Hcap p s' Hs'. assert (l ∈ ls) as Hin by by eapply list_elem_of_lookup_2.
  destruct (locals_step role w h ph ls i l l' 0 Hinv Hi (ledger_loop _ _ _ _ _ _ Hl)) as (_ & _ & Hlp).
  destruct (heap w !! p) as [s|] eqn:Hs.
  - destruct (ledger_streams _ _ _ _ _ _ _ Hl Hs Hs') as (Hmv & Hpd & Hct & Hmax).
    destruct (ledger_heap role P _ _ _ _ _ _ Hl Hs) as (s1 & ? & Hid). simplify_eq.
    pose proof (bk_window _ _ _ _ _ Hb p s Hs) as Hwin. pose proof (bk_low _ _ _ _ _ Hb p s Hs) as Hlow.
    specialize (Hcap p s Hs). rewrite Hid.
    assert (counted s' ∧ maxRecvBytes s' = muxWindow (mux w)) as Hcnt.
    { destruct (bk_counted _ _ _ _ _ Hb p s Hs). split; [by auto|congruence]. }
    assert (∀ j, streams (mux w) !! j = Some p → j = sid s) as Hreg.
    { intros j Hj. destruct (iv_reg _ _ _ _ _ Hinv j p Hj) as (t & ? & ?). by simplify_eq. }
    pose proof (ledger_coming (sid s) p _ _ _ _ ph Hl Hlp Hreg) as Hcm.
    unfold spend, window_at. rewrite Hs, Hs'.
    pose proof (coming_nonneg ph p (sid s)) as Hnn.
    destruct Hmv as [->|[(b & -> & -> & Hpos & Hb' & Hsw)|(d & -> & -> & Hsw)]].
    + split_and!; [done|by eapply Hpd, bk_pending|apply Hcnt..|lia].
    + apply HP in Hb'. pose proof (len_nonneg b). rewrite wrap64_id in Hsw by (unfold is_int64; lia).
      split_and!; [lia|by eapply Hpd, bk_pending|apply Hcnt..|lia].
    + injection (Hlp eq_refl) as <-. simpl in *. rewrite decide_True in * by done.
      assert (rlog w' = rlog w) as Hr.
      { remember (Loop (Crediting p d)) as lx eqn:Ex. remember (Loop Waiting) as ly eqn:Ey.
        destruct Hl; simplify_eq; done. }
      destruct (bk_crediting _ _ _ _ _ Hb p d eq_refl) as [Hd _]. rewrite Hr in *.
      rewrite wrap64_id in Hsw by (unfold is_int64; lia). split_and!; [lia|by eapply Hpd, bk_pending|apply Hcnt..|lia].
  - destruct (ledger_new _ _ _ _ _ _ Hl Hs Hs') as (Hsw & -> & Hr & Hcnt & Hmax & Hlp').
    { by eapply bk_mux. }
    { intros id iw ->. by eapply bk_sized. }
    pose proof (bk_mux _ _ _ _ _ Hb). apply lookup_ge_None in Hs as Hge.
    unfold spend, window_at. rewrite Hs, Hs', (bk_unspent _ _ _ _ _ Hb p Hge), Hr, Hsw.
    split_and!; [lia|lia|done|done|]. assert (coming (phase_of l' ph) p (sid s') ≤ sum_by (credit (sid s')) (rlog w)); [|lia].
    pose proof (sum_by_nonneg (credit (sid s')) (rlog w) (λ f _, credit_nonneg _ f)) as Hsum.
    destruct Hlp' as [Hno|[f ->]]; [|done]. replace (phase_of l' ph) with ph by by destruct l'.
    destruct ph as [|f| | | |q d|]; simpl; try done.
    + destruct (proj1 (last_Some _ _) (iv_phase _ _ _ _ _ Hinv)) as [l0 ->].
      rewrite sum_by_app in *. simpl. pose proof (sum_by_nonneg (credit (sid s')) l0 (λ f _, credit_nonneg _ f)). lia.
    + rewrite decide_False; [done|]. intros ->.
      destruct (bk_crediting _ _ _ _ _ Hb p d eq_refl) as [_ [? ?]]. congruence.
Qed.

(** What the goroutine that moved holds. *)
Lemma ledger_got l w w' p n : ledger role P l w w' (Got p n) → l = Got p n ∨ 0 ≤ n.
Proof.
  intros Hl. remember (Got p n) as l' eqn:El. destruct Hl; simplify_eq; auto.
  - destruct (payload_len f <=? 0); simplify_eq. right. apply payload_len_nonneg.
  - by destruct (_ =? 0).
Qed.

Lemma ledger_sized l w w' id iw :
  ledger role P l w w' (Sized id iw) → l = Sized id iw ∨ iw = muxWindow (mux w).
Proof.
  intros Hl. remember (Sized id iw) as l' eqn:El. destruct Hl; simplify_eq; auto.
  - by destruct (payload_len f <=? 0).
  - by destruct (_ =? 0).
Qed.

Lemma ledger_crediting l w w' p d :
  ledger role P l w w' (Loop (Crediting p d)) →
  l = Loop (Crediting p d) ∨ 0 < d ∧ ∃ j, streams (mux w) !! j = Some p.
Proof.
  intros Hl. remember (Loop (Crediting p d)) as l' eqn:El. destruct Hl; simplify_eq; auto.
  - by destruct (payload_len f <=? 0).
  - by destruct (_ =? 0).
  - match goal with H : _ ∨ _ |- _ => by destruct H as [?|[? _]] end.
  - destruct (Z.leb_spec (Window f) 0); simplify_eq. right. eauto.
Qed.

Lemma ledger_unspent l w w' l' p :
  ledger role P l w w' l' → (length (heap w') ≤ p)%nat → heap w !! p = None ∧ heap w' !! p = None.
Proof.
  intros Hl Hp. split; apply lookup_ge_None; [|done].
  destruct (decide (length (heap w) ≤ p)%nat); [done|].
  destruct (lookup_lt_is_Some_2 (heap w) p) as [s Hs]; [lia|].
  destruct (ledger_heap role P _ _ _ _ _ _ Hl Hs) as (s' & Hs' & _). apply lookup_lt_Some in Hs'. lia.
Qed.

Lemma spend_le w w' T p : T p ≤ spend w w' T p.
Proof. unfold spend. lia. Qed.

Lemma set_stream_at p s s' w : heap w !! p = Some s → heap (set_stream p s' w) !! p = Some s'.
Proof. intros Hp. simpl. apply list_lookup_insert_eq. by eapply lookup_lt_Some. Qed.

(** The two accounts. *)
Lemma written_step id w h ph ls T i l l' k w' :
  Books w h ph ls T → ls !! i = Some l → ledger role P l w w' l' →
  (∀ p s, heap w !! p = Some s → sendWindow s < 2^63) →
  sum_by (carried id) (wlog w') + sum_by (held id w') (<[i:=l']> ls ++ replicate k Idle) ≤
    total_of id (spend w w' T) (heap w').
Proof using HP HM.
  intros Hb Hi Hl Hcap. pose proof (bk_written _ _ _ _ _ Hb id) as Hwr.
  assert (named w l) as Hn by (eapply bk_named; [done|by eapply list_elem_of_lookup_2]).
  assert (∀ x, x ∈ ls → held id w' x = held id w x) as Heq.
  { intros x Hx. eapply held_step; [done|]. by eapply bk_named. }
  rewrite (sum_by_world (held id) w w' ls i l l' k (λ _, eq_refl) Heq Hi).
  pose proof (spend_le w w' T) as Hle. pose proof (bk_spent _ _ _ _ _ Hb) as H0.
  assert (∀ p, 0 ≤ spend w w' T p) as H0' by (intros p; specialize (Hle p); specialize (H0 p); lia).
  pose proof (total_of_mono id T (spend w w' T) _ _ (ledger_extends _ _ _ _ Hl) H0' Hle) as Hmono.
  destruct (ledger_pays id _ _ _ _ Hl Hn (bk_ctrl _ _ _ _ _ Hb)) as [?|(p & b & s & -> & -> & Hp & Hpos & Hpb & ->)];
    [lia|].
  apply HP in Hpb. pose proof (len_nonneg b) as Hnb. specialize (Hcap p s Hp).
  set (w' := set_stream p _ w) in *.
  assert (held id w' (Took p b) = if decide (sid s = id) then len b else 0) as ->.
  { simpl. unfold sid_of, w'. rewrite (set_stream_at _ s) by done. simpl. repeat case_decide; congruence. }
  destruct (decide (sid s = id)) as [Hid|Hid]; [|simpl in *; lia].
  pose proof (total_gain id T (spend w w' T) _ _ p s (len b) (ledger_extends _ _ _ _ Hl) H0' Hle Hp Hid) as Hg.
  assert (T p + len b ≤ spend w w' T p) as Hgain.
  { unfold spend, window_at, w'. rewrite (set_stream_at _ s), Hp by done. simpl.
    rewrite wrap64_id by (unfold is_int64; lia). lia. }
  specialize (Hg Hgain). simpl in *. lia.
Qed.

Lemma given_step id w h ph ls T i l l' k w' :
  Books w h ph ls T → ls !! i = Some l → ledger role P l w w' l' →
  sum_by (credit id) (wlog w') + sum_by (pending id) (heap w') +
    sum_by (owed id w') (<[i:=l']> ls ++ replicate k Idle) ≤
    total_of id (λ p, size_of (record w w' h p)) (heap w').
Proof.
  intros Hb Hi Hl. pose proof (bk_given _ _ _ _ _ Hb id) as Hgv.
  assert (l ∈ ls) as Hin by by eapply list_elem_of_lookup_2.
  assert (∀ x, x ∈ ls → owed id w' x = owed id w x) as Heq.
  { intros x Hx. eapply owed_step; [done|]. by eapply bk_named. }
  rewrite (sum_by_world (owed id) w w' ls i l l' k (λ _, eq_refl) Heq Hi).
  pose proof (λ p, size_record w w' h p) as Hle.
  assert (∀ p, 0 ≤ size_of (record w w' h p)) as H0 by (intros; apply size_nonneg).
  pose proof (total_of_mono id _ _ _ _ (ledger_extends _ _ _ _ Hl) H0 Hle) as Hmono.
  destruct (ledger_refunds id _ _ _ _ Hl (bk_named _ _ _ _ _ Hb l Hin) (bk_ctrl _ _ _ _ _ Hb)
    (bk_pending _ _ _ _ _ Hb)) as [?|(p & s & f & q & -> & Hp & Hit & -> & ->)].
  { intros p n ->. by eapply bk_got. }
  { lia. }
  rewrite (pending_set _ _ s) by done. pose proof (payload_len_nonneg f) as Hnf.
  assert (pending id (popRecv s).1 = pending id s ∧ sid (popRecv s).1 = sid s ∧ recvItems (popRecv s).1 = q)
    as (-> & Hsid & Hq) by (unfold popRecv; by rewrite Hit).
  set (w' := set_stream p _ w) in *.
  assert (owed id w' (if payload_len f <=? 0 then Idle else Got p (payload_len f)) ≤
    if decide (sid s = id) then payload_len f else 0) as Ho.
  { destruct (Z.leb_spec (payload_len f) 0); simpl; [case_decide; lia|].
    unfold sid_of, w'. rewrite (set_stream_at _ s) by done. simpl. rewrite Hsid.
    repeat case_decide; try lia; congruence. }
  destruct (decide (sid s = id)) as [Hid|Hid]; [|simpl in *; lia].
  pose proof (total_gain id _ _ _ _ p s (payload_len f) (ledger_extends _ _ _ _ Hl) H0 Hle Hp Hid) as Hg.
  simpl in Hg. assert (size_of (h p) + payload_len f ≤ size_of (record w w' h p)) as Hgain.
  { unfold record, taken, items, w'. rewrite Hp, (set_stream_at _ s) by done. rewrite Hq, Hit. simpl.
    replace (S (length q) - length q)%nat with 1%nat by lia. simpl. unfold size_of.
    rewrite sum_by_app. simpl. lia. }
  specialize (Hg Hgain). simpl in *. lia.
Qed.

Lemma books_step w h ph ls T i l l' k w' :
  Inv role w h ph ls → Books w h ph ls T → ls !! i = Some l → ledger role P l w w' l' →
  (∀ p s, heap w !! p = Some s → sendWindow s + coming ph p (sid s) < 2^63) →
  Books w' (record w w' h) (phase_of l' ph) (<[i:=l']> ls ++ replicate k Idle) (spend w w' T).
Proof using HP HM.
  intros Hinv Hb Hi Hl Hcap. pose proof (books_streams _ _ _ _ _ _ _ _ _ Hinv Hb Hi Hl Hcap) as Hst.
  pose proof (ledger_mux _ _ _ _ Hl) as Hm. assert (l ∈ ls) as Hin by by eapply list_elem_of_lookup_2.
  destruct (locals_step role w h ph ls i l l' 0 Hinv Hi (ledger_loop _ _ _ _ _ _ Hl)) as (_ & _ & Hlp).
  split; rewrite ?Hm.
  - intros x [Hx|[->| ->]]%elem_of_local; [| |by intros p].
    + eapply named_step; [done|]. by eapply bk_named.
    + eapply named_next; [done|]. by eapply bk_named.
  - intros p n [Hx|[<-|?]]%elem_of_local; [by eapply bk_got| |done].
    destruct (ledger_got _ _ _ _ _ Hl) as [->|?]; [by eapply bk_got|done].
  - intros f Hf. destruct (ledger_ctrl role P _ _ _ _ _ Hl Hf); [by eapply bk_ctrl|done].
  - intros p d Hph. assert (0 < d ∧ is_Some (heap w !! p)) as [Hd [s Hs]].
    { destruct l' as [| | | | | | | | |ph']; simpl in Hph; try (by eapply bk_crediting); subst ph'.
      destruct (ledger_crediting _ _ _ _ _ Hl) as [->|[? [j Hj]]].
      - injection (Hlp eq_refl) as <-. by eapply bk_crediting.
      - split; [done|]. destruct (iv_reg _ _ _ _ _ Hinv j p Hj) as (s & ? & _). eauto. }
    split; [done|]. destruct (ledger_heap role P _ _ _ _ _ _ Hl Hs) as (s' & ? & _). eauto.
  - intros id iw [Hx|[<-|?]]%elem_of_local; [by eapply bk_sized| |done].
    destruct (ledger_sized _ _ _ _ _ Hl) as [->|?]; [by eapply bk_sized|done].
  - by eapply bk_mux.
  - intros p s Hp. by destruct (Hst p s Hp) as (_ & ? & _ & _).
  - intros p s Hp. by destruct (Hst p s Hp) as (_ & _ & ? & _).
  - intros p s Hp. by destruct (Hst p s Hp) as (? & _ & _ & _).
  - intros p. pose proof (spend_le w w' T p). pose proof (bk_spent _ _ _ _ _ Hb p). lia.
  - intros p Hp. destruct (ledger_unspent _ _ _ _ _ Hl Hp) as [H1 H2]. unfold spend, window_at.
    rewrite H1, H2. apply lookup_ge_None in H1. rewrite (bk_unspent _ _ _ _ _ Hb p H1). lia.
  - intros p s Hp. by destruct (Hst p s Hp) as (_ & _ & _ & ?).
  - intros id. eapply written_step; [done..|]. intros p s Hp. specialize (Hcap p s Hp).
    pose proof (coming_nonneg ph p (sid s)). lia.
  - intros id. by eapply given_step.
Qed.

(** ** Taking turns *)

(** Credit is taken from a stream only when everything taken before was written. *)
Definition turns w w' T : Prop :=
  ∀ p s s', heap w !! p = Some s → heap w' !! p = Some s' → sendWindow s' < sendWindow s →
  T p ≤ sum_by (carried (sid s)) (wlog w).

(** The window and the credit an endpoint was granted for an id. *)
Definition granted (id : Z) w : Z := muxWindow (mux w) + sum_by (credit id) (rlog w).

Record Turns w ls : Prop := mk_Turns {
  tu_alone id i j l l' : ls !! i = Some l → ls !! j = Some l' → 0 < held id w l → 0 < held id w l' → i = j;
  tu_held id i l : ls !! i = Some l → 0 < held id w l → sum_by (carried id) (wlog w) < granted id w;
  (* what was written before a message is less than what was granted *)
  tu_ahead a f b : wlog w = a ++ f :: b → data f = true → 0 < payload_len f →
    sum_by (carried (StreamId f)) a < granted (StreamId f) w
}.

Lemma granted_step id l w w' l' : ledger role P l w w' l' → granted id w ≤ granted id w'.
Proof.
  intros Hl. unfold granted. rewrite (ledger_mux _ _ _ _ Hl).
  destruct (ledger_logs role P _ _ _ _ Hl) as [_ [ext ->]]. rewrite sum_by_app.
  pose proof (sum_by_nonneg (credit id) ext (λ f _, credit_nonneg id f)). lia.
Qed.

Lemma local_lookup {A} (ls : list A) i l l' k l0 j x :
  ls !! i = Some l → (<[i:=l']> ls ++ replicate k l0) !! j = Some x →
  j = i ∧ x = l' ∨ j ≠ i ∧ ls !! j = Some x ∨ j ≠ i ∧ x = l0.
Proof.
  intros Hi [Hj|[Hge Hj]]%lookup_app_Some.
  - apply list_lookup_insert_Some in Hj as [(-> & -> & _)|[? ?]]; auto.
  - right; right. apply lookup_replicate in Hj as [-> _]. split; [|done]. intros ->.
    rewrite length_insert in Hge. apply lookup_lt_Some in Hi. lia.
Qed.

(** A step that takes no credit. *)
Lemma turns_steady w h ph ls T i l l' k w' :
  Books w h ph ls T → Turns w ls → ls !! i = Some l → ledger role P l w w' l' →
  (∀ id, sum_by (carried id) (wlog w') + held id w' l' ≤ sum_by (carried id) (wlog w) + held id w l) →
  Turns w' (<[i:=l']> ls ++ replicate k Idle).
Proof.
  intros Hb Ht Hi Hl Hpay.
  assert (∀ id x j, ls !! j = Some x → held id w' x = held id w x) as Heq.
  { intros id x j Hx. eapply held_step; [done|]. eapply bk_named; [done|]. by eapply list_elem_of_lookup_2. }
  assert (wlog w' = wlog w ∨ ∃ f, wlog w' = wlog w ++ [f] ∧ ((∀ id, carried id f = 0) ∨ l = Sending f)) as Hw.
  { destruct (ledger_wlog role P _ _ _ _ Hl) as [?|(f & ? & [Hf|[?|[_ Hf]]])]; [by left|right; exists f; split; auto..].
    - left. intros id. by apply carried_light, plain_light.
    - left. intros id. unfold carried, data. rewrite Hf, decide_False; [done|]. by intros []. }
  assert (∀ id, held id w' l' ≤ held id w l) as Hle.
  { intros id. specialize (Hpay id). destruct Hw as [Hw|(f & Hw & _)]; rewrite Hw, ?sum_by_app in Hpay; [lia|].
    simpl in Hpay. pose proof (carried_nonneg id f). lia. }
  (* who holds something held it before *)
  assert (∀ id j x, (<[i:=l']> ls ++ replicate k Idle) !! j = Some x → 0 < held id w' x →
    ∃ y, ls !! j = Some y ∧ 0 < held id w y) as Hold.
  { intros id j x Hj Hpos. destruct (local_lookup _ _ _ _ _ _ _ _ Hi Hj) as [[-> ->]|[[_ Hx]|[_ ->]]]; [| |done].
    - exists l. split; [done|]. specialize (Hle id). lia.
    - exists x. split; [done|]. by rewrite <-(Heq id x j). }
  split.
  - intros id j1 j2 x y Hx Hy Hpx Hpy. destruct (Hold id _ _ Hx Hpx) as (x' & ? & ?).
    destruct (Hold id _ _ Hy Hpy) as (y' & ? & ?). by eapply tu_alone.
  - intros id j x Hx Hpx. destruct (Hold id _ _ Hx Hpx) as (y & Hy & Hpy).
    pose proof (tu_held _ _ Ht id j y Hy Hpy). pose proof (granted_step id _ _ _ _ Hl).
    destruct Hw as [->|(f & Hwf & Hf)]; [lia|]. rewrite Hwf, sum_by_app. simpl.
    assert (carried id f = 0) as ->; [|lia].
    pose proof (carried_nonneg id f). destruct (decide (carried id f = 0)) as [|Hne]; [done|].
    destruct Hf as [Hf| ->]; [by rewrite Hf in Hne|].
    assert (j = i) as ->. { eapply tu_alone; [done|exact Hy|exact Hi|done|]. simpl. lia. }
    specialize (Hpay id). rewrite Hwf, sum_by_app in Hpay. simpl in Hpay.
    destruct (local_lookup _ _ _ _ _ _ _ _ Hi Hx) as [[_ ->]|[[? _]|[? _]]]; [lia|done..].
  - intros a m b Hwl Hd Hpos. pose proof (granted_step (StreamId m) _ _ _ _ Hl).
    assert (carried (StreamId m) m = payload_len m) as Hcm by (unfold carried; by rewrite decide_True).
    destruct Hw as [Hw|(f & Hwf & Hf)].
    { rewrite Hw in Hwl. pose proof (tu_ahead _ _ Ht a m b Hwl Hd Hpos). lia. }
    rewrite Hwf in Hwl. destruct b as [|b0 b _] using rev_ind.
    + apply app_inj_tail in Hwl as [<- ->]. destruct Hf as [Hf| ->]; [rewrite Hf in Hcm; lia|].
      pose proof (tu_held _ _ Ht (StreamId m) i _ Hi) as Hx. simpl in Hx. lia.
    + rewrite app_comm_cons, app_assoc in Hwl. apply app_inj_tail in Hwl as [Hwl _].
      pose proof (tu_ahead _ _ Ht a m b Hwl Hd Hpos). lia.
Qed.

Lemma ledger_took w w' p b :
  ledger role P Idle w w' (Took p b) →
  ∃ s, heap w !! p = Some s ∧ 0 < sendWindow s ∧ P b ∧ w' = set_stream p (send_take (len b) s) w.
Proof.
  intros Hl. remember Idle as l eqn:E. remember (Took p b) as l' eqn:E'. destruct Hl; simplify_eq; eauto 6.
  by destruct (payload_len f <=? 0).
Qed.

(** A step that does. *)
Lemma turns_take w h ph ls T i k p b s :
  Inv role w h ph ls → Books w h ph ls T → Turns w ls → ls !! i = Some Idle →
  heap w !! p = Some s → 0 < sendWindow s < 2^63 → P b → streams_of (sid s) w ≤ 1 →
  let w' := set_stream p (send_take (len b) s) w in
  ledger role P Idle w w' (Took p b) → turns w w' T → Turns w' (<[i:=Took p b]> ls ++ replicate k Idle).
Proof using HP HM.
  intros Hinv Hb Ht Hi Hp Hsw Hpb Hone w' Hl Htu. apply HP in Hpb.
  assert (∀ id x j, ls !! j = Some x → held id w' x = held id w x) as Heq.
  { intros id x j Hx. eapply held_step; [done|]. eapply bk_named; [done|]. by eapply list_elem_of_lookup_2. }
  assert (heap w' !! p = Some (send_take (len b) s)) as Hp' by by apply (set_stream_at _ s).
  assert (∀ id, 0 < held id w' (Took p b) → id = sid s ∧ sum_by (carried id) (wlog w) < granted id w ∧
    ∀ j x, ls !! j = Some x → held id w' x ≤ 0) as Hnew.
  { simpl. unfold sid_of. rewrite Hp'. simpl. intros id. case_decide as Hid; [|lia]. injection Hid as <-.
    intros Hlen. pose proof (bk_written _ _ _ _ _ Hb (sid s)) as Hwr.
    assert (total_of (sid s) T (heap w) ≤ T p) as Htot.
    { apply total_le; [done|by eapply bk_spent|]. intros q t Hq Hid.
      by rewrite (streams_of_one _ _ _ _ _ Hone Hq Hp Hid). }
    assert (T p ≤ sum_by (carried (sid s)) (wlog w)) as HT.
    { apply (Htu p s (send_take (len b) s)); [done..|]. simpl. rewrite wrap64_id by (unfold is_int64; lia). lia. }
    pose proof (sum_by_nonneg (held (sid s) w) ls (λ x _, held_nonneg _ _ x)) as Hnn.
    split_and!; [done| |].
    - pose proof (bk_window _ _ _ _ _ Hb p s Hp) as Hwin. unfold granted.
      pose proof (coming_nonneg ph p (sid s)). lia.
    - intros j x Hx. rewrite (Heq (sid s) x j Hx).
      pose proof (sum_by_one (held (sid s) w) ls j x (held_nonneg _ _) Hx). lia. }
  split.
  - intros id j1 j2 x y Hx Hy Hpx Hpy.
    destruct (local_lookup _ _ _ _ _ _ _ _ Hi Hx) as [[-> ->]|[[_ Hx']|[_ ->]]]; [| |done];
      (destruct (local_lookup _ _ _ _ _ _ _ _ Hi Hy) as [[-> ->]|[[_ Hy']|[_ ->]]]; [| |done]); try done.
    + destruct (Hnew id Hpx) as (_ & _ & Hno). specialize (Hno _ _ Hy'). lia.
    + destruct (Hnew id Hpy) as (_ & _ & Hno). specialize (Hno _ _ Hx'). lia.
    + rewrite (Heq id _ _ Hx') in Hpx. rewrite (Heq id _ _ Hy') in Hpy. by eapply (tu_alone _ _ Ht id).
  - intros id j x Hx Hpx.
    destruct (local_lookup _ _ _ _ _ _ _ _ Hi Hx) as [[-> ->]|[[_ Hx']|[_ ->]]]; [| |done].
    + by destruct (Hnew id Hpx) as (_ & ? & _).
    + rewrite (Heq id _ _ Hx') in Hpx. by eapply (tu_held _ _ Ht id).
  - apply (tu_ahead _ _ Ht).
Qed.

Lemma turns_step w h ph ls T i l l' k w' :
  Inv role w h ph ls → Books w h ph ls T → Turns w ls → ls !! i = Some l → ledger role P l w w' l' →
  (∀ p s, heap w !! p = Some s → sendWindow s < 2^63) → (∀ id, streams_of id w ≤ 1) → turns w w' T →
  Turns w' (<[i:=l']> ls ++ replicate k Idle).
Proof using HP HM.
  intros Hinv Hb Ht Hi Hl Hcap Hone Htu.
  assert (named w l) as Hn by (eapply bk_named; [done|by eapply list_elem_of_lookup_2]).
  assert ((∃ p b, l = Idle ∧ l' = Took p b) ∨ ¬ ∃ p b, l = Idle ∧ l' = Took p b) as [(p & b & -> & ->)|Hno].
  { destruct l, l'; try (right; by intros (? & ? & ? & ?)). left. eauto. }
  - destruct (ledger_took _ _ _ _ Hl) as (s & Hp & Hpos & Hpb & ->). eapply turns_take; eauto.
  - eapply turns_steady; [done..|]. intros id.
    destruct (ledger_pays id _ _ _ _ Hl Hn (bk_ctrl _ _ _ _ _ Hb)) as [?|(p & b & s & -> & -> & _)]; [done|].
    destruct Hno. eauto.
Qed.

End credit.
