(* ===== verification/Messages.v ===== *)
(** * Messages across the network

    Delivery.v for a client and a server joined by a pipe: in every interleaving of
    all their goroutines, what a receiver took from a stream and what waits in
    its backlog are the messages the other side wrote for that stream, from its
    opening on, in order and without a gap. *)

From S2P Require Import Prelude Goroutine Track Status Context Conn Strconv Stream World StreamOps MuxOps Endpoint Admission Alone Ledger Routing Lifecycle Options Server Dispatch Metadata Registrar Client Dial Net Delivery Origin.
Import Pipe.

Section messages.
Context `{!GrpcLib}.
Abbreviation W := (World pipeConn).
Implicit Types (w : W) (n : Net) (hc hs : nat → list Frame).

(** A run with the messages taken from each stream of the client and of the server. *)
Record Trace := mkTrace { net : Net; client_took : nat → list Frame; server_took : nat → list Frame }.

(** A step of the network, as long as the stream ids of the client do not wrap around. *)
Inductive trace_step (t : Trace) : Trace → Prop :=
| trace_step_net n' :
    net_step (net t) n' →
    nextID (mux (world (client (net t)))) ≤ nextID (mux (world (client n'))) →
    trace_step t (mkTrace n'
      (record (world (client (net t))) (world (client n')) (client_took t))
      (record (world (server (net t))) (world (server n')) (server_took t))).

(** What the receivers of an endpoint got, compared with the frames [wr] that the
    other side wrote. *)
Definition in_order (role : Role) (wr : list Frame) w (h : nat → list Frame) : Prop :=
  ∀ p s, heap w !! p = Some s →
  (∃ l1 l2 post, wr = l1 ++ l2 ∧ starts role s l1 ∧ msgs (sid s) l2 = (h p ++ recvItems s) ++ post) ∧
  (∀ f, endFrame s = Some f → ctx_Err (ctxs w) (sctx s) = None →
    ∃ l1 l2 l3, wr = l1 ++ l2 ++ f :: l3 ∧ starts role s l1 ∧ h p ++ recvItems s = msgs (sid s) l2) ∧
  (halfClosed s = true → ctx_Err (ctxs w) (sctx s) = None →
    ∃ l1 l2 l3 f post, wr = l1 ++ l2 ++ f :: l3 ∧ starts role s l1 ∧ FKind f = KIND_HALF_CLOSE ∧
      StreamId f = sid s ∧ h p ++ recvItems s = msgs (sid s) l2 ++ post).

(** ** The invariant of the network

    [P] is what the payloads that are sent satisfy. *)
Context (P : bytes → Prop).

Record endpoint (role : Role) (k : Config W) (h : nat → list Frame) (ph : Phase) (ls : list Local) : Prop :=
  mk_endpoint {
    ep_pool : pool_tracked Idle (ledger role P) (λ _ _ _, True) (λ _, True) k ls;
    ep_inv : Inv role (world k) h ph ls;
    ep_half : half_ok role (world k) h
  }.

(** The network, with what its goroutines hold. *)
Record linked (t : Trace) (phc : Phase) (lc : list Local) (phs : Phase) (ls : list Local) : Prop := mk_linked {
  lk_net : net_inv (net t);
  lk_client : endpoint InCaller (client (net t)) (client_took t) phc lc;
  lk_ids : ids (world (client (net t))) lc;
  lk_server : endpoint InHandler (server (net t)) (server_took t) phs ls;
  lk_origin : origin (world (server (net t))) ls
}.

(** What a step of the network is for each endpoint. *)
Definition moved (k k' : Config W) : Prop :=
  pool_step k k' ∨ (threads k' = threads k ∧ outside (world k) (world k')).

Lemma moved_same (k : Config W) : moved k k.
Proof. right. split; [done|]. destruct k as [[] ts]. eexists _, _. by split. Qed.

Lemma moved_time (k k' : Config W) : time_passes k k' → moved k k'.
Proof.
  intros (σ & Hσ & ->). right. split; [done|]. destruct k as [[] ts]. eexists σ, _. by split.
Qed.

Lemma moved_sees cn (k : Config W) : moved k (sees cn k).
Proof. right. split; [done|]. destruct k as [[] ts]. eexists _, (peer cn). by split. Qed.

Lemma net_step_moved n n' :
  net_step n n' → moved (client n) (client n') ∧ moved (server n) (server n').
Proof.
  intros []; simpl; split; auto using moved_same, moved_time, moved_sees; by left.
Qed.

(** One goroutine moves, or none. *)
Definition advance (role : Role) w w' (ph : Phase) (ls : list Local) (ph' : Phase) (ls' : list Local) : Prop :=
  ∃ i l l' m, ls !! i = Some l ∧ ledger role P l w w' l' ∧ ph' = phase_of l' ph ∧
    ls' = <[i:=l']> ls ++ replicate m Idle.

Lemma outside_quiet w w' : outside w w' → quiet w w'.
Proof.
  intros (σ & cn & Hσ & ->). apply quiet_world; try done. split; try done. intros f. by left.
Qed.

Lemma endpoint_moved role k k' h ph ls :
  endpoint role k h ph ls → moved k k' →
  (∀ i l, ls !! i = Some l → unheard role (world k) l) →
  ∃ ph' ls', advance role (world k) (world k') ph ls ph' ls' ∧
    endpoint role k' (record (world k) (world k') h) ph' ls'.
Proof.
  intros [Hp Hi Hf] [Hk|[Hth Ho]] Hun.
  - destruct (pool_tracked_step Idle (ledger role P) (λ _ _ _, True) (λ _, True) (ledger_refl role P) k k' ls Hp Hk)
      as (i & l & l' & m & Hl & HR & Hp').
    exists (phase_of l' ph), (<[i:=l']> ls ++ replicate m Idle). split; [by exists i, l, l', m|].
    split; [done|eapply delivery_step; eauto|by eapply half_step].
  - pose proof (iv_loop _ _ _ _ _ Hi) as Hl. exists ph, ls. split.
    + exists 0%nat, (Loop ph), (Loop ph), 0%nat. split_and!; [done|by apply lg_quiet, outside_quiet|done|].
      by rewrite list_insert_id, app_nil_r.
    + split; [by unfold pool_tracked; rewrite Hth|by apply inv_outside|].
      eapply (half_step role P); [done..|by apply (lg_quiet _ _ (Loop ph)), outside_quiet].
Qed.

Lemma linked_step t t' phc lc phs ls :
  trace_step t t' → linked t phc lc phs ls →
  ∃ phc' lc' phs' ls', linked t' phc' lc' phs' ls' ∧
    advance InCaller (world (client (net t))) (world (client (net t'))) phc lc phc' lc' ∧
    advance InHandler (world (server (net t))) (world (server (net t'))) phs ls phs' ls'.
Proof.
  intros [n' Hs Hup] [Hn Hc Hids Hsv Hog].
  destruct (net_step_refines _ _ Hs Hn) as [Hn' _]. destruct (net_step_moved _ _ Hs) as [Hmc Hms].
  destruct Hn as [_ Ho Hi _ _].
  destruct (endpoint_moved _ _ _ _ _ _ Hc Hmc) as (phc' & lc' & Hac & Hc').
  { intros i l Hl. destruct Hc. eapply client_unheard; [done..| |].
    - intros f Hf. rewrite Ho, elem_of_app. by left.
    - intros f Hf. rewrite Hi, elem_of_app. by left. }
  destruct (endpoint_moved _ _ _ _ _ _ Hsv Hms) as (phs' & ls' & Has & Hs'); [by intros ? ? ? ? ?|].
  exists phc', lc', phs', ls'. split_and!; [|done..]. split; try done; simpl.
  - destruct Hac as (i & l & l' & m & ? & ? & _ & ->). destruct Hc. by eapply ids_step.
  - destruct Has as (i & l & l' & m & ? & ? & _ & ->). destruct Hsv. by eapply origin_step.
Qed.

(** ** The start *)

Lemma fresh_inv role c (cn : pipeConn) rb iw max st σ ls evs :
  (∀ i l, ls !! i = Some l → l = Idle) →
  Inv role ((newMuxConfig c cn rb iw max st σ) <| events := evs |>) (λ _, []) Waiting (Loop Waiting :: ls).
Proof.
  intros Hls. assert (∀ p, sum_by (opens p) (Loop Waiting :: ls) = 0) as Hsum.
  { intros p. apply sum_by_zero. intros l [->|Hl]%elem_of_cons; [done|].
    apply list_elem_of_lookup in Hl as [i Hi]. by rewrite (Hls i l Hi). }
  split; simpl; try done.
  - intros [|i] ph Hi; simplify_eq/=; [done|]. by apply Hls in Hi.
  - intros p id [?|Hp]%elem_of_cons; [done|]. apply list_elem_of_lookup in Hp as [i Hi]. by apply Hls in Hi.
  - intros p Hp. specialize (Hsum p). simpl in Hsum. lia.
  - intros p. specialize (Hsum p). simpl in Hsum. lia.
Qed.

Lemma tracked_all role (ts : list (Prog W unit)) :
  role ≠ InRuntime → Forall (calls role P) ts →
  Forall2 (λ t l, tracked Idle (ledger role P) (λ _ _ _, True) (λ _, True) t l (λ _ _, True)) ts (replicate (length ts) Idle).
Proof.
  intros Hr. induction 1 as [|t ts Ht _ IH]; constructor; [|done].
  eapply tracked_mono; [|by apply tracked_user]. done.
Qed.

Lemma client_start {I HH} (opts : list (DialOption I HH)) ts cc cn σ :
  Forall (calls InCaller P) ts →
  let k := (DialConn cc cn opts σ).1.2 in let k := mkConfig (world k) (threads k ++ ts) in
  let ls := Loop Waiting :: Idle :: replicate (length ts) Idle in
  endpoint InCaller k (λ _, []) Waiting ls ∧ ids (world k) ls.
Proof.
  intros Hts k k' ls. split; [split; [| |done]|].
  - constructor; [by apply tracked_readLoop|]. constructor; [|by apply tracked_all].
    eapply tracked_mono; [|apply tracked_ctrlWriter]. done.
  - apply (fresh_inv InCaller cc cn (dc_receiveBuffer (dial_config opts)) (dc_initialWindow (dial_config opts))
      0 None σ (Idle :: replicate (length ts) Idle) []).
    intros [|i] l Hl; simplify_eq/=; [done|]. by apply lookup_replicate in Hl as [-> _].
  - assert (∀ l, l ∈ ls → l = Loop Waiting ∨ l = Idle) as Hls.
    { intros l Hl. apply elem_of_cons in Hl as [->|Hl]; [by left|right].
      apply elem_of_cons in Hl as [->|Hl]; [done|]. by apply elem_of_replicate in Hl as [-> _]. }
    assert (∀ id, uses id (world k') ls = 0) as Hu.
    { intros id. unfold uses. rewrite (sum_by_zero (numbered id)); [done|]. by intros l [->| ->]%Hls. }
    split; try (simpl; intros; exfalso; by eapply not_elem_of_nil).
    + simpl. lia.
    + intros id. rewrite Hu. lia.
    + intros id. rewrite Hu. lia.
    + intros id [|]%Hls; done.
    + intros f [|]%Hls; done.
    + intros id. rewrite (sum_by_zero (opening id)); [done|]. by intros l [->| ->]%Hls.
Qed.

Lemma server_start srv cs cn σ :
  handlers_call InHandler P srv →
  let k := ServeConn srv cs cn σ in let ls := [Loop Waiting; Idle; Idle] in
  endpoint InHandler k (λ _, []) Waiting ls ∧ origin (world k) ls.
Proof.
  intros Hh k ls. split; [split; [| |done]|].
  - constructor; [|constructor; [|constructor; [|constructor]]].
    + apply tracked_readLoop; [done|]. intros h p [= <-]. split_and!; [done| |done].
      eapply tracked_mono; [|apply tracked_user; [done|by apply calls_serveStream]]. done.
    + eapply tracked_mono; [|apply tracked_ctrlWriter]. done.
    + apply tracked_quiet; [|done]. split; [|intros _; apply quiet_stat].
      intros w w' b. simpl. case_match; intros; by inv_elem.
  - apply (fresh_inv InHandler cs cn _ _ _ _ σ [Idle; Idle]).
    intros [|[|i]] l Hl; by simplify_eq/=.
  - split; simpl; try done; try (intros; exfalso; by eapply not_elem_of_nil).
    unfold ls. intros f Hf. by inv_elem.
Qed.

(** What was read of the frames written is enough. *)
Lemma run_written role w h ph ls rest p s :
  Inv role w h ph ls → heap w !! p = Some s →
  ∃ l1 l2 post, rlog w ++ rest = l1 ++ l2 ∧ starts role s l1 ∧ msgs (sid s) l2 = (h p ++ recvItems s) ++ post.
Proof.
  intros Hinv Hp. destruct (iv_run _ _ _ _ _ Hinv p s Hp) as (l1 & l2 & post & -> & Hst & Hm & _).
  exists l1, (l2 ++ rest), (post ++ msgs (sid s) rest). unfold delivered, items in Hm. rewrite Hp in Hm.
  by rewrite msgs_app, Hm, <-!app_assoc.
Qed.

Lemma inv_in_order role w h ph ls rest wr :
  Inv role w h ph ls → half_ok role w h → wr = rlog w ++ rest → in_order role wr w h.
Proof.
  intros Hinv Hok -> p s Hp.
  assert (delivered w h p = h p ++ recvItems s) as HD by (unfold delivered, items; by rewrite Hp).
  split_and!; [by eapply run_written|intros f He Ha|intros Hh Ha].
  - destruct (iv_end _ _ _ _ _ Hinv p s f Hp He Ha) as (_ & l1 & l2 & l3 & -> & Hst & Hm).
    exists l1, l2, (l3 ++ rest). by rewrite <-HD, Hm, <-!app_assoc.
  - destruct (Hok p s Hp Hh Ha) as (l1 & l2 & l3 & f & post & -> & Hst & ? & ? & Hm).
    exists l1, l2, (l3 ++ rest), f, post. by rewrite <-HD, Hm, <-!app_assoc.
Qed.

(** Every reachable state of a network satisfies the invariant. *)
Lemma linked_start {I HH} (opts : list (DialOption I HH)) ts srv cc cs σc σs :
  Forall (calls InCaller P) ts → handlers_call InHandler P srv →
  linked (mkTrace (connected opts ts srv cc cs σc σs) (λ _, []) (λ _, []))
    Waiting (Loop Waiting :: Idle :: replicate (length ts) Idle) Waiting [Loop Waiting; Idle; Idle].
Proof.
  intros Hts Hh. destruct (client_start opts ts cc newPipe.1 σc Hts).
  destruct (server_start srv cs newPipe.2 σs Hh). split; simpl; try done.
  apply net_inv_connected.
  - eapply Forall_impl; [exact Hts|]. intros p. apply calls_mono; [by right; left|done].
  - eapply handlers_mono; [by left| |done]. done.
Qed.

Lemma linked_reachable t t' phc lc phs ls :
  rtc trace_step t t' → linked t phc lc phs ls → ∃ phc' lc' phs' ls', linked t' phc' lc' phs' ls'.
Proof.
  intros Hrun. revert phc lc phs ls. induction Hrun as [|t1 t2 t3 H12 _ IH]; intros phc lc phs ls Hl; [eauto|].
  destruct (linked_step _ _ _ _ _ _ H12 Hl) as (? & ? & ? & ? & ? & _). eauto.
Qed.

(** There is one stream at most for an id, at either end. *)
Lemma streams_unique t phc lc phs ls id :
  linked t phc lc phs ls →
  streams_of id (world (client (net t))) ≤ 1 ∧ streams_of id (world (server (net t))) ≤ 1.
Proof.
  intros [[_ Ho _ _ _] _ Hids _ Hog]. pose proof (id_once _ _ Hids id) as Hone. unfold uses in Hone.
  pose proof (id_opened _ _ Hids id) as Hop. pose proof (og_once _ _ Hog id) as Hse.
  rewrite Ho, sum_by_app in Hop.
  assert (0 ≤ sum_by (numbered id) lc).
  { apply sum_by_nonneg. intros [] _; simpl; try done; apply same_id_nonneg. }
  assert (0 ≤ sum_by (opening id) lc).
  { apply sum_by_nonneg. intros [] _; simpl; try done; apply same_id_nonneg. }
  assert (0 ≤ sum_by (answering id) ls).
  { apply sum_by_nonneg. intros [] _; simpl; try done. case_match; try done. apply open_frame_nonneg. }
  pose proof (sum_by_nonneg (open_frame id) (pout (conn (world (client (net t))))) (λ f _, open_frame_nonneg id f)).
  unfold streams_of in *. lia.
Qed.

End messages.

Section traces.
Context `{!GrpcLib}.

(** C2: messages are neither lost, duplicated nor reordered between the endpoints.  A
    client with any number of goroutines that call the runtime and a server with
    any handlers run over the two ends of a pipe; in every interleaving, for
    every stream at either end: the messages receivers took from it, followed by
    its backlog, are consecutive messages that the other side wrote for its id,
    starting with the first one after the OPEN frame (at the server) or with the
    first one at all (at the client).  If its context is not cancelled (a cancelled
    stream drops what arrives): once its END or RST is recorded, they are all the
    messages written before that frame, so a receiver that drains the backlog and
    then sees the end has missed nothing; and once the other side is seen
    half-closed, they begin with all the messages written before the HALF_CLOSE, so
    no message is lost to an early EOF.  Runs in which the id of a new stream wraps
    around are excluded ([trace_step]). *)
Theorem messages_in_order {I HH} (opts : list (DialOption I HH)) ts srv cc cs σc σs t :
  Forall (calls InCaller any_payload) ts → handlers_call InHandler any_payload srv →
  rtc trace_step (mkTrace (connected opts ts srv cc cs σc σs) (λ _, []) (λ _, [])) t →
  let wc := world (client (net t)) in let ws := world (server (net t)) in
  in_order InHandler (wlog wc) ws (server_took t) ∧ in_order InCaller (wlog ws) wc (client_took t).
Proof.
  intros Hts Hh Hrun.
  destruct (linked_reachable any_payload _ _ _ _ _ _ Hrun (linked_start any_payload opts ts srv cc cs σc σs Hts Hh))
    as (phc & lc & phs & ls & [Hn [_ Hc Hhc] _ [_ Hs Hhs] _]).
  destruct Hn as [_ Ho Hi _ _]. split; by eapply inv_in_order.
Qed.

(** What the streams of a server are: each was opened by one OPEN frame of the
    client, which has a stream with its id; no two have the same id. *)
Definition matched (wc ws : World pipeConn) : Prop :=
  ∀ q s, heap ws !! q = Some s →
  (∃ o, o ∈ wlog wc ∧ FKind o = KIND_OPEN ∧ StreamId o = sid s ∧ FMethod o = method s) ∧
  (∃ p t, heap wc !! p = Some t ∧ sid t = sid s) ∧
  (∀ q' s', heap ws !! q' = Some s' → sid s' = sid s → q' = q).

(** C3: every call a server runs was made by the client, and is run once.  In the same
    network and in every interleaving: each stream of the server belongs to an OPEN
    frame the client wrote, with its id and its method, and to a stream of the
    client with that id; no two streams of an endpoint share an id.  Runs in which the
    id of a new stream wraps around are excluded ([trace_step]). *)
Theorem calls_matched {I HH} (opts : list (DialOption I HH)) ts srv cc cs σc σs t :
  Forall (calls InCaller any_payload) ts → handlers_call InHandler any_payload srv →
  rtc trace_step (mkTrace (connected opts ts srv cc cs σc σs) (λ _, []) (λ _, [])) t →
  let wc := world (client (net t)) in let ws := world (server (net t)) in
  matched wc ws ∧
  ∀ p s p' s', heap wc !! p = Some s → heap wc !! p' = Some s' → sid s = sid s' → p = p'.
Proof.
  intros Hts Hh Hrun wc ws.
  destruct (linked_reachable any_payload _ _ _ _ _ _ Hrun (linked_start any_payload opts ts srv cc cs σc σs Hts Hh))
    as (phc & lc & phs & ls & Hl).
  pose proof (λ id, streams_unique any_payload t phc lc phs ls id Hl) as Hun.
  split; [|intros p s p' s'; exact (streams_of_one _ p p' s s' (proj1 (Hun _)))].
  destruct Hl as [[_ Ho _ _ _] _ Hids [_ His _] Hog]. intros q s Hq. split_and!.
  - destruct (iv_run _ _ _ _ _ His q s Hq) as (l1 & l2 & _ & Hr & [Hst _] & _).
    destruct (Hst eq_refl) as (l0 & o & -> & ? & ? & ?). exists o. split_and!; [|done..].
    unfold wc. rewrite Ho, Hr, !elem_of_app, list_elem_of_singleton. auto.
  - destruct (og_heap _ _ Hog q s Hq) as (o & Hin & Hk & Hid).
    destruct (id_wrote _ _ Hids o) as (p & t' & ? & ? & _); [|done|exists p, t'; split; [done|congruence]].
    rewrite Ho, elem_of_app. by left.
  - intros q' s' Hq'. exact (streams_of_one _ q' q s' s (proj2 (Hun _)) Hq' Hq).
Qed.

(** ** Running a network with its histories *)

Definition trace_tick (side : bool) (i : nat) (t : Trace) : Trace :=
  match try_tick side i (net t) with
  | Some n' =>
      if nextID (mux (world (client (net t)))) <=? nextID (mux (world (client n')))
      then mkTrace n' (record (world (client (net t))) (world (client n')) (client_took t))
             (record (world (server (net t))) (world (server n')) (server_took t))
      else t
  | None => t
  end.

Definition trace_run (l : list (bool * nat)) (t : Trace) : Trace := foldl (λ t x, trace_tick x.1 x.2 t) t l.

Lemma trace_run_rtc l t : rtc trace_step t (trace_run l t).
Proof.
  unfold trace_run. revert t. induction l as [|x l IH]; intros t; simpl; [done|].
  etrans; [|apply IH]. unfold trace_tick. destruct (try_tick x.1 x.2 (net t)) eqn:E; [|done].
  case_match eqn:Hle; [|done]. apply rtc_once, trace_step_net; [by eapply try_tick_step|lia].
Qed.

End traces.
