(* ===== verification/Window.v ===== *)
(** * Flow control across the network

    Credit.v for a client and a server joined by a pipe.  The credit an endpoint was
    granted for a stream is what the other side read and its receivers took, so the
    backlog of a stream is bounded by the window of its sender and one message;
    and where the sends on a stream take turns, no message is ever refused. *)

From S2P Require Import Prelude Goroutine Track Status Context Conn Strconv Stream World StreamOps MuxOps Endpoint Admission Alone Ledger Routing Lifecycle Options Server Dispatch Metadata Registrar Client Dial Net Delivery Origin Credit Messages.
Import Pipe.

(** ** A sender and a receiver *)

Section pair.
Context {C : Type} `{!FrameConn C} `{!GrpcLib} (M : Z) (HM : 0 < M) (role_s role_r : Role).
Abbreviation W := (World C).
Context (ws wr : W) (hs hr : nat → list Frame) (phs phr : Phase) (ls lr : list Local) (Ts Tr : nat → Z).
Context (Is : Inv role_s ws hs phs ls) (Ir : Inv role_r wr hr phr lr).
Context (Bs : Books M ws hs phs ls Ts) (Br : Books M wr hr phr lr Tr).
Context (os or : list Frame) (Hs : wlog ws = rlog wr ++ os) (Hr : wlog wr = rlog ws ++ or).
Context (Us : ∀ id, streams_of id ws ≤ 1) (Ur : ∀ id, streams_of id wr ≤ 1).

(** With one stream for the id, the sum over its streams is its value. *)
Lemma total_unique (w : W) (g : nat → Z) p s :
  streams_of (sid s) w ≤ 1 → heap w !! p = Some s → 0 ≤ g p → total_of (sid s) g (heap w) ≤ g p.
Proof.
  intros Hone Hp H0. apply total_le; [done..|]. intros q t Hq Hid.
  by rewrite (streams_of_one _ _ _ _ _ Hone Hq Hp Hid).
Qed.

(** The credit the sender has read was given for messages that receivers took, *)
Lemma credit_taken id : sum_by (credit id) (rlog ws) ≤ total_of id (λ p, size_of (hr p)) (heap wr).
Proof using Br Hr.
  pose proof (bk_given _ _ _ _ _ _ Br id) as Hg. rewrite Hr, sum_by_app in Hg.
  pose proof (sum_by_nonneg (credit id) or (λ f _, credit_nonneg id f)).
  pose proof (sum_by_nonneg (pending id) (heap wr) (λ f _, pending_nonneg id f)).
  pose proof (sum_by_nonneg (owed id wr) lr (λ f _, owed_nonneg id wr f)). lia.
Qed.

(** which, with what waits in the backlog, the sender wrote, *)
Lemma delivered_written q s :
  heap wr !! q = Some s →
  size_of (hr q) + size_of (recvItems s) ≤ sum_by (carried (sid s)) (wlog ws).
Proof using Ir Hs.
  intros Hq. destruct (iv_run _ _ _ _ _ Ir q s Hq) as (l1 & l2 & post & Hl & _ & Hm & _).
  rewrite Hs, Hl, carried_msgs, !msgs_app, Hm. unfold delivered, items. rewrite Hq, !sum_by_app. unfold size_of.
  pose proof (size_nonneg (msgs (sid s) l1)). pose proof (size_nonneg post).
  pose proof (size_nonneg (msgs (sid s) os)). unfold size_of in *. lia.
Qed.

(** with credit it had taken. *)
Lemma written_spent id : sum_by (carried id) (wlog ws) ≤ total_of id Ts (heap ws).
Proof using Bs.
  pose proof (bk_written _ _ _ _ _ _ Bs id).
  pose proof (sum_by_nonneg (held id ws) ls (λ f _, held_nonneg id ws f)). lia.
Qed.

Lemma credit_spent id : sum_by (credit id) (rlog ws) ≤ total_of id Ts (heap ws).
Proof using Bs Br Hs Hr Ir Ur.
  etrans; [apply credit_taken|]. etrans; [|apply written_spent].
  apply total_le; [apply Ur| |].
  - apply sum_by_nonneg. intros. apply carried_nonneg.
  - intros q s Hq <-. pose proof (delivered_written q s Hq). pose proof (size_nonneg (recvItems s)). lia.
Qed.

(** So a window never grows beyond its initial size. *)
Lemma window_capped p s :
  heap ws !! p = Some s → sendWindow s + coming phs p (sid s) ≤ muxWindow (mux ws).
Proof using Bs Br Hs Hr Ir Ur Us.
  intros Hp. pose proof (bk_window _ _ _ _ _ _ Bs p s Hp). pose proof (credit_spent (sid s)).
  pose proof (total_unique ws Ts p s (Us _) Hp (bk_spent _ _ _ _ _ _ Bs p)). lia.
Qed.

(** The backlog of a stream is bounded. *)
Lemma backlog_pair q s :
  heap wr !! q = Some s → size_of (recvItems s) ≤ muxWindow (mux ws) + M - 1.
Proof using HM Bs Br Hs Hr Ir Ur Us.
  intros Hq. pose proof (delivered_written q s Hq) as Hd.
  pose proof (written_spent (sid s)) as Hw. pose proof (credit_taken (sid s)) as Hc.
  pose proof (total_unique wr (λ p, size_of (hr p)) q s (Ur _) Hq (size_nonneg _)) as Ht. simpl in Ht.
  pose proof (bk_mux _ _ _ _ _ _ Bs) as Hmux.
  pose proof (sum_by_nonneg (credit (sid s)) (rlog ws) (λ f _, credit_nonneg _ f)) as Hcn.
  assert (total_of (sid s) Ts (heap ws) ≤ muxWindow (mux ws) + sum_by (credit (sid s)) (rlog ws) + M - 1); [|lia].
  apply total_le; [apply Us|lia|]. intros p t Hp <-. pose proof (bk_window _ _ _ _ _ _ Bs p t Hp).
  pose proof (bk_low _ _ _ _ _ _ Bs p t Hp). pose proof (coming_nonneg phs p (sid t)). lia.
Qed.

(** A message that is still to be delivered, among those written. *)
Lemma msgs_split id l a f b :
  msgs id l = a ++ f :: b → ∃ l1 l2, l = l1 ++ f :: l2 ∧ msgs id l1 = a ∧ data f = true ∧ StreamId f = id.
Proof.
  unfold msgs. revert a. induction l as [|g l IH]; intros a Hm; [by destruct a|].
  rewrite filter_cons in Hm. case_decide as Hg.
  - destruct a as [|g' a]; simplify_eq/=.
    + exists [], l. by destruct Hg.
    + destruct (IH a) as (l1 & l2 & -> & <- & ? & ?); [done|]. exists (g' :: l1), l2.
      split_and!; [done| |done..]. by rewrite filter_cons, decide_True.
  - destruct (IH a) as (l1 & l2 & -> & <- & ? & ?); [done|]. exists (g :: l1), l2.
    split_and!; [done| |done..]. by rewrite filter_cons, decide_False.
Qed.

(** Where sends take turns, the next message of a stream finds room. *)
Lemma admitted_pair q s l1 l2 f post :
  Turns ws ls → muxWindow (mux ws) ≤ muxWindow (mux wr) → muxWindow (mux ws) < 2^63 →
  heap wr !! q = Some s → wlog ws = l1 ++ l2 → msgs (sid s) l2 = (hr q ++ recvItems s) ++ f :: post →
  0 < payload_len f → (tryDeliver_lock (ctxs wr) f s).2 ≠ Refused.
Proof using Bs Br Hs Hr Ir Ur Us.
  intros Ht Hmux Hint Hq Hw Hm Hf. destruct (msgs_split _ _ _ _ _ Hm) as (a & b & -> & Ha & Hd & Hid).
  rewrite app_assoc in Hw. pose proof (tu_ahead _ _ Ht _ _ _ Hw Hd Hf) as Hah.
  rewrite Hid, sum_by_app, (carried_msgs _ a), Ha, sum_by_app in Hah. unfold granted in Hah.
  pose proof (sum_by_nonneg (carried (sid s)) l1 (λ f _, carried_nonneg _ f)).
  pose proof (credit_taken (sid s)) as Hc.
  pose proof (total_unique wr (λ p, size_of (hr p)) q s (Ur _) Hq (size_nonneg _)) as Htt. simpl in Htt.
  destruct (bk_counted _ _ _ _ _ _ Br q s Hq) as [Hcnt Hmax]. unfold counted in Hcnt.
  pose proof (size_nonneg (recvItems s)). unfold size_of in *.
  rewrite wrap64_id in Hcnt by (unfold is_int64; lia).
  unfold tryDeliver_lock. case_decide; [done|].
  replace (maxRecvBytes s <? recvBytes s) with false by (symmetry; apply Z.ltb_ge; lia).
  by rewrite andb_false_r.
Qed.

End pair.

(** ** The network *)

Definition small (M : Z) (b : bytes) : Prop := len b ≤ M.

Section window.
Context `{!GrpcLib}.
Abbreviation W := (World pipeConn).
Implicit Types (t : Trace).

(** A run with the bytes taken from the window of each stream, in which the sends on
    a stream take turns. *)
Record Turn := mkTurn { trace : Trace; client_spent : nat → Z; server_spent : nat → Z }.

Inductive turn_step (u : Turn) : Turn → Prop :=
| turn_step_trace t' :
    let wc := world (client (net (trace u))) in let wc' := world (client (net t')) in
    let ws := world (server (net (trace u))) in let ws' := world (server (net t')) in
    trace_step (trace u) t' → turns wc wc' (client_spent u) → turns ws ws' (server_spent u) →
    turn_step u (mkTurn t' (spend wc wc' (client_spent u)) (spend ws ws' (server_spent u))).

Section joined.
(** [strict]: the sends on a stream take turns. *)
Context (strict : Prop) (M Wc Ws : Z) (HM : 0 < M < 2^63) (HWc : Wc < 2^63) (HWs : Ws < 2^63).

Record side (role : Role) (Wn : Z) (w : W) (h : nat → list Frame) (ph : Phase) (ls : list Local)
    (T : nat → Z) : Prop := mk_side {
  sd_inv : Inv role w h ph ls;
  sd_books : Books M w h ph ls T;
  sd_turns : strict → Turns w ls;
  sd_window : muxWindow (mux w) = Wn
}.

Record joined t (phc : Phase) (lc : list Local) (phs : Phase) (ls : list Local) (Tc Ts : nat → Z) : Prop :=
  mk_joined {
    jn_linked : linked (small M) t phc lc phs ls;
    jn_client : side InCaller Wc (world (client (net t))) (client_took t) phc lc Tc;
    jn_server : side InHandler Ws (world (server (net t))) (server_took t) phs ls Ts
  }.

Lemma side_advance role Wn w w' h ph ls T ph' ls' :
  side role Wn w h ph ls T → Inv role w' (record w w' h) ph' ls' → advance (small M) role w w' ph ls ph' ls' →
  (∀ p s, heap w !! p = Some s → sendWindow s + coming ph p (sid s) < 2^63) →
  (∀ id, streams_of id w ≤ 1) → (strict → turns w w' T) →
  side role Wn w' (record w w' h) ph' ls' (spend w w' T).
Proof using HM.
  intros [Hi Hb Ht Hw] Hi' (i & l & l' & m & Hl & HR & -> & ->) Hcap Hone Hturn.
  split; [done| | |].
  - eapply (books_step role (small M) M); eauto.
  - intros Hst. eapply (turns_step role (small M) M); eauto. intros p s Hp. specialize (Hcap p s Hp).
    pose proof (coming_nonneg ph p (sid s)). lia.
  - by rewrite (ledger_mux _ _ _ _ _ _ HR).
Qed.

Lemma joined_step t t' phc lc phs ls Tc Ts :
  let wc := world (client (net t)) in let wc' := world (client (net t')) in
  let ws := world (server (net t)) in let ws' := world (server (net t')) in
  trace_step t t' → (strict → turns wc wc' Tc ∧ turns ws ws' Ts) →
  joined t phc lc phs ls Tc Ts →
  ∃ phc' lc' phs' ls', joined t' phc' lc' phs' ls' (spend wc wc' Tc) (spend ws ws' Ts).
Proof using HM HWc HWs.
  intros wc wc' ws ws' Hs Htu [Hl Hc Hsv].
  destruct (linked_step _ _ _ _ _ _ _ Hs Hl) as (phc' & lc' & phs' & ls' & Hl' & Hac & Has).
  exists phc', lc', phs', ls'. pose proof (λ id, streams_unique (small M) _ _ _ _ _ id Hl) as Hun.
  pose proof (lk_net _ _ _ _ _ _ Hl) as [_ Ho Hi _ _].
  destruct (lk_client _ _ _ _ _ _ Hl') as [_ Hic' _]. destruct (lk_server _ _ _ _ _ _ Hl') as [_ His' _].
  destruct Hs as [n' Hs Hup]. simpl in *. split; [done| |]; simpl.
  - eapply side_advance; [done..| | |intros Hst; by destruct (Htu Hst)].
    + intros p s Hp. destruct Hc as [? Hbc _ <-], Hsv as [Hin Hbs _ _].
      eapply Z.le_lt_trans; [|exact HWc].
      exact (window_capped M InHandler _ _ _ _ _ _ _ _ _ _ Hin Hbc Hbs _ _ Ho Hi (λ id, proj1 (Hun id)) (λ id, proj2 (Hun id)) p s Hp).
    + intros id. apply Hun.
  - eapply side_advance; [done..| | |intros Hst; by destruct (Htu Hst)].
    + intros p s Hp. destruct Hc as [Hin Hbc _ _], Hsv as [? Hbs _ <-].
      eapply Z.le_lt_trans; [|exact HWs].
      exact (window_capped M InCaller _ _ _ _ _ _ _ _ _ _ Hin Hbs Hbc _ _ Hi Ho (λ id, proj2 (Hun id)) (λ id, proj1 (Hun id)) p s Hp).
    + intros id. apply Hun.
Qed.

(** *** The start *)

Lemma fresh_books c (cn : pipeConn) rb iw max st σ ls evs :
  (∀ l, l ∈ ls → l = Loop Waiting ∨ l = Idle) →
  let w := (newMuxConfig c cn rb iw max st σ) <| events := evs |> in
  Books M w (λ _, []) Waiting ls (λ _, 0) ∧ Turns w ls.
Proof.
  intros Hls w. assert (∀ (g : W → Local → Z), (∀ w, g w Idle = 0) → (∀ w, g w (Loop Waiting) = 0) →
    sum_by (g w) ls = 0) as Hz.
  { intros g H1 H2. apply sum_by_zero. by intros l [->| ->]%Hls. }
  split; split; try done; simpl.
  - by intros l [->| ->]%Hls p.
  - by intros p n [|]%Hls.
  - intros f Hf. by inv_elem.
  - by intros id j [|]%Hls.
  - destruct (Z.leb_spec iw 0); [done|lia].
  - intros id. by rewrite Hz.
  - intros id. by rewrite Hz.
  - intros id i j l l' Hl _ Hpos. apply list_elem_of_lookup_2, Hls in Hl as [->| ->]; simpl in Hpos; lia.
  - intros id i l Hl Hpos. apply list_elem_of_lookup_2, Hls in Hl as [->| ->]; simpl in Hpos; lia.
  - intros a f b Hw. by destruct a.
Qed.

End joined.

Lemma joined_start {I HH} strict M (opts : list (DialOption I HH)) ts srv cc cs σc σs :
  Forall (calls InCaller (small M)) ts → handlers_call InHandler (small M) srv →
  let n := connected opts ts srv cc cs σc σs in
  ∃ phc lc phs ls, joined strict M (muxWindow (mux (world (client n)))) (muxWindow (mux (world (server n))))
    (mkTrace n (λ _, []) (λ _, [])) phc lc phs ls (λ _, 0) (λ _, 0).
Proof.
  intros Hts Hh n. pose proof (linked_start (small M) opts ts srv cc cs σc σs Hts Hh) as Hl.
  eexists _, _, _, _. split; [exact Hl| |]; destruct Hl as [_ [_ Hc _] _ [_ Hs _] _]; simpl in *.
  - edestruct (fresh_books M cc newPipe.1 (dc_receiveBuffer (dial_config opts)) (dc_initialWindow (dial_config opts))
      0 None σc (Loop Waiting :: Idle :: replicate (length ts) Idle) []) as [Hb Ht].
    { intros l [->|[->|[-> _]%elem_of_replicate]%elem_of_cons]%elem_of_cons; auto. }
    split; [exact Hc|exact Hb|intros _; exact Ht|done].
  - edestruct (fresh_books M cs newPipe.2 (sc_receiveBuffer (cfg srv)) (sc_initialWindow (cfg srv))
      (sc_maxStreams (cfg srv)) (sc_stats (cfg srv)) σs [Loop Waiting; Idle; Idle]
      (stat_dispatch (sc_stats (cfg srv)) EvConnOpened [])) as [Hb Ht].
    { intros l [->|[->|[->|?]%elem_of_cons]%elem_of_cons]%elem_of_cons; auto. by inv_elem. }
    split; [exact Hs|exact Hb|intros _; exact Ht|done].
Qed.

(** Every reachable state is joined. *)
Lemma joined_reachable M Wc Ws t t' phc lc phs ls Tc Ts :
  0 < M < 2^63 → Wc < 2^63 → Ws < 2^63 →
  rtc trace_step t t' → joined False M Wc Ws t phc lc phs ls Tc Ts →
  ∃ phc' lc' phs' ls' Tc' Ts', joined False M Wc Ws t' phc' lc' phs' ls' Tc' Ts'.
Proof.
  intros HM HWc HWs Hrun. revert phc lc phs ls Tc Ts.
  induction Hrun as [|t1 t2 t3 H12 _ IH]; intros phc lc phs ls Tc Ts Hj; [eauto 10|].
  destruct (joined_step False M Wc Ws HM HWc HWs t1 t2 phc lc phs ls Tc Ts H12) as (? & ? & ? & ? & Hj2); [done..|].
  by eapply IH.
Qed.

Lemma joined_turns M Wc Ws u u' phc lc phs ls :
  0 < M < 2^63 → Wc < 2^63 → Ws < 2^63 →
  rtc turn_step u u' → joined True M Wc Ws (trace u) phc lc phs ls (client_spent u) (server_spent u) →
  ∃ phc' lc' phs' ls', joined True M Wc Ws (trace u') phc' lc' phs' ls' (client_spent u') (server_spent u').
Proof.
  intros HM HWc HWs Hrun. revert phc lc phs ls.
  induction Hrun as [|u1 u2 u3 H12 _ IH]; intros phc lc phs ls Hj; [eauto 10|].
  destruct H12 as [t' wc wc' ws ws' Hs Htc Hts].
  destruct (joined_step True M Wc Ws HM HWc HWs _ t' phc lc phs ls _ _ Hs (λ _, conj Htc Hts) Hj)
    as (? & ? & ? & ? & Hj2). by eapply IH.
Qed.

(** The backlogs and the windows of an endpoint, whose peer has window [Wp]. *)
Definition bounded (M Wn Wp : Z) (w : W) : Prop :=
  ∀ p s, heap w !! p = Some s →
  sum_by payload_len (recvItems s) ≤ Wp + M - 1 ∧ 1 - M ≤ sendWindow s ≤ Wn.

(** C5: flow control bounds what is buffered.  A client with any number of goroutines
    that call the runtime and a server with any handlers run over the two ends of
    a pipe, and no message is longer than [M] bytes; in every interleaving, with
    any number of goroutines that send on one stream: the backlog of a stream is
    shorter than the window of its peer and one message together, and the send
    window of a stream is never above its initial size and, because a message
    is admitted as soon as some credit is left, less than a message below zero.
    Stream ids do not wrap around in the run ([trace_step]). *)
Theorem buffers_bounded {I HH} M (opts : list (DialOption I HH)) ts srv cc cs σc σs t :
  let n := connected opts ts srv cc cs σc σs in
  let Wc := muxWindow (mux (world (client n))) in let Ws := muxWindow (mux (world (server n))) in
  0 < M < 2^63 → Wc < 2^63 → Ws < 2^63 →
  Forall (calls InCaller (small M)) ts → handlers_call InHandler (small M) srv →
  rtc trace_step (mkTrace n (λ _, []) (λ _, [])) t →
  bounded M Wc Ws (world (client (net t))) ∧ bounded M Ws Wc (world (server (net t))).
Proof.
  intros n Wc Ws HM HWc HWs Hts Hh Hrun.
  destruct (joined_start False M opts ts srv cc cs σc σs Hts Hh) as (? & ? & ? & ? & Hj).
  destruct (joined_reachable M Wc Ws _ _ _ _ _ _ _ _ HM HWc HWs Hrun Hj) as (phc & lc & phs & ls & Tc & Ts & [Hl Hc Hs]).
  pose proof (λ id, streams_unique (small M) _ _ _ _ _ id Hl) as Hun. pose proof (lk_net _ _ _ _ _ _ Hl) as [_ Ho Hi _ _].
  destruct Hc as [Hic Hbc _ HWc'], Hs as [His Hbs _ HWs'].
  split; intros p s Hp; (split; [|split]).
  - rewrite <-HWs'. exact (backlog_pair M (proj1 HM) InCaller _ _ _ _ _ _ _ _ _ _ Hic Hbs Hbc _ _ Hi Ho
      (λ id, proj2 (Hun id)) (λ id, proj1 (Hun id)) p s Hp).
  - exact (bk_low _ _ _ _ _ _ Hbc p s Hp).
  - rewrite <-HWc'. pose proof (coming_nonneg phc p (sid s)).
    pose proof (window_capped M InHandler _ _ _ _ _ _ _ _ _ _ His Hbc Hbs _ _ Ho Hi
      (λ id, proj1 (Hun id)) (λ id, proj2 (Hun id)) p s Hp). lia.
  - rewrite <-HWc'. exact (backlog_pair M (proj1 HM) InHandler _ _ _ _ _ _ _ _ _ _ His Hbc Hbs _ _ Ho Hi
      (λ id, proj1 (Hun id)) (λ id, proj2 (Hun id)) p s Hp).
  - exact (bk_low _ _ _ _ _ _ Hbs p s Hp).
  - rewrite <-HWs'. pose proof (coming_nonneg phs p (sid s)).
    pose proof (window_capped M InCaller _ _ _ _ _ _ _ _ _ _ Hic Hbs Hbc _ _ Hi Ho
      (λ id, proj2 (Hun id)) (λ id, proj1 (Hun id)) p s Hp). lia.
Qed.

(** The messages [wr] of the other side that the stream did not get yet: the first of
    them, if it has a payload, is not refused. *)
Definition admits (role : Role) (wr : list Frame) (w : W) (h : nat → list Frame) : Prop :=
  ∀ p s, heap w !! p = Some s →
  ∃ l1 l2 post, wr = l1 ++ l2 ∧ starts role s l1 ∧ msgs (sid s) l2 = (h p ++ recvItems s) ++ post ∧
    ∀ f rest, post = f :: rest → 0 < payload_len f → (tryDeliver_lock (ctxs w) f s).2 ≠ Refused.

Lemma admits_pair M rs rr (ws wr : W) hs hr phs phr ls lr Ts Tr os or :
  Inv rr wr hr phr lr → Books M ws hs phs ls Ts → Books M wr hr phr lr Tr → Turns ws ls →
  wlog ws = rlog wr ++ os → wlog wr = rlog ws ++ or →
  (∀ id, streams_of id ws ≤ 1) → (∀ id, streams_of id wr ≤ 1) →
  muxWindow (mux ws) ≤ muxWindow (mux wr) → muxWindow (mux ws) < 2^63 →
  Inv rs ws hs phs ls → admits rr (wlog ws) wr hr.
Proof.
  intros Hir Hbs Hbr Ht Hs Hr Hus Hur Hle Hint His q s Hq.
  destruct (run_written rr wr hr phr lr os q s Hir Hq) as (l1 & l2 & post & Hw & Hst & Hm). rewrite <-Hs in Hw.
  exists l1, l2, post. split_and!; [done..|]. intros f rest -> Hf. by eapply (admitted_pair M rr ws wr).
Qed.

(** C4: an endpoint that keeps to its window is never reset.  The same network, with
    windows that fit, in a run where the sends on a stream take turns (credit
    is taken from a stream only when the bytes taken before were written): for
    every stream at either end, the messages receivers took, its backlog and
    [post] are the messages the other side wrote for it, and [tryDeliver] does
    not refuse the first message of [post], unless it is empty.  Stream ids do not
    wrap around in the run ([trace_step]). *)
Theorem window_obeyed_not_refused {I HH} M (opts : list (DialOption I HH)) ts srv cc cs σc σs u :
  let n := connected opts ts srv cc cs σc σs in
  let Wc := muxWindow (mux (world (client n))) in let Ws := muxWindow (mux (world (server n))) in
  0 < M < 2^63 → Wc < 2^63 → Ws < 2^63 →
  Forall (calls InCaller (small M)) ts → handlers_call InHandler (small M) srv →
  rtc turn_step (mkTurn (mkTrace n (λ _, []) (λ _, [])) (λ _, 0) (λ _, 0)) u →
  let wc := world (client (net (trace u))) in let ws := world (server (net (trace u))) in
  (Wc ≤ Ws → admits InHandler (wlog wc) ws (server_took (trace u))) ∧
  (Ws ≤ Wc → admits InCaller (wlog ws) wc (client_took (trace u))).
Proof.
  intros n Wc Ws HM HWc HWs Hts Hh Hrun wc ws.
  destruct (joined_start True M opts ts srv cc cs σc σs Hts Hh) as (? & ? & ? & ? & Hj).
  destruct (joined_turns M Wc Ws _ _ _ _ _ _ HM HWc HWs Hrun Hj) as (phc & lc & phs & ls & [Hl Hc Hs]).
  pose proof (λ id, streams_unique (small M) _ _ _ _ _ id Hl) as Hun. pose proof (lk_net _ _ _ _ _ _ Hl) as [_ Ho Hi _ _].
  destruct Hc as [Hic Hbc Htc HWc'], Hs as [His Hbs Hts' HWs']. unfold wc, ws. rewrite <-HWc', <-HWs'.
  split; intros Hle; (eapply (admits_pair M); [done|done|done|by auto|done|done| | |done| |done]);
    try (intros id; apply Hun); congruence.
Qed.

(** ** Running a network whose sends take turns *)

Definition turns_check (w w' : W) (T : nat → Z) : bool :=
  forallb (λ p, match heap w !! p, heap w' !! p with
    | Some s, Some s' => (sendWindow s <=? sendWindow s') || (T p <=? sum_by (carried (sid s)) (wlog w))
    | _, _ => true
    end) (seq 0 (length (heap w))).

Lemma turns_check_ok w w' T : turns_check w w' T = true → turns w w' T.
Proof.
  unfold turns_check. rewrite forallb_forall. intros Hc p s s' Hp Hp' Hlt.
  assert (p ∈ seq 0 (length (heap w))) as Hin by (apply elem_of_seq; apply lookup_lt_Some in Hp; lia).
  apply list_elem_of_In, Hc in Hin. rewrite Hp, Hp' in Hin. lia.
Qed.

Definition turn_tick (side : bool) (i : nat) (u : Turn) : Turn :=
  let t := trace u in
  match try_tick side i (net t) with
  | Some n' =>
      let wc := world (client (net t)) in let wc' := world (client n') in
      let ws := world (server (net t)) in let ws' := world (server n') in
      if (nextID (mux wc) <=? nextID (mux wc')) && turns_check wc wc' (client_spent u) &&
         turns_check ws ws' (server_spent u)
      then mkTurn (mkTrace n' (record wc wc' (client_took t)) (record ws ws' (server_took t)))
             (spend wc wc' (client_spent u)) (spend ws ws' (server_spent u))
      else u
  | None => u
  end.

Definition turn_run (l : list (bool * nat)) (u : Turn) : Turn := foldl (λ u x, turn_tick x.1 x.2 u) u l.

Lemma turn_run_rtc l u : rtc turn_step u (turn_run l u).
Proof.
  unfold turn_run. revert u. induction l as [|x l IH]; intros u; simpl; [done|].
  etrans; [|apply IH]. unfold turn_tick. destruct (try_tick x.1 x.2 (net (trace u))) as [n'|] eqn:E; [|done].
  destruct (_ && _) eqn:Hc; [|done]. apply andb_true_iff in Hc as [[Hn Hc]%andb_true_iff Hs].
  apply turns_check_ok in Hc, Hs. apply rtc_once.
  apply (turn_step_trace u (mkTrace n' _ _)); [|done..]. apply trace_step_net; [by eapply try_tick_step|lia].
Qed.

End window.
