(* ===== verification/Echo.v ===== *)
(** * The generated echo service

    [example/proto/echo/v1/echo_ws.pb.go], the output of the generator (Generator.v,
    EchoGolden.v) for a service with one method of each kind: the adapters that
    serve the handler interface over streams, the typed client, and the bridge that
    serves a gRPC implementation with its interceptors.  Here it is a program over
    the runtime.

    The messages are records; [proto.Marshal] and [proto.Unmarshal] are parameters.
    A pointer to a message is the message. *)

From S2P Require Import Prelude Goroutine Status Context Conn Strconv Stream World StreamOps MuxOps Endpoint Admission Alone Routing Lifecycle Options Server Dispatch Metadata Registrar.

(** ** Messages *)

Record UnaryRequest := mkUnaryRequest { Name : string }.
Record UnaryResponse := mkUnaryResponse { Greeting : string }.
Record ServerStreamRequest := mkServerStreamRequest { Count : Z (* int32 *) }.
Record ServerStreamResponse := mkServerStreamResponse { Index : Z (* int32 *) }.
Record ClientStreamRequest := mkClientStreamRequest { Value : Z (* int32 *) }.
Record ClientStreamResponse := mkClientStreamResponse { Sum : Z (* int32 *) }.
Record BidiRequest := mkBidiRequest { Text : string }.
Record BidiResponse := mkBidiResponse { Echo : string }.

(** What the code uses of a message type: [new(T)], [proto.Marshal] and
    [proto.Unmarshal]. *)
Class ProtoMessage (T : Type) := {
  proto_new : T;
  proto_Marshal : T → error + bytes;
  proto_Unmarshal : bytes → error + T
}.

(** A [proto.Message] of the package, and a value of type [any]. *)
Inductive message :=
| MUnaryRequest (m : UnaryRequest) | MUnaryResponse (m : UnaryResponse)
| MServerStreamRequest (m : ServerStreamRequest) | MServerStreamResponse (m : ServerStreamResponse)
| MClientStreamRequest (m : ClientStreamRequest) | MClientStreamResponse (m : ClientStreamResponse)
| MBidiRequest (m : BidiRequest) | MBidiResponse (m : BidiResponse).

Inductive any := AProto (m : message) | ANotProto.

(** What is given to [RecvMsg]: a pointer to a message of some type, or something
    else. *)
Inductive target :=
| TUnaryRequest | TUnaryResponse | TServerStreamRequest | TServerStreamResponse
| TClientStreamRequest | TClientStreamResponse | TBidiRequest | TBidiResponse
| TNotProto.

(** Messages are countable, so that a captured one can be kept in the state. *)
Definition message_code (a : message) : Z * string + Z * Z :=
  match a with
  | MUnaryRequest m => inl (0, Name m) | MUnaryResponse m => inl (1, Greeting m)
  | MBidiRequest m => inl (2, Text m) | MBidiResponse m => inl (3, Echo m)
  | MServerStreamRequest m => inr (0, Count m) | MServerStreamResponse m => inr (1, Index m)
  | MClientStreamRequest m => inr (2, Value m) | MClientStreamResponse m => inr (3, Sum m)
  end.
Definition message_of_code (e : Z * string + Z * Z) : message :=
  match e with
  | inl (0, s) => MUnaryRequest (mkUnaryRequest s)
  | inl (1, s) => MUnaryResponse (mkUnaryResponse s)
  | inl (2, s) => MBidiRequest (mkBidiRequest s)
  | inl (_, s) => MBidiResponse (mkBidiResponse s)
  | inr (0, z) => MServerStreamRequest (mkServerStreamRequest z)
  | inr (1, z) => MServerStreamResponse (mkServerStreamResponse z)
  | inr (2, z) => MClientStreamRequest (mkClientStreamRequest z)
  | inr (_, z) => MClientStreamResponse (mkClientStreamResponse z)
  end.
Lemma message_code_inv m : message_of_code (message_code m) = m.
Proof. by destruct m as [[]|[]|[]|[]|[]|[]|[]|[]]. Qed.

#[export] Instance message_eq_dec : EqDecision message.
Proof.
  intros a b. destruct (decide (message_code a = message_code b)) as [E|E]; [left|right; congruence].
  by rewrite <-(message_code_inv a), E, message_code_inv.
Defined.
#[export] Instance message_countable : Countable message :=
  inj_countable' message_code message_of_code message_code_inv.

#[local] Arguments set_stream : simpl never.

Section echo.
Context {C : Type} `{!FrameConn C} `{!GrpcLib}.
Abbreviation W := (World C).
Implicit Types (w : W) (p : nat) (c : GoCtx).
Context `{!ProtoMessage UnaryRequest, !ProtoMessage UnaryResponse,
  !ProtoMessage ServerStreamRequest, !ProtoMessage ServerStreamResponse,
  !ProtoMessage ClientStreamRequest, !ProtoMessage ClientStreamResponse,
  !ProtoMessage BidiRequest, !ProtoMessage BidiResponse}.

(** ** Server stream wrappers

    A wrapper is the stream [p] it holds. *)

Definition ws_Send {Res} `{!ProtoMessage Res} p (m : Res) : Prog W (option error) := Send proto_Marshal p m.
Definition ws_Recv {Req} `{!ProtoMessage Req} p : Prog W (error + Req) := Recv proto_Unmarshal p.
Definition ws_RecvContext {Req} `{!ProtoMessage Req} (c : ctx) p : Prog W (error + Req) :=
  RecvContext proto_Unmarshal c p.
Definition ws_Context p : Prog W ctx := stream_Context p.

(** ** The handler interface *)

Record EchoServiceHandler := mkEchoServiceHandler {
  h_Unary : GoCtx → UnaryRequest → Prog W (Outcome (error + UnaryResponse));
  h_ServerStream : GoCtx → ServerStreamRequest → nat → Prog W (Outcome (option error));
  h_ClientStream : GoCtx → nat → Prog W (Outcome (error + ClientStreamResponse));
  h_Bidi : GoCtx → nat → Prog W (Outcome (option error))
}.

(** ** RegisterEchoServiceHandler *)

(** [req := new(Req); if err := s.Recv(req); err != nil && err != io.EOF { return err }]. *)
Definition recv_request {Req} `{!ProtoMessage Req} p : Prog W (error + Req) :=
  r <- Recv proto_Unmarshal p ;;
  match r with
  | inl e => if decide (e = ErrEOF) then Ret (inr proto_new) else Ret (inl e)
  | inr req => Ret (inr req)
  end.

(** What follows a handler that returned a response. *)
Definition unary_respond p (sink : option nat) (res : UnaryResponse) : Prog W (option error) :=
  h <- UnaryMD_Header sink ;;
  match h with
  | Some _ => SendHeader p h ;; Ret ()
  | None => Ret ()
  end ;;
  t <- UnaryMD_Trailer sink ;;
  SetTrailer p t ;;
  Send proto_Marshal p res.

Definition adapter_Unary (impl : EchoServiceHandler) : Handler := λ (c0 : ctx) p,
  r <- recv_request p ;;
  match r with
  | inl err => Ret (Returned (Some err))
  | inr req =>
      cu <- WithUnaryMetadata (mkGoCtx c0 None None None) ;;
      o <- h_Unary impl cu.1 req ;;
      match o with
      | Paniced v => Ret (Panicked v)
      | Done (inl err) => Ret (Returned (Some err))
      | Done (inr res) => err <- unary_respond p cu.2 res ;; Ret (Returned err)
      end
  end.

Definition adapter_ServerStream (impl : EchoServiceHandler) : Handler := λ (c0 : ctx) p,
  r <- recv_request p ;;
  match r with
  | inl err => Ret (Returned (Some err))
  | inr req => o <- h_ServerStream impl (mkGoCtx c0 None None None) req p ;; Ret (handler_result o)
  end.

Definition adapter_ClientStream (impl : EchoServiceHandler) : Handler := λ (c0 : ctx) p,
  o <- h_ClientStream impl (mkGoCtx c0 None None None) p ;;
  match o with
  | Paniced v => Ret (Panicked v)
  | Done (inl err) => Ret (Returned (Some err))
  | Done (inr res) => err <- Send proto_Marshal p res ;; Ret (Returned err)
  end.

Definition adapter_Bidi (impl : EchoServiceHandler) : Handler := λ (c0 : ctx) p,
  o <- h_Bidi impl (mkGoCtx c0 None None None) p ;; Ret (handler_result o).

Definition RegisterEchoServiceHandler (srv : Server (C:=C)) (impl : EchoServiceHandler) : Server :=
  Register "/echo.v1.EchoService/Bidi" (Some (adapter_Bidi impl))
  (Register "/echo.v1.EchoService/ClientStream" (Some (adapter_ClientStream impl))
  (Register "/echo.v1.EchoService/ServerStream" (Some (adapter_ServerStream impl))
  (Register "/echo.v1.EchoService/Unary" (Some (adapter_Unary impl)) srv))).

(** ** The grpc.ServerStream shim

    [x] is the address of its mutable part. *)

Definition Marshal (m : message) : error + bytes :=
  match m with
  | MUnaryRequest m => proto_Marshal m | MUnaryResponse m => proto_Marshal m
  | MServerStreamRequest m => proto_Marshal m | MServerStreamResponse m => proto_Marshal m
  | MClientStreamRequest m => proto_Marshal m | MClientStreamResponse m => proto_Marshal m
  | MBidiRequest m => proto_Marshal m | MBidiResponse m => proto_Marshal m
  end.

Definition unmarshal_as {T} `{!ProtoMessage T} (f : T → message) (b : bytes) : error + message :=
  match proto_Unmarshal b with inl e => inl e | inr m => inr (f m) end.

(** [proto.Unmarshal] into the target, when it is a message. *)
Definition Unmarshal (t : target) : option (bytes → error + message) :=
  match t with
  | TUnaryRequest => Some (unmarshal_as MUnaryRequest)
  | TUnaryResponse => Some (unmarshal_as MUnaryResponse)
  | TServerStreamRequest => Some (unmarshal_as MServerStreamRequest)
  | TServerStreamResponse => Some (unmarshal_as MServerStreamResponse)
  | TClientStreamRequest => Some (unmarshal_as MClientStreamRequest)
  | TClientStreamResponse => Some (unmarshal_as MClientStreamResponse)
  | TBidiRequest => Some (unmarshal_as MBidiRequest)
  | TBidiResponse => Some (unmarshal_as MBidiResponse)
  | TNotProto => None
  end.

(** The captured message. *)
Definition captured_message (st : ShimState) : option message :=
  match captured st with Some n => decode n | None => None end.

(** [for k, v := range md { pending[k] = append(pending[k], v...) }], on a map that
    was made when it was nil. *)
Definition append_md (q md : MD) : MD :=
  Some (union_with (λ a b, Some (a ++ b)) (default ∅ q) (default ∅ md)).

Definition shim_SetHeader x (md : MD) : Prog W (option error) :=
  on_shim x (λ st, (st <| pendingHeader ::= λ q, append_md q md |>, None)).

Definition shim_SendHeader p x (md : MD) : Prog W (option error) :=
  err <- shim_SetHeader x md ;;
  match err with
  | Some e => Ret (Some e)
  | None =>
      h <- on_shim x (λ st, (st, pendingHeader st)) ;;
      err <- SendHeader p (FlattenMD h) ;;
      on_shim x (λ st, (st <| pendingHeader := None |>, ())) ;;
      Ret err
  end.

Definition shim_SetTrailer p (md : MD) : Prog W unit := SetTrailer p (FlattenMD md).

Definition shim_flush p x : Prog W unit :=
  h <- on_shim x (λ st, (st, pendingHeader st)) ;;
  match h with
  | Some _ =>
      SendHeader p (FlattenMD h) ;;
      on_shim x (λ st, (st <| pendingHeader := None |>, ()))
  | None => Ret ()
  end.

Definition shim_SendMsg p x (capturing : bool) (m : any) : Prog W (option error) :=
  match m with
  | ANotProto => Ret (Some (Errorf codes.Internal "wsrpc: SendMsg expected proto.Message"))
  | AProto pm =>
      if capturing then on_shim x (λ st, (st <| captured := Some (encode pm) |>, None))
      else shim_flush p x ;; Send Marshal p pm
  end.

Definition shim_RecvMsg p (t : target) : Prog W (error + any) :=
  match Unmarshal t with
  | None => Ret (inl (Errorf codes.Internal "wsrpc: RecvMsg expected proto.Message"))
  | Some u =>
      r <- Recv u p ;;
      match r with inl e => Ret (inl e) | inr m => Ret (inr (AProto m)) end
  end.

Definition echoServiceGRPCStream p c x (capturing : bool) : ServerStream :=
  mkServerStream c (shim_SetHeader x) (shim_SendHeader p x) (shim_SetTrailer p)
    (shim_SendMsg p x capturing) (shim_RecvMsg p).

(** ** The gRPC bridge *)

(** The interface of protoc-gen-go-grpc.  A [grpc.GenericServerStream] is the
    [grpc.ServerStream] it wraps. *)
Record EchoServiceServer := mkEchoServiceServer {
  s_Unary : GoCtx → UnaryRequest → Prog W (Outcome (error + UnaryResponse));
  s_ServerStream : ServerStreamRequest → ServerStream (C:=C) (Msg:=any) (Target:=target) → Prog W (Outcome (option error));
  s_ClientStream : ServerStream (C:=C) (Msg:=any) (Target:=target) → Prog W (Outcome (option error));
  s_Bidi : ServerStream (C:=C) (Msg:=any) (Target:=target) → Prog W (Outcome (option error))
}.

Record UnaryServerInfo := mkUnaryServerInfo { ui_Server : EchoServiceServer; ui_FullMethod : string }.

Definition UnaryHandler : Type := GoCtx → any → Prog W (Outcome (error + any)).
Definition UnaryServerInterceptor : Type :=
  GoCtx → any → UnaryServerInfo → UnaryHandler → Prog W (Outcome (error + any)).
Abbreviation StreamInterceptor :=
  (StreamServerInterceptor (C:=C) (Impl:=EchoServiceServer) (Msg:=any) (Target:=target)).

Record echoServiceGRPCBridge := mkBridge {
  b_impl : EchoServiceServer;
  b_cfg : BridgeConfig UnaryServerInterceptor StreamInterceptor
}.

(** [r.( *UnaryRequest)] of the handler the interceptor calls panics on another type. *)
Definition bridge_unary_handler (impl : EchoServiceServer) : UnaryHandler := λ c r,
  match r with
  | AProto (MUnaryRequest req) =>
      o <- s_Unary impl c req ;;
      match o with
      | Paniced v => Ret (Paniced v)
      | Done (inl e) => Ret (Done (inl e))
      | Done (inr res) => Ret (Done (inr (AProto (MUnaryResponse res))))
      end
  | _ => Ret (Paniced "interface conversion")
  end.

Definition bridge_Unary (b : echoServiceGRPCBridge) c (req : UnaryRequest)
    : Prog W (Outcome (error + UnaryResponse)) :=
  match bc_Unary (b_cfg b) with
  | None => s_Unary (b_impl b) c req
  | Some ic =>
      let c := c <| gc_transport := Some (UnaryServerTransportStream c "/echo.v1.EchoService/Unary") |> in
      let info := mkUnaryServerInfo (b_impl b) "/echo.v1.EchoService/Unary" in
      o <- ic c (AProto (MUnaryRequest req)) info (bridge_unary_handler (b_impl b)) ;;
      match o with
      | Paniced v => Ret (Paniced v)
      | Done (inl e) => Ret (Done (inl e))
      | Done (inr (AProto (MUnaryResponse out))) => Ret (Done (inr out))
      | Done (inr _) =>
          Ret (Done (inl (Errorf codes.Internal
            "wsrpc: EchoService.Unary interceptor returned unexpected response type")))
      end
  end.

(** Running a streaming handler, through the interceptor when there is one. *)
Definition bridge_run (b : echoServiceGRPCBridge) (ss : ServerStream) (info : StreamServerInfo)
    (h : StreamHandler) : Prog W (Outcome (option error)) :=
  match bc_Stream (b_cfg b) with
  | None => h (b_impl b) ss
  | Some ic => ic (b_impl b) ss info h
  end.

Definition bridge_ServerStream (b : echoServiceGRPCBridge) c (req : ServerStreamRequest) p
    : Prog W (Outcome (option error)) :=
  x <- new_shim (mkShimState None None) ;;
  bridge_run b (echoServiceGRPCStream p c x false)
    (mkStreamServerInfo "/echo.v1.EchoService/ServerStream" false true)
    (λ _ ss, s_ServerStream (b_impl b) req ss).

Definition bridge_ClientStream (b : echoServiceGRPCBridge) c p
    : Prog W (Outcome (error + ClientStreamResponse)) :=
  x <- new_shim (mkShimState None None) ;;
  o <- bridge_run b (echoServiceGRPCStream p c x true)
    (mkStreamServerInfo "/echo.v1.EchoService/ClientStream" true false)
    (λ _ ss, s_ClientStream (b_impl b) ss) ;;
  match o with
  | Paniced v => Ret (Paniced v)
  | Done (Some err) => Ret (Done (inl err))
  | Done None =>
      m <- on_shim x (λ st, (st, captured_message st)) ;;
      match m with
      | None =>
          Ret (Done (inl (Errorf codes.Internal
            "wsrpc: EchoService.ClientStream handler returned without SendAndClose")))
      | Some (MClientStreamResponse res) => Ret (Done (inr res))
      | Some _ => Ret (Paniced "interface conversion")
      end
  end.

Definition bridge_Bidi (b : echoServiceGRPCBridge) c p : Prog W (Outcome (option error)) :=
  x <- new_shim (mkShimState None None) ;;
  bridge_run b (echoServiceGRPCStream p c x false)
    (mkStreamServerInfo "/echo.v1.EchoService/Bidi" true true)
    (λ _ ss, s_Bidi (b_impl b) ss).

Definition EchoServiceFromGRPC (impl : EchoServiceServer)
    (opts : list (BridgeOption UnaryServerInterceptor StreamInterceptor)) : EchoServiceHandler :=
  let b := mkBridge impl (ApplyBridgeOptions opts) in
  mkEchoServiceHandler (bridge_Unary b) (bridge_ServerStream b) (bridge_ClientStream b) (bridge_Bidi b).

(** ** The client *)

Section client.
Context (acquire : ctx → Prog W (option error)) (remaining : ctx → option Z).
Context (interceptors : list (Interceptor (C:=C) (M:=message))).

(** [out.( *UnaryResponse)] panics when an interceptor returned another message. *)
Definition client_Unary (c0 : ctx) (req : UnaryRequest) (opts : list CallOption)
    : Prog W (Outcome (error + UnaryResponse)) :=
  r <- InvokeUnary Marshal acquire remaining interceptors c0
    (mkMethodSpec "/echo.v1.EchoService/Unary" StreamKindUnary) (MUnaryRequest req)
    (unmarshal_as MUnaryResponse) (CallHeaders opts) ;;
  match r with
  | inl e => Ret (Done (inl e))
  | inr (MUnaryResponse out) => Ret (Done (inr out))
  | inr _ => Ret (Paniced "interface conversion")
  end.

(** A typed client stream is the connection it holds. *)
Abbreviation opened := (OpenStreamingClient Marshal acquire remaining interceptors).

Definition client_ServerStream (c0 : ctx) (req : ServerStreamRequest) (opts : list CallOption)
    : Prog W (error + Handle opened) :=
  r <- openWith opened c0
    (mkMethodSpec "/echo.v1.EchoService/ServerStream" StreamKindServerStream) (CallHeaders opts) ;;
  match r with
  | inl e => Ret (inl e)
  | inr h =>
      err <- scSend (connOf opened h) (MServerStreamRequest req) ;;
      match err with
      | Some e => Ret (inl e)
      | None =>
          err <- CloseRequest (connOf opened h) ;;
          match err with
          | Some e => Ret (inl e)
          | None => Ret (inr h)
          end
      end
  end.

Definition client_ClientStream (c0 : ctx) (opts : list CallOption) : Prog W (error + Handle opened) :=
  openWith opened c0
    (mkMethodSpec "/echo.v1.EchoService/ClientStream" StreamKindClientStream) (CallHeaders opts).

Definition client_Bidi (c0 : ctx) (opts : list CallOption) : Prog W (error + Handle opened) :=
  openWith opened c0
    (mkMethodSpec "/echo.v1.EchoService/Bidi" StreamKindBidiStream) (CallHeaders opts).

(** The methods of a client stream; the message [Receive] fills is of type [T]. *)
Definition cs_Send {T} (f : T → message) (conn : StreamingClientConn (C:=C) (M:=message)) (m : T)
    : Prog W (option error) := scSend conn (f m).
Definition cs_Recv {T} `{!ProtoMessage T} (f : T → message)
    (conn : StreamingClientConn (C:=C) (M:=message)) : Prog W (error + message) :=
  Receive conn (unmarshal_as f).
Definition cs_CloseSend (conn : StreamingClientConn (C:=C) (M:=message)) : Prog W (option error) :=
  CloseRequest conn.
Definition cs_Header (conn : StreamingClientConn (C:=C) (M:=message)) : Prog W gomap := ResponseHeader conn.
Definition cs_Trailer (conn : StreamingClientConn (C:=C) (M:=message)) : Prog W gomap := ResponseTrailer conn.
Definition cs_CloseAndRecv {T} `{!ProtoMessage T} (f : T → message)
    (conn : StreamingClientConn (C:=C) (M:=message)) : Prog W (error + message) :=
  err <- CloseRequest conn ;;
  match err with
  | Some e => Ret (inl e)
  | None => cs_Recv f conn
  end.

End client.

(** ** What the bridge does with response metadata *)

Lemma total_on_shim {B} (Q : B → W → Prop) x st (g : ShimState → ShimState * B) w :
  shims w !! x = Some st → Q (g st).2 (put_shims (<[x:=(g st).1]>) w) → total Q (on_shim x g) w.
Proof.
  intros Hk HQ. apply total_act; rewrite Hk; destruct (g st) as [k' b]; [done|].
  intros. inv_elem. done.
Qed.

Lemma put_shims_id x st (w : W) : shims w !! x = Some st → put_shims (<[x:=st]>) w = w.
Proof. intros Hk. unfold put_shims. destruct w; simpl in *. f_equal. by apply list_insert_id. Qed.

Lemma put_shims_twice x st st' (w : W) :
  put_shims (<[x:=st]>) (put_shims (<[x:=st']>) w) = put_shims (<[x:=st]>) w.
Proof. unfold put_shims. destruct w; simpl. by rewrite list_insert_insert_eq. Qed.

Lemma sendable_put_shims P p s f w : sendable P p s w → sendable P p s (put_shims f w).
Proof. by intros []. Qed.

Lemma total_shim_SetHeader (Q : option error → W → Prop) x st md w :
  shims w !! x = Some st →
  Q None (put_shims (<[x:=st <| pendingHeader := append_md (pendingHeader st) md |>]>) w) →
  total Q (shim_SetHeader x md) w.
Proof. intros Hx HQ. by eapply total_on_shim. Qed.

(** A message of a stream that is not client-streaming: the headers that are pending
    go out first, unless headers or a message were sent before. *)
Lemma total_shim_SendMsg P (Q : option error → W → Prop) p x s st pm out w :
  lossless P → sendable P p s w → shims w !! x = Some st → Marshal pm = inr out →
  (∀ s' w', heap w' = <[p:=s']> (heap w) → shims w' = <[x:=st <| pendingHeader := None |>]> (shims w) →
     wlog w' = wlog w ++ message_frames s (mkServerStreamState (pendingHeader st)) out → Q None w') →
  total Q (shim_SendMsg p x false (AProto pm)) w.
Proof.
  intros HP Hs Hst Hout HQ. unfold shim_SendMsg, shim_flush, Send. rewrite Hout.
  apply total_bind, total_bind. eapply total_on_shim; [done|]. simpl. rewrite put_shims_id by done.
  unfold message_frames in HQ. simpl in HQ. destruct (pendingHeader st) as [q|] eqn:Eq.
  - apply total_bind. destruct (headerSent s || msgSent s) eqn:Ef.
    + eapply total_mono; [|eapply SendHeader_refused; [apply Hs..|exact Ef]]. intros r w' [-> ->].
      eapply total_on_shim; [done|].
      eapply (total_send_lossless P _ _ s); [done|by apply sendable_put_shims|].
      intros w' Hh Hl [_ _ _ _ Hg] _. by eapply HQ.
    + eapply (total_header_lossless P); [done..|]. intros w1 Hh1 Hl1 [_ _ _ _ Hg1] Hs1.
      eapply total_on_shim; [by rewrite Hg1|].
      eapply (total_send_lossless P); [done|by apply sendable_put_shims|].
      intros w' Hh Hl [_ _ _ _ Hg] _. eapply HQ.
      * rewrite Hh. simpl. by rewrite Hh1, list_insert_insert_eq.
      * rewrite Hg. simpl. by rewrite Hg1.
      * rewrite Hl. simpl. by rewrite Hl1, <-app_assoc.
  - apply total_ret. eapply (total_send_lossless P _ _ s); [done..|].
    intros w' Hh Hl [_ _ _ _ Hg] _. eapply HQ; try done. rewrite Hg.
    symmetry. apply list_insert_id. rewrite Hst. f_equal. destruct st; simpl in *; by subst.
Qed.

(** A client-streaming gRPC method that sets a header and responds. *)
Definition header_then_reply (md : MD) (res : ClientStreamResponse)
    (ss : ServerStream (C:=C) (Msg:=any) (Target:=target)) : Prog W (Outcome (option error)) :=
  ss_SetHeader ss md ;;
  err <- ss_SendMsg ss (AProto (MClientStreamResponse res)) ;;
  Ret (Done err).

(** C35: response headers are lost by the bridge of a client-streaming method.  The
    method sets a header on its ServerStream and responds; the call succeeds, its
    response is written, and no HEADER frame is: the shim captures the response
    before it looks at the pending headers, and nothing flushes them later. *)
Theorem client_stream_bridge_drops_header P impl md res out (c0 : ctx) p s w :
  lossless P → sendable P p s w → s_ClientStream impl = header_then_reply md res →
  proto_Marshal res = inr out →
  total (λ r w', r = Returned None ∧ wlog w' = wlog w ++ [msg_frame (sid s) out])
    (adapter_ClientStream (EchoServiceFromGRPC impl []) c0 p) w.
Proof.
  intros HP Hs Himpl Hout. unfold adapter_ClientStream. apply total_bind. simpl.
  unfold bridge_ClientStream, bridge_run. simpl. rewrite Himpl.
  apply total_bind, total_update, total_bind. unfold header_then_reply. simpl.
  set (w1 := put_shims _ w). assert (shims w1 !! length (shims w) = Some (mkShimState None None)) as Hx.
  { by apply list_lookup_middle. }
  apply total_bind. eapply total_shim_SetHeader; [done|].
  apply total_bind. eapply total_on_shim; [by eapply list_lookup_insert_eq, lookup_lt_Some|].
  rewrite put_shims_twice. apply total_ret, total_bind.
  eapply total_on_shim; [by eapply list_lookup_insert_eq, lookup_lt_Some|].
  rewrite put_shims_twice. unfold captured_message. simpl. rewrite decode_encode.
  apply total_ret, total_bind. unfold Send. rewrite Hout.
  eapply (total_send_lossless P _ _ s); [done|by do 2 apply sendable_put_shims|].
  intros w' _ Hl _ _. apply total_ret. by rewrite Hl.
Qed.

Lemma unary_respond_flush p sink res out :
  proto_Marshal res = inr out → unary_respond p sink res = unary_flush p sink out.
Proof.
  intros Hout. unfold unary_respond.
  assert (Send proto_Marshal p res = SendRaw p out) as -> by (unfold Send; by rewrite Hout). done.
Qed.

(** A unary call whose handler leaves the sink of the call as [k], with [R k]. *)
Lemma total_adapter_Unary P impl (c0 : ctx) p s f q (req : UnaryRequest) res out (R : mdSink → Prop) w :
  lossless P → sendable P p s w → headerSent s || msgSent s = false → recvItems s = f :: q →
  proto_Unmarshal (Payload f) = inr req → proto_Marshal res = inr out →
  (∀ w1, sinks w1 !! length (sinks w) = Some (mkMdSink None None) →
     total (λ o w2, o = Done (inr res) ∧ ∃ k, w2 = put_sinks (<[length (sinks w):=k]>) w1 ∧ R k)
       (h_Unary impl (mkGoCtx c0 (Some (length (sinks w))) None None) req) w1) →
  total (λ r w', r = Returned None ∧ ∃ k, R k ∧ replies w' =
      replies w ++ header_frames (sid s) (non_empty (sk_header k)) ++ [msg_frame (sid s) out])
    (adapter_Unary impl c0 p) w.
Proof.
  intros HP [Hp Hmu Hwin Hlive Hr] Hfirst Hi Hreq Hout Hh. unfold adapter_Unary, recv_request.
  apply total_bind, total_bind. unfold Recv, RecvContext. apply total_bind.
  eapply (recv_buffered P); [apply HP|done..|].
  intros x y w1 Hh1 Hr1 [Hσ1 Hm1 Hk1 _ _] Hrep. simpl. apply total_ret. rewrite Hreq.
  apply total_ret, total_bind, total_bind, total_update, total_ret. simpl. rewrite Hk1.
  apply total_bind. eapply total_mono; [|apply Hh; simpl; rewrite Hk1; by apply list_lookup_middle].
  intros o w2 [-> (k & -> & HR)]. apply total_bind. rewrite (unary_respond_flush _ _ _ out) by done.
  eapply (total_unary_flush P _ _ (consumed x y q s) _ k); [done| |done| |].
  - split; simpl; [rewrite Hh1; apply list_lookup_insert_eq; by eapply lookup_lt_Some|done|done|
      by rewrite Hσ1|done].
  - simpl. apply list_lookup_insert_eq. rewrite Hk1, length_app. simpl. lia.
  - intros err w3 [-> Hfr _]. apply total_ret. split; [done|]. exists k. split; [done|].
    unfold replies in *. rewrite Hfr, !filter_app. simpl. rewrite Hrep. f_equal. f_equal.
    by destruct (non_empty (sk_header k)).
Qed.

(** [grpc.SetHeader(ctx, md)]: an error without a transport stream in the context. *)
Definition grpc_SetHeader (no_transport : error) c (md : MD) : Prog W (option error) :=
  match gc_transport c with
  | Some t => ts_SetHeader t md
  | None => Ret (Some no_transport)
  end.

(** A unary gRPC method that sets a response header, and an interceptor that only
    calls the handler. *)
Definition header_then_return (no_transport : error) (md : MD) (res : UnaryResponse) c (req : UnaryRequest)
    : Prog W (Outcome (error + UnaryResponse)) :=
  grpc_SetHeader no_transport c md ;; Ret (Done (inr res)).

Definition pass_through : UnaryServerInterceptor := λ c r _ h, h c r.

(** C36: response metadata of a bridged unary method needs an interceptor.  A method
    that calls grpc.SetHeader and responds: with an interceptor that does nothing
    but call it, the header goes out in front of the response; without one the
    bridge installs no transport stream, and only the response is sent. *)
Theorem unary_bridge_header P impl nt md h (req : UnaryRequest) res out (c0 : ctx) p s f q w :
  lossless P → sendable P p s w → headerSent s || msgSent s = false → recvItems s = f :: q →
  proto_Unmarshal (Payload f) = inr req → proto_Marshal res = inr out →
  s_Unary impl = header_then_return nt md res → FlattenMD md = Some h → h ≠ ∅ →
  total (λ r w', r = Returned None ∧
      replies w' = replies w ++ [header_frame (sid s) (Some h); msg_frame (sid s) out])
    (adapter_Unary (EchoServiceFromGRPC impl [WithUnaryInterceptor (Some pass_through)]) c0 p) w ∧
  total (λ r w', r = Returned None ∧ replies w' = replies w ++ [msg_frame (sid s) out])
    (adapter_Unary (EchoServiceFromGRPC impl []) c0 p) w.
Proof.
  intros HP Hs Hfirst Hi Hreq Hout Himpl Hmd Hne.
  assert ((gomap_len (Some h) =? 0) = false) as Hlen.
  { unfold gomap_len. simpl. apply Z.eqb_neq. intros E. apply Hne, map_size_empty_inv. lia. }
  split.
  - eapply total_mono; [|apply (total_adapter_Unary P _ c0 p s f q req res out (λ k, sk_header k = Some h)); try done].
    { intros r w' [-> (k & Hk & Hrep)]. split; [done|]. rewrite Hrep, Hk. unfold non_empty. by rewrite Hlen. }
    intros w1 Hk1. simpl. unfold bridge_Unary, pass_through. simpl. rewrite Himpl.
    unfold header_then_return, grpc_SetHeader, ts_SetHeader, ctx_SetHeader. simpl. rewrite Hmd.
    apply total_bind, total_bind, total_bind, total_bind. eapply total_mergeHeader; [done|].
    do 4 apply total_ret. split; [done|]. eexists. split; [done|]. rewrite Hlen. simpl.
    unfold merge_into, gomap_merge. simpl. by rewrite map_union_empty.
  - eapply total_mono; [|apply (total_adapter_Unary P _ c0 p s f q req res out (λ k, k = mkMdSink None None)); try done].
    { intros r w' [-> (k & -> & Hrep)]. by rewrite Hrep. }
    intros w1 Hk1. simpl. unfold bridge_Unary. simpl. rewrite Himpl.
    unfold header_then_return, grpc_SetHeader. simpl. apply total_bind, total_ret, total_ret.
    split; [done|]. eexists. split; [|done]. by rewrite put_sinks_id.
Qed.

End echo.
