(* ===== verification/EchoGrpc.v ===== *)
(** * The gRPC service of the example

    [example/proto/echo/v1/echo_grpc.pb.go], the server half: the service description
    that an implementation is registered with, its four handlers, and the
    implementation that has no method.  ([EchoServiceServer] is in Echo.v, since the
    generated bridge needs it too.) *)

From S2P Require Import Prelude Goroutine Status Context Conn Stream World StreamOps Options Server Metadata Registrar Echo.

Section echo_grpc.
Context {C : Type} `{!FrameConn C} `{!GrpcMetadata}.
Abbreviation W := (World C).
Implicit Types (c : GoCtx).

Abbreviation SS := (ServerStream (C:=C) (Msg:=any) (Target:=target)).
Abbreviation Service := (EchoServiceServer (C:=C)).

Definition EchoService_Unary_FullMethodName : string := "/echo.v1.EchoService/Unary".
Definition EchoService_ServerStream_FullMethodName : string := "/echo.v1.EchoService/ServerStream".
Definition EchoService_ClientStream_FullMethodName : string := "/echo.v1.EchoService/ClientStream".
Definition EchoService_Bidi_FullMethodName : string := "/echo.v1.EchoService/Bidi".

(** [status.Error] of gRPC is a parameter. *)
Definition UnimplementedEchoServiceServer (status_Error : Z → string → error) : Service :=
  mkEchoServiceServer
    (λ _ _, Ret (Done (inl (status_Error codes.Unimplemented "method Unary not implemented"))))
    (λ _ _, Ret (Done (Some (status_Error codes.Unimplemented "method ServerStream not implemented"))))
    (λ _, Ret (Done (Some (status_Error codes.Unimplemented "method ClientStream not implemented"))))
    (λ _, Ret (Done (Some (status_Error codes.Unimplemented "method Bidi not implemented")))).

(** The handler an interceptor is given; [req.( *UnaryRequest)] panics on another type. *)
Definition unary_handler (srv : Service) : UnaryHandler (C:=C) := λ c req,
  match req with
  | AProto (MUnaryRequest req) =>
      o <- s_Unary srv c req ;;
      match o with
      | Paniced v => Ret (Paniced v)
      | Done (inl err) => Ret (Done (inl err))
      | Done (inr res) => Ret (Done (inr (AProto (MUnaryResponse res))))
      end
  | _ => Ret (Paniced "interface conversion")
  end.

(** [dec] fills the message it is given: its result has the type of the target. *)
Definition _EchoService_Unary_Handler
    : MethodHandler (C:=C) (Impl:=Service) (Msg:=any) (Target:=target)
        (UnaryInt:=UnaryServerInterceptor (C:=C)) := λ srv c dec interceptor,
  match dec TUnaryRequest with
  | inl err => Ret (Done (inl err))
  | inr in_ =>
      match interceptor with
      | None => unary_handler srv c in_
      | Some ic =>
          ic c in_ (mkUnaryServerInfo srv EchoService_Unary_FullMethodName) (unary_handler srv)
      end
  end.

Abbreviation Streaming := (StreamHandler (C:=C) (Impl:=Service) (Msg:=any) (Target:=target)).

Definition _EchoService_ServerStream_Handler : Streaming := λ srv stream,
  r <- ss_RecvMsg stream TServerStreamRequest ;;
  match r with
  | inl err => Ret (Done (Some err))
  | inr (AProto (MServerStreamRequest m)) => s_ServerStream srv m stream
  | inr _ => Ret (Paniced "interface conversion")
  end.

Definition _EchoService_ClientStream_Handler : Streaming := λ srv stream, s_ClientStream srv stream.

Definition _EchoService_Bidi_Handler : Streaming := λ srv stream, s_Bidi srv stream.

Definition EchoService_ServiceDesc
    : ServiceDesc (C:=C) (Impl:=Service) (Msg:=any) (Target:=target) (Meta:=string)
        (UnaryInt:=UnaryServerInterceptor (C:=C)) :=
  mkServiceDesc "echo.v1.EchoService"
    [mkMethodDesc "Unary" _EchoService_Unary_Handler]
    [mkStreamDesc "ServerStream" _EchoService_ServerStream_Handler true false;
     mkStreamDesc "ClientStream" _EchoService_ClientStream_Handler false true;
     mkStreamDesc "Bidi" _EchoService_Bidi_Handler true true]
    "proto/echo/v1/echo.proto".

Section register.
Context (codec_Marshal : any → error + bytes) (codec_Unmarshal : bytes → target → error + any).

(** A [grpc.ServiceRegistrar] is the one of grpc_registrar.go; an implementation that
    embeds [UnimplementedEchoServiceServer] by value passes the test. *)
Definition RegisterEchoServiceServer
    (s : grpcRegistrar (C:=C) (Meta:=string) (UnaryInt:=UnaryServerInterceptor (C:=C))) (srv : Service)
    : grpcRegistrar :=
  RegisterService codec_Marshal codec_Unmarshal EchoService_ServiceDesc srv s.

(** The service is registered under the routes the generated handlers use. *)
Lemma registered_routes (srv : Server (C:=C)) impl opts `{!GrpcLib} (h : EchoServiceHandler (C:=C))
    `{!ProtoMessage UnaryRequest, !ProtoMessage UnaryResponse,
      !ProtoMessage ServerStreamRequest, !ProtoMessage ClientStreamResponse} :
  dom (handlers (gr_srv (RegisterEchoServiceServer (GRPCRegistrar srv opts) impl))) =
    dom (handlers (RegisterEchoServiceHandler srv h)).
Proof.
  simpl. rewrite !dom_insert_L.
  change (route_name "echo.v1.EchoService" "Unary") with EchoService_Unary_FullMethodName.
  change (route_name "echo.v1.EchoService" "ServerStream") with EchoService_ServerStream_FullMethodName.
  change (route_name "echo.v1.EchoService" "ClientStream") with EchoService_ClientStream_FullMethodName.
  change (route_name "echo.v1.EchoService" "Bidi") with EchoService_Bidi_FullMethodName.
  set_solver.
Qed.

End register.
End echo_grpc.
