(* ===== verification/ExampleServer.v ===== *)
(** * The example server

    [example/server/main.go]: an echo service with one method of each kind, served
    through the generated adapters (Echo.v), and what a call to it writes on the
    wire, from the backlog of its stream to the END frame. *)

From S2P Require Import Prelude Goroutine Status Context Conn Strconv Stream World StreamOps MuxOps Endpoint Admission Alone Routing Lifecycle Options Server Dispatch Metadata Registrar Client Dial Net Echo.

#[local] Arguments set_stream : simpl never.

Section example.
Context {C : Type} `{!FrameConn C} `{!GrpcLib}.
Abbreviation W := (World C).
Implicit Types (w : W) (p : nat) (c : GoCtx).
Context `{!ProtoMessage UnaryRequest, !ProtoMessage UnaryResponse,
  !ProtoMessage ServerStreamRequest, !ProtoMessage ServerStreamResponse,
  !ProtoMessage ClientStreamRequest, !ProtoMessage ClientStreamResponse,
  !ProtoMessage BidiRequest, !ProtoMessage BidiResponse}.

(** ** The implementation *)

Definition impl_Unary c (req : UnaryRequest) : Prog W (Outcome (error + UnaryResponse)) :=
  Ret (Done (inr (mkUnaryResponse ("hello " +:+ Name req)))).

(** [for i := int32(0); i < req.Count; i++]. *)
Definition impl_ServerStream c (req : ServerStreamRequest) p : Prog W (Outcome (option error)) :=
  Iter (λ i : Z,
    if i <? Count req then
      err <- ws_Send p (mkServerStreamResponse i) ;;
      match err with
      | Some e => Ret (inr (Done (Some e)))
      | None => Ret (inl (wrap32 (i + 1)))
      end
    else Ret (inr (Done None))) 0.

(** [sum] is an int32. *)
Definition impl_ClientStream c p : Prog W (Outcome (error + ClientStreamResponse)) :=
  Iter (λ sum : Z,
    r <- ws_Recv p ;;
    match r with
    | inl e =>
        if decide (e = ErrEOF) then Ret (inr (Done (inr (mkClientStreamResponse sum))))
        else Ret (inr (Done (inl e)))
    | inr req => Ret (inl (wrap32 (sum + Value req)))
    end) 0.

Definition impl_Bidi c p : Prog W (Outcome (option error)) :=
  Iter (λ _ : unit,
    r <- ws_Recv p ;;
    match r with
    | inl e =>
        if decide (e = ErrEOF) then Ret (inr (Done None)) else Ret (inr (Done (Some e)))
    | inr req =>
        err <- ws_Send p (mkBidiResponse ("echo:" +:+ Text req)) ;;
        match err with
        | Some e => Ret (inr (Done (Some e)))
        | None => Ret (inl ())
        end
    end) ().

Definition impl : EchoServiceHandler :=
  mkEchoServiceHandler impl_Unary impl_ServerStream impl_ClientStream impl_Bidi.

(** ** main *)

Definition listen_addr (env : string) : string :=
  if decide (env = EmptyString) then "127.0.0.1:8910" else env.

Definition example_server : Server (C:=C) :=
  RegisterEchoServiceHandler (NewServer [WithInsecureSkipOriginCheck]) impl.

(** [err != nil && err != http.ErrServerClosed]: an error of [Serve] by its text. *)
Inductive ServeError := ErrServerClosed | ServeFailed (text : string).

(** How the process ends: its output and its exit code. *)
Record Exit := mkExit { stdout : list string; stderr : list string; exit_code : Z }.

(** [net.Listen] gives the address that is bound or an error; [Serve] returns when
    the listener fails or the server was closed. *)
Definition example_main (env : string) (Listen : string → string + string)
    (Serve : Server (C:=C) → string → option ServeError) : Exit :=
  let addr := listen_addr env in
  match Listen addr with
  | inl err => mkExit [] ["listen " +:+ addr +:+ ": " +:+ err] 1
  | inr bound =>
      let ready := ["LISTENING " +:+ bound] in
      match Serve example_server bound with
      | Some (ServeFailed err) => mkExit ready ["serve: " +:+ err] 1
      | Some ErrServerClosed | None => mkExit ready [] 0
      end
  end.

(** The readiness line is printed exactly when the address is bound, which is the
    default one when the environment names none. *)
Lemma example_main_ready env Listen Serve bound :
  Listen (if decide (env = EmptyString) then "127.0.0.1:8910" else env) = inr bound ↔
  ∃ err code, example_main env Listen Serve = mkExit ["LISTENING " +:+ bound] err code.
Proof.
  unfold example_main, listen_addr. destruct (Listen _) as [e|b]; split.
  - done.
  - by intros (? & ? & ?).
  - intros [= <-]. destruct (Serve example_server b) as [[]|]; eauto.
  - intros (err & code & Hx). f_equal. destruct (Serve example_server b) as [[]|]; simplify_eq/=; by simplify_eq.
Qed.

(** ** What the service promises *)

(** The messages of a backlog. *)
Definition decode_all {T} `{!ProtoMessage T} (l : list Frame) : option (list T) :=
  mapM (λ f, match proto_Unmarshal (Payload f) with inr m => Some m | inl _ => None end) l.

(** A call with at most one request; none is an empty request. *)
Definition single {T} `{!ProtoMessage T} (l : list Frame) : option T :=
  match l with
  | [] => Some proto_new
  | f :: _ => match proto_Unmarshal (Payload f) with inr m => Some m | inl _ => None end
  end.

(** The responses to the requests of a call. *)
Definition unary_responses (req : UnaryRequest) : list message :=
  [MUnaryResponse (mkUnaryResponse ("hello " +:+ Name req))].
Definition server_stream_responses (req : ServerStreamRequest) : list message :=
  (λ i, MServerStreamResponse (mkServerStreamResponse i)) <$> seqZ 0 (Count req).
Definition client_stream_responses (reqs : list ClientStreamRequest) : list message :=
  [MClientStreamResponse (mkClientStreamResponse (wrap32 (foldr Z.add 0 (Value <$> reqs))))].
Definition bidi_responses (reqs : list BidiRequest) : list message :=
  (λ r, MBidiResponse (mkBidiResponse ("echo:" +:+ Text r))) <$> reqs.

Definition echo_responses (route : string) (l : list Frame) : option (list message) :=
  if decide (route = "/echo.v1.EchoService/Unary") then option_map unary_responses (single l)
  else if decide (route = "/echo.v1.EchoService/ServerStream") then
    option_map server_stream_responses (single l)
  else if decide (route = "/echo.v1.EchoService/ClientStream") then
    option_map client_stream_responses (decode_all l)
  else if decide (route = "/echo.v1.EchoService/Bidi") then option_map bidi_responses (decode_all l)
  else None.

Definition encode_all (ms : list message) : option (list bytes) :=
  mapM (λ m, match Marshal m with inr b => Some b | inl _ => None end) ms.

(** There is credit before each of these messages, the window being [win] at first. *)
Fixpoint fits (win : Z) (l : list bytes) : Prop :=
  match l with
  | [] => True
  | b :: l => 0 < win ∧ len b < 2^63 ∧ fits (win - len b) l
  end.

(** ** One step of a handler *)

(** A stream whose caller has sent everything, under a live context. *)
Record live (P : C → Prop) p (id : Z) (c0 : ctx) w (s : Stream) : Prop := mk_live {
  lv_stream : heap w !! p = Some s;
  lv_sid : sid s = id;
  lv_ctx : sctx s = c0;
  lv_idle : idle s;
  lv_ended : ended s = false;
  lv_half : halfClosed s = true;
  lv_live : ctx_Err (ctxs w) c0 = None;
  lv_ready : ready P w;
  lv_mux : mmu (mux w) = false;
  lv_window : is_int64 (sendWindow s);
  lv_trailer : outTrailer s = None;
  lv_first : headerSent s = false
}.

Lemma live_recv {T} `{!ProtoMessage T} P (Q : error + T → W → Prop) p id (c0 : ctx) w s f q :
  writable P → live P p id c0 w s → recvItems s = f :: q →
  (∀ w' s', live P p id c0 w' s' → recvItems s' = q → sendWindow s' = sendWindow s →
     replies w' = replies w → undisturbed w w' → Q (proto_Unmarshal (Payload f)) w') →
  total Q (Recv proto_Unmarshal p) w.
Proof.
  intros HP [Hp Hid Hc Hi He Hh Hl Hr Hm Hw Ht Hf] Hq HQ. unfold Recv, RecvContext. apply total_bind.
  eapply (recv_buffered P); [done..|apply Hi|done|].
  intros x y w' Hh' Hr' Hu Hmsg. apply total_ret. eapply (HQ w' (consumed x y q s)); try done.
  split; try done.
  - rewrite Hh'. apply list_lookup_insert_eq. by eapply lookup_lt_Some.
  - by rewrite (ud_ctxs _ _ Hu).
  - by rewrite (ud_mux _ _ Hu).
Qed.

Lemma live_eof {T} `{!ProtoMessage T} P (Q : error + T → W → Prop) p id (c0 : ctx) w s :
  live P p id c0 w s → recvItems s = [] →
  (∀ w' s', live P p id c0 w' s' → recvItems s' = [] → sendWindow s' = sendWindow s →
     replies w' = replies w → undisturbed w w' → Q (inl ErrEOF) w') →
  total Q (Recv proto_Unmarshal p) w.
Proof.
  intros [Hp Hid Hc Hi He Hh Hl Hr Hm Hw Ht Hf] Hq HQ. unfold Recv, RecvContext. apply total_bind.
  eapply recv_eof; [done|apply Hi|done|done|done|by rewrite Hc|].
  intros sig. apply total_ret. eapply (HQ _ (s <| recvSignal := sig |>)); try done.
  split; try done. by eapply lookup_set_stream.
Qed.

Lemma live_send P (Q : option error → W → Prop) p id (c0 : ctx) w s m b :
  lossless P → live P p id c0 w s → Marshal m = inr b → 0 < sendWindow s → len b < 2^63 →
  (∀ w' s', live P p id c0 w' s' → recvItems s' = recvItems s → sendWindow s' = sendWindow s - len b →
     replies w' = replies w ++ [msg_frame id b] → undisturbed w w' → Q None w') →
  total Q (Send Marshal p m) w.
Proof.
  intros HP [Hp Hid Hc Hi He Hh Hl Hr Hm Hw Ht Hf] Hb Hlt Hlb HQ. unfold Send. rewrite Hb.
  pose proof (len_nonneg b).
  assert (wrap64 (sendWindow s - len b) = sendWindow s - len b) as Hwrap.
  { apply wrap64_id. unfold is_int64 in *. lia. }
  eapply (total_send_lossless P _ _ s); [done| |].
  { split; [done|apply Hi|lia|by rewrite Hc|done]. }
  intros w' Hh' Hlog Hu Hr'. eapply (HQ w' (send_take (len b) s)); try done.
  - split; try done; simpl.
    + rewrite Hh'. apply list_lookup_insert_eq. by eapply lookup_lt_Some.
    + by rewrite (ud_ctxs _ _ Hu).
    + by rewrite (ud_mux _ _ Hu).
    + apply wrap64_range.
  - unfold replies. rewrite Hlog, filter_app. by rewrite Hid.
Qed.

(** What a handler that wrote [outs] leaves. *)
Record wrote (P : C → Prop) p (id : Z) (c0 : ctx) (outs : list bytes) w w' : Prop := mk_wrote {
  wt_replies : replies w' = replies w ++ (msg_frame id <$> outs);
  wt_ctxs : ctxs w' = ctxs w;
  wt_mux : mux w' = mux w;
  wt_live : ∃ s', live P p id c0 w' s'
}.

Lemma live_request {T} `{!ProtoMessage T} P (Q : error + T → W → Prop) p id (c0 : ctx) w s req :
  writable P → live P p id c0 w s → single (recvItems s) = Some req →
  (∀ w' s', live P p id c0 w' s' → sendWindow s' = sendWindow s →
     replies w' = replies w → undisturbed w w' → Q (inr req) w') →
  total Q (recv_request p) w.
Proof.
  intros HP Hl Hreq HQ. unfold recv_request. apply total_bind.
  destruct (recvItems s) as [|f q] eqn:Ei; simpl in Hreq.
  - simplify_eq. eapply live_eof; [done..|]. intros w' s' Hl' _ Hwin Hm Hu.
    rewrite decide_True by done. apply total_ret. eauto.
  - destruct (proto_Unmarshal (Payload f)) as [e|m] eqn:Em; [done|]. simplify_eq.
    eapply live_recv; [done..|]. intros w' s' Hl' _ Hwin Hm Hu. rewrite Em. apply total_ret. eauto.
Qed.

Lemma wrap32_add_l a b : wrap32 (wrap32 a + b) = wrap32 (a + b).
Proof.
  unfold wrap32. f_equal. replace ((a + 2 ^ 31) mod 2 ^ 32 - 2 ^ 31 + b + 2 ^ 31)
    with ((a + 2 ^ 31) mod 2 ^ 32 + b) by lia.
  rewrite Z.add_mod_idemp_l by lia. f_equal. lia.
Qed.

Lemma wrap32_idem z : wrap32 (wrap32 z) = wrap32 z.
Proof. pose proof (wrap32_add_l z 0) as Hz. by rewrite !Z.add_0_r in Hz. Qed.

Lemma decode_all_cons {T} `{!ProtoMessage T} f q (l : list T) :
  decode_all (f :: q) = Some l →
  ∃ m l', proto_Unmarshal (Payload f) = inr m ∧ decode_all q = Some l' ∧ l = m :: l'.
Proof.
  unfold decode_all. simpl. intros (m & Hm & (l' & Hl & [= <-])%bind_Some)%bind_Some.
  destruct (proto_Unmarshal (Payload f)); [done|]. simplify_eq. eauto.
Qed.

(** ** The handlers *)

Lemma impl_ClientStream_sums P c p id (c0 : ctx) w s reqs :
  writable P → live P p id c0 w s → decode_all (recvItems s) = Some reqs →
  total (λ o w', o = Done (inr (mkClientStreamResponse (wrap32 (foldr Z.add 0 (Value <$> reqs))))) ∧
      replies w' = replies w ∧ undisturbed w w' ∧
      ∃ s', live P p id c0 w' s' ∧ sendWindow s' = sendWindow s)
    (impl_ClientStream c p) w.
Proof.
  intros HP Hl Hreqs. unfold impl_ClientStream.
  match goal with |- total _ (Iter ?b _) _ => set (body := b) end.
  assert (∀ q w s reqs sum, recvItems s = q → wrap32 sum = sum → live P p id c0 w s →
    decode_all q = Some reqs →
    total (λ o w', o = Done (inr (mkClientStreamResponse (wrap32 (sum + foldr Z.add 0 (Value <$> reqs))))) ∧
      replies w' = replies w ∧ undisturbed w w' ∧
      ∃ s', live P p id c0 w' s' ∧ sendWindow s' = sendWindow s)
      (Iter body sum) w) as Hloop; [clear -HP|exact (Hloop _ w s reqs 0 eq_refl eq_refl Hl Hreqs)].
  induction q as [|f q IH]; intros w s reqs sum Hq Hsum Hl Hreqs; apply total_iter, total_bind.
  - injection Hreqs as <-. eapply live_eof; [done..|].
    intros w' s' Hl' _ Hwin Hm Hu. rewrite decide_True by done. apply total_ret. csimpl.
    rewrite Z.add_0_r, Hsum. eauto 6.
  - apply decode_all_cons in Hreqs as (m & reqs' & Em & Hreqs & ->).
    eapply live_recv; [done..|]. intros w' s' Hl' Hq' Hwin Hm Hu. rewrite Em. apply total_ret.
    eapply total_mono; [|eapply (IH w' s'); [done|by rewrite wrap32_idem|done..]].
    intros o w2 (-> & Hm2 & Hu2 & s2 & Hl2 & Hw2).
    split_and!; [|by rewrite Hm2|by etrans|eexists; split; [done|congruence]].
    do 3 f_equal. csimpl. rewrite wrap32_add_l. f_equal. lia.
Qed.

Lemma encode_all_cons m ms outs :
  encode_all (m :: ms) = Some outs →
  ∃ b outs', Marshal m = inr b ∧ encode_all ms = Some outs' ∧ outs = b :: outs'.
Proof.
  unfold encode_all. simpl. intros (b & Hb & (l' & Hl & [= <-])%bind_Some)%bind_Some.
  destruct (Marshal m); [done|]. simplify_eq. eauto.
Qed.

(** A send, and the messages of the rest. *)
Lemma wrote_cons P p id (c0 : ctx) b outs w1 w2 w3 :
  replies w2 = replies w1 ++ [msg_frame id b] → undisturbed w1 w2 → wrote P p id c0 outs w2 w3 →
  wrote P p id c0 (b :: outs) w1 w3.
Proof.
  intros Hm [Hσ Hx _ _ _] [Hm' Hσ' Hx' Hs]. split; [|congruence..|done]. by rewrite Hm', Hm, <-app_assoc.
Qed.

Lemma wrote_nil P p id (c0 : ctx) w w' s' :
  live P p id c0 w' s' → replies w' = replies w → undisturbed w w' → wrote P p id c0 [] w w'.
Proof. intros Hl Hm []. split; [by rewrite app_nil_r|done..|by eexists]. Qed.

Lemma impl_ServerStream_sends P c p id (c0 : ctx) w s req outs :
  lossless P → live P p id c0 w s → is_int32 (Count req) →
  encode_all (server_stream_responses req) = Some outs → fits (sendWindow s) outs →
  total (λ o w', o = Done None ∧ wrote P p id c0 outs w w') (impl_ServerStream c req p) w.
Proof.
  intros HP Hl Hc Houts Hlen. unfold impl_ServerStream.
  match goal with |- total _ (Iter ?b _) _ => set (body := b) end.
  assert (∀ n i w s outs, Z.to_nat (Count req - i) = n → 0 ≤ i → live P p id c0 w s →
    encode_all ((λ i, MServerStreamResponse (mkServerStreamResponse i)) <$> seqZ i (Count req - i)) = Some outs →
    fits (sendWindow s) outs →
    total (λ o w', o = Done None ∧ wrote P p id c0 outs w w') (Iter body i) w) as Hloop; [clear -HP Hc|].
  2:{ eapply (Hloop _ 0); [done..| |done]. by rewrite Z.sub_0_r. }
  induction n as [|n IH]; intros i w s outs Hn Hi Hl Houts Hlen; apply total_iter; unfold body at 2.
  - destruct (Z.ltb_spec i (Count req)) as [?|_]; [lia|]. apply total_ret. split; [done|].
    rewrite seqZ_nil in Houts by lia. injection Houts as <-. by eapply wrote_nil.
  - destruct (Z.ltb_spec i (Count req)) as [Hlt|?]; [|lia].
    rewrite seqZ_cons in Houts by lia. apply encode_all_cons in Houts as (b & outs' & Eb & Houts & ->).
    destruct Hlen as (Hpos & Hlb & Hlen).
    apply total_bind. eapply (live_send P _ p id c0 w s (MServerStreamResponse (mkServerStreamResponse i)) b);
      [done..|]. intros w' s' Hl' _ Hwin Hm Hu. apply total_ret.
    unfold is_int32 in Hc. rewrite wrap32_id by (unfold is_int32; lia).
    eapply total_mono; [|eapply (IH (i + 1) w' s' outs'); [lia|lia|done| |by rewrite Hwin]].
    + intros o w2 [-> Hw2]. split; [done|]. by eapply wrote_cons.
    + rewrite <-Houts. unfold Z.succ, Z.pred. do 3 f_equal. lia.
Qed.

Lemma impl_Bidi_echoes P c p id (c0 : ctx) w s reqs outs :
  lossless P → live P p id c0 w s → decode_all (recvItems s) = Some reqs →
  encode_all (bidi_responses reqs) = Some outs → fits (sendWindow s) outs →
  total (λ o w', o = Done None ∧ wrote P p id c0 outs w w') (impl_Bidi c p) w.
Proof.
  intros HP Hl Hreqs Houts Hlen. unfold impl_Bidi.
  match goal with |- total _ (Iter ?b _) _ => set (body := b) end.
  assert (∀ q w s reqs outs, recvItems s = q → live P p id c0 w s → decode_all q = Some reqs →
    encode_all (bidi_responses reqs) = Some outs → fits (sendWindow s) outs →
    total (λ o w', o = Done None ∧ wrote P p id c0 outs w w') (Iter body ()) w) as Hloop;
    [clear -HP|by eapply Hloop].
  induction q as [|f q IH]; intros w s reqs outs Hq Hl Hreqs Houts Hlen; apply total_iter, total_bind.
  - injection Hreqs as <-. injection Houts as <-. eapply live_eof; [done..|].
    intros w' s' Hl' _ Hwin Hm Hu. rewrite decide_True by done. apply total_ret.
    split; [done|]. by eapply wrote_nil.
  - apply decode_all_cons in Hreqs as (m & reqs' & Em & Hreqs & ->).
    apply encode_all_cons in Houts as (b & outs' & Eb & Houts & ->).
    destruct Hlen as (Hpos & Hlb & Hlen).
    eapply live_recv; [apply HP|done..|]. intros w1 s1 Hl1 Hq1 Hwin1 Hm1 Hu1. rewrite Em. apply total_bind.
    eapply (live_send P _ p id c0 w1 s1 (MBidiResponse (mkBidiResponse ("echo:" +:+ Text m))) b);
      [done..|by rewrite Hwin1|done|]. intros w2 s2 Hl2 Hq2 Hwin2 Hm2 Hu2. apply total_ret.
    eapply total_mono; [|eapply (IH w2 s2 reqs' outs'); [congruence|done..|by rewrite Hwin2, Hwin1]].
    intros o w3 [-> Hw3]. split; [done|]. eapply wrote_cons; [by rewrite Hm2, Hm1|by etrans|done].
Qed.

(** ** The adapters *)

Lemma adapter_Unary_writes P p id (c0 : ctx) w s req outs :
  lossless P → live P p id c0 w s → single (recvItems s) = Some req →
  encode_all (unary_responses req) = Some outs → fits (sendWindow s) outs →
  total (λ r w', r = Returned None ∧ wrote P p id c0 outs w w') (adapter_Unary impl c0 p) w.
Proof.
  intros HP Hl Hreq (b & ? & Eb & [= <-] & ->)%encode_all_cons (Hpos & Hlb & _).
  unfold adapter_Unary. apply total_bind. eapply live_request; [apply HP|done..|].
  intros w1 s1 Hl1 Hwin1 Hm1 Hu1. apply total_bind, total_bind, total_update, total_ret.
  apply total_bind, total_ret. unfold unary_respond. simpl.
  set (w2 := put_sinks _ w1). assert (sinks w2 !! length (sinks w1) = Some (mkMdSink None None)) as Hk.
  { by apply list_lookup_middle. }
  assert (live P p id c0 w2 s1) as Hl2 by by destruct Hl1.
  apply total_bind, total_bind. eapply total_on_sink; [done|]. rewrite put_sinks_id by done.
  apply total_bind, total_ret, total_bind. eapply total_on_sink; [done|]. rewrite put_sinks_id by done.
  apply total_bind, total_ret.
  eapply (live_send P _ p id c0 w2 s1 (MUnaryResponse (mkUnaryResponse ("hello " +:+ Name req))) b);
    [done..|by rewrite Hwin1|done|]. intros w3 s3 Hl3 _ _ Hm3 Hu3. apply total_ret. split; [done|].
  split; [|rewrite (ud_ctxs _ _ Hu3); apply Hu1|rewrite (ud_mux _ _ Hu3); apply Hu1|by eexists].
  rewrite Hm3. simpl. by rewrite <-Hm1.
Qed.

Lemma adapter_ServerStream_writes P p id (c0 : ctx) w s req outs :
  lossless P → live P p id c0 w s → single (recvItems s) = Some req → is_int32 (Count req) →
  encode_all (server_stream_responses req) = Some outs → fits (sendWindow s) outs →
  total (λ r w', r = Returned None ∧ wrote P p id c0 outs w w') (adapter_ServerStream impl c0 p) w.
Proof.
  intros HP Hl Hreq Hc Houts Hlen. unfold adapter_ServerStream. apply total_bind.
  eapply live_request; [apply HP|done..|]. intros w1 s1 Hl1 Hwin1 Hm1 [Hσ1 Hx1 _ _ _].
  apply total_bind. eapply total_mono; [|eapply impl_ServerStream_sends; [done..|by rewrite Hwin1]].
  intros o w2 [-> [Hm2 Hσ2 Hx2 Hl2]]. apply total_ret. split; [done|].
  split; [by rewrite Hm2, Hm1|congruence..|done].
Qed.

Lemma adapter_ClientStream_writes P p id (c0 : ctx) w s reqs outs :
  lossless P → live P p id c0 w s → decode_all (recvItems s) = Some reqs →
  encode_all (client_stream_responses reqs) = Some outs → fits (sendWindow s) outs →
  total (λ r w', r = Returned None ∧ wrote P p id c0 outs w w') (adapter_ClientStream impl c0 p) w.
Proof.
  intros HP Hl Hreqs (b & ? & Eb & [= <-] & ->)%encode_all_cons (Hpos & Hlb & _).
  unfold adapter_ClientStream. apply total_bind.
  eapply total_mono; [|eapply impl_ClientStream_sums; [apply HP|done..]].
  intros o w1 (-> & Hm1 & Hu1 & s1 & Hl1 & Hwin1). apply total_bind.
  eapply (live_send P _ p id c0 w1 s1 (MClientStreamResponse _) b); [done..|by rewrite Hwin1|done|].
  intros w2 s2 Hl2 _ _ Hm2 Hu2. apply total_ret. split; [done|].
  eapply (wrote_cons _ _ _ _ _ _ w w2); [by rewrite Hm2, Hm1|by etrans|by eapply wrote_nil].
Qed.

Lemma adapter_Bidi_writes P p id (c0 : ctx) w s reqs outs :
  lossless P → live P p id c0 w s → decode_all (recvItems s) = Some reqs →
  encode_all (bidi_responses reqs) = Some outs → fits (sendWindow s) outs →
  total (λ r w', r = Returned None ∧ wrote P p id c0 outs w w') (adapter_Bidi impl c0 p) w.
Proof.
  intros HP Hl Hreqs Houts Hlen. apply total_bind.
  eapply total_mono; [|eapply impl_Bidi_echoes; done]. intros o w1 [-> Hw1]. by apply total_ret.
Qed.

(** ** A call *)

(** The handler of each route. *)
Definition route_adapter (route : string) : option Handler :=
  if decide (route = "/echo.v1.EchoService/Unary") then Some (adapter_Unary impl)
  else if decide (route = "/echo.v1.EchoService/ServerStream") then Some (adapter_ServerStream impl)
  else if decide (route = "/echo.v1.EchoService/ClientStream") then Some (adapter_ClientStream impl)
  else if decide (route = "/echo.v1.EchoService/Bidi") then Some (adapter_Bidi impl)
  else None.

Lemma example_lookup route : lookup_handler example_server route = route_adapter route.
Proof.
  unfold lookup_handler, example_server, RegisterEchoServiceHandler, Register, route_adapter. simpl.
  rewrite !lookup_insert. repeat case_decide; subst; done.
Qed.

Lemma adapter_writes P p id (c0 : ctx) w s route h ms outs :
  lossless P → live P p id c0 w s → route_adapter route = Some h →
  (∀ req, single (recvItems s) = Some req → is_int32 (Count req)) →
  echo_responses route (recvItems s) = Some ms → encode_all ms = Some outs →
  fits (sendWindow s) outs →
  total (λ r w', r = Returned None ∧ wrote P p id c0 outs w w') (h c0 p) w.
Proof.
  intros HP Hl Hh Hint Hms Houts Hlen. unfold route_adapter, echo_responses in *.
  repeat case_decide; simplify_eq.
  - destruct (single (T:=UnaryRequest) (recvItems s)) eqn:E; simplify_eq/=. by eapply adapter_Unary_writes.
  - destruct (single (T:=ServerStreamRequest) (recvItems s)) eqn:E; simplify_eq/=.
    eapply adapter_ServerStream_writes; eauto.
  - destruct (decode_all (T:=ClientStreamRequest) (recvItems s)) eqn:E; simplify_eq/=.
    by eapply adapter_ClientStream_writes.
  - destruct (decode_all (T:=BidiRequest) (recvItems s)) eqn:E; simplify_eq/=. by eapply adapter_Bidi_writes.
Qed.

(** C7: the example server implements its service, for the four kinds of calls, from
    the stream to the wire.  On a live stream whose caller has sent all its requests
    and closed its side, over a connection that loses no frame, and when the
    responses need no credit beyond the window the stream has (it is positive before
    each of them), the goroutine of the stream terminates, and window updates
    apart the frames it writes are the responses of the specification, in order (the
    greeting, the indices below the count, the sum in int32 arithmetic, an echo per
    request), and an END with status OK.  The id is free again. *)
Theorem echo_served P p s ms outs w :
  lossless P → live P p (sid s) (sctx s) w s → sctx s ≠ [] →
  ctx_Err (ctxs w) (mctx (mux w)) = None →
  (∀ req, single (recvItems s) = Some req → is_int32 (Count req)) →
  echo_responses (method s) (recvItems s) = Some ms → encode_all ms = Some outs →
  fits (sendWindow s) outs →
  total (λ _ w',
      replies w' = replies w ++ (msg_frame (sid s) <$> outs) ++
        [end_frame (sid s) (Some (mkStatus codes.OK EmptyString [])) None] ∧
      streams (mux w') = delete (sid s) (streams (mux w)))
    (serveStream example_server p) w.
Proof.
  intros HP Hl Hne Hmc Hint Hms Houts Hlen.
  assert (is_Some (route_adapter (method s))) as [h Hh].
  { unfold route_adapter, echo_responses in *. repeat case_decide; by eauto. }
  eapply total_mono; [|eapply (serveStream_handled example_server p s h (λ r w', r = Returned None ∧
    wrote P p (sid s) (sctx s) outs w w'))].
  - intros [] w2 (r & w1 & s1 & [-> [Hm1 Hσ1 Hx1 [s1' Hl1]]] & [Hp1 _ _ _ _ _] & [_ _ _ Hfree (cn & err & Hin & Hlog)] & _).
    rewrite (lv_stream _ _ _ _ _ _ Hl1) in Hp1. simplify_eq.
    simpl in *. rewrite (lv_trailer _ _ _ _ _ _ Hl1) in *.
    rewrite Hσ1, Hx1, Hmc in Hin. destruct (lv_ready _ _ _ _ _ _ Hl1) as [_ HPc].
    pose proof (ll_ok _ HP _ _ _ _ HPc Hin) as ->. split_and!.
    + unfold replies in *. rewrite Hlog, filter_app, Hm1. by rewrite <-app_assoc.
    + by rewrite Hfree, Hx1.
  - apply Hl.
  - done.
  - by rewrite example_lookup.
  - simpl. eapply total_mono; [|eapply (adapter_writes P p (sid s) (sctx s) _ s); [done| |done..]].
    + intros r w1 [-> [Hm Hσ Hx Hs]]. split; [done|]. by split.
    + by destruct Hl.
  - intros r w1 [-> [Hm Hσ Hx [s1 Hl1]]]. exists s1. destruct Hl1. split; try done.
    by eapply ready_can_write; [apply HP|].
Qed.

(** ** The handlers only call the runtime

    So the theorems about endpoints and networks apply to the example server. *)
Lemma example_calls r : handlers_call r any_payload example_server.
Proof.
  intros m h c0 p Hm. rewrite example_lookup in Hm. rewrite chain_foldr. simpl.
  unfold route_adapter in Hm. repeat case_decide; simplify_eq.
  all: unfold adapter_Unary, adapter_ServerStream, adapter_ClientStream, adapter_Bidi, recv_request,
    unary_respond, UnaryMD_Header, UnaryMD_Trailer, WithUnaryMetadata; simpl;
    unfold impl_Unary, impl_ServerStream, impl_ClientStream, impl_Bidi.
  all: repeat first [apply calls_Recv | by apply calls_Send | apply rt_SendHeader | apply rt_SetTrailer
    | apply rt_on_sink | apply rt_new_sink | apply rt_Ret | apply rt_Iter; intros ?
    | apply rt_Bind; [|intros ?] | case_match | case_decide].
Qed.

End example.
