(* ===== verification/Bridge.v ===== *)
(** * Two ways to serve a gRPC method

    A gRPC streaming implementation is served in two ways: through the registrar
    ([grpcServerStream] of grpc_registrar.go, Registrar.v) and through the bridge the
    generator emits ([echoServiceGRPCStream] of echo_ws.pb.go, Echo.v).  Both adapt a
    stream to [grpc.ServerStream] and keep response headers until the first message,
    in an object of their own.  The file proves that the bridge simulates the registrar, in
    every interleaving with the read loop, the control writer and the other calls of
    the connection.

    gRPC lets one goroutine of a call send, and any number receive; the
    implementations in question are the programs that keep to it and do not read the
    incoming metadata of the call, which only the registrar provides ([streaming]). *)

From S2P Require Import Prelude Goroutine Simulation Status Context Conn Strconv Stream World StreamOps MuxOps Endpoint Admission Alone Routing Lifecycle Options Server Oblivious Dispatch Metadata Registrar Echo EchoGrpc.

(** ** Cells

    A heap of objects that hold headers: what the proofs about an adapter need to know
    of the objects it uses. *)
Class Cell (C S : Type) := {
  cell_heap : World C → list S;
  cell_put : (list S → list S) → World C → World C;
  cell_headers : S → MD;
  cell_at : nat → address
}.

Class CellOk (C S : Type) `{!Cell C S} := {
  cell_heap_put (f : list S → list S) (w : World C) : cell_heap (cell_put f w) = f (cell_heap w);
  cell_put_alike (f : list S → list S) (w : World C) : alike w (cell_put f w);
  cell_put_id x (s : S) (w : World C) : cell_heap w !! x = Some s → cell_put (<[x:=s]>) w = w;
  cell_slot x (w : World C) : slot w (cell_at x) = cell_headers <$> cell_heap w !! x;
  cell_other a : (∃ x, a = cell_at x) ∨ ∀ (f : list S → list S) (w : World C), slot (cell_put f w) a = slot w a
}.

#[export] Instance gstream_cell C : Cell C ServerStreamState := {|
  cell_heap := gstreams; cell_put := put_gstreams; cell_headers := pending; cell_at := AtGStream |}.
#[export] Instance shim_cell C : Cell C ShimState := {|
  cell_heap := shims; cell_put := put_shims; cell_headers := pendingHeader; cell_at := AtShim |}.

#[export] Instance gstream_cell_ok C : CellOk C ServerStreamState.
Proof.
  split; simpl; try done.
  - intros x s w. apply put_gstreams_id.
  - intros [x|x]; [left; by exists x|by right].
Qed.
#[export] Instance shim_cell_ok C : CellOk C ShimState.
Proof.
  split; simpl; try done.
  - intros x s w. apply put_shims_id.
  - intros [x|x]; [by right|left; by exists x].
Qed.

Section cells.
Context {C S1 S2 : Type} `{!Cell C S1, !Cell C S2, !CellOk C S1, !CellOk C S2}.
Abbreviation W := (World C).
Abbreviation at1 := (cell_at (S:=S1)).
Abbreviation at2 := (cell_at (S:=S2)).
Abbreviation on1 := (on_obj (cell_heap (S:=S1)) cell_put).
Abbreviation on2 := (on_obj (cell_heap (S:=S2)) cell_put).
Abbreviation sim := (sim (alike (C:=C)) slot slot).

(** The goroutine owns the objects at [x] of the left and at [y] of the right run,
    which hold the same headers. *)
Definition holds x y (q : MD) (O : option (address * address)) (w1 w2 : W) : Prop :=
  O = Some (at1 x, at2 y) ∧ slot w1 (at1 x) = Some q ∧ slot w2 (at2 y) = Some q.
Definition coupled x y (O : option (address * address)) (w1 w2 : W) : Prop :=
  ∃ q, holds x y q O w1 w2.

Lemma holds_stable x y q : stable alike slot slot (holds x y q).
Proof.
  intros O w1 w2 w1' w2' [_ HR] (-> & H1 & H2). destruct (HR _ _ eq_refl) as [E1 E2].
  split; [done|]. by rewrite E1, E2.
Qed.
Lemma coupled_stable x y : stable alike slot slot (coupled x y).
Proof. intros O w1 w2 w1' w2' HR [q Hq]. exists q. by eapply holds_stable. Qed.

Lemma sim_coupled {A B} x y (p1 : Prog W A) (p2 : Prog W B) Q :
  (∀ q, sim (holds x y q) p1 p2 Q) → sim (coupled x y) p1 p2 Q.
Proof. intros Hq n O w1 w2 ? ? [q ?]. by apply (Hq q). Qed.

(** The object at a slot. *)
Lemma slot_inv {S} `{!Cell C S, !CellOk C S} (w : W) x q :
  slot w (cell_at (S:=S) x) = Some q → ∃ s : S, cell_heap w !! x = Some s ∧ cell_headers s = q.
Proof. rewrite cell_slot. intros (s & ? & ?)%fmap_Some. eauto. Qed.

Lemma slot_put {S} `{!Cell C S, !CellOk C S} (w : W) x (s : S) :
  is_Some (slot w (cell_at (S:=S) x)) →
  slot (cell_put (<[x:=s]>) w) (cell_at (S:=S) x) = Some (cell_headers s).
Proof.
  intros [q (s' & Hs & _)%slot_inv]. rewrite cell_slot, cell_heap_put.
  by rewrite list_lookup_insert_eq by by eapply lookup_lt_Some.
Qed.

Lemma slot_put_ne {S} `{!Cell C S, !CellOk C S} (w : W) x (s : S) a :
  cell_at (S:=S) x ≠ a → slot (cell_put (<[x:=s]>) w) a = slot w a.
Proof.
  intros Hne. destruct (cell_other (C:=C) (S:=S) a) as [[z ->]|Ho]; [|done].
  rewrite !cell_slot, cell_heap_put, list_lookup_insert_ne; [done|]. congruence.
Qed.

(** Changing both objects. *)
Lemma guar_put x y (s1 : S1) (s2 : S2) w1 w2 :
  alike w1 w2 → owns slot slot (Some (at1 x, at2 y)) w1 w2 →
  guar alike slot slot (Some (at1 x, at2 y)) (Some (at1 x, at2 y)) w1 w2
    (cell_put (<[x:=s1]>) w1) (cell_put (<[y:=s2]>) w2).
Proof using CellOk0 CellOk1.
  intros Hs Ho. destruct (Ho _ _ eq_refl) as [H1 H2]. split.
  - by rewrite <-!cell_put_alike.
  - intros a Ha _. apply slot_put_ne. simpl in Ha. congruence.
  - intros a Ha _. apply slot_put_ne. simpl in Ha. congruence.
  - intros a b [= <- <-]. rewrite !slot_put by done. eauto.
  - by left.
Qed.

(** An action on both objects. *)
Lemma sim_cells {A B} x y q q' (f : S1 → S1 * A) (g : S2 → S2 * B) a b :
  (∀ s, cell_headers s = q → cell_headers (f s).1 = q' ∧ (f s).2 = a) →
  (∀ s, cell_headers s = q → cell_headers (g s).1 = q' ∧ (g s).2 = b) →
  sim (holds x y q) (on1 x f) (on2 y g) (λ a' b' O w1 w2, a' = a ∧ b' = b ∧ holds x y q' O w1 w2).
Proof using CellOk0 CellOk1.
  intros Hf Hg. apply sim_act; [apply holds_stable| |].
  { intros a' b' ????? HR (? & ? & ?). split_and!; [done..|]. by eapply holds_stable. }
  intros O w1 w2 w1' b1 Hs Ho (-> & H1 & H2).
  pose proof H1 as (s1 & Hs1 & Hv1)%slot_inv. pose proof H2 as (s2 & Hs2 & Hv2)%slot_inv.
  rewrite Hs1, Hs2. destruct (Hf s1 Hv1) as [Ef Ea], (Hg s2 Hv2) as [Eg Eb].
  destruct (f s1) as [s1' a1], (g s2) as [s2' a2]. simpl in *. intros [= -> ->]%list_elem_of_singleton.
  exists (Some (at1 x, at2 y)), (cell_put (<[y:=s2']>) w2), a2.
  split; [by left|]. split; [by apply guar_put|]. split_and!; [done..|].
  split; [done|]. by rewrite !slot_put, Ef, Eg by eauto.
Qed.

Lemma sim_cells_bind {A A' B B'} x y q q' (f : S1 → S1 * A) (g : S2 → S2 * A')
    (k1 : A → Prog W B) (k2 : A' → Prog W B') a b Q :
  (∀ s, cell_headers s = q → cell_headers (f s).1 = q' ∧ (f s).2 = a) →
  (∀ s, cell_headers s = q → cell_headers (g s).1 = q' ∧ (g s).2 = b) →
  sim (holds x y q') (k1 a) (k2 b) Q →
  sim (holds x y q) (Bind (on1 x f) k1) (Bind (on2 y g) k2) Q.
Proof using CellOk0 CellOk1.
  intros Hf Hg Hk. eapply sim_bind; [by eapply sim_cells|]. intros a' b' n O w1 w2 ? ? (-> & -> & ?).
  by apply Hk.
Qed.

(** The last action of a method. *)
Lemma sim_cells_last {A} x y q q' (f : S1 → S1 * A) (g : S2 → S2 * A) a :
  (∀ s, cell_headers s = q → cell_headers (f s).1 = q' ∧ (f s).2 = a) →
  (∀ s, cell_headers s = q → cell_headers (g s).1 = q' ∧ (g s).2 = a) →
  sim (holds x y q) (on1 x f) (on2 y g) (keeps (coupled x y)).
Proof using CellOk0 CellOk1.
  intros Hf Hg. eapply sim_conseq; [done| |by eapply sim_cells].
  intros a' b' O w1 w2 (-> & -> & ?). split; [done|]. by exists q'.
Qed.

Lemma sim_ret_coupled {A} x y q (a : A) : sim (holds x y q) (Ret a) (Ret a) (keeps (coupled x y)).
Proof.
  apply sim_ret; [apply keeps_stable, coupled_stable|]. intros O w1 w2 ?. split; [done|]. by exists q.
Qed.

(** Reading one of them. *)
Lemma sim_read_l {A B B'} x y q (f : S1 → S1 * A) (k : A → Prog W B) (p2 : Prog W B') a Q :
  (∀ s, cell_headers s = q → f s = (s, a)) → sim (holds x y q) (k a) p2 Q →
  sim (holds x y q) (Bind (on1 x f) k) p2 Q.
Proof using CellOk0.
  intros Hf Hk. apply sim_act_l with (M := λ a' O w1 w2, a' = a ∧ holds x y q O w1 w2).
  - apply holds_stable.
  - intros b ????? HR [? ?]. split; [done|]. by eapply holds_stable.
  - intros O w1 w2 w1' b Hs Ho Hh. pose proof Hh as (-> & (s1 & H1 & Hv1)%slot_inv & _).
    rewrite H1, Hf by done. intros. inv_elem. rewrite cell_put_id by done.
    by split; [apply guar_refl|].
  - intros b n O w1 w2 ? ? [-> ?]. by apply Hk.
Qed.

Lemma sim_read_r {A B B'} x y q (g : S2 → S2 * A) (p1 : Prog W B) (k : A → Prog W B') a Q :
  (∀ s, cell_headers s = q → g s = (s, a)) → sim (holds x y q) p1 (k a) Q →
  sim (holds x y q) p1 (Bind (on2 y g) k) Q.
Proof using CellOk1.
  intros Hg Hk. apply sim_act_r with (M := λ a' O w1 w2, a' = a ∧ holds x y q O w1 w2).
  - apply holds_stable.
  - intros O w1 w2 Hs Ho Hh. pose proof Hh as (-> & _ & (s2 & H2 & Hv2)%slot_inv).
    exists w2, a. rewrite H2, Hg, cell_put_id by done.
    split; [by left|]. by split; [apply guar_refl|].
  - intros b n O w1 w2 ? ? [-> ?]. by apply Hk.
Qed.

(** A new object is at an address where there was none. *)
Lemma slot_new {S} `{!Cell C S, !CellOk C S} (w : W) (o : S) a :
  slot w (cell_at (S:=S) (length (cell_heap (S:=S) w))) = None ∧
  slot (cell_put (λ l, l ++ [o]) w) (cell_at (S:=S) (length (cell_heap (S:=S) w))) = Some (cell_headers o) ∧
  (is_Some (slot w a) → slot (cell_put (λ l, l ++ [o]) w) a = slot w a).
Proof.
  split_and!.
  - rewrite cell_slot, lookup_ge_None_2; done.
  - by rewrite cell_slot, cell_heap_put, list_lookup_middle.
  - destruct (cell_other (C:=C) (S:=S) a) as [[z ->]|Ho]; [|by rewrite Ho].
    rewrite !cell_slot, cell_heap_put. intros [q (s & Hz & _)%fmap_Some].
    rewrite lookup_app_l; [done|]. by eapply lookup_lt_Some.
Qed.

Lemma sim_new {B B'} (o1 : S1) (o2 : S2) (k1 : nat → Prog W B) (k2 : nat → Prog W B') Q :
  cell_headers o1 = cell_headers o2 → (∀ x y, sim (coupled x y) (k1 x) (k2 y) Q) →
  sim anything (Bind (new_obj cell_heap cell_put o1) k1) (Bind (new_obj cell_heap cell_put o2) k2) Q.
Proof using CellOk0 CellOk1.
  intros Hv Hk. apply sim_bind with (M := coupled); [|done]. apply sim_act; [done|apply coupled_stable|].
  intros O w1 w2 w1' b Hs Ho _ Hin. inv_elem.
  destruct (slot_new w1 o1 (at1 0)) as (N1 & E1 & _), (slot_new w2 o2 (at2 0)) as (N2 & E2 & _).
  set (x := length (cell_heap (S:=S1) w1)) in *. set (y := length (cell_heap (S:=S2) w2)) in *.
  exists (Some (at1 x, at2 y)), (cell_put (λ l, l ++ [o2]) w2), y. split; [by left|].
  split; [|exists (cell_headers o1); split; [done|]; by rewrite E1, E2, Hv].
  split.
  - by rewrite <-!cell_put_alike.
  - intros a _. apply slot_new.
  - intros a _. apply slot_new.
  - intros a b [= <- <-]. rewrite E1, E2. eauto.
  - right; right. by eexists _, _.
Qed.

End cells.

(** ** Implementations over a stream *)

Section adapters.
Context {C : Type} `{!FrameConn C} `{!GrpcLib} `{!GrpcMetadata}.
Abbreviation W := (World C).
Implicit Types (w : W) (p x y : nat) (c : GoCtx).
Context `{!ProtoMessage UnaryRequest, !ProtoMessage UnaryResponse,
  !ProtoMessage ServerStreamRequest, !ProtoMessage ServerStreamResponse,
  !ProtoMessage ClientStreamRequest, !ProtoMessage ClientStreamResponse,
  !ProtoMessage BidiRequest, !ProtoMessage BidiResponse}.
Abbreviation SS := (ServerStream (C:=C) (Msg:=any) (Target:=target)).
Abbreviation Service := (EchoServiceServer (C:=C)).
Abbreviation sim := (sim (alike (C:=C)) slot slot).
Abbreviation stable := (stable (alike (C:=C)) slot slot).

(** The operations of a stream on proto messages.  Only the goroutine that got the
    stream sets headers and sends. *)
Inductive stream_op : bool → ∀ B, (SS → Prog W B) → Prop :=
| op_SetHeader md : stream_op true _ (λ ss, ss_SetHeader ss md)
| op_SendHeader md : stream_op true _ (λ ss, ss_SendHeader ss md)
| op_SetTrailer b md : stream_op b _ (λ ss, ss_SetTrailer ss md)
| op_SendMsg m : stream_op true _ (λ ss, ss_SendMsg ss (AProto m))
| op_RecvMsg b t : t ≠ TNotProto → stream_op b _ (λ ss, ss_RecvMsg ss t).

(** A context but for the incoming metadata, which only the registrar provides. *)
Definition without_incoming (c : GoCtx) : GoCtx := c <| gc_incoming := None |>.

(** The implementations in question: programs over a stream that do not read the
    incoming metadata of its context. *)
Definition streaming {A} (k : SS → Prog W A) : Prop :=
  built stream_op (λ ss, without_incoming (ss_Context ss)) true A k.

(** What one [grpc.ServerStream] must promise to stand for another: each operation of
    the other is simulated, and [P], which is about the private state, holds again. *)
Record stands_for P (ss1 ss2 : SS) : Prop := mk_stands_for {
  sf_stable : stable P;
  sf_Context : without_incoming (ss_Context ss1) = without_incoming (ss_Context ss2);
  sf_SetHeader md : sim P (ss_SetHeader ss1 md) (ss_SetHeader ss2 md) (keeps P);
  sf_SendHeader md : sim P (ss_SendHeader ss1 md) (ss_SendHeader ss2 md) (keeps P);
  sf_SendMsg m : sim P (ss_SendMsg ss1 (AProto m)) (ss_SendMsg ss2 (AProto m)) (keeps P);
  sf_SetTrailer P' md : stable P' → sim P' (ss_SetTrailer ss1 md) (ss_SetTrailer ss2 md) (keeps P');
  sf_RecvMsg P' t : stable P' → t ≠ TNotProto →
    sim P' (ss_RecvMsg ss1 t) (ss_RecvMsg ss2 t) (keeps P')
}.

Lemma streaming_sim {A} P ss1 ss2 (k : SS → Prog W A) :
  streaming k → stands_for P ss1 ss2 → sim P (k ss1) (k ss2) (keeps P).
Proof.
  intros Hk [HP Hc H1 H2 H3 H4 H5].
  apply (built_sim _ _ (λ b, if b then P else anything) ss1 ss2) in Hk; try done; [by intros []|].
  intros b B k' [md|md|b' md|m|b' t Ht]; [done..|apply H4|done|apply H5]; by try destruct b'.
Qed.

Lemma sim_oblivious {A} P (p : Prog W A) : stable P → oblivious p → sim P p p (keeps P).
Proof. intros. by apply sim_blind, oblivious_blind. Qed.

(** ** The two adapters *)

Context (codec_Marshal : any → error + bytes) (codec_Unmarshal : bytes → target → error + any).

(** What the documentation says of [metadata.Join] and of gRPC's proto codec: the
    values of each key are appended in order, and a proto message is encoded and
    decoded by the proto package. *)
Record GrpcAgrees : Prop := mk_GrpcAgrees {
  ga_Join q md : Some (md_Join q md) = append_md q md;
  ga_Marshal m : codec_Marshal (AProto m) = Marshal m;
  ga_Unmarshal t u b : Unmarshal t = Some u →
    codec_Unmarshal b t = match u b with inl e => inl e | inr m => inr (AProto m) end
}.
Hypothesis Hgrpc : GrpcAgrees.

Abbreviation gs p c x := (grpcServerStream codec_Marshal codec_Unmarshal p c x).
Abbreviation shim p c y := (echoServiceGRPCStream p c y false).

Lemma Unmarshal_proto t : t ≠ TNotProto → is_Some (Unmarshal t).
Proof. destruct t; simpl; eauto. done. Qed.

(** A decoded message, from what [RecvRaw] returns. *)
Definition received {M} (u : bytes → error + M) (r : bytes * option error) : error + M :=
  match r with (_, Some err) => inl err | (b, None) => u b end.

(** One step of a method on the object of an adapter. *)
Ltac headers :=
  first [done | let st := fresh in intros st <-; simpl; rewrite ?(ga_Join Hgrpc); by destruct st].

(** Both sides write the headers. *)
Ltac write_headers :=
  eapply sim_bind_keeps; [apply sim_oblivious; [apply holds_stable|apply skips_SendHeader]|intros ?].

(** Both sides flush what is pending. *)
Ltac flush_headers :=
  apply sim_coupled; intros q; refine (sim_cells_bind _ _ _ q _ _ _ _ q q _ _ _ _); [headers..|];
  destruct q as [h|]; [write_headers; by refine (sim_cells_last _ _ _ None _ _ () _ _)|apply sim_ret_coupled].

Lemma gs_by_shim p c c' x y :
  without_incoming c = without_incoming c' →
  stands_for (coupled (S1:=ServerStreamState) (S2:=ShimState) x y) (gs p c x) (shim p c' y).
Proof using Hgrpc.
  intros Hc. split; [apply coupled_stable|done|intros md|intros md|intros m|intros P' md HP|]; simpl.
  - apply sim_coupled. intros q. refine (sim_cells_last _ _ _ (append_md q md) _ _ None _ _); headers.
  - apply sim_coupled. intros q.
    refine (sim_cells_bind _ _ _ (append_md q md) _ _ _ _ (append_md q md) None _ _ _ _); [headers..|].
    refine (sim_read_r _ _ _ _ _ _ (append_md q md) _ _ _); [headers|]. write_headers.
    refine (sim_cells_bind _ _ _ None _ _ _ _ () () _ _ _ _); [done..|apply sim_ret_coupled].
  - eapply sim_bind_keeps; [flush_headers|]. intros _. unfold Send. rewrite (ga_Marshal Hgrpc).
    destruct (Marshal m); [apply sim_ret_keeps|apply sim_oblivious; [|apply skips_SendRaw]]; apply coupled_stable.
  - apply sim_oblivious; [done|apply skips_SetTrailer].
  - intros P' t HP [u Hu]%Unmarshal_proto. unfold gs_RecvMsg, shim_RecvMsg. rewrite Hu.
    apply sim_bind with (M := λ r r' O w1 w2, r' = received u r ∧ P' O w1 w2).
    + apply sim_map_r with (h := received u) (M := keeps P'); [by intros [b [e|]]|by intros ? ? ? ? ? [-> ?]|].
      apply sim_oblivious; [done|apply skips_RecvRawContext].
    + intros [b [e|]] r' n O w1 w2 ? ? [-> ?]; simpl; [by apply sim_ret_keeps|].
      rewrite (ga_Unmarshal Hgrpc _ u) by done. destruct (u b); by apply sim_ret_keeps.
Qed.

Lemma shim_by_gs p c c' x y :
  without_incoming c = without_incoming c' →
  stands_for (coupled (S1:=ShimState) (S2:=ServerStreamState) x y) (shim p c x) (gs p c' y).
Proof using Hgrpc.
  intros Hc. split; [apply coupled_stable|done|intros md|intros md|intros m|intros P' md HP|]; simpl.
  - apply sim_coupled. intros q. refine (sim_cells_last _ _ _ (append_md q md) _ _ None _ _); headers.
  - apply sim_coupled. intros q.
    refine (sim_cells_bind _ _ _ (append_md q md) _ _ _ _ None (append_md q md) _ _ _ _); [headers..|].
    refine (sim_read_l _ _ _ _ _ _ (append_md q md) _ _ _); [headers|]. write_headers.
    refine (sim_cells_bind _ _ _ None _ _ _ _ () () _ _ _ _); [done..|apply sim_ret_coupled].
  - eapply sim_bind_keeps; [flush_headers|]. intros _. unfold Send. rewrite (ga_Marshal Hgrpc).
    destruct (Marshal m); [apply sim_ret_keeps|apply sim_oblivious; [|apply skips_SendRaw]]; apply coupled_stable.
  - apply sim_oblivious; [done|apply skips_SetTrailer].
  - intros P' t HP [u Hu]%Unmarshal_proto. unfold gs_RecvMsg, shim_RecvMsg. rewrite Hu.
    apply sim_bind with (M := λ r' r O w1 w2, r' = received u r ∧ P' O w1 w2).
    + apply sim_map_l with (h := received u) (M := keeps P'); [by intros [b [e|]]| |by intros ? ? ? ? ? [-> ?]|].
      { intros a b ????? HR [? ?]. split; [done|by eapply HP]. }
      apply sim_oblivious; [done|apply skips_RecvRawContext].
    + intros r' [b [e|]] n O w1 w2 ? ? [-> ?]; simpl; [by apply sim_ret_keeps|].
      rewrite (ga_Unmarshal Hgrpc _ u) by done. destruct (u b); by apply sim_ret_keeps.
Qed.

(** An adapter for itself, with its object at another address. *)
Lemma gs_by_gs p c c' x y :
  without_incoming c = without_incoming c' →
  stands_for (coupled (S1:=ServerStreamState) (S2:=ServerStreamState) x y) (gs p c x) (gs p c' y).
Proof using Type.
  intros Hc. split; [apply coupled_stable|done|intros md|intros md|intros m|intros P' md HP|]; simpl.
  - apply sim_coupled. intros q. refine (sim_cells_last _ _ _ (Some (md_Join q md)) _ _ None _ _); by intros ? <-.
  - apply sim_coupled. intros q.
    refine (sim_cells_bind _ _ _ (Some (md_Join q md)) _ _ _ _ (Some (md_Join q md)) (Some (md_Join q md)) _ _ _ _);
      [by intros ? <-..|]. write_headers.
    refine (sim_cells_bind _ _ _ None _ _ _ _ () () _ _ _ _); [done..|apply sim_ret_coupled].
  - eapply sim_bind_keeps; [flush_headers|]. intros _.
    destruct (codec_Marshal _); [apply sim_ret_keeps|apply sim_oblivious; [|apply skips_SendRaw]]; apply coupled_stable.
  - apply sim_oblivious; [done|apply skips_SetTrailer].
  - intros P' t HP _. apply sim_oblivious; [done|]. unfold gs_RecvMsg, RecvRaw. solve_oblivious.
Qed.

(** ** Handlers *)

Abbreviation StreamInterceptor :=
  (StreamServerInterceptor (C:=C) (Impl:=Service) (Msg:=any) (Target:=target)).
Abbreviation Streaming := (StreamHandler (C:=C) (Impl:=Service) (Msg:=any) (Target:=target)).
Abbreviation registrar_stream := (registrar_stream codec_Marshal codec_Unmarshal).

(** What is run on a stream: the handler, by the interceptor when there is one. *)
Definition run_stream (i : option StreamInterceptor) (info : StreamServerInfo) (h : Streaming)
    (impl : Service) (ss : SS) : Prog W (Outcome (option error)) :=
  match i with None => h impl ss | Some ic => ic impl ss info h end.

(** The end of a call that was run on two streams. *)
Lemma run_sim P (k : SS → Prog W (Outcome (option error))) ss1 ss2 :
  streaming k → stands_for P ss1 ss2 → sim P (k ss1) (k ss2) (λ o1 o2 _ _ _, o1 = o2).
Proof.
  intros Hk Hss. eapply sim_conseq; [done| |by eapply streaming_sim]. by intros ? ? ? ? ? [-> _].
Qed.

Lemma sim_result_l P (p1 p2 : Prog W (Outcome (option error))) :
  sim P p1 p2 (λ o1 o2 _ _ _, o1 = o2) →
  sim P (o <- p1 ;; Ret (handler_result o)) p2 (λ r o _ _ _, r = handler_result o).
Proof. intros Hp. eapply sim_map_l; [done|by intros ? ? ?| |done]. by intros ? ? ? ? ? ->. Qed.

Lemma sim_result_r P (p1 p2 : Prog W (Outcome (option error))) :
  sim P p1 p2 (λ o1 o2 _ _ _, o1 = o2) →
  sim P p1 (o <- p2 ;; Ret (handler_result o)) (λ o r _ _ _, r = handler_result o).
Proof. intros Hp. eapply sim_map_r; [done| |done]. by intros ? ? ? ? ? ->. Qed.

(** The headers of the call only reach the context. *)
Lemma incoming_prefix (c0 : ctx) p :
  sim anything (incoming (mkGoCtx c0 None None None) p) (Ret ())
    (λ c _ _ _ _, without_incoming c = mkGoCtx c0 None None None).
Proof.
  unfold incoming. apply sim_act_l with (M := λ _, anything); [done..| |].
  - intros O w1 w2 w1' h Hs Ho _ Hin. destruct (heap w1 !! p) as [s|] eqn:Hp; [|by inv_elem].
    destruct (mu s); [by inv_elem|]. inv_elem. rewrite set_stream_id by done.
    by split; [apply guar_refl|].
  - intros h. by apply sim_ret.
Qed.

Lemma incoming_header (c0 : ctx) p :
  sim anything (Header p) (incoming (mkGoCtx c0 None None None) p)
    (λ _ c _ _ _, without_incoming c = mkGoCtx c0 None None None).
Proof.
  unfold incoming. apply sim_map_r with
    (h := λ h, mkGoCtx c0 None (Some (incoming_md h)) None) (M := keeps anything); [done..|].
  apply sim_oblivious; [done|apply skips_Header].
Qed.

(** A handler of the registrar for itself. *)
Lemma registrar_stream_refl i info h impl :
  streaming (run_stream i info h impl) →
  handler_sim (registrar_stream i info h impl) (registrar_stream i info h impl).
Proof.
  intros Hk c0 p. unfold Registrar.registrar_stream.
  eapply sim_bind_keeps; [apply sim_oblivious; [done|]; unfold incoming; solve_oblivious|]. intros c.
  refine (sim_new (mkServerStreamState None) (mkServerStreamState None) _ _ _ eq_refl _). intros x y.
  change (match i with None => h impl (gs p c x) | Some ic => ic impl (gs p c x) info h end)
    with (run_stream i info h impl (gs p c x)).
  change (match i with None => h impl (gs p c y) | Some ic => ic impl (gs p c y) info h end)
    with (run_stream i info h impl (gs p c y)).
  eapply sim_bind; [apply run_sim; [done|by apply gs_by_gs]|]. intros o o' n O w1 w2 ? ? ->.
  by apply sim_ret_keeps.
Qed.

(** *** The bidirectional method *)

Abbreviation bidi_route := EchoService_Bidi_FullMethodName.
Definition bidi_info : StreamServerInfo := mkStreamServerInfo bidi_route true true.

(** The method as the bridge runs it. *)
Abbreviation run_bidi i impl := (run_stream i bidi_info (λ _ ss, s_Bidi impl ss) impl).

(** An interceptor calls the handler on the implementation it is given. *)
Definition passes_on (impl : Service) (i : option StreamInterceptor) : Prop :=
  ∀ ic ss, i = Some ic →
    ic impl ss bidi_info _EchoService_Bidi_Handler = ic impl ss bidi_info (λ _ ss, s_Bidi impl ss).

Lemma registrar_run impl i ss :
  passes_on impl i → run_stream i bidi_info _EchoService_Bidi_Handler impl ss = run_bidi i impl ss.
Proof. intros Hi. destruct i as [ic|]; simpl; [by apply Hi|done]. Qed.

Lemma bridge_Bidi_run impl opts c p :
  bridge_Bidi (mkBridge impl (ApplyBridgeOptions opts)) c p =
    (y <- new_shim (mkShimState None None) ;; run_bidi (bc_Stream (ApplyBridgeOptions opts)) impl (shim p c y)).
Proof. unfold bridge_Bidi, bridge_run, run_stream. simpl. by destruct (bc_Stream _). Qed.

Lemma registrar_by_bridge impl opts :
  let i := bc_Stream (ApplyBridgeOptions opts) in passes_on impl i → streaming (run_bidi i impl) →
  handler_sim (registrar_stream i bidi_info _EchoService_Bidi_Handler impl)
    (adapter_Bidi (EchoServiceFromGRPC impl opts)).
Proof using Hgrpc.
  intros i Hi Hk c0 p. unfold Registrar.registrar_stream, adapter_Bidi. simpl. rewrite bridge_Bidi_run. fold i.
  eapply sim_prefix_l; [apply incoming_prefix|]. intros c.
  apply sim_map_r with (h := handler_result) (M := λ r o _ _ _, r = handler_result o); [done|by intros ? ? ? ? ? ->|].
  intros n O w1 w2 Hs Ho Hc. refine (sim_new (mkServerStreamState None) (mkShimState None None) _ _ _ eq_refl _ n O w1 w2 Hs Ho I).
  intros x y. apply sim_result_l.
  change (match i with None => _ | Some ic => _ end)
    with (run_stream i bidi_info _EchoService_Bidi_Handler impl (gs p c x)).
  rewrite registrar_run by done. apply run_sim; [done|]. by apply gs_by_shim.
Qed.

(** The other way round, the registrar has one action more, reading the headers of
    the call: it waits when the mutex of the stream is taken. *)
Definition header_first (h : Handler (C:=C)) : Handler := λ (c0 : ctx) p, Header p ;; h c0 p.

Lemma bridge_by_registrar impl opts :
  let i := bc_Stream (ApplyBridgeOptions opts) in passes_on impl i → streaming (run_bidi i impl) →
  handler_sim (header_first (adapter_Bidi (EchoServiceFromGRPC impl opts)))
    (registrar_stream i bidi_info _EchoService_Bidi_Handler impl).
Proof using Hgrpc.
  intros i Hi Hk c0 p. unfold Registrar.registrar_stream, header_first, adapter_Bidi. simpl.
  rewrite bridge_Bidi_run. fold i. eapply sim_bind; [apply incoming_header|]. intros h c.
  apply sim_map_l with (h := handler_result) (M := λ o r _ _ _, r = handler_result o);
    [done|by intros ? ? ?|by intros ? ? ? ? ? ->|].
  intros n O w1 w2 Hs Ho Hc. refine (sim_new (mkShimState None None) (mkServerStreamState None) _ _ _ eq_refl _ n O w1 w2 Hs Ho I).
  intros x y. apply sim_result_r.
  change (match i with None => _ | Some ic => _ end)
    with (run_stream i bidi_info _EchoService_Bidi_Handler impl (gs p c y)).
  rewrite registrar_run by done. apply run_sim; [done|]. by apply shim_by_gs.
Qed.

(** ** Servers *)

(** A server none of whose handlers uses an adapter. *)
Record plain_server (srv : Server (C:=C)) : Prop := mk_plain_server {
  pl_middleware : Forall transparent (middleware (cfg srv));
  pl_handlers m h (c0 : ctx) p : lookup_handler srv m = Some h → oblivious (h c0 p)
}.

(** An implementation of the service with its interceptors: the unary method does not
    use an adapter, and the streaming ones keep to the operations of their stream. *)
Record keeps_to_streams (impl : Service) (cfg : BridgeConfig (UnaryServerInterceptor (C:=C)) StreamInterceptor)
    : Prop := mk_keeps_to_streams {
  kt_unary c dec : oblivious (_EchoService_Unary_Handler impl c dec (bc_Unary cfg));
  kt_server_stream : streaming (run_stream (bc_Stream cfg)
    (mkStreamServerInfo EchoService_ServerStream_FullMethodName false true)
    _EchoService_ServerStream_Handler impl);
  kt_client_stream : streaming (run_stream (bc_Stream cfg)
    (mkStreamServerInfo EchoService_ClientStream_FullMethodName true false)
    _EchoService_ClientStream_Handler impl);
  kt_bidi : streaming (run_bidi (bc_Stream cfg) impl);
  kt_passes_on : passes_on impl (bc_Stream cfg)
}.

Lemma lookup_handler_Register srv m h m' :
  lookup_handler (Register m (Some h) srv) m' =
    if decide (m = m') then Some h else lookup_handler (C:=C) srv m'.
Proof.
  unfold lookup_handler. simpl. case_decide; simplify_eq.
  - by rewrite lookup_insert_eq.
  - by rewrite lookup_insert_ne.
Qed.

Lemma registrar_unary_refl (impl : Service) i m
    (h : MethodHandler (C:=C) (Msg:=any) (Target:=target) (UnaryInt:=UnaryServerInterceptor (C:=C))) :
  (∀ c dec, oblivious (h impl c dec i)) →
  let hd := registrar_unary codec_Marshal codec_Unmarshal i m h impl in handler_sim hd hd.
Proof.
  intros Hh hd c0 p. apply simulated_refl. unfold hd, registrar_unary, unary_call, incoming, unary_flush,
    WithUnaryMetadata, UnaryMD_Header, UnaryMD_Trailer, takeHeader, takeSinkTrailer, RecvRaw.
  cbv zeta. solve_oblivious; done.
Qed.

(** The echo service, registered with the registrar. *)
Definition echo_registrar srv (impl : Service) opts : Server (C:=C) :=
  gr_srv (RegisterEchoServiceServer codec_Marshal codec_Unmarshal (GRPCRegistrar srv opts) impl).

(** Changing the handler of one route changes nothing when the new one stands for the
    old one. *)
Lemma replace_bidi srv impl opts h :
  plain_server srv → keeps_to_streams impl (ApplyBridgeOptions opts) →
  let old := registrar_stream (bc_Stream (ApplyBridgeOptions opts)) bidi_info _EchoService_Bidi_Handler impl in
  let echo := echo_registrar srv impl opts in
  (handler_sim old h → servers_alike echo (Register bidi_route (Some h) echo)) ∧
  (handler_sim h old → servers_alike (Register bidi_route (Some h) echo) echo).
Proof.
  intros [Hmw Hpl] [Hu Hs Hc _ _] old echo.
  assert (∀ h1 h2, handler_sim h1 h2 → ∀ m,
    option_Forall2 handler_sim (lookup_handler (Register bidi_route (Some h1) echo) m)
      (lookup_handler (Register bidi_route (Some h2) echo) m)) as Hh.
  { intros h1 h2 H12 m. rewrite !lookup_handler_Register. case_decide; [by constructor|].
    unfold echo, echo_registrar, RegisterEchoServiceServer, RegisterService, register_method, register_stream.
    simpl. rewrite !lookup_handler_Register. repeat case_decide; try constructor.
    - by apply registrar_stream_refl.
    - by apply registrar_stream_refl.
    - by apply registrar_stream_refl.
    - by apply registrar_unary_refl.
    - destruct (lookup_handler srv m) as [h'|] eqn:E; constructor. intros c0 p.
      apply simulated_refl. by eapply Hpl. }
  assert (∀ m, lookup_handler echo m = lookup_handler (Register bidi_route (Some old) echo) m) as He.
  { intros m. rewrite lookup_handler_Register. case_decide as E; [|done]. subst m.
    unfold echo, echo_registrar, RegisterEchoServiceServer, RegisterService, register_stream. simpl.
    by rewrite lookup_handler_Register, decide_True. }
  split; intros H12; split; try done; intros m; rewrite (He m); by apply Hh.
Qed.

Abbreviation by_bridge h srv := (Register bidi_route (Some h) srv).


(** The converse, for a bridge that also reads the headers of the call first, as the
    registrar does. *)
Theorem bridge_refines_registrar srv impl opts (c : ctx) cn σ k :
  plain_server srv → keeps_to_streams impl (ApplyBridgeOptions opts) →
  let echo := echo_registrar srv impl opts in
  let h := header_first (adapter_Bidi (EchoServiceFromGRPC impl opts)) in
  rtc (sys_step elsewhere) (ServeConn (by_bridge h echo) c cn σ) k →
  ∃ k', rtc (sys_step elsewhere) (ServeConn echo c cn σ) k' ∧ alike (world k) (world k').
Proof using Hgrpc.
  intros Hsrv Himpl echo h. destruct (Himpl) as [_ _ _ Hk Hi].
  destruct (replace_bidi srv impl opts h Hsrv Himpl) as [_ H2].
  exact (ServeConn_simulates _ _ c cn σ k (H2 (bridge_by_registrar impl opts Hi Hk))).
Qed.

(** ** Where they differ *)

(** A method that refuses calls without incoming metadata, as an auth check does. *)
Definition demands_metadata (err : error) (ss : SS) : Prog W (Outcome (option error)) :=
  Ret (Done (match gc_incoming (ss_Context ss) with Some _ => None | None => Some err end)).

(** Served by the registrar it accepts the call; served by the generated bridge it
    refuses every call. *)
Theorem incoming_metadata_differs impl err info opts (c0 : ctx) p s w :
  heap w !! p = Some s → mu s = false → s_Bidi impl = demands_metadata err →
  bc_Stream (ApplyBridgeOptions opts) = None →
  total (λ r _, r = Returned None)
    (registrar_stream None info _EchoService_Bidi_Handler impl c0 p) w ∧
  total (λ r _, r = Returned (Some err)) (adapter_Bidi (EchoServiceFromGRPC impl opts) c0 p) w.
Proof.
  intros Hp Hmu Himpl Hopts. split.
  - unfold Registrar.registrar_stream, incoming. apply total_bind, total_bind.
    eapply total_locked_read; [done..|]. apply total_ret, total_bind, total_update, total_bind. simpl.
    unfold _EchoService_Bidi_Handler. rewrite Himpl. by do 2 apply total_ret.
  - unfold adapter_Bidi. simpl. rewrite bridge_Bidi_run, Hopts. apply total_bind, total_bind, total_update.
    simpl. rewrite Himpl. by do 2 apply total_ret.
Qed.

(** A server-streaming call whose caller closes its side without a request: for the
    registrar receiving it fails, and the call ends with that error before the
    implementation runs; the bridge gives the implementation an empty request. *)
Theorem server_stream_without_request impl opts info (R : Outcome (option error) → W → Prop) (c0 : ctx) p s w :
  heap w !! p = Some s → mu s = false → recvItems s = [] → ended s = false → halfClosed s = true →
  ctx_Err (ctxs w) (sctx s) = None → bc_Stream (ApplyBridgeOptions opts) = None →
  (∀ w1 y, shims w1 !! y = Some (mkShimState None None) → wlog w1 = wlog w →
     total R (s_ServerStream impl proto_new (shim p (mkGoCtx c0 None None None) y)) w1) →
  total (λ r w', r = Returned (Some ErrEOF) ∧ wlog w' = wlog w)
    (registrar_stream None info _EchoService_ServerStream_Handler impl c0 p) w ∧
  total (λ r w', ∃ o, r = handler_result o ∧ R o w')
    (adapter_ServerStream (EchoServiceFromGRPC impl opts) c0 p) w.
Proof.
  intros Hp Hmu Hi He Hh Hc Hopts HR. split.
  - unfold Registrar.registrar_stream, incoming. apply total_bind, total_bind.
    eapply total_locked_read; [done..|]. apply total_ret, total_bind, total_update, total_bind. simpl.
    unfold _EchoService_ServerStream_Handler. apply total_bind. simpl. unfold gs_RecvMsg. apply total_bind.
    eapply (recv_eof _ _ s); [done..|]. intros sig. by do 3 apply total_ret.
  - unfold adapter_ServerStream, recv_request, Recv, RecvContext. do 3 apply total_bind.
    eapply (recv_eof _ _ s); [done..|]. intros sig. apply total_ret. rewrite decide_True by done.
    apply total_ret, total_bind. simpl. unfold bridge_ServerStream, bridge_run. simpl. rewrite Hopts.
    apply total_bind, total_update. simpl. eapply total_mono; [|apply HR].
    + intros o w' Ho. apply total_ret. by exists o.
    + by apply list_lookup_middle.
    + done.
Qed.

End adapters.
