(* ===== verification/Examples.v ===== *)
(** * Concrete runs

    Endpoints over the in-memory pipe on which the hypotheses of the theorems about
    the endpoint, the read loop, the streams and the server hold. *)

From S2P Require Import Prelude Goroutine Status Context Conn Strconv Stream World StreamOps MuxOps Endpoint Admission Alone Routing Lifecycle FlowControl Options Server Dispatch Metadata Registrar.
Import Pipe.

#[local] Existing Instance plain_grpc.
Abbreviation PW := (World pipeConn).

(** ** Worlds *)

Definition all_stats : ServerStats := mkServerStats true true true true true true true true.

(** A fresh server connection: window of 8 bytes, at most 1 stream. *)
Definition fresh : PW := Eval vm_compute in
  newMuxConfig Background (newPipe).1 256 8 1 (Some all_stats) ctx_empty.

Definition open1 : Frame := (frame 1 KIND_OPEN) <| FMethod := "/svc/m" |>.
Definition msg (n : nat) : Frame := (frame 1 KIND_MSG) <| Payload := replicate n Byte.x2a |>.

(** The same connection with stream 1 open. *)
Definition live : PW := Eval vm_compute in opened open1 fresh.

(** ... with two messages in its backlog, and the pipe closed by the peer. *)
Definition with_stream0 (f : Stream → Stream) (w : PW) : PW :=
  match heap w !! 0%nat with Some s => set_stream 0 (f s) w | None => w end.

Definition backlog (s : Stream) : Stream :=
  s <| recvItems := [msg 9; msg 1] |> <| recvBytes := 10 |>.

Definition busy : PW := Eval vm_compute in
  (with_stream0 backlog live) <| conn := mkPipeConn [] [] true |>.

(** ... and ended by an END frame with a status. *)
Definition end_status : Frame :=
  (frame 1 KIND_END) <| FStatus := Some (mkPStatus 5 "not found" []) |>.

Definition over : PW := Eval vm_compute in
  with_stream0 (λ s, s <| ended := true |> <| endFrame := Some end_status |>) busy.

Definition half : PW := Eval vm_compute in with_stream0 (λ s, s <| halfClosed := true |>) busy.

Definition stream0_of (w : PW) : Stream :=
  default (newStream [] 0 EmptyString 0 ctx_empty).2 (heap w !! 0%nat).

Definition spawn (p : nat) : Prog PW unit := Go (RecvRaw p ;; Ret ()).

Lemma unlocked_live : unlocked live.
Proof. split; [done|]. repeat constructor. Qed.

Lemma unlocked_busy : unlocked busy.
Proof. split; [done|]. repeat constructor. Qed.

Lemma live_can_write : can_write live.
Proof. split; [done|]. intros e f. done. Qed.

Lemma closed_writable : writable (λ cn : pipeConn, pdone cn = true).
Proof.
  split.
  - intros e f cn Hd. simpl. unfold pipe_WriteFrame. rewrite Hd. by destruct (_ <? _).
  - intros e f cn cn' r Hd [(_ & -> & _)|(-> & _)]%pipe_WriteFrame_inv; done.
Qed.

(** ** The endpoint *)

(** A connection on which the peer opens stream 1 and sends a message of 9 bytes: the
    read loop routes both, the handler's goroutine takes the message and gives its
    credit back, and the caller closes the connection. *)
Definition busy_start : Config PW :=
  mkConfig (newMuxConfig Background (mkPipeConn [open1; msg 9] [] false) 256 8 1 None ctx_empty)
    (mux_goroutines (Some spawn) ++ [Close ;; Ret ()]).

Definition routed_both : list (nat * nat) := replicate 30 (0, 0)%nat.
Definition then_served : list (nat * nat) := replicate 16 (3, 0)%nat ++ replicate 8 (2, 0)%nat.

(** Stream 1 is registered and holds the message. *)
Definition both_routed (k : Config PW) : bool :=
  bool_decide (streams (mux (world k)) !! 1 = Some 0%nat) &&
  match heap (world k) !! 0%nat with Some s => recvBytes s =? 9 | None => false end.

(** The credit of the message went out, and the connection is closed. *)
Definition served_closed (k : Config PW) : bool :=
  bool_decide (Window <$> wlog (world k) = [9]) && closedFlag (mux (world k)) &&
  match heap (world k) !! 0%nat with Some s => recvBytes s =? 0 | None => false end.

Lemma endpoint_invariant_witness :
  ∃ c1 c2, both_routed c1 = true ∧ served_closed c2 = true ∧
    world_wf (world c1) ∧ world_wf (world c2) ∧ world_le (world c1) (world c2).
Proof.
  destruct (reaches_rtc outside routed_both busy_start
    (λ k, both_routed k && reaches then_served k served_closed)) as (c1 & H1 & [G1 R2]%andb_true_iff);
    [vm_compute; reflexivity|].
  destruct (reaches_rtc outside then_served c1 served_closed R2) as (c2 & H2 & G2).
  exists c1, c2. split; [exact G1|]. split; [exact G2|].
  apply (endpoint_invariant Background (mkPipeConn [open1; msg 9] [] false) 256 8 1 None ctx_empty
    (Some spawn) [Close ;; Ret ()]).
  - intros h p [= <-]. apply rt_Go, rt_Bind; [apply rt_RecvRawContext|]. intros. apply rt_Ret.
  - constructor; [|constructor]. apply rt_Bind; [apply rt_Close|]. intros. apply rt_Ret.
  - exact H1.
  - exact H2.
Defined.

(** ** Routing *)

Lemma route_duplicate_open_witness :
  total (λ _ w', w' = queue_ctrl (rst 1 codes.Internal "duplicate stream id") live)
    (route (Some spawn) open1) live.
Proof. by apply (route_duplicate_open spawn open1 0%nat). Defined.

Lemma route_open_over_cap_witness :
  total (λ _ w', len (events w') = 1 ∧ len (ctrlCh (mux w')) = 1)
    (route (Some spawn) (frame 3 KIND_OPEN)) live.
Proof.
  eapply total_mono; [|by apply (route_open_over_cap spawn (frame 3 KIND_OPEN) live)].
  by intros _ w' ->.
Defined.

Lemma route_open_accept_witness :
  total (λ _ w', streams (mux w') !! 1 = Some 0%nat) (route (Some spawn) open1) fresh.
Proof.
  apply (route_open_accept _ spawn open1 fresh); try done.
  intros s _ _ _ _ _ _ Hs. apply total_go. by rewrite Hs.
Defined.

Lemma route_unknown_id_witness : total (λ _ w', w' = live) (route (Some spawn) (frame 7 KIND_MSG)) live.
Proof. by apply (route_unknown_id (Some spawn) (frame 7 KIND_MSG) live). Defined.

Lemma route_terminal_witness :
  total (λ _ w', streams (mux w') = delete 1 (streams (mux busy)))
    (route (Some spawn) end_status) busy.
Proof.
  eapply total_mono; [|apply (route_terminal (Some spawn) end_status 0%nat (stream0_of busy) busy);
    [by left|apply unlocked_busy|done|done]].
  by intros _ w' [? _].
Defined.

Lemma route_msg_overflow_witness :
  total (λ _ w', streams (mux w') = delete 1 (streams (mux busy)))
    (route (Some spawn) (msg 1)) busy.
Proof.
  eapply total_mono; [|apply (route_msg_overflow (Some spawn) (msg 1) 0%nat (stream0_of busy) busy);
    [done|apply unlocked_busy|done..]].
  by intros _ w' (s' & _ & _ & _ & _ & _ & _ & ? & _).
Defined.

Lemma route_msg_deliver_witness :
  total (λ _ w', len (events w') = 1) (route (Some spawn) (msg 3)) live.
Proof.
  eapply total_mono; [|apply (route_msg_deliver (Some spawn) (msg 3) 0%nat (stream0_of live) live);
    [done|apply unlocked_live|done|done|done|by left]].
  by intros _ w' ->.
Defined.

Lemma route_never_waits_for_wire_witness :
  pstep (route (Some spawn) open1) live = [] ↔
  pstep (route (Some spawn) open1) (live <| conn := mkPipeConn [] [] true |>
    <| mux ::= λ m, m <| writeMu := true |> |>) = [].
Proof.
  apply (route_never_waits_for_wire (Some spawn) open1 (route (Some spawn) open1)).
  - by intros h p [= <-].
  - apply rtc_refl.
  - by exists (mkPipeConn [] [] true), true, [], [].
Defined.

Lemma route_returns_witness : total (λ _, unlocked) (route (Some spawn) (msg 2)) live.
Proof.
  apply (route_returns (Some spawn) (msg 2) live).
  - intros h p w [= <-] Hw. by apply total_go.
  - apply unlocked_live.
  - intros id p Hp. vm_compute in Hp. destruct id as [|[| |]|]; try done.
    injection Hp as <-. by eexists.
Defined.

(** ** Streams *)

Lemma recv_drains_then_ends_witness :
  total (λ rs _, rs = [(Payload (msg 9), None); (Payload (msg 1), None);
      ([], Some (ErrStatus (Some (mkStatus 5 "not found" []))));
      ([], Some (ErrStatus (Some (mkStatus 5 "not found" []))))])
    (recv_n 4 Background 0) over.
Proof.
  eapply total_mono; [|apply (recv_drains_then_ends (λ cn : pipeConn, pdone cn = true) 0 (stream0_of over) 2 over);
    try done; apply closed_writable].
  intros rs w' (es & -> & Hlen & Hes). destruct es as [|e1 [|e2 [|]]]; try discriminate.
  repeat (apply Forall_cons in Hes as [[->|[Hh _]] Hes]; [|discriminate Hh]). reflexivity.
Defined.

(** A stream that ended with status 5 after the peer had half-closed it. *)
Definition over_half : PW := Eval vm_compute in
  with_stream0 (λ s, s <| ended := true |> <| endFrame := Some end_status |> <| halfClosed := true |>) live.

(** Receives on it may return the status, and may return io.EOF: the [select] of
    [RecvRawContext] has both cases ready. *)
Theorem half_closed_end_may_hide_status :
  ([], Some (ErrStatus (Some (mkStatus 5 "not found" [])))) ∈ (returns 40 (RecvRaw 0) over_half).*2 ∧
  ([], Some ErrEOF) ∈ (returns 40 (RecvRaw 0) over_half).*2.
Proof.
  assert ((returns 40 (RecvRaw 0) over_half).*2 =
    [([], Some ErrEOF); ([], Some (ErrStatus (Some (mkStatus 5 "not found" []))))]) as ->
    by (vm_compute; reflexivity).
  split; set_solver.
Qed.

Lemma recv_drains_then_eof_witness :
  total (λ rs _, rs = [(Payload (msg 9), None); (Payload (msg 1), None); ([], Some ErrEOF)])
    (recv_n 3 Background 0) half.
Proof.
  apply (recv_drains_then_eof (λ cn : pipeConn, pdone cn = true) 0 (stream0_of half) 1 half);
    try done. apply closed_writable.
Defined.

(** A caller whose own context (node 9) was cancelled. *)
Definition impatient : PW := live <| ctxs ::= λ σ, σ <| ctx_dead ::= <[9%nat := ErrCanceled]> |> |>.

Lemma recv_caller_done_witness :
  total (λ r _, r = ([], Some ErrCanceled)) (RecvRawContext [9%nat] 0) impatient.
Proof.
  eapply total_mono; [|by apply (recv_caller_done [9%nat] ErrCanceled 0 (stream0_of live) impatient)].
  by intros r w' [-> _].
Defined.

Lemma send_header_once_witness :
  total (λ _, header_closed 0) (SendRaw 0 [Byte.x00]) live.
Proof.
  apply (send_header_once 0 (stream0_of live) (Some ∅) [Byte.x00] live); done.
Defined.

Lemma end_writes_and_terminates_witness :
  total (λ _ w', ∃ s', heap w' = [s'] ∧ ended s' = true)
    (end_ 0 (Some (mkStatus codes.OK EmptyString [])) None) live.
Proof.
  eapply total_mono; [|apply (end_writes_and_terminates 0 (stream0_of live)
    (Some (mkStatus codes.OK EmptyString [])) None live); [apply live_can_write|done..]].
  intros err w' (s' & Hh & He & _). exists s'. by rewrite Hh.
Defined.

Lemma failAll_ends_all_witness :
  total (λ _ w', streams (mux w') = ∅)
    (failAll (Errorf codes.Unavailable "wsrpc: connection lost")) busy.
Proof.
  eapply total_mono; [|apply (failAll_ends_all (Errorf codes.Unavailable "wsrpc: connection lost") busy)].
  - by intros _ w' [-> _].
  - done.
  - intros [|q] s Hs; [|done]. by injection Hs as <-.
  - intros id p Hp. vm_compute in Hp. destruct id as [|[| |]|]; try done.
    injection Hp as <-. by eexists.
Defined.

Lemma client_ids_odd_distinct_witness : alloc_ids 3 (mux fresh) = [1; 3; 5] ∧ NoDup (alloc_ids 3 (mux fresh)).
Proof. by apply (client_ids_odd_distinct (mux fresh) 3). Defined.

Lemma empty_store_wf : ctx_store_wf ctx_empty.
Proof. by intros n [e He]. Qed.

Lemma deadline_roundtrip_witness :
  ctx_Err (WithTimeout [] 1500000000 ctx_empty).1 (WithTimeout [] 1500000000 ctx_empty).2 = None ∧
  (open_ctx [] (deadline_headers (Some 1500) None) ctx_empty).1.2 = [0%nat].
Proof.
  destruct (deadline_roundtrip [] 1500 None ctx_empty) as (Heq & Hlive & _);
    [done|apply empty_store_wf|done|].
  split; [exact Hlive|]. by rewrite Heq.
Defined.

Lemma deadline_overflow_witness :
  ctx_Err (open_ctx [] (Some {[timeoutHeader := "9223372036855"]}) ctx_empty).1.1
    (open_ctx [] (Some {[timeoutHeader := "9223372036855"]}) ctx_empty).1.2 = Some ErrDeadlineExceeded.
Proof.
  apply (deadline_overflow [] (Some {[timeoutHeader := "9223372036855"]}) "9223372036855" 9223372036855);
    try done. apply empty_store_wf.
Defined.

(** ** The server *)

(** A handler that refuses every call. *)
Definition nope : Handler (C:=pipeConn) := λ c p, Ret (Returned (Some (Errorf codes.FailedPrecondition "nope"))).

Definition srv1 : Server (C:=pipeConn) :=
  Register "/svc/m" (Some nope)
    (NewServer [WithSameOriginOnly; WithMaxConcurrentStreams 1; WithStats (Some all_stats)]).

Lemma srv1_shrinks : handlers_shrink srv1.
Proof.
  intros m h c p. unfold lookup_handler. simpl. intros Hm.
  destruct (decide (m = "/svc/m")) as [->|Hne].
  - rewrite lookup_insert_eq in Hm. simpl in Hm. by simplify_eq.
  - by rewrite lookup_insert_ne, lookup_empty in Hm.
Qed.

(** The peer opens two streams on a server that allows one: the first is registered, the
    second is refused. *)
Definition two_opens : pipeConn := mkPipeConn [open1; (frame 3 KIND_OPEN) <| FMethod := "/svc/m" |>] [] false.

Definition at_cap (k : Config PW) : bool :=
  (Z.of_nat (size (streams (mux (world k)))) =? 1) && (len (ctrlCh (mux (world k))) =? 1) &&
  (len (rlog (world k)) =? 2).

Lemma server_max_streams_witness :
  ∃ k, rtc (sys_step elsewhere) (ServeConn srv1 Background two_opens ctx_empty) k ∧ at_cap k = true ∧
    Z.of_nat (size (streams (mux (world k)))) ≤ 1.
Proof.
  destruct (reaches_rtc elsewhere (replicate 27 (0, 0)%nat) (ServeConn srv1 Background two_opens ctx_empty)
    at_cap) as (k & Hrun & Hcap); [vm_compute; reflexivity|].
  exists k. split; [exact Hrun|]. split; [exact Hcap|].
  apply (server_max_streams srv1 Background two_opens ctx_empty k); [done|apply srv1_shrinks|exact Hrun].
Defined.

Lemma serveStream_handled_witness :
  total (λ _ w2, ∃ s', heap w2 = [s'] ∧ endSt s' = Some (mkStatus codes.FailedPrecondition "nope" []))
    (serveStream srv1 0) live.
Proof.
  set (w1 := live <| events ::= stat_dispatch (stats (mux live)) (EvStreamStarted "/svc/m") |>).
  eapply total_mono; [|apply (serveStream_handled srv1 0 (stream0_of live) nope
    (λ r w, r = Returned (Some (Errorf codes.FailedPrecondition "nope")) ∧ w = w1) live)].
  - intros _ w2 (r & w & s1 & [-> ->] & _ & [(s' & Hh & _ & Hst) _ _ _ _] & _).
    exists s'. by rewrite Hh.
  - done.
  - done.
  - done.
  - by apply total_ret.
  - intros r w [-> ->]. exists (stream0_of live). by split; try apply live_can_write.
Defined.

Lemma serveStream_unknown_witness :
  total (λ _ w2, events w2 = []) (serveStream (NewServer []) 0) live.
Proof.
  eapply total_mono; [|apply (serveStream_unknown (NewServer []) 0 (stream0_of live) live)].
  - by intros _ w2 [-> _].
  - by split; try apply live_can_write.
  - done.
  - done.
Defined.

(** ** Client calls *)

(** Messages are their bytes, a mux is at hand, and no context has a deadline. *)
Definition raw_marshal (b : bytes) : error + bytes := inr b.
Definition at_hand (c : ctx) : Prog PW (option error) := Ret None.
Definition no_deadline (c : ctx) : option Z := None.

Definition spec1 : MethodSpec := mkMethodSpec "/svc/m" StreamKindUnary.

(** Two messages, then END with status 5: the reply half of a unary call succeeds. *)
Definition two_replies : PW := Eval vm_compute in
  with_stream0 (λ s, s <| recvItems := [msg 9; msg 1] |> <| recvBytes := 10 |>) over.

Theorem second_message_hides_status :
  total (λ r _, r = inr (mkAnyResponse spec1 None None (Payload (msg 9))))
    (unary_reply raw_marshal spec1 0) two_replies.
Proof.
  apply total_bind, total_Recv. eapply (recv_ended_any (λ cn, pdone cn = true) _ _ (stream0_of two_replies));
    [apply closed_writable|done..|].
  eapply received_mono; [|apply (reply_received (λ cn, pdone cn = true) raw_marshal spec1 0
    (stream0_of two_replies) closed_writable); done].
  intros r w Hr. eapply total_mono; [|exact Hr]. by intros x w' ->.
Qed.

(** Two interceptors that set the same key: the inner one wins. *)
Lemma metadata_reaches_wire_witness :
  opens (OpenStreamingClient raw_marshal at_hand no_deadline
      (add_header <$> [("auth", "a"); ("auth", "b")])) Background spec1 None
    (λ r w', match r with
             | inr k => RequestHeader k = Some {["auth" := "b"]} ∧ size (streams (mux w')) = 1%nat
             | inl _ => True
             end) fresh.
Proof.
  eapply total_mono; [|apply (metadata_reaches_wire raw_marshal at_hand no_deadline
    [("auth", "a"); ("auth", "b")] Background spec1 None fresh)].
  - intros [e|k] w'; [done|]. simpl. intros [-> [_ (_ & _ & ->)]]. by vm_compute.
  - split; [done|]. by intros e f.
  - done.
  - by apply total_ret.
Defined.

Lemma CloseResponse_is_local_witness :
  total (λ _ w', wlog w' = [])
    (CloseResponse (streamConn raw_marshal 0 spec1 None) ;; route None (msg 3)) live.
Proof.
  eapply total_mono; [|by apply (CloseResponse_is_local raw_marshal 0 spec1 None (stream0_of live) (msg 3) live)].
  by intros _ w' (_ & _ & -> & _).
Defined.

(** ** gRPC services *)

#[local] Existing Instance plain_md.
#[local] Existing Instance plain_md_ok.

Lemma incoming_flatten_roundtrip_witness :
  FlattenMD (Some (incoming_md (Some {["auth" := "a"; "x" := "y"]}))) ≫= lookup "auth" = Some "a".
Proof.
  rewrite (incoming_flatten_roundtrip (Some {["auth" := "a"; "x" := "y"]}) "auth"); [|intros; reflexivity].
  by vm_compute.
Defined.

(** A connection that takes every frame. *)
Definition log_conn : FrameConn (list Frame) := {|
  WriteFrame := λ _ f l, [(l ++ [f], None)];
  ReadFrame := λ _ _, [];
  Ping := λ _ l, [(l, None)];
  CloseConn := λ l, [(l, None)]
|}.
#[local] Existing Instance log_conn.
Abbreviation LW := (World (list Frame)).

Lemma log_lossless : lossless (λ _ : list Frame, True).
Proof.
  split; [split|].
  - done.
  - done.
  - intros f cn cn' r _ Hin%list_elem_of_singleton. by simplify_eq.
Qed.

(** Two ends of stream 1 with a window of 8 bytes: 10 bytes wait at the receiver, so the
    sender is 2 bytes over its window. *)
Definition end_with (f : Stream → Stream) : LW :=
  let w : LW := opened open1 (newMuxConfig Background [] 256 8 1 None ctx_empty) in
  match heap w !! 0%nat with Some s => set_stream 0 (f s) w | None => w end.

Definition broke : LW := Eval vm_compute in end_with (λ s, s <| sendWindow := -2 |>).
Definition full : LW := Eval vm_compute in end_with backlog.

Definition log_stream (w : LW) : Stream :=
  default (newStream [] 0 EmptyString 0 ctx_empty).2 (heap w !! 0%nat).

Lemma sender_released_witness :
  suspends (λ k ws1,
      total (λ rs wr', rs = [(Payload (msg 9), None); (Payload (msg 1), None)] ∧
          ∃ us, wlog wr' = us ∧
            total (λ _ ws2, total (λ r ws3, r = None ∧ wlog ws3 = [msg_frame 1 [Byte.x2b]]) k ws2)
              (for_each us (route None)) ws1)
        (recv_n 2 Background 0) full)
    (SendRaw 0 [Byte.x2b]) broke.
Proof.
  apply (sender_released (λ _, True) (λ _, True) None 0 (log_stream broke) [Byte.x2b] 0 (log_stream full)
    Background broke full); try apply log_lossless; try done; vm_compute; try done; lia.
Defined.

(** A unary call on a client connection, and two ways its stream can have ended: a
    message and END with OK, or a message and END with status 5. *)
Definition idle_client : LW := Eval vm_compute in newMuxConfig Background [] 256 8 0 None ctx_empty.
Definition mux_at_hand (c : ctx) : Prog LW (option error) := Ret None.

Definition ended_with (st : PStatus) (s : Stream) : Stream :=
  s <| recvItems := [msg 2] |> <| ended := true |>
    <| endFrame := Some ((frame 1 KIND_END) <| FStatus := Some st |>) |>.

Definition replied_ok : LW := Eval vm_compute in end_with (ended_with (mkPStatus 0 EmptyString [])).
Definition replied_5 : LW := Eval vm_compute in end_with (ended_with (mkPStatus 5 "not found" [])).
Definition stream_ok : Stream := Eval vm_compute in log_stream replied_ok.
Definition stream_5 : Stream := Eval vm_compute in log_stream replied_5.

Lemma outcome_ok x :
  unary_outcome raw_marshal spec1 stream_ok x → response_msg x = inr (Payload (msg 2)).
Proof. intros [->|[Hh _]]; [by vm_compute|discriminate Hh]. Qed.

Lemma outcome_5 x :
  unary_outcome raw_marshal spec1 stream_5 x →
  response_msg x = inl (ErrStatus (Some (mkStatus 5 "not found" []))).
Proof. intros [->|[Hh _]]; [by vm_compute|discriminate Hh]. Qed.

Lemma unary_call_outcome_witness :
  suspends (λ k w1,
      FKind <$> wlog w1 = [KIND_OPEN; KIND_MSG; KIND_HALF_CLOSE] ∧
      total (λ r _, r = inr (Payload (msg 2))) k replied_ok ∧
      total (λ r _, r = inl (ErrStatus (Some (mkStatus 5 "not found" [])))) k replied_5)
    (InvokeUnary raw_marshal mux_at_hand no_deadline (add_header <$> [("auth", "a")]) Background spec1
       [Byte.x2b] raw_marshal None) idle_client.
Proof.
  eapply suspends_mono; [|apply (unary_call_outcome raw_marshal mux_at_hand no_deadline (λ _, True) raw_marshal
    [("auth", "a")] Background spec1 [Byte.x2b] [Byte.x2b] None idle_client)].
  - intros k w1 (Hl & _ & Hk). split; [by rewrite Hl|]. split.
    + eapply total_mono; [|apply (Hk replied_ok stream_ok (conj eq_refl I) eq_refl (conj eq_refl eq_refl) eq_refl)].
      intros r w' (x & Hx & ->). by apply outcome_ok.
    + eapply total_mono; [|apply (Hk replied_5 stream_5 (conj eq_refl I) eq_refl (conj eq_refl eq_refl) eq_refl)].
      intros r w' (x & Hx & ->). by apply outcome_5.
  - apply log_lossless.
  - done.
  - done.
  - intros n [e He]. by vm_compute in He.
  - done.
  - done.
  - by apply total_ret.
Defined.

(** A server stream with one request in its backlog. *)
Definition request : LW := Eval vm_compute in
  let w : LW := opened open1 (newMuxConfig Background [] 256 8 1 None ctx_empty) in
  match heap w !! 0%nat with
  | Some s => set_stream 0 (s <| recvItems := [msg 2] |> <| recvBytes := 2 |>) w
  | None => w
  end.

Definition request0 : Stream :=
  default (newStream [] 0 EmptyString 0 ctx_empty).2 (heap request !! 0%nat).

Definition raw_unmarshal (b : bytes) (v : unit) : error + bytes := inr b.

(** A method that sets a header and echoes its request. *)
Definition echo : MethodHandler (C:=list Frame) (Impl:=unit) (Msg:=bytes) (Target:=unit) (UnaryInt:=unit) :=
  λ _ c decode _, ctx_SetHeader c (Some {["x" := "y"]}) ;; Ret (Done (decode ())).

(** What is left when [echo] has returned: the header is in the sink. *)
Definition echoed (o : Outcome (error + bytes)) (w : LW) : Prop :=
  o = Done (inr (Payload (msg 2))) ∧
  ∃ x y, sendable (λ _, True) 0 (consumed x y [] request0) w ∧
    sinks w = [mkMdSink (Some {["x" := "y"]}) None].

Lemma registrar_unary_serves_witness :
  total (λ r w', r = Returned None ∧ ∃ l, wlog w' = l ++
      [header_frame 1 (Some {["x" := "y"]}); msg_frame 1 (Payload (msg 2))])
    (registrar_unary raw_marshal raw_unmarshal None "/svc/m" echo () Background 0%nat) request.
Proof.
  eapply total_mono; [|apply (registrar_unary_serves raw_marshal raw_unmarshal (λ _, True) None "/svc/m"
    echo () Background 0%nat request0 (msg 2) [] echoed request)].
  - intros r w' (o & w2 & [-> (x & y & Hs & Hk)] & s2 & k & Hp2 & Hk2 & -> & [_ Hfr _]).
    split; [done|]. exists (wlog w2). rewrite Hfr. rewrite Hk in Hk2.
    rewrite (sb_stream _ _ _ _ Hs) in Hp2. vm_compute in Hk2. by simplify_eq.
  - apply log_lossless.
  - done.
  - done.
  - done.
  - done.
  - intros x y w1 Hh Hσ Hr Hk. unfold echo. apply total_bind. eapply total_mergeHeader; [by rewrite Hk|].
    apply total_ret. split; [done|]. exists x, y. split; [|simpl; by rewrite Hk].
    split; simpl; [by rewrite Hh|done|done|by rewrite Hσ|done].
  - intros res w2 [_ (x & y & Hs & Hk)]. exists (consumed x y [] request0), (mkMdSink (Some {["x" := "y"]}) None).
    by rewrite Hk.
Defined.

(** The same stream with nothing pending in its gRPC adapter. *)
Definition adapted : LW := Eval vm_compute in request <| gstreams := [mkServerStreamState None] |>.

Lemma stream_headers_flushed_witness :
  total (λ _ w', ∃ h, wlog w' = [header_frame 1 h; msg_frame 1 (Payload (msg 1))] ∧
      h ≫= lookup "k" = Some "a,b")
    (for_each [Some {["k" := ["a"]]}; Some {["k" := ["b"]]}] (λ md, gs_SetHeader 0%nat md ;; Ret ()) ;;
     gs_SendMsg raw_marshal 0%nat 0%nat (Payload (msg 1))) adapted.
Proof.
  eapply total_mono; [|apply (stream_headers_flushed raw_marshal (λ _, True) 0%nat 0%nat request0
    [Some {["k" := ["a"]]}; Some {["k" := ["b"]]}] (Payload (msg 1)) (Payload (msg 1)) adapted)].
  - intros r w' (_ & _ & h & Hl & Hv). exists h. split; [exact Hl|]. by apply (Hv "k").
  - apply log_lossless.
  - by split.
  - done.
  - done.
  - done.
  - done.
Defined.

(** A service with one method and one stream. *)
Definition svc : ServiceDesc (C:=list Frame) (Meta:=unit) :=
  mkServiceDesc "svc" [mkMethodDesc "m" echo]
    [mkStreamDesc "s" (λ _ ss, err <- ss_SendMsg ss [] ;; Ret (Done err)) true false] ().

Lemma RegisterService_routes_witness :
  (∃ h, handlers (gr_srv (RegisterService raw_marshal raw_unmarshal svc ()
    (GRPCRegistrar (NewServer []) []))) !! "/svc/s" = Some (Some h)) ∧
  GetServiceInfo (RegisterService raw_marshal raw_unmarshal svc () (GRPCRegistrar (NewServer []) [])) =
    {["svc" := mkServiceInfo [mkMethodInfo "m" false false; mkMethodInfo "s" false true] ()]}.
Proof.
  destruct (RegisterService_routes raw_marshal raw_unmarshal svc () (GRPCRegistrar (NewServer []) []))
    as (Hin & _ & _ & Hinfo).
  - change (NoDup ["/svc/m"; "/svc/s"]). by apply (bool_decide_unpack _).
  - split; [|exact Hinfo]. eexists. apply (Hin "/svc/s"). right. left.
Defined.
