(* ===== verification/EndToEnd.v ===== *)
(** * End to end

    The example service run over a pipe, from the generated client to the generated
    server and back, and the concrete instances of the theorems about the generated
    code, the example server, dialing and networks. *)

From S2P Require Import Prelude Goroutine Status Context Conn Strconv Stream World StreamOps MuxOps Endpoint Admission Alone Routing Lifecycle Options Server Dispatch Metadata Registrar Client Dial Net Delivery Messages Credit Window Oblivious Echo EchoGrpc ExampleServer Bridge Examples.
From Stdlib Require Import Strings.Byte.
From Stdlib Require String.
Import Pipe.
#[local] Existing Instance plain_grpc.

(** ** Messages *)

Definition str_bytes (s : string) : bytes := String.list_byte_of_string s.
Definition int_bytes (z : Z) : bytes := match Byte.of_N (Z.to_N (z mod 256)) with Some b => [b] | None => [] end.
Definition bytes_int (b : bytes) : Z := match b with x :: _ => Z.of_N (Byte.to_N x) | [] => 0 end.

(** An encoding of the messages. *)
#[local] Instance p1 : ProtoMessage UnaryRequest := {|
  proto_new := mkUnaryRequest EmptyString; proto_Marshal m := inr (str_bytes (Name m));
  proto_Unmarshal b := inr (mkUnaryRequest (String.string_of_list_byte b)) |}.
#[local] Instance p2 : ProtoMessage UnaryResponse := {|
  proto_new := mkUnaryResponse EmptyString; proto_Marshal m := inr (str_bytes (Greeting m));
  proto_Unmarshal b := inr (mkUnaryResponse (String.string_of_list_byte b)) |}.
#[local] Instance p3 : ProtoMessage ServerStreamRequest := {|
  proto_new := mkServerStreamRequest 0; proto_Marshal m := inr (int_bytes (Count m));
  proto_Unmarshal b := inr (mkServerStreamRequest (bytes_int b)) |}.
#[local] Instance p4 : ProtoMessage ServerStreamResponse := {|
  proto_new := mkServerStreamResponse 0; proto_Marshal m := inr (int_bytes (Index m));
  proto_Unmarshal b := inr (mkServerStreamResponse (bytes_int b)) |}.
#[local] Instance p5 : ProtoMessage ClientStreamRequest := {|
  proto_new := mkClientStreamRequest 0; proto_Marshal m := inr (int_bytes (Value m));
  proto_Unmarshal b := inr (mkClientStreamRequest (bytes_int b)) |}.
#[local] Instance p6 : ProtoMessage ClientStreamResponse := {|
  proto_new := mkClientStreamResponse 0; proto_Marshal m := inr (int_bytes (Sum m));
  proto_Unmarshal b := inr (mkClientStreamResponse (bytes_int b)) |}.
#[local] Instance p7 : ProtoMessage BidiRequest := {|
  proto_new := mkBidiRequest EmptyString; proto_Marshal m := inr (str_bytes (Text m));
  proto_Unmarshal b := inr (mkBidiRequest (String.string_of_list_byte b)) |}.
#[local] Instance p8 : ProtoMessage BidiResponse := {|
  proto_new := mkBidiResponse EmptyString; proto_Marshal m := inr (str_bytes (Echo.Echo m));
  proto_Unmarshal b := inr (mkBidiResponse (String.string_of_list_byte b)) |}.

(** A goroutine of the client that calls Unary and then reports the greeting as the
    header of a second stream. *)
Definition caller : Prog (World pipeConn) unit :=
  o <- client_Unary (λ _, Ret None) (λ _, None) [] Background (mkUnaryRequest "bob") [] ;;
  match o with
  | Done (inr r) => newClientStream Background None (Greeting r) None ;; Ret ()
  | _ => Ret ()
  end.

Definition start : Net :=
  connected (I:=unit) (HH:=unit) [] [caller] example_server Background Background ctx_empty ctx_empty.

Definition round : list (bool * nat) :=
  [(true, 0); (true, 1); (true, 2); (false, 0); (false, 1); (false, 2); (false, 3)]%nat.

Definition final : Net := net_run (mjoin (replicate 160 round)) start.

Lemma caller_calls r : r ≠ InHandler → calls r any_payload caller.
Proof.
  intros Hr. unfold caller, client_Unary, InvokeUnary. rewrite chainUnary_foldr. simpl.
  unfold unary_terminal, cc_NewStream, unary_reply.
  repeat first [apply calls_Recv | by apply calls_Send | by apply rt_newClientStream | apply rt_CloseSend
    | apply rt_Header | apply rt_Trailer | apply rt_Ret | apply rt_Bind; [|intros ?] | case_match
    | case_decide].
Qed.

(** A unary call over the pipe: the client reads the greeting and the END, and its
    caller, which opens a stream named like the greeting, got it. *)
Lemma net_refines_fifo_witness :
  rtc duplex_step (mkFifo [] [], mkFifo [] []) (channels final) ∧
  (Payload <$> rlog (world (client final))) = [str_bytes "hello bob"; []] ∧
  (FMethod <$> rlog (world (server final))) =
    ["/echo.v1.EchoService/Unary"; EmptyString; EmptyString; "hello bob"] ∧
  wlog (world (client final)) = rlog (world (server final)) ++ pout (conn (world (client final))).
Proof.
  destruct (net_refines_fifo (I:=unit) (HH:=unit) [] [caller] example_server Background Background
    ctx_empty ctx_empty final) as (Hd & Hw & _).
  - constructor; [by apply caller_calls|constructor].
  - apply example_calls.
  - apply net_run_rtc.
  - split_and!; [exact Hd|by vm_compute|by vm_compute|exact Hw].
Defined.

(** The same call with its histories: the handler took the request and the caller the
    greeting, each the first message after the start of its stream. *)
Definition traced : Trace :=
  trace_run (mjoin (replicate 160 round)) (mkTrace start (λ _, []) (λ _, [])).

Lemma messages_in_order_witness :
  in_order InHandler (wlog (world (client (net traced)))) (world (server (net traced))) (server_took traced) ∧
  in_order InCaller (wlog (world (server (net traced)))) (world (client (net traced))) (client_took traced) ∧
  (Payload <$> server_took traced 0%nat) = [str_bytes "bob"] ∧
  (Payload <$> client_took traced 0%nat) = [str_bytes "hello bob"] ∧
  (FKind <$> (heap (world (client (net traced))) !! 0%nat ≫= endFrame)) = Some KIND_END ∧
  (halfClosed <$> heap (world (server (net traced))) !! 0%nat) = Some true.
Proof.
  destruct (messages_in_order (I:=unit) (HH:=unit) [] [caller] example_server Background Background
    ctx_empty ctx_empty traced) as (Hs & Hc).
  - constructor; [by apply caller_calls|constructor].
  - apply example_calls.
  - apply trace_run_rtc.
  - split_and!; [exact Hs|exact Hc|by vm_compute..].
Defined.

(** The server runs the two calls the client made. *)
Lemma calls_matched_witness :
  matched (world (client (net traced))) (world (server (net traced))) ∧
  (method <$> heap (world (server (net traced)))) = ["/echo.v1.EchoService/Unary"; "hello bob"].
Proof.
  destruct (calls_matched (I:=unit) (HH:=unit) [] [caller] example_server Background Background
    ctx_empty ctx_empty traced) as [Hm _].
  - constructor; [by apply caller_calls|constructor].
  - apply example_calls.
  - apply trace_run_rtc.
  - split; [exact Hm|by vm_compute].
Defined.

(** ** Flow control

    Two endpoints with windows of four bytes: a handler that takes three messages and
    replies, and a caller that sends three and waits for the reply. *)

Definition reader : Handler (C:=pipeConn) := λ c p,
  RecvRawContext c p ;; RecvRawContext c p ;; RecvRawContext c p ;;
  SendRaw p [x01; x02] ;; Ret (Returned None).

Definition window_server : Server (C:=pipeConn) :=
  Register "/read" (Some reader) (NewServer [WithInitialWindow 4]).

Definition writer : Prog (World pipeConn) unit :=
  r <- newClientStream Background None "/read" None ;;
  match r with
  | inl _ => Ret ()
  | inr p =>
      SendRaw p [x01; x02; x03] ;; SendRaw p [x04; x05; x06] ;; SendRaw p [x07; x08] ;;
      RecvRawContext Background p ;; Ret ()
  end.

Abbreviation windowed ts := (connected (I:=unit) (HH:=unit) [WithDialInitialWindow 4] ts window_server
  Background Background ctx_empty ctx_empty).

Definition turned : Turn :=
  turn_run (mjoin (replicate 160 round)) (mkTurn (mkTrace (windowed [writer]) (λ _, []) (λ _, []))
    (λ _, 0) (λ _, 0)).

Lemma writer_calls : Forall (calls InCaller (small 5)) [writer].
Proof.
  constructor; [|constructor]. unfold writer.
  repeat first [by apply rt_newClientStream | apply rt_SendRaw; by vm_compute | apply rt_RecvRawContext
    | apply rt_Ret | apply rt_Bind; [|intros ?] | case_match].
Qed.

Lemma window_server_calls : handlers_call InHandler (small 5) window_server.
Proof.
  intros m h c p Hm. assert (h = reader) as ->.
  { revert Hm. unfold window_server, lookup_handler. simpl. destruct (decide ("/read" = m)) as [->|Hne].
    - rewrite lookup_insert_eq. by intros [= <-].
    - by rewrite lookup_insert_ne by done. }
  simpl. repeat first [apply rt_SendRaw; by vm_compute | apply rt_RecvRawContext | apply rt_Ret
    | apply rt_Bind; [|intros ?]].
Qed.

(** The third message waits for credit; all arrive, and the window is whole again. *)
Lemma window_obeyed_not_refused_witness :
  admits InHandler (wlog (world (client (net (trace turned))))) (world (server (net (trace turned))))
    (server_took (trace turned)) ∧
  admits InCaller (wlog (world (server (net (trace turned))))) (world (client (net (trace turned))))
    (client_took (trace turned)) ∧
  (Payload <$> server_took (trace turned) 0%nat) = [[x01; x02; x03]; [x04; x05; x06]; [x07; x08]] ∧
  (Payload <$> client_took (trace turned) 0%nat) = [[x01; x02]] ∧
  (sendWindow <$> heap (world (client (net (trace turned))))) = [4].
Proof.
  destruct (window_obeyed_not_refused (I:=unit) (HH:=unit) 5 [WithDialInitialWindow 4] [writer] window_server
    Background Background ctx_empty ctx_empty turned) as (Hs & Hc).
  - done.
  - done.
  - done.
  - apply writer_calls.
  - apply window_server_calls.
  - apply turn_run_rtc.
  - split_and!; [by apply Hs|by apply Hc|by vm_compute..].
Defined.

(** *** Two goroutines on one stream *)

Definition two_senders : Prog (World pipeConn) unit :=
  r <- newClientStream Background None "/read" None ;;
  match r with
  | inl _ => Ret ()
  | inr p => Go (SendRaw p [x01] ;; Ret ()) ;; SendRaw p [x02; x03; x04; x05; x06] ;; Ret ()
  end.

Lemma two_senders_calls : Forall (calls InCaller (small 5)) [two_senders].
Proof.
  constructor; [|constructor]. unfold two_senders.
  repeat first [by apply rt_newClientStream | apply rt_SendRaw; by vm_compute
    | apply rt_Ret | apply rt_Go | apply rt_Bind; [|intros ?] | case_match].
Qed.

(** The goroutine that was started takes credit for one byte, the other one takes
    credit for five, writes them, and then the first one writes. *)
Definition overtaking : list (bool * nat) :=
  (replicate 17 (true, 2) ++ replicate 5 (true, 3) ++ replicate 20 (true, 2) ++ replicate 12 (true, 3) ++
   mjoin (replicate 60 [(false, 0); (false, 1)]))%nat.

Definition overtaken : Trace := trace_run overtaking (mkTrace (windowed [two_senders]) (λ _, []) (λ _, [])).

(** The backlog then holds five bytes with a window of four, which
    [buffers_bounded] allows. *)
Lemma buffers_bounded_witness :
  bounded 5 4 4 (world (client (net overtaken))) ∧ bounded 5 4 4 (world (server (net overtaken))) ∧
  (recvItems <$> heap (world (server (net overtaken)))) = [[msg_frame 1 [x02; x03; x04; x05; x06]]] ∧
  (sendWindow <$> heap (world (client (net overtaken)))) = [-2].
Proof.
  destruct (buffers_bounded (I:=unit) (HH:=unit) 5 [WithDialInitialWindow 4] [two_senders] window_server
    Background Background ctx_empty ctx_empty overtaken) as (Hc & Hs).
  - done.
  - done.
  - done.
  - apply two_senders_calls.
  - apply window_server_calls.
  - apply trace_run_rtc.
  - split_and!; [exact Hc|exact Hs|by vm_compute..].
Defined.

(** C40: taking turns is needed.  Client and server have the same window, and two
    goroutines of the client send one message each on one stream, each when
    [SendRaw] lets it; when the longer message overtakes the one whose credit
    was taken first, the server refuses the latter and resets the stream with
    RESOURCE_EXHAUSTED. *)
Theorem concurrent_sends_reset :
  let n := windowed [two_senders] in
  muxWindow (mux (world (client n))) = muxWindow (mux (world (server n))) ∧
  ∃ n', rtc net_step n n' ∧
    (Payload <$> wlog (world (client n'))) = [[]; [x02; x03; x04; x05; x06]; [x01]] ∧
    (λ f, (FKind f, StreamId f, pCode <$> FStatus f)) <$> wlog (world (server n')) =
      [(KIND_RST, 1, Some codes.ResourceExhausted)].
Proof.
  split; [done|]. exists (net_run overtaking (windowed [two_senders])).
  split_and!; [apply net_run_rtc|by vm_compute..].
Qed.

(** ** Serving one call *)

#[local] Existing Instance log_conn.

(** A call whose three requests are in the backlog and whose caller has closed its
    side. *)
Definition sum_call : LW := Eval vm_compute in
  let w : LW := opened ((frame 1 KIND_OPEN) <| FMethod := "/echo.v1.EchoService/ClientStream" |>)
    (newMuxConfig Background [] 256 64 1 None ctx_empty) in
  match heap w !! 0%nat with
  | Some s => set_stream 0 (s <| recvItems := (λ v, msg_frame 1 (int_bytes v)) <$> [1; 2; 4] |>
                              <| recvBytes := 3 |> <| halfClosed := true |>) w
  | None => w
  end.

Definition sum_stream : Stream :=
  default (newStream [] 0 EmptyString 0 ctx_empty).2 (heap sum_call !! 0%nat).

Lemma echo_served_witness :
  total (λ _ w', ∃ l, replies w' = l ++ [msg_frame 1 (int_bytes 7);
      end_frame 1 (Some (mkStatus codes.OK EmptyString [])) None] ∧ streams (mux w') = ∅)
    (serveStream example_server 0%nat) sum_call.
Proof.
  eapply total_mono; [|apply (echo_served (λ _ : list Frame, True) 0%nat sum_stream
    [MClientStreamResponse (mkClientStreamResponse 7)] [int_bytes 7] sum_call)].
  - intros r w' [Hr Hs]. exists []. by rewrite Hr, Hs.
  - apply log_lossless.
  - by split.
  - done.
  - done.
  - intros req [= <-]. by vm_compute.
  - by vm_compute.
  - by vm_compute.
  - by vm_compute.
Defined.

(** ** The gRPC bridge *)

(** A gRPC implementation that sets a header in its unary and its client-streaming
    method. *)
Definition header_md : MD := Some {["k" := ["v"]]}.
Definition header_impl : EchoServiceServer (C:=list Frame) :=
  mkEchoServiceServer
    (header_then_return ErrEOF header_md (mkUnaryResponse "hi"))
    (λ _ _, Ret (Done None))
    (header_then_reply header_md (mkClientStreamResponse 5))
    (λ _, Ret (Done None)).

Lemma client_stream_bridge_drops_header_witness :
  total (λ r w', r = Returned None ∧ wlog w' = [msg_frame 1 (int_bytes 5)])
    (adapter_ClientStream (EchoServiceFromGRPC header_impl []) Background 0%nat) request.
Proof.
  eapply total_mono; [|apply (client_stream_bridge_drops_header (λ _ : list Frame, True) header_impl
    header_md (mkClientStreamResponse 5) (int_bytes 5) Background 0%nat request0 request)].
  - intros r w' [-> Hl]. by rewrite Hl.
  - apply log_lossless.
  - by split.
  - done.
  - done.
Defined.

Lemma unary_bridge_header_witness :
  total (λ r w', r = Returned None ∧
      replies w' = [header_frame 1 (Some {["k" := "v"]}); msg_frame 1 (str_bytes "hi")])
    (adapter_Unary (EchoServiceFromGRPC header_impl [WithUnaryInterceptor (Some pass_through)])
       Background 0%nat) request ∧
  total (λ r w', r = Returned None ∧ replies w' = [msg_frame 1 (str_bytes "hi")])
    (adapter_Unary (EchoServiceFromGRPC header_impl []) Background 0%nat) request.
Proof.
  apply (unary_bridge_header (λ _ : list Frame, True) header_impl ErrEOF header_md {["k" := "v"]}
    (mkUnaryRequest "**") (mkUnaryResponse "hi") (str_bytes "hi") Background 0%nat request0 (msg 2) [] request).
  - apply log_lossless.
  - by split.
  - done.
  - done.
  - done.
  - done.
  - done.
  - by vm_compute.
  - done.
Defined.

(** *** Served in two ways *)

#[local] Arguments oblivious : simpl never.

#[local] Existing Instance plain_md.

(** gRPC's proto codec, on the messages of the package. *)
Definition plain_codec_Marshal (m : any) : error + bytes :=
  match m with AProto m => Marshal m | ANotProto => inl ErrEOF end.
Definition plain_codec_Unmarshal (b : bytes) (t : target) : error + any :=
  match Unmarshal t with
  | Some u => match u b with inl e => inl e | inr m => inr (AProto m) end
  | None => inl ErrEOF
  end.

Lemma plain_agrees : GrpcAgrees plain_codec_Marshal plain_codec_Unmarshal.
Proof. split; try done. intros t u b Hu. unfold plain_codec_Unmarshal. by rewrite Hu. Qed.

(** A method that sets a header, and answers every request. *)
Definition header_echo (ss : ServerStream (C:=pipeConn) (Msg:=any) (Target:=target))
    : Prog (World pipeConn) (Outcome (option error)) :=
  ss_SetHeader ss header_md ;;
  Iter (λ _ : unit,
    r <- ss_RecvMsg ss TBidiRequest ;;
    match r with
    | inl e => Ret (inr (Done (if decide (e = ErrEOF) then None else Some e)))
    | inr (AProto (MBidiRequest req)) =>
        ss_SendMsg ss (AProto (MBidiResponse (mkBidiResponse ("echo:" +:+ Text req)))) ;; Ret (inl ())
    | inr _ => Ret (inr (Paniced "interface conversion"))
    end) ().

Lemma header_echo_streaming : streaming header_echo.
Proof.
  apply built_bind; [apply built_op, op_SetHeader|]. intros _. apply built_iter. intros _.
  apply built_bind; [by apply built_op, op_RecvMsg|].
  intros [e|[[]|]]; try by apply built_oblivious.
  apply built_bind; [apply built_op, op_SendMsg|]. intros _. by apply built_oblivious.
Qed.

(** The other methods are not implemented. *)
Definition bidi_impl : EchoServiceServer (C:=pipeConn) :=
  let u := UnimplementedEchoServiceServer Errorf in
  mkEchoServiceServer (s_Unary u) (s_ServerStream u) (s_ClientStream u) header_echo.

Lemma bidi_impl_keeps : keeps_to_streams bidi_impl (ApplyBridgeOptions []).
Proof.
  split.
  - intros c dec. simpl. unfold _EchoService_Unary_Handler, unary_handler. simpl. solve_oblivious.
  - apply built_bind; [by apply built_op, op_RecvMsg|].
    intros [e|[[]|]]; simpl; by apply built_oblivious.
  - by apply (built_oblivious _ _ true _
      (Ret (Done (Some (Errorf codes.Unimplemented "method ClientStream not implemented"))))).
  - apply header_echo_streaming.
  - by intros ic ss [=].
Qed.

Lemma example_plain : plain_server (C:=pipeConn) example_server.
Proof.
  split; [constructor|]. intros m h c0 p. unfold example_server, RegisterEchoServiceHandler.
  rewrite !lookup_handler_Register. repeat case_decide; [intros [= <-]..|done].
  all: simpl; unfold adapter_Unary, adapter_ServerStream, adapter_ClientStream, adapter_Bidi,
    recv_request, unary_respond, UnaryMD_Header, UnaryMD_Trailer, takeHeader, takeSinkTrailer,
    WithUnaryMetadata, impl, impl_Unary, impl_ServerStream, impl_ClientStream, impl_Bidi, ws_Recv, ws_Send, Recv, RecvContext, Send; simpl; solve_oblivious.
Qed.

(** A connection whose client has opened a call, sent one request and closed its side. *)
Definition bidi_call : pipeConn := mkPipeConn
  [(frame 1 KIND_OPEN) <| FMethod := "/echo.v1.EchoService/Bidi" |>;
   (frame 1 KIND_MSG) <| Payload := str_bytes "hi" |>; frame 1 KIND_HALF_CLOSE] [] false.

(** The header, the answer and the END of the call. *)
Definition answered (l : list Frame) : bool :=
  bool_decide ((λ f, (FKind f, Payload f)) <$> l =
    [(KIND_HEADER, []); (KIND_MSG, str_bytes "echo:hi"); (KIND_END, [])]).

(** The read loop runs, then the call. *)
Definition in_turn (n m : nat) : list (nat * nat) := replicate n (0, 0)%nat ++ replicate m (3, 0)%nat.

Abbreviation bidi_registrar :=
  (echo_registrar plain_codec_Marshal plain_codec_Unmarshal example_server bidi_impl []).
Abbreviation bidi_bridge h := (Register EchoService_Bidi_FullMethodName (Some h) bidi_registrar).
Abbreviation bidi_adapter := (adapter_Bidi (EchoServiceFromGRPC bidi_impl [])).


(** ** Dialing

    A connection is the subprotocol its server chose. *)
Definition toy_dial (_ : option error) (url : string) (_ : DialOptions unit) : list (error + string) :=
  if decide (url = "ws://host/rpc") then [inr "wsrpc.v1"; inr "chat"] else [inl ErrEOF].

Abbreviation dial := (Dial (Interceptor:=unit) (λ _ _ (c : string), [(c, None)])
  (λ _ c, [(c, inl ErrEOF)]) (λ _ c, [(c, None)]) (λ _ _ c, [(c, None)]) (λ c, c) (λ _ c, c)
  (λ _, inl ErrEOF) (λ _, inl ErrEOF) (λ s, s) toy_dial).

(** With [WithReconnect] the controller runs; a server that chose another
    subprotocol is refused. *)
Lemma Dial_outcome_witness :
  (∃ o, inr o ∈ dial Background "ws://host/rpc" [WithReconnect []] ctx_empty ∧
     op_goroutines o = [reconnector_run] ∧ nextID (mux (world (op_mux o))) = 1) ∧
  (∃ e, inl e ∈ dial Background "ws://host/rpc" [] ctx_empty ∧ error_code e = Some codes.Unavailable).
Proof.
  split.
  - eexists. assert (∀ (o : Opened), inr o ∈ dial Background "ws://host/rpc" [WithReconnect []] ctx_empty →
      op_goroutines o = [reconnector_run] ∧ nextID (mux (world (op_mux o))) = 1) as Ho.
    { intros o Hin.
      destruct (Dial_outcome _ _ _ _ _ _ _ _ _ toy_dial Background "ws://host/rpc" [WithReconnect []]
        ctx_empty (inr o) Hin) as (cn & _ & _ & _ & _ & Hid & _ & _ & _ & _ & Hg & _).
      split; [|done]. apply Hg. exists []. left. }
    split; [by left|]. apply Ho. by left.
  - eexists. split; [right; left|done].
Defined.
